(* ===== verification/_CoqProject ===== *)
-Q . S2P
Prelude.v
OSet.v
OSetTree.v
OSetSpec.v
OSetWord.v
OSetId.v
Region.v
RegionSpec.v
RegionClaims.v
Core.v
Trans.v
TransSpec.v
TxStore.v
TxLife.v
TxClaims.v
Pmem.v
Store.v
Flush.v
Report.v
Client.v
Spec.v
StoreSpec.v
SlotLoop.v
MapSpec.v
FlushSpec.v
FenceSpec.v
ReportSpec.v
Sample.v
Refine.v
Overwrite.v
ToolClaims.v
Interface.v
IR.v
IRSane.v
Instr.v
InstrSpec.v
InstrRun.v
InstrClaims.v
IRSaneSpec.v
IRSsa.v
InstrSane.v
InstrSaneRun.v
InstrSaneClaims.v
IRDead.v
IRDeadSpec.v
IRDeadRun.v
IRDeadClaims.v
IRFlat.v
IRFlatSpec.v
IRFlatStmt.v
IRFlatRun.v
IRFlatMeaning.v
IRFlatSim.v
IRFlatClaims.v
EndToEnd.v
EpochSpec.v
CleanSpec.v
Bytes.v
Program.v
StoreSet.v
PmcTx.v
PmcMain.v
PmcClient.v
PmcStoreSpec.v
PmcFlushSpec.v
PmcRun.v
PmcReport.v
PmcTxSpec.v
PmcClaims.v
PmcEndToEnd.v
