(* ===== verification/Prelude.v ===== *)
(** A verification of PMDebugger, the Valgrind tool for persistent memory programs, and of
    pmemcheck, the tool it was made from.

    * The program

    PMDebugger (src/valgrind-pmdebugger/pmdebugger/) watches a client program that keeps data in
    persistent memory.  A store to such memory is persistent only after its cache line has been
    flushed and a fence has followed; the tool tracks every store until then, and reports what is
    left at the end, flushes that are redundant or superfluous, stores outside of transactions, and
    the errors of epochs and of ordered regions.  Its parts:

    - pmc_instrument (pmc_main.c) rewrites each superblock of the client's code and adds calls of
      helpers after stores, flushes and fences; it builds on Valgrind's intermediate representation
      (VEX/pub/libvex_ir.h, VEX/priv/ir_defs.c), on blocks that have been flattened before, and
      the removal of dead code runs on its result (VEX/priv/ir_opt.c);
    - the helpers trace_pmem_store, trace_pmem_flush and do_fence (pmc_main.c) keep the stores since
      the last fence in an array divided into snippets, and the older ones in a tree;
    - pmc_common.c keeps sets of regions (the mappings that are registered as persistent);
    - pmc_tx.c keeps the transactions of the client, their threads and the objects they have logged,
      and checks each store against them;
    - all sets are the AVL trees of coregrind/m_oset.c, whose iterators are explicit stacks;
    - the rest of pmc_main.c handles the command line, the client's requests and the reports.

    pmemcheck (src/valgrind-pmdebugger/pmemcheck/) is kept beside it.  It has the same parts, but
    keeps all the stores in one ordered set by address: a store cuts the older entries it overlaps
    and is merged with its neighbours, a flush cuts the entries at its ends.

    * The files

    This file holds the words of the machine, the ways a run of the tool can stop, the state and
    error monad every component is written in, tactics, and facts on lists.

    - OSet: m_oset.c.  OSetTree, OSetSpec, OSetWord and OSetId: its trees are balanced and ordered,
      its operations are those of a sorted list, of a finite set of words, of a finite map by id;
      [CmpLaws] is the interface between a set and the comparison function of its client.
    - Region: pmc_common.c and struct pmem_st of pmc_include.h.  RegionSpec and RegionClaims: sets
      of regions are sets of bytes, in a canonical form.
    - Core: what is used of the core of Valgrind (messages, contexts, the running thread).
    - Trans: pmc_tx.c.  TransSpec, TxStore, TxLife and TxClaims: what transactions have logged, which
      stores are reported, how transactions nest.
    - Pmem: the state of the tool (pmc_include.h and the globals of pmc_main.c).  Store, Flush, Report
      and Client: pmc_main.c without the instrumentation; the record [world] is the whole state.
    - Spec: the abstract tracker, the specification.  StoreSpec, MapSpec, FlushSpec, FenceSpec,
      ReportSpec and Refine: the tool implements it.  [TxQuiet] is the interface between the store
      path and the transactions.
    - Sample: a concrete environment for the witnesses.
    - SlotLoop: loops that change the slots of the array one after the other ([LoopLaws] is what such
      a loop may do besides).  Overwrite, ToolClaims, EpochSpec, CleanSpec and Interface: overwritten
      stores, epochs, ranges declared clean, full registers, the command line and the requests.
    - IR: libvex_ir.h and ir_defs.c as far as they are used.  Instr: pmc_instrument.  InstrSpec,
      InstrRun and InstrClaims: what the added code does.
    - IRSane: the sanity check of superblocks (ir_defs.c, isFlatIRStmt to sanityCheckIRSB).  IRSaneSpec:
      the check and more temporaries.  IRSsa: single assignment form.  InstrSane, InstrSaneRun and
      InstrSaneClaims: the instrumentation keeps the check; [ToolLike] is what else it keeps.
    - IRDead: the removal of dead code (ir_opt.c, addUses_Temp to do_deadcode_BB).  IRDeadSpec and
      IRDeadRun: what it leaves out, and that nothing of it is seen outside; [TameClient] is what is
      asked of a client.  IRDeadClaims: alone, and after the instrumentation.
    - IRFlat: flattening (ir_opt.c, isFlat to flatten_BB).  IRFlatSpec and IRFlatStmt: the block that is
      built passes the check.  IRFlatRun: a meaning for blocks with nested expressions, over any
      [Machine].  IRFlatMeaning and IRFlatSim: the code that is added computes the values of the
      expressions.  IRFlatClaims: flattening is correct.
    - EndToEnd: the instrumentation, the helpers and the tracker together.
    - Bytes: what both tools promise, byte by byte: dirty, flushed, clean.  Program: what the client's code
      does to the memory, said without the tool, and the conditions on a program under which
      the events the tool handles do the same.  StoreSet: sets of stores by address, with the state
      they give a byte.
    - PmcTx, PmcMain and PmcClient: pmemcheck's pmc_common.c and pmc_tx.c where they differ from
      PMDebugger's, and its pmc_main.c; the record [pc_world] is the whole state.  What has the same
      text in both tools (the instrumentation, most of the transactions) is modelled once.
    - PmcStoreSpec, PmcFlushSpec, PmcRun, PmcReport and PmcTxSpec: what a store, a flush, a fence, the
      report and the operations of transactions do, and whole runs.  [CoreLaws] is what is relied on of the core, [PcTxQuiet] the interface
      between the store path and the transactions.  PmcClaims and PmcEndToEnd: the theorems, and
      the two tools together.

    * What is proved

    - Refinement: a run of the tool on a sequence of mappings, stores, flushes and fences in which no
      flush cuts a store that is tracked and dirty (and with the other conditions of [run_ok], below) returns
      and holds exactly the state of the tracker; a store is tracked exactly if no flush followed by
      a fence came after it; the report at exit lists exactly those stores (Refine).  Through the
      instrumented code: after a sequence of executed client blocks every byte of mapped memory has the state
      it has by what the statements of the blocks do to the memory (Program).
    - Instrumentation: it succeeds on flat typed blocks, leaves the client alone and makes exactly
      the calls an observer of the original block expects; the calls for a store spell its bytes
      (InstrClaims).  A block that passes the sanity check of the translation is in single assignment
      form, satisfies what these theorems ask of a block, and the instrumented block passes the check
      again (InstrSaneClaims).
    - The passes around it: a block of the front end that passes the check is flattened without a panic,
      into a flat block that passes the check and does the same (IRFlatClaims); the removal of dead
      code keeps the check, the client, the jumps and every call the tool has added, except that it
      breaks every block with a call that is never made and whose result is read (IRDeadClaims).
    - pmemcheck: a run on any sequence of mappings, stores, flushes and fences returns and gives every
      byte the state it has by its own history, however stores and flushes cut each other; the state
      stays well formed; what a flush and an overwriting store do to the entries and the registers of
      warnings; the loop of a flush ends; in any well-formed state the report lists the entries of the
      set, counts their bytes and sums up all the errors (PmcClaims).  The bytes through the
      instrumented code (PmcEndToEnd).
    - The two tools agree on every byte, as long as no flush cuts a store of PMDebugger, and on the check
      of stores against transactions (PmcClaims).
    - Sets: finite sets of words, sorted iteration, balance, destruction, exact regions (OSetWord,
      RegionClaims).
    - Transactions: exactness of logging and of the check of stores, errors, nesting (TxClaims).
    - The other checks: overwritten stores, redundant fences of an epoch, stores left at the end of an
      epoch, ranges declared clean, full registers, options, requests (Overwrite, ToolClaims,
      EpochSpec, CleanSpec, Interface).
    - Defects of the code: in general (a covered store of the tree is read after it was freed, Overwrite; a
      store merged with an older one counts against a transaction, PmcClaims; the iterator of a large set,
      OSetWord; numbers that wrap around, Interface), and on concrete runs, where
      the general theorems have a hypothesis that excludes them.

    * Choices

    Words of 64 bits are integers with their wrap-around written out ([wadd], [wsub]), as are the UInt
    that counts the elements of a set ([uint]) and the Long a number of the command line is read into
    ([int64]).  Pointers to nodes of sets are numbers.  Memory from the allocator is arbitrary (a parameter).  A failed
    assertion, a call of VG_(exit), a null dereference and undefined behaviour are the values of
    [stop]; reads past the array and uses of freed nodes are [Undefined] or [NullDeref] (a callback that
    is given the pointer to a freed node gets [None]).

    Loops over sets and arrays take a number of rounds computed from the size of the set or of the
    snippet (Pmem, Store); the theorems show that these are enough, since they state that the
    operations return.  The iterator of a set holds at most 32 nodes: the theorems on runs are for
    fewer than [iter_limit] = 9227464 stores, from where on its assertion can fail (OSetWord).

    The theorems on whole runs are for the options that track stores, flushes and fences ([plain]),
    for flushes that do not cut a dirty store in two ([never_cuts]; without it the tool can lose
    bytes, Refine) and for as many warnings as their registers hold.  Those on runs of pmemcheck need
    no such condition on flushes; they are for stores from the address 1 on (the neighbour in front of
    the address 0 would be the last byte) and for half as many events, since an event can add two
    entries; and a recorded call stack is taken to have an address ([CoreLaws], which the code
    asserts).

    The theorems from the client's code on are for programs whose stores have types the tool traces, without
    store-conditionals, with flushes at the beginning of cache lines, and with the recognition
    of instructions switched on and clflush ordered (Program).  Otherwise the tool does not
    track the stores of F32, F16, I128 and decimal values (it prints that it is unable to), takes a
    store-conditional as made, and flushes a line's length from the operand on.

    * Not modelled

    The execution of the client's own code is a parameter of the theorems on instrumented blocks, and
    so are the types and the values of the operations the tool does not emit.  Of ir_opt.c the other
    passes are left out: constant propagation, redundant GETs and PUTs, the specialisation of helper
    calls, common subexpressions and tree building are case analyses over the several hundred
    primitive operations and over the guest architectures.  The order in which C evaluates the
    arguments of a call is left open: it is any function ([ord] in IRFlat).  Of a superblock, the capacity of the
    array of statements is left out.  The allocators, the printing of
    execution contexts and of the usage text, and the files behind register_new_file (a parameter:
    the result of readlink) are not modelled, nor is the rest of Valgrind, PMDK,
    memcached and memslap, which the repository contains as the framework and as
    programs to test. *)
From stdpp Require Export base option list numbers sets strings.
From Stdlib Require Export ZArith Lia.

#[export] Set Default Goal Selector "!".
#[export] Set Warnings "-clear-no-such-hyp".
Open Scope Z_scope.

(** * Machine words *)

(** [UWord], [Addr], [ULong] and [SizeT] are unsigned 64-bit words (the tool
    asserts it at start-up); they are integers in [0, 2^64) and every addition
    and subtraction of the source wraps. *)
Definition word_size : Z := 2 ^ 64.

(** The value of the C expression [(UWord)-1]. *)
Definition word_max : Z := word_size - 1.

Definition wrap (z : Z) : Z := z mod word_size.

Definition wadd (a b : Z) : Z := wrap (a + b).

Definition wsub (a b : Z) : Z := wrap (a - b).

Definition is_word (z : Z) : Prop := 0 <= z < word_size.

(** A [UInt] is an unsigned 32-bit integer. *)
Definition uint (z : Z) : Z := z mod 2 ^ 32.

(** * Abnormal ends and the state monad *)

(** Why a run of the tool stops: a failed [tl_assert]/[vg_assert], a call of
    [VG_(exit)(-1)], an invalid command line option, a dereference of a null
    pointer, a loop of the model that was given too few iterations, or other
    undefined behaviour (memory that is used after it was freed, an array
    written past its end). *)
Inductive stop : Type :=
  | AssertFail
  | ExitMinus1
  | BadOption
  | NullDeref
  | OutOfFuel
  | Undefined.

(** A computation over a state either returns a value and a state, or stops
    with the state it had reached. *)
Inductive res (S A : Type) : Type :=
  | Ok (a : A) (s : S)
  | Stop (e : stop) (s : S).
Arguments Ok {S A} _ _.
Arguments Stop {S A} _ _.

Definition M (S A : Type) : Type := S -> res S A.

Definition retM {S A} (a : A) : M S A := fun s => Ok a s.

Definition bindM {S A B} (m : M S A) (k : A -> M S B) : M S B :=
  fun s => match m s with Ok a s' => k a s' | Stop e s' => Stop e s' end.

Definition stopM {S A} (e : stop) : M S A := fun s => Stop e s.

Definition getM {S} : M S S := fun s => Ok s s.

Definition getsM {S A} (f : S -> A) : M S A := fun s => Ok (f s) s.

Definition modM {S} (f : S -> S) : M S unit := fun s => Ok tt (f s).

Definition whenM {S} (b : bool) (m : M S unit) : M S unit :=
  if b then m else retM tt.

(** Lift a partial function: [None] is the given abnormal end. *)
Definition liftM {S A} (e : stop) (o : option A) : M S A :=
  match o with Some a => retM a | None => stopM e end.

(** Run a computation on a component of a larger state. *)
Definition zoomM {B S A} (prj : B -> S) (upd : S -> B -> B) (m : M S A) : M B A :=
  fun b => match m (prj b) with
           | Ok a s => Ok a (upd s b)
           | Stop e s => Stop e (upd s b)
           end.

Declare Scope pm_scope.
Delimit Scope pm_scope with pm.
Notation "x <- m ;; k" := (bindM m (fun x => k))
  (at level 100, m at next level, right associativity) : pm_scope.
Notation "m ;;; k" := (bindM m (fun _ : unit => k))
  (at level 100, right associativity) : pm_scope.

(** * Running straight-line code *)

Lemma bind_ok {S A B} (m : M S A) (k : A -> M S B) s a s' :
  m s = Ok a s' -> bindM m k s = k a s'.
Proof. unfold bindM. by intros ->. Qed.

(** Execute the first statement, when it computes. *)
Ltac step := erewrite bind_ok; [|reflexivity].

(** * Facts on words *)

Lemma wrap_small z : is_word z -> wrap z = z.
Proof. intros Hz. unfold wrap. apply Z.mod_small. exact Hz. Qed.

Lemma wadd_small a b : is_word (a + b) -> wadd a b = a + b.
Proof. apply wrap_small. Qed.

Lemma wsub_small a b : is_word (a - b) -> wsub a b = a - b.
Proof. apply wrap_small. Qed.

Lemma uint_small z : 0 <= z < 2 ^ 32 -> uint z = z.
Proof. apply Z.mod_small. Qed.

Lemma uint_add a b : uint (uint a + b) = uint (a + b).
Proof. unfold uint. by rewrite Zplus_mod_idemp_l. Qed.

Lemma uint_sub a b : uint (uint a - b) = uint (a - b).
Proof. unfold uint. by rewrite Zminus_mod_idemp_l. Qed.

Lemma is_word_wrap z : is_word (wrap z).
Proof. unfold is_word, wrap. apply Z.mod_pos_bound. done. Qed.

(** Facts that close the side conditions of the components' lemmas. *)
Create HintDb pm.
#[export] Hint Resolve is_word_wrap wrap_small wadd_small wsub_small : pm.
#[export] Hint Unfold is_word : pm.

(** Arithmetic where no sum or difference leaves the range of a word. *)
Ltac word_solve :=
  repeat match goal with
  | |- context [wadd ?a ?b] => rewrite (wadd_small a b) by (unfold is_word in *; lia)
  | |- context [wsub ?a ?b] => rewrite (wsub_small a b) by (unfold is_word in *; lia)
  | H : context [wadd ?a ?b] |- _ =>
      rewrite (wadd_small a b) in H by (unfold is_word in *; lia)
  | H : context [wsub ?a ?b] |- _ =>
      rewrite (wsub_small a b) in H by (unfold is_word in *; lia)
  end;
  unfold is_word in *; try lia.

(** Case analysis on a boolean test of the code. *)
Ltac ztest :=
  match goal with
  | |- context [(?a =? ?b)] => destruct (Z.eqb_spec a b)
  | |- context [(?a <? ?b)] => destruct (Z.ltb_spec a b)
  | |- context [(?a <=? ?b)] => destruct (Z.leb_spec a b)
  end.

(** * Facts on lists *)

Lemma elem_of_middle {A} (l1 l2 : list A) x y :
  x ∈ l1 ++ y :: l2 <-> x = y \/ x ∈ l1 ++ l2.
Proof. rewrite !elem_of_app, elem_of_cons. tauto. Qed.
