(* ===== verification/OSet.v ===== *)
(** The ordered set of Valgrind's core (coregrind/m_oset.c): an AVL tree with
    an iterator kept as an explicit stack of nodes.

    A pointer to an [AvlNode] is a value of [avl]: [Null], or a node with an
    identity (the address of the node, as a number), its element, its balance
    and its two children.  Functions of the source that update a tree through
    [AvlTree*] return the new root.  [None] is a failed assertion or a
    dereference of a null pointer.  The iterator's [nodeStack], [numStack] and
    [stackTop] are one list of pairs, the top first. *)
From S2P Require Import Prelude.

(** What a set needs of its elements: the key inside an element (at offset
    [keyOff]) and the first word of a key and of an element, which the
    comparison of sets created without a [cmp] function reads. *)
Class Keyed (K E : Type) := {
  key_of : E -> K;
  word_of_key : K -> Z;
  word_of_elem : E -> Z;
}.

Inductive avl (E : Type) : Type :=
  | Null
  | Node (id : nat) (elem : E) (balance : Z) (left right : avl E).
Arguments Null {E}.
Arguments Node {E} _ _ _ _ _.

(** [STACK_MAX]. *)
Definition STACK_MAX : nat := 32.

(** An [OSet]: the comparison function ([None] when the pointer is null), the
    number of elements (a [UInt], which wraps), the root and the iterator's stack.  [next_id] is the
    identity the next allocated node gets. *)
Record OSet (K E : Type) : Type := mkOSet {
  cmp : option (K -> E -> Z);
  nElems : Z;
  root : avl E;
  stack : list (avl E * Z);
  next_id : nat;
}.
Arguments mkOSet {K E} _ _ _ _ _.
Arguments cmp {K E} _.
Arguments nElems {K E} _.
Arguments root {K E} _.
Arguments stack {K E} _.
Arguments next_id {K E} _.

(** * The tree *)

Section Tree.
Context {E : Type}.
Implicit Types (t l r : avl E) (e : E).

Definition balance_of t : Z :=
  match t with Null => 0 | Node _ _ b _ _ => b end.

(** Swing to the left: no balance maintenance. *)
Definition avl_swl t : option (avl E) :=
  match t with
  | Node ia ea ba la (Node ib eb bb lb rb) =>
      Some (Node ib eb bb (Node ia ea ba la lb) rb)
  | _ => None
  end.

(** Swing to the right: no balance maintenance. *)
Definition avl_swr t : option (avl E) :=
  match t with
  | Node ia ea ba (Node ib eb bb lb rb) ra =>
      Some (Node ib eb bb lb (Node ia ea ba rb ra))
  | _ => None
  end.

Definition set_balance (b : Z) t : avl E :=
  match t with Null => Null | Node i e _ l r => Node i e b l r end.

(** [t->root->balance = b; t->root->left->balance = bl;
    t->root->right->balance = br], each child's assignment given only when
    the source makes it. *)
Definition set_balances (b : Z) (bl br : option Z) t : option (avl E) :=
  match t with
  | Null => None
  | Node i e _ l r =>
      match bl, l, br, r with
      | Some _, Null, _, _ => None
      | _, _, Some _, Null => None
      | _, _, _, _ =>
          Some (Node i e b
                  (match bl with Some x => set_balance x l | None => l end)
                  (match br with Some x => set_balance x r | None => r end))
      end
  end.

(** Balance maintenance after especially nasty swings. *)
Definition avl_nasty t : option (avl E) :=
  match balance_of t with
  | -1 => set_balances 0 (Some 0) (Some 1) t
  | 1 => set_balances 0 (Some (-1)) (Some 0) t
  | 0 => set_balances 0 (Some 0) (Some 0) t
  | _ => set_balances 0 None None t
  end.

(** ** Insertion *)

Section Compare.
(** [cmp a b]: the key of [a] compared with the element [b]. *)
Variable cmp : E -> E -> Z.

(** The left subtree has grown: [l] is the new left child and [b] the balance
    before the insertion. *)
Definition avl_insert_grown_left (i : nat) e (b : Z) l r
    : option (avl E * bool) :=
  let t := Node i e (b - 1) l r in
  if b =? 1 then Some (t, false)
  else if b =? 0 then Some (t, true)
  else if balance_of l <? 0 then
    t ← avl_swr t;
    t ← set_balances 0 None (Some 0) t;
    Some (t, false)
  else
    l ← avl_swl l;
    t ← avl_swr (Node i e (b - 1) l r);
    t ← avl_nasty t;
    Some (t, false).

Definition avl_insert_grown_right (i : nat) e (b : Z) l r
    : option (avl E * bool) :=
  let t := Node i e (b + 1) l r in
  if b =? -1 then Some (t, false)
  else if b =? 0 then Some (t, true)
  else if 0 <? balance_of r then
    t ← avl_swl t;
    t ← set_balances 0 (Some 0) None t;
    Some (t, false)
  else
    r ← avl_swr r;
    t ← avl_swl (Node i e (b + 1) l r);
    t ← avl_nasty t;
    Some (t, false).

(** Insert the element [ne], node [ni], into the non-empty tree [t]; the flag
    says whether the depth of the tree has grown. *)
Fixpoint avl_insert t (ni : nat) (ne : E) : option (avl E * bool) :=
  match t with
  | Null => None
  | Node i e b l r =>
      let cmpres := cmp ne e in
      if cmpres <? 0 then
        match l with
        | Null => Some (Node i e (b - 1) (Node ni ne 0 Null Null) r, b =? 0)
        | Node _ _ _ _ _ =>
            '(l', grown) ← avl_insert l ni ne;
            if (grown : bool) then avl_insert_grown_left i e b l' r
            else Some (Node i e b l' r, false)
        end
      else if 0 <? cmpres then
        match r with
        | Null => Some (Node i e (b + 1) l (Node ni ne 0 Null Null), b =? 0)
        | Node _ _ _ _ _ =>
            '(r', grown) ← avl_insert r ni ne;
            if (grown : bool) then avl_insert_grown_right i e b l r'
            else Some (Node i e b l r', false)
        end
      else None
  end.

(** ** Lookup *)

(** The node matching a key; [k e] compares the key with the element [e]. *)
Fixpoint avl_lookup (k : E -> Z) t : option (nat * E) :=
  match t with
  | Null => None
  | Node i e _ l r =>
      if k e <? 0 then avl_lookup k l
      else if 0 <? k e then avl_lookup k r
      else Some (i, e)
  end.

(** ** Deletion *)

(** The left subtree has shrunk: [l] is the new left child and [b] the balance
    before the removal. *)
Definition avl_remove_shrunk_left (i : nat) e (b : Z) l r
    : option (avl E * bool) :=
  let t := Node i e (b + 1) l r in
  if b =? -1 then Some (t, true)
  else if b =? 0 then Some (t, false)
  else match r with
  | Null => None
  | Node _ _ rb _ _ =>
      if rb =? 0 then
        t ← avl_swl t;
        t ← set_balances (-1) (Some 1) None t;
        Some (t, false)
      else if rb =? 1 then
        t ← avl_swl t;
        t ← set_balances 0 (Some 0) None t;
        Some (t, true)
      else
        r ← avl_swr r;
        t ← avl_swl (Node i e (b + 1) l r);
        t ← avl_nasty t;
        Some (t, true)
  end.

Definition avl_remove_shrunk_right (i : nat) e (b : Z) l r
    : option (avl E * bool) :=
  let t := Node i e (b - 1) l r in
  if b =? 1 then Some (t, true)
  else if b =? 0 then Some (t, false)
  else match l with
  | Null => None
  | Node _ _ lb _ _ =>
      if lb =? 0 then
        t ← avl_swr t;
        t ← set_balances 1 None (Some (-1)) t;
        Some (t, false)
      else if lb =? -1 then
        t ← avl_swr t;
        t ← set_balances 0 None (Some 0) t;
        Some (t, true)
      else
        l ← avl_swl l;
        t ← avl_swr (Node i e (b - 1) l r);
        t ← avl_nasty t;
        Some (t, true)
  end.

(** [while (n->right) n = n->right], from the node [(i, e)] with right child
    [r]; and the mirror image. *)
Fixpoint rightmost (i : nat) e r : nat * E :=
  match r with Null => (i, e) | Node i' e' _ _ r' => rightmost i' e' r' end.

Fixpoint leftmost (i : nat) e l : nat * E :=
  match l with Null => (i, e) | Node i' e' _ l' _ => leftmost i' e' l' end.

(** Remove the root of [t]; [remove] is [avl_remove]. *)
Definition avl_removeroot (remove : avl E -> nat -> E -> option (avl E * bool)) t
    : option (avl E * bool) :=
  match t with
  | Null => None
  | Node _ _ _ Null Null => Some (Null, true)
  | Node _ _ _ Null r => Some (r, true)
  | Node _ _ _ l Null => Some (l, true)
  | Node _ _ b (Node li le _ _ lr) (Node ri re _ rl _) =>
      let n := if b <? 0 then rightmost li le lr else leftmost ri re rl in
      '(t', ch) ← remove t (fst n) (snd n);
      match t' with
      | Null => None
      | Node _ _ b' l' r' =>
          Some (Node (fst n) (snd n) b' l' r', if b' =? 0 then ch else false)
      end
  end.

(** Remove the node [ni], which holds [ne], from [t]; the flag says whether
    the depth of the tree has shrunk. *)
Fixpoint avl_remove (fuel : nat) t (ni : nat) (ne : E) {struct fuel}
    : option (avl E * bool) :=
  match fuel with
  | O => None
  | S fuel =>
      match t with
      | Null => None
      | Node i e b l r =>
          let cmpres := cmp ne e in
          if cmpres <? 0 then
            '(l', ch) ← avl_remove fuel l ni ne;
            if (ch : bool) then avl_remove_shrunk_left i e b l' r
            else Some (Node i e b l' r, false)
          else if 0 <? cmpres then
            '(r', ch) ← avl_remove fuel r ni ne;
            if (ch : bool) then avl_remove_shrunk_right i e b l r'
            else Some (Node i e b l r', false)
          else if (i =? ni)%nat then avl_removeroot (avl_remove fuel) t
          else None
      end
  end.
End Compare.

Fixpoint height t : Z :=
  match t with
  | Null => 0
  | Node _ _ _ l r => 1 + Z.max (height l) (height r)
  end.

(** The iterations [avl_remove] is given: going down to the node, and once
    more down to the node that takes its place. *)
Definition remove_fuel t : nat := Z.to_nat (2 * height t + 1).

(** Assignments through a pointer to the element of the node [ni]. *)
Fixpoint avl_update (ni : nat) (f : E -> E) t : avl E :=
  match t with
  | Null => Null
  | Node i e b l r =>
      Node i (if (i =? ni)%nat then f e else e) b
        (avl_update ni f l) (avl_update ni f r)
  end.
(** Reading through such a pointer. *)
Fixpoint avl_deref (ni : nat) t : option E :=
  match t with
  | Null => None
  | Node i e _ l r =>
      if (i =? ni)%nat then Some e
      else match avl_deref ni l with Some x => Some x | None => avl_deref ni r end
  end.
End Tree.

(** * The set *)

Section Set_ops.
Context {K E : Type} `{Keyed K E}.
Implicit Types (os : OSet K E) (k : K) (e : E).

(** Compare the first word of the key with the first word of the element. *)
Definition fast_cmp k e : Z :=
  let w1 := word_of_key k in
  let w2 := word_of_elem e in
  if w2 <? w1 then 1 else if w1 <? w2 then -1 else 0.

(** The comparison a set uses: [slow_cmp] when it has a function, [fast_cmp]
    otherwise. *)
Definition os_cmp os k e : Z :=
  match cmp os with Some c => c k e | None => fast_cmp k e end.

(** [cmp_key_root]: the key of an element compared with another element. *)
Definition cmp_key os e1 e2 : Z := os_cmp os (key_of e1) e2.

Definition set_stack (st : list (avl E * Z)) os : OSet K E :=
  mkOSet (cmp os) (nElems os) (root os) st (next_id os).

(** ** The iterator's stack *)

Definition stackClear os : OSet K E := set_stack [] os.

Definition stackPush (st : list (avl E * Z)) (n : avl E) (i : Z)
    : option (list (avl E * Z)) :=
  if (length st <? STACK_MAX)%nat && (1 <=? i) && (i <=? 3)
  then Some ((n, i) :: st) else None.

(** [Some None] when the stack is empty. *)
Definition stackPop (st : list (avl E * Z))
    : option (option (avl E * Z * list (avl E * Z))) :=
  if (length st <=? STACK_MAX)%nat then
    match st with
    | [] => Some None
    | (n, i) :: st' =>
        if (1 <=? i) && (i <=? 3) then Some (Some (n, i, st')) else None
    end
  else None.

(** ** Creation and destruction *)

Definition OSetGen_Create (c : option (K -> E -> Z)) : OSet K E :=
  mkOSet c 0 Null [] 0%nat.

(** The pool only changes where nodes are allocated. *)
Definition OSetGen_Create_With_Pool (c : option (K -> E -> Z)) : OSet K E :=
  OSetGen_Create c.

(** The post-order traversal that frees the nodes: the identities freed, in
    order. *)
Fixpoint destroy_loop (fuel : nat) (st : list (avl E * Z)) (freed : list nat)
    : option (list nat) :=
  match fuel with
  | O => None
  | S fuel =>
      p ← stackPop st;
      match p with
      | None => Some freed
      | Some (Null, _, _) => None
      | Some (Node id e b l r as n, i, st) =>
          if i =? 1 then
            st ← stackPush st n 2;
            st ← (match l with Null => Some st | _ => stackPush st l 1 end);
            destroy_loop fuel st freed
          else if i =? 2 then
            st ← stackPush st n 3;
            st ← (match r with Null => Some st | _ => stackPush st r 1 end);
            destroy_loop fuel st freed
          else destroy_loop fuel st (freed ++ [id])
      end
  end.

Fixpoint tree_size (t : avl E) : nat :=
  match t with Null => 0%nat | Node _ _ _ l r => S (tree_size l + tree_size r) end.

(** Destroy a set without a pool (no set with one is ever destroyed): every node
    is freed one by one, and their number is checked against [nElems]. *)
Definition OSetGen_Destroy os : option (list nat) :=
  st ← (match root os with Null => Some [] | t => stackPush [] t 1 end);
  freed ← destroy_loop (S (3 * tree_size (root os))) st [];
  if Z.of_nat (length freed) =? nElems os then Some freed else None.

(** ** Insertion, lookup, removal *)

Definition OSetGen_Insert os e : option (OSet K E) :=
  let n := Node (next_id os) e 0 Null Null in
  t ← (match root os with
       | Null => Some n
       | t => '(t', _) ← avl_insert (cmp_key os) t (next_id os) e; Some t'
       end);
  Some (mkOSet (cmp os) (uint (nElems os + 1)) t [] (S (next_id os))).

Definition OSetGen_LookupNode os k : option (nat * E) :=
  avl_lookup (os_cmp os k) (root os).

Definition OSetGen_Lookup os k : option E := snd <$> OSetGen_LookupNode os k.

Definition OSetGen_Contains os k : bool :=
  match OSetGen_Lookup os k with Some _ => true | None => false end.

(** [Some (None, os)]: no element matches.  [None]: an assertion fails. *)
Definition OSetGen_Remove os k : option (option E * OSet K E) :=
  match avl_lookup (os_cmp os k) (root os) with
  | None => Some (None, os)
  | Some (i, e) =>
      '(t, _) ← avl_remove (cmp_key os) (remove_fuel (root os)) (root os) i e;
      Some (Some e, mkOSet (cmp os) (uint (nElems os - 1)) t [] (next_id os))
  end.

(** Assignments through a pointer to the element of the node [ni]: the tree
    and the iterator's stack point to the same node. *)
Definition OSetGen_Update os (ni : nat) (f : E -> E) : OSet K E :=
  mkOSet (cmp os) (nElems os) (avl_update ni f (root os))
    ((fun p => (avl_update ni f (fst p), snd p)) <$> stack os) (next_id os).

Definition OSetGen_Deref os (ni : nat) : option E := avl_deref ni (root os).

(** The counter, a [UInt]. *)
Definition OSetGen_Size os : Z := nElems os.

(** ** The iterator *)

Definition OSetGen_ResetIter os : option (OSet K E) :=
  st ← (match root os with Null => Some [] | t => stackPush [] t 1 end);
  Some (set_stack st os).

(** [case_1] of [OSetGen_Next]: push the node and its chain of left
    children. *)
Fixpoint next_case_1 (n : avl E) (st : list (avl E * Z))
    : option (list (avl E * Z)) :=
  match n with
  | Null => Some st
  | Node _ _ _ l _ => st ← stackPush st n 2; next_case_1 l st
  end.

Fixpoint next_loop (fuel : nat) (st : list (avl E * Z))
    : option (option (nat * E) * list (avl E * Z)) :=
  match fuel with
  | O => None
  | S fuel =>
      p ← stackPop st;
      match p with
      | None => Some (None, st)
      | Some (Null, _, _) => None
      | Some (Node id e b l r as n, i, st) =>
          if i =? 1 then
            st ← next_case_1 n st; next_loop fuel st
          else if i =? 2 then
            st ← stackPush st n 3; Some (Some (id, e), st)
          else
            match r with
            | Null => next_loop fuel st
            | _ => st ← next_case_1 r st; next_loop fuel st
            end
      end
  end.

(** The next element, with its node, or [None] at the end.  A round of the
    loop either returns, or pops a node whose right subtree is empty, or
    pushes the nodes the next round returns from. *)
Definition OSetGen_Next os : option (option (nat * E) * OSet K E) :=
  '(x, st) ← next_loop (S (S (length (stack os)))) (stack os);
  Some (x, set_stack st os).

(** The search of [OSetGen_ResetIterAt]: a node is pushed when the search goes
    to its left child, and the matching node at the end. *)
Fixpoint resetiterat_loop (kc : E -> Z) (t : avl E) (st : list (avl E * Z))
    : option (list (avl E * Z)) :=
  match t with
  | Null => Some st
  | Node _ e _ l r =>
      let cmpresS := if kc e <? 0 then 1 else if 0 <? kc e then -1 else kc e in
      if cmpresS =? 0 then stackPush st t 2
      else
        let cmpresU := Z.shiftr (wrap cmpresS) 63 in
        if cmpresU =? 0 then
          st ← stackPush st t 2; resetiterat_loop kc l st
        else resetiterat_loop kc r st
  end.

Definition OSetGen_ResetIterAt os k : option (OSet K E) :=
  st ← resetiterat_loop (os_cmp os k) (root os) [];
  Some (set_stack st os).
End Set_ops.

(** * Sets of words *)

(** [OSetWord] sets: the element is the key. *)
#[export] Instance keyed_word : Keyed Z Z :=
  {| key_of w := w; word_of_key w := w; word_of_elem w := w |}.

Definition OSetWord_Create : OSet Z Z := OSetGen_Create None.

Definition OSetWord_Insert (os : OSet Z Z) (w : Z) : option (OSet Z Z) :=
  OSetGen_Insert os w.

Definition OSetWord_Contains (os : OSet Z Z) (w : Z) : bool :=
  OSetGen_Contains os w.

Definition OSetWord_Remove (os : OSet Z Z) (w : Z) : option (bool * OSet Z Z) :=
  '(x, os) ← OSetGen_Remove os w;
  Some (match x with Some _ => true | None => false end, os).

Definition OSetWord_Next (os : OSet Z Z) : option (option Z * OSet Z Z) :=
  match OSetGen_Next os with
  | Some (Some (_, w), os) => Some (Some w, os)
  | Some (None, os) => Some (None, os)
  | None => None
  end.
