(* ===== verification/OSetTree.v ===== *)
(** Correctness of the AVL tree under the ordered set: shape, contents and
    order of the tree after an insertion and a removal, and the result of a
    lookup.  The statements are about the in-order list of the tree's nodes;
    the order is given by the comparison function, of which only what a
    statement needs is assumed. *)
From S2P Require Import Prelude OSet.

#[local] Set Default Proof Using "Type".

Section Tree.
Context {E : Type}.
Implicit Types (t l r : avl E) (e : E).

(** The nodes in order. *)
Fixpoint inorder t : list (nat * E) :=
  match t with
  | Null => []
  | Node i e _ l r => inorder l ++ (i, e) :: inorder r
  end.

(** The AVL shape: every balance field is the difference of the heights of the
    children, and is -1, 0 or 1. *)
Fixpoint avl_ok t : Prop :=
  match t with
  | Null => True
  | Node _ _ b l r =>
      b = height r - height l /\ -1 <= b <= 1 /\ avl_ok l /\ avl_ok r
  end.

Definition root_id t : option nat :=
  match t with Null => None | Node i _ _ _ _ => Some i end.

(** A key [k] (as the function comparing it with an element) that is after
    every node of a list, and before every node of a list. *)
Definition after_all (k : E -> Z) (ns : list (nat * E)) : Prop :=
  Forall (fun n => 0 < k (snd n)) ns.

Definition before_all (k : E -> Z) (ns : list (nat * E)) : Prop :=
  Forall (fun n => k (snd n) < 0) ns.

Definition match_all (k : E -> Z) (ns : list (nat * E)) : Prop :=
  Forall (fun n => k (snd n) = 0) ns.

(** A list is sorted by a comparison when every element compares equal with
    itself, after every earlier one and before every later one. *)
Definition sorted (c : E -> E -> Z) (ns : list (nat * E)) : Prop :=
  forall ns1 n ns3, ns = ns1 ++ n :: ns3 ->
    c (snd n) (snd n) = 0 /\ after_all (c (snd n)) ns1 /\ before_all (c (snd n)) ns3.

(** ** Heights and sizes *)

Lemma height_nonneg t : 0 <= height t.
Proof. induction t as [|i e b l IHl r IHr]; simpl; lia. Qed.

Lemma length_inorder t : length (inorder t) = tree_size t.
Proof.
  induction t as [|i e b l IHl r IHr]; simpl; [done|].
  rewrite length_app. simpl. lia.
Qed.
End Tree.

(** Case analysis on the trees a rotation looks at, and arithmetic on their
    heights. *)
Ltac avl_heights :=
  repeat match goal with
  | |- context [height ?t] => is_var t;
      lazymatch goal with
      | _ : 0 <= height t |- _ => fail
      | _ => pose proof (height_nonneg t)
      end
  | _ : context [height ?t] |- _ => is_var t;
      lazymatch goal with
      | _ : 0 <= height t |- _ => fail
      | _ => pose proof (height_nonneg t)
      end
  end.

Ltac avl_arith := simpl in *; avl_heights; lia.

(** The same, on the conjunctions that [avl_ok] unfolds to. *)
Ltac avl_solve :=
  simpl in *; destruct_and?; repeat split; try assumption; avl_heights; lia.


Section Rotations.
Context {E : Type}.
Implicit Types (t l r : avl E) (e : E).

(** What the rebalancing of a node owes its caller: a well-shaped tree with
    the same nodes in the same order. *)
Definition rebalanced (o : option (avl E * bool)) (ns : list (nat * E))
    (h : bool -> Z) (ok : bool -> avl E -> Prop) : Prop :=
  exists t g, o = Some (t, g) /\ avl_ok t /\ inorder t = ns /\ height t = h g /\
    ok g t.

Ltac rebalanced_done :=
  eexists _, _; split; [reflexivity|]; simpl;
  repeat (rewrite <-app_assoc; simpl); repeat split; avl_heights; try lia; auto;
  try solve [f_equal; lia].

Lemma grown_left_ok i e b l r :
  avl_ok l -> avl_ok r -> -1 <= b <= 1 -> b = height r - (height l - 1) ->
  balance_of l <> 0 ->
  rebalanced (avl_insert_grown_left i e b l r)
    (inorder l ++ (i, e) :: inorder r)
    (fun g => 1 + Z.max (height l - 1) (height r) + (if g then 1 else 0))
    (fun g t => g = true -> balance_of t <> 0 /\ root_id t = Some i).
Proof.
  intros Hl Hr Hb Hbal Hnz. unfold avl_insert_grown_left.
  destruct (Z.eqb_spec b 1); [subst; rebalanced_done|].
  destruct (Z.eqb_spec b 0); [subst; rebalanced_done|].
  assert (b = -1) as -> by lia.
  destruct l as [|li le lb ll lr]; simpl in *; [lia|].
  destruct Hl as (Hlb & Hlb' & Hll & Hlr).
  destruct (Z.ltb_spec lb 0); simpl; [rebalanced_done|].
  destruct lr as [|ri re rb rl rr]; [avl_arith|]. simpl in *.
  destruct Hlr as (Hrb & Hrb' & Hrl & Hrr). unfold avl_nasty; simpl.
  assert (rb = -1 \/ rb = 0 \/ rb = 1) as [-> | [-> | ->]] by lia; rebalanced_done.
Qed.

Lemma grown_right_ok i e b l r :
  avl_ok l -> avl_ok r -> -1 <= b <= 1 -> b = height r - 1 - height l ->
  balance_of r <> 0 ->
  rebalanced (avl_insert_grown_right i e b l r)
    (inorder l ++ (i, e) :: inorder r)
    (fun g => 1 + Z.max (height l) (height r - 1) + (if g then 1 else 0))
    (fun g t => g = true -> balance_of t <> 0 /\ root_id t = Some i).
Proof.
  intros Hl Hr Hb Hbal Hnz. unfold avl_insert_grown_right.
  destruct (Z.eqb_spec b (-1)); [subst; rebalanced_done|].
  destruct (Z.eqb_spec b 0); [subst; rebalanced_done|].
  assert (b = 1) as -> by lia.
  destruct r as [|ri re rb rl rr]; simpl in *; [lia|].
  destruct Hr as (Hrb & Hrb' & Hrl & Hrr).
  destruct (Z.ltb_spec 0 rb); simpl; [rebalanced_done|].
  destruct rl as [|li le lb ll lr]; [avl_arith|]. simpl in *.
  destruct Hrl as (Hlb & Hlb' & Hll & Hlr). unfold avl_nasty; simpl.
  assert (lb = -1 \/ lb = 0 \/ lb = 1) as [-> | [-> | ->]] by lia; rebalanced_done.
Qed.

Lemma shrunk_left_ok i e b l r :
  avl_ok l -> avl_ok r -> -1 <= b <= 1 -> b = height r - (height l + 1) ->
  rebalanced (avl_remove_shrunk_left i e b l r)
    (inorder l ++ (i, e) :: inorder r)
    (fun ch => 1 + Z.max (height l + 1) (height r) - (if ch then 1 else 0))
    (fun _ t => b <= 0 -> root_id t = Some i).
Proof.
  intros Hl Hr Hb Hbal. unfold avl_remove_shrunk_left.
  destruct (Z.eqb_spec b (-1)); [subst; rebalanced_done|].
  destruct (Z.eqb_spec b 0); [subst; rebalanced_done|].
  assert (b = 1) as -> by lia.
  destruct r as [|ri re rb rl rr]; simpl in *; [avl_arith|].
  destruct Hr as (Hrb & Hrb' & Hrl & Hrr).
  destruct (Z.eqb_spec rb 0); simpl; [rebalanced_done|].
  destruct (Z.eqb_spec rb 1); simpl; [rebalanced_done|].
  destruct rl as [|li le lb ll lr]; [avl_arith|]. simpl in *.
  destruct Hrl as (Hlb & Hlb' & Hll & Hlr). unfold avl_nasty; simpl.
  assert (lb = -1 \/ lb = 0 \/ lb = 1) as [-> | [-> | ->]] by lia; rebalanced_done.
Qed.

Lemma shrunk_right_ok i e b l r :
  avl_ok l -> avl_ok r -> -1 <= b <= 1 -> b = height r + 1 - height l ->
  rebalanced (avl_remove_shrunk_right i e b l r)
    (inorder l ++ (i, e) :: inorder r)
    (fun ch => 1 + Z.max (height l) (height r + 1) - (if ch then 1 else 0))
    (fun _ t => 0 <= b -> root_id t = Some i).
Proof.
  intros Hl Hr Hb Hbal. unfold avl_remove_shrunk_right.
  destruct (Z.eqb_spec b 1); [subst; rebalanced_done|].
  destruct (Z.eqb_spec b 0); [subst; rebalanced_done|].
  assert (b = -1) as -> by lia.
  destruct l as [|li le lb ll lr]; simpl in *; [avl_arith|].
  destruct Hl as (Hlb & Hlb' & Hll & Hlr).
  destruct (Z.eqb_spec lb 0); simpl; [rebalanced_done|].
  destruct (Z.eqb_spec lb (-1)); simpl; [rebalanced_done|].
  destruct lr as [|ri re rb rl rr]; [avl_arith|]. simpl in *.
  destruct Hlr as (Hrb & Hrb' & Hrl & Hrr). unfold avl_nasty; simpl.
  assert (rb = -1 \/ rb = 0 \/ rb = 1) as [-> | [-> | ->]] by lia; rebalanced_done.
Qed.
End Rotations.

Section Operations.
Context {E : Type}.
Variable cmp : E -> E -> Z.
Implicit Types (t l r : avl E) (e : E) (ns : list (nat * E)).

(** Where the root of a tree falls in a split of its nodes. *)
Lemma split_at_root (ns1 ns2 ms1 ms3 : list (nat * E)) n :
  ns1 ++ n :: ns2 = ms1 ++ ms3 ->
  (exists k, ms1 = ns1 ++ n :: k /\ ns2 = k ++ ms3) \/
  (exists k, ns1 = ms1 ++ k /\ ms3 = k ++ n :: ns2).
Proof.
  revert ns1. induction ms1 as [|m ms1 IH]; intros ns1 Heq; simpl in *.
  { right. exists ns1. by subst. }
  destruct ns1 as [|n1 ns1]; simpl in *; simplify_eq.
  - left. by exists ms1.
  - destruct (IH ns1) as [(k & -> & ->) | (k & -> & ->)]; [done| |];
      [left; by exists k | right; by exists k].
Qed.

Lemma after_all_app (k : E -> Z) ns1 ns2 :
  after_all k (ns1 ++ ns2) <-> after_all k ns1 /\ after_all k ns2.
Proof. apply Forall_app. Qed.

Lemma before_all_app (k : E -> Z) ns1 ns2 :
  before_all k (ns1 ++ ns2) <-> before_all k ns1 /\ before_all k ns2.
Proof. apply Forall_app. Qed.

Lemma after_all_cons (k : E -> Z) n ns :
  after_all k (n :: ns) <-> 0 < k (snd n) /\ after_all k ns.
Proof. apply Forall_cons_iff. Qed.

Lemma before_all_cons (k : E -> Z) n ns :
  before_all k (n :: ns) <-> k (snd n) < 0 /\ before_all k ns.
Proof. apply Forall_cons_iff. Qed.

(** The contents, the shape and the growth after an insertion of an element
    that falls between two nodes. *)
Lemma avl_insert_ok t ni ne ms1 ms3 :
  avl_ok t -> t <> Null -> inorder t = ms1 ++ ms3 ->
  after_all (cmp ne) ms1 -> before_all (cmp ne) ms3 ->
  rebalanced (avl_insert cmp t ni ne) (ms1 ++ (ni, ne) :: ms3)
    (fun g => height t + (if g then 1 else 0))
    (fun g t' => g = true -> balance_of t' <> 0 /\ root_id t' = root_id t).
Proof.
  revert ms1 ms3. induction t as [|i e b l IHl r IHr]; [done|].
  intros ms1 ms3 (Hb & Hb' & Hl & Hr) _ Hio Ha Hbf. simpl in Hio.
  destruct (split_at_root _ _ _ _ _ Hio) as [(k & -> & Hk) | (k & Hk & ->)].
  - apply after_all_app in Ha as [Ha1 [Ha2 Ha3]%after_all_cons]. cbn [avl_insert snd] in *.
    destruct (Z.ltb_spec (cmp ne e) 0); [lia|]. destruct (Z.ltb_spec 0 (cmp ne e)); [|lia].
    destruct r as [|ri re rb rl rr].
    + apply symmetry, app_nil in Hk as [-> ->].
      eexists _, _; split; [done|]. simpl. rewrite <-app_assoc.
      destruct (Z.eqb_spec b 0); repeat split; try done; avl_arith.
    + destruct (IHr k ms3) as (r' & g & -> & Hok & Hin & Hh & Hg); [done..|].
      simpl. destruct g; simpl in *.
      * destruct (grown_right_ok i e b l r') as (t' & g & -> & ? & Hin' & Hh' & ?);
          [done..|lia|by apply Hg|].
        exists t', g. repeat split; try done; [|lia|tauto..].
        rewrite Hin', Hin. by rewrite <-app_assoc.
      * eexists _, _; split; [done|]. simpl. rewrite Hin, <-app_assoc. simpl.
        repeat split; try done; lia.
  - apply before_all_app in Hbf as [Hbf1 [Hbf2 Hbf3]%before_all_cons]. cbn [avl_insert snd] in *.
    destruct (Z.ltb_spec (cmp ne e) 0); [|lia].
    destruct l as [|li le lb ll lr].
    + apply symmetry, app_nil in Hk as [-> ->].
      eexists _, _; split; [done|]. simpl.
      destruct (Z.eqb_spec b 0); repeat split; try done; avl_arith.
    + destruct (IHl ms1 k) as (l' & g & -> & Hok & Hin & Hh & Hg); [done..|].
      simpl. destruct g; simpl in *.
      * destruct (grown_left_ok i e b l' r) as (t' & g & -> & ? & Hin' & Hh' & ?);
          [done..|lia|by apply Hg|].
        exists t', g. repeat split; try done; [|lia|tauto..].
        rewrite Hin', Hin. by rewrite <-app_assoc.
      * eexists _, _; split; [done|]. simpl. rewrite Hin, <-app_assoc. simpl.
        repeat split; try done; lia.
Qed.

(** A lookup finds a node that matches the key exactly when there is one. *)
Lemma avl_lookup_ok (k : E -> Z) t ms1 ms2 ms3 :
  inorder t = ms1 ++ ms2 ++ ms3 ->
  after_all k ms1 -> match_all k ms2 -> before_all k ms3 ->
  match avl_lookup k t with
  | Some n => n ∈ ms2
  | None => ms2 = []
  end.
Proof.
  revert ms1 ms2 ms3. induction t as [|i e b l IHl r IHr]; intros ms1 ms2 ms3 Hio Ha Hm Hb;
    simpl in *.
  { by apply symmetry, app_nil in Hio as [_ [-> _]%app_nil]. }
  destruct (split_at_root _ _ _ _ _ Hio) as [(x & -> & Hx) | (x & Hx & Hrest)].
  - apply after_all_app in Ha as [_ [Hk Ha]%after_all_cons]. simpl in Hk.
    destruct (Z.ltb_spec (k e) 0); [lia|]. destruct (Z.ltb_spec 0 (k e)); [|lia].
    by apply (IHr x ms2 ms3).
  - destruct (split_at_root x (inorder r) ms2 ms3 (i, e)) as [(y & -> & Hy) | (y & -> & ->)];
      [done| |].
    + apply Forall_app in Hm as [_ [Hk Hm]%Forall_cons_iff]. simpl in Hk.
      rewrite Hk. simpl. apply elem_of_app. right. left.
    + apply before_all_app in Hb as [Hb' [Hk Hb]%before_all_cons]. simpl in Hk.
      destruct (Z.ltb_spec (k e) 0); [|lia]. by apply (IHl ms1 ms2 y).
Qed.

Lemma sorted_app_l ns1 ns2 : sorted cmp (ns1 ++ ns2) -> sorted cmp ns1.
Proof.
  intros Hs l1 n l3 ->. destruct (Hs l1 n (l3 ++ ns2)) as (? & ? & Hb).
  { by rewrite <-app_assoc. }
  apply before_all_app in Hb. tauto.
Qed.

Lemma sorted_app_r ns1 ns2 : sorted cmp (ns1 ++ ns2) -> sorted cmp ns2.
Proof.
  intros Hs l1 n l3 ->. destruct (Hs (ns1 ++ l1) n l3) as (? & Ha & ?).
  { by rewrite <-app_assoc. }
  apply after_all_app in Ha. tauto.
Qed.

Lemma sorted_cons n ns : sorted cmp (n :: ns) -> sorted cmp ns.
Proof. apply (sorted_app_r [n]). Qed.

Lemma rightmost_last i e r : exists ns,
  (i, e) :: inorder r = ns ++ [rightmost i e r].
Proof.
  revert i e. induction r as [|i' e' b l _ r IH]; intros i e; simpl.
  { by exists []. }
  destruct (IH i' e') as [ns Heq]. exists ((i, e) :: inorder l ++ ns).
  simpl. by rewrite Heq, <-app_assoc.
Qed.

Lemma leftmost_head i e l : exists ns,
  inorder l ++ [(i, e)] = leftmost i e l :: ns.
Proof.
  revert i e. induction l as [|i' e' b l IH r _]; intros i e; simpl.
  { by exists []. }
  destruct (IH i' e') as [ns Heq]. exists (ns ++ inorder r ++ [(i, e)]).
  change (leftmost i' e' l :: ns ++ inorder r ++ [(i, e)])
    with ((leftmost i' e' l :: ns) ++ inorder r ++ [(i, e)]).
  by rewrite <-Heq, <-!app_assoc.
Qed.

(** The fuel a removal needs: twice the height, or the height alone when the
    node is the first or the last one, for then nothing has to be found to
    take its place. *)
Definition fuel_enough (fuel : nat) t ns1 ns3 : Prop :=
  2 * height t + 1 <= Z.of_nat fuel \/
  (height t <= Z.of_nat fuel /\ (ns1 = [] \/ ns3 = [])).

Definition removes (fuel : nat) t ni ne ns1 ns3 : Prop :=
  rebalanced (avl_remove cmp fuel t ni ne) (ns1 ++ ns3)
    (fun ch => height t - (if ch then 1 else 0)) (fun _ _ => True).

Lemma remove_left_ok fuel i e b l r ni ne ns1 ns3 :
  avl_ok (Node i e b l r) -> cmp ne e < 0 -> removes fuel l ni ne ns1 ns3 ->
  removes (S fuel) (Node i e b l r) ni ne ns1 (ns3 ++ (i, e) :: inorder r).
Proof.
  intros (Hb & Hb' & Hl & Hr) Hc (l' & ch & Heq & Hok & Hin & Hh & _).
  unfold removes. cbn [avl_remove]. destruct (Z.ltb_spec (cmp ne e) 0); [|lia].
  rewrite Heq. simpl. destruct ch.
  - destruct (shrunk_left_ok i e b l' r) as (t' & g & -> & ? & Hin' & ? & _); [done..|lia|].
    exists t', g. repeat split; try done; [|simpl; lia]. by rewrite Hin', Hin, app_assoc.
  - eexists _, _; split; [done|]. simpl. rewrite Hin, app_assoc. repeat split; try done; lia.
Qed.

Lemma remove_right_ok fuel i e b l r ni ne ns1 ns3 :
  avl_ok (Node i e b l r) -> 0 < cmp ne e -> removes fuel r ni ne ns1 ns3 ->
  removes (S fuel) (Node i e b l r) ni ne (inorder l ++ (i, e) :: ns1) ns3.
Proof.
  intros (Hb & Hb' & Hl & Hr) Hc (r' & ch & Heq & Hok & Hin & Hh & _).
  unfold removes. cbn [avl_remove]. destruct (Z.ltb_spec (cmp ne e) 0); [lia|].
  destruct (Z.ltb_spec 0 (cmp ne e)); [|lia]. rewrite Heq. simpl. destruct ch.
  - destruct (shrunk_right_ok i e b l r') as (t' & g & -> & ? & Hin' & ? & _); [done..|lia|].
    exists t', g. repeat split; try done; [|simpl; lia].
    by rewrite Hin', Hin, <-app_assoc.
  - eexists _, _; split; [done|]. simpl. rewrite Hin, <-app_assoc.
    repeat split; try done; lia.
Qed.

(** The root is replaced by the last node of its left subtree or the first of
    its right subtree, whichever side is not the lower one. *)
Lemma removeroot_ok fuel i e b l r :
  avl_ok (Node i e b l r) -> sorted cmp (inorder (Node i e b l r)) ->
  (l = Null \/ r = Null \/
   (forall ni ne ns1, inorder l = ns1 ++ [(ni, ne)] -> removes fuel l ni ne ns1 []) /\
   (forall ni ne ns3, inorder r = (ni, ne) :: ns3 -> removes fuel r ni ne [] ns3)) ->
  rebalanced (avl_removeroot (avl_remove cmp (S fuel)) (Node i e b l r))
    (inorder l ++ inorder r)
    (fun ch => height (Node i e b l r) - (if ch then 1 else 0)) (fun _ _ => True).
Proof.
  intros (Hb & Hb' & Hl & Hr) Hs Hrem.
  destruct l as [|li le lb ll lr]; [|destruct r as [|ri re rb rl rr]].
  1: { destruct r as [|ri re rb rl rr]; (eexists _, _; split; [done|]; split; [done|];
         split; [done|]; split; [avl_arith|done]). }
  1: { eexists _, _; split; [done|]. split; [done|]. rewrite app_nil_r.
       split; [done|]. split; [avl_arith|done]. }
  destruct Hrem as [?|[?|[Hreml Hremr]]]; [done..|].
  cbn [avl_removeroot]. destruct (Z.ltb_spec b 0).
  - destruct (rightmost_last li le lr) as [ns Heq].
    destruct (rightmost li le lr) as [mi me]. cbn [fst snd].
    specialize (Hreml mi me (inorder ll ++ ns)) as (l' & ch & Hrl & Hok & Hin & Hh & _).
    { simpl. by rewrite Heq, app_assoc. }
    destruct (Hs (inorder ll ++ ns) (mi, me) ((i, e) :: inorder (Node ri re rb rl rr)))
      as (_ & _ & [Hc _]%before_all_cons).
    { cbn [inorder]. rewrite Heq, <-!app_assoc. done. }
    cbn [avl_remove]. simpl snd in Hc. destruct (Z.ltb_spec (cmp me e) 0); [|lia].
    rewrite Hrl. assert (b = -1) as -> by lia.
    destruct ch; simpl; (eexists _, _; split; [done|]); cbn [inorder];
      rewrite Hin; (split; [|split; [|split; [|done]]]); cbn [inorder];
      try (rewrite ?Heq, ?app_nil_r, <-?app_assoc; done); avl_solve.
  - destruct (leftmost_head ri re rl) as [ns Heq].
    destruct (leftmost ri re rl) as [mi me]. cbn [fst snd].
    specialize (Hremr mi me (ns ++ inorder rr)) as (r' & ch & Hrr & Hok & Hin & Hh & _).
    { simpl. change ((mi, me) :: ns ++ inorder rr) with (((mi, me) :: ns) ++ inorder rr).
      rewrite <-Heq, <-app_assoc. done. }
    assert (inorder (Node ri re rb rl rr) = (mi, me) :: ns ++ inorder rr) as Hior.
    { simpl. change ((mi, me) :: ns ++ inorder rr) with (((mi, me) :: ns) ++ inorder rr).
      rewrite <-Heq, <-app_assoc. done. }
    destruct (Hs (inorder (Node li le lb ll lr) ++ [(i, e)]) (mi, me) (ns ++ inorder rr))
      as (_ & [_ [Hc _]%after_all_cons]%after_all_app & _).
    { cbn [inorder] in *. rewrite Hior, <-!app_assoc. done. }
    cbn [avl_remove]. simpl snd in Hc. destruct (Z.ltb_spec (cmp me e) 0); [lia|].
    destruct (Z.ltb_spec 0 (cmp me e)); [|lia]. rewrite Hrr, Hior.
    assert (b = 0 \/ b = 1) as [-> | ->] by lia;
      (destruct ch; simpl; (eexists _, _; split; [done|]); cbn [inorder];
       rewrite Hin; (split; [|split; [|split; [|done]]]); try done; avl_solve).
Qed.

Lemma app_cons_inj (ns1 ns2 ms1 ms3 : list (nat * E)) n m :
  ns1 ++ n :: ns2 = ms1 ++ m :: ms3 ->
  (ns1 = ms1 /\ n = m /\ ns2 = ms3) \/
  (exists k, ms1 = ns1 ++ n :: k /\ ns2 = k ++ m :: ms3) \/
  (exists k, ns1 = ms1 ++ m :: k /\ ms3 = k ++ n :: ns2).
Proof.
  intros Heq. destruct (split_at_root _ _ _ _ _ Heq) as [?|(k & -> & Hk)]; [auto|].
  destruct k as [|x k]; simplify_list_eq; [auto|]. right; right. by exists k.
Qed.

Lemma inorder_nil_inv t : inorder t = [] -> t = Null.
Proof. destruct t; [done|]. simpl. by intros [_ ?]%app_nil. Qed.

(** A removal of a node of a sorted tree succeeds, keeps the shape, takes out
    that node and no other, and reports whether the height has shrunk. *)
Lemma avl_remove_ok fuel t ni ne ns1 ns3 :
  avl_ok t -> sorted cmp (inorder t) -> inorder t = ns1 ++ (ni, ne) :: ns3 ->
  fuel_enough fuel t ns1 ns3 -> removes fuel t ni ne ns1 ns3.
Proof.
  revert t ni ne ns1 ns3. induction fuel as [fuel IH] using lt_wf_ind.
  intros [|i e b l r] ni ne ns1 ns3 Hok Hs Hio Hf.
  { by destruct ns1. }
  pose proof Hok as (Hb & Hb' & Hl & Hr).
  destruct fuel as [|fuel]; [exfalso; destruct Hf as [Hf|[Hf _]]; avl_arith|].
  pose proof (Hs _ _ _ Hio) as (Hself & Ha & Hbf). simpl snd in *.
  pose proof Hio as Hio'. simpl in Hio'.
  pose proof (sorted_app_l _ _ Hs) as Hsl.
  pose proof (sorted_cons _ _ (sorted_app_r _ _ Hs)) as Hsr.
  destruct (app_cons_inj _ _ _ _ _ _ Hio') as [(<- & Heq & <-) | [(k & -> & Hk) | (k & Hk & ->)]].
  - injection Heq as -> ->. unfold removes. cbn [avl_remove].
    rewrite Hself. simpl. rewrite Nat.eqb_refl.
    destruct fuel as [|fuel].
    + assert (l = Null /\ r = Null) as [-> ->].
      { destruct Hf as [Hf|[Hf _]]; [avl_arith|].
        split; apply inorder_nil_inv; [destruct l|destruct r]; try done; avl_arith. }
      eexists _, _; split; [done|]. by simpl.
    + apply removeroot_ok; [done..|].
      destruct Hf as [Hf|[Hf [?%inorder_nil_inv|?%inorder_nil_inv]]]; [|auto..].
      right; right. split; intros mi me ns Hns.
      * apply IH; [lia|done..|]. right. split; [avl_arith|auto].
      * apply IH; [lia|done..|]. right. split; [avl_arith|auto].
  - apply after_all_app in Ha as [_ [Hc _]%after_all_cons].
    apply remove_right_ok; [done..|]. apply IH; [lia|done..|].
    destruct Hf as [Hf|[Hf [Hnil|?]]]; [left; avl_arith|by destruct (inorder l)|].
    right. split; [avl_arith|auto].
  - apply before_all_app in Hbf as [_ [Hc _]%before_all_cons].
    apply remove_left_ok; [done..|]. apply IH; [lia|done..|].
    destruct Hf as [Hf|[Hf [?|Hnil]]]; [left; avl_arith| |by destruct k].
    right. split; [avl_arith|auto].
Qed.

End Operations.

Section Update.
Context {E : Type}.
Implicit Types (t : avl E).

(** The nodes after an assignment to the element of one of them. *)
Definition upd_node (ni : nat) (f : E -> E) (n : nat * E) : nat * E :=
  (fst n, if (fst n =? ni)%nat then f (snd n) else snd n).

Lemma inorder_update ni f t :
  inorder (avl_update ni f t) = upd_node ni f <$> inorder t.
Proof.
  induction t as [|i e b l IHl r IHr]; [done|]. simpl.
  by rewrite IHl, IHr, fmap_app.
Qed.

Lemma height_update ni f t : height (avl_update ni f t) = height t.
Proof. induction t as [|i e b l IHl r IHr]; simpl; lia. Qed.

Lemma avl_ok_update ni f t : avl_ok t -> avl_ok (avl_update ni f t).
Proof.
  induction t as [|i e b l IHl r IHr]; [done|]. simpl.
  rewrite !height_update. tauto.
Qed.
End Update.
