(* ===== verification/OSetSpec.v ===== *)
(** The contract of the ordered set, as its clients use it: the nodes of a set
    are a sorted list, the operations are insertion into it, removal from it
    and search in it, and the iterator runs through a suffix of it.

    [CmpLaws] is what a client owes the set about its comparison function; the
    rest of the file is what the set gives back. *)
From S2P Require Import Prelude OSet OSetTree.

(** The laws of a comparison function, on the keys and elements a client
    really stores.  A key may match several elements (two regions overlap):
    only the signs along a sorted list are constrained. *)
Class CmpLaws {K E : Type} `{Keyed K E} (c : K -> E -> Z)
    (wfk : K -> Prop) (wf : E -> Prop) : Prop := {
  cmp_wf_key e : wf e -> wfk (key_of e);
  cmp_refl e : wf e -> c (key_of e) e = 0;
  cmp_antisym a b : wf a -> wf b -> c (key_of a) b < 0 <-> 0 < c (key_of b) a;
  cmp_before k a b : wfk k -> wf a -> wf b ->
    c (key_of a) b < 0 -> c k a < 0 -> c k b < 0;
  cmp_match k a b : wfk k -> wf a -> wf b ->
    c (key_of a) b < 0 -> c k a = 0 -> c k b <= 0;
}.

Section Spec.
Context {K E : Type} `{Keyed K E}.
Implicit Types (os : OSet K E) (k : K) (e : E) (ns : list (nat * E)).

(** The nodes of a set, and its elements, in order. *)
Definition nodes os : list (nat * E) := inorder (root os).

Definition elems os : list E := (nodes os).*2.

(** The nodes the iterator has still to give: a stack entry tagged 1 stands
    for its whole subtree, one tagged 2 for the node and what is on its right,
    one tagged 3 for what is on its right. *)
Definition entry_nodes (p : avl E * Z) : list (nat * E) :=
  match p with
  | (Null, _) => []
  | (Node i e b l r, num) =>
      if num =? 1 then inorder (Node i e b l r)
      else if num =? 2 then (i, e) :: inorder r
      else inorder r
  end.

Definition stack_nodes (st : list (avl E * Z)) : list (nat * E) :=
  concat (entry_nodes <$> st).

Definition iter os : list (nat * E) := stack_nodes (stack os).

(** A stack that never overflows: every entry is a node, with a valid tag, and
    leaves room for the height of its subtree. *)
Fixpoint stack_fits (st : list (avl E * Z)) : Prop :=
  match st with
  | [] => True
  | (t, num) :: st' =>
      t <> Null /\ 1 <= num <= 3 /\
      Z.of_nat (length st') + height t <= Z.of_nat STACK_MAX /\ stack_fits st'
  end.

(** The number of elements; the set counts them modulo 2^32. *)
Definition card os : Z := Z.of_nat (tree_size (root os)).

(** A well-formed set. *)
Record os_wf os : Prop := {
  wf_avl : avl_ok (root os);
  wf_sorted : sorted (cmp_key os) (nodes os);
  wf_size : nElems os = uint (card os);
  wf_nodup : NoDup (nodes os).*1;
  wf_ids : Forall (fun i => (i < next_id os)%nat) (nodes os).*1;
}.

Lemma card_nodes os : card os = Z.of_nat (length (nodes os)).
Proof. unfold card, nodes. by rewrite length_inorder. Qed.

Lemma wf_card os : os_wf os -> card os = Z.of_nat (length (nodes os)).
Proof. intros _. apply card_nodes. Qed.

(** The counter is exact below 2^32. *)
Lemma Size_exact os : os_wf os -> card os < 2 ^ 32 -> OSetGen_Size os = card os.
Proof.
  intros Hwf Hlt. unfold OSetGen_Size. rewrite (wf_size _ Hwf). unfold uint. apply Z.mod_small. unfold card in *. lia.
Qed.

(** The fewest nodes an AVL tree of a given height has, with those of the next
    height: the Fibonacci numbers less one. *)
Fixpoint min_nodes2 (h : nat) : Z * Z :=
  match h with
  | O => (0, 1)
  | S h => let '(a, b) := min_nodes2 h in (b, a + b + 1)
  end.

Definition min_nodes (h : nat) : Z := fst (min_nodes2 h).

(** The sets the iterator is safe on: fewer nodes than the smallest AVL tree
    that is higher than the iterator's stack. *)
Definition iter_limit : Z := min_nodes (S STACK_MAX).

Lemma Size_small os : os_wf os -> card os <= iter_limit -> OSetGen_Size os = card os.
Proof. intros Hwf Hlt. apply Size_exact; [done|]. eapply Z.le_lt_trans; [exact Hlt|]. vm_compute. reflexivity. Qed.

(** ** Heights *)

Lemma min_nodes2_succ h : snd (min_nodes2 h) = min_nodes (S h).
Proof. unfold min_nodes. simpl. by destruct (min_nodes2 h). Qed.

Lemma min_nodes_step h :
  min_nodes (S (S h)) = min_nodes (S h) + min_nodes h + 1.
Proof.
  rewrite <-(min_nodes2_succ (S h)), <-(min_nodes2_succ h). unfold min_nodes. simpl.
  destruct (min_nodes2 h); simpl; lia.
Qed.

Lemma min_nodes_nonneg h : 0 <= min_nodes h /\ min_nodes h < min_nodes (S h).
Proof.
  induction h as [|h [IH1 IH2]]; [split; vm_compute; congruence|].
  rewrite (min_nodes_step h). lia.
Qed.

Lemma min_nodes_mono h h' : (h <= h')%nat -> min_nodes h <= min_nodes h'.
Proof.
  induction 1 as [|h' _ IH]; [lia|]. pose proof (min_nodes_nonneg h'). lia.
Qed.

Lemma avl_size_height (t : avl E) :
  avl_ok t -> min_nodes (Z.to_nat (height t)) <= Z.of_nat (tree_size t).
Proof.
  induction t as [|i e b l IHl r IHr]; [intros _; vm_compute; congruence|].
  intros (Hb & Hb' & Hl & Hr). specialize (IHl Hl). specialize (IHr Hr). simpl.
  pose proof (height_nonneg l). pose proof (height_nonneg r).
  remember (Z.to_nat (Z.max (height l) (height r))) as m eqn:Em.
  replace (Z.to_nat (1 + Z.max (height l) (height r))) with (S m) by lia.
  destruct m as [|m].
  { replace (min_nodes 1) with 1 by done. lia. }
  rewrite min_nodes_step.
  destruct (Z.max_spec (height l) (height r)) as [[? Hm]|[? Hm]].
  - replace (Z.to_nat (height r)) with (S m) in IHr by lia.
    pose proof (min_nodes_mono m (Z.to_nat (height l)) ltac:(lia)). lia.
  - replace (Z.to_nat (height l)) with (S m) in IHl by lia.
    pose proof (min_nodes_mono m (Z.to_nat (height r)) ltac:(lia)). lia.
Qed.

Lemma small_height os :
  os_wf os -> card os < iter_limit -> height (root os) <= Z.of_nat STACK_MAX.
Proof.
  intros Hwf Hn. pose proof (wf_avl _ Hwf) as Ha. unfold card in Hn.
  pose proof (avl_size_height _ Ha) as Hh. pose proof (height_nonneg (root os)).
  destruct (Z.le_gt_cases (height (root os)) (Z.of_nat STACK_MAX)) as [?|Hgt]; [done|].
  pose proof (min_nodes_mono (S STACK_MAX) (Z.to_nat (height (root os))) ltac:(lia)).
  unfold iter_limit in Hn. lia.
Qed.

(** ** The iterator *)

Lemma stackPush_fits st (t : avl E) num :
  t <> Null -> 1 <= num <= 3 ->
  Z.of_nat (length st) + height t <= Z.of_nat STACK_MAX ->
  stackPush st t num = Some ((t, num) :: st).
Proof.
  intros Ht Hn Hfit. unfold stackPush.
  assert (1 <= height t) by (destruct t; [done|avl_arith]).
  rewrite (proj2 (Nat.ltb_lt _ _)) by lia. rewrite !(proj2 (Z.leb_le _ _)) by lia. done.
Qed.

Lemma stackPop_fits (t : avl E) num st :
  stack_fits ((t, num) :: st) ->
  stackPop ((t, num) :: st) = Some (Some (t, num, st)).
Proof.
  intros (Ht & Hn & Hfit & _). unfold stackPop.
  assert (1 <= height t) by (destruct t; [done|avl_arith]).
  rewrite (proj2 (Nat.leb_le _ _)) by (simpl; lia).
  rewrite !(proj2 (Z.leb_le _ _)) by lia. done.
Qed.

Lemma next_case_1_ok (t : avl E) st :
  stack_fits st -> Z.of_nat (length st) + height t <= Z.of_nat STACK_MAX ->
  exists st', next_case_1 t st = Some st' /\ stack_fits st' /\
    stack_nodes st' = inorder t ++ stack_nodes st /\
    (t <> Null -> exists n st'', st' = (n, 2) :: st'').
Proof.
  revert st. induction t as [|i e b l IHl r _]; intros st Hst Hfit.
  { by exists st. }
  cbn [next_case_1]. rewrite stackPush_fits; [|done|lia|done]. cbn [mbind option_bind].
  destruct (IHl ((Node i e b l r, 2) :: st)) as (st' & Heq & Hfits & Hnodes & Htop).
  - simpl. repeat split; try done; avl_arith.
  - avl_arith.
  - rewrite Heq. exists st'. split; [done|]. split; [done|]. split.
    + rewrite Hnodes. unfold stack_nodes. simpl. by rewrite <-app_assoc.
    + intros _. destruct l; [|by apply Htop]. simpl in Heq. simplify_eq. eauto.
Qed.

(** What a step of the iterator gives: the first of the remaining nodes, or
    nothing at the end. *)
Definition steps_to (st : list (avl E * Z)) (x : option (nat * E))
    (st' : list (avl E * Z)) : Prop :=
  stack_fits st' /\
  match x with
  | Some n => stack_nodes st = n :: stack_nodes st'
  | None => stack_nodes st = [] /\ st' = []
  end.

Lemma next_loop_top2 fuel (t : avl E) st :
  stack_fits ((t, 2) :: st) ->
  exists x st', next_loop (S fuel) ((t, 2) :: st) = Some (x, st') /\
    steps_to ((t, 2) :: st) x st'.
Proof.
  intros Hfit. cbn [next_loop]. rewrite stackPop_fits by done. cbn [mbind option_bind].
  destruct Hfit as (Ht & _ & Hlen & Hst). destruct t as [|i e b l r]; [done|].
  cbn [Z.eqb]. simpl. rewrite stackPush_fits; [|done|lia|done].
  eexists _, _. split; [done|]. split; [|done]. simpl. repeat split; try done; lia.
Qed.

(** One call of the iterator's loop needs at most two more rounds than there
    are entries on the stack. *)
Lemma next_loop_ok st fuel :
  stack_fits st -> (length st + 2 <= fuel)%nat ->
  exists x st', next_loop fuel st = Some (x, st') /\ steps_to st x st'.
Proof.
  revert fuel. induction st as [|[t num] st IH]; intros fuel Hfit Hfuel;
    (destruct fuel as [|fuel]; [simpl in *; lia|]).
  { eexists _, _. by split. }
  cbn [next_loop]. rewrite stackPop_fits by done. cbn [mbind option_bind].
  pose proof Hfit as (Ht & Hnum & Hlen & Hst). destruct t as [|i e b l r]; [done|].
  assert (forall t', stack_fits st -> t' <> Null ->
    Z.of_nat (length st) + height t' <= Z.of_nat STACK_MAX ->
    exists x st', (st0 ← next_case_1 t' st; next_loop fuel st0) = Some (x, st') /\
      stack_fits st' /\
      match x with
      | Some n => inorder t' ++ stack_nodes st = n :: stack_nodes st'
      | None => False
      end) as Hdown.
  { intros t' _ Ht' Hh. destruct (next_case_1_ok t' st Hst Hh) as (st1 & -> & Hf1 & Hn1 & Htop).
    destruct (Htop Ht') as (n & st2 & ->). destruct fuel as [|fuel]; [simpl in *; lia|].
    destruct (next_loop_top2 fuel n st2 Hf1) as (x & st' & Heq & Hf' & Hx).
    exists x, st'. split; [exact Heq|]. split; [done|]. rewrite <-Hn1.
    destruct x; [done|]. destruct Hx as [Hx _]. destruct n; [by destruct Hf1|done]. }
  assert (num = 1 \/ num = 2 \/ num = 3) as [-> | [-> | ->]] by lia; cbn [Z.eqb Pos.eqb].
  - destruct (Hdown (Node i e b l r) Hst Ht Hlen) as (x & st' & Heq & Hf' & Hx).
    exists x, st'. split; [exact Heq|]. split; [done|]. by destruct x.
  - rewrite stackPush_fits; [|done|lia|done]. eexists _, _. split; [done|].
    split; [|done]. simpl. repeat split; try done; lia.
  - destruct r as [|ri re rb rl rr] eqn:Er.
    + destruct (IH fuel Hst) as (x & st' & -> & Hx); [simpl in *; lia|].
      exists x, st'. by split.
    + rewrite <-Er in *. destruct (Hdown r Hst) as (x & st' & Heq & Hf' & Hx).
      { by rewrite Er. } { avl_arith. }
      exists x, st'. split; [exact Heq|]. split; [done|]. destruct x; [|done].
      cbn. by rewrite <-Hx.
Qed.

(** [OSetGen_Next] gives the first of the remaining nodes and never fails an
    assertion on a stack that fits. *)
Lemma Next_ok os :
  stack_fits (stack os) ->
  exists x st, OSetGen_Next os = Some (x, set_stack st os) /\ steps_to (stack os) x st.
Proof.
  intros Hfit. destruct (next_loop_ok (stack os) (S (S (length (stack os)))) Hfit)
    as (x & st & Heq & Hx); [lia|].
  exists x, st. split; [|done]. unfold OSetGen_Next. by rewrite Heq.
Qed.

Lemma ResetIter_ok os :
  height (root os) <= Z.of_nat STACK_MAX ->
  exists st, OSetGen_ResetIter os = Some (set_stack st os) /\
    stack_fits st /\ stack_nodes st = nodes os.
Proof.
  intros Hh. unfold OSetGen_ResetIter, nodes. destruct (root os) as [|i e b l r] eqn:Er.
  { by exists []. }
  rewrite stackPush_fits; [|done|lia|simpl in *; lia].
  eexists. split; [done|]. split.
  - repeat split; try done; simpl in *; lia.
  - unfold stack_nodes. simpl. by rewrite app_nil_r.
Qed.

Lemma resetiterat_loop_ok (kc : E -> Z) (t : avl E) st ms1 ms2 ms3 :
  stack_fits st -> Z.of_nat (length st) + height t <= Z.of_nat STACK_MAX ->
  inorder t = ms1 ++ ms2 ++ ms3 ->
  after_all kc ms1 -> match_all kc ms2 -> before_all kc ms3 ->
  exists st' ks, resetiterat_loop kc t st = Some st' /\ stack_fits st' /\
    ks `suffix_of` ms2 /\ (ms2 <> [] -> ks <> []) /\
    stack_nodes st' = ks ++ ms3 ++ stack_nodes st.
Proof.
  revert st ms1 ms2 ms3. induction t as [|i e b l IHl r IHr];
    intros st ms1 ms2 ms3 Hst Hfit Hio Ha Hm Hb.
  { simpl in Hio. apply symmetry, app_nil in Hio as [_ [-> ->]%app_nil].
    by exists st, []. }
  cbn [resetiterat_loop]. simpl in Hio.
  destruct (split_at_root _ _ _ _ _ Hio) as [(x & -> & Hx) | (x & Hx & Hrest)].
  - apply after_all_app in Ha as [_ [Hk Ha]%after_all_cons]. simpl in Hk.
    destruct (Z.ltb_spec (kc e) 0); [lia|]. destruct (Z.ltb_spec 0 (kc e)); [|lia]. cbn.
    apply (IHr st x ms2 ms3); try done. avl_arith.
  - destruct (split_at_root x (inorder r) ms2 ms3 (i, e)) as [(y & -> & Hy) | (y & -> & ->)];
      [done| |].
    + apply Forall_app in Hm as [_ [Hk Hm]%Forall_cons_iff]. simpl in Hk. rewrite Hk. cbn.
      rewrite stackPush_fits; [|done|lia|done].
      exists ((Node i e b l r, 2) :: st), ((i, e) :: y). split; [done|].
      split; [repeat split; try done; lia|]. split; [by eexists|]. split; [done|].
      unfold stack_nodes. simpl. by rewrite Hy, <-app_assoc.
    + apply before_all_app in Hb as [Hb' [Hk Hb]%before_all_cons]. simpl in Hk.
      destruct (Z.ltb_spec (kc e) 0); [|lia]. cbn.
      rewrite stackPush_fits; [|done|lia|done]. cbn.
      destruct (IHl ((Node i e b l r, 2) :: st) ms1 ms2 y) as (st' & ks & -> & Hf' & Hsuf & Hne & Hn');
        try done; [avl_arith|]. change (wrap 1 ≫ 63 =? 0) with true. cbn.
      exists st', ks. repeat split; try done. rewrite Hn'. unfold stack_nodes. simpl.
      by rewrite <-!app_assoc.
Qed.

(** [OSetGen_ResetIterAt] leaves the nodes after the key, preceded by the
    matching ones from one of them on. *)
Lemma ResetIterAt_ok os k ms1 ms2 ms3 :
  height (root os) <= Z.of_nat STACK_MAX ->
  nodes os = ms1 ++ ms2 ++ ms3 ->
  after_all (os_cmp os k) ms1 -> match_all (os_cmp os k) ms2 ->
  before_all (os_cmp os k) ms3 ->
  exists st ks, OSetGen_ResetIterAt os k = Some (set_stack st os) /\ stack_fits st /\
    ks `suffix_of` ms2 /\ (ms2 <> [] -> ks <> []) /\ stack_nodes st = ks ++ ms3.
Proof.
  intros Hh Hio Ha Hm Hb.
  destruct (resetiterat_loop_ok (os_cmp os k) (root os) [] ms1 ms2 ms3)
    as (st & ks & Heq & Hf & Hsuf & Hne & Hn); try done.
  exists st, ks. unfold OSetGen_ResetIterAt. rewrite Heq. cbn in Hn.
  rewrite app_nil_r in Hn. by repeat split.
Qed.

(** ** Insertion, removal, lookup, assignment *)

Lemma sorted_insert (c : E -> E -> Z) ms1 ms3 i e :
  sorted c (ms1 ++ ms3) -> c e e = 0 ->
  after_all (c e) ms1 -> before_all (c e) ms3 ->
  Forall (fun n => c (snd n) e < 0) ms1 -> Forall (fun n => 0 < c (snd n) e) ms3 ->
  sorted c (ms1 ++ (i, e) :: ms3).
Proof.
  intros Hs Hrefl Ha Hb H1 H3 ns1 n ns3 Heq.
  destruct (app_cons_inj _ _ _ _ _ _ Heq) as [(<- & <- & <-) | [(k & -> & ->) | (k & -> & ->)]].
  - done.
  - destruct (Hs (ms1 ++ k) n ns3) as (Hr & Hna & Hnb); [by rewrite <-app_assoc|].
    apply after_all_app in Hna as [? ?]. apply Forall_app in H3 as [_ [Hn _]%Forall_cons_iff].
    rewrite after_all_app, after_all_cons. done.
  - destruct (Hs ns1 n (k ++ ms3)) as (Hr & Hna & Hnb); [by rewrite <-app_assoc|].
    apply before_all_app in Hnb as [? ?]. apply Forall_app in H1 as [_ [Hn _]%Forall_cons_iff].
    rewrite before_all_app, before_all_cons. done.
Qed.

(** A set after its tree has changed. *)
Definition with_tree os (t : avl E) (n : Z) (nid : nat) : OSet K E :=
  mkOSet (cmp os) n t [] nid.

Lemma Insert_ok os e ms1 ms3 :
  os_wf os -> nodes os = ms1 ++ ms3 -> cmp_key os e e = 0 ->
  after_all (cmp_key os e) ms1 -> before_all (cmp_key os e) ms3 ->
  Forall (fun n => cmp_key os (snd n) e < 0) ms1 ->
  Forall (fun n => 0 < cmp_key os (snd n) e) ms3 ->
  exists os', OSetGen_Insert os e = Some os' /\ os_wf os' /\
    nodes os' = ms1 ++ (next_id os, e) :: ms3 /\ cmp os' = cmp os /\
    card os' = card os + 1 /\ stack os' = [] /\ next_id os' = S (next_id os).
Proof.
  intros [Hok Hs Hsz Hnd Hids] Hio Hrefl Ha Hb H1 H3.
  assert (exists t', OSetGen_Insert os e =
      Some (with_tree os t' (uint (nElems os + 1)) (S (next_id os))) /\
    avl_ok t' /\ inorder t' = ms1 ++ (next_id os, e) :: ms3) as (t' & -> & Hok' & Hio').
  { unfold OSetGen_Insert. unfold nodes in Hio. destruct (root os) as [|i x b l r] eqn:Er.
    - simpl in Hio. apply symmetry, app_nil in Hio as [-> ->]. by eexists.
    - destruct (avl_insert_ok (cmp_key os) (root os) (next_id os) e ms1 ms3)
        as (t' & g & Heq & ? & ? & _ & _); rewrite ?Er; try done.
      rewrite Er in Heq. rewrite Heq. by exists t'. }
  assert (Z.of_nat (tree_size t') = card os + 1) as Hcard.
  { rewrite card_nodes, Hio, <-length_inorder, Hio', !length_app. simpl. lia. }
  eexists. split; [done|]. unfold nodes. simpl. rewrite Hio'. split; [|done].
  unfold nodes in *. rewrite Hio in *.
  split; unfold nodes; simpl; rewrite ?Hio'; try done.
  - by apply sorted_insert.
  - unfold card at 1. simpl. rewrite Hcard, Hsz. apply uint_add.
  - rewrite fmap_app in *. simpl. apply NoDup_app in Hnd as (Hn1 & Hn2 & Hn3).
    apply Forall_app in Hids as [Hi1 Hi3]. rewrite Forall_forall in Hi1, Hi3.
    apply NoDup_app. split; [done|]. split.
    + intros x Hx. rewrite not_elem_of_cons. split; [|by apply Hn2].
      intros ->. specialize (Hi1 _ Hx). lia.
    + constructor; [|done]. intros Hx. specialize (Hi3 _ Hx). lia.
  - rewrite fmap_app in *. simpl. apply Forall_app in Hids as [Hi1 Hi3].
    apply Forall_app. split; [|constructor; [lia|]];
      (eapply Forall_impl; [done|]; intros; simpl in *; lia).
Qed.

Lemma sorted_remove (c : E -> E -> Z) ms1 n ms3 :
  sorted c (ms1 ++ n :: ms3) -> sorted c (ms1 ++ ms3).
Proof.
  intros Hs ns1 m ns3 Heq.
  destruct (split_at_root _ _ _ _ _ (eq_sym Heq)) as [(k & -> & ->) | (k & -> & ->)].
  - destruct (Hs ns1 m (k ++ n :: ms3)) as (? & ? & Hb); [by rewrite <-app_assoc|].
    apply before_all_app in Hb as [? [? ?]%before_all_cons]. by rewrite before_all_app.
  - destruct (Hs (ms1 ++ n :: k) m ns3) as (? & Ha & ?); [by rewrite <-app_assoc|].
    apply after_all_app in Ha as [? [? ?]%after_all_cons]. by rewrite after_all_app.
Qed.

Lemma Remove_ok os k i e ms1 ms3 :
  os_wf os -> OSetGen_LookupNode os k = Some (i, e) ->
  nodes os = ms1 ++ (i, e) :: ms3 ->
  exists os', OSetGen_Remove os k = Some (Some e, os') /\ os_wf os' /\
    nodes os' = ms1 ++ ms3 /\ cmp os' = cmp os /\
    card os' = card os - 1 /\ stack os' = [] /\ next_id os' = next_id os.
Proof.
  intros [Hok Hs Hsz Hnd Hids] Hl Hio. unfold OSetGen_Remove.
  unfold OSetGen_LookupNode in Hl. rewrite Hl. unfold nodes in *.
  destruct (avl_remove_ok (cmp_key os) (remove_fuel (root os)) (root os) i e ms1 ms3)
    as (t' & ch & -> & Hok' & Hio' & _); try done.
  { left. unfold remove_fuel. pose proof (height_nonneg (root os)). lia. }
  assert (Z.of_nat (tree_size t') = card os - 1) as Hcard.
  { rewrite card_nodes. unfold nodes. rewrite Hio, <-length_inorder, Hio', !length_app. simpl. lia. }
  eexists. split; [done|]. simpl. rewrite Hio'. split; [|done]. rewrite Hio in *.
  split; unfold nodes; simpl; rewrite ?Hio'; try done.
  - by eapply sorted_remove.
  - unfold card at 1. simpl. rewrite Hcard, Hsz. apply uint_sub.
  - rewrite fmap_app in *. simpl in *. apply NoDup_app in Hnd as (Hn1 & Hn2 & Hn3).
    apply NoDup_cons in Hn3 as [? ?]. apply NoDup_app. split; [done|]. split; [|done].
    intros x Hx Hin. apply (Hn2 x Hx). by right.
  - rewrite fmap_app in *. simpl in *. apply Forall_app in Hids as [? [? ?]%Forall_cons_iff].
    by apply Forall_app.
Qed.

Lemma Remove_none os k :
  OSetGen_LookupNode os k = None -> OSetGen_Remove os k = Some (None, os).
Proof. unfold OSetGen_LookupNode, OSetGen_Remove. by intros ->. Qed.

Lemma upd_node_id (ms : list (nat * E)) i f : i ∉ ms.*1 -> upd_node i f <$> ms = ms.
Proof.
  induction ms as [|[j x] ms IH]; [done|]. rewrite !fmap_cons, not_elem_of_cons.
  intros [? ?]. rewrite IH by done. unfold upd_node. simpl.
  by rewrite (proj2 (Nat.eqb_neq _ _)).
Qed.

Lemma Update_card os ni f : card (OSetGen_Update os ni f) = card os.
Proof.
  rewrite !card_nodes. unfold nodes, OSetGen_Update. simpl. by rewrite inorder_update, length_fmap.
Qed.

(** An assignment through an element pointer changes that element only. *)
Lemma Update_nodes os ni f i e ms1 ms3 :
  os_wf os -> nodes os = ms1 ++ (i, e) :: ms3 -> ni = i ->
  nodes (OSetGen_Update os ni f) = ms1 ++ (i, f e) :: ms3.
Proof.
  intros Hwf Hio ->. unfold nodes, OSetGen_Update. simpl. rewrite inorder_update.
  change (inorder (root os)) with (nodes os). pose proof (wf_nodup _ Hwf) as Hnd.
  rewrite Hio in *. rewrite fmap_app. rewrite fmap_app, fmap_cons in Hnd.
  apply NoDup_app in Hnd as (_ & Hn1 & [Hn2 _]%NoDup_cons).
  rewrite fmap_cons, !upd_node_id; [|done|]. { unfold upd_node. simpl. by rewrite Nat.eqb_refl. }
  intros Hin. apply (Hn1 i Hin). by left.
Qed.

Lemma Update_wf os ni f i e ms1 ms3 :
  os_wf os -> nodes os = ms1 ++ (i, e) :: ms3 -> ni = i ->
  sorted (cmp_key os) (ms1 ++ (i, f e) :: ms3) ->
  os_wf (OSetGen_Update os ni f).
Proof.
  intros Hwf Hio Hni Hs. pose proof (Update_nodes os ni f i e ms1 ms3 Hwf Hio Hni) as Hn.
  destruct Hwf as [Hok _ Hsz Hnd Hids]. rewrite Hio in *. rewrite fmap_app in *.
  split; rewrite ?Hn, ?fmap_app; try done.
  - by apply avl_ok_update.
  - rewrite Update_card. exact Hsz.
Qed.

(** The iterator sees the assignment too, since it points to the same nodes. *)
Lemma Update_iter os ni f :
  iter (OSetGen_Update os ni f) = upd_node ni f <$> iter os.
Proof.
  unfold iter, OSetGen_Update, stack_nodes. simpl.
  induction (stack os) as [|[t num] st IH]; [done|]. rewrite !fmap_cons. simpl.
  rewrite IH, fmap_app. f_equal. destruct t as [|i e b l r]; [done|]. simpl.
  destruct (num =? 1), (num =? 2); rewrite ?fmap_app, ?fmap_cons, ?inorder_update; done.
Qed.

Lemma Update_fits os ni f :
  stack_fits (stack os) -> stack_fits (stack (OSetGen_Update os ni f)).
Proof.
  unfold OSetGen_Update. simpl. induction (stack os) as [|[t num] st IH]; [done|].
  intros (Ht & Hn & Hlen & Hst). rewrite fmap_cons. simpl. rewrite length_fmap, height_update.
  split; [by destruct t|]. split; [done|]. split; [done|]. by apply IH.
Qed.

End Spec.

(** * The contract under the laws of the comparison *)

Section Laws.
Context {K E : Type} `{Keyed K E} (c : K -> E -> Z) (wfk : K -> Prop) (wf : E -> Prop)
  `{!CmpLaws c wfk wf}.
Implicit Types (os : OSet K E) (k : K) (e : E) (ns rest : list (nat * E)).

(** A well-formed set that compares with [c] and holds well-formed elements. *)
Record os_ok os : Prop := {
  ok_wf : os_wf os;
  ok_cmp k e : os_cmp os k e = c k e;
  ok_elems : Forall wf (elems os);
}.

(** A set together with its iterator: its nodes, and those still to come. *)
Record os_view os ns rest : Prop := {
  view_ok : os_ok os;
  view_nodes : nodes os = ns;
  view_iter : iter os = rest;
  view_fits : stack_fits (stack os);
}.

Lemma elems_nodes os : elems os = (nodes os).*2.
Proof. done. Qed.

Lemma os_ok_intro os os' :
  os_ok os -> os_wf os' -> cmp os' = cmp os -> Forall wf (elems os') -> os_ok os'.
Proof.
  intros Hok Hwf Hc He. split; [done| |done]. intros k e.
  rewrite <-(ok_cmp _ Hok). unfold os_cmp. by rewrite Hc.
Qed.

(** The signs of a key along a sorted list of well-formed elements. *)
Lemma key_split_list ns k :
  wfk k -> Forall wf ns.*2 -> sorted (fun a b => c (key_of a) b) ns ->
  exists ms1 ms2 ms3, ns = ms1 ++ ms2 ++ ms3 /\
    after_all (c k) ms1 /\ match_all (c k) ms2 /\ before_all (c k) ms3.
Proof.
  intros Hk. induction ns as [|n ns IH]; intros Hwf Hs.
  { exists [], [], []. repeat split; constructor. }
  rewrite fmap_cons, Forall_cons in Hwf. destruct Hwf as [Hn Hwf].
  destruct (IH Hwf (sorted_cons _ _ _ Hs)) as (ms1 & ms2 & ms3 & -> & Ha & Hm & Hb).
  destruct (Hs [] n (ms1 ++ ms2 ++ ms3)) as (_ & _ & Hbf); [done|].
  rewrite !fmap_app, !Forall_app in Hwf. destruct Hwf as (Hw1 & Hw2 & Hw3).
  rewrite !before_all_app in Hbf. destruct Hbf as (Hb1 & Hb2 & Hb3).
  destruct (Z.lt_trichotomy (c k (snd n)) 0) as [Hlt|[Heq|Hgt]].
  - assert (ms1 = [] /\ ms2 = []) as [-> ->].
    { split.
      - destruct ms1 as [|m ms1]; [done|]. rewrite fmap_cons, Forall_cons in Hw1.
        apply after_all_cons in Ha as [? _]. apply before_all_cons in Hb1 as [? _].
        pose proof (cmp_before k (snd n) (snd m) Hk Hn (proj1 Hw1)). lia.
      - destruct ms2 as [|m ms2]; [done|]. rewrite fmap_cons, Forall_cons in Hw2.
        apply Forall_cons_iff in Hm as [? _]. apply before_all_cons in Hb2 as [? _].
        pose proof (cmp_before k (snd n) (snd m) Hk Hn (proj1 Hw2)). lia. }
    exists [], [], (n :: ms3). repeat split; try done. by apply before_all_cons.
  - assert (ms1 = []) as ->.
    { destruct ms1 as [|m ms1]; [done|]. rewrite fmap_cons, Forall_cons in Hw1.
      apply after_all_cons in Ha as [? _]. apply before_all_cons in Hb1 as [? _].
      pose proof (cmp_match k (snd n) (snd m) Hk Hn (proj1 Hw1)). lia. }
    exists [], (n :: ms2), ms3. repeat split; try done. by apply Forall_cons_iff.
  - exists (n :: ms1), ms2, ms3. repeat split; try done. by apply after_all_cons.
Qed.

Lemma ok_sorted os : os_ok os -> sorted (fun a b => c (key_of a) b) (nodes os).
Proof.
  intros [[_ Hs _ _ _] Hc _] ns1 n ns3 Heq. destruct (Hs ns1 n ns3 Heq) as (Hr & Ha & Hb).
  unfold cmp_key in *. rewrite Hc in Hr. split; [done|].
  split; (eapply Forall_impl; [done|]); simpl; intros m; by rewrite Hc.
Qed.

Lemma key_split os k :
  os_ok os -> wfk k ->
  exists ms1 ms2 ms3, nodes os = ms1 ++ ms2 ++ ms3 /\
    after_all (os_cmp os k) ms1 /\ match_all (os_cmp os k) ms2 /\
    before_all (os_cmp os k) ms3.
Proof.
  intros Hok Hk.
  destruct (key_split_list (nodes os) k Hk (ok_elems _ Hok) (ok_sorted _ Hok))
    as (ms1 & ms2 & ms3 & Heq & Ha & Hm & Hb).
  exists ms1, ms2, ms3. split; [done|].
  repeat split; (eapply Forall_impl; [done|]); simpl; intros m; by rewrite (ok_cmp _ Hok).
Qed.

(** A lookup gives a matching node of the set; it gives none exactly when no
    element matches. *)
Lemma LookupNode_some os k i e :
  os_ok os -> wfk k -> OSetGen_LookupNode os k = Some (i, e) ->
  (i, e) ∈ nodes os /\ c k e = 0.
Proof.
  intros Hok Hk Hl. destruct (key_split os k Hok Hk) as (ms1 & ms2 & ms3 & Heq & Ha & Hm & Hb).
  pose proof (avl_lookup_ok (os_cmp os k) (root os) ms1 ms2 ms3 Heq Ha Hm Hb) as Hin.
  unfold OSetGen_LookupNode in Hl. rewrite Hl in Hin. split.
  - rewrite Heq. set_solver.
  - rewrite <-(ok_cmp _ Hok). unfold match_all in Hm. rewrite Forall_forall in Hm.
    by apply (Hm (i, e)).
Qed.

Lemma LookupNode_none os k :
  os_ok os -> wfk k -> OSetGen_LookupNode os k = None ->
  Forall (fun e => c k e <> 0) (elems os).
Proof.
  intros Hok Hk Hl. destruct (key_split os k Hok Hk) as (ms1 & ms2 & ms3 & Heq & Ha & Hm & Hb).
  pose proof (avl_lookup_ok (os_cmp os k) (root os) ms1 ms2 ms3 Heq Ha Hm Hb) as Hin.
  unfold OSetGen_LookupNode in Hl. rewrite Hl in Hin. subst ms2.
  unfold elems. rewrite Heq, fmap_app, Forall_app, !Forall_fmap.
  split; (eapply Forall_impl; [done|]); simpl; intros m; rewrite (ok_cmp _ Hok); lia.
Qed.

Lemma Lookup_some os k e :
  os_ok os -> wfk k -> OSetGen_Lookup os k = Some e -> e ∈ elems os /\ c k e = 0.
Proof.
  intros Hok Hk Hl. unfold OSetGen_Lookup in Hl.
  apply fmap_Some in Hl as ([i e'] & Hl & ->).
  destruct (LookupNode_some _ _ _ _ Hok Hk Hl) as [Hin Hc]. split; [|done].
  unfold elems. apply list_elem_of_fmap. by exists (i, e').
Qed.

Lemma Lookup_none os k :
  os_ok os -> wfk k -> OSetGen_Lookup os k = None ->
  Forall (fun e => c k e <> 0) (elems os).
Proof.
  intros Hok Hk Hl. apply LookupNode_none; [done..|].
  unfold OSetGen_Lookup in Hl. by apply fmap_None in Hl.
Qed.

(** An element that matches nothing is inserted in its place. *)
Lemma Insert_new os e :
  os_ok os -> wf e -> Forall (fun x => c (key_of e) x <> 0) (elems os) ->
  exists os' ms1 ms3, OSetGen_Insert os e = Some os' /\ os_ok os' /\
    nodes os = ms1 ++ ms3 /\ nodes os' = ms1 ++ (next_id os, e) :: ms3 /\
    after_all (c (key_of e)) ms1 /\ before_all (c (key_of e)) ms3 /\
    card os' = card os + 1 /\ stack os' = [].
Proof.
  intros Hok He Hne.
  destruct (key_split_list (nodes os) (key_of e)) as (ms1 & ms2 & ms3 & Heq & Ha & Hm & Hb).
  { by apply cmp_wf_key. } { apply (ok_elems _ Hok). } { by apply ok_sorted. }
  assert (ms2 = []) as ->.
  { destruct ms2 as [|m ms2]; [done|]. apply Forall_cons_iff in Hm as [Hm _].
    unfold elems in Hne. rewrite Heq, !fmap_app, fmap_cons, !Forall_app, Forall_cons in Hne.
    by destruct Hne as (_ & [? _] & _). }
  simpl in Heq. pose proof (ok_elems _ Hok) as Hwf. unfold elems in Hwf.
  rewrite Heq, fmap_app, Forall_app, !Forall_fmap in Hwf. destruct Hwf as [Hw1 Hw3].
  assert (forall x y, cmp_key os x y = c (key_of x) y) as Hck
    by (intros; apply (ok_cmp _ Hok)).
  destruct (Insert_ok os e ms1 ms3) as (os' & Hi & Hwf' & Hn' & Hc' & Hsz & Hst & _).
  - apply (ok_wf _ Hok).
  - done.
  - rewrite Hck. by apply cmp_refl.
  - eapply Forall_impl; [exact Ha|]. simpl. intros m. by rewrite Hck.
  - eapply Forall_impl; [exact Hb|]. simpl. intros m. by rewrite Hck.
  - unfold after_all in Ha. rewrite Forall_forall in *. intros m Hin. rewrite Hck.
    apply cmp_antisym; [by apply Hw1|done|by apply Ha].
  - unfold before_all in Hb. rewrite Forall_forall in *. intros m Hin. rewrite Hck.
    apply cmp_antisym; [done|by apply Hw3|by apply Hb].
  - exists os', ms1, ms3. split; [done|]. split; [|done].
    apply (os_ok_intro os); [done..|]. unfold elems. rewrite Hn', fmap_app, fmap_cons, Forall_app, Forall_cons, !Forall_fmap.
      done.
Qed.

(** A removal takes out the node the lookup finds. *)
Lemma Remove_found os k i e :
  os_ok os -> wfk k -> OSetGen_LookupNode os k = Some (i, e) ->
  exists os' ms1 ms3, OSetGen_Remove os k = Some (Some e, os') /\ os_ok os' /\
    nodes os = ms1 ++ (i, e) :: ms3 /\ nodes os' = ms1 ++ ms3 /\
    card os' = card os - 1 /\ stack os' = [].
Proof.
  intros Hok Hk Hl. destruct (LookupNode_some _ _ _ _ Hok Hk Hl) as [Hin _].
  apply list_elem_of_split in Hin as (ms1 & ms3 & Heq).
  destruct (Remove_ok os k i e ms1 ms3 (ok_wf _ Hok) Hl Heq)
    as (os' & Hr & Hwf' & Hn' & Hc' & Hsz & Hst & _).
  exists os', ms1, ms3. split; [done|]. split; [|done].
  apply (os_ok_intro os); [done..|].
  pose proof (ok_elems _ Hok) as Hwf. unfold elems in *. rewrite Hn'. rewrite Heq in Hwf.
  rewrite fmap_app, fmap_cons, Forall_app, Forall_cons in Hwf.
  rewrite fmap_app, Forall_app. tauto.
Qed.

(** An element looks itself up. *)
Lemma Lookup_self os i e :
  os_ok os -> (i, e) ∈ nodes os -> OSetGen_LookupNode os (key_of e) = Some (i, e).
Proof.
  intros Hok Hin. apply list_elem_of_split in Hin as (ms1 & ms3 & Heq).
  destruct (wf_sorted _ (ok_wf _ Hok) _ _ _ Heq) as (Hr & Ha & Hb).
  pose proof (avl_lookup_ok (os_cmp os (key_of e)) (root os) ms1 [(i, e)] ms3) as Hlk.
  unfold OSetGen_LookupNode. destruct (avl_lookup _ _) as [n|].
  - assert (n ∈ [(i, e)]) as ->%list_elem_of_singleton; [|done].
    apply Hlk; try done. by constructor.
  - assert ([(i, e)] = []); [|done]. apply Hlk; try done. by constructor.
Qed.

(** ** Iterating over a set that changes *)

Lemma after_all_cmp os k ns : os_ok os -> after_all (c k) ns -> after_all (os_cmp os k) ns.
Proof.
  intros Hok Hs. eapply Forall_impl; [exact Hs|]. intros n. simpl. by rewrite (ok_cmp _ Hok).
Qed.

Lemma before_all_cmp os k ns : os_ok os -> before_all (c k) ns -> before_all (os_cmp os k) ns.
Proof.
  intros Hok Hs. eapply Forall_impl; [exact Hs|]. intros n. simpl. by rewrite (ok_cmp _ Hok).
Qed.

Lemma os_ok_stack os st : os_ok os -> os_ok (set_stack st os).
Proof. intros [[] ? ?]. done. Qed.

Lemma view_reset os :
  os_ok os -> card os < iter_limit ->
  exists os', OSetGen_ResetIter os = Some os' /\ os_view os' (nodes os) (nodes os) /\
    root os' = root os.
Proof.
  intros Hok Hlim. destruct (ResetIter_ok os) as (st & Heq & Hf & Hn).
  { apply small_height; [apply (ok_wf _ Hok)|done]. }
  exists (set_stack st os). split; [done|]. split; [|done]. split; try done.
  by apply os_ok_stack.
Qed.

Lemma view_next os ns rest :
  os_view os ns rest ->
  exists os', OSetGen_Next os = Some (head rest, os') /\ os_view os' ns (tail rest).
Proof.
  intros [Hok Hn Hi Hf]. destruct (Next_ok os Hf) as (x & st & Heq & Hf' & Hx).
  change (stack_nodes (stack os)) with (iter os) in Hx. rewrite Hi in Hx.
  exists (set_stack st os). destruct x as [n|].
  - rewrite Hx. split; [done|]. split; try done. by apply os_ok_stack.
  - destruct Hx as [-> ->]. split; [done|]. split; try done. by apply os_ok_stack.
Qed.

(** The node the iterator has just given is removed, and the iterator put
    behind it. *)
Lemma view_remove os dn i e rem :
  os_ok os -> card os < iter_limit -> nodes os = dn ++ (i, e) :: rem ->
  exists os1 os2, OSetGen_Remove os (key_of e) = Some (Some e, os1) /\
    OSetGen_ResetIterAt os1 (key_of e) = Some os2 /\ os_view os2 (dn ++ rem) rem /\
    card os2 = card os - 1.
Proof.
  intros Hok Hlim Hn. destruct (ok_sorted os Hok dn (i, e) rem Hn) as (_ & Ha & Hb).
  destruct (Remove_ok os (key_of e) i e dn rem (ok_wf _ Hok))
    as (os1 & Hrem & Hwf1 & Hn1 & Hc1 & Hsz1 & _); [|done|].
  { apply (Lookup_self os i e Hok). rewrite Hn. set_solver. }
  assert (os_ok os1) as Hok1.
  { apply (os_ok_intro os); [done..|]. pose proof (ok_elems _ Hok) as Hw. unfold elems in *.
    rewrite Hn, fmap_app, fmap_cons, Forall_app, Forall_cons in Hw.
    rewrite Hn1, fmap_app, Forall_app. tauto. }
  destruct (ResetIterAt_ok os1 (key_of e) dn [] rem) as (st & ks & Heq & Hf & Hsuf & _ & Hst).
  - apply small_height; [done|lia].
  - done.
  - by apply after_all_cmp.
  - constructor.
  - by apply before_all_cmp.
  - exists os1, (set_stack st os1). split; [done|]. split; [done|]. split; [|done].
    split; [by apply os_ok_stack|done| |done]. unfold iter. simpl. rewrite Hst.
    destruct Hsuf as [k Hk]. by destruct k, ks.
Qed.

(** The node the iterator has just given is assigned, which leaves its place in
    the order. *)
Lemma view_update os dn i e rem f :
  os_view os (dn ++ (i, e) :: rem) rem -> wf (f e) ->
  (forall k, c k (f e) = c k e) -> (forall x, c (key_of (f e)) x = c (key_of e) x) ->
  os_view (OSetGen_Update os i f) (dn ++ (i, f e) :: rem) rem.
Proof.
  intros [Hok Hn Hi Hf] Hw Hk1 Hk2. pose proof (ok_wf _ Hok) as Hwf.
  pose proof (Update_nodes os i f i e dn rem Hwf Hn eq_refl) as Hn'.
  assert (forall x y, cmp_key os x y = c (key_of x) y) as Hck
    by (intros; apply (ok_cmp _ Hok)).
  assert (os_wf (OSetGen_Update os i f)) as Hwf'.
  { apply (Update_wf os i f i e dn rem Hwf Hn eq_refl). intros ns1 [j x] ns3 Heq.
    pose proof (ok_sorted os Hok) as Hs. rewrite Hn in Hs.
    assert (forall a b, cmp_key os a b = c (key_of a) b) as Hc by done.
    destruct (app_cons_inj _ _ _ _ _ _ Heq) as [(<- & Hx & <-) | [(k & -> & ->) | (k & -> & ->)]].
    - injection Hx as <- <-. destruct (Hs dn (i, e) rem) as (Hr & Ha & Hb); [done|]. simpl in *.
      rewrite Hck, Hk2, Hk1. split; [done|].
      split; (eapply Forall_impl; [done|]); intros n; simpl; by rewrite Hck, Hk2.
    - destruct (Hs (dn ++ (i, e) :: k) (j, x) ns3) as (Hr & Ha & Hb).
      { by rewrite <-app_assoc. }
      split; [by rewrite Hck|]. split; [|eapply Forall_impl; [done|]; intros; simpl; by rewrite Hck].
      apply after_all_app in Ha as [Ha1 [Ha2 Ha3]%after_all_cons].
      rewrite after_all_app, after_all_cons. simpl in *. rewrite Hck, Hk1.
      split; [|split; [done|]]; (eapply Forall_impl; [done|]); intros; simpl; by rewrite Hck.
    - destruct (Hs ns1 (j, x) (k ++ (i, e) :: rem)) as (Hr & Ha & Hb).
      { by rewrite <-app_assoc. }
      split; [by rewrite Hck|]. split; [eapply Forall_impl; [done|]; intros; simpl; by rewrite Hck|].
      apply before_all_app in Hb as [Hb1 [Hb2 Hb3]%before_all_cons].
      rewrite before_all_app, before_all_cons. simpl in *. rewrite Hck, Hk1.
      split; [|split; [done|]]; (eapply Forall_impl; [done|]); intros; simpl; by rewrite Hck. }
  split; [|done| |by apply Update_fits].
  - apply (os_ok_intro os); [done..|]. pose proof (ok_elems _ Hok) as He. unfold elems in *.
    rewrite Hn, fmap_app, fmap_cons, Forall_app, Forall_cons in He.
    rewrite Hn', fmap_app, fmap_cons, Forall_app, Forall_cons. tauto.
  - rewrite Update_iter, Hi. apply upd_node_id. pose proof (wf_nodup _ Hwf) as Hnd.
    rewrite Hn, fmap_app, fmap_cons in Hnd. by apply NoDup_app in Hnd as (_ & _ & [? _]%NoDup_cons).
Qed.

(** Reading through the pointer of a node. *)
Lemma Deref_node os i e : os_wf os -> (i, e) ∈ nodes os -> OSetGen_Deref os i = Some e.
Proof.
  intros Hwf. pose proof (wf_nodup _ Hwf) as Hnd. unfold nodes, OSetGen_Deref in *.
  clear Hwf. induction (root os) as [|j x b l IHl r IHr]; simpl in *; [by intros ?%elem_of_nil|].
  rewrite fmap_app, fmap_cons in Hnd. apply NoDup_app in Hnd as (Hl & Hlr & [Hj Hr]%NoDup_cons).
  rewrite elem_of_app, elem_of_cons. simpl in *.
  assert (forall t : avl E, i ∉ (inorder t).*1 -> avl_deref i t = None) as Hnone.
  { induction t as [|j' x' b' l' IHl' r' IHr']; [done|]. simpl.
    rewrite fmap_app, fmap_cons, not_elem_of_app, not_elem_of_cons. simpl.
    intros (? & ? & ?). rewrite (proj2 (Nat.eqb_neq _ _)) by congruence.
    rewrite IHl', IHr'; done. }
  assert (forall t : avl E, (i, e) ∈ inorder t -> i ∈ (inorder t).*1) as Hin.
  { intros t Ht. apply list_elem_of_fmap. by exists (i, e). }
  intros [He|[He|He]].
  - assert (j <> i) by (intros ->; apply (Hlr i); [by apply Hin|by left]).
    rewrite (proj2 (Nat.eqb_neq _ _)) by congruence. by rewrite IHl.
  - simplify_eq. by rewrite Nat.eqb_refl.
  - assert (j <> i) by (intros ->; by apply Hj, Hin).
    rewrite (proj2 (Nat.eqb_neq _ _)) by congruence. rewrite Hnone, IHr; [done..|].
    intros Hil. apply (Hlr i Hil). right. by apply Hin.
Qed.
End Laws.
