(* ===== verification/OSetWord.v ===== *)
(** What the ordered set promises its clients: sets of words are finite sets of
    integers, the iterator gives the elements in order, destruction frees every
    node once; and the size from which on the iterator's stack can overflow. *)
From stdpp Require Import gmap sorting.
From S2P Require Import Prelude OSet OSetTree OSetSpec.

(** ** Duplicates *)

(** An insertion takes the way of a lookup: where the lookup finds an element,
    the assertion on duplicates fails. *)
Lemma avl_insert_dup {E} (c : E -> E -> Z) t ni ne n :
  avl_lookup (c ne) t = Some n -> avl_insert c t ni ne = None.
Proof.
  induction t as [|i e b l IHl r IHr]; intros Hl; [done|]. simpl in *.
  destruct (c ne e <? 0); [|destruct (0 <? c ne e); [|done]].
  - destruct l; [done|]. by rewrite IHl.
  - destruct r; [done|]. by rewrite IHr.
Qed.

Lemma Insert_dup {K E} `{Keyed K E} (os : OSet K E) e n :
  OSetGen_LookupNode os (key_of e) = Some n -> OSetGen_Insert os e = None.
Proof.
  intros Hl. unfold OSetGen_Insert, OSetGen_LookupNode in *.
  destruct (root os) as [|i x b l r] eqn:Hr; [done|].
  by rewrite (avl_insert_dup (cmp_key os) (Node i x b l r) (next_id os) e n Hl).
Qed.

(** ** Iterations *)

(** [VG_(OSetGen_ResetIter)(os); while ((x = VG_(OSetGen_Next)(os)) != NULL) ...]:
    the elements seen. *)
Fixpoint next_all {K E} (fuel : nat) (os : OSet K E) : option (list (nat * E)) :=
  match fuel with
  | O => None
  | S fuel =>
      '(x, os) ← OSetGen_Next os;
      match x with
      | None => Some []
      | Some n => ns ← next_all fuel os; Some (n :: ns)
      end
  end.

Definition iterate {K E} (os : OSet K E) : option (list (nat * E)) :=
  os ← OSetGen_ResetIter os; next_all (S (tree_size (root os))) os.

Lemma next_all_ok {K E} `{Keyed K E} c wf fuel : forall (os : OSet K E) ns rest,
  os_view c wf os ns rest -> (length rest < fuel)%nat -> next_all fuel os = Some rest.
Proof.
  induction fuel as [|fuel IH]; intros os ns rest Hv Hlen; [lia|]. cbn [next_all].
  destruct (view_next c wf os ns rest Hv) as (os' & Hn & Hv'). rewrite Hn. cbn [mbind option_bind].
  destruct rest as [|n rest]; [done|]. simpl in *. rewrite (IH os' ns rest); [done|done|lia].
Qed.

Lemma iterate_ok {K E} `{Keyed K E} c wf (os : OSet K E) :
  os_ok c wf os -> card os < iter_limit -> iterate os = Some (nodes os).
Proof.
  intros Hok Hlim. destruct (view_reset c wf os Hok Hlim) as (os' & Hr & Hv & Hroot).
  unfold iterate. rewrite Hr. cbn [mbind option_bind]. eapply next_all_ok; [exact Hv|].
  rewrite Hroot. unfold nodes. rewrite length_inorder. lia.
Qed.

(** ** Sets of words *)

#[export] Instance fast_cmp_laws : CmpLaws (K := Z) (E := Z) fast_cmp (fun _ => True) (fun _ => True).
Proof. split; simpl; try done; unfold fast_cmp; simpl; intros *; repeat ztest; lia. Qed.

Abbreviation word_ok := (os_ok (K := Z) (E := Z) fast_cmp (fun _ => True)).

(** The operations of a client on a set of words, with what they answer. *)
Inductive word_op : Type := InsertW (w : Z) | RemoveW (w : Z) | ContainsW (w : Z) | SizeW.

Inductive answer : Type := Nothing | Yes | No | Count (n : Z).

Definition run_op (op : word_op) (os : OSet Z Z) : option (answer * OSet Z Z) :=
  match op with
  | InsertW w => os ← OSetWord_Insert os w; Some (Nothing, os)
  | RemoveW w => '(b, os) ← OSetWord_Remove os w; Some (if (b : bool) then Yes else No, os)
  | ContainsW w => Some (if OSetWord_Contains os w then Yes else No, os)
  | SizeW => Some (Count (OSetGen_Size os), os)
  end.

(** The same on finite sets; to insert an element twice is an error, and the size is a [UInt]. *)
Definition spec_op (op : word_op) (s : gset Z) : option (answer * gset Z) :=
  match op with
  | InsertW w => if bool_decide (w ∈ s) then None else Some (Nothing, {[w]} ∪ s)
  | RemoveW w => Some (if bool_decide (w ∈ s) then Yes else No, s ∖ {[w]})
  | ContainsW w => Some (if bool_decide (w ∈ s) then Yes else No, s)
  | SizeW => Some (Count (uint (Z.of_nat (size s))), s)
  end.

Fixpoint run_ops {S} (step : word_op -> S -> option (answer * S)) (ops : list word_op) (s : S)
    : option (list answer * S) :=
  match ops with
  | [] => Some ([], s)
  | op :: ops => '(a, s) ← step op s; '(l, s) ← run_ops step ops s; Some (a :: l, s)
  end.

(** The set of words a tree holds. *)
Record holds (os : OSet Z Z) (s : gset Z) : Prop := {
  h_ok : word_ok os;
  h_elems w : w ∈ elems os <-> w ∈ s;
}.

Lemma fast_cmp_eq (a b : Z) : fast_cmp a b = 0 <-> a = b.
Proof. unfold fast_cmp. simpl. repeat ztest; lia. Qed.

Lemma word_nodup os : word_ok os -> NoDup (elems os).
Proof.
  intros Hok. pose proof (ok_sorted _ _ os Hok) as Hs. unfold elems.
  induction (nodes os) as [|n ns IH]; [constructor|]. rewrite fmap_cons. constructor.
  - destruct (Hs [] n ns eq_refl) as (_ & _ & Hb). intros (m & Hm & Hin)%list_elem_of_fmap.
    unfold before_all in Hb. rewrite Forall_forall in Hb. specialize (Hb m Hin).
    rewrite Hm in Hb. rewrite (proj2 (fast_cmp_eq _ _)) in Hb by done. lia.
  - apply IH. intros ns1 m ns3 ->. destruct (Hs (n :: ns1) m ns3 eq_refl) as (? & Ha & ?).
    apply after_all_cons in Ha as [_ ?]. done.
Qed.

Lemma holds_card os s : holds os s -> card os = Z.of_nat (size s).
Proof.
  intros [Hok Hel]. rewrite card_nodes. f_equal. rewrite <-(length_fmap snd). change ((nodes os).*2) with (elems os).
  assert (s = list_to_set (elems os)) as -> by (apply set_eq; intros w; by rewrite elem_of_list_to_set, Hel).
  by rewrite size_list_to_set by (by apply word_nodup).
Qed.

Lemma holds_size os s : holds os s -> OSetGen_Size os = uint (Z.of_nat (size s)).
Proof.
  intros Hh. rewrite <-(holds_card os s Hh). destruct Hh as [Hok _]. apply (wf_size _ (ok_wf _ _ _ Hok)).
Qed.

Lemma holds_contains os s w : holds os s -> OSetWord_Contains os w = bool_decide (w ∈ s).
Proof.
  intros [Hok Hel]. unfold OSetWord_Contains, OSetGen_Contains.
  destruct (OSetGen_Lookup os w) as [x|] eqn:Hl.
  - destruct (Lookup_some _ _ _ os w x Hok I Hl) as [Hin Hc].
    apply (proj1 (fast_cmp_eq _ _)) in Hc. subst x.
    symmetry. apply bool_decide_eq_true. by apply Hel.
  - symmetry. apply bool_decide_eq_false. intros Hin%Hel.
    pose proof (Lookup_none _ _ _ os w Hok I Hl) as Hn. rewrite Forall_forall in Hn.
    apply (Hn w Hin). by apply fast_cmp_eq.
Qed.

Lemma elem_nodes (os : OSet Z Z) w : w ∈ elems os <-> exists i, (i, w) ∈ nodes os.
Proof.
  unfold elems. rewrite list_elem_of_fmap. split; [intros ([i x] & -> & Hin); by exists i|].
  intros [i Hin]. by exists (i, w).
Qed.

Lemma elems_insert (os os' : OSet Z Z) ms1 ms3 i w :
  nodes os = ms1 ++ ms3 -> nodes os' = ms1 ++ (i, w) :: ms3 ->
  forall x, x ∈ elems os' <-> x = w \/ x ∈ elems os.
Proof.
  intros H1 H2 x. unfold elems. rewrite H1, H2, !fmap_app, fmap_cons. apply elem_of_middle.
Qed.

Lemma insert_holds os s w :
  holds os s -> w ∉ s -> exists os', OSetWord_Insert os w = Some os' /\ holds os' ({[w]} ∪ s).
Proof.
  intros [Hok Hel] Hw.
  destruct (Insert_new _ _ _ os w Hok I) as (os' & ms1 & ms3 & Hi & Hok' & H1 & H2 & _).
  { apply Forall_forall. intros x Hx Hc. apply (proj1 (fast_cmp_eq _ _)) in Hc. simpl in Hc. subst x.
    by apply Hw, Hel. }
  exists os'. split; [done|]. split; [done|]. intros x. rewrite (elems_insert _ _ _ _ _ _ H1 H2), Hel.
  set_solver.
Qed.

Lemma remove_holds os s w :
  holds os s -> exists os', OSetWord_Remove os w = Some (bool_decide (w ∈ s), os') /\
    holds os' (s ∖ {[w]}).
Proof.
  intros Hh. pose proof Hh as [Hok Hel]. unfold OSetWord_Remove.
  pose proof (holds_contains os s w Hh) as Hc. unfold OSetWord_Contains, OSetGen_Contains, OSetGen_Lookup in Hc.
  destruct (OSetGen_LookupNode os w) as [[i x]|] eqn:Hl; simpl in Hc.
  - destruct (Remove_found _ _ _ os w i x Hok I Hl) as (os' & ms1 & ms3 & Hr & Hok' & H1 & H2 & _).
    destruct (LookupNode_some _ _ _ os w i x Hok I Hl) as [_ Hx].
    apply (proj1 (fast_cmp_eq _ _)) in Hx. subst x.
    rewrite Hr, <-Hc. exists os'. split; [done|]. split; [done|]. intros x.
    pose proof (elems_insert os' os ms1 ms3 i w H2 H1 x) as Hx. rewrite Hel in Hx.
    rewrite elem_of_difference, elem_of_singleton, Hx. split; [|tauto].
    intros Hin. split; [by right|]. intros ->. pose proof (word_nodup os Hok) as Hnd. unfold elems in *.
    rewrite H1, fmap_app, fmap_cons in Hnd. rewrite H2, fmap_app in Hin.
    apply NoDup_app in Hnd as (_ & Hd & [Hn _]%NoDup_cons). apply elem_of_app in Hin as [Hin|Hin]; [|done].
    apply (Hd w Hin). by left.
  - rewrite (Remove_none os w Hl), <-Hc. exists os. split; [done|]. split; [done|].
    intros x. rewrite Hel. symmetry in Hc. apply bool_decide_eq_false in Hc. set_solver.
Qed.

Lemma op_refines op os s :
  holds os s ->
  match spec_op op s with
  | None => run_op op os = None
  | Some (a, s') => exists os', run_op op os = Some (a, os') /\ holds os' s'
  end.
Proof.
  intros Hh. destruct op as [w|w|w|]; simpl.
  - case_bool_decide as Hw.
    + pose proof (holds_contains os s w Hh) as Hc. rewrite bool_decide_true in Hc by done.
      unfold OSetWord_Contains, OSetGen_Contains, OSetGen_Lookup in Hc. unfold OSetWord_Insert.
      destruct (OSetGen_LookupNode os w) as [n|] eqn:Hl; [|done].
      by rewrite (Insert_dup os w n Hl).
    + destruct (insert_holds os s w Hh Hw) as (os' & Hi & Hh'). rewrite Hi. by exists os'.
  - destruct (remove_holds os s w Hh) as (os' & Hr & Hh'). rewrite Hr. exists os'. by case_bool_decide.
  - exists os. by rewrite (holds_contains os s w Hh).
  - exists os. by rewrite (holds_size os s Hh).
Qed.

Lemma ops_refine ops : forall os s,
  holds os s ->
  match run_ops spec_op ops s with
  | None => run_ops run_op ops os = None
  | Some (l, s') => exists os', run_ops run_op ops os = Some (l, os') /\ holds os' s'
  end.
Proof.
  induction ops as [|op ops IH]; intros os s Hh; simpl; [by exists os|].
  pose proof (op_refines op os s Hh) as Hop. destruct (spec_op op s) as [[a s1]|]; simpl; [|by rewrite Hop].
  destruct Hop as (os1 & -> & Hh1). simpl. specialize (IH os1 s1 Hh1).
  destruct (run_ops spec_op ops s1) as [[l s2]|]; simpl; [|by rewrite IH].
  destruct IH as (os2 & -> & Hh2). by exists os2.
Qed.

Lemma holds_empty : holds OSetWord_Create ∅.
Proof.
  split; [|intros w; split; [by intros ?%elem_of_nil|set_solver]].
  split; [|done|constructor]. split; try done; [|constructor..]. intros [] ? ? ?; done.
Qed.

(** ** Destruction *)

(** The nodes of a tree, children before their parent. *)
Fixpoint post_order {E} (t : avl E) : list nat :=
  match t with
  | Null => []
  | Node i _ _ l r => post_order l ++ post_order r ++ [i]
  end.

Lemma post_order_perm {E} (t : avl E) : post_order t ≡ₚ (inorder t).*1.
Proof.
  induction t as [|i e b l IHl r IHr]; [done|]. simpl. rewrite fmap_app, fmap_cons, IHl, IHr. simpl.
  apply Permutation_app_head. by rewrite Permutation_app_comm.
Qed.

Lemma pop_fits {E} (t : avl E) num (st : list (avl E * Z)) :
  1 <= num <= 3 -> (length st < STACK_MAX)%nat -> stackPop ((t, num) :: st) = Some (Some (t, num, st)).
Proof.
  intros Hn Hlen. unfold stackPop. cbn [length]. rewrite (proj2 (Nat.leb_le _ _)) by lia.
  rewrite !(proj2 (Z.leb_le _ _)) by lia. done.
Qed.

(** A subtree on the stack is freed before what is below it. *)
Lemma destroy_subtree {E} (t : avl E) : forall st freed fuel,
  t <> Null -> Z.of_nat (length st) + height t <= Z.of_nat STACK_MAX ->
  destroy_loop (3 * tree_size t + fuel) ((t, 1) :: st) freed =
  destroy_loop fuel st (freed ++ post_order t).
Proof.
  induction t as [|i e b l IHl r IHr]; intros st freed fuel Hne Hlen; [done|].
  cbn [height tree_size post_order] in *. pose proof (height_nonneg l). pose proof (height_nonneg r).
  set (n := Node i e b l r).
  assert (forall num, 1 <= num <= 3 -> stackPush st n num = Some ((n, num) :: st)) as Hpush.
  { intros num Hnum. apply stackPush_fits; [done|done|simpl; lia]. }
  assert (forall num, 1 <= num <= 3 -> stackPop ((n, num) :: st) = Some (Some (n, num, st))) as Hpop
    by (intros num Hnum; apply pop_fits; [done|lia]).
  replace (3 * S (tree_size l + tree_size r) + fuel)%nat
    with (S (3 * tree_size l + S (3 * tree_size r + S fuel)))%nat by lia.
  assert (forall f x, destroy_loop (3 * tree_size l + f)
    (match l with Null => (n, 2) :: st | _ => (l, 1) :: (n, 2) :: st end) x =
    destroy_loop f ((n, 2) :: st) (x ++ post_order l)) as Hl.
  { intros f x. destruct l; [by simpl; rewrite app_nil_r|]. apply IHl; [done|cbn [length]; lia]. }
  assert (forall f x, destroy_loop (3 * tree_size r + f)
    (match r with Null => (n, 3) :: st | _ => (r, 1) :: (n, 3) :: st end) x =
    destroy_loop f ((n, 3) :: st) (x ++ post_order r)) as Hr.
  { intros f x. destruct r; [by simpl; rewrite app_nil_r|]. apply IHr; [done|cbn [length]; lia]. }
  assert (forall t', t' = l \/ t' = r -> forall num, match t' with Null => Some ((n, num) :: st)
    | _ => stackPush ((n, num) :: st) t' 1 end =
    Some (match t' with Null => (n, num) :: st | _ => (t', 1) :: (n, num) :: st end)) as Hchild.
  { intros t' Ht' num. destruct t' eqn:E'; [done|]. apply stackPush_fits; [done|lia|].
    cbn [length]. destruct Ht' as [Ht'|Ht']; rewrite Ht' in *; lia. }
  cbn [destroy_loop]. rewrite Hpop by lia. cbn [mbind option_bind Z.eqb]. unfold n at 1. cbn [Pos.eqb].
  rewrite Hpush by lia. cbn [mbind option_bind]. rewrite (Hchild l) by auto. cbn [mbind option_bind].
  rewrite Hl. cbn [destroy_loop]. rewrite Hpop by lia. cbn [mbind option_bind Z.eqb Pos.eqb].
  unfold n at 1. rewrite Hpush by lia. cbn [mbind option_bind]. rewrite (Hchild r) by auto.
  cbn [mbind option_bind]. rewrite Hr. cbn [destroy_loop]. rewrite Hpop by lia.
  cbn [mbind option_bind Z.eqb Pos.eqb]. unfold n at 1. by rewrite <-!app_assoc.
Qed.

Lemma destroy_ok {K E} `{Keyed K E} (os : OSet K E) :
  os_wf os -> card os < iter_limit -> OSetGen_Destroy os = Some (post_order (root os)).
Proof.
  intros Hwf Hlim. pose proof (small_height os Hwf Hlim) as Hh. pose proof (wf_card _ Hwf) as Hsz.
  unfold OSetGen_Destroy. unfold nodes in Hsz.
  assert (destroy_loop (S (3 * tree_size (root os)))
    (match root os with Null => [] | t => [(t, 1)] end) [] = Some (post_order (root os))) as Hd.
  { destruct (root os) as [|i e b l r] eqn:Hr; [done|].
    replace (S (3 * tree_size (Node i e b l r))) with (3 * tree_size (Node i e b l r) + 1)%nat by lia.
    rewrite destroy_subtree; [done|done|simpl length; lia]. }
  assert ((Z.of_nat (length (post_order (root os))) =? nElems os) = true) as Hlen.
  { apply Z.eqb_eq. change (nElems os) with (OSetGen_Size os). rewrite Size_small by (done || lia).
    by rewrite Hsz, (Permutation_length (post_order_perm (root os))), length_fmap. }
  destruct (root os) as [|i e b l r] eqn:Hr.
  - cbn [mbind option_bind]. rewrite Hd. simpl in *. by rewrite Hlen.
  - rewrite stackPush_fits; [|done|lia|simpl in *; lia]. cbn [mbind option_bind].
    rewrite Hd. cbn [mbind option_bind]. by rewrite Hlen.
Qed.

(** ** The least tree the iterator fails on *)

(** The smallest AVL tree of a height, heavy on the left, with the numbers from
    [lo] on as elements. *)
Fixpoint fib_tree (h lo : nat) : avl Z :=
  match h with
  | O => Null
  | S h' =>
      match h' with
      | O => Node lo (Z.of_nat lo) 0 Null Null
      | S h'' =>
          let l := fib_tree h' lo in
          let m := (lo + tree_size l)%nat in
          Node m (Z.of_nat m) (-1) l (fib_tree h'' (S m))
      end
  end.

Definition numbered (i : nat) : nat * Z := (i, Z.of_nat i).

Lemma fib_tree_ok h : forall lo,
  height (fib_tree h lo) = Z.of_nat h /\ avl_ok (fib_tree h lo) /\
  inorder (fib_tree h lo) = numbered <$> seq lo (tree_size (fib_tree h lo)) /\
  Z.of_nat (tree_size (fib_tree h lo)) = min_nodes h.
Proof.
  induction h as [h IH] using lt_wf_ind. intros lo. destruct h as [|[|h]]; [done|done|].
  set (l := fib_tree (S h) lo). set (m := (lo + tree_size l)%nat).
  change (fib_tree (S (S h)) lo) with (Node m (Z.of_nat m) (-1) l (fib_tree h (S m))).
  destruct (IH (S h) ltac:(lia) lo) as (H1 & H2 & H3 & H4).
  destruct (IH h ltac:(lia) (S m)) as (R1 & R2 & R3 & R4). fold l in H1, H2, H3, H4.
  cbn [height avl_ok inorder tree_size]. rewrite H1, R1, min_nodes_step, <-H4, <-R4.
  split; [lia|]. split; [|split; [|lia]].
  - split; [lia|]. split; [lia|]. done.
  - rewrite H3, R3. change (m, Z.of_nat m) with (numbered m). rewrite <-fmap_cons, <-fmap_app. f_equal.
    replace (S (tree_size l + tree_size (fib_tree h (S m)))) with
      (tree_size l + S (tree_size (fib_tree h (S m))))%nat by lia.
    by rewrite seq_app.
Qed.

Lemma sorted_numbered n : forall lo, sorted (fun a b : Z => fast_cmp a b) (numbered <$> seq lo n).
Proof.
  intros lo ns1 [i x] ns3 Heq. cbn [snd].
  assert (forall k, (numbered <$> seq lo n) !! k = numbered <$> (seq lo n !! k)) as Hlk
    by (intros k; apply list_lookup_fmap).
  assert (i = (lo + length ns1)%nat /\ x = Z.of_nat i) as [Hi Hx].
  { specialize (Hlk (length ns1)). rewrite Heq, list_lookup_middle in Hlk by done.
    destruct (seq lo n !! length ns1) as [j|] eqn:Hj; [|done]. apply lookup_seq in Hj as [-> _].
    unfold numbered in Hlk. simplify_eq/=. done. }
  split; [by apply fast_cmp_eq|]. split; apply Forall_forall; intros y Hy; cbn.
  - apply list_elem_of_lookup in Hy as [k Hk]. pose proof (lookup_lt_Some _ _ _ Hk) as Hlt.
    specialize (Hlk k). rewrite Heq, lookup_app_l, Hk in Hlk by done.
    destruct (seq lo n !! k) as [j|] eqn:Hj; [|done]. apply lookup_seq in Hj as [-> _].
    simplify_eq/=. unfold fast_cmp. simpl. repeat ztest; lia.
  - apply list_elem_of_lookup in Hy as [k Hk].
    specialize (Hlk (length ns1 + S k)%nat). rewrite Heq, lookup_app_r in Hlk by lia.
    replace (length ns1 + S k - length ns1)%nat with (S k) in Hlk by lia. simpl in Hlk. rewrite Hk in Hlk.
    destruct (seq lo n !! _) as [j|] eqn:Hj; [|done]. apply lookup_seq in Hj as [-> _].
    simplify_eq/=. unfold fast_cmp. simpl. repeat ztest; lia.
Qed.

(** The set that holds the tree. *)
Definition fib_set (h : nat) : OSet Z Z :=
  let t := fib_tree h 0 in mkOSet None (uint (Z.of_nat (tree_size t))) t [] (tree_size t).

Lemma fib_set_ok h : word_ok (fib_set h).
Proof.
  destruct (fib_tree_ok h 0) as (H1 & H2 & H3 & H4). split; [|done|apply Forall_forall; done].
  assert ((inorder (fib_tree h 0)).*1 = seq 0 (tree_size (fib_tree h 0))) as Hids.
  { rewrite H3. rewrite <-list_fmap_compose. apply list_fmap_id. }
  split; unfold nodes; simpl.
  - done.
  - rewrite H3. apply sorted_numbered.
  - done.
  - rewrite Hids. apply NoDup_seq.
  - rewrite Hids. apply Forall_forall. intros i Hi. apply elem_of_seq in Hi. lia.
Qed.

(** The nodes on the way to the first element. *)
Fixpoint left_depth {E} (t : avl E) : nat :=
  match t with Null => O | Node _ _ _ l _ => S (left_depth l) end.

Lemma case_1_overflow {E} (t : avl E) : forall st,
  (STACK_MAX < length st + left_depth t)%nat -> (length st <= STACK_MAX)%nat -> next_case_1 t st = None.
Proof.
  induction t as [|i e b l IHl r _]; intros st Hlen Hst; [simpl in Hlen; lia|]. cbn [next_case_1].
  unfold stackPush. destruct (Nat.ltb_spec (length st) STACK_MAX) as [Hlt|Hge]; [|done]. simpl.
  apply IHl; simpl in *; lia.
Qed.

Lemma fib_left_depth h lo : left_depth (fib_tree h lo) = h.
Proof.
  revert lo. induction h as [|h IH]; intros lo; [done|]. destruct h as [|h]; [done|].
  change (S (left_depth (fib_tree (S h) lo)) = S (S h)). by rewrite IH.
Qed.

Lemma iterate_overflow {K E} `{Keyed K E} (os : OSet K E) :
  (STACK_MAX < left_depth (root os))%nat -> iterate os = None.
Proof.
  intros Hd. pose proof (case_1_overflow (root os) [] Hd ltac:(simpl; lia)) as Hover.
  destruct (root os) as [|i e b l r] eqn:Hr; [simpl in Hd; lia|].
  assert (OSetGen_ResetIter os = Some (set_stack [(Node i e b l r, 1)] os)) as Hres
    by (unfold OSetGen_ResetIter; by rewrite Hr).
  assert (OSetGen_Next (set_stack [(Node i e b l r, 1)] os) = None) as Hn.
  { unfold OSetGen_Next. cbn [set_stack stack]. cbn [next_loop].
    change (stackPop [(Node i e b l r, 1)]) with (Some (Some (Node i e b l r, 1, @nil (avl E * Z)))).
    cbn [mbind option_bind Z.eqb Pos.eqb]. by rewrite Hover. }
  unfold iterate. rewrite Hres. cbn [mbind option_bind set_stack root]. rewrite Hr. cbn [next_all].
  by rewrite Hn.
Qed.

(** ** What is promised *)

(** C24: the sets of words behave like finite sets: on every sequence of
    insertions, removals, membership tests and size queries from a new set, the
    AVL tree gives the answers of a mathematical finite set (for the size, which is
    an unsigned 32-bit integer, the number of elements modulo 2^32), fails the assertion
    on duplicates exactly when an element is inserted twice, and ends as a
    well-formed tree with the same elements. *)
Theorem word_set_refines_finite_set ops :
  match run_ops spec_op ops ∅ with
  | None => run_ops run_op ops OSetWord_Create = None
  | Some (l, s) => exists os, run_ops run_op ops OSetWord_Create = Some (l, os) /\ holds os s
  end.
Proof. apply ops_refine, holds_empty. Qed.

(** C25: an iteration over a set of words (VG_(OSetGen_ResetIter), then
    VG_(OSetGen_Next) until it gives NULL) gives every element once, in
    increasing order, if the set has fewer than 9227464 elements. *)
Theorem word_iteration_sorted os s (Hh : holds os s) (Hlim : Z.of_nat (size s) < iter_limit) :
  exists ns, iterate os = Some ns /\ StronglySorted Z.lt ns.*2 /\ ns.*2 ≡ₚ elements s.
Proof.
  pose proof (holds_card os s Hh) as Hsz. pose proof Hh as [Hok Hel].
  exists (nodes os). split; [|split].
  - apply (iterate_ok fast_cmp (fun _ => True)); [done|]. lia.
  - pose proof (ok_sorted _ _ os Hok) as Hs. clear -Hs. induction (nodes os) as [|n ns IH]; [constructor|].
    rewrite fmap_cons. constructor.
    + apply IH. intros ns1 m ns3 ->. destruct (Hs (n :: ns1) m ns3 eq_refl) as (? & Ha & ?).
      apply after_all_cons in Ha as [_ ?]. done.
    + destruct (Hs [] n ns eq_refl) as (_ & _ & Hb). rewrite Forall_fmap. eapply Forall_impl; [exact Hb|].
      intros m. simpl. unfold fast_cmp. simpl. repeat ztest; lia.
  - apply NoDup_Permutation; [by apply word_nodup|apply NoDup_elements|].
    intros w. change (w ∈ elems os <-> w ∈ elements s). by rewrite Hel, elem_of_elements.
Qed.

Lemma word_iteration_sorted_witness :
  exists ns, iterate (fib_set 3) = Some ns /\ StronglySorted Z.lt ns.*2 /\
    ns.*2 ≡ₚ elements (list_to_set [0; 1; 2; 3] : gset Z).
Proof.
  apply (word_iteration_sorted (fib_set 3) (list_to_set [0; 1; 2; 3])).
  - split; [apply fib_set_ok|]. intros w. by rewrite elem_of_list_to_set.
  - vm_compute. reflexivity.
Defined.

(** C26: the limit is exact, and far from what the comment at STACK_MAX says
    (at most 2**32 entries): there is a well-formed set of 9227464 words on
    which the first call of VG_(OSetGen_Next) fails the assertion on the
    iterator's stack. *)
Theorem iterator_overflow :
  exists os, word_ok os /\ OSetGen_Size os = 9227464 /\ 9227464 < 2 ^ 32 /\ iterate os = None.
Proof.
  exists (fib_set (S STACK_MAX)). split; [apply fib_set_ok|].
  destruct (fib_tree_ok (S STACK_MAX) 0) as (_ & _ & _ & Hsz). split; [|split; [done|]].
  - unfold OSetGen_Size, fib_set. cbn [nElems]. rewrite Hsz. vm_compute. reflexivity.
  - apply iterate_overflow. unfold fib_set. cbn [root]. rewrite fib_left_depth. lia.
Qed.

Lemma min_nodes_pow h : 2 ^ Z.of_nat (Nat.div2 h) <= min_nodes h + 1.
Proof.
  induction h as [h IH] using lt_wf_ind. destruct h as [|[|h]]; [done|done|].
  cbn [Nat.div2]. rewrite min_nodes_step. pose proof (IH h ltac:(lia)) as Hh.
  pose proof (min_nodes_nonneg h). rewrite Nat2Z.inj_succ, Z.pow_succ_r by apply Nat2Z.is_nonneg.
  set (p := 2 ^ _) in *. clearbody p. lia.
Qed.

(** However a set of words came about, its tree is balanced: every balance
    field is the difference of the heights of the subtrees and at most 1 in
    absolute value, and the height [h] of a tree of [n] elements satisfies
    2^(h/2) <= n + 1, so that lookups and updates take logarithmic time. *)
Theorem word_set_balanced ops l os (Hrun : run_ops run_op ops OSetWord_Create = Some (l, os)) :
  avl_ok (root os) /\ 2 ^ (height (root os) / 2) <= card os + 1.
Proof.
  pose proof (ops_refine ops OSetWord_Create ∅ holds_empty) as Href.
  destruct (run_ops spec_op ops ∅) as [[l' s]|]; [|congruence].
  destruct Href as (os' & Heq & [Hok _]). rewrite Hrun in Heq. injection Heq as <- <-.
  pose proof (ok_wf _ _ _ Hok) as Hwf. split; [apply (wf_avl _ Hwf)|].
  pose proof (avl_size_height _ (wf_avl _ Hwf)) as Hh. pose proof (wf_card _ Hwf) as Hsz.
  rewrite Hsz. unfold nodes. rewrite length_inorder.
  pose proof (min_nodes_pow (Z.to_nat (height (root os)))) as Hp. pose proof (height_nonneg (root os)).
  rewrite Nat.div2_div, Nat2Z.inj_div, Z2Nat.id in Hp by done. simpl in Hp. lia.
Qed.

Lemma word_set_balanced_witness :
  let r := run_ops run_op [InsertW 3; InsertW 1; InsertW 2; RemoveW 1] OSetWord_Create in
  match r with
  | Some (_, os) => avl_ok (root os) /\ 2 ^ (height (root os) / 2) <= card os + 1
  | None => False
  end.
Proof. exact (word_set_balanced [InsertW 3; InsertW 1; InsertW 2; RemoveW 1] _ _ eq_refl). Defined.

(** Destroying a set frees each of its nodes exactly once, children before
    their parent, and passes the assertion that counts them. *)
Theorem destroy_frees_each_node_once {K E} `{Keyed K E} (os : OSet K E)
    (Hwf : os_wf os) (Hlim : card os < iter_limit) :
  exists ids, OSetGen_Destroy os = Some ids /\ NoDup ids /\ ids ≡ₚ (nodes os).*1.
Proof.
  exists (post_order (root os)). split; [by apply destroy_ok|].
  split; [|apply post_order_perm]. rewrite post_order_perm. apply (wf_nodup _ Hwf).
Qed.

Lemma destroy_frees_each_node_once_witness :
  exists ids, OSetGen_Destroy (fib_set 4) = Some ids /\ NoDup ids /\ ids ≡ₚ (nodes (fib_set 4)).*1.
Proof.
  apply (destroy_frees_each_node_once (fib_set 4)).
  - exact (ok_wf _ _ _ (fib_set_ok 4)).
  - vm_compute. reflexivity.
Defined.
