(* ===== verification/OSetId.v ===== *)
(** Ordered sets of structures that are compared by their first word, an id:
    they are finite maps from ids to structures.  The transactions and the
    threads of pmc_tx.c are kept in such sets. *)
From S2P Require Import Prelude OSet OSetTree OSetSpec.

(** The key of a structure is its first word. *)
Class IdKeyed (E : Type) `{Keyed Z E} : Prop := {
  id_key k : word_of_key k = k;
  id_elem e : word_of_elem e = key_of e;
}.

Section IdSet.
Context {E : Type} `{IdKeyed E}.
Implicit Types (set : OSet Z E) (e : E).

Lemma fast_cmp_sign k e :
  (fast_cmp k e < 0 <-> k < key_of e) /\ (0 < fast_cmp k e <-> key_of e < k) /\
  (fast_cmp k e = 0 <-> k = key_of e).
Proof. unfold fast_cmp. rewrite id_key, id_elem. repeat ztest; lia. Qed.

#[export] Instance id_cmp_laws : CmpLaws (E := E) fast_cmp (fun _ => True) (fun _ => True).
Proof.
  split; try done.
  - intros e _. by apply fast_cmp_sign.
  - intros a b _ _. rewrite (proj1 (fast_cmp_sign _ _)), (proj1 (proj2 (fast_cmp_sign _ _))). done.
  - intros k a b _ _ _. rewrite !(proj1 (fast_cmp_sign _ _)). lia.
  - intros k a b _ _ _ Hab Hk. apply (fast_cmp_sign (key_of a) b) in Hab.
    apply (fast_cmp_sign k a) in Hk. apply Z.lt_le_incl, fast_cmp_sign. lia.
Qed.

Definition id_ok set : Prop := os_ok fast_cmp (fun _ => True) set.

Lemma id_ok_wf set : id_ok set -> os_wf set.
Proof. apply ok_wf. Qed.

Lemma id_ok_empty : id_ok (OSetGen_Create None).
Proof.
  split; [|done|constructor]. split; try done; [|constructor..]. intros [] ? ? ?; done.
Qed.

Lemma id_sorted set : id_ok set -> sorted (fun a b => fast_cmp (key_of a) b) (nodes set).
Proof. intros Hok. exact (ok_sorted _ _ _ Hok). Qed.

(** An id belongs to one node. *)
Lemma id_unique set i e j e' :
  id_ok set -> (i, e) ∈ nodes set -> (j, e') ∈ nodes set -> key_of e = key_of e' -> (i, e) = (j, e').
Proof.
  intros Hok Hi Hj Hk. apply list_elem_of_split in Hi as (ms1 & ms3 & Heq).
  destruct (id_sorted set Hok ms1 (i, e) ms3 Heq) as (_ & Ha & Hb).
  rewrite Heq, elem_of_app, elem_of_cons in Hj. unfold after_all, before_all in *.
  rewrite Forall_forall in *. destruct Hj as [Hj|[Hj|Hj]]; [|done|].
  - specialize (Ha _ Hj). simpl in Ha. rewrite Hk in Ha. apply fast_cmp_sign in Ha. lia.
  - specialize (Hb _ Hj). simpl in Hb. rewrite Hk in Hb. apply fast_cmp_sign in Hb. lia.
Qed.

Lemma id_lookup set k i e :
  id_ok set -> OSetGen_LookupNode set k = Some (i, e) <-> (i, e) ∈ nodes set /\ key_of e = k.
Proof.
  intros Hok. split.
  - intros Hl. destruct (LookupNode_some _ _ _ set k i e Hok I Hl) as [Hin Hc].
    split; [done|]. by apply fast_cmp_sign in Hc.
  - intros [Hin <-]. exact (Lookup_self _ _ set i e Hok Hin).
Qed.

Lemma id_lookup_none set k :
  id_ok set -> OSetGen_LookupNode set k = None <-> k ∉ key_of <$> elems set.
Proof.
  intros Hok. split.
  - intros Hl Hin. apply list_elem_of_fmap in Hin as (e & -> & He).
    pose proof (LookupNode_none _ _ _ set _ Hok I Hl) as Hn. rewrite Forall_forall in Hn.
    apply (Hn e He). by apply fast_cmp_sign.
  - intros Hn. destruct (OSetGen_LookupNode set k) as [[i e]|] eqn:Hl; [|done].
    apply id_lookup in Hl as [Hin <-]; [|done]. exfalso. apply Hn.
    apply list_elem_of_fmap. exists e. split; [done|]. apply list_elem_of_fmap. by exists (i, e).
Qed.

(** The structure behind a pointer. *)
Lemma id_deref set k i e :
  id_ok set -> OSetGen_LookupNode set k = Some (i, e) -> OSetGen_Deref set i = Some e.
Proof.
  intros Hok Hl. apply id_lookup in Hl as [Hin _]; [|done].
  by apply (Deref_node set i e (id_ok_wf set Hok)).
Qed.

(** ** Assignments *)

Lemma upd_key i f n : (forall e, key_of (f e) = key_of e) -> key_of (snd (upd_node i f n)) = key_of (snd n).
Proof. intros Hf. unfold upd_node. simpl. destruct (_ =? _)%nat; [apply Hf|done]. Qed.

Lemma sorted_upd i f ns :
  (forall e, key_of (f e) = key_of e) ->
  sorted (fun a b => fast_cmp (key_of a) b) ns ->
  sorted (fun a b => fast_cmp (key_of a) b) (upd_node i f <$> ns).
Proof.
  intros Hf Hs ns1 n ns3 Heq. apply fmap_app_inv in Heq as (l1 & l2 & -> & Hl2 & ->).
  symmetry in Hl2. apply fmap_cons_inv in Hl2 as (m & l3 & -> & -> & ->).
  destruct (Hs l1 m l3 eq_refl) as (_ & Ha & Hb). split; [by apply fast_cmp_sign|].
  unfold after_all, before_all in *. rewrite !Forall_fmap. split.
  - eapply Forall_impl; [exact Ha|]. intros x Hx. cbn beta in *. apply fast_cmp_sign in Hx.
    apply fast_cmp_sign. by rewrite !upd_key.
  - eapply Forall_impl; [exact Hb|]. intros x Hx. cbn beta in *. apply fast_cmp_sign in Hx.
    apply fast_cmp_sign. by rewrite !upd_key.
Qed.

Lemma id_update set i f :
  id_ok set -> (forall e, key_of (f e) = key_of e) ->
  id_ok (OSetGen_Update set i f) /\ nodes (OSetGen_Update set i f) = upd_node i f <$> nodes set.
Proof.
  intros Hok Hf. assert (nodes (OSetGen_Update set i f) = upd_node i f <$> nodes set) as Hn
    by apply inorder_update.
  split; [|done]. pose proof Hok as [[H1 H2 H3 H4 H5] Hc _].
  assert ((nodes (OSetGen_Update set i f)).*1 = (nodes set).*1) as Hids.
  { rewrite Hn, <-list_fmap_compose. by apply list_fmap_ext. }
  split; [|exact Hc|by apply Forall_forall]. split; rewrite ?Hids; try done.
  - by apply avl_ok_update.
  - rewrite Hn. intros ns1 n ns3 Heq. unfold cmp_key. 
    destruct (sorted_upd i f (nodes set) Hf (id_sorted set Hok) ns1 n ns3 Heq) as (Hr & Ha & Hb).
    assert (forall k e, os_cmp (OSetGen_Update set i f) k e = fast_cmp k e) as Hc' by exact Hc.
    rewrite Hc'. split; [done|]. unfold after_all, before_all in *.
    split; (eapply Forall_impl; [eassumption|]); intros x; simpl; by rewrite Hc'.
  - by rewrite Update_card.
Qed.

(** The structure with id [k] is assigned, the others stay. *)
Lemma id_update_lookup set k i e f k' :
  id_ok set -> (forall e, key_of (f e) = key_of e) -> OSetGen_LookupNode set k = Some (i, e) ->
  OSetGen_LookupNode (OSetGen_Update set i f) k' =
    if decide (k' = k) then Some (i, f e) else OSetGen_LookupNode set k'.
Proof.
  intros Hok Hf Hl. destruct (id_update set i f Hok Hf) as [Hok' Hn].
  pose proof (proj1 (id_lookup set k i e Hok) Hl) as [Hin Hk].
  destruct (decide (k' = k)) as [->|Hne].
  - apply id_lookup; [done|]. rewrite Hf. split; [|done]. rewrite Hn. apply list_elem_of_fmap.
    exists (i, e). split; [|done]. unfold upd_node. simpl. by rewrite Nat.eqb_refl.
  - destruct (OSetGen_LookupNode set k') as [[j e']|] eqn:Hl'.
    + apply id_lookup in Hl' as [Hin' Hk']; [|done]. apply id_lookup; [done|]. split; [|done].
      rewrite Hn. apply list_elem_of_fmap. exists (j, e'). split; [|done]. unfold upd_node. simpl.
      rewrite (proj2 (Nat.eqb_neq _ _)); [done|]. intros ->. apply Hne.
      pose proof (Deref_node set i e (id_ok_wf set Hok) Hin) as D1.
      pose proof (Deref_node set i e' (id_ok_wf set Hok) Hin') as D2. congruence.
    + apply id_lookup_none in Hl'; [|done]. apply id_lookup_none; [done|]. intros Hx. apply Hl'.
      unfold elems in *. rewrite Hn in Hx. rewrite <-!list_fmap_compose in *.
      apply list_elem_of_fmap in Hx as (n & -> & Hx). apply list_elem_of_fmap. exists n. split; [|done].
      simpl. by apply upd_key.
Qed.

(** ** Insertions and removals *)

Lemma id_insert set e :
  id_ok set -> OSetGen_LookupNode set (key_of e) = None ->
  exists set', OSetGen_Insert set e = Some set' /\ id_ok set' /\ card set' = card set + 1 /\
    forall k, (snd <$> OSetGen_LookupNode set' k) =
      if decide (k = key_of e) then Some e else snd <$> OSetGen_LookupNode set k.
Proof.
  intros Hok Hl. pose proof (proj1 (id_lookup_none set _ Hok) Hl) as Hn.
  destruct (Insert_new _ _ _ set e Hok I) as (set' & ms1 & ms3 & Hi & Hok' & H1 & H2 & _ & _ & Hsz & _).
  { apply Forall_forall. intros x Hx Hc. apply fast_cmp_sign in Hc. apply Hn. rewrite Hc.
    apply list_elem_of_fmap. by exists x. }
  exists set'. split; [done|]. split; [done|]. split; [done|]. intros k.
  assert (forall j x, (j, x) ∈ nodes set' <-> (j, x) = (next_id set, e) \/ (j, x) ∈ nodes set) as Hin.
  { intros j x. rewrite H1, H2. apply elem_of_middle. }
  destruct (decide (k = key_of e)) as [->|Hne].
  - assert (OSetGen_LookupNode set' (key_of e) = Some (next_id set, e)) as ->; [|done].
    apply id_lookup; [done|]. split; [|done]. apply Hin. by left.
  - destruct (OSetGen_LookupNode set k) as [[j x]|] eqn:Hx.
    + apply id_lookup in Hx as [Hx Hk]; [|done].
      assert (OSetGen_LookupNode set' k = Some (j, x)) as ->; [|done].
      apply id_lookup; [done|]. split; [|done]. apply Hin. by right.
    + assert (OSetGen_LookupNode set' k = None) as ->; [|done].
      destruct (OSetGen_LookupNode set' k) as [[j x]|] eqn:Hx'; [|done].
      apply id_lookup in Hx' as [Hx' Hk]; [|done]. apply Hin in Hx' as [Hx'|Hx'].
      * simplify_eq.
      * assert (OSetGen_LookupNode set k = Some (j, x)) by (by apply id_lookup). congruence.
Qed.

Lemma id_remove set k i e :
  id_ok set -> OSetGen_LookupNode set k = Some (i, e) ->
  exists set', OSetGen_Remove set k = Some (Some e, set') /\ id_ok set' /\
    card set' = card set - 1 /\
    forall k', OSetGen_LookupNode set' k' =
      if decide (k' = k) then None else OSetGen_LookupNode set k'.
Proof.
  intros Hok Hl. destruct (Remove_found _ _ _ set k i e Hok I Hl)
    as (set' & ms1 & ms3 & Hr & Hok' & H1 & H2 & Hsz & _).
  pose proof (proj1 (id_lookup set k i e Hok) Hl) as [Hin Hk].
  exists set'. split; [done|]. split; [done|]. split; [done|]. intros k'.
  assert (forall j x, (j, x) ∈ nodes set <-> (j, x) = (i, e) \/ (j, x) ∈ nodes set') as Hel.
  { intros j x. rewrite H1, H2. apply elem_of_middle. }
  assert ((i, e) ∉ nodes set') as Hout.
  { intros Hx. pose proof (wf_nodup _ (id_ok_wf set Hok)) as Hnd.
    rewrite H1, fmap_app, fmap_cons in Hnd. rewrite H2 in Hx.
    apply NoDup_app in Hnd as (_ & Hd & [Hni _]%NoDup_cons). simpl in *.
    apply elem_of_app in Hx as [Hx|Hx].
    - apply (Hd i); [apply list_elem_of_fmap; by exists (i, e)|by left].
    - apply Hni. apply list_elem_of_fmap. by exists (i, e). }
  destruct (decide (k' = k)) as [->|Hne].
  - destruct (OSetGen_LookupNode set' k) as [[j x]|] eqn:Hx; [|done].
    apply id_lookup in Hx as [Hx Hkx]; [|done].
    assert ((i, e) = (j, x)) as Hsame by (apply (id_unique set); [done|done|apply Hel; by right|congruence]).
    rewrite <-Hsame in Hx. done.
  - destruct (OSetGen_LookupNode set k') as [[j x]|] eqn:Hx.
    + apply id_lookup in Hx as [Hx Hkx]; [|done]. apply id_lookup; [done|]. split; [|done].
      apply Hel in Hx as [Hx|Hx]; [|done]. simplify_eq.
    + destruct (OSetGen_LookupNode set' k') as [[j x]|] eqn:Hx'; [|done].
      apply id_lookup in Hx' as [Hx' Hkx]; [|done].
      assert (OSetGen_LookupNode set k' = Some (j, x)) by (apply id_lookup; [done|]; split; [apply Hel; by right|done]).
      congruence.
Qed.
End IdSet.
