(* ===== verification/Region.v ===== *)
(** Regions of persistent memory and sets of them: pmc_include.h and
    pmc_common.c.

    A [struct pmem_st] is both a tracked store and a region of a set.  The
    functions that take an [OSet*] and update it return the new set; those that
    use the global [db_pmem_store_index] take and return it.  [None] is an
    assertion failing inside the ordered set. *)
From S2P Require Import Prelude OSet.

(** [enum store_state]. *)
Inductive store_state : Type := STST_CLEAN | STST_DIRTY | STST_FLUSHED.

#[export] Instance store_state_eq_dec : EqDecision store_state.
Proof. solve_decision. Defined.

(** A pointer to an [ExeContext] of the core, [None] for a null pointer. *)
Definition context_ptr : Type := option Z.

(** [struct pmem_st]: a single store to memory, or a region. *)
Record pmem_st : Type := mkSt {
  index : Z;
  is_delete : bool;
  addr : Z;
  size : Z;
  block_num : Z;
  value : Z;
  context : context_ptr;
  state : store_state;
  inEpoch : bool;
}.

#[export] Instance pmem_st_eq_dec : EqDecision pmem_st.
Proof. solve_decision. Defined.

(** A zero-initialised structure ([= {0}], or memory from
    [OSetGen_AllocNode]). *)
Definition pmem_st_zero : pmem_st := mkSt 0 false 0 0 0 0 None STST_CLEAN false.

(** Assignments to the fields. *)
Definition set_index (x : Z) (r : pmem_st) : pmem_st :=
  mkSt x (is_delete r) (addr r) (size r) (block_num r) (value r) (context r) (state r) (inEpoch r).
Definition set_is_delete (x : bool) (r : pmem_st) : pmem_st :=
  mkSt (index r) x (addr r) (size r) (block_num r) (value r) (context r) (state r) (inEpoch r).
Definition set_addr (x : Z) (r : pmem_st) : pmem_st :=
  mkSt (index r) (is_delete r) x (size r) (block_num r) (value r) (context r) (state r) (inEpoch r).
Definition set_size (x : Z) (r : pmem_st) : pmem_st :=
  mkSt (index r) (is_delete r) (addr r) x (block_num r) (value r) (context r) (state r) (inEpoch r).
Definition set_block_num (x : Z) (r : pmem_st) : pmem_st :=
  mkSt (index r) (is_delete r) (addr r) (size r) x (value r) (context r) (state r) (inEpoch r).
Definition set_value (x : Z) (r : pmem_st) : pmem_st :=
  mkSt (index r) (is_delete r) (addr r) (size r) (block_num r) x (context r) (state r) (inEpoch r).
Definition set_context (x : context_ptr) (r : pmem_st) : pmem_st :=
  mkSt (index r) (is_delete r) (addr r) (size r) (block_num r) (value r) x (state r) (inEpoch r).
Definition set_state (x : store_state) (r : pmem_st) : pmem_st :=
  mkSt (index r) (is_delete r) (addr r) (size r) (block_num r) (value r) (context r) x (inEpoch r).
Definition set_inEpoch (x : bool) (r : pmem_st) : pmem_st :=
  mkSt (index r) (is_delete r) (addr r) (size r) (block_num r) (value r) (context r) (state r) x.

(** A region given by its base and its size. *)
Definition region_at (a s : Z) : pmem_st := set_size s (set_addr a pmem_st_zero).

(** The end of a region, as the source computes it. *)
Definition max_addr (r : pmem_st) : Z := wadd (addr r) (size r).

(** Sets of stores are keyed by the whole structure, whose first word is
    [index]. *)
#[export] Instance keyed_pmem_st : Keyed pmem_st pmem_st :=
  {| key_of r := r; word_of_key := index; word_of_elem := index |}.

(** A compare function for regions: before, after, or overlapping. *)
Definition cmp_pmem_st (lhs rhs : pmem_st) : Z :=
  if max_addr lhs <=? addr rhs then -1
  else if max_addr rhs <=? addr lhs then 1
  else 0.

(** Compare stores by their [index] (pmc_main.c). *)
Definition cmp_pmem_own_st (lhs rhs : pmem_st) : Z :=
  if index lhs <? index rhs then -1
  else if index rhs <? index lhs then 1
  else 0.

(** Check if regions overlap: 0 if they do not, 1 if [lhs] is within [rhs], 2
    otherwise. *)
Definition check_overlap (lhs rhs : pmem_st) : Z :=
  if negb (cmp_pmem_st lhs rhs =? 0) then 0
  else if (addr lhs <? addr rhs) || (max_addr rhs <? max_addr lhs) then 2
  else 1.

Abbreviation region_set := (OSet pmem_st pmem_st).

(** Check if the given region is in the set: 0 if not in the set, 1 if fully in
    the set, 2 if it overlaps over an existing mapping. *)
Definition is_in_mapping_set (region : pmem_st) (set : region_set) : Z :=
  if negb (OSetGen_Contains set region) then 0
  else match OSetGen_Lookup set region with
       | Some r => check_overlap region r
       | None => 0
       end.

(** ** Adding a region *)

(** [entry] after it has absorbed [old]. *)
Definition absorb (entry old : pmem_st) : pmem_st :=
  let m := Z.max (max_addr entry) (max_addr old) in
  let entry := set_addr (Z.min (addr entry) (addr old)) entry in
  set_size (wsub m (addr entry)) entry.

(** The search region: one byte more on each side. *)
Definition search_around (r : pmem_st) : pmem_st :=
  set_size (wadd (size r) 2) (set_addr (wsub (addr r) 1) r).

Fixpoint add_region_loop (fuel : nat) (search entry : pmem_st) (set : region_set)
    : option (pmem_st * region_set) :=
  match fuel with
  | O => None
  | S fuel =>
      match OSetGen_Lookup set search with
      | None => Some (entry, set)
      | Some old =>
          let entry := absorb entry old in
          '(_, set) ← OSetGen_Remove set old;
          add_region_loop fuel search entry set
      end
  end.

(** Adds a region to a set: overlapping and neighbouring regions are merged. *)
Definition add_region (region : pmem_st) (set : region_set) : option region_set :=
  let entry := set_state STST_CLEAN region in
  '(entry, set) ←
    add_region_loop (S (tree_size (root set))) (search_around entry) entry set;
  OSetGen_Insert set entry.

(** ** Removing a region *)

(** One region [m] of the set against the region to remove: what becomes of
    it. *)
Inductive cut : Type :=
  | CutAll                       (** the entry goes *)
  | CutMiddle (l r : Z * Z)      (** two parts stay, as (base, size) *)
  | CutHead (p : Z * Z)          (** the part after the region stays *)
  | CutTail (p : Z * Z).         (** the part before the region stays *)

(** The branches shared by [remove_region], [remove_region_mapping] and the
    handling of [SET_CLEAN]. *)
Definition cut_region (m region : pmem_st) : cut :=
  let region_max_addr := max_addr region in
  let mod_entry_max_addr := max_addr m in
  if (addr region <? addr m) && (mod_entry_max_addr <? region_max_addr) then CutAll
  else if (addr m <? addr region) && (region_max_addr <? mod_entry_max_addr) then
    CutMiddle (addr m, wsub (addr region) (addr m))
      (region_max_addr, wsub mod_entry_max_addr region_max_addr)
  else if (addr region <=? addr m) && (region_max_addr <? mod_entry_max_addr) then
    CutHead (region_max_addr, wsub (size m) (wsub region_max_addr (addr m)))
  else if (mod_entry_max_addr <=? region_max_addr) && (addr m <? addr region) then
    CutTail (addr m, wsub (addr region) (addr m))
  else CutAll.

Definition set_range (p : Z * Z) (r : pmem_st) : pmem_st :=
  set_size (snd p) (set_addr (fst p) r).

(** [remove_region] goes through the whole set with the iterator and edits the
    entries in place. *)
Fixpoint remove_region_loop (fuel : nat) (region : pmem_st) (set : region_set)
    (db_pmem_store_index : Z) : option (region_set * Z) :=
  match fuel with
  | O => None
  | S fuel =>
      '(next, set) ← OSetGen_Next set;
      match next with
      | None => Some (set, db_pmem_store_index)
      | Some (i, m) =>
          if negb (cmp_pmem_st m region =? 0) then
            remove_region_loop fuel region set db_pmem_store_index
          else match cut_region m region with
          | CutAll =>
              '(_, set) ← OSetGen_Remove set m;
              set ← OSetGen_ResetIterAt set m;
              remove_region_loop fuel region set db_pmem_store_index
          | CutMiddle l r =>
              let set := OSetGen_Update set i (set_range l) in
              let tmp := set_range l m in
              let new_region :=
                set_index db_pmem_store_index (region_at (fst r) (snd r)) in
              let db_pmem_store_index := db_pmem_store_index + 1 in
              set ← OSetGen_Insert set new_region;
              set ← OSetGen_ResetIterAt set tmp;
              remove_region_loop fuel region set db_pmem_store_index
          | CutHead p | CutTail p =>
              let set := OSetGen_Update set i (set_range p) in
              remove_region_loop fuel region set db_pmem_store_index
          end
      end
  end.

(** Removes a region from a set: partial overlaps remove only the overlapping
    parts.  Every entry is visited at most once more after a split, and so is
    the part the split adds. *)
Definition remove_region (region : pmem_st) (set : region_set)
    (db_pmem_store_index : Z) : option (region_set * Z) :=
  set ← OSetGen_ResetIter set;
  remove_region_loop (S (3 * tree_size (root set))) region set db_pmem_store_index.

(** [remove_region_mapping] takes the overlapping entries out one after the
    other and puts back what remains of them. *)
Fixpoint remove_region_mapping_loop (fuel : nat) (region : pmem_st) (set : region_set)
    : option region_set :=
  match fuel with
  | O => None
  | S fuel =>
      '(removed, set) ← OSetGen_Remove set region;
      match removed with
      | None => Some set
      | Some m =>
          match cut_region m region with
          | CutAll => remove_region_mapping_loop fuel region set
          | CutMiddle l r =>
              set ← OSetGen_Insert set (set_range l m);
              set ← OSetGen_Insert set (region_at (fst r) (snd r));
              remove_region_mapping_loop fuel region set
          | CutHead p | CutTail p =>
              set ← OSetGen_Insert set (set_range p m);
              remove_region_mapping_loop fuel region set
          end
      end
  end.

Definition remove_region_mapping (region : pmem_st) (set : region_set)
    : option region_set :=
  remove_region_mapping_loop (S (tree_size (root set))) region set.

(** ** Warnings *)

(** Append an event to a register of at most [limit] events; [None] when the
    register is full, where the source prints and exits. *)
Definition add_warning_event {A : Type} (event_register : list A) (event : A)
    (limit : Z) : option (list A) :=
  if Z.of_nat (length event_register) =? limit then None
  else Some (event_register ++ [event]).
