(* ===== verification/RegionSpec.v ===== *)
(** Region sets as sets of bytes: what adding and removing a region does to the
    bytes a set covers, and the invariant that keeps the regions of a set
    disjoint, non-empty and apart from each other. *)
From S2P Require Import Prelude OSet OSetTree OSetSpec Region.

Implicit Types (set : region_set) (r m x : pmem_st).

(** The bytes of a region, and of a set of regions. *)
Definition covers (r : pmem_st) (b : Z) : Prop := addr r <= b < addr r + size r.

Definition set_covers (set : region_set) (b : Z) : Prop :=
  exists r, r ∈ elems set /\ covers r b.

(** A non-empty region that does not reach the end of the address space. *)
Definition region_ok (r : pmem_st) : Prop :=
  0 <= addr r /\ 0 < size r /\ addr r + size r < word_size.

(** Two regions that neither overlap nor touch. *)
Definition apart (r s : pmem_st) : Prop :=
  addr r + size r < addr s \/ addr s + size s < addr r.

Definition all_apart (l : list pmem_st) : Prop :=
  forall r s, r ∈ l -> s ∈ l -> r <> s -> apart r s.

(** The invariant of the sets of registered, logged and excluded regions. *)
Record region_set_ok (set : region_set) : Prop := {
  rs_ok : os_ok cmp_pmem_st region_ok set;
  rs_apart : all_apart (elems set);
}.

(** Two regions whose union is an interval. *)
Definition touch (r s : pmem_st) : Prop :=
  addr r <= addr s + size s /\ addr s <= addr r + size r.

Lemma max_addr_ok r : region_ok r -> max_addr r = addr r + size r.
Proof. intros (? & ? & ?). unfold max_addr. word_solve. Qed.

Lemma cmp_pmem_st_spec r s :
  region_ok r -> region_ok s ->
  (cmp_pmem_st r s < 0 <-> addr r + size r <= addr s) /\
  (0 < cmp_pmem_st r s <-> addr s + size s <= addr r) /\
  (cmp_pmem_st r s = 0 <-> addr r < addr s + size s /\ addr s < addr r + size r).
Proof.
  intros Hr Hs. unfold cmp_pmem_st. rewrite !max_addr_ok by done.
  destruct Hr as (? & ? & ?), Hs as (? & ? & ?). repeat ztest; lia.
Qed.

#[export] Instance cmp_pmem_st_laws : CmpLaws cmp_pmem_st region_ok region_ok.
Proof.
  split; simpl.
  - done.
  - intros e He. apply (cmp_pmem_st_spec e e); [done..|]. destruct He. lia.
  - intros a b Ha Hb. pose proof (cmp_pmem_st_spec a b Ha Hb).
    pose proof (cmp_pmem_st_spec b a Hb Ha). lia.
  - intros k a b Hk Ha Hb. pose proof (cmp_pmem_st_spec a b Ha Hb).
    pose proof (cmp_pmem_st_spec k a Hk Ha). pose proof (cmp_pmem_st_spec k b Hk Hb).
    destruct Ha as (? & ? & ?). lia.
  - intros k a b Hk Ha Hb. pose proof (cmp_pmem_st_spec a b Ha Hb).
    pose proof (cmp_pmem_st_spec k a Hk Ha). pose proof (cmp_pmem_st_spec k b Hk Hb).
    destruct Hb as (? & ? & ?). lia.
Qed.

#[export] Instance cmp_pmem_own_st_laws :
  CmpLaws cmp_pmem_own_st (fun _ => True) (fun _ => True).
Proof.
  split; simpl; try done; unfold cmp_pmem_own_st; intros *; repeat ztest; lia.
Qed.

Lemma cmp_self r : region_ok r -> cmp_pmem_st r r = 0.
Proof. intros Hr. apply (cmp_pmem_st_spec r r Hr Hr). destruct Hr. lia. Qed.

Lemma apart_sym r s : apart r s -> apart s r.
Proof. unfold apart. lia. Qed.

Lemma set_covers_nodes set b :
  set_covers set b <-> exists n, n ∈ nodes set /\ covers (snd n) b.
Proof.
  unfold set_covers, elems. setoid_rewrite list_elem_of_fmap. split.
  - intros (r & (n & -> & Hn) & Hb). eauto.
  - intros (n & Hn & Hb). eauto 6.
Qed.

(** ** Adding a region *)

(** Arithmetic on regions that stay inside the address space. *)
Ltac region_solve :=
  unfold region_ok, covers, apart, touch, max_addr in *; simpl in *;
  destruct_and?; word_solve.

Lemma absorb_ok entry old :
  region_ok entry -> region_ok old -> touch entry old ->
  region_ok (absorb entry old) /\
  (forall b, covers (absorb entry old) b <-> covers entry b \/ covers old b) /\
  (forall x, region_ok x -> apart entry x -> apart old x -> apart (absorb entry old) x).
Proof.
  intros He Ho Ht. unfold absorb. rewrite !max_addr_ok by done.
  destruct He as (? & ? & ?), Ho as (? & ? & ?), Ht as (? & ?).
  unfold region_ok, covers, apart. simpl. word_solve.
  split; [lia|]. split; intros; lia.
Qed.

Lemma region_of_set set r : region_set_ok set -> r ∈ elems set -> region_ok r.
Proof.
  intros [[_ _ Hok] _] Hr. rewrite Forall_forall in Hok. by apply Hok.
Qed.

(** Taking out the region a key matches. *)
Lemma remove_key set k i e :
  region_set_ok set -> region_ok k -> OSetGen_LookupNode set k = Some (i, e) ->
  exists set' rs1 rs2, OSetGen_Remove set k = Some (Some e, set') /\
    region_set_ok set' /\ elems set = rs1 ++ e :: rs2 /\ elems set' = rs1 ++ rs2 /\
    card set' = card set - 1 /\ Forall (fun x => x <> e) (elems set').
Proof.
  intros [Hok Hap] Hk Hl.
  destruct (Remove_found cmp_pmem_st region_ok region_ok set k i e Hok Hk Hl)
    as (set' & ms1 & ms3 & Hr & Hok' & Hn & Hn' & Hsz & _).
  exists set', ms1.*2, ms3.*2. split; [done|].
  assert (elems set = ms1.*2 ++ e :: ms3.*2) as Hel by (unfold elems; by rewrite Hn, fmap_app).
  assert (elems set' = ms1.*2 ++ ms3.*2) as Hel' by (unfold elems; by rewrite Hn', fmap_app).
  split; [|split; [done|split; [done|split; [done|]]]].
  - split; [done|]. rewrite Hel'. intros x y Hx Hy.
    apply Hap; rewrite Hel, elem_of_middle; by right.
  - destruct (ok_sorted cmp_pmem_st region_ok set Hok ms1 (i, e) ms3 Hn) as (Hc & Ha & Hb).
    rewrite Hel'. rewrite Forall_app, !Forall_fmap. split;
      (eapply Forall_impl; [done|]); intros [j x] Hx Heq; simpl in *; subst; lia.
Qed.

(** Taking a region of the set out of it. *)
Lemma remove_elem set r :
  region_set_ok set -> r ∈ elems set ->
  exists set' rs1 rs2, OSetGen_Remove set r = Some (Some r, set') /\
    region_set_ok set' /\ elems set = rs1 ++ r :: rs2 /\ elems set' = rs1 ++ rs2 /\
    card set' = card set - 1 /\ Forall (fun x => x <> r) (elems set').
Proof.
  intros Hset Hr. pose proof (region_of_set set r Hset Hr) as Hrok.
  unfold elems in Hr. apply list_elem_of_fmap in Hr as ([i e] & -> & Hin).
  apply (remove_key set e i e); [done..|].
  exact (Lookup_self cmp_pmem_st region_ok set i e (rs_ok _ Hset) Hin).
Qed.

(** Putting a region in that is apart from all others. *)
Lemma insert_node set r :
  region_set_ok set -> region_ok r -> Forall (fun x => apart r x) (elems set) ->
  exists set' ms1 ms3, OSetGen_Insert set r = Some set' /\ region_set_ok set' /\
    nodes set = ms1 ++ ms3 /\ nodes set' = ms1 ++ (next_id set, r) :: ms3 /\
    after_all (cmp_pmem_st r) ms1 /\ before_all (cmp_pmem_st r) ms3 /\
    card set' = card set + 1.
Proof.
  intros Hset Hr Hap. pose proof Hset as [Hok Hall].
  destruct (Insert_new cmp_pmem_st region_ok region_ok set r) as
    (set' & ms1 & ms3 & Hi & Hok' & Hn & Hn' & Ha & Hb & Hsz & _); [done..| |].
  { rewrite Forall_forall in *. intros x Hx. specialize (Hap x Hx).
    pose proof (region_of_set set x Hset Hx) as Hxr.
    pose proof (cmp_pmem_st_spec r x Hr Hxr). simpl. unfold apart in Hap.
    destruct Hr as (? & ? & ?), Hxr as (? & ? & ?). lia. }
  exists set', ms1, ms3. split; [done|]. split; [|done]. split; [done|].
  rewrite Forall_forall in Hap. intros x y Hx Hy Hne.
  assert (forall z, z ∈ elems set' -> z = r \/ z ∈ elems set) as Hcase.
  { intros z. unfold elems. rewrite Hn, Hn', !fmap_app, fmap_cons. by rewrite elem_of_middle. }
  destruct (Hcase x Hx) as [->|Hxs], (Hcase y Hy) as [->|Hys]; [done| | |by apply Hall].
  - by apply Hap.
  - by apply apart_sym, Hap.
Qed.

Lemma insert_elem set r :
  region_set_ok set -> region_ok r -> Forall (fun x => apart r x) (elems set) ->
  exists set' rs1 rs2, OSetGen_Insert set r = Some set' /\ region_set_ok set' /\
    elems set = rs1 ++ rs2 /\ elems set' = rs1 ++ r :: rs2 /\
    card set' = card set + 1.
Proof.
  intros Hset Hr Hap.
  destruct (insert_node set r Hset Hr Hap) as (set' & ms1 & ms3 & Hi & Hok' & Hn & Hn' & _ & _ & Hsz).
  exists set', ms1.*2, ms3.*2. unfold elems. rewrite Hn, Hn', !fmap_app. done.
Qed.

(** The loop of [add_region]: everything the search region meets is absorbed,
    and what is left is apart from the result. *)
Lemma add_region_loop_ok fuel region search entry set :
  region_set_ok set -> card set < Z.of_nat fuel ->
  region_ok region -> region_ok entry -> region_ok search ->
  addr search = addr region - 1 -> size search = size region + 2 ->
  addr entry <= addr region -> addr region + size region <= addr entry + size entry ->
  Forall (fun x => touch region x \/ apart entry x) (elems set) ->
  exists entry' set', add_region_loop fuel search entry set = Some (entry', set') /\
    region_set_ok set' /\ region_ok entry' /\
    Forall (fun x => apart entry' x) (elems set') /\ card set' <= card set /\
    (forall b, covers entry' b \/ set_covers set' b <-> covers entry b \/ set_covers set b).
Proof.
  revert entry set. induction fuel as [|fuel IH];
    intros entry set Hset Hfuel Hr He Hs Hsa Hss Hea Hem Hall.
  { pose proof (wf_card _ (ok_wf _ _ _ (rs_ok _ Hset))). lia. }
  cbn [add_region_loop]. destruct (OSetGen_Lookup set search) as [old|] eqn:El.
  - destruct (Lookup_some cmp_pmem_st region_ok region_ok set search old (rs_ok _ Hset) Hs El)
      as [Hin Hc].
    pose proof (region_of_set set old Hset Hin) as Ho.
    apply (cmp_pmem_st_spec search old Hs Ho) in Hc.
    destruct (absorb_ok entry old He Ho) as (He' & Hcov & Hap).
    { unfold touch. lia. }
    destruct (remove_elem set old Hset Hin)
      as (set' & rs1 & rs2 & -> & Hset' & Hel & Hel' & Hsz & Hne). cbn [mbind option_bind].
    destruct (IH (absorb entry old) set') as (entry' & set'' & -> & ? & ? & ? & ? & Hb); try done.
    + lia.
    + simpl. lia.
    + destruct Ho as (? & ? & ?), He as (? & ? & ?). unfold absorb. simpl.
      rewrite !max_addr_ok by done. simpl. word_solve.
    + rewrite Forall_forall in *. intros x Hx.
      assert (x ∈ elems set) as Hxs by (rewrite Hel, elem_of_middle, <-Hel'; by right).
      destruct (Hall x Hxs) as [?|Hxe]; [by left|]. right. apply Hap; [|done|].
      * by apply (region_of_set set).
      * apply (rs_apart _ Hset); [done|done|]. intros Heq. by apply (Hne x Hx).
    + exists entry', set''. split; [done|]. split; [done|]. split; [done|]. split; [done|].
      split; [lia|]. intros b. rewrite (Hb b), (Hcov b). unfold set_covers. rewrite Hel, Hel'.
      setoid_rewrite elem_of_middle. naive_solver.
  - exists entry, set. split; [done|]. split; [done|]. split; [done|]. split; [|done].
    pose proof (Lookup_none cmp_pmem_st region_ok region_ok set search (rs_ok _ Hset) Hs El) as Hn.
    rewrite Forall_forall in *. intros x Hx. destruct (Hall x Hx) as [Ht|?]; [|done].
    pose proof (region_of_set set x Hset Hx) as Hxr. specialize (Hn x Hx).
    pose proof (cmp_pmem_st_spec search x Hs Hxr).
    destruct Hxr as (? & ? & ?), Hr as (? & ? & ?), Ht. lia.
Qed.

Lemma fuel_size set : region_set_ok set -> card set = Z.of_nat (tree_size (root set)).
Proof.
  intros Hset. rewrite (wf_card _ (ok_wf _ _ _ (rs_ok _ Hset))). unfold nodes.
  by rewrite length_inorder.
Qed.

Lemma add_region_correct set r :
  region_set_ok set -> region_ok r -> 1 <= addr r -> addr r + size r + 1 < word_size ->
  exists set', add_region r set = Some set' /\ region_set_ok set' /\ card set' <= card set + 1 /\
    forall b, set_covers set' b <-> set_covers set b \/ covers r b.
Proof.
  intros Hset Hr H1 H2. unfold add_region.
  destruct (add_region_loop_ok (S (tree_size (root set))) r
    (search_around (set_state STST_CLEAN r)) (set_state STST_CLEAN r) set)
    as (e & set' & -> & Hset' & He & Hap & Hsz & Hcov); try done.
  - rewrite fuel_size by done. lia.
  - region_solve.
  - region_solve.
  - region_solve.
  - rewrite Forall_forall. intros x Hx. pose proof (region_of_set set x Hset Hx).
    unfold touch, apart. simpl. lia.
  - cbn [mbind option_bind].
    destruct (insert_elem set' e Hset' He Hap) as (set'' & rs1 & rs2 & -> & Hset'' & Hel & Hel' & Hsz').
    exists set''. split; [done|]. split; [done|]. split; [lia|]. intros b.
    change (covers r b) with (covers (set_state STST_CLEAN r) b).
    specialize (Hcov b). unfold set_covers in *. rewrite Hel in Hcov. rewrite Hel'.
    setoid_rewrite elem_of_middle. naive_solver.
Qed.

(** ** Removing a region *)

(** A region that is a part of another. *)
Definition within (x m : pmem_st) : Prop :=
  addr m <= addr x /\ 0 < size x /\ addr x + size x <= addr m + size m.

Lemma within_ok x m : region_ok m -> within x m -> region_ok x.
Proof. unfold region_ok, within. lia. Qed.

Lemma within_apart x m y : within x m -> apart m y -> apart x y.
Proof. unfold within, apart. lia. Qed.

(** A part of a region compares with what is apart from it as the region
    does. *)
Lemma within_cmp x m y :
  region_ok m -> region_ok y -> within x m ->
  (cmp_pmem_st m y < 0 -> cmp_pmem_st x y < 0 /\ 0 < cmp_pmem_st y x) /\
  (0 < cmp_pmem_st m y -> 0 < cmp_pmem_st x y /\ cmp_pmem_st y x < 0).
Proof.
  intros Hm Hy Hx. pose proof (within_ok x m Hm Hx) as Hxr.
  pose proof (cmp_pmem_st_spec m y Hm Hy). pose proof (cmp_pmem_st_spec x y Hxr Hy).
  pose proof (cmp_pmem_st_spec y x Hy Hxr). unfold within in Hx. lia.
Qed.

Lemma all_apart_cons x l :
  Forall (fun y => apart x y) l -> all_apart l -> all_apart (x :: l).
Proof.
  intros Hx Hl y z Hy Hz Hne. rewrite Forall_forall in Hx.
  apply elem_of_cons in Hy as [->|Hy], Hz as [->|Hz]; [done| | |by apply Hl].
  - by apply Hx.
  - by apply apart_sym, Hx.
Qed.

Lemma all_apart_perm l1 l2 : l1 ≡ₚ l2 -> all_apart l1 -> all_apart l2.
Proof. intros Hp Hl x y. rewrite <-!Hp. apply Hl. Qed.

Lemma all_apart_tail x l : all_apart (x :: l) -> all_apart l.
Proof. intros Hl y z Hy Hz. apply Hl; by right. Qed.

(** Two regions that do not overlap. *)
Definition outside (x r : pmem_st) : Prop :=
  addr x + size x <= addr r \/ addr r + size r <= addr x.

Lemma cmp_overlap x r :
  region_ok x -> region_ok r -> cmp_pmem_st x r = 0 <-> ~ outside x r.
Proof. intros Hx Hr. pose proof (cmp_pmem_st_spec x r Hx Hr). unfold outside. lia. Qed.

Lemma cmp_sym r x : region_ok r -> region_ok x -> cmp_pmem_st r x = 0 <-> cmp_pmem_st x r = 0.
Proof. intros Hr Hx. rewrite !cmp_overlap by done. unfold outside. lia. Qed.

Lemma outside_covers x r b : outside x r -> covers x b -> ~ covers r b.
Proof. unfold outside, covers. lia. Qed.

(** The bytes a list of regions covers. *)
Definition list_covers (l : list pmem_st) (b : Z) : Prop :=
  exists r, r ∈ l /\ covers r b.

Lemma list_covers_cons x l b : list_covers (x :: l) b <-> covers x b \/ list_covers l b.
Proof. unfold list_covers. setoid_rewrite elem_of_cons. naive_solver. Qed.

Lemma list_covers_app l1 l2 b : list_covers (l1 ++ l2) b <-> list_covers l1 b \/ list_covers l2 b.
Proof. unfold list_covers. setoid_rewrite elem_of_app. naive_solver. Qed.

Lemma list_covers_perm l1 l2 b : l1 ≡ₚ l2 -> list_covers l1 b <-> list_covers l2 b.
Proof. intros Hp. unfold list_covers. by setoid_rewrite Hp. Qed.

Lemma list_covers_nil b : list_covers [] b <-> False.
Proof. unfold list_covers. set_solver. Qed.

(** The parts of an entry that stay. *)
Definition cut_regions (m r : pmem_st) : list pmem_st :=
  match cut_region m r with
  | CutAll => []
  | CutMiddle l q => [set_range l m; region_at (fst q) (snd q)]
  | CutHead p | CutTail p => [set_range p m]
  end.

(** They are parts of the entry outside the removed region, apart from each
    other, and cover all the entry has outside it. *)
Lemma cut_regions_ok m r :
  region_ok m -> region_ok r -> cmp_pmem_st m r = 0 ->
  Forall (fun x => within x m /\ outside x r) (cut_regions m r) /\
  (forall x y, cut_regions m r = [x; y] -> apart x y /\ addr x < addr y /\ within r m) /\
  (forall b, list_covers (cut_regions m r) b <-> covers m b /\ ~ covers r b).
Proof.
  intros Hm Hr Hc. apply (cmp_pmem_st_spec m r Hm Hr) in Hc.
  unfold cut_regions, cut_region. rewrite !max_addr_ok by done.
  destruct Hm as (? & ? & ?), Hr as (? & ? & ?).
  unfold covers, within, outside, apart.
  repeat (ztest; simpl; try lia); word_solve;
    (split; [repeat constructor; simpl; lia|]); (split; [intros; simplify_eq; simpl; lia|]); intros b;
    rewrite ?list_covers_cons, ?list_covers_nil; unfold covers; simpl; lia.
Qed.

(** The number of elements a region overlaps. *)
Definition overlaps (r : pmem_st) (l : list pmem_st) : nat :=
  length (filter (fun x => cmp_pmem_st x r = 0) l).

Lemma overlaps_app r l1 l2 : overlaps r (l1 ++ l2) = (overlaps r l1 + overlaps r l2)%nat.
Proof. unfold overlaps. by rewrite filter_app, length_app. Qed.

Lemma overlaps_perm r l1 l2 : l1 ≡ₚ l2 -> overlaps r l1 = overlaps r l2.
Proof. intros Hp. unfold overlaps. by rewrite Hp. Qed.

Lemma overlaps_yes r x l : cmp_pmem_st x r = 0 -> overlaps r (x :: l) = S (overlaps r l).
Proof. intros Hc. unfold overlaps. by rewrite filter_cons_True. Qed.

Lemma overlaps_no r l :
  region_ok r -> Forall region_ok l -> Forall (fun x => outside x r) l -> overlaps r l = 0%nat.
Proof.
  intros Hr Hl Ho. unfold overlaps. induction l as [|x l IH]; [done|].
  apply Forall_cons in Hl as [? ?], Ho as [? ?]. rewrite filter_cons_False; [by apply IH|].
  rewrite cmp_overlap by done. tauto.
Qed.

Lemma overlaps_le r l : (overlaps r l <= length l)%nat.
Proof. apply length_filter. Qed.

(** Putting back a part of an entry that was taken out. *)
Lemma insert_piece set m x :
  region_set_ok set -> region_ok m -> Forall (fun y => apart m y) (elems set) -> within x m ->
  exists set', OSetGen_Insert set x = Some set' /\ region_set_ok set' /\
    elems set' ≡ₚ x :: elems set.
Proof.
  intros Hset Hm Hap Hx.
  destruct (insert_elem set x) as (set' & rs1 & rs2 & Hi & Hset' & Hel & Hel' & _);
    [done|by apply (within_ok x m)| |].
  { eapply Forall_impl; [done|]. intros y. by apply within_apart. }
  exists set'. split; [done|]. split; [done|]. rewrite Hel, Hel'. by rewrite Permutation_middle.
Qed.

(** ** [remove_region_mapping] *)

(** Taking out the entry a region overlaps: it was apart from all others. *)
Lemma take_out set r i m :
  region_set_ok set -> region_ok r -> OSetGen_LookupNode set r = Some (i, m) ->
  exists set', OSetGen_Remove set r = Some (Some m, set') /\ region_set_ok set' /\
    elems set ≡ₚ m :: elems set' /\ region_ok m /\ cmp_pmem_st m r = 0 /\
    Forall (fun x => apart m x) (elems set').
Proof.
  intros Hset Hr Hl.
  destruct (LookupNode_some cmp_pmem_st region_ok region_ok set r i m (rs_ok _ Hset) Hr Hl)
    as [_ Hc].
  destruct (remove_key set r i m Hset Hr Hl)
    as (set1 & rs1 & rs2 & Hrem & Hset1 & Hel & Hel1 & _ & Hne).
  assert (m ∈ elems set) as Hin by (rewrite Hel; set_solver).
  pose proof (region_of_set set m Hset Hin) as Hm.
  exists set1. rewrite Hel, Hel1, Permutation_middle, <-cmp_sym by done.
  repeat (split; [done|]). rewrite <-Hel1, Forall_forall in *. intros x Hx.
  apply (rs_apart _ Hset); [done| |intros ->; by apply (Hne x Hx)].
  rewrite Hel, elem_of_middle, <-Hel1. by right.
Qed.

(** One round: the parts that stay are put back. *)
Lemma remove_region_mapping_step fuel r set i m :
  region_set_ok set -> region_ok r -> OSetGen_LookupNode set r = Some (i, m) ->
  exists set1 set2 : region_set, remove_region_mapping_loop (S fuel) r set =
      remove_region_mapping_loop fuel r set2 /\ region_set_ok set2 /\
    region_ok m /\ cmp_pmem_st m r = 0 /\
    elems set ≡ₚ m :: elems set1 /\ elems set2 ≡ₚ cut_regions m r ++ elems set1 /\
    Forall (fun x => apart m x) (elems set1).
Proof.
  intros Hset Hr Hl.
  destruct (take_out set r i m Hset Hr Hl) as (set1 & Hrem & Hset1 & Hel & Hm & Hc & Hap).
  exists set1. destruct (cut_regions_ok m r Hm Hr Hc) as (Hin & Htwo & _).
  cbn [remove_region_mapping_loop]. rewrite Hrem. cbn [mbind option_bind].
  unfold cut_regions in *. destruct (cut_region m r) as [|l q|p|p].
  - by exists set1.
  - apply Forall_cons in Hin as [[Hl1 _] [[Hq1 _] _]%Forall_cons].
    destruct (Htwo _ _ eq_refl) as [Hlq _].
    destruct (insert_piece set1 m (set_range l m)) as (set2 & -> & Hset2 & Hel2); [done..|].
    destruct (insert_elem set2 (region_at (fst q) (snd q)))
      as (set3 & rs1 & rs2 & Hi & Hset3 & Hel3 & Hel3' & _); [done|by apply (within_ok _ m)| |].
    { rewrite Hel2, Forall_cons. split; [by apply apart_sym|].
      eapply Forall_impl; [done|]. intros y. by apply within_apart. }
    exists set3. cbn. rewrite Hi. repeat (split; [done|]). split; [|done].
    rewrite Hel3', <-Permutation_middle, <-Hel3, Hel2. apply Permutation_swap.
  - apply Forall_cons in Hin as [[Hp _] _].
    destruct (insert_piece set1 m (set_range p m)) as (set2 & -> & Hset2 & Hel2); [done..|].
    by exists set2.
  - apply Forall_cons in Hin as [[Hp _] _].
    destruct (insert_piece set1 m (set_range p m)) as (set2 & -> & Hset2 & Hel2); [done..|].
    by exists set2.
Qed.

(** What is apart from an entry is outside the regions within it. *)
Lemma apart_outside r m l :
  within r m -> Forall (fun x => apart m x) l -> Forall (fun x => outside x r) l.
Proof.
  intros Hw Hl. eapply Forall_impl; [exact Hl|]. intros x.
  unfold within, apart, outside in *. lia.
Qed.

Lemma elems_size set : region_set_ok set -> card set = Z.of_nat (length (elems set)).
Proof.
  intros Hset. rewrite (wf_card _ (ok_wf _ _ _ (rs_ok _ Hset))). unfold elems. by rewrite length_fmap.
Qed.

(** A cut leaves at most one region more than before, and then nothing else
    overlaps. *)
Lemma cut_regions_size m r :
  region_ok m -> region_ok r -> cmp_pmem_st m r = 0 ->
  (length (cut_regions m r) <= 1)%nat \/ length (cut_regions m r) = 2%nat /\ within r m.
Proof.
  intros Hm Hr Hc. destruct (cut_regions_ok m r Hm Hr Hc) as (_ & Htwo & _).
  unfold cut_regions in *. destruct (cut_region m r); simpl; [by left; lia| |by left; lia..].
  right. split; [done|]. by destruct (Htwo _ _ eq_refl) as (_ & _ & ?).
Qed.

Lemma remove_region_mapping_loop_ok fuel r set :
  region_set_ok set -> region_ok r -> (overlaps r (elems set) < fuel)%nat ->
  exists set', remove_region_mapping_loop fuel r set = Some set' /\ region_set_ok set' /\
    card set' <= card set + (if decide (overlaps r (elems set) = 0%nat) then 0 else 1) /\
    forall b, set_covers set' b <-> set_covers set b /\ ~ covers r b.
Proof.
  revert set. induction fuel as [|fuel IH]; intros set Hset Hr Hf; [lia|].
  destruct (OSetGen_LookupNode set r) as [[i m]|] eqn:El.
  - destruct (remove_region_mapping_step fuel r set i m Hset Hr El)
      as (set1 & set2 & -> & Hset2 & Hm & Hc & Hel & Hel2 & Hap).
    destruct (cut_regions_ok m r Hm Hr Hc) as (Hin & _ & Hcov).
    assert (overlaps r (elems set2) = overlaps r (elems set1)) as Hov.
    { rewrite (overlaps_perm r _ _ Hel2), overlaps_app, overlaps_no; [done|done| |];
        (eapply Forall_impl; [exact Hin|]); intros x [? ?]; [by apply (within_ok x m)|done]. }
    assert (overlaps r (elems set) = S (overlaps r (elems set1))) as Hov1
      by (rewrite (overlaps_perm r _ _ Hel); by apply overlaps_yes).
    destruct (IH set2 Hset2 Hr) as (set' & Heq & Hset' & Hsz & Hcs); [lia|].
    exists set'. split; [done|]. split; [done|]. split.
    { rewrite (elems_size set), (elems_size set2) in * by done. rewrite Hov1. rewrite Hov in Hsz.
      pose proof Hel as Hel0. apply Permutation_length in Hel, Hel2. rewrite length_app in Hel2. simpl in Hel.
      rewrite (decide_False (P := S _ = 0%nat)) by lia.
      destruct (cut_regions_size m r Hm Hr Hc) as [Hle|[Htwo Hw]].
      - destruct (decide _); lia.
      - rewrite decide_True in Hsz; [lia|]. apply overlaps_no; [done| |by apply (apart_outside r m)].
        apply Forall_forall. intros x Hx. apply (region_of_set set); [done|].
        rewrite Hel0. by right. }
    intros b. rewrite (Hcs b).
    change (set_covers ?s b) with (list_covers (elems s) b).
    rewrite (list_covers_perm _ _ b Hel), (list_covers_perm _ _ b Hel2).
    rewrite list_covers_app, list_covers_cons, (Hcov b). tauto.
  - cbn [remove_region_mapping_loop]. rewrite Remove_none by done. cbn.
    exists set. split; [done|]. split; [done|]. split; [destruct (decide _); lia|]. intros b.
    pose proof (LookupNode_none cmp_pmem_st region_ok region_ok set r (rs_ok _ Hset) Hr El) as Hn.
    rewrite Forall_forall in Hn. split; [|tauto]. intros (x & Hx & Hb). split; [by exists x|].
    specialize (Hn x Hx). pose proof (region_of_set set x Hset Hx) as Hxr.
    rewrite cmp_overlap in Hn by done. unfold outside, covers in *. lia.
Qed.

Lemma remove_region_mapping_correct set r :
  region_set_ok set -> region_ok r ->
  exists set', remove_region_mapping r set = Some set' /\ region_set_ok set' /\
    card set' <= card set + 1 /\
    forall b, set_covers set' b <-> set_covers set b /\ ~ covers r b.
Proof.
  intros Hset Hr.
  destruct (remove_region_mapping_loop_ok (S (tree_size (root set))) r set Hset Hr)
    as (set' & Heq & Hset' & Hsz & Hcov).
  - pose proof (overlaps_le r (elems set)). pose proof (fuel_size set Hset).
    pose proof (elems_size set Hset). lia.
  - exists set'. split; [exact Heq|]. split; [done|]. split; [|done]. destruct (decide _); lia.
Qed.

(** ** [remove_region] *)

(** The iterator of a region set has given the nodes [dn], and is about to
    give [rem]. *)
Record iterating (set : region_set) (dn rem : list (nat * pmem_st)) : Prop := {
  it_ok : region_set_ok set;
  it_nodes : nodes set = dn ++ rem;
  it_iter : iter set = rem;
  it_fits : stack_fits (stack set);
}.

Lemma elems_split set dn rem : nodes set = dn ++ rem -> elems set = dn.*2 ++ rem.*2.
Proof. intros Hn. unfold elems. by rewrite Hn, fmap_app. Qed.

Lemma elems_middle set dn n rem :
  nodes set = dn ++ n :: rem -> elems set ≡ₚ snd n :: (dn.*2 ++ rem.*2).
Proof.
  intros Hn. rewrite (elems_split set dn (n :: rem) Hn), fmap_cons.
  by rewrite Permutation_middle.
Qed.

(** An entry is apart from the others, and its key splits the nodes. *)
Lemma node_others set dn i m rem :
  region_set_ok set -> nodes set = dn ++ (i, m) :: rem ->
  region_ok m /\ Forall (fun x => apart m x) (dn.*2 ++ rem.*2) /\
  after_all (cmp_pmem_st m) dn /\ before_all (cmp_pmem_st m) rem /\
  (i ∉ dn.*1) /\ (i ∉ rem.*1).
Proof.
  intros [Hok Hap] Hn. destruct (ok_sorted _ _ _ Hok dn (i, m) rem Hn) as (_ & Ha & Hb).
  pose proof (elems_split set dn _ Hn) as Hel. rewrite fmap_cons in Hel. simpl in *.
  assert (m ∈ elems set) as Hin by (rewrite Hel; set_solver).
  split; [by apply (region_of_set set)|]. split; [|split; [done|split; [done|]]].
  - apply Forall_forall. intros x Hx. apply Hap; [done|rewrite Hel, elem_of_middle; by right|].
    intros <-. assert (cmp_pmem_st m m = 0) as Hz.
    { apply cmp_self. by apply (region_of_set set). }
    apply elem_of_app in Hx as [Hx|Hx]; apply list_elem_of_fmap in Hx as (n & -> & Hx);
      [unfold after_all in Ha; rewrite Forall_forall in Ha; specialize (Ha n Hx)
      |unfold before_all in Hb; rewrite Forall_forall in Hb; specialize (Hb n Hx)]; lia.
  - pose proof (wf_nodup _ (ok_wf _ _ _ Hok)) as Hnd. rewrite Hn, fmap_app, fmap_cons in Hnd.
    apply NoDup_app in Hnd as (_ & Hd & [Hr _]%NoDup_cons). split; [|done].
    intros Hi. apply (Hd i Hi). by left.
Qed.

(** The iterator is put back at an entry of the set. *)
Lemma reset_at set dn i x rem :
  region_set_ok set -> card set < iter_limit -> nodes set = dn ++ (i, x) :: rem ->
  exists set', OSetGen_ResetIterAt set x = Some set' /\ card set' = card set /\
    iterating set' dn ((i, x) :: rem).
Proof.
  intros Hset Hlim Hn. destruct (node_others set dn i x rem Hset Hn) as (Hx & _ & Ha & Hb & _).
  pose proof (rs_ok _ Hset) as Hok.
  assert (forall y, os_cmp set x y = cmp_pmem_st x y) as Hcmp by (intros; apply (ok_cmp _ _ _ Hok)).
  destruct (ResetIterAt_ok set x dn [(i, x)] rem) as (st & ks & Heq & Hfit & Hsuf & Hne & Hst).
  - apply small_height; [apply (ok_wf _ _ _ Hok)|done].
  - done.
  - eapply Forall_impl; [exact Ha|]. intros. simpl. by rewrite Hcmp.
  - constructor; [|constructor]. simpl. rewrite Hcmp. by apply cmp_self.
  - eapply Forall_impl; [exact Hb|]. intros. simpl. by rewrite Hcmp.
  - exists (set_stack st set). split; [done|]. split; [done|].
    destruct Hset as [[[] ? ?] ?]. split; try done.
    rewrite <-app_nil_l with (l := (i, x) :: rem). unfold iter. simpl. rewrite Hst.
    destruct Hsuf as [k Hk]. destruct k as [|k1 k]; [by simpl in Hk; subst|].
    destruct k, ks; simplify_eq/=. by destruct Hne.
Qed.

(** The iterator is put where an entry was that has been removed. *)
Lemma reset_after set dn rem x :
  region_set_ok set -> card set < iter_limit -> nodes set = dn ++ rem ->
  after_all (cmp_pmem_st x) dn -> before_all (cmp_pmem_st x) rem ->
  exists set', OSetGen_ResetIterAt set x = Some set' /\ card set' = card set /\
    iterating set' dn rem.
Proof.
  intros Hset Hlim Hn Ha Hb. pose proof (rs_ok _ Hset) as Hok.
  assert (forall y, os_cmp set x y = cmp_pmem_st x y) as Hcmp by (intros; apply (ok_cmp _ _ _ Hok)).
  destruct (ResetIterAt_ok set x dn [] rem) as (st & ks & Heq & Hfit & Hsuf & _ & Hst).
  - apply small_height; [apply (ok_wf _ _ _ Hok)|done].
  - done.
  - eapply Forall_impl; [exact Ha|]. intros. simpl. by rewrite Hcmp.
  - constructor.
  - eapply Forall_impl; [exact Hb|]. intros. simpl. by rewrite Hcmp.
  - exists (set_stack st set). split; [done|]. split; [done|].
    destruct Hset as [[[] ? ?] ?]. split; try done. unfold iter. simpl. rewrite Hst.
    destruct Hsuf as [k Hk]. by destruct k, ks.
Qed.

(** An entry is cut down in place, once the iterator has given it. *)
Lemma update_piece set dn i m rem f :
  region_set_ok set -> nodes set = dn ++ (i, m) :: rem -> iter set = rem ->
  stack_fits (stack set) -> within (f m) m ->
  iterating (OSetGen_Update set i f) (dn ++ [(i, f m)]) rem.
Proof.
  intros Hset Hn Hit Hfit Hw.
  destruct (node_others set dn i m rem Hset Hn) as (Hm & Hap & Ha & Hb & Hi1 & Hi2).
  pose proof (within_ok _ _ Hm Hw) as Hx. pose proof Hset as [Hok Hall].
  pose proof (Update_nodes set i f i m dn rem (ok_wf _ _ _ Hok) Hn eq_refl) as Hn'.
  assert (Forall region_ok (dn.*2 ++ rem.*2)) as Hwf.
  { apply Forall_forall. intros y Hy. apply (region_of_set set); [done|].
    rewrite (elems_middle set dn _ rem Hn). by right. }
  assert (Forall (fun y => apart (f m) y) (dn.*2 ++ rem.*2)) as Hap'.
  { eapply Forall_impl; [exact Hap|]. intros y. by apply within_apart. }
  assert (forall y z, cmp_key set y z = cmp_pmem_st y z) as Hcmp
    by (intros; apply (ok_cmp _ _ _ Hok)).
  assert (os_wf (OSetGen_Update set i f)) as Hwf'.
  { apply (Update_wf set i f i m dn rem); [apply (ok_wf _ _ _ Hok)|done|done|].
    pose proof (wf_sorted _ (ok_wf _ _ _ Hok)) as Hs. rewrite Hn in Hs.
    rewrite Forall_app, !Forall_fmap in Hwf. destruct Hwf as [Hw1 Hw2].
    unfold after_all in Ha. unfold before_all in Hb. rewrite Forall_forall in Ha, Hb, Hw1, Hw2.
    apply sorted_insert; [by eapply sorted_remove|by rewrite Hcmp; apply cmp_self|..];
      apply Forall_forall; intros y Hy; rewrite Hcmp;
      [pose proof (Hw1 y Hy)|pose proof (Hw2 y Hy)|pose proof (Hw1 y Hy)|pose proof (Hw2 y Hy)];
      destruct (within_cmp (f m) m (snd y)) as [Hlt Hgt]; try done;
      solve [by apply Hlt, Hb|by apply Hgt, Ha]. }
  split.
  - split; [apply (os_ok_intro _ _ set); [done..|]|].
    + rewrite (elems_middle _ _ _ _ Hn'). by constructor.
    + eapply all_apart_perm; [symmetry; apply (elems_middle _ _ _ _ Hn')|].
      apply all_apart_cons; [done|]. eapply (all_apart_tail m), all_apart_perm; [|exact Hall].
      by rewrite (elems_middle _ _ _ _ Hn).
  - rewrite Hn'. by rewrite <-app_assoc.
  - rewrite Update_iter, Hit. by apply upd_node_id.
  - by apply Update_fits.
Qed.

(** An entry is split in two: the first part is cut in place, the second part
    inserted, and the iterator put back at the first one. *)
Lemma split_piece set dn i m rem f y :
  region_set_ok set -> nodes set = dn ++ (i, m) :: rem -> iter set = rem ->
  stack_fits (stack set) -> card set + 1 < iter_limit ->
  within (f m) m -> within y m -> apart (f m) y -> addr (f m) < addr y ->
  exists set1 set2 rem2, OSetGen_Insert (OSetGen_Update set i f) y = Some set1 /\
    OSetGen_ResetIterAt set1 (f m) = Some set2 /\ card set2 = card set + 1 /\
    iterating set2 dn rem2 /\ rem2.*2 ≡ₚ f m :: y :: rem.*2.
Proof.
  intros Hset Hn Hit Hfit Hlim Hw Hy Hfy Hlt.
  destruct (node_others set dn i m rem Hset Hn) as (Hm & Hap & _).
  pose proof (within_ok y m Hm Hy) as Hyr. pose proof (within_ok _ m Hm Hw) as Hfr.
  destruct (update_piece set dn i m rem f Hset Hn Hit Hfit Hw) as [Hset1 Hn1 _ _].
  rewrite <-app_assoc in Hn1. simpl in Hn1. remember (OSetGen_Update set i f) as set1 eqn:E1.
  assert (card set1 = card set) as Hsz1 by (subst; apply Update_card).
  destruct (insert_node set1 y Hset1 Hyr) as
    (set2 & ms1 & ms3 & Hins & Hset2 & Hms & Hms' & Ha & Hb & Hsz).
  { rewrite (elems_middle _ _ _ _ Hn1). constructor; [by apply apart_sym|].
    eapply Forall_impl; [exact Hap|]. intros z. by apply within_apart. }
  rewrite Hn1 in Hms.
  destruct (split_at_root _ _ _ _ _ Hms) as [(k & -> & ->) | (k & -> & ->)].
  - rewrite <-app_assoc in Hms'. simpl in Hms'.
    destruct (reset_at set2 dn i (f m) _ Hset2 ltac:(lia) Hms') as (set3 & Hres & Hsz3 & Hit3).
    exists set2, set3, ((i, f m) :: k ++ (next_id set1, y) :: ms3).
    split; [done|]. split; [done|]. split; [lia|]. split; [done|].
    rewrite !fmap_cons, !fmap_app, fmap_cons. simpl. by rewrite <-Permutation_middle.
  - apply before_all_app in Hb as [_ [Hc _]%before_all_cons]. simpl in Hc.
    pose proof (cmp_pmem_st_spec y (f m) Hyr Hfr). unfold apart in Hfy. destruct Hyr. lia.
Qed.

(** The measure of the loop, and the room it needs in the iterator's stack. *)
Definition to_do (r : pmem_st) (rem : list (nat * pmem_st)) : nat :=
  (length rem + 2 * overlaps r rem.*2)%nat.

Definition has_room (r : pmem_st) set (rem : list (nat * pmem_st)) : Prop :=
  card set + 1 < iter_limit \/ card set < iter_limit /\ overlaps r rem.*2 = 0%nat.

(** An entry is removed, and the iterator goes on behind it. *)
Lemma drop_piece set dn i m rem :
  region_set_ok set -> nodes set = dn ++ (i, m) :: rem -> card set < iter_limit ->
  exists set1 set2, OSetGen_Remove set m = Some (Some m, set1) /\
    OSetGen_ResetIterAt set1 m = Some set2 /\ iterating set2 dn rem /\
    card set2 = card set - 1.
Proof.
  intros Hset Hn Hlim. pose proof Hset as [Hok Hall].
  destruct (node_others set dn i m rem Hset Hn) as (Hm & Hap & Ha & Hb & _).
  destruct (Remove_ok set m i m dn rem (ok_wf _ _ _ Hok))
    as (set1 & Hrem & Hwf1 & Hn1 & Hcmp1 & Hsz1 & _); [|done|].
  { apply (Lookup_self cmp_pmem_st region_ok set i m Hok). rewrite Hn. set_solver. }
  pose proof (elems_middle _ _ _ _ Hn) as Hel. pose proof (elems_split _ _ _ Hn1) as Hel1.
  assert (region_set_ok set1) as Hset1.
  { split.
    - apply (os_ok_intro _ _ set); [done..|]. pose proof (ok_elems _ _ _ Hok) as Hwf.
      rewrite Hel in Hwf. rewrite Hel1. by apply Forall_cons in Hwf as [_ ?].
    - rewrite Hel1. apply (all_apart_tail m). by eapply all_apart_perm. }
  destruct (reset_after set1 dn rem m Hset1) as (set2 & Hres & Hsz2 & Hit); [lia|done..|].
  exists set1, set2. repeat (split; [done|]). lia.
Qed.

(** What an entry that was cut in place leaves to do. *)
Lemma cut_in_place r set dn i m rem f :
  (forall b, ~ covers r b -> covers m b <-> covers (f m) b) ->
  region_set_ok set -> nodes set = dn ++ (i, m) :: rem -> card set + 1 < iter_limit ->
  cmp_pmem_st m r = 0 -> outside (f m) r -> Forall (fun x => outside x r) dn.*2 ->
  Forall (fun x => outside x r) (dn ++ [(i, f m)]).*2 /\
  (to_do r rem < to_do r ((i, m) :: rem))%nat /\ has_room r (OSetGen_Update set i f) rem /\
  (forall b, ~ covers r b ->
    list_covers (elems (OSetGen_Update set i f)) b <-> list_covers (elems set) b).
Proof.
  intros Hcov Hset Hn Hlim Hc Ho Hdn. split; [|split; [|split]].
  - rewrite fmap_app, Forall_app. split; [done|]. by apply Forall_singleton.
  - unfold to_do. rewrite fmap_cons, overlaps_yes by done. simpl. lia.
  - left. by rewrite Update_card.
  - intros b Hb.
    pose proof (Update_nodes set i f i m dn rem (ok_wf _ _ _ (rs_ok _ Hset)) Hn eq_refl) as Hn'.
    rewrite (list_covers_perm _ _ b (elems_middle _ _ _ _ Hn)).
    rewrite (list_covers_perm _ _ b (elems_middle _ _ _ _ Hn')).
    rewrite !list_covers_cons. simpl. by rewrite (Hcov b Hb).
Qed.

(** The cut of an entry the iterator has just given, in each branch. *)
Lemma remove_region_cut fuel r set dn i m rem idx :
  region_set_ok set -> nodes set = dn ++ (i, m) :: rem -> iter set = rem ->
  stack_fits (stack set) -> region_ok r -> cmp_pmem_st m r = 0 ->
  Forall (fun x => outside x r) dn.*2 -> card set + 1 < iter_limit ->
  exists set2 dn2 rem2 idx2,
    match cut_region m r with
    | CutAll =>
        '(_, set) ← OSetGen_Remove set m;
        set ← OSetGen_ResetIterAt set m;
        remove_region_loop fuel r set idx
    | CutMiddle l q =>
        let set := OSetGen_Update set i (set_range l) in
        let tmp := set_range l m in
        let new_region := set_index idx (region_at (fst q) (snd q)) in
        let idx := idx + 1 in
        set ← OSetGen_Insert set new_region;
        set ← OSetGen_ResetIterAt set tmp;
        remove_region_loop fuel r set idx
    | CutHead p | CutTail p =>
        let set := OSetGen_Update set i (set_range p) in
        remove_region_loop fuel r set idx
    end = remove_region_loop fuel r set2 idx2 /\
    iterating set2 dn2 rem2 /\ Forall (fun x => outside x r) dn2.*2 /\
    (to_do r rem2 < to_do r ((i, m) :: rem))%nat /\ has_room r set2 rem2 /\
    (forall b, ~ covers r b -> set_covers set2 b <-> set_covers set b).
Proof.
  intros Hset Hn Hit Hfit Hr Hc Hdn Hlim.
  destruct (node_others set dn i m rem Hset Hn) as (Hm & Hap & Ha & Hb & Hi & _).
  destruct (cut_regions_ok m r Hm Hr Hc) as (Hin & Htwo & Hcov).
  pose proof (elems_middle _ _ _ _ Hn) as Hel. simpl in Hel.
  assert (forall b, ~ covers r b -> covers m b <-> list_covers (cut_regions m r) b) as Hcov'
    by (intros b Hb'; rewrite (Hcov b); tauto).
  assert (to_do r ((i, m) :: rem) = S (S (S (to_do r rem)))) as Htd.
  { unfold to_do. rewrite fmap_cons, overlaps_yes by done. simpl. lia. }
  change (set_covers ?s) with (list_covers (elems s)). unfold cut_regions in *.
  destruct (cut_region m r) as [|l q|p|p].
  - destruct (drop_piece set dn i m rem Hset Hn) as (set1 & set2 & -> & Hres & Hit2 & Hsz); [lia|].
    exists set2, dn, rem, idx. cbn [mbind option_bind]. rewrite Hres. split; [done|]. split; [done|]. split; [done|].
    split; [lia|]. split; [left; lia|]. intros b Hbr.
    rewrite (elems_split _ _ _ (it_nodes _ _ _ Hit2)), (list_covers_perm _ _ b Hel).
    rewrite list_covers_cons, (Hcov' b Hbr), list_covers_nil. tauto.
  - apply Forall_cons in Hin as [[Hl1 Ho1] [[Hq1 Ho2] _]%Forall_cons].
    destruct (Htwo _ _ eq_refl) as (Hlq & Hlt & Hwr).
    destruct (split_piece set dn i m rem (set_range l) (set_index idx (region_at (fst q) (snd q))))
      as (set1 & set2 & rem2 & Hins & Hres & Hsz & Hit2 & Hrem2); try done.
    exists set2, dn, rem2, (idx + 1). cbv zeta. rewrite Hins. cbn [mbind option_bind].
    rewrite Hres.
    assert (overlaps r rem2.*2 = 0%nat) as Hov.
    { apply overlaps_no; [done| |].
      - apply Forall_forall. intros x Hx. apply (region_of_set set2); [by apply (it_ok _ _ _ Hit2)|].
        rewrite (elems_split _ _ _ (it_nodes _ _ _ Hit2)). set_solver.
      - rewrite Hrem2. repeat (constructor; [done|]).
        apply (apart_outside r m); [done|]. by apply Forall_app in Hap as [_ ?]. }
    assert (length rem2 = S (S (length rem))) as Hlen.
    { apply Permutation_length in Hrem2. simpl in Hrem2. by rewrite !length_fmap in Hrem2. }
    split; [done|]. split; [done|]. split; [done|].
    split; [unfold to_do in *; lia|]. split; [right; split; [lia|done]|]. intros b Hbr.
    rewrite (elems_split _ _ _ (it_nodes _ _ _ Hit2)), (list_covers_perm _ _ b Hel).
    rewrite list_covers_app, (list_covers_perm _ _ b Hrem2), !list_covers_cons, (Hcov' b Hbr).
    rewrite !list_covers_cons, list_covers_nil, list_covers_app.
    change (covers (set_index _ ?x)) with (covers x). tauto.
  - apply Forall_cons in Hin as [[Hp Ho] _]. cbv zeta.
    eexists _, _, rem, idx. split; [reflexivity|]. split; [by apply update_piece|].
    apply (cut_in_place r set dn i m rem); [|done..].
    intros b Hbr. rewrite (Hcov' b Hbr), list_covers_cons, list_covers_nil. tauto.
  - apply Forall_cons in Hin as [[Hp Ho] _]. cbv zeta.
    eexists _, _, rem, idx. split; [reflexivity|]. split; [by apply update_piece|].
    apply (cut_in_place r set dn i m rem); [|done..].
    intros b Hbr. rewrite (Hcov' b Hbr), list_covers_cons, list_covers_nil. tauto.
Qed.

Lemma remove_region_loop_ok fuel r set dn rem idx :
  iterating set dn rem -> region_ok r -> Forall (fun x => outside x r) dn.*2 ->
  (to_do r rem < fuel)%nat -> has_room r set rem ->
  exists set' idx', remove_region_loop fuel r set idx = Some (set', idx') /\
    region_set_ok set' /\ forall b, set_covers set' b <-> set_covers set b /\ ~ covers r b.
Proof.
  revert set dn rem idx. induction fuel as [|fuel IH]; intros set dn rem idx Hit Hr Hdn Hf Hlim; [lia|].
  cbn [remove_region_loop]. pose proof Hit as [Hset Hn Hiter Hfit].
  destruct (Next_ok set Hfit) as (nx & st & -> & Hfit' & Hx). cbn [mbind option_bind].
  change (stack_nodes (stack set)) with (iter set) in Hx. rewrite Hiter in Hx.
  assert (region_set_ok (set_stack st set)) as Hset' by (destruct Hset as [[[] ? ?] ?]; done).
  destruct nx as [[i m]|].
  - rewrite Hx in *. destruct (Z.eqb_spec (cmp_pmem_st m r) 0) as [Hc|Hc]; simpl negb; cbv iota.
    + destruct (remove_region_cut fuel r (set_stack st set) dn i m (stack_nodes st) idx)
        as (set2 & dn2 & rem2 & idx2 & Hcut & Hit2 & Hdn2 & Htd2 & Hroom2 & Hcov2); try done.
      { destruct Hlim as [?|[_ Hov]]; [done|]. rewrite fmap_cons, overlaps_yes in Hov; done. }
      destruct (IH set2 dn2 rem2 idx2) as (set' & idx' & Heq & Hs' & Hc'); try done; [lia|].
      exists set', idx'. split; [etransitivity; [exact Hcut|exact Heq]|]. split; [done|]. intros b. rewrite (Hc' b).
      specialize (Hcov2 b). change (set_covers (set_stack st set) b) with (set_covers set b) in Hcov2.
      tauto.
    + assert (region_ok m) as Hm by by apply (node_others set dn i m _ Hset) in Hn as (? & _).
      assert (outside m r) as Ho.
      { rewrite cmp_overlap in Hc by done. unfold outside in *. lia. }
      assert (overlaps r ((i, m) :: stack_nodes st).*2 = overlaps r (stack_nodes st).*2) as Hov.
      { unfold overlaps. rewrite fmap_cons. by rewrite filter_cons_False. }
      destruct (IH (set_stack st set) (dn ++ [(i, m)]) (stack_nodes st) idx)
        as (set' & idx' & -> & Hs' & Hc'); [| | | | |by exists set', idx'].
      * split; try done. by rewrite <-app_assoc.
      * done.
      * rewrite fmap_app, Forall_app. split; [done|]. by apply Forall_singleton.
      * unfold to_do in *. rewrite Hov in Hf. simpl in Hf. lia.
      * unfold has_room in *. by rewrite Hov in Hlim.
  - destruct Hx as [-> ->]. exists (set_stack [] set), idx. split; [done|]. split; [done|].
    intros b. split; [|tauto]. intros (x & Hx & Hb). split; [by exists x|].
    change (elems (set_stack [] set)) with (elems set) in Hx.
    rewrite (elems_split _ _ _ Hn), app_nil_r in Hx. rewrite Forall_forall in Hdn.
    by apply (outside_covers x); [apply Hdn|].
Qed.

Lemma remove_region_correct set r idx :
  region_set_ok set -> region_ok r -> card set + 1 < iter_limit ->
  exists set' idx', remove_region r set idx = Some (set', idx') /\ region_set_ok set' /\
    forall b, set_covers set' b <-> set_covers set b /\ ~ covers r b.
Proof.
  intros Hset Hr Hlim. unfold remove_region.
  destruct (ResetIter_ok set) as (st & -> & Hfit & Hst).
  { apply small_height; [apply (ok_wf _ _ _ (rs_ok _ Hset))|lia]. }
  cbn [mbind option_bind].
  destruct (remove_region_loop_ok (S (3 * tree_size (root set))) r (set_stack st set) [] (nodes set) idx)
    as (set' & idx' & Heq & Hs' & Hc'); [|done|by constructor| |by left|by exists set', idx'].
  - destruct Hset as [[[] ? ?] ?]. by split.
  - unfold to_do. pose proof (overlaps_le r (nodes set).*2) as Ho. rewrite length_fmap in Ho.
    pose proof (fuel_size set Hset) as Hf. rewrite (wf_card _ (ok_wf _ _ _ (rs_ok _ Hset))) in Hf. lia.
Qed.

(** ** Looking a region up *)

Lemma check_overlap_spec r s :
  region_ok r -> region_ok s ->
  (check_overlap r s = 0 /\ outside r s) \/
  (check_overlap r s = 1 /\ within r s) \/
  (check_overlap r s = 2 /\ ~ outside r s /\ ~ within r s).
Proof.
  intros Hr Hs. pose proof (cmp_overlap r s Hr Hs) as Hc. unfold check_overlap.
  rewrite !max_addr_ok by done. unfold outside, within in *. destruct Hr, Hs.
  repeat (ztest; simpl); lia.
Qed.

(** The regions of a set are apart, so that an interval of covered bytes lies
    in one of them. *)
Lemma covered_within set r :
  region_set_ok set -> region_ok r -> (forall b, covers r b -> set_covers set b) ->
  exists x, x ∈ elems set /\ within r x.
Proof.
  intros Hset Hr Hall. destruct Hr as (? & Hs & ?).
  destruct (Hall (addr r)) as (x & Hx & Hb); [unfold covers; lia|].
  exists x. split; [done|]. unfold within, covers in *.
  destruct (Z.le_gt_cases (addr r + size r) (addr x + size x)) as [?|Hgt]; [lia|].
  destruct (Hall (addr x + size x)) as (y & Hy & Hby); [lia|].
  destruct (decide (x = y)) as [->|Hne]; [unfold covers in *; lia|].
  pose proof (rs_apart _ Hset x y Hx Hy Hne) as Hap. unfold apart, covers in *.
  pose proof (region_of_set set y Hset Hy) as (? & ? & ?). lia.
Qed.

(** 0: no byte of the region is in the set; 1: all of them are; 2: some are and
    some are not. *)
Lemma is_in_mapping_set_spec set r :
  region_set_ok set -> region_ok r ->
  (is_in_mapping_set r set = 0 /\ forall b, covers r b -> ~ set_covers set b) \/
  (is_in_mapping_set r set = 1 /\ forall b, covers r b -> set_covers set b) \/
  (is_in_mapping_set r set = 2 /\ (exists b, covers r b /\ set_covers set b) /\
     exists b, covers r b /\ ~ set_covers set b).
Proof.
  intros Hset Hr. unfold is_in_mapping_set, OSetGen_Contains.
  destruct (OSetGen_Lookup set r) as [x|] eqn:El; simpl.
  - destruct (Lookup_some cmp_pmem_st region_ok region_ok set r x (rs_ok _ Hset) Hr El) as [Hx Hc].
    pose proof (region_of_set set x Hset Hx) as Hxr. rewrite cmp_overlap in Hc by done.
    destruct (check_overlap_spec r x Hr Hxr) as [[_ ?]|[[-> Hw]|(-> & Ho & Hw)]]; [done| |].
    + right; left. split; [done|]. intros b Hb. exists x. split; [done|].
      unfold within, covers in *. lia.
    + right; right. split; [done|]. split.
      * exists (Z.max (addr r) (addr x)). destruct Hr, Hxr. unfold outside, covers in *.
        split; [lia|]. exists x. split; [done|]. unfold covers. lia.
      * destruct (decide (addr r < addr x)) as [Hlt|Hge].
        -- exists (addr x - 1). unfold outside, covers in *. split; [lia|].
           intros (y & Hy & Hb). unfold covers in Hb.
           destruct (decide (x = y)) as [->|Hne]; [lia|].
           pose proof (rs_apart _ Hset x y Hx Hy Hne). unfold apart in *.
           pose proof (region_of_set set y Hset Hy) as (? & ? & ?).
           unfold region_ok in *. lia.
        -- exists (addr x + size x). unfold outside, within, covers in *. destruct Hr, Hxr.
           split; [lia|]. intros (y & Hy & Hb). unfold covers in Hb.
           destruct (decide (x = y)) as [->|Hne]; [lia|].
           pose proof (rs_apart _ Hset x y Hx Hy Hne). unfold apart in *.
           pose proof (region_of_set set y Hset Hy) as (? & ? & ?).
           unfold region_ok in *. lia.
  - left. split; [done|]. intros b Hb (x & Hx & Hbx).
    pose proof (Lookup_none cmp_pmem_st region_ok region_ok set r (rs_ok _ Hset) Hr El) as Hn.
    rewrite Forall_forall in Hn. specialize (Hn x Hx).
    rewrite cmp_overlap in Hn by (done || by apply (region_of_set set)).
    unfold outside, covers in *. lia.
Qed.

(** ** Sequences of requests *)

(** An empty set of regions. *)
Lemma region_set_empty : region_set_ok (OSetGen_Create (Some cmp_pmem_st)).
Proof.
  split; [|by intros ? ? ?%elem_of_nil].
  split; [|done|by constructor]. split; try done; [|constructor..].
  intros [] ? ? ?; done.
Qed.

(** What the client asks about a set of regions. *)
Inductive region_request : Type := AddRegion (a s : Z) | RemoveRegion (a s : Z).

Definition request_region (q : region_request) : pmem_st :=
  match q with AddRegion a s | RemoveRegion a s => region_at a s end.

Definition do_request (q : region_request) (set : region_set) : option region_set :=
  match q with
  | AddRegion a s => add_region (region_at a s) set
  | RemoveRegion a s => remove_region_mapping (region_at a s) set
  end.

Fixpoint do_requests (qs : list region_request) (set : region_set) : option region_set :=
  match qs with
  | [] => Some set
  | q :: qs => set ← do_request q set; do_requests qs set
  end.

(** The specification: a set of bytes. *)
Definition bytes_after (q : region_request) (bytes : Z -> Prop) : Z -> Prop :=
  fun b => match q with
           | AddRegion a s => bytes b \/ a <= b < a + s
           | RemoveRegion a s => bytes b /\ ~ (a <= b < a + s)
           end.

(** Regions inside the address space, away from its first and last byte. *)
Definition request_ok (q : region_request) : Prop :=
  let r := request_region q in
  1 <= addr r /\ 0 < size r /\ addr r + size r + 1 < word_size.

Lemma do_requests_ok qs set bytes :
  region_set_ok set -> (forall b, set_covers set b <-> bytes b) -> Forall request_ok qs ->
  exists set', do_requests qs set = Some set' /\ region_set_ok set' /\
    forall b, set_covers set' b <-> foldl (fun bs q => bytes_after q bs) bytes qs b.
Proof.
  revert set bytes. induction qs as [|q qs IH]; intros set bytes Hset Hb Hq.
  { by exists set. }
  apply Forall_cons in Hq as [(H1 & H2 & H3) Hqs].
  assert (region_ok (request_region q)) as Hr by (unfold region_ok; lia).
  assert (exists set1, do_request q set = Some set1 /\ region_set_ok set1 /\
    forall b, set_covers set1 b <-> bytes_after q bytes b) as (set1 & Heq & Hset1 & Hb1).
  { destruct q as [a s|a s]; simpl in *.
    - destruct (add_region_correct set (region_at a s) Hset Hr) as (set1 & ? & ? & _ & Hc); [done..|].
      exists set1. split; [done|]. split; [done|]. intros b. by rewrite (Hc b), (Hb b).
    - destruct (remove_region_mapping_correct set (region_at a s) Hset Hr) as (set1 & ? & ? & _ & Hc).
      exists set1. split; [done|]. split; [done|]. intros b. by rewrite (Hc b), (Hb b). }
  simpl. rewrite Heq. cbn. by apply (IH set1).
Qed.
