(* ===== verification/RegionClaims.v ===== *)
(** Sets of regions: the theorems about the operations of pmc_common.c. *)
From S2P Require Import Prelude OSet OSetTree OSetSpec Region RegionSpec.

(** ** Canonical forms *)

Definition range_of (r : pmem_st) : Z * Z := (addr r, size r).

Definition ranges (set : region_set) : list (Z * Z) := range_of <$> elems set.

(** Ranges in increasing order, each with a gap before it. *)
Fixpoint spaced (lo : Z) (l : list (Z * Z)) : Prop :=
  match l with
  | [] => True
  | (a, s) :: l => lo < a /\ 0 < s /\ spaced (a + s) l
  end.

Fixpoint covered (l : list (Z * Z)) (b : Z) : Prop :=
  match l with
  | [] => False
  | (a, s) :: l => a <= b < a + s \/ covered l b
  end.

Lemma spaced_after l : forall lo b, spaced lo l -> covered l b -> lo < b.
Proof.
  induction l as [|[a s] l IH]; intros lo b; simpl; [done|]. intros (H1 & H2 & H3) [Hb|Hb]; [lia|].
  specialize (IH (a + s) b H3 Hb). lia.
Qed.

Lemma head_unique a1 s1 l1 a2 s2 l2 :
  0 < s1 -> 0 < s2 -> spaced (a1 + s1) l1 -> spaced (a2 + s2) l2 ->
  (forall b, covered ((a1, s1) :: l1) b -> covered ((a2, s2) :: l2) b) -> a2 <= a1 /\ (a1 = a2 -> s1 <= s2).
Proof.
  intros Hs1 Hs2 H1 H2 H. simpl in H. split.
  - destruct (H a1) as [?|Hb]; [lia|lia|]. pose proof (spaced_after l2 _ _ H2 Hb). lia.
  - intros ->. destruct (Z_le_gt_dec s1 s2); [done|].
    destruct (H (a2 + s2)) as [?|Hb]; [lia|lia|]. pose proof (spaced_after l2 _ _ H2 Hb). lia.
Qed.

Lemma spaced_unique l1 : forall l2 lo1 lo2,
  spaced lo1 l1 -> spaced lo2 l2 -> (forall b, covered l1 b <-> covered l2 b) -> l1 = l2.
Proof.
  induction l1 as [|[a1 s1] l1 IH]; intros [|[a2 s2] l2] lo1 lo2 Hs1 Hs2 H; [done| | |].
  - destruct Hs2 as (_ & ? & _). destruct (proj2 (H a2)). left. lia.
  - destruct Hs1 as (_ & ? & _). destruct (proj1 (H a1)). left. lia.
  - destruct Hs1 as (_ & P1 & Hs1), Hs2 as (_ & P2 & Hs2).
    destruct (head_unique a1 s1 l1 a2 s2 l2) as [A1 B1]; try done; [apply H|].
    destruct (head_unique a2 s2 l2 a1 s1 l1) as [A2 B2]; try done; [apply H|].
    assert (a1 = a2) as -> by lia. assert (s1 = s2) as -> by lia. f_equal.
    apply (IH l2 (a2 + s2) (a2 + s2)); try done. intros b. specialize (H b). simpl in H.
    split; intros Hb; [pose proof (spaced_after l1 _ _ Hs1 Hb)|pose proof (spaced_after l2 _ _ Hs2 Hb)];
      [destruct (proj1 H)|destruct (proj2 H)]; tauto || lia.
Qed.

Lemma covered_ranges l b : covered (range_of <$> l) b <-> exists r, r ∈ l /\ covers r b.
Proof.
  induction l as [|r l IH]; simpl.
  - split; [done|]. by intros (? & ?%elem_of_nil & _).
  - rewrite IH. setoid_rewrite elem_of_cons. unfold covers. naive_solver.
Qed.

(** The regions of a set are in increasing order, with gaps between them. *)
Lemma nodes_spaced (ns : list (nat * pmem_st)) : forall lo,
  sorted (fun a b => cmp_pmem_st a b) ns -> Forall region_ok ns.*2 -> all_apart ns.*2 ->
  Forall (fun n => lo < addr (snd n)) ns -> spaced lo (range_of <$> ns.*2).
Proof.
  induction ns as [|n ns IH]; intros lo Hs Hok Hap Hlo; [done|]. cbn [fmap list_fmap spaced range_of] in *.
  apply Forall_cons in Hok as [Hn Hok]. apply Forall_cons in Hlo as [Hl _]. split; [done|].
  destruct (Hs [] n ns eq_refl) as (_ & _ & Hb). unfold before_all in Hb.
  split; [apply Hn|]. apply IH; [|done| |].
  - intros ns1 m ns3 ->. destruct (Hs (n :: ns1) m ns3 eq_refl) as (? & Ha & ?).
    unfold after_all in *. apply Forall_cons in Ha as [_ ?]. done.
  - intros r s Hr Hs'. apply Hap; by apply list_elem_of_further.
  - apply Forall_forall. intros m Hm. pose proof (proj1 (Forall_forall _ _) Hok) as Hall.
    pose proof (proj1 (Forall_forall _ _) Hb m Hm) as Hbm. simpl in Hbm.
    assert (snd m ∈ ns.*2) as Hm2 by (apply list_elem_of_fmap; by exists m).
    apply (cmp_pmem_st_spec _ _ Hn (Hall _ Hm2)) in Hbm.
    destruct (Hap (snd n) (snd m)) as [?|?]; [apply list_elem_of_here|by apply list_elem_of_further| | |].
    + intros E. destruct Hn as (_ & ? & _). rewrite E in *. lia.
    + done.
    + pose proof (Hall _ Hm2) as (? & ? & ?). destruct Hn as (_ & ? & _). lia.
Qed.

Lemma ranges_spaced set : region_set_ok set -> spaced (-1) (ranges set).
Proof.
  intros [Hok Hap]. apply nodes_spaced; [exact (ok_sorted _ _ _ Hok)|apply (ok_elems _ _ _ Hok)|done|].
  pose proof (ok_elems _ _ _ Hok) as Hw. unfold elems in Hw. rewrite Forall_fmap in Hw.
  eapply Forall_impl; [exact Hw|]. intros n (? & _). simpl in *. lia.
Qed.

Lemma ranges_unique set1 set2 :
  region_set_ok set1 -> region_set_ok set2 -> (forall b, set_covers set1 b <-> set_covers set2 b) ->
  ranges set1 = ranges set2.
Proof.
  intros H1 H2 H. apply (spaced_unique _ _ (-1) (-1)); [by apply ranges_spaced..|].
  intros b. unfold ranges. rewrite !covered_ranges. apply H.
Qed.

(** ** The operations *)

(** A set of two regions. *)
Definition sample_regions : region_set :=
  let empty := OSetGen_Create (Some cmp_pmem_st) in
  default empty (set ← add_region (region_at 100 16) empty; add_region (region_at 200 8) set).

Lemma sample_regions_ok : region_set_ok sample_regions.
Proof.
  unfold sample_regions.
  destruct (add_region_correct _ (region_at 100 16) region_set_empty) as (s1 & -> & H1 & _); [by vm_compute..|].
  cbn [mbind option_bind].
  by destruct (add_region_correct s1 (region_at 200 8) H1) as (s2 & -> & H2 & _); [by vm_compute..|].
Qed.

(** C33: [add_region] always returns a set whose regions are in order with gaps between them, and
    which has exactly the bytes of the given set and of the region; there is only one such list of
    ranges, so the order in which two regions are added does not matter. *)
Theorem add_region_exact set r1 r2 (Hset : region_set_ok set) (Hr1 : region_ok r1) (Hr2 : region_ok r2)
    (H1 : 1 <= addr r1 /\ addr r1 + size r1 + 1 < word_size)
    (H2 : 1 <= addr r2 /\ addr r2 + size r2 + 1 < word_size) :
  exists set1 set2 set12 set21,
    add_region r1 set = Some set1 /\ add_region r2 set1 = Some set12 /\
    add_region r2 set = Some set2 /\ add_region r1 set2 = Some set21 /\
    spaced (-1) (ranges set1) /\
    (forall b, set_covers set1 b <-> set_covers set b \/ covers r1 b) /\ ranges set12 = ranges set21.
Proof.
  destruct H1 as [? ?], H2 as [? ?].
  destruct (add_region_correct set r1) as (set1 & E1 & Ok1 & _ & C1); try done.
  destruct (add_region_correct set1 r2) as (set12 & E12 & Ok12 & _ & C12); try done.
  destruct (add_region_correct set r2) as (set2 & E2 & Ok2 & _ & C2); try done.
  destruct (add_region_correct set2 r1) as (set21 & E21 & Ok21 & _ & C21); try done.
  exists set1, set2, set12, set21. do 4 (split; [done|]). split; [by apply ranges_spaced|].
  split; [done|]. apply ranges_unique; [done..|]. intros b. rewrite C12, C1, C21, C2. tauto.
Qed.

Lemma add_region_exact_witness :
  exists set1 set2 set12 set21,
    add_region (region_at 116 4) sample_regions = Some set1 /\ add_region (region_at 190 20) set1 = Some set12 /\
    add_region (region_at 190 20) sample_regions = Some set2 /\ add_region (region_at 116 4) set2 = Some set21 /\
    spaced (-1) (ranges set1) /\
    (forall b, set_covers set1 b <-> set_covers sample_regions b \/ covers (region_at 116 4) b) /\
    ranges set12 = ranges set21.
Proof.
  apply (add_region_exact sample_regions (region_at 116 4) (region_at 190 20) sample_regions_ok); by vm_compute.
Defined.

(** C34: [remove_region], which iterates, and [remove_region_mapping], which looks up, both return a
    set with exactly the bytes of the given set outside of the region; their ranges are the same. *)
Theorem remove_region_exact set r idx (Hset : region_set_ok set) (Hr : region_ok r)
    (Hlim : card set + 1 < iter_limit) :
  exists set1 set2 idx',
    remove_region r set idx = Some (set1, idx') /\ remove_region_mapping r set = Some set2 /\
    ranges set1 = ranges set2 /\ spaced (-1) (ranges set1) /\
    forall b, set_covers set1 b <-> set_covers set b /\ ~ covers r b.
Proof.
  destruct (remove_region_correct set r idx Hset Hr Hlim) as (set1 & idx' & E1 & Ok1 & C1).
  destruct (remove_region_mapping_correct set r Hset Hr) as (set2 & E2 & Ok2 & _ & C2).
  exists set1, set2, idx'. do 2 (split; [done|]). split; [|split; [by apply ranges_spaced|done]].
  apply ranges_unique; [done..|]. intros b. by rewrite C1, C2.
Qed.

Lemma remove_region_exact_witness :
  exists set1 set2 idx',
    remove_region (region_at 104 100) sample_regions 0 = Some (set1, idx') /\
    remove_region_mapping (region_at 104 100) sample_regions = Some set2 /\
    ranges set1 = ranges set2 /\ spaced (-1) (ranges set1) /\
    forall b, set_covers set1 b <-> set_covers sample_regions b /\ ~ covers (region_at 104 100) b.
Proof.
  apply (remove_region_exact sample_regions (region_at 104 100) 0 sample_regions_ok); by vm_compute.
Defined.

(** [is_in_mapping_set] answers 0, 1 or 2 exactly as none, all, or only some of the bytes of the
    region are in the set. *)
Theorem is_in_mapping_set_exact set r (Hset : region_set_ok set) (Hr : region_ok r) :
  (is_in_mapping_set r set = 0 <-> forall b, covers r b -> ~ set_covers set b) /\
  (is_in_mapping_set r set = 1 <-> forall b, covers r b -> set_covers set b) /\
  (is_in_mapping_set r set = 2 <-> (exists b, covers r b /\ set_covers set b) /\
     exists b, covers r b /\ ~ set_covers set b).
Proof.
  assert (covers r (addr r)) as Hin by (destruct Hr as (? & ? & ?); unfold covers; lia).
  destruct (is_in_mapping_set_spec set r Hset Hr) as [[-> H]|[[-> H]|(-> & (b1 & B1 & B2) & b2 & B3 & B4)]].
  - split; [done|]. split; [split; [done|intros H1; by destruct (H _ Hin (H1 _ Hin))]|].
    split; [done|]. intros [(b & Hb & Hc) _]. by destruct (H b Hb).
  - split; [split; [done|intros H1; by destruct (H1 _ Hin (H _ Hin))]|]. split; [done|].
    split; [done|]. intros [_ (b & Hb & Hc)]. by destruct (Hc (H b Hb)).
  - split; [split; [done|intros H1; by destruct (H1 b1)]|].
    split; [split; [done|intros H1; naive_solver]|]. split; [|done]. split; [by exists b1|by exists b2].
Qed.

Lemma is_in_mapping_set_exact_witness :
  is_in_mapping_set (region_at 110 10) sample_regions = 2 /\
  exists b, covers (region_at 110 10) b /\ ~ set_covers sample_regions b.
Proof.
  split; [by vm_compute|].
  apply (is_in_mapping_set_exact sample_regions (region_at 110 10) sample_regions_ok ltac:(by vm_compute)).
  by vm_compute.
Defined.
