(* ===== verification/Core.v ===== *)
(** What the tool uses of Valgrind's core besides the ordered set: the running
    thread, the execution context of the current instruction, the command
    line's verbosity, and the messages.

    The values the core computes (the thread id, the contexts) are fields of a
    record the tool only reads; the tool's own global [db_pmem_store_index] and
    its output are kept beside them, because every component uses them. *)
From S2P Require Import Prelude OSet Region.

(** An argument of a format string. *)
Inductive arg : Type :=
  | Num (w : Z)
  | Str (s : string).

(** A piece of output: [VG_(umsg)], [VG_(dmsg)], [VG_(emit)], a call of
    [VG_(pp_ExeContext)], [VG_(gdb_printf)]. *)
Inductive msg : Type :=
  | Umsg (fmt : string) (args : list arg)
  | Dmsg (fmt : string) (args : list arg)
  | Emit (fmt : string) (args : list arg)
  | Gdb (fmt : string) (args : list arg)
  | PpExeContext (c : context_ptr)
  | MessageFlush.

#[export] Instance arg_eq_dec : EqDecision arg.
Proof. solve_decision. Defined.

#[export] Instance msg_eq_dec : EqDecision msg.
Proof. solve_decision. Defined.

Record globals : Type := mkGlobals {
  running_tid : Z;
  exe_context : context_ptr;
  clo_verbosity : Z;
  db_pmem_store_index : Z;
  output : list msg;
}.

Definition set_db_pmem_store_index (x : Z) (g : globals) : globals :=
  mkGlobals (running_tid g) (exe_context g) (clo_verbosity g) x (output g).

(** Output is kept latest first. *)
Definition put_msg (m : msg) (g : globals) : globals :=
  mkGlobals (running_tid g) (exe_context g) (clo_verbosity g)
    (db_pmem_store_index g) (m :: output g).

(** A state that contains the globals. *)
Class HasGlobals (St : Type) := {
  the_globals : St -> globals;
  with_globals : globals -> St -> St;
}.

Class GlobalsLaws (St : Type) `{HasGlobals St} : Prop := {
  globals_put g s : the_globals (with_globals g s) = g;
  globals_get s : with_globals (the_globals s) s = s;
}.

#[export] Instance has_globals_self : HasGlobals globals :=
  {| the_globals g := g; with_globals g _ := g |}.

#[export] Instance globals_laws_self : GlobalsLaws globals.
Proof. by split. Qed.

Section Calls.
Context {St : Type} `{HasGlobals St}.

Definition say (m : msg) : M St unit :=
  modM (fun s => with_globals (put_msg m (the_globals s)) s).

Definition umsg (fmt : string) (args : list arg) : M St unit := say (Umsg fmt args).
Definition dmsg (fmt : string) (args : list arg) : M St unit := say (Dmsg fmt args).
Definition emit (fmt : string) (args : list arg) : M St unit := say (Emit fmt args).
Definition gdb_printf (fmt : string) (args : list arg) : M St unit := say (Gdb fmt args).
Definition pp_ExeContext (c : context_ptr) : M St unit := say (PpExeContext c).
Definition message_flush : M St unit := say MessageFlush.

Definition get_running_tid : M St Z := getsM (fun s => running_tid (the_globals s)).

(** [VG_(record_ExeContext)] for the running thread. *)
Definition record_ExeContext : M St context_ptr :=
  getsM (fun s => exe_context (the_globals s)).
End Calls.

(** [for (i = 0; i < n; ++i)] over the registered events of an array, with
    their indices. *)
Fixpoint for_events {St A : Type} (body : Z -> A -> M St unit) (i : Z) (evs : list A)
    : M St unit :=
  match evs with
  | [] => retM tt
  | x :: evs => (body i x ;;; for_events body (i + 1) evs)%pm
  end.

(** [while ((x = next()) != NULL) body(x);] given [fuel] iterations; [acc] is
    the local variable the body assigns. *)
Fixpoint fold_next {St A B : Type} (fuel : nat) (next : M St (option A)) (acc : B)
    (body : B -> A -> M St B) : M St B :=
  match fuel with
  | O => stopM OutOfFuel
  | S fuel =>
      (x <- next ;;
       match x with
       | None => retM acc
       | Some a => acc <- body acc a ;; fold_next fuel next acc body
       end)%pm
  end.

Definition while_next {St A : Type} (fuel : nat) (next : M St (option A))
    (body : A -> M St unit) : M St unit :=
  fold_next fuel next tt (fun _ => body).

(** A loop that has ended ends in the same way with more iterations. *)
Lemma fold_next_more {St A B : Type} (fuel fuel' : nat) (next : M St (option A)) (body : B -> A -> M St B) :
  forall acc s r s', fold_next fuel next acc body s = Ok r s' -> (fuel <= fuel')%nat ->
  fold_next fuel' next acc body s = Ok r s'.
Proof.
  revert fuel'. induction fuel as [|fuel IH]; intros fuel' acc s r s' Heq Hle; [done|].
  destruct fuel' as [|fuel']; [lia|]. cbn [fold_next] in *. unfold bindM in *.
  destruct (next s) as [[a|] s1|]; [|done|done]. destruct (body acc a s1) as [acc' s2|]; [|done].
  apply (IH fuel'); [done|lia].
Qed.
