(* ===== verification/Trans.v ===== *)
(** Transactions: pmc_tx.c.

    The state of the module is the record [transaction_ops] next to the
    globals.  A pointer to a [struct tx_info] or [struct thread_info] is the
    identity of its node in the ordered set that owns it; the structure behind
    it is read by [tx_deref]/[thread_deref] and assigned by [OSetGen_Update].
    The event registers are arrays filled from the front: lists. *)
From S2P Require Import Prelude OSet Region Core.
Local Open Scope Z_scope.
Local Open Scope pm_scope.

Definition MAX_OOT_STORES : Z := 10000.
Definition MAX_CROSS_EVS : Z := 1000.

(** Transaction descriptor. *)
Record tx_info : Type := mkTx {
  tx_id : Z;
  counter : Z;
  tx_context : context_ptr;
  regions : region_set;
  cached_region : pmem_st;
}.

Definition set_counter (c : Z) (t : tx_info) : tx_info :=
  mkTx (tx_id t) c (tx_context t) (regions t) (cached_region t).
Definition set_regions (r : region_set) (t : tx_info) : tx_info :=
  mkTx (tx_id t) (counter t) (tx_context t) r (cached_region t).
Definition set_cached_region (r : pmem_st) (t : tx_info) : tx_info :=
  mkTx (tx_id t) (counter t) (tx_context t) (regions t) r.

(** Thread to transaction descriptor. *)
Record thread_info : Type := mkThread {
  thread_id : Z;
  tx_ids : OSet Z Z;
}.

Definition set_tx_ids (s : OSet Z Z) (t : thread_info) : thread_info :=
  mkThread (thread_id t) s.

(** Both are kept in sets without a comparison function, which compare the
    first word: the id. *)
#[export] Instance keyed_tx_info : Keyed Z tx_info :=
  {| key_of := tx_id; word_of_key w := w; word_of_elem := tx_id |}.

#[export] Instance keyed_thread_info : Keyed Z thread_info :=
  {| key_of := thread_id; word_of_key w := w; word_of_elem := thread_id |}.

(** The cross-transaction object registration event. *)
Record cross_tx_event : Type := mkCross {
  original : pmem_st;
  orig_tx_id : Z;
  duplicate : pmem_st;
  dup_tx_id : Z;
}.

Record redundant_logging_tx_event : Type := mkRedundant {
  red_original : pmem_st;
  red_tx_id : Z;
  red_duplicate : pmem_st;
}.

(** Transaction related parameters and runtime data. *)
Record transaction_ops : Type := mkTrans {
  transactions : OSet Z tx_info;
  threads : OSet Z thread_info;
  oot_stores : list pmem_st;
  verbose : bool;
  transactions_only : bool;
  excludes : region_set;
  cross_tx_evs : list cross_tx_event;
  redundant_logging_tx_evs : list redundant_logging_tx_event;
  tree_reorganization : bool;
  redundant_logging : bool;
  print_bug_detail : bool;
}.

Definition oot_stores_reg (t : transaction_ops) : Z := Z.of_nat (length (oot_stores t)).
Definition cross_tx_reg (t : transaction_ops) : Z := Z.of_nat (length (cross_tx_evs t)).
Definition redundant_logging_tx_reg (t : transaction_ops) : Z :=
  Z.of_nat (length (redundant_logging_tx_evs t)).

Definition set_transactions (x : OSet Z tx_info) (t : transaction_ops) : transaction_ops :=
  mkTrans x (threads t) (oot_stores t) (verbose t) (transactions_only t) (excludes t)
    (cross_tx_evs t) (redundant_logging_tx_evs t) (tree_reorganization t)
    (redundant_logging t) (print_bug_detail t).
Definition set_threads (x : OSet Z thread_info) (t : transaction_ops) : transaction_ops :=
  mkTrans (transactions t) x (oot_stores t) (verbose t) (transactions_only t) (excludes t)
    (cross_tx_evs t) (redundant_logging_tx_evs t) (tree_reorganization t)
    (redundant_logging t) (print_bug_detail t).
Definition set_oot_stores (x : list pmem_st) (t : transaction_ops) : transaction_ops :=
  mkTrans (transactions t) (threads t) x (verbose t) (transactions_only t) (excludes t)
    (cross_tx_evs t) (redundant_logging_tx_evs t) (tree_reorganization t)
    (redundant_logging t) (print_bug_detail t).
Definition set_excludes (x : region_set) (t : transaction_ops) : transaction_ops :=
  mkTrans (transactions t) (threads t) (oot_stores t) (verbose t) (transactions_only t) x
    (cross_tx_evs t) (redundant_logging_tx_evs t) (tree_reorganization t)
    (redundant_logging t) (print_bug_detail t).
Definition set_cross_tx_evs (x : list cross_tx_event) (t : transaction_ops) : transaction_ops :=
  mkTrans (transactions t) (threads t) (oot_stores t) (verbose t) (transactions_only t)
    (excludes t) x (redundant_logging_tx_evs t) (tree_reorganization t)
    (redundant_logging t) (print_bug_detail t).
Definition set_redundant_logging_tx_evs (x : list redundant_logging_tx_event)
    (t : transaction_ops) : transaction_ops :=
  mkTrans (transactions t) (threads t) (oot_stores t) (verbose t) (transactions_only t)
    (excludes t) (cross_tx_evs t) x (tree_reorganization t)
    (redundant_logging t) (print_bug_detail t).

(** * The state and the accesses to it *)

Record tx_state : Type := mkTxState {
  glob : globals;
  trans : transaction_ops;
}.

#[export] Instance has_globals_tx : HasGlobals tx_state :=
  {| the_globals := glob; with_globals g s := mkTxState g (trans s) |}.

#[export] Instance globals_laws_tx : GlobalsLaws tx_state.
Proof. split; [done|by intros []]. Qed.

Abbreviation T := (M tx_state).

(** Read and write a field of [trans]. *)
Definition get {A} (f : transaction_ops -> A) : T A := getsM (fun s => f (trans s)).

Definition put {A} (f : A -> transaction_ops -> transaction_ops) (a : A) : T unit :=
  modM (fun s => mkTxState (glob s) (f a (trans s))).

(** The structure behind a pointer returned by the set. *)
Definition tx_deref (p : nat) : T tx_info :=
  set <- get transactions ;; liftM NullDeref (OSetGen_Deref set p).

Definition thread_deref (p : nat) : T thread_info :=
  set <- get threads ;; liftM NullDeref (OSetGen_Deref set p).

(** Assignments to the structure behind a pointer. *)
Definition tx_assign (p : nat) (f : tx_info -> tx_info) : T unit :=
  set <- get transactions ;; put set_transactions (OSetGen_Update set p f).

Definition thread_assign (p : nat) (f : thread_info -> thread_info) : T unit :=
  set <- get threads ;; put set_threads (OSetGen_Update set p f).

(** [VG_(OSetGen_Lookup)]: a pointer, or a null pointer. *)
Definition tx_lookup (id : Z) : T (option nat) :=
  set <- get transactions ;; retM (fst <$> OSetGen_LookupNode set id).

Definition thread_lookup (id : Z) : T (option nat) :=
  set <- get threads ;; retM (fst <$> OSetGen_LookupNode set id).

(** [VG_(OSetGen_ResetIter)] and [VG_(OSetGen_Next)] on the two sets. *)
Definition tx_reset : T unit :=
  set <- get transactions ;;
  set' <- liftM AssertFail (OSetGen_ResetIter set) ;; put set_transactions set'.

Definition tx_next : T (option (nat * tx_info)) :=
  set <- get transactions ;;
  p <- liftM AssertFail (OSetGen_Next set) ;;
  put set_transactions (snd p) ;;; retM (fst p).

Definition thread_reset : T unit :=
  set <- get threads ;;
  set' <- liftM AssertFail (OSetGen_ResetIter set) ;; put set_threads set'.

Definition thread_next : T (option (nat * thread_info)) :=
  set <- get threads ;;
  p <- liftM AssertFail (OSetGen_Next set) ;;
  put set_threads (snd p) ;;; retM (fst p).

(** The rounds a loop over a set is given: one per element, and the last. *)
Definition rounds {K E} (set : OSet K E) : nat := S (tree_size (root set)).

(** [while (VG_(OSetWord_Next)(set, &w)) if (body(w)) return;]: the set with
    its iterator moved on, and whether the body has returned. *)
Fixpoint while_word (fuel : nat) (set : OSet Z Z) (body : Z -> T bool) : T (bool * OSet Z Z) :=
  match fuel with
  | O => stopM OutOfFuel
  | S fuel =>
      p <- liftM AssertFail (OSetWord_Next set) ;;
      match fst p with
      | None => retM (false, snd p)
      | Some w =>
          b <- body w ;;
          if (b : bool) then retM (true, snd p) else while_word fuel (snd p) body
      end
  end.

(** The same loop over the transaction ids of the thread behind [p]; the body
    does not touch that set. *)
Definition for_tx_ids (p : nat) (body : Z -> T bool) : T bool :=
  t <- thread_deref p ;;
  ids <- liftM AssertFail (OSetGen_ResetIter (tx_ids t)) ;;
  r <- while_word (rounds ids) ids body ;;
  thread_assign p (set_tx_ids (snd r)) ;;; retM (fst r).

(** Initialize the transactions module. *)
Definition init_transactions (transactions_only tree_reorganization redundant_logging
    print_bug_detail : bool) : T unit :=
  v <- getsM (fun s => clo_verbosity (glob s)) ;;
  modM (fun s => mkTxState (glob s)
    (mkTrans (OSetGen_Create None) (OSetGen_Create None) [] (1 <? v) transactions_only
       (OSetGen_Create (Some cmp_pmem_st)) [] [] tree_reorganization redundant_logging
       print_bug_detail)).

(** * Messages *)

(** Debug print all threads and their transactions. *)
Definition print_thread_transactions : T unit :=
  v <- get verbose ;;
  if negb v then retM tt else
  dmsg "Printing thread transactions\n" [] ;;;
  thread_reset ;;;
  set <- get threads ;;
  while_next (rounds set) thread_next (fun elem =>
    dmsg "Thread: %lu\n" [Num (thread_id (snd elem))] ;;;
    _ <- for_tx_ids (fst elem) (fun tmp => dmsg "tx: %lu\n" [Num tmp] ;;; retM false) ;;
    retM tt).

(** Debug print all active transactions. *)
Definition print_running_transactions : T unit :=
  v <- get verbose ;;
  if negb v then retM tt else
  dmsg "Printing running transactions\n" [] ;;;
  tx_reset ;;;
  set <- get transactions ;;
  while_next (rounds set) tx_next (fun tmp_tx =>
    dmsg "tx: %lu\t nesting: %lu\n" [Num (tx_id (snd tmp_tx)); Num (counter (snd tmp_tx))]).

(** Where the contexts are printed. *)
Definition pp_context (c : context_ptr) : T unit :=
  t <- get tree_reorganization ;; d <- get print_bug_detail ;;
  whenM (t || d) (pp_ExeContext c).

Definition region_next (p : nat) : T (option (nat * pmem_st)) :=
  tx <- tx_deref p ;;
  r <- liftM AssertFail (OSetGen_Next (regions tx)) ;;
  tx_assign p (set_regions (snd r)) ;;; retM (fst r).

(** Debug print regions registered in a transaction.  A missing transaction is
    reported, and then dereferenced. *)
Definition print_regions (id : Z) : T unit :=
  v <- get verbose ;;
  if negb v then retM tt else
  tx <- tx_lookup id ;;
  match tx with
  | None => dmsg "Transaction %lu does not exist\n" [Num id] ;;; stopM NullDeref
  | Some p =>
      tx <- tx_deref p ;;
      set <- liftM AssertFail (OSetGen_ResetIter (regions tx)) ;;
      tx_assign p (set_regions set) ;;;
      while_next (rounds set) (region_next p) (fun tmp =>
        dmsg "\tAddress 0x%lx\tsize %llu\n" [Num (addr (snd tmp)); Num (size (snd tmp))] ;;;
        pp_context (context (snd tmp)))
  end.

Definition print_event_region (r : pmem_st) (id : Z) : T unit :=
  pp_context (context r) ;;;
  umsg "\tAddress: 0x%lx\tsize: %llu\ttx_id: %lu\n" [Num (addr r); Num (size r); Num id].

(** Print cross-transaction region register events. *)
Definition print_cross_evs : T unit :=
  n <- get cross_tx_reg ;;
  if n =? 0 then retM tt else
  umsg "\n" [] ;;;
  umsg "Number of overlapping regions registered in different transactions: %lu\n" [Num n] ;;;
  umsg "Overlapping regions:\n" [] ;;;
  evs <- get cross_tx_evs ;;
  for_events (fun i tmp =>
    umsg "[%d] " [Num i] ;;;
    print_event_region (duplicate tmp) (dup_tx_id tmp) ;;;
    umsg "   First registered here:\n[%d]'" [Num i] ;;;
    print_event_region (original tmp) (orig_tx_id tmp)) 0 evs.

Definition print_redundant_logging_evs : T unit :=
  n <- get redundant_logging_tx_reg ;;
  if n =? 0 then retM tt else
  umsg "\n" [] ;;;
  umsg "Number of overlapping regions registered in a same transactions: %lu\n" [Num n] ;;;
  umsg "Overlapping regions:\n" [] ;;;
  evs <- get redundant_logging_tx_evs ;;
  for_events (fun i tmp =>
    umsg "[%d] " [Num i] ;;;
    print_event_region (red_duplicate tmp) (red_tx_id tmp) ;;;
    umsg "   First registered here:\n[%d]'" [Num i] ;;;
    print_event_region (red_original tmp) (red_tx_id tmp)) 0 evs.

Definition print_cross_error : T unit :=
  umsg "Number of overlapping regions registered in different transactions exceeded %lu\n\n"
    [Num MAX_CROSS_EVS] ;;;
  umsg "This means your program is tracking the same memory regions within different transactions. This is a potential data consistency issue.\n" [] ;;;
  message_flush ;;;
  print_cross_evs.

Definition print_redundant_logging_error : T unit :=
  umsg "Number of overlapping regions registered in a same transaction exceeded %lu\n\n"
    [Num MAX_CROSS_EVS] ;;;
  umsg "This means your program is tracking the same memory regions within a same transactions. This is a potential performance issue.\n" [] ;;;
  message_flush ;;;
  print_redundant_logging_evs.

(** The loop over the active transactions, numbered from [idx]. *)
Fixpoint print_active (fuel : nat) (idx : Z) : T unit :=
  match fuel with
  | O => stopM OutOfFuel
  | S fuel =>
      tmp_tx <- tx_next ;;
      match tmp_tx with
      | None => retM tt
      | Some (_, tmp_tx) =>
          umsg "[%lu] " [Num idx] ;;;
          pp_context (tx_context tmp_tx) ;;;
          umsg "\ttx_id: %lu\t nesting: %lu\n" [Num (tx_id tmp_tx); Num (counter tmp_tx)] ;;;
          print_active fuel (idx + 1)
      end
  end.

(** Print the summary of transaction analysis. *)
Definition print_tx_summary : T unit :=
  n <- get oot_stores_reg ;;
  whenM (negb (n =? 0))
    (umsg "\n" [] ;;;
     umsg "Number of stores made without adding to transaction: %lu\n" [Num n] ;;;
     umsg "Stores made without adding to transactions:\n" [] ;;;
     evs <- get oot_stores ;;
     for_events (fun i tmp =>
       umsg "[%d] " [Num i] ;;;
       pp_context (context tmp) ;;;
       umsg "\tAddress: 0x%lx\tsize: %llu\n" [Num (addr tmp); Num (size tmp)]) 0 evs) ;;;
  print_cross_evs ;;;
  print_redundant_logging_evs ;;;
  set <- get transactions ;;
  let active_txs := OSetGen_Size set in
  if active_txs =? 0 then retM tt else
  umsg "\n" [] ;;;
  umsg "Number of active transactions: %lu\n" [Num active_txs] ;;;
  tx_reset ;;;
  print_active (rounds set) 0.

Definition get_tx_all_err : T Z :=
  set <- get transactions ;;
  oot <- get oot_stores_reg ;; cross <- get cross_tx_reg ;;
  red <- get redundant_logging_tx_reg ;;
  retM (oot + cross + OSetGen_Size set + red).

(** Print out the error message on OOT stores overflow. *)
Definition print_tx_err_msg (limit : Z) : T unit :=
  umsg "The number of out of transaction stores exceeded %lu\n\n" [Num limit] ;;;
  umsg "This means your applications is changing objects that are not tracked by the ongoing transaction. This may lead to an inconsistent state of persistent memory.\n" [] ;;;
  message_flush ;;;
  print_tx_summary.

(** * Events *)

(** Register a cross-transaction region registration event. *)
Definition register_cross_event (orig : pmem_st) (orig_tx : Z) (dup : pmem_st) (dup_tx : Z)
    : T unit :=
  n <- get cross_tx_reg ;;
  if n =? MAX_CROSS_EVS then print_cross_error ;;; stopM ExitMinus1
  else
    evs <- get cross_tx_evs ;;
    put set_cross_tx_evs (evs ++ [mkCross orig orig_tx dup dup_tx]).

Definition register_redundant_logging_event (orig dup : pmem_st) (id : Z) : T unit :=
  n <- get redundant_logging_tx_reg ;;
  if n =? MAX_CROSS_EVS then print_redundant_logging_error ;;; stopM ExitMinus1
  else
    evs <- get redundant_logging_tx_evs ;;
    put set_redundant_logging_tx_evs (evs ++ [mkRedundant orig id dup]).

(** * Threads and transactions *)

(** Get or create and get a thread entry. *)
Definition create_get_thread_entry (tid : Z) : T nat :=
  set <- get threads ;;
  whenM (negb (OSetGen_Contains set tid))
    (set' <- liftM AssertFail (OSetGen_Insert set (mkThread tid OSetWord_Create)) ;;
     put set_threads set') ;;;
  p <- thread_lookup tid ;; liftM NullDeref p.

(** Check if the store is exactly the same region as the cached one. *)
Definition is_in_cache (store : pmem_st) (tx : tx_info) : bool :=
  (addr store =? addr (cached_region tx)) && (size store =? size (cached_region tx)).

(** Add the transaction id to the set of the thread behind [p]. *)
Definition thread_add_tx (p : nat) (id : Z) : T unit :=
  tinfo <- thread_deref p ;;
  whenM (negb (OSetWord_Contains (tx_ids tinfo) id))
    (ids <- liftM AssertFail (OSetWord_Insert (tx_ids tinfo) id) ;;
     thread_assign p (set_tx_ids ids)).

(** Add a new transaction, or nest one that is running. *)
Definition register_new_tx (id : Z) : T unit :=
  tid <- get_running_tid ;;
  set <- get transactions ;;
  whenM (negb (OSetGen_Contains set id))
    (c <- record_ExeContext ;;
     let new_tx := mkTx id 0 c (OSetGen_Create (Some cmp_pmem_st)) pmem_st_zero in
     set' <- liftM AssertFail (OSetGen_Insert set new_tx) ;;
     put set_transactions set') ;;;
  tinfo <- create_get_thread_entry tid ;;
  thread_add_tx tinfo id ;;;
  txinf <- (p <- tx_lookup id ;; liftM NullDeref p) ;;
  tx_assign txinf (fun t => set_counter (wadd (counter t) 1) t) ;;;
  v <- get verbose ;;
  whenM v
    (t <- tx_deref txinf ;;
     dmsg "Starting transaction: %lu, nesting %lu\n" [Num id; Num (counter t)]) ;;;
  print_running_transactions.

Definition is_nest_trans (id : Z) : T bool :=
  p <- tx_lookup id ;;
  match p with
  | None => retM false
  | Some p => txinf <- tx_deref p ;; retM (1 <? counter txinf)
  end.

(** Remove the given thread entry from the active thread register.  The set of
    its transaction ids is destroyed, which asserts on its number of
    elements. *)
Definition remove_thread_entry (p : nat) : T unit :=
  entry <- thread_deref p ;;
  set <- get threads ;;
  whenM (OSetGen_Contains set (thread_id entry))
    (r <- liftM AssertFail (OSetGen_Remove set (thread_id entry)) ;;
     put set_threads (snd r) ;;;
     _ <- liftM AssertFail (OSetGen_Destroy (tx_ids entry)) ;;
     retM tt).

(** The body of the loop of [remove_tx] over the threads. *)
Definition remove_tx_thread (id : Z) (elem : nat * thread_info) : T unit :=
  r <- liftM AssertFail (OSetWord_Remove (tx_ids (snd elem)) id) ;;
  thread_assign (fst elem) (set_tx_ids (snd r)) ;;;
  whenM (OSetGen_Size (snd r) =? 0) (remove_thread_entry (fst elem)).

(** Remove a transaction. *)
Definition remove_tx (id : Z) : T Z :=
  p <- tx_lookup id ;;
  match p with
  | None => umsg "========remove_tx NULL==========\n" [] ;;; retM 1
  | Some p =>
      tx_assign p (fun t => set_counter (wsub (counter t) 1) t) ;;;
      tx <- tx_deref p ;;
      if 0 <? counter tx then retM 0 else
      thread_reset ;;;
      set <- get threads ;;
      while_next (rounds set) thread_next (remove_tx_thread id) ;;;
      tx <- tx_deref p ;;
      _ <- liftM AssertFail (OSetGen_Destroy (regions tx)) ;;
      txs <- get transactions ;;
      r <- liftM AssertFail (OSetGen_Remove txs id) ;;
      put set_transactions (snd r) ;;;
      retM 0
  end.

(** Check if the running thread contributes to a given transaction. *)
Definition is_tx_in_thread (id : Z) : T bool :=
  tid <- get_running_tid ;;
  p <- thread_lookup tid ;;
  match p with
  | None =>
      v <- get verbose ;;
      whenM v (dmsg "thread %lu not part of any transaction\n" [Num tid]) ;;;
      retM false
  | Some p => tinfo <- thread_deref p ;; retM (OSetWord_Contains (tx_ids tinfo) id)
  end.

(** * Regions of a transaction *)

(** [add_region] and [remove_region] on the regions of the transaction behind
    [p]; the second uses the global store index. *)
Definition tx_add_region (p : nat) (r : pmem_st) : T unit :=
  tx <- tx_deref p ;;
  set <- liftM AssertFail (add_region r (regions tx)) ;;
  tx_assign p (set_regions set).

Definition tx_remove_region (p : nat) (r : pmem_st) : T unit :=
  tx <- tx_deref p ;;
  g <- getsM glob ;;
  res <- liftM AssertFail (remove_region r (regions tx) (db_pmem_store_index g)) ;;
  tx_assign p (set_regions (fst res)) ;;;
  modM (fun s => mkTxState (set_db_pmem_store_index (snd res) (glob s)) (trans s)).

(** [tx->cached_region.addr = 0; tx->cached_region.size = 0;] *)
Definition clear_cache (t : tx_info) : tx_info :=
  set_cached_region (set_size 0 (set_addr 0 (cached_region t))) t.

(** Flush tx cache to main region tree. *)
Definition flush_cache (p : nat) : T unit :=
  tx <- tx_deref p ;;
  if (addr (cached_region tx) =? 0) && (size (cached_region tx) =? 0) then retM tt
  else tx_add_region p (cached_region tx) ;;; tx_assign p clear_cache.

(** Where an object overlaps a transaction: its cached region, or one of its
    regions. *)
Definition overlapped (reg : pmem_st) (tx : tx_info) : option (option pmem_st) :=
  if cmp_pmem_st reg (cached_region tx) =? 0 then Some (Some (cached_region tx))
  else if negb (is_in_mapping_set reg (regions tx) =? 0)
       then Some (OSetGen_Lookup (regions tx) reg)
  else None.

(** The body of the loop of [add_obj_to_tx] over the transactions. *)
Definition add_obj_check (reg : pmem_st) (id : Z) (tx_iter : nat * tx_info) : T unit :=
  let tx := snd tx_iter in
  red <- get redundant_logging ;;
  if (tx_id tx =? id) && negb red then retM tt
  else match overlapped reg tx with
       | None => retM tt
       | Some orig =>
           orig <- liftM NullDeref orig ;;
           if tx_id tx =? id then register_redundant_logging_event orig reg id
           else register_cross_event orig (tx_id tx) reg id
       end.

(** The transaction of an object operation: its pointer, or the code of the
    error. *)
Definition find_tx (id : Z) : T (nat + Z) :=
  p <- tx_lookup id ;;
  match p with
  | None =>
      v <- get verbose ;;
      whenM v (dmsg "no matching transaction found\n" []) ;;;
      retM (inr 1)
  | Some p =>
      b <- is_tx_in_thread id ;;
      if (b : bool) then retM (inl p)
      else
        v <- get verbose ;;
        whenM v (dmsg "this thread does not participate in this transaction\n" []) ;;;
        print_running_transactions ;;;
        print_thread_transactions ;;;
        retM (inr 2)
  end.

(** Make place for [reg] in the cache of the transaction. *)
Definition make_place (p : nat) (reg : pmem_st) : T unit :=
  tx <- tx_deref p ;;
  if negb (addr (cached_region tx) =? 0) && negb (size (cached_region tx) =? 0) then
    let overlap := check_overlap (cached_region tx) reg in
    if overlap =? 0 then flush_cache p
    else if overlap =? 2 then flush_cache p ;;; tx_remove_region p reg
    else retM tt
  else retM tt.

(** Add a memory region to a transaction. *)
Definition add_obj_to_tx (id base sz : Z) : T Z :=
  r <- find_tx id ;;
  match r with
  | inr e => retM e
  | inl p =>
      c <- record_ExeContext ;;
      let reg := set_context c (region_at base sz) in
      tx_reset ;;;
      set <- get transactions ;;
      while_next (rounds set) tx_next (add_obj_check reg id) ;;;
      make_place p reg ;;;
      tx_assign p (set_cached_region reg) ;;;
      retM 0
  end.

(** Remove a registered region from the given transaction. *)
Definition remove_obj_from_tx (id base sz : Z) : T Z :=
  r <- find_tx id ;;
  match r with
  | inr e => retM e
  | inl p =>
      let reg := region_at base sz in
      tx <- tx_deref p ;;
      if is_in_cache reg tx then tx_assign p clear_cache ;;; retM 0
      else
        whenM (cmp_pmem_st reg (cached_region tx) =? 0)
          (tx_add_region p (cached_region tx)) ;;;
        tx_remove_region p reg ;;;
        retM 0
  end.

(** * Stores *)

(** Check if the given store is registered in the transaction. *)
Definition is_store_in_tx (store : pmem_st) (id : Z) : T bool :=
  p <- tx_lookup id ;;
  match p with
  | None =>
      v <- get verbose ;;
      whenM v (dmsg "no matching transaction found\n" []) ;;;
      retM false
  | Some p =>
      tx <- tx_deref p ;;
      if check_overlap store (cached_region tx) =? 1 then retM true
      else
        flush_cache p ;;;
        tx <- tx_deref p ;;
        retM (is_in_mapping_set store (regions tx) =? 1)
  end.

(** Print the regions of the transactions of a thread. *)
Definition print_thread_regions (tinfo : nat) : T unit :=
  _ <- for_tx_ids tinfo (fun id => print_regions id ;;; retM false) ;; retM tt.

(** Record an out-of-transaction store; [tinfo] may be a null pointer. *)
Definition record_store (store : pmem_st) (tinfo : option nat) : T unit :=
  evs <- get oot_stores ;;
  match add_warning_event evs store MAX_OOT_STORES with
  | None => print_tx_err_msg MAX_OOT_STORES ;;; stopM ExitMinus1
  | Some evs => put set_oot_stores evs
  end ;;;
  v <- get verbose ;;
  whenM v
    (dmsg "Store outside of transaction\n\taddress 0x%lx\tsize %llu\n"
       [Num (addr store); Num (size store)] ;;;
     dmsg "Registered objects:\n" [] ;;;
     p <- liftM NullDeref tinfo ;;
     print_thread_regions p).

(** Handle the store made to PMEM in regards to running transactions. *)
Definition handle_tx_store (store : pmem_st) : T unit :=
  excl <- get excludes ;;
  if is_in_mapping_set store excl =? 1 then retM tt else
  tid <- get_running_tid ;;
  tinfo <- thread_lookup tid ;;
  match tinfo with
  | None =>
      only <- get transactions_only ;;
      whenM only (record_store store None) ;;;
      v <- get verbose ;;
      whenM v (dmsg "thread is not part of any transaction\n" [])
  | Some p =>
      found <- for_tx_ids p (is_store_in_tx store) ;;
      if (found : bool) then retM tt
      else
        v <- get verbose ;;
        whenM v (print_thread_regions p) ;;;
        record_store store (Some p)
  end.

(** * Threads of a transaction *)

(** Explicitly add a thread to a transaction. *)
Definition add_thread_to_tx (id : Z) : T Z :=
  set <- get transactions ;;
  if negb (OSetGen_Contains set id) then
    v <- get verbose ;;
    whenM v (dmsg "no matching transaction found\n" []) ;;;
    retM 1
  else
    tid <- get_running_tid ;;
    tinfo <- create_get_thread_entry tid ;;
    thread_add_tx tinfo id ;;;
    retM 0.

(** Explicitly remove a thread from a transaction. *)
Definition remove_thread_from_tx (id : Z) : T Z :=
  r <- find_tx id ;;
  match r with
  | inr e => retM e
  | inl _ =>
      tid <- get_running_tid ;;
      tinfo <- (p <- thread_lookup tid ;; liftM NullDeref p) ;;
      t <- thread_deref tinfo ;;
      r <- liftM AssertFail (OSetWord_Remove (tx_ids t) id) ;;
      thread_assign tinfo (set_tx_ids (snd r)) ;;;
      retM 0
  end.

(** Add region to the global exclude list. *)
Definition add_to_global_excludes (region : pmem_st) : T unit :=
  excl <- get excludes ;;
  set <- liftM AssertFail (add_region region excl) ;;
  put set_excludes set.
