(* ===== verification/TransSpec.v ===== *)
(** Transactions: what a transaction tracks, and which stores are reported. *)
From S2P Require Import Prelude OSet OSetTree OSetSpec OSetWord OSetId Region RegionSpec Core Trans.
Local Open Scope pm_scope.

#[export] Instance id_keyed_tx : IdKeyed tx_info.
Proof. by split. Qed.

#[export] Instance id_keyed_thread : IdKeyed thread_info.
Proof. by split. Qed.

(** ** The bytes of a transaction *)

(** The cached region: none, or a region [add_region] can take. *)
Definition cached_ok (r : pmem_st) : Prop :=
  addr r = 0 /\ size r = 0 \/ 1 <= addr r /\ 0 < size r /\ addr r + size r + 1 < word_size.

Record tx_ok (t : tx_info) : Prop := {
  tx_regions : region_set_ok (regions t);
  tx_cached : cached_ok (cached_region t);
  tx_room : card (regions t) + (if size (cached_region t) =? 0 then 1 else 2) < iter_limit;
}.

(** The bytes a transaction has logged. *)
Definition tx_bytes (t : tx_info) (b : Z) : Prop :=
  covers (cached_region t) b \/ set_covers (regions t) b.

Lemma cached_region_ok r : cached_ok r -> 0 < size r -> region_ok r.
Proof. intros [[? ?]|?] ?; [lia|]. unfold region_ok. lia. Qed.

(** ** One transaction of the state *)

Definition set_txs (set : OSet Z tx_info) (s : tx_state) : tx_state :=
  mkTxState (glob s) (set_transactions set (trans s)).

Definition find_id (s : tx_state) (id : Z) : option tx_info :=
  snd <$> OSetGen_LookupNode (transactions (trans s)) id.

(** The transaction [id] is the one behind the pointer [p]. *)
Record tx_at (s : tx_state) (id : Z) (p : nat) (tx : tx_info) : Prop := {
  at_set : id_ok (transactions (trans s));
  at_node : OSetGen_LookupNode (transactions (trans s)) id = Some (p, tx);
}.

Lemma deref_at s id p tx : tx_at s id p tx -> tx_deref p s = Ok tx s.
Proof.
  intros [Hok Hl]. unfold tx_deref, get. step. by rewrite (id_deref _ id p tx Hok Hl).
Qed.

Definition keeps_id (f : tx_info -> tx_info) : Prop := forall t, tx_id (f t) = tx_id t.

Lemma assign_at s id p tx f :
  tx_at s id p tx -> keeps_id f ->
  exists s', tx_assign p f s = Ok tt s' /\ tx_at s' id p (f tx) /\
    s' = set_txs (OSetGen_Update (transactions (trans s)) p f) s /\
    forall id', id' <> id -> find_id s' id' = find_id s id'.
Proof.
  intros [Hok Hl] Hf. eexists. split; [reflexivity|]. split; [|split; [done|]].
  - split; [by apply id_update|]. simpl. rewrite (id_update_lookup _ id p tx f id Hok Hf Hl).
    by rewrite decide_True.
  - intros id' Hne. unfold find_id. simpl. rewrite (id_update_lookup _ id p tx f id' Hok Hf Hl).
    by rewrite decide_False.
Qed.

(** What an operation on one transaction may change: that transaction, and the
    index of stores. *)
Record only_tx (id : Z) (s s' : tx_state) : Prop := {
  ot_others id' : id' <> id -> find_id s' id' = find_id s id';
  ot_trans : exists set, trans s' = set_transactions set (trans s) /\
    card set = card (transactions (trans s));
  ot_glob : exists i, glob s' = set_db_pmem_store_index i (glob s);
}.

Lemma only_tx_refl id s : only_tx id s s.
Proof.
  split; [done| |].
  - exists (transactions (trans s)). split; [by destruct (trans s)|done].
  - exists (db_pmem_store_index (glob s)). by destruct (glob s).
Qed.

Lemma only_tx_trans id s1 s2 s3 : only_tx id s1 s2 -> only_tx id s2 s3 -> only_tx id s1 s3.
Proof.
  intros [A1 (x1 & A2 & A2') (i1 & A3)] [B1 (x2 & B2 & B2') (i2 & B3)]. split.
  - intros id' Hne. by rewrite B1, A1.
  - exists x2. rewrite B2, A2. split; [done|]. rewrite B2'. by rewrite A2.
  - exists i2. by rewrite B3, A3.
Qed.

Lemma assign_only s id p tx f :
  tx_at s id p tx -> keeps_id f ->
  exists s', tx_assign p f s = Ok tt s' /\ tx_at s' id p (f tx) /\ only_tx id s s'.
Proof.
  intros Hat Hf. destruct (assign_at s id p tx f Hat Hf) as (s' & Heq & Hat' & Hs' & Ho).
  exists s'. split; [done|]. split; [done|]. split; [done| |].
  - rewrite Hs'. eexists. split; [done|apply Update_card].
  - rewrite Hs'. exists (db_pmem_store_index (glob s)). by destruct s as [[] ?].
Qed.

(** ** Regions *)

Lemma tx_add_region_ok s id p tx r :
  tx_at s id p tx -> region_set_ok (regions tx) -> 1 <= addr r -> 0 < size r ->
  addr r + size r + 1 < word_size ->
  exists s' set, tx_add_region p r s = Ok tt s' /\ tx_at s' id p (set_regions set tx) /\
    only_tx id s s' /\ region_set_ok set /\ card set <= card (regions tx) + 1 /\
    forall b, set_covers set b <-> set_covers (regions tx) b \/ covers r b.
Proof.
  intros Hat Hset H1 H2 H3. unfold tx_add_region. rewrite (bind_ok _ _ _ _ _ (deref_at _ _ _ _ Hat)).
  assert (region_ok r) as Hr by (unfold region_ok; lia).
  destruct (add_region_correct (regions tx) r Hset Hr H1 H3) as (set & -> & Hset' & Hsz & Hcov). step.
  destruct (assign_only s id p tx (set_regions set) Hat) as (s' & Heq & Hat' & Ho); [done|].
  by exists s', set.
Qed.

Lemma tx_remove_region_ok s id p tx r :
  tx_at s id p tx -> region_set_ok (regions tx) -> region_ok r -> card (regions tx) + 1 < iter_limit ->
  exists s' set, tx_remove_region p r s = Ok tt s' /\ tx_at s' id p (set_regions set tx) /\
    only_tx id s s' /\ region_set_ok set /\
    forall b, set_covers set b <-> set_covers (regions tx) b /\ ~ covers r b.
Proof.
  intros Hat Hset Hr Hlim. unfold tx_remove_region. rewrite (bind_ok _ _ _ _ _ (deref_at _ _ _ _ Hat)). step.
  destruct (remove_region_correct (regions tx) r (db_pmem_store_index (glob s)) Hset Hr Hlim)
    as (set & idx & -> & Hset' & Hcov). step.
  destruct (assign_only s id p tx (set_regions set) Hat) as (s1 & Heq & Hat1 & Ho); [done|].
  cbn [fst snd]. rewrite (bind_ok _ _ _ _ _ Heq). eexists _, set. split; [reflexivity|].
  split; [by destruct Hat1|]. split; [|done]. apply (only_tx_trans id s s1); [done|].
  split; [done| |by exists idx]. exists (transactions (trans s1)). simpl. split; [by destruct (trans s1)|done].
Qed.

Lemma flush_cache_ok s id p tx :
  tx_at s id p tx -> tx_ok tx ->
  exists s' tx', flush_cache p s = Ok tt s' /\ tx_at s' id p tx' /\ only_tx id s s' /\
    addr (cached_region tx') = 0 /\ size (cached_region tx') = 0 /\ counter tx' = counter tx /\
    region_set_ok (regions tx') /\ card (regions tx') + 1 < iter_limit /\
    forall b, set_covers (regions tx') b <-> tx_bytes tx b.
Proof.
  intros Hat [Hset Hc Hroom]. unfold flush_cache. rewrite (bind_ok _ _ _ _ _ (deref_at _ _ _ _ Hat)).
  unfold tx_bytes, covers. destruct Hc as [[Ha Hs]|(Ha & Hs & He)].
  - rewrite Ha, Hs in *. simpl in *. exists s, tx. split; [done|]. split; [done|]. split; [apply only_tx_refl|].
    repeat (split; [done || lia|]). intros b. lia || (split; [by right|intros [?|?]; [lia|done]]).
  - rewrite !(proj2 (Z.eqb_neq _ 0)) in * by lia. cbn [andb].
    destruct (tx_add_region_ok s id p tx (cached_region tx)) as (s1 & set & Heq1 & Hat1 & Ho1 & Hset1 & Hsz1 & Hcov);
      try done.
    rewrite (bind_ok _ _ _ _ _ Heq1).
    destruct (assign_only s1 id p _ clear_cache Hat1) as (s2 & Heq2 & Hat2 & Ho2); [done|].
    exists s2. eexists. split; [done|]. split; [exact Hat2|]. split; [by apply (only_tx_trans id s s1)|].
    do 4 (split; [done|]). simpl. split; [lia|]. intros b. rewrite Hcov. unfold covers. tauto.
Qed.

Lemma make_place_ok s id p tx reg :
  tx_at s id p tx -> tx_ok tx -> 1 <= addr reg -> 0 < size reg -> addr reg + size reg + 1 < word_size ->
  exists s' tx', make_place p reg s = Ok tt s' /\ tx_at s' id p tx' /\ only_tx id s s' /\
    counter tx' = counter tx /\ region_set_ok (regions tx') /\
    forall b, set_covers (regions tx') b \/ covers reg b <-> tx_bytes tx b \/ covers reg b.
Proof.
  intros Hat Htx H1 H2 H3. pose proof Htx as [Hset Hc Hroom]. unfold make_place.
  assert (region_ok reg) as Hr by (unfold region_ok; lia).
  rewrite (bind_ok _ _ _ _ _ (deref_at _ _ _ _ Hat)).
  destruct Hc as [[Ha Hs]|(Ha & Hs & He)].
  { rewrite Ha. cbn [negb andb Z.eqb]. exists s, tx. split; [done|]. split; [done|].
    split; [apply only_tx_refl|]. split; [done|]. split; [done|].
    intros b. unfold tx_bytes, covers. rewrite Ha, Hs. split; [tauto|intros [[?|?]|?]; [lia|tauto|tauto]]. }
  rewrite !(proj2 (Z.eqb_neq _ 0)) by lia. cbn [negb andb].
  assert (region_ok (cached_region tx)) as Hcr by (unfold region_ok; lia).
  destruct (flush_cache_ok s id p tx Hat Htx)
    as (s1 & tx1 & Heq1 & Hat1 & Ho1 & _ & _ & Hct1 & Hset1 & Hsz1 & Hcov1).
  destruct (check_overlap_spec (cached_region tx) reg Hcr Hr) as [[-> _]|[[-> Hw]|[-> _]]]; cbn [Z.eqb Pos.eqb].
  - exists s1, tx1. repeat (split; [done|]). intros b. by rewrite Hcov1.
  - exists s, tx. repeat (split; [done || apply only_tx_refl|]). intros b.
    unfold tx_bytes, covers, within in *. intuition lia.
  - rewrite (bind_ok _ _ _ _ _ Heq1).
    destruct (tx_remove_region_ok s1 id p tx1 reg Hat1 Hset1 Hr) as (s2 & set & Heq2 & Hat2 & Ho2 & Hset2 & Hcov2);
      [lia|].
    exists s2. eexists. split; [done|]. split; [exact Hat2|]. split; [by apply (only_tx_trans id s s1)|].
    split; [done|]. split; [done|]. intros b. simpl. rewrite Hcov2, Hcov1.
    unfold covers. destruct (decide (addr reg <= b < addr reg + size reg)); tauto.
Qed.

(** ** Events *)

(** The region a new object overlaps in a transaction. *)
Definition overlap_of (reg : pmem_st) (tx : tx_info) : option pmem_st :=
  match overlapped reg tx with Some o => o | None => None end.

Lemma overlapped_found reg tx : overlapped reg tx = Some <$> overlap_of reg tx.
Proof.
  unfold overlap_of, overlapped. destruct (_ =? 0); [done|].
  unfold is_in_mapping_set, OSetGen_Contains. destruct (OSetGen_Lookup (regions tx) reg); simpl; [|done].
  by destruct (negb _).
Qed.

(** The events the registration of [reg] in the transaction [id] causes. *)
Definition cross_of (reg : pmem_st) (id : Z) (tx : tx_info) : list cross_tx_event :=
  if tx_id tx =? id then []
  else match overlap_of reg tx with Some o => [mkCross o (tx_id tx) reg id] | None => [] end.

Definition relogged_of (red : bool) (reg : pmem_st) (id : Z) (tx : tx_info)
    : list redundant_logging_tx_event :=
  if (tx_id tx =? id) && red
  then match overlap_of reg tx with Some o => [mkRedundant o id reg] | None => [] end
  else [].

(** A state with more events, and the iterator moved on. *)
Definition with_events (s : tx_state) (set : OSet Z tx_info) (cr : list cross_tx_event)
    (rl : list redundant_logging_tx_event) : tx_state :=
  mkTxState (glob s)
    (set_transactions set
      (set_cross_tx_evs (cross_tx_evs (trans s) ++ cr)
        (set_redundant_logging_tx_evs (redundant_logging_tx_evs (trans s) ++ rl) (trans s)))).

Definition events_fit (s : tx_state) (cr : list cross_tx_event) (rl : list redundant_logging_tx_event)
    : Prop :=
  Z.of_nat (length (cross_tx_evs (trans s) ++ cr)) <= MAX_CROSS_EVS /\
  Z.of_nat (length (redundant_logging_tx_evs (trans s) ++ rl)) <= MAX_CROSS_EVS.

Lemma add_obj_check_ok reg id n s :
  let red := redundant_logging (trans s) in
  let cr := cross_of reg id (snd n) in
  let rl := relogged_of red reg id (snd n) in
  events_fit s cr rl ->
  add_obj_check reg id n s = Ok tt (with_events s (transactions (trans s)) cr rl).
Proof.
  intros red cr rl [Hcr Hrl]. rewrite !length_app in *. unfold add_obj_check. step. fold red.
  assert (s = with_events s (transactions (trans s)) [] []) as Hsame.
  { destruct s as [g []]. unfold with_events. simpl. by rewrite !app_nil_r. }
  unfold cr, rl, cross_of, relogged_of in *. rewrite overlapped_found.
  destruct (tx_id (snd n) =? id); cbn [andb negb].
  - destruct red; cbn [andb negb]; [|by rewrite <-Hsame].
    destruct (overlap_of reg (snd n)) as [o|]; [|by rewrite <-Hsame]. cbn [fmap option_fmap option_map]. step.
    simpl in Hrl. unfold register_redundant_logging_event. step. unfold redundant_logging_tx_reg.
    rewrite (proj2 (Z.eqb_neq _ _)) by lia. step. unfold put, modM, with_events. f_equal.
    destruct s as [g []]. simpl. by rewrite app_nil_r.
  - destruct (overlap_of reg (snd n)) as [o|]; [|by rewrite <-Hsame]. cbn [fmap option_fmap option_map]. step.
    simpl in Hcr. unfold register_cross_event. step. unfold cross_tx_reg.
    rewrite (proj2 (Z.eqb_neq _ _)) by lia. step. unfold put, modM, with_events. f_equal.
    destruct s as [g []]. simpl. by rewrite app_nil_r.
Qed.

Abbreviation tx_view := (os_view (K := Z) (E := tx_info) fast_cmp (fun _ => True)).

Lemma with_events_app s set cr rl set' cr' rl' :
  with_events (with_events s set cr rl) set' cr' rl' = with_events s set' (cr ++ cr') (rl ++ rl').
Proof. unfold with_events. simpl. by rewrite <-!app_assoc. Qed.

Lemma tx_next_ok s ns rest :
  tx_view (transactions (trans s)) ns rest ->
  exists set', tx_next s = Ok (head rest) (set_txs set' s) /\ tx_view set' ns (tail rest).
Proof.
  intros Hv. destruct (view_next _ _ _ _ _ Hv) as (set' & Hnx & Hv'). exists set'. split; [|done].
  unfold tx_next. step. by rewrite Hnx.
Qed.

Definition all_cross (reg : pmem_st) (id : Z) (txs : list tx_info) : list cross_tx_event :=
  concat (map (cross_of reg id) txs).

Definition all_relogged (red : bool) (reg : pmem_st) (id : Z) (txs : list tx_info)
    : list redundant_logging_tx_event :=
  concat (map (relogged_of red reg id) txs).

Lemma add_obj_checks_ok reg id rem : forall dn s fuel,
  let red := redundant_logging (trans s) in
  let cr := all_cross reg id rem.*2 in
  let rl := all_relogged red reg id rem.*2 in
  tx_view (transactions (trans s)) (dn ++ rem) rem -> (length rem < fuel)%nat -> events_fit s cr rl ->
  exists set', while_next fuel tx_next (add_obj_check reg id) s = Ok tt (with_events s set' cr rl) /\
    tx_view set' (dn ++ rem) [].
Proof.
  induction rem as [|n rem IH]; intros dn s fuel red cr rl Hv Hfuel Hfit; unfold while_next in *;
    (destruct fuel as [|fuel]; [simpl in *; lia|]); cbn [fold_next];
    destruct (tx_next_ok s _ _ Hv) as (set1 & Hnext & Hv1);
    rewrite (bind_ok _ _ _ _ _ Hnext); cbn [head tail] in *.
  - exists set1. split; [|done]. unfold retM, cr, rl, with_events, set_txs. simpl.
    destruct s as [g []]. simpl. by rewrite !app_nil_r.
  - assert (cr = cross_of reg id (snd n) ++ all_cross reg id rem.*2) as Ecr by done.
    assert (rl = relogged_of red reg id (snd n) ++ all_relogged red reg id rem.*2) as Erl by done.
    destruct Hfit as [Hf1 Hf2]. rewrite Ecr, Erl in *. rewrite !length_app in *.
    rewrite (bind_ok _ _ _ _ _ (add_obj_check_ok reg id n (set_txs set1 s)
      ltac:(split; simpl; rewrite !length_app; fold red; lia))).
    set (s1 := with_events (set_txs set1 s) _ _ _).
    destruct (IH (dn ++ [n]) s1 fuel) as (set2 & -> & Hv2).
    + by rewrite <-app_assoc.
    + simpl in *; lia.
    + split; simpl; rewrite !length_app; fold red; lia.
    + exists set2. split; [|by rewrite <-app_assoc in Hv2]. f_equal. unfold s1.
      rewrite with_events_app. done.
Qed.

(** ** The running thread *)

(** The running thread takes part in the transaction. *)
Definition takes_part (s : tx_state) (id : Z) : Prop :=
  id_ok (threads (trans s)) /\
  exists q ti, OSetGen_LookupNode (threads (trans s)) (running_tid (glob s)) = Some (q, ti) /\
    OSetWord_Contains (tx_ids ti) id = true.

Lemma thread_lookup_ok s tid q ti :
  OSetGen_LookupNode (threads (trans s)) tid = Some (q, ti) -> thread_lookup tid s = Ok (Some q) s.
Proof. intros Hq. unfold thread_lookup. step. by rewrite Hq. Qed.

Lemma thread_deref_ok s tid q ti :
  id_ok (threads (trans s)) -> OSetGen_LookupNode (threads (trans s)) tid = Some (q, ti) ->
  thread_deref q s = Ok ti s.
Proof. intros Hth Hq. unfold thread_deref. step. by rewrite (id_deref _ _ _ _ Hth Hq). Qed.

Lemma tx_lookup_ok s id p tx : tx_at s id p tx -> tx_lookup id s = Ok (Some p) s.
Proof. intros [_ Hl]. unfold tx_lookup. step. by rewrite Hl. Qed.

Lemma is_tx_in_thread_ok s id : takes_part s id -> is_tx_in_thread id s = Ok true s.
Proof.
  intros (Hth & q & ti & Hq & Hc). unfold is_tx_in_thread.
  rewrite (bind_ok _ _ s (running_tid (glob s)) s) by done.
  rewrite (bind_ok _ _ _ _ _ (thread_lookup_ok _ _ _ _ Hq)).
  rewrite (bind_ok _ _ _ _ _ (thread_deref_ok _ _ _ _ Hth Hq)). by rewrite Hc.
Qed.

Lemma find_tx_ok s id p tx : tx_at s id p tx -> takes_part s id -> find_tx id s = Ok (inl p) s.
Proof.
  intros Hat Hth. unfold find_tx. rewrite (bind_ok _ _ _ _ _ (tx_lookup_ok _ _ _ _ Hat)).
  by rewrite (bind_ok _ _ _ _ _ (is_tx_in_thread_ok _ _ Hth)).
Qed.

(** ** Adding an object *)

(** What making place for a region in the cache does: the transaction has
    logged the same bytes besides those of the region. *)
Definition makes_place (place : T unit) (id : Z) (p : nat) (tx : tx_info) (reg : pmem_st) (s : tx_state)
    : Prop :=
  exists s' tx', place s = Ok tt s' /\ tx_at s' id p tx' /\ only_tx id s s' /\
    counter tx' = counter tx /\ region_set_ok (regions tx') /\
    forall b, set_covers (regions tx') b \/ covers reg b <-> tx_bytes tx b \/ covers reg b.

(** What adding an object does. *)
Definition adds_object (add : T Z) (s : tx_state) (id : Z) (tx : tx_info) (base sz : Z) : Prop :=
  let reg := set_context (exe_context (glob s)) (region_at base sz) in
  let txs := elems (transactions (trans s)) in
  exists s' tx', add s = Ok 0 s' /\ find_id s' id = Some tx' /\
    cached_region tx' = reg /\ counter tx' = counter tx /\ region_set_ok (regions tx') /\
    (forall b, tx_bytes tx' b <-> tx_bytes tx b \/ base <= b < base + sz) /\
    (forall id', id' <> id -> find_id s' id' = find_id s id') /\
    cross_tx_evs (trans s') = cross_tx_evs (trans s) ++ all_cross reg id txs /\
    redundant_logging_tx_evs (trans s') = redundant_logging_tx_evs (trans s) ++
      all_relogged (redundant_logging (trans s)) reg id txs.

Lemma add_obj_with_ok (place : T unit) s id p tx base sz :
  let reg := set_context (exe_context (glob s)) (region_at base sz) in
  let txs := elems (transactions (trans s)) in
  let cr := all_cross reg id txs in
  let rl := all_relogged (redundant_logging (trans s)) reg id txs in
  tx_at s id p tx -> card (transactions (trans s)) < iter_limit -> events_fit s cr rl ->
  (forall s2, tx_at s2 id p tx -> makes_place place id p tx reg s2) ->
  adds_object
    (tx_reset ;;;
     set <- get transactions ;;
     while_next (rounds set) tx_next (add_obj_check reg id) ;;;
     place ;;;
     tx_assign p (set_cached_region reg) ;;;
     retM 0) s id tx base sz.
Proof.
  intros reg txs cr rl Hat Hlim Hfit Hplace. unfold adds_object. fold reg txs cr rl.
  pose proof Hat as [Hok Hl].
  destruct (view_reset _ _ _ Hok Hlim) as (set1 & Hres & Hv1 & Hroot1).
  erewrite bind_ok; [|unfold tx_reset; step; rewrite Hres; reflexivity]. step.
  destruct (add_obj_checks_ok reg id (nodes (transactions (trans s))) [] (set_txs set1 s) (rounds set1))
    as (set2 & Heq2 & Hv2); [done| |done|].
  { unfold rounds. rewrite Hroot1. unfold nodes. rewrite length_inorder. lia. }
  change (redundant_logging (trans (set_txs set1 s))) with (redundant_logging (trans s)) in Heq2.
  change (nodes (transactions (trans s))).*2 with txs in Heq2. fold cr rl in Heq2.
  erewrite bind_ok; [|exact Heq2]. set (s2 := with_events (set_txs set1 s) set2 cr rl).
  assert (forall k, OSetGen_LookupNode set2 k = OSetGen_LookupNode (transactions (trans s)) k) as Hsame.
  { intros k. pose proof (view_ok _ _ _ _ _ Hv2) as Hok2. pose proof (view_nodes _ _ _ _ _ Hv2) as Hn2.
    destruct (OSetGen_LookupNode (transactions (trans s)) k) as [[j x]|] eqn:Hk.
    - apply (id_lookup _ k j x Hok) in Hk. apply id_lookup; [done|]. by rewrite Hn2.
    - apply (id_lookup_none _ k Hok) in Hk. apply id_lookup_none; [done|]. unfold elems in *. by rewrite Hn2. }
  assert (tx_at s2 id p tx) as Hat2 by (split; [apply (view_ok _ _ _ _ _ Hv2)|by simpl; rewrite Hsame]).
  destruct (Hplace s2 Hat2) as (s3 & tx3 & Heq3 & Hat3 & [Ho3 (x3 & Ht3 & _) _] & Hc3 & Hset3 & Hcov3).
  rewrite (bind_ok _ _ _ _ _ Heq3).
  destruct (assign_only s3 id p tx3 (set_cached_region reg) Hat3) as (s4 & Heq4 & Hat4 & [Ho4 (x4 & Ht4 & _) _]); [done|].
  rewrite (bind_ok _ _ _ _ _ Heq4). exists s4, (set_cached_region reg tx3).
  split; [done|]. split; [unfold find_id; by rewrite (at_node _ _ _ _ Hat4)|].
  split; [done|]. split; [done|]. split; [done|]. split; [|split; [|split]].
  - intros b. unfold tx_bytes at 1. simpl. specialize (Hcov3 b). unfold covers in *. simpl in *. tauto.
  - intros id' Hne. rewrite Ho4, Ho3 by done. unfold find_id. simpl. by rewrite Hsame.
  - rewrite Ht4, Ht3. done.
  - rewrite Ht4, Ht3. done.
Qed.

Lemma add_obj_to_tx_ok s id p tx base sz :
  let reg := set_context (exe_context (glob s)) (region_at base sz) in
  let txs := elems (transactions (trans s)) in
  tx_at s id p tx -> tx_ok tx -> takes_part s id ->
  1 <= base -> 0 < sz -> base + sz + 1 < word_size ->
  card (transactions (trans s)) < iter_limit ->
  events_fit s (all_cross reg id txs) (all_relogged (redundant_logging (trans s)) reg id txs) ->
  adds_object (add_obj_to_tx id base sz) s id tx base sz.
Proof.
  intros reg txs Hat Htx Hth H1 H2 H3 Hlim Hfit. unfold adds_object, add_obj_to_tx.
  rewrite (bind_ok _ _ _ _ _ (find_tx_ok _ _ _ _ Hat Hth)). cbn iota. step.
  apply (add_obj_with_ok (make_place p reg) s id p); try done. intros s2 Hat2. by apply make_place_ok.
Qed.

(** ** Removing an object *)

(** What removing a region from the set of a transaction does. *)
Definition removes_bytes (remove : T unit) (id : Z) (p : nat) (t : tx_info) (reg : pmem_st) (s : tx_state)
    : Prop :=
  exists s' set, remove s = Ok tt s' /\ tx_at s' id p (set_regions set t) /\ only_tx id s s' /\
    region_set_ok set /\ forall b, set_covers set b <-> set_covers (regions t) b /\ ~ covers reg b.

Definition removes_object (remove : T Z) (s : tx_state) (id : Z) (t : tx_info) (base sz : Z) : Prop :=
  exists s' t', remove s = Ok 0 s' /\ find_id s' id = Some t' /\
    region_set_ok (regions t') /\ (forall b, tx_bytes t' b <-> tx_bytes t b /\ ~ base <= b < base + sz) /\
    forall k, k <> id -> find_id s' k = find_id s k.

Lemma apart_not_cached reg t :
  region_ok reg -> cmp_pmem_st reg (cached_region t) <> 0 -> is_in_cache reg t = false.
Proof.
  intros Hr Hc. unfold is_in_cache. apply andb_false_iff. rewrite !Z.eqb_neq. destruct Hr as (? & ? & ?).
  destruct (Z.eq_dec (addr reg) (addr (cached_region t))) as [E1|]; [|tauto].
  destruct (Z.eq_dec (size reg) (size (cached_region t))) as [E2|]; [|tauto].
  exfalso. apply Hc. unfold cmp_pmem_st, max_addr. rewrite <-E1, <-E2.
  rewrite wadd_small by (unfold is_word; lia). by repeat (ztest; try lia).
Qed.

Lemma apart_not_covered reg t b :
  region_ok reg -> tx_ok t -> cmp_pmem_st reg (cached_region t) <> 0 ->
  covers (cached_region t) b -> ~ covers reg b.
Proof.
  intros (? & ? & ?) Ht Hc Hb Hbr. apply Hc.
  destruct (tx_cached _ Ht) as [[Ha Hz]|(Ha & Hz & He)]; [unfold covers in Hb; lia|].
  unfold cmp_pmem_st, max_addr, covers in *.
  rewrite !wadd_small by (unfold is_word; lia). by repeat (ztest; try lia).
Qed.

(** An object apart from the cached region is only taken out of the set. *)
Lemma remove_obj_with_ok (add : tx_info -> T unit) (remove : T unit) s id p t base sz :
  let reg := region_at base sz in
  tx_at s id p t -> tx_ok t -> region_ok reg -> cmp_pmem_st reg (cached_region t) <> 0 ->
  removes_bytes remove id p t reg s ->
  removes_object
    (tx <- tx_deref p ;;
     if is_in_cache reg tx then tx_assign p clear_cache ;;; retM 0
     else whenM (cmp_pmem_st reg (cached_region tx) =? 0) (add tx) ;;; remove ;;; retM 0) s id t base sz.
Proof.
  intros reg Hat Ht Hr Hc (s' & set & Heq & Hat' & [Ho _ _] & Hset & Hcov). unfold removes_object.
  rewrite (bind_ok _ _ _ _ _ (deref_at _ _ _ _ Hat)), apart_not_cached, (proj2 (Z.eqb_neq _ 0)) by done.
  cbn [whenM]. step. rewrite (bind_ok _ _ _ _ _ Heq). exists s', (set_regions set t). split; [done|].
  split; [unfold find_id; by rewrite (at_node _ _ _ _ Hat')|]. split; [done|]. split; [|done]. intros b.
  unfold tx_bytes. simpl. rewrite Hcov. change (covers reg b) with (base <= b < base + sz).
  pose proof (apart_not_covered reg t b Hr Ht Hc) as Hn. change (covers reg b) with (base <= b < base + sz) in Hn.
  tauto.
Qed.
