(* ===== verification/TxStore.v ===== *)
(** Transactions: which stores are reported as made outside of a transaction. *)
From S2P Require Import Prelude OSet OSetTree OSetSpec OSetWord OSetId Region RegionSpec Core Trans.
From S2P Require Import TransSpec.
Local Open Scope pm_scope.

(** Every byte of the store is logged by the transaction. *)
Definition logged_in (store : pmem_st) (t : tx_info) : Prop :=
  forall b, covers store b -> tx_bytes t b.

(** Two states whose transactions log the same bytes: the cached regions may
    have moved into the sets. *)
Definition same_tx (t t' : option tx_info) : Prop :=
  match t, t' with
  | Some t, Some t' => (forall b, tx_bytes t' b <-> tx_bytes t b) /\ counter t' = counter t /\ tx_ok t'
  | None, None => True
  | _, _ => False
  end.

Record txs_ok (s : tx_state) : Prop := {
  txs_set : id_ok (transactions (trans s));
  txs_all id t : find_id s id = Some t -> tx_ok t;
}.

Record same_txs (s s' : tx_state) : Prop := {
  st_each id : same_tx (find_id s id) (find_id s' id);
  st_trans : exists set, trans s' = set_transactions set (trans s) /\
    id_ok set /\ card set = card (transactions (trans s));
  st_glob : exists i, glob s' = set_db_pmem_store_index i (glob s);
}.

Lemma same_tx_refl s id : txs_ok s -> same_tx (find_id s id) (find_id s id).
Proof.
  intros Hs. pose proof (txs_all _ Hs id) as Ht. unfold same_tx. destruct (find_id s id); [|done].
  split; [done|]. split; [done|]. by apply Ht.
Qed.

Lemma same_txs_refl s : txs_ok s -> same_txs s s.
Proof.
  intros Hs. split.
  - intros id. by apply same_tx_refl.
  - exists (transactions (trans s)). split; [by destruct (trans s)|]. by split; [apply txs_set|].
  - exists (db_pmem_store_index (glob s)). by destruct (glob s).
Qed.

Lemma same_txs_ok s s' : same_txs s s' -> txs_ok s'.
Proof.
  intros [He (set & Ht & Hok & _) _]. split; [by rewrite Ht|].
  intros id t Hf. specialize (He id). unfold same_tx in He. rewrite Hf in He.
  destruct (find_id s id); [by destruct He as (_ & _ & ?)|done].
Qed.

Lemma same_txs_trans s1 s2 s3 : same_txs s1 s2 -> same_txs s2 s3 -> same_txs s1 s3.
Proof.
  intros [A1 (x1 & A2 & _ & A2') (i1 & A3)] [B1 (x2 & B2 & B2o & B2') (i2 & B3)]. split.
  - intros id. specialize (A1 id). specialize (B1 id). unfold same_tx in *.
    destruct (find_id s1 id), (find_id s2 id), (find_id s3 id); try done.
    destruct A1 as (A & A' & _), B1 as (B & B' & ?). split; [|by rewrite B'].
    intros b. by rewrite B.
  - exists x2. rewrite B2, A2. split; [done|]. split; [done|]. rewrite B2'. by rewrite A2.
  - exists i2. by rewrite B3, A3.
Qed.

Lemma find_id_at s id t : txs_ok s -> find_id s id = Some t -> exists p, tx_at s id p t.
Proof.
  intros Hs Hf. unfold find_id in Hf. apply fmap_Some in Hf as ([p t'] & Hl & ->).
  exists p. split; [apply (txs_set _ Hs)|done].
Qed.

Lemma at_find s id p t : tx_at s id p t -> find_id s id = Some t.
Proof. intros [_ Hl]. unfold find_id. by rewrite Hl. Qed.

(** ** One transaction *)

Lemma is_store_in_tx_ok s id store :
  txs_ok s -> region_ok store -> verbose (trans s) = false ->
  exists b s', is_store_in_tx store id s = Ok b s' /\ same_txs s s' /\
    (b = true <-> exists t, find_id s id = Some t /\ logged_in store t).
Proof.
  intros Hs Hr Hv. unfold is_store_in_tx. destruct (find_id s id) as [t|] eqn:Hf.
  2: { assert (tx_lookup id s = Ok None s) as Hl.
       { unfold tx_lookup. step. unfold find_id in Hf. by destruct (OSetGen_LookupNode _ id). }
       rewrite (bind_ok _ _ _ _ _ Hl). step. rewrite Hv. cbn [whenM]. step.
       exists false, s. split; [done|]. split; [by apply same_txs_refl|].
       split; [done|]. by intros (? & ? & _). }
  destruct (find_id_at s id t Hs Hf) as (p & Hat). pose proof (txs_all _ Hs id t Hf) as Ht.
  rewrite (bind_ok _ _ _ _ _ (tx_lookup_ok _ _ _ _ Hat)).
  rewrite (bind_ok _ _ _ _ _ (deref_at _ _ _ _ Hat)).
  destruct (Z.eqb_spec (check_overlap store (cached_region t)) 1) as [Hc|Hc].
  { exists true, s. split; [done|]. split; [by apply same_txs_refl|]. split; [|done]. intros _.
    exists t. split; [done|]. intros b Hb. left.
    destruct (tx_cached _ Ht) as [[Ha Hz]|(Ha & Hz & He)].
    - exfalso. revert Hc. unfold check_overlap, cmp_pmem_st, max_addr. rewrite Ha, Hz.
      destruct Hr as (? & ? & ?). rewrite !wadd_small by (unfold is_word; lia). by repeat (ztest; try lia).
    - destruct (check_overlap_spec store (cached_region t) Hr) as [[H _]|[[_ Hw]|[H _]]];
        [unfold region_ok; lia|lia| |lia].
      unfold covers, within in *. lia. }
  destruct (flush_cache_ok s id p t Hat Ht)
    as (s' & t' & Heq & Hat' & [Ho (set & Htr & Hn) Hg] & Ha' & Hz' & Hct & Hset & Hroom & Hcov).
  rewrite (bind_ok _ _ _ _ _ Heq). rewrite (bind_ok _ _ _ _ _ (deref_at _ _ _ _ Hat')).
  eexists _, s'. split; [reflexivity|]. split.
  - split; [|exists set; split; [done|]; split; [|done]|done].
    + intros id'. destruct (decide (id' = id)) as [->|Hne].
      * rewrite Hf, (at_find _ _ _ _ Hat'). split; [|split; [done|]].
        { intros b. rewrite <-Hcov. unfold tx_bytes, covers. rewrite Ha', Hz'. split; [intros [?|?]; [lia|done]|by right]. }
        split; [done|by left|]. by rewrite Hz'.
      * rewrite Ho by done. by apply same_tx_refl.
    + pose proof (at_set _ _ _ _ Hat') as H. by rewrite Htr in H.
  - rewrite Z.eqb_eq. destruct (is_in_mapping_set_spec (regions t') store Hset Hr) as [[-> Hm]|[[-> Hm]|(-> & _ & b & Hb & Hm)]].
    + split; [done|]. intros (? & [= <-] & Hl). destruct Hr as (? & ? & ?).
      destruct (Hm (addr store)); [unfold covers; lia|]. apply Hcov, Hl. unfold covers. lia.
    + split; [|done]. intros _. exists t. split; [done|]. intros b Hb. by apply Hcov, Hm.
    + split; [done|]. intros (? & [= <-] & Hl). destruct Hm. by apply Hcov, Hl.
Qed.

(** ** The transactions of a thread *)

Abbreviation ids_view := (os_view (K := Z) (E := Z) fast_cmp (fun _ => True)).

Lemma ids_next_ok set ns rest :
  ids_view set ns rest ->
  exists set', OSetWord_Next set = Some (snd <$> head rest, set') /\ ids_view set' ns (tail rest).
Proof.
  intros Hv. destruct (view_next _ _ _ _ _ Hv) as (set' & Hn & Hv'). exists set'. split; [|done].
  unfold OSetWord_Next. rewrite Hn. by destruct rest as [|[]].
Qed.

(** Some transaction with one of the ids has logged the store. *)
Definition logged_by (s : tx_state) (store : pmem_st) (ids : list Z) : Prop :=
  exists id t, id ∈ ids /\ find_id s id = Some t /\ logged_in store t.

Lemma same_logged s s' store id :
  same_txs s s' ->
  (exists t, find_id s' id = Some t /\ logged_in store t) <-> (exists t, find_id s id = Some t /\ logged_in store t).
Proof.
  intros [He _ _]. specialize (He id). unfold same_tx in He.
  destruct (find_id s id) as [t|], (find_id s' id) as [t'|]; [|done..|];
    [|by split; intros (? & ? & _)].
  destruct He as (Hb & _). unfold logged_in.
  split; intros (x & Hx & Hl); injection Hx as <-; [exists t|exists t']; (split; [done|]);
    intros b Hc; by apply Hb, Hl.
Qed.

Lemma same_logged_by s s' store ids : same_txs s s' -> logged_by s' store ids <-> logged_by s store ids.
Proof.
  intros Hs. unfold logged_by. split; intros (id & t & Hin & Ht);
    destruct ((same_logged s s' store id Hs)) as [H1 H2].
  - destruct (H1 (ex_intro _ t Ht)) as (t' & ?). by exists id, t'.
  - destruct (H2 (ex_intro _ t Ht)) as (t' & ?). by exists id, t'.
Qed.

Lemma logged_by_cons s store id ids :
  logged_by s store (id :: ids) <->
    (exists t, find_id s id = Some t /\ logged_in store t) \/ logged_by s store ids.
Proof.
  unfold logged_by. split.
  - intros (j & t & [->|Hin]%elem_of_cons & Ht); [left; by exists t|right; by exists j, t].
  - intros [(t & Ht)|(j & t & Hin & Ht)]; [exists id, t|exists j, t]; rewrite elem_of_cons; tauto.
Qed.

Lemma same_verbose s s' : same_txs s s' -> verbose (trans s') = verbose (trans s).
Proof. intros [_ (set & -> & _) _]. done. Qed.

Lemma while_ids_ok store : region_ok store -> forall rest fuel set ns s,
  ids_view set ns rest -> (length rest < fuel)%nat -> txs_ok s -> verbose (trans s) = false ->
  exists b set' s', while_word fuel set (is_store_in_tx store) s = Ok (b, set') s' /\
    same_txs s s' /\ (b = true <-> logged_by s store rest.*2) /\
    exists rest', ids_view set' ns rest'.
Proof.
  intros Hr. induction rest as [|[i id] rest IH]; intros fuel set ns s Hv Hfuel Hs Hverb;
    (destruct fuel as [|fuel]; [simpl in *; lia|]); cbn [while_word];
    destruct (ids_next_ok set ns _ Hv) as (set1 & Hnext & Hv1); rewrite Hnext; step; cbn [fst snd fmap option_fmap option_map head tail] in *.
  - exists false, set1, s. split; [done|]. split; [by apply same_txs_refl|]. split; [|by eexists].
    split; [done|]. intros (? & ? & Hin & _). by apply elem_of_nil in Hin.
  - destruct (is_store_in_tx_ok s id store Hs Hr Hverb) as (b & s1 & Heq & Hsame & Hb).
    rewrite (bind_ok _ _ _ _ _ Heq). cbn [list_fmap fmap snd]. setoid_rewrite logged_by_cons. destruct b.
    + exists true, set1, s1. split; [done|]. split; [done|]. split; [|by eexists]. split; [|done].
      intros _. left. by apply Hb.
    + destruct (IH fuel set1 ns s1) as (b & set2 & s2 & -> & Hsame2 & Hb2 & Hv2);
        [done|simpl in *; lia|by eapply same_txs_ok|by rewrite (same_verbose s s1)|].
      exists b, set2, s2. split; [done|]. split; [by apply (same_txs_trans s s1)|]. split; [|done].
      rewrite Hb2, (same_logged_by s s1) by done. split; [by right|]. intros [H|H]; [|done].
      by apply Hb in H.
Qed.

(** ** Reports *)

(** The thread's entry, whose ids can be iterated. *)
Record thread_ok (s : tx_state) (tid : Z) (q : nat) (ti : thread_info) : Prop := {
  th_set : id_ok (threads (trans s));
  th_node : OSetGen_LookupNode (threads (trans s)) tid = Some (q, ti);
  th_ids : word_ok (tx_ids ti);
  th_size : card (tx_ids ti) < iter_limit;
}.

Lemma for_tx_ids_ok s store tid q ti :
  region_ok store -> txs_ok s -> verbose (trans s) = false -> thread_ok s tid q ti ->
  exists b s1 s' ids, for_tx_ids q (is_store_in_tx store) s = Ok b s' /\ same_txs s s1 /\
    s' = mkTxState (glob s1) (set_threads (OSetGen_Update (threads (trans s)) q (set_tx_ids ids)) (trans s1)) /\
    nodes ids = nodes (tx_ids ti) /\ (b = true <-> logged_by s store (elems (tx_ids ti))).
Proof.
  intros Hr Hs Hv [Hth Hq Hw Hsz]. unfold for_tx_ids. rewrite (bind_ok _ _ _ _ _ (thread_deref_ok _ _ _ _ Hth Hq)).
  destruct (view_reset _ _ _ Hw Hsz) as (ids1 & Hreset & Hv1 & Hroot). rewrite Hreset. step.
  destruct (while_ids_ok store Hr (nodes (tx_ids ti)) (rounds ids1) ids1 _ s Hv1)
    as (b & ids2 & s1 & Heq & Hsame & Hb & rest & Hv2); [|done..|].
  { unfold rounds. rewrite Hroot. unfold nodes. rewrite length_inorder. lia. }
  rewrite (bind_ok _ _ _ _ _ Heq). eexists b, s1, _, ids2. split; [reflexivity|]. split; [done|]. cbn [fst snd].
  split; [|split; [apply (view_nodes _ _ _ _ _ Hv2)|done]].
  destruct (st_trans _ _ Hsame) as (set & Ht & _). by rewrite Ht.
Qed.

(** A store the transaction checks report: not excluded, and not logged by a
    transaction of the running thread. *)
Definition out_of_tx (s : tx_state) (store : pmem_st) : Prop :=
  ~ (forall b, covers store b -> set_covers (excludes (trans s)) b) /\
  match OSetGen_LookupNode (threads (trans s)) (running_tid (glob s)) with
  | None => transactions_only (trans s) = true
  | Some (_, ti) => ~ logged_by s store (elems (tx_ids ti))
  end.

(** What is the same after a store: what every transaction has logged, the
    transactions of the thread, the events. *)
Record store_frame (s s' : tx_state) : Prop := {
  sf_each id : same_tx (find_id s id) (find_id s' id);
  sf_threads tid : match OSetGen_LookupNode (threads (trans s)) tid,
                         OSetGen_LookupNode (threads (trans s')) tid with
                   | None, None => True
                   | Some (q, ti), Some (q', ti') => q = q' /\ nodes (tx_ids ti') = nodes (tx_ids ti)
                   | _, _ => False
                   end;
  sf_excludes : excludes (trans s') = excludes (trans s);
  sf_cross : cross_tx_evs (trans s') = cross_tx_evs (trans s);
  sf_logging : redundant_logging_tx_evs (trans s') = redundant_logging_tx_evs (trans s);
  sf_output : output (glob s') = output (glob s);
}.

(** What the checks of a store rely on. *)
Record tx_world_ok (s : tx_state) : Prop := {
  tw_txs : txs_ok s;
  tw_quiet : verbose (trans s) = false;
  tw_excludes : region_set_ok (excludes (trans s));
  tw_threads : id_ok (threads (trans s));
  tw_ids tid q ti : OSetGen_LookupNode (threads (trans s)) tid = Some (q, ti) ->
    word_ok (tx_ids ti) /\ card (tx_ids ti) < iter_limit;
}.

Lemma frame_refl s : txs_ok s -> store_frame s s.
Proof.
  intros Hs. split; try done; [intros id; by apply same_tx_refl|].
  intros tid. by destruct (OSetGen_LookupNode _ tid) as [[]|].
Qed.

Lemma find_id_put f s id :
  transactions (f (trans s)) = transactions (trans s) ->
  find_id (mkTxState (glob s) (f (trans s))) id = find_id s id.
Proof. intros H. unfold find_id. simpl. by rewrite H. Qed.

Lemma record_store_ok s store q :
  verbose (trans s) = false -> oot_stores_reg (trans s) < MAX_OOT_STORES ->
  record_store store q s =
    Ok tt (mkTxState (glob s) (set_oot_stores (oot_stores (trans s) ++ [store]) (trans s))).
Proof.
  intros Hv Hlim. unfold record_store. step. unfold add_warning_event, oot_stores_reg in *.
  rewrite (proj2 (Z.eqb_neq _ _)) by lia. step. step. simpl. by rewrite Hv.
Qed.

Lemma frame_record s s' store :
  store_frame s s' ->
  store_frame s (mkTxState (glob s') (set_oot_stores (oot_stores (trans s') ++ [store]) (trans s'))).
Proof. intros [A B C D E F]. by split. Qed.

Lemma frame_ids s s1 q tid ti ids :
  same_txs s s1 -> id_ok (threads (trans s)) ->
  OSetGen_LookupNode (threads (trans s)) tid = Some (q, ti) -> nodes ids = nodes (tx_ids ti) ->
  store_frame s
    (mkTxState (glob s1) (set_threads (OSetGen_Update (threads (trans s)) q (set_tx_ids ids)) (trans s1))).
Proof.
  intros [He (set & Ht & _) (i & Hg)] Hth Hq Hids. split; try (simpl; by rewrite ?Ht, ?Hg).
  - done.
  - intros k. simpl. rewrite (id_update_lookup _ tid q ti _ k Hth) by done.
    destruct (decide (k = tid)) as [->|]; [by rewrite Hq|].
    by destruct (OSetGen_LookupNode _ k) as [[]|].
Qed.

Lemma excluded_ok s store :
  region_ok store -> region_set_ok (excludes (trans s)) ->
  (is_in_mapping_set store (excludes (trans s)) =? 1) = true <->
  forall b, covers store b -> set_covers (excludes (trans s)) b.
Proof.
  intros Hr Hx. rewrite Z.eqb_eq.
  destruct (is_in_mapping_set_spec _ store Hx Hr) as [[-> Hm]|[[-> Hm]|(-> & _ & b & Hb & Hm)]].
  - split; [done|]. intros H. destruct Hr as (? & ? & ?).
    destruct (Hm (addr store)); [|apply H]; unfold covers; lia.
  - done.
  - split; [done|]. intros H. destruct Hm. by apply H.
Qed.

Lemma handle_tx_store_ok s store :
  tx_world_ok s -> region_ok store -> oot_stores_reg (trans s) < MAX_OOT_STORES ->
  exists s', handle_tx_store store s = Ok tt s' /\ store_frame s s' /\
    (out_of_tx s store -> oot_stores (trans s') = oot_stores (trans s) ++ [store]) /\
    (~ out_of_tx s store -> oot_stores (trans s') = oot_stores (trans s)).
Proof.
  intros [Hs Hv Hx Hth Hids] Hr Hlim. unfold handle_tx_store, out_of_tx. step.
  pose proof (excluded_ok s store Hr Hx) as Hexcl.
  destruct (is_in_mapping_set store (excludes (trans s)) =? 1).
  { exists s. split; [done|]. split; [by apply frame_refl|]. split; [|done].
    intros [H _]. destruct H. by apply Hexcl. }
  assert (~ (forall b, covers store b -> set_covers (excludes (trans s)) b)) as Hno
    by (intros H; by apply Hexcl in H).
  rewrite (bind_ok _ _ s (running_tid (glob s)) s) by done.
  destruct (OSetGen_LookupNode (threads (trans s)) (running_tid (glob s))) as [[q ti]|] eqn:Hq.
  - rewrite (bind_ok _ _ _ _ _ (thread_lookup_ok _ _ _ _ Hq)). destruct (Hids _ _ _ Hq) as [Hw Hsz].
    destruct (for_tx_ids_ok s store (running_tid (glob s)) q ti Hr Hs Hv) as (b & s1 & s2 & ids & Heq & Hsame & Hs2 & Hn & Hb); [done|].
    pose proof (frame_ids s s1 q _ ti ids Hsame Hth Hq Hn) as Hframe. rewrite <-Hs2 in Hframe.
    assert (oot_stores (trans s2) = oot_stores (trans s) /\ verbose (trans s2) = false) as [Hoot Hv2].
    { rewrite Hs2. destruct (st_trans _ _ Hsame) as (set & Ht & _). simpl. by rewrite Ht. }
    rewrite (bind_ok _ _ _ _ _ Heq). destruct b.
    + exists s2. split; [done|]. split; [done|]. split; [|done]. intros [_ H]. destruct H. by apply Hb.
    + step. rewrite Hv2. cbn [whenM]. step. rewrite record_store_ok;
        [|done|unfold oot_stores_reg; by rewrite Hoot].
      eexists. split; [reflexivity|]. split; [by apply frame_record|]. simpl. rewrite Hoot.
      split; [done|]. intros H. destruct H. split; [done|]. intros H. by apply Hb in H.
  - assert (thread_lookup (running_tid (glob s)) s = Ok None s) as Hl
      by (unfold thread_lookup; step; by rewrite Hq).
    rewrite (bind_ok _ _ _ _ _ Hl). step. destruct (transactions_only (trans s)) eqn:Ho; cbn [whenM].
    + rewrite (bind_ok _ _ _ _ _ (record_store_ok s store None Hv Hlim)). step. simpl. rewrite Hv.
      eexists. split; [reflexivity|]. split; [by apply frame_record, frame_refl|].
      split; [done|]. intros H. by destruct H.
    + step. step. rewrite Hv. exists s. split; [done|]. split; [by apply frame_refl|]. split; [by intros [_ ?]|done].
Qed.
