(* ===== verification/TxLife.v ===== *)
(** Transactions: how they begin, nest and end, and who takes part in them. *)
From S2P Require Import Prelude OSet OSetTree OSetSpec OSetWord OSetId Region RegionSpec Core Trans.
From S2P Require Import TransSpec TxStore.
From stdpp Require Import gmap.
Local Open Scope Z_scope.
Local Open Scope pm_scope.

Definition set_ths (set : OSet Z thread_info) (s : tx_state) : tx_state :=
  mkTxState (glob s) (set_threads set (trans s)).

(** The entry of a thread, and the transactions it takes part in. *)
Definition entry_of (th : OSet Z thread_info) (tid : Z) : option thread_info :=
  snd <$> OSetGen_LookupNode th tid.

Definition ids_in (th : OSet Z thread_info) (tid : Z) : list Z :=
  match entry_of th tid with Some ti => elems (tx_ids ti) | None => [] end.

Record threads_ok (th : OSet Z thread_info) : Prop := {
  ths_set : id_ok th;
  ths_ids tid ti : entry_of th tid = Some ti -> word_ok (tx_ids ti);
}.

Lemma contains_lookup {E} `{Keyed Z E} (set : OSet Z E) k :
  OSetGen_Contains set k = match OSetGen_LookupNode set k with Some _ => true | None => false end.
Proof. unfold OSetGen_Contains, OSetGen_Lookup. by destruct (OSetGen_LookupNode set k) as [[]|]. Qed.

Lemma word_ok_create : word_ok OSetWord_Create.
Proof. exact (h_ok _ _ holds_empty). Qed.

Lemma elems_create : elems OSetWord_Create = [].
Proof. done. Qed.

(** ** Threads *)

Lemma thread_entry_ok s tid :
  threads_ok (threads (trans s)) ->
  exists q ti th, create_get_thread_entry tid s = Ok q (set_ths th s) /\ threads_ok th /\
    OSetGen_LookupNode th tid = Some (q, ti) /\
    forall k, ids_in th k = ids_in (threads (trans s)) k.
Proof.
  intros Hth. pose proof Hth as [Hok Hids]. unfold create_get_thread_entry. step.
  rewrite contains_lookup. destruct (OSetGen_LookupNode (threads (trans s)) tid) as [[q ti]|] eqn:Hl.
  - cbn [negb whenM]. step. rewrite (bind_ok _ _ _ _ _ (thread_lookup_ok _ _ _ _ Hl)).
    exists q, ti, (threads (trans s)). split; [|done]. by destruct s as [g []].
  - cbn [negb whenM]. destruct (id_insert _ (mkThread tid OSetWord_Create) Hok Hl) as (th & -> & Hok' & _ & Hk).
    step. pose proof (Hk tid) as Hself. rewrite decide_True in Hself by done.
    apply fmap_Some in Hself as ([q ti] & Hq & Hti). cbn [snd] in Hti. subst ti.
    assert (thread_lookup tid (set_ths th s) = Ok (Some q) (set_ths th s)) as Hlook
      by (eapply thread_lookup_ok; exact Hq).
    rewrite (bind_ok _ _ _ _ _ Hlook). exists q, (mkThread tid OSetWord_Create), th.
    split; [done|]. split; [|split; [done|]].
    + split; [done|]. intros k ti. unfold entry_of. rewrite Hk. case_decide as Hd; [|apply Hids].
      intros [= <-]. apply word_ok_create.
    + intros k. unfold ids_in, entry_of. rewrite Hk. case_decide as Hd; [|done]. simpl in Hd. subst k.
      by rewrite Hl.
Qed.

Lemma word_insert_ok set w :
  word_ok set -> OSetWord_Contains set w = false ->
  exists set', OSetWord_Insert set w = Some set' /\ word_ok set' /\
    forall x, x ∈ elems set' <-> x = w \/ x ∈ elems set.
Proof.
  intros Hok Hc. assert (holds set (list_to_set (elems set))) as Hh
    by (split; [done|intros x; by rewrite elem_of_list_to_set]).
  rewrite (holds_contains _ _ _ Hh) in Hc. apply bool_decide_eq_false in Hc.
  destruct (insert_holds _ _ _ Hh Hc) as (set' & Hi & Hok' & Hel). exists set'. split; [done|]. split; [done|].
  intros x. rewrite Hel. set_solver.
Qed.

Lemma word_contains set w : word_ok set -> OSetWord_Contains set w = true <-> w ∈ elems set.
Proof.
  intros Hok. assert (holds set (list_to_set (elems set))) as Hh
    by (split; [done|intros x; by rewrite elem_of_list_to_set]).
  rewrite (holds_contains _ _ _ Hh), bool_decide_eq_true. by rewrite elem_of_list_to_set.
Qed.

Lemma ids_update th tid q ti ids :
  threads_ok th -> OSetGen_LookupNode th tid = Some (q, ti) -> word_ok ids ->
  let th' := OSetGen_Update th q (set_tx_ids ids) in
  threads_ok th' /\ OSetGen_LookupNode th' tid = Some (q, set_tx_ids ids ti) /\
  forall k, ids_in th' k = if decide (k = tid) then elems ids else ids_in th k.
Proof.
  intros [Hok Hids] Hl Hw th'. pose proof (id_update_lookup th tid q ti (set_tx_ids ids)) as Hk.
  assert (forall k, OSetGen_LookupNode th' k =
    if decide (k = tid) then Some (q, set_tx_ids ids ti) else OSetGen_LookupNode th k) as Hk'
    by (intros k; by apply Hk).
  split; [|split].
  - split; [by apply id_update|]. intros k t. unfold entry_of. rewrite Hk'. case_decide; [|apply Hids].
    by intros [= <-].
  - rewrite Hk'. by rewrite decide_True.
  - intros k. unfold ids_in, entry_of. rewrite Hk'. by case_decide.
Qed.

(** The transaction [id] becomes one of the thread's. *)
Definition joined (th th' : OSet Z thread_info) (tid id : Z) : Prop :=
  forall k w, w ∈ ids_in th' k <-> w ∈ ids_in th k \/ k = tid /\ w = id.

Lemma thread_add_ok s tid q ti id :
  threads_ok (threads (trans s)) -> OSetGen_LookupNode (threads (trans s)) tid = Some (q, ti) ->
  exists th, thread_add_tx q id s = Ok tt (set_ths th s) /\ threads_ok th /\
    joined (threads (trans s)) th tid id.
Proof.
  intros Hth Hl. pose proof Hth as [Hok Hids]. unfold thread_add_tx, joined.
  rewrite (bind_ok _ _ _ _ _ (thread_deref_ok _ _ _ _ Hok Hl)).
  assert (entry_of (threads (trans s)) tid = Some ti) as He by (unfold entry_of; by rewrite Hl).
  assert (word_ok (tx_ids ti)) as Hw by (by apply (Hids tid)).
  assert (ids_in (threads (trans s)) tid = elems (tx_ids ti)) as Hin by (unfold ids_in; by rewrite He).
  destruct (OSetWord_Contains (tx_ids ti) id) eqn:Hc; cbn [negb whenM].
  - exists (threads (trans s)). split; [by destruct s as [g []]|]. split; [done|]. intros k w.
    split; [by left|]. intros [?|[-> ->]]; [done|]. rewrite Hin. by apply word_contains.
  - destruct (word_insert_ok _ _ Hw Hc) as (ids & -> & Hw' & Hel). step.
    destruct (ids_update _ tid q ti ids Hth Hl Hw') as (Hth' & _ & Hk).
    eexists. split; [reflexivity|]. split; [done|]. intros k w. rewrite Hk.
    case_decide as Hd; [subst k; rewrite Hel, Hin; tauto|]. split; [by left|]. by intros [?|[? _]].
Qed.

(** ** The start of a transaction *)

(** The descriptor of a transaction that starts, or that nests. *)
Definition started (s : tx_state) (id : Z) : tx_info :=
  default (mkTx id 0 (exe_context (glob s)) (OSetGen_Create (Some cmp_pmem_st)) pmem_st_zero) (find_id s id).

Lemma register_first s id :
  id_ok (transactions (trans s)) ->
  exists set p, (whenM (negb (OSetGen_Contains (transactions (trans s)) id))
    (c <- record_ExeContext ;;
     let new_tx := mkTx id 0 c (OSetGen_Create (Some cmp_pmem_st)) pmem_st_zero in
     set' <- liftM AssertFail (OSetGen_Insert (transactions (trans s)) new_tx) ;;
     put set_transactions set')) s = Ok tt (set_txs set s) /\
    tx_at (set_txs set s) id p (started s id) /\
    forall k, k <> id -> find_id (set_txs set s) k = find_id s k.
Proof.
  intros Hok. rewrite contains_lookup. unfold started, find_id at 1.
  destruct (OSetGen_LookupNode (transactions (trans s)) id) as [[p t]|] eqn:Hl; cbn [negb whenM fmap option_fmap option_map snd default].
  - exists (transactions (trans s)), p. split; [by destruct s as [g []]|]. split; [by split|]. done.
  - rewrite (bind_ok _ _ s (exe_context (glob s)) s) by done. cbv zeta.
    set (t := mkTx id 0 _ _ _). destruct (id_insert _ t Hok Hl) as (set & -> & Hok' & _ & Hk). step.
    pose proof (Hk id) as Hself. rewrite decide_True in Hself by done.
    apply fmap_Some in Hself as ([p t'] & Hp & Ht). cbn [snd] in Ht. subst t'.
    exists set, p. split; [done|]. split; [by split|]. intros k Hne. unfold find_id. simpl. rewrite Hk.
    by rewrite decide_False.
Qed.

Lemma register_new_tx_ok s id :
  id_ok (transactions (trans s)) -> threads_ok (threads (trans s)) -> verbose (trans s) = false ->
  let t := started s id in
  exists s', register_new_tx id s = Ok tt s' /\
    find_id s' id = Some (set_counter (wadd (counter t) 1) t) /\
    (forall k, k <> id -> find_id s' k = find_id s k) /\
    id_ok (transactions (trans s')) /\ threads_ok (threads (trans s')) /\
    joined (threads (trans s)) (threads (trans s')) (running_tid (glob s)) id /\ glob s' = glob s.
Proof.
  intros Hok Hth Hv t. unfold register_new_tx.
  rewrite (bind_ok _ _ s (running_tid (glob s)) s) by done. step.
  destruct (register_first s id Hok) as (set & p & Heq & Hat & Ho). rewrite (bind_ok _ _ _ _ _ Heq).
  set (s1 := set_txs set s) in *.
  destruct (thread_entry_ok s1 (running_tid (glob s)) Hth) as (q & ti & th & Heq2 & Hth2 & Hq & Hsame).
  rewrite (bind_ok _ _ _ _ _ Heq2). set (s2 := set_ths th s1).
  destruct (thread_add_ok s2 _ q ti id Hth2 Hq) as (th3 & Heq3 & Hth3 & Hj). rewrite (bind_ok _ _ _ _ _ Heq3).
  set (s3 := set_ths th3 s2). assert (tx_at s3 id p t) as Hat3 by (destruct Hat; by split).
  assert ((p <- tx_lookup id ;; liftM NullDeref p) s3 = Ok p s3) as Hl
    by (by rewrite (bind_ok _ _ _ _ _ (tx_lookup_ok _ _ _ _ Hat3))).
  rewrite (bind_ok _ _ _ _ _ Hl).
  destruct (assign_at s3 id p t (fun t => set_counter (wadd (counter t) 1) t) Hat3)
    as (s4 & Heq4 & Hat4 & Hs4 & Ho4); [done|]. rewrite (bind_ok _ _ _ _ _ Heq4). step.
  assert (verbose (trans s4) = false) as Hv4 by (by rewrite Hs4). rewrite Hv4. cbn [whenM]. step.
  unfold print_running_transactions. step. rewrite Hv4. cbn [negb]. exists s4. split; [done|].
  split; [apply (at_find _ _ _ _ Hat4)|]. split; [intros k Hk; rewrite Ho4 by done; by apply Ho|].
  split; [apply Hat4|]. rewrite Hs4. split; [done|]. split; [|done].
  intros k w. specialize (Hj k w). simpl in *. by rewrite Hj, Hsame.
Qed.

(** ** The end of a nested transaction *)

Lemma remove_nested_ok s id p t :
  tx_at s id p t -> 1 < counter t < word_size ->
  exists s', remove_tx id s = Ok 0 s' /\ find_id s' id = Some (set_counter (counter t - 1) t) /\
    (forall k, k <> id -> find_id s' k = find_id s k) /\ threads (trans s') = threads (trans s).
Proof.
  intros Hat Hc. unfold remove_tx. rewrite (bind_ok _ _ _ _ _ (tx_lookup_ok _ _ _ _ Hat)).
  destruct (assign_at s id p t (fun t => set_counter (wsub (counter t) 1) t) Hat)
    as (s1 & Heq & Hat1 & Hs1 & Ho); [done|].
  rewrite (bind_ok _ _ _ _ _ Heq), (bind_ok _ _ _ _ _ (deref_at _ _ _ _ Hat1)).
  assert (wsub (counter t) 1 = counter t - 1) as Hw by (apply wsub_small; unfold is_word; lia).
  rewrite Hw in *. cbn [counter set_counter]. rewrite (proj2 (Z.ltb_lt 0 _)) by lia.
  exists s1. split; [done|]. split; [apply (at_find _ _ _ _ Hat1)|]. split; [done|]. by rewrite Hs1.
Qed.

(** ** Errors *)

Lemma find_tx_missing s id :
  find_id s id = None -> verbose (trans s) = false -> find_tx id s = Ok (inr 1) s.
Proof.
  intros Hf Hv. unfold find_tx.
  assert (tx_lookup id s = Ok None s) as Hl.
  { unfold tx_lookup. step. unfold find_id in Hf. by destruct (OSetGen_LookupNode _ id). }
  rewrite (bind_ok _ _ _ _ _ Hl). step. by rewrite Hv.
Qed.

Lemma find_tx_stranger s id p t :
  tx_at s id p t -> threads_ok (threads (trans s)) -> verbose (trans s) = false ->
  id ∉ ids_in (threads (trans s)) (running_tid (glob s)) -> find_tx id s = Ok (inr 2) s.
Proof.
  intros Hat [Hok Hids] Hv Hni. unfold find_tx. rewrite (bind_ok _ _ _ _ _ (tx_lookup_ok _ _ _ _ Hat)).
  assert (is_tx_in_thread id s = Ok false s) as Hin.
  { unfold is_tx_in_thread. rewrite (bind_ok _ _ s (running_tid (glob s)) s) by done.
    unfold ids_in, entry_of in Hni.
    destruct (OSetGen_LookupNode (threads (trans s)) (running_tid (glob s))) as [[q ti]|] eqn:Hq.
    - rewrite (bind_ok _ _ _ _ _ (thread_lookup_ok _ _ _ _ Hq)).
      rewrite (bind_ok _ _ _ _ _ (thread_deref_ok _ _ _ _ Hok Hq)). unfold retM. f_equal.
      destruct (OSetWord_Contains (tx_ids ti) id) eqn:Hc; [|done]. apply word_contains in Hc; [done|].
      apply (Hids (running_tid (glob s))). unfold entry_of. by rewrite Hq.
    - assert (thread_lookup (running_tid (glob s)) s = Ok None s) as Hl
        by (unfold thread_lookup; step; by rewrite Hq).
      rewrite (bind_ok _ _ _ _ _ Hl). step. by rewrite Hv. }
  rewrite (bind_ok _ _ _ _ _ Hin). step. rewrite Hv. cbn [whenM]. step.
  assert (print_running_transactions s = Ok tt s /\ print_thread_transactions s = Ok tt s) as [H1 H2]
    by (split; [unfold print_running_transactions|unfold print_thread_transactions]; step; by rewrite Hv).
  by rewrite (bind_ok _ _ _ _ _ H1), (bind_ok _ _ _ _ _ H2).
Qed.

(** The code an operation on the objects of a transaction answers. *)
Definition object_error (s : tx_state) (id : Z) : option Z :=
  match find_id s id with
  | None => Some 1
  | Some _ => if bool_decide (id ∈ ids_in (threads (trans s)) (running_tid (glob s))) then None else Some 2
  end.

Lemma find_tx_error s id e :
  id_ok (transactions (trans s)) -> threads_ok (threads (trans s)) -> verbose (trans s) = false ->
  object_error s id = Some e -> find_tx id s = Ok (inr e) s.
Proof.
  intros Hok Hth Hv. unfold object_error. destruct (find_id s id) as [t|] eqn:Hf.
  - case_bool_decide as Hin; [done|]. intros [= <-].
    unfold find_id in Hf. apply fmap_Some in Hf as ([p t'] & Hl & ->). by eapply find_tx_stranger.
  - intros [= <-]. by apply find_tx_missing.
Qed.
