(* ===== verification/TxClaims.v ===== *)
(** Transactions: the theorems about the operations of pmc_tx.c. *)
From S2P Require Import Prelude OSet OSetTree OSetSpec OSetWord OSetId Region RegionSpec Core Trans.
From S2P Require Import TransSpec TxStore TxLife.
Local Open Scope Z_scope.
Local Open Scope pm_scope.

(** ** Sample states *)

(** The state [init_transactions] leaves, with the thread [tid] running. *)
Definition fresh_tx (tid : Z) : tx_state :=
  mkTxState (mkGlobals tid (Some 9) 0 0 [])
    (mkTrans (OSetGen_Create None) (OSetGen_Create None) [] false false
       (OSetGen_Create (Some cmp_pmem_st)) [] [] false false false).

Definition end_state {A} (r : res tx_state A) : tx_state := match r with Ok _ s => s | Stop _ s => s end.

(** A run that returns, and its result. *)
Definition answer {A} (r : res tx_state A) : option A := match r with Ok a _ => Some a | Stop _ _ => None end.

Lemma answer_ok {A} (r : res tx_state A) a : answer r = Some a -> r = Ok a (end_state r).
Proof. destruct r; [|done]. by intros [= ->]. Qed.

(** Thread 1 has started the transaction 7. *)
Definition one_tx : tx_state := end_state (register_new_tx 7 (fresh_tx 1)).

(** Another thread runs. *)
Definition on_thread (tid : Z) (s : tx_state) : tx_state :=
  mkTxState (mkGlobals tid (exe_context (glob s)) (clo_verbosity (glob s))
    (db_pmem_store_index (glob s)) (output (glob s))) (trans s).

Lemma fresh_threads tid : threads_ok (threads (trans (fresh_tx tid))).
Proof. split; [apply id_ok_empty|done]. Qed.

Lemma one_tx_node :
  exists p, OSetGen_LookupNode (transactions (trans one_tx)) 7 =
    Some (p, mkTx 7 1 (Some 9) (OSetGen_Create (Some cmp_pmem_st)) pmem_st_zero).
Proof. by eexists. Qed.

Lemma one_tx_ok :
  id_ok (transactions (trans one_tx)) /\ threads_ok (threads (trans one_tx)) /\
  (forall k, find_id one_tx k = if decide (k = 7)
     then Some (mkTx 7 1 (Some 9) (OSetGen_Create (Some cmp_pmem_st)) pmem_st_zero) else None) /\
  joined (OSetGen_Create None) (threads (trans one_tx)) 1 7.
Proof.
  destruct (register_new_tx_ok (fresh_tx 1) 7 id_ok_empty (fresh_threads 1) eq_refl)
    as (s' & Heq & Hf & Ho & Hok & Hth & Hj & _).
  unfold one_tx. rewrite Heq. cbn [end_state]. split; [done|]. split; [done|]. split; [|done].
  intros k. case_decide as Hd; [by subst k|]. by rewrite Ho.
Qed.

Lemma new_tx_ok id n c : tx_ok (mkTx id n c (OSetGen_Create (Some cmp_pmem_st)) pmem_st_zero).
Proof. split; [apply region_set_empty|by left|done]. Qed.

Lemma one_tx_world : tx_world_ok one_tx.
Proof.
  destruct one_tx_ok as (Hok & Hth & Hf & _). split; try done.
  - split; [done|]. intros id t. rewrite Hf. case_decide; [|done]. intros [= <-]. apply new_tx_ok.
  - apply region_set_empty.
  - apply Hth.
  - intros tid q ti Hl. assert (entry_of (threads (trans one_tx)) tid = Some ti) as He
      by (unfold entry_of; by rewrite Hl).
    split; [by apply (ths_ids _ Hth tid)|]. apply id_lookup in Hl as [Hin _]; [|apply Hth].
    assert (forallb (fun n => card (tx_ids (snd n)) <? iter_limit) (nodes (threads (trans one_tx))) = true)
      as Hall by (by vm_compute).
    rewrite forallb_forall in Hall. apply Z.ltb_lt, (Hall (q, ti)). by apply list_elem_of_In.
Qed.

Lemma one_tx_part : takes_part one_tx 7.
Proof. split; [apply one_tx_ok|]. eexists _, _. by vm_compute. Qed.

(** ** Objects *)

Lemma remove_obj_ok s id p t base sz :
  tx_at s id p t -> tx_ok t -> takes_part s id -> region_ok (region_at base sz) ->
  cmp_pmem_st (region_at base sz) (cached_region t) <> 0 ->
  removes_object (remove_obj_from_tx id base sz) s id t base sz.
Proof.
  intros Hat Ht Hpart Hr Hc. unfold removes_object, remove_obj_from_tx.
  rewrite (bind_ok _ _ _ _ _ (find_tx_ok _ _ _ _ Hat Hpart)). cbn iota. cbv zeta.
  apply (remove_obj_with_ok (fun tx => tx_add_region p (cached_region tx)) _ s id p t base sz); try done.
  apply tx_remove_region_ok; [done|by apply tx_regions|done|].
  pose proof (tx_room _ Ht) as Hroom. destruct (_ =? 0) in Hroom; lia.
Qed.

(** C27: On well-formed transactions, without verbose messages and with room in the register, a store to persistent memory is reported as made outside of a transaction exactly when it is
    not wholly excluded and either the running thread is in some transaction and none of its
    transactions has logged all of the bytes, or it is in none and only transactional stores are
    allowed (--tx-only): without that option the stores of a thread in no transaction are not reported.  Nothing else
    changes: each transaction has logged the same bytes, each thread takes part in the same ones. *)
Theorem tx_store_reported_exactly s store (Hs : tx_world_ok s) (Hr : region_ok store)
    (Hroom : oot_stores_reg (trans s) < MAX_OOT_STORES) :
  exists s', handle_tx_store store s = Ok tt s' /\ store_frame s s' /\
    (out_of_tx s store -> oot_stores (trans s') = oot_stores (trans s) ++ [store]) /\
    (~ out_of_tx s store -> oot_stores (trans s') = oot_stores (trans s)).
Proof. by apply handle_tx_store_ok. Qed.

Lemma tx_store_reported_exactly_witness :
  let store := region_at 100 8 in
  tx_world_ok one_tx /\ region_ok store /\
  exists s', handle_tx_store store one_tx = Ok tt s' /\ store_frame one_tx s' /\
    (out_of_tx one_tx store -> oot_stores (trans s') = oot_stores (trans one_tx) ++ [store]) /\
    (~ out_of_tx one_tx store -> oot_stores (trans s') = oot_stores (trans one_tx)).
Proof.
  assert (region_ok (region_at 100 8)) as Hr by (by vm_compute).
  split; [exact one_tx_world|]. split; [exact Hr|].
  apply (tx_store_reported_exactly one_tx (region_at 100 8) one_tx_world Hr). by vm_compute.
Defined.

(** C28: Adding an object to a transaction makes it log exactly the bytes of the object besides what
    it had logged, and leaves the other transactions alone.  One event is registered for every other
    transaction that has logged an overlapping region, and one for the transaction itself when
    redundant logging is looked for. *)
Theorem add_object_exact s id p tx base sz
    (Hat : tx_at s id p tx) (Htx : tx_ok tx) (Hpart : takes_part s id)
    (H1 : 1 <= base) (H2 : 0 < sz) (H3 : base + sz + 1 < word_size)
    (Hlim : card (transactions (trans s)) < iter_limit) :
  let reg := set_context (exe_context (glob s)) (region_at base sz) in
  let txs := elems (transactions (trans s)) in
  let cr := all_cross reg id txs in
  let rl := all_relogged (redundant_logging (trans s)) reg id txs in
  events_fit s cr rl ->
  exists s' tx', add_obj_to_tx id base sz s = Ok 0 s' /\ find_id s' id = Some tx' /\
    cached_region tx' = reg /\ counter tx' = counter tx /\ region_set_ok (regions tx') /\
    (forall b, tx_bytes tx' b <-> tx_bytes tx b \/ base <= b < base + sz) /\
    (forall id', id' <> id -> find_id s' id' = find_id s id') /\
    cross_tx_evs (trans s') = cross_tx_evs (trans s) ++ cr /\
    redundant_logging_tx_evs (trans s') = redundant_logging_tx_evs (trans s) ++ rl.
Proof. by apply (add_obj_to_tx_ok s id p tx). Qed.

Lemma add_object_exact_witness :
  exists p tx, tx_at one_tx 7 p tx /\ tx_ok tx /\ takes_part one_tx 7 /\
    exists s' tx', add_obj_to_tx 7 100 8 one_tx = Ok 0 s' /\ find_id s' 7 = Some tx' /\
      forall b, tx_bytes tx' b <-> tx_bytes tx b \/ 100 <= b < 100 + 8.
Proof.
  destruct one_tx_node as (p & Hp). assert (tx_at one_tx 7 p (mkTx 7 1 (Some 9) (OSetGen_Create (Some cmp_pmem_st)) pmem_st_zero)) as Hat
    by (split; [apply one_tx_ok|exact Hp]).
  pose proof (new_tx_ok 7 1 (Some 9)) as Htx. exists p. eexists. split; [exact Hat|]. split; [exact Htx|].
  split; [exact one_tx_part|].
  destruct (add_object_exact one_tx 7 p _ 100 8 Hat Htx one_tx_part) as (s' & tx' & H1 & H2 & _ & _ & _ & H3 & _);
    [lia..|by vm_compute|by vm_compute|by vm_compute|]. by exists s', tx'.
Defined.

(** C29: Removing an object that neither is nor overlaps the region last added makes the transaction
    log exactly what it had logged less the bytes of the object, and leaves the others alone. *)
Theorem remove_object_exact s id p t base sz (Hat : tx_at s id p t) (Ht : tx_ok t)
    (Hpart : takes_part s id) (Hr : region_ok (region_at base sz))
    (Hc : cmp_pmem_st (region_at base sz) (cached_region t) <> 0) :
  exists s' t', remove_obj_from_tx id base sz s = Ok 0 s' /\ find_id s' id = Some t' /\
    region_set_ok (regions t') /\ (forall b, tx_bytes t' b <-> tx_bytes t b /\ ~ base <= b < base + sz) /\
    forall k, k <> id -> find_id s' k = find_id s k.
Proof. by apply (remove_obj_ok s id p t). Qed.

Lemma remove_object_exact_witness :
  exists p t, tx_at one_tx 7 p t /\
    exists s' t', remove_obj_from_tx 7 100 8 one_tx = Ok 0 s' /\ find_id s' 7 = Some t' /\
      forall b, tx_bytes t' b <-> tx_bytes t b /\ ~ 100 <= b < 100 + 8.
Proof.
  destruct one_tx_node as (p & Hp). assert (tx_at one_tx 7 p (mkTx 7 1 (Some 9) (OSetGen_Create (Some cmp_pmem_st)) pmem_st_zero)) as Hat
    by (split; [apply one_tx_ok|exact Hp]).
  exists p. eexists. split; [exact Hat|].
  destruct (remove_object_exact one_tx 7 p _ 100 8 Hat (new_tx_ok 7 1 (Some 9)) one_tx_part)
    as (s' & t' & H1 & H2 & _ & H3 & _); [by vm_compute|by vm_compute|]. by exists s', t'.
Defined.

(** C32: The operations on a transaction that does not run answer 1, and those of a thread that does
    not take part in it answer 2; in both cases nothing is changed. *)
Theorem object_errors s id e base sz (Hok : id_ok (transactions (trans s)))
    (Hth : threads_ok (threads (trans s))) (Hv : verbose (trans s) = false)
    (He : object_error s id = Some e) :
  add_obj_to_tx id base sz s = Ok e s /\ remove_obj_from_tx id base sz s = Ok e s /\
  remove_thread_from_tx id s = Ok e s /\ (e = 1 -> add_thread_to_tx id s = Ok 1 s).
Proof.
  pose proof (find_tx_error s id e Hok Hth Hv He) as Hf.
  unfold add_obj_to_tx, remove_obj_from_tx, remove_thread_from_tx. rewrite !(bind_ok _ _ _ _ _ Hf).
  split; [done|]. split; [done|]. split; [done|]. intros ->. unfold add_thread_to_tx. step.
  rewrite contains_lookup. unfold object_error, find_id in He.
  destruct (OSetGen_LookupNode (transactions (trans s)) id) as [[]|]; [by destruct (bool_decide _)|].
  cbn [negb]. step. by rewrite Hv.
Qed.

Lemma object_errors_witness :
  object_error one_tx 8 = Some 1 /\ add_obj_to_tx 8 100 8 one_tx = Ok 1 one_tx /\
  object_error (on_thread 2 one_tx) 7 = Some 2 /\
  remove_obj_from_tx 7 100 8 (on_thread 2 one_tx) = Ok 2 (on_thread 2 one_tx).
Proof.
  destruct one_tx_ok as (Hok & Hth & _). split; [by vm_compute|]. split.
  - apply (object_errors one_tx 8 1 100 8 Hok Hth); by vm_compute.
  - split; [by vm_compute|]. apply (object_errors (on_thread 2 one_tx) 7 2 100 8 Hok Hth); by vm_compute.
Defined.

(** Starting a transaction makes the running thread take part in it and counts one more nesting;
    when it ran already, ending it again gives back every transaction as it was, without a change of
    the threads.  A transaction that did not run starts with nothing logged. *)
Theorem tx_nesting s id (Hok : id_ok (transactions (trans s))) (Hth : threads_ok (threads (trans s)))
    (Hv : verbose (trans s) = false) :
  exists s1, register_new_tx id s = Ok tt s1 /\
    joined (threads (trans s)) (threads (trans s1)) (running_tid (glob s)) id /\
    (forall k, k <> id -> find_id s1 k = find_id s k) /\
    match find_id s id with
    | None => exists t, find_id s1 id = Some t /\ counter t = 1 /\ forall b, ~ tx_bytes t b
    | Some t => find_id s1 id = Some (set_counter (wadd (counter t) 1) t) /\
        (1 <= counter t < word_max ->
         exists s2, remove_tx id s1 = Ok 0 s2 /\ (forall k, find_id s2 k = find_id s k) /\
           threads (trans s2) = threads (trans s1))
    end.
Proof.
  destruct (register_new_tx_ok s id Hok Hth Hv) as (s1 & Heq & Hf & Ho & Hok1 & Hth1 & Hj & _).
  exists s1. split; [done|]. split; [done|]. split; [done|]. unfold started in Hf.
  destruct (find_id s id) as [t|] eqn:Hfs; simpl in Hf.
  - split; [done|]. intros Hc. unfold word_max in Hc.
    assert (wadd (counter t) 1 = counter t + 1) as Hw by (apply wadd_small; unfold is_word; lia).
    rewrite Hw in Hf. pose proof Hf as Hn. unfold find_id in Hn.
    apply fmap_Some in Hn as ([p t'] & Hp & Ht). cbn [snd] in Ht. subst t'.
    destruct (remove_nested_ok s1 id p _ (Build_tx_at _ _ _ _ Hok1 Hp)) as (s2 & Heq2 & Hf2 & Ho2 & Hth2).
    { simpl. lia. }
    exists s2. split; [done|]. split; [|done]. intros k. destruct (decide (k = id)) as [->|Hne].
    + rewrite Hf2, Hfs. f_equal. destruct t. unfold set_counter. simpl. f_equal. lia.
    + by rewrite Ho2, Ho.
  - eexists. split; [done|]. split; [done|]. intros b [Hb|(x & Hx & _)]; [|by apply elem_of_nil in Hx].
    unfold covers in Hb. simpl in Hb. lia.
Qed.

Lemma tx_nesting_witness :
  exists t s1 s2, find_id one_tx 7 = Some t /\ register_new_tx 7 one_tx = Ok tt s1 /\
    remove_tx 7 s1 = Ok 0 s2 /\ find_id s2 7 = Some t.
Proof.
  destruct one_tx_ok as (Hok & Hth & Hf & _). specialize (Hf 7). rewrite decide_True in Hf by done.
  destruct (tx_nesting one_tx 7 Hok Hth eq_refl) as (s1 & H1 & _ & _ & H2). rewrite Hf in H2.
  destruct H2 as (_ & H2). destruct H2 as (s2 & H3 & H4 & _); [by vm_compute|].
  eexists _, s1, s2. split; [exact Hf|]. split; [exact H1|]. split; [exact H3|]. by rewrite H4.
Defined.

(** ** What the end of a transaction leaves *)

(** Threads 1 and 2 take part in the transaction 7, which then ends. *)
Definition ended_tx : tx_state :=
  end_state (remove_tx 7 (end_state (add_thread_to_tx 7 (on_thread 2 one_tx)))).

(** The loop that makes the threads leave a transaction that ends stops at the first thread
    whose entry it removes, because the removal clears the set's iterator: of two threads that took
    part, the second still has the transaction's id, and takes part again when a transaction with
    that id is started by the first. *)
Theorem ended_tx_keeps_thread :
  find_id ended_tx 7 = None /\ ids_in (threads (trans ended_tx)) 1 = [] /\
  ids_in (threads (trans ended_tx)) 2 = [7] /\
  exists s s', register_new_tx 7 (on_thread 1 ended_tx) = Ok tt s /\
    add_obj_to_tx 7 100 8 (on_thread 2 s) = Ok 0 s'.
Proof.
  do 3 (split; [by vm_compute|]). eexists _, _. split; apply answer_ok; by vm_compute.
Qed.

(** Objects added to the transaction 7, in order. *)
Fixpoint added (l : list (Z * Z)) (s : tx_state) : tx_state :=
  match l with
  | [] => s
  | (base, sz) :: l => added l (end_state (add_obj_to_tx 7 base sz s))
  end.

(** Removing an object does not always make the transaction forget it: part of the region last
    added stays in the cache of the transaction, and a region that was added twice with another one
    between stays in its set.  A store to the removed bytes is not reported. *)
Theorem removed_object_still_logged :
  (exists s1 s2, remove_obj_from_tx 7 100 8 (added [(100, 16)] one_tx) = Ok 0 s1 /\
     handle_tx_store (region_at 100 8) s1 = Ok tt s2 /\ oot_stores (trans s2) = []) /\
  (exists s1 s2, remove_obj_from_tx 7 100 8 (added [(100, 8); (200, 8); (100, 8)] one_tx) = Ok 0 s1 /\
     handle_tx_store (region_at 100 8) s1 = Ok tt s2 /\ oot_stores (trans s2) = []).
Proof.
  split; eexists _, _; (split; [apply answer_ok; by vm_compute|]);
    (split; [apply answer_ok; by vm_compute|]); by vm_compute.
Qed.
