(* ===== verification/Pmem.v ===== *)
(** The state of the tool: pmc_include.h and the structures of pmc_main.c.

    [pmem_ops] is the record of the same name, with the command line options
    gathered in [options]; the arrays of stores and snippets are functions from
    indices, since their memory comes from [VG_(malloc)] and holds arbitrary
    values until it is assigned.  The registers of warnings are arrays filled
    from the front: lists, whose length is the source's [*_reg] counter. *)
From S2P Require Import Prelude OSet Region Core Trans.
Local Open Scope pm_scope.

Definition MAX_REDUNDANT_FENCE : Z := 10000.
Definition MAX_MULT_OVERWRITES : Z := 10000.
Definition MAX_ARRAY_NUM : Z := 100000000.
Definition MAX_FLUSH_ERROR_EVENTS : Z := 10000.
Definition MAX_DSIZE : Z := 256.
Definition MAX_PATH_SIZE : Z := 4096.

(** [enum flushed_state]. *)
Inductive flushed_state : Type := NO_FLUSHED | PART_FLUSHED | ALL_FLUSHED.

#[export] Instance flushed_state_eq_dec : EqDecision flushed_state.
Proof. solve_decision. Defined.

(** [struct arr_snippet]: the stores between two flushes are a range of the array,
    with the bounds of their addresses and whether a flush has covered them. *)
Record arr_snippet : Type := mkSnippet {
  sn_index : Z;
  min_add : Z;
  max_add : Z;
  start_index : Z;
  flushed_num : flushed_state;
}.

Definition set_sn_index (x : Z) (s : arr_snippet) : arr_snippet :=
  mkSnippet x (min_add s) (max_add s) (start_index s) (flushed_num s).
Definition set_min_add (x : Z) (s : arr_snippet) : arr_snippet :=
  mkSnippet (sn_index s) x (max_add s) (start_index s) (flushed_num s).
Definition set_max_add (x : Z) (s : arr_snippet) : arr_snippet :=
  mkSnippet (sn_index s) (min_add s) x (start_index s) (flushed_num s).
Definition set_start_index (x : Z) (s : arr_snippet) : arr_snippet :=
  mkSnippet (sn_index s) (min_add s) (max_add s) x (flushed_num s).
Definition set_flushed_num (x : flushed_state) (s : arr_snippet) : arr_snippet :=
  mkSnippet (sn_index s) (min_add s) (max_add s) (start_index s) x.

(** [struct pmem_stores_array]. *)
Record pmem_stores_array : Type := mkArray {
  snippet_info_index : Z;
  slots : Z -> pmem_st;
  snippet_info : Z -> arr_snippet;
}.

Definition set_snippet_info_index (x : Z) (a : pmem_stores_array) : pmem_stores_array :=
  mkArray x (slots a) (snippet_info a).
Definition set_slots (x : Z -> pmem_st) (a : pmem_stores_array) : pmem_stores_array :=
  mkArray (snippet_info_index a) x (snippet_info a).
Definition set_snippet_info (x : Z -> arr_snippet) (a : pmem_stores_array) : pmem_stores_array :=
  mkArray (snippet_info_index a) (slots a) x.

(** [struct pmem_st_order]: when a region was last written and made persistent. *)
Record pmem_st_order : Type := mkOrder {
  or_index : Z;
  timestamp_begin : Z;
  timestamp_end : Z;
  or_context : context_ptr;
  or_addr : Z;
  or_size : Z;
}.

Definition set_timestamp_begin (x : Z) (o : pmem_st_order) : pmem_st_order :=
  mkOrder (or_index o) x (timestamp_end o) (or_context o) (or_addr o) (or_size o).
Definition set_timestamp_end (x : Z) (o : pmem_st_order) : pmem_st_order :=
  mkOrder (or_index o) (timestamp_begin o) x (or_context o) (or_addr o) (or_size o).
Definition set_or_context (x : context_ptr) (o : pmem_st_order) : pmem_st_order :=
  mkOrder (or_index o) (timestamp_begin o) (timestamp_end o) x (or_addr o) (or_size o).

(** [struct order_record]: [rec_a] has to be persistent before [rec_b] is written;
    the pointers are nodes of [pmem_time_records]. *)
Record order_record : Type := mkOrderRec {
  rec_index : Z;
  rec_a : nat;
  rec_b : nat;
}.

(** Both are kept in sets compared by [cmp_pmem_own_st], which reads their first
    word. *)
#[export] Instance keyed_pmem_st_order : Keyed pmem_st_order pmem_st_order :=
  {| key_of o := o; word_of_key := or_index; word_of_elem := or_index |}.

#[export] Instance keyed_order_record : Keyed order_record order_record :=
  {| key_of o := o; word_of_key := rec_index; word_of_elem := rec_index |}.

Definition cmp_own_order (lhs rhs : pmem_st_order) : Z :=
  if or_index lhs <? or_index rhs then -1 else if or_index rhs <? or_index lhs then 1 else 0.

Definition cmp_own_record (lhs rhs : order_record) : Z :=
  if rec_index lhs <? rec_index rhs then -1 else if rec_index rhs <? rec_index lhs then 1 else 0.

(** Overlap of two ordered regions (pmc_common.c). *)
Definition cmp_pmem_st_order (lhs rhs : pmem_st_order) : Z :=
  if wadd (or_addr lhs) (or_size lhs) <=? or_addr rhs then -1
  else if wadd (or_addr rhs) (or_size rhs) <=? or_addr lhs then 1
  else 0.

(** The parameters of [struct pmem_ops] set by the command line, and the size of
    the cache line. *)
Record options : Type := mkOptions {
  store_sb_indiff : Z;
  track_multiple_stores : bool;
  log_stores : bool;
  print_summary : bool;
  check_flush : bool;
  flush_align_size : Z;
  force_flush_align : bool;
  o_transactions_only : bool;
  store_traces : bool;
  store_traces_depth : Z;
  automatic_isa_rec : bool;
  error_summary : bool;
  weak_clflush : bool;
  o_tree_reorganization : bool;
  o_redundant_logging : bool;
  epoch_durability_fence : bool;
  o_print_bug_detail : bool;
  order_guarantee : bool;
  lack_ordering_trand : bool;
}.

Definition set_store_sb_indiff (x : Z) (o : options) : options :=
  mkOptions x (track_multiple_stores o) (log_stores o) (print_summary o) (check_flush o)
    (flush_align_size o) (force_flush_align o) (o_transactions_only o) (store_traces o)
    (store_traces_depth o) (automatic_isa_rec o) (error_summary o) (weak_clflush o)
    (o_tree_reorganization o) (o_redundant_logging o) (epoch_durability_fence o)
    (o_print_bug_detail o) (order_guarantee o) (lack_ordering_trand o).
Definition set_track_multiple_stores (x : bool) (o : options) : options :=
  mkOptions (store_sb_indiff o) x (log_stores o) (print_summary o) (check_flush o)
    (flush_align_size o) (force_flush_align o) (o_transactions_only o) (store_traces o)
    (store_traces_depth o) (automatic_isa_rec o) (error_summary o) (weak_clflush o)
    (o_tree_reorganization o) (o_redundant_logging o) (epoch_durability_fence o)
    (o_print_bug_detail o) (order_guarantee o) (lack_ordering_trand o).
Definition set_log_stores (x : bool) (o : options) : options :=
  mkOptions (store_sb_indiff o) (track_multiple_stores o) x (print_summary o) (check_flush o)
    (flush_align_size o) (force_flush_align o) (o_transactions_only o) (store_traces o)
    (store_traces_depth o) (automatic_isa_rec o) (error_summary o) (weak_clflush o)
    (o_tree_reorganization o) (o_redundant_logging o) (epoch_durability_fence o)
    (o_print_bug_detail o) (order_guarantee o) (lack_ordering_trand o).
Definition set_print_summary (x : bool) (o : options) : options :=
  mkOptions (store_sb_indiff o) (track_multiple_stores o) (log_stores o) x (check_flush o)
    (flush_align_size o) (force_flush_align o) (o_transactions_only o) (store_traces o)
    (store_traces_depth o) (automatic_isa_rec o) (error_summary o) (weak_clflush o)
    (o_tree_reorganization o) (o_redundant_logging o) (epoch_durability_fence o)
    (o_print_bug_detail o) (order_guarantee o) (lack_ordering_trand o).
Definition set_check_flush (x : bool) (o : options) : options :=
  mkOptions (store_sb_indiff o) (track_multiple_stores o) (log_stores o) (print_summary o) x
    (flush_align_size o) (force_flush_align o) (o_transactions_only o) (store_traces o)
    (store_traces_depth o) (automatic_isa_rec o) (error_summary o) (weak_clflush o)
    (o_tree_reorganization o) (o_redundant_logging o) (epoch_durability_fence o)
    (o_print_bug_detail o) (order_guarantee o) (lack_ordering_trand o).
Definition set_flush_align_size (x : Z) (o : options) : options :=
  mkOptions (store_sb_indiff o) (track_multiple_stores o) (log_stores o) (print_summary o)
    (check_flush o) x (force_flush_align o) (o_transactions_only o) (store_traces o)
    (store_traces_depth o) (automatic_isa_rec o) (error_summary o) (weak_clflush o)
    (o_tree_reorganization o) (o_redundant_logging o) (epoch_durability_fence o)
    (o_print_bug_detail o) (order_guarantee o) (lack_ordering_trand o).
Definition set_force_flush_align (x : bool) (o : options) : options :=
  mkOptions (store_sb_indiff o) (track_multiple_stores o) (log_stores o) (print_summary o)
    (check_flush o) (flush_align_size o) x (o_transactions_only o) (store_traces o)
    (store_traces_depth o) (automatic_isa_rec o) (error_summary o) (weak_clflush o)
    (o_tree_reorganization o) (o_redundant_logging o) (epoch_durability_fence o)
    (o_print_bug_detail o) (order_guarantee o) (lack_ordering_trand o).
Definition set_o_transactions_only (x : bool) (o : options) : options :=
  mkOptions (store_sb_indiff o) (track_multiple_stores o) (log_stores o) (print_summary o)
    (check_flush o) (flush_align_size o) (force_flush_align o) x (store_traces o)
    (store_traces_depth o) (automatic_isa_rec o) (error_summary o) (weak_clflush o)
    (o_tree_reorganization o) (o_redundant_logging o) (epoch_durability_fence o)
    (o_print_bug_detail o) (order_guarantee o) (lack_ordering_trand o).
Definition set_store_traces (x : bool) (o : options) : options :=
  mkOptions (store_sb_indiff o) (track_multiple_stores o) (log_stores o) (print_summary o)
    (check_flush o) (flush_align_size o) (force_flush_align o) (o_transactions_only o) x
    (store_traces_depth o) (automatic_isa_rec o) (error_summary o) (weak_clflush o)
    (o_tree_reorganization o) (o_redundant_logging o) (epoch_durability_fence o)
    (o_print_bug_detail o) (order_guarantee o) (lack_ordering_trand o).
Definition set_store_traces_depth (x : Z) (o : options) : options :=
  mkOptions (store_sb_indiff o) (track_multiple_stores o) (log_stores o) (print_summary o)
    (check_flush o) (flush_align_size o) (force_flush_align o) (o_transactions_only o)
    (store_traces o) x (automatic_isa_rec o) (error_summary o) (weak_clflush o)
    (o_tree_reorganization o) (o_redundant_logging o) (epoch_durability_fence o)
    (o_print_bug_detail o) (order_guarantee o) (lack_ordering_trand o).
Definition set_automatic_isa_rec (x : bool) (o : options) : options :=
  mkOptions (store_sb_indiff o) (track_multiple_stores o) (log_stores o) (print_summary o)
    (check_flush o) (flush_align_size o) (force_flush_align o) (o_transactions_only o)
    (store_traces o) (store_traces_depth o) x (error_summary o) (weak_clflush o)
    (o_tree_reorganization o) (o_redundant_logging o) (epoch_durability_fence o)
    (o_print_bug_detail o) (order_guarantee o) (lack_ordering_trand o).
Definition set_error_summary (x : bool) (o : options) : options :=
  mkOptions (store_sb_indiff o) (track_multiple_stores o) (log_stores o) (print_summary o)
    (check_flush o) (flush_align_size o) (force_flush_align o) (o_transactions_only o)
    (store_traces o) (store_traces_depth o) (automatic_isa_rec o) x (weak_clflush o)
    (o_tree_reorganization o) (o_redundant_logging o) (epoch_durability_fence o)
    (o_print_bug_detail o) (order_guarantee o) (lack_ordering_trand o).
Definition set_weak_clflush (x : bool) (o : options) : options :=
  mkOptions (store_sb_indiff o) (track_multiple_stores o) (log_stores o) (print_summary o)
    (check_flush o) (flush_align_size o) (force_flush_align o) (o_transactions_only o)
    (store_traces o) (store_traces_depth o) (automatic_isa_rec o) (error_summary o) x
    (o_tree_reorganization o) (o_redundant_logging o) (epoch_durability_fence o)
    (o_print_bug_detail o) (order_guarantee o) (lack_ordering_trand o).
Definition set_o_tree_reorganization (x : bool) (o : options) : options :=
  mkOptions (store_sb_indiff o) (track_multiple_stores o) (log_stores o) (print_summary o)
    (check_flush o) (flush_align_size o) (force_flush_align o) (o_transactions_only o)
    (store_traces o) (store_traces_depth o) (automatic_isa_rec o) (error_summary o)
    (weak_clflush o) x (o_redundant_logging o) (epoch_durability_fence o) (o_print_bug_detail o)
    (order_guarantee o) (lack_ordering_trand o).
Definition set_o_redundant_logging (x : bool) (o : options) : options :=
  mkOptions (store_sb_indiff o) (track_multiple_stores o) (log_stores o) (print_summary o)
    (check_flush o) (flush_align_size o) (force_flush_align o) (o_transactions_only o)
    (store_traces o) (store_traces_depth o) (automatic_isa_rec o) (error_summary o)
    (weak_clflush o) (o_tree_reorganization o) x (epoch_durability_fence o) (o_print_bug_detail o)
    (order_guarantee o) (lack_ordering_trand o).
Definition set_epoch_durability_fence (x : bool) (o : options) : options :=
  mkOptions (store_sb_indiff o) (track_multiple_stores o) (log_stores o) (print_summary o)
    (check_flush o) (flush_align_size o) (force_flush_align o) (o_transactions_only o)
    (store_traces o) (store_traces_depth o) (automatic_isa_rec o) (error_summary o)
    (weak_clflush o) (o_tree_reorganization o) (o_redundant_logging o) x (o_print_bug_detail o)
    (order_guarantee o) (lack_ordering_trand o).
Definition set_o_print_bug_detail (x : bool) (o : options) : options :=
  mkOptions (store_sb_indiff o) (track_multiple_stores o) (log_stores o) (print_summary o)
    (check_flush o) (flush_align_size o) (force_flush_align o) (o_transactions_only o)
    (store_traces o) (store_traces_depth o) (automatic_isa_rec o) (error_summary o)
    (weak_clflush o) (o_tree_reorganization o) (o_redundant_logging o) (epoch_durability_fence o)
    x (order_guarantee o) (lack_ordering_trand o).
Definition set_order_guarantee (x : bool) (o : options) : options :=
  mkOptions (store_sb_indiff o) (track_multiple_stores o) (log_stores o) (print_summary o)
    (check_flush o) (flush_align_size o) (force_flush_align o) (o_transactions_only o)
    (store_traces o) (store_traces_depth o) (automatic_isa_rec o) (error_summary o)
    (weak_clflush o) (o_tree_reorganization o) (o_redundant_logging o) (epoch_durability_fence o)
    (o_print_bug_detail o) x (lack_ordering_trand o).
Definition set_lack_ordering_trand (x : bool) (o : options) : options :=
  mkOptions (store_sb_indiff o) (track_multiple_stores o) (log_stores o) (print_summary o)
    (check_flush o) (flush_align_size o) (force_flush_align o) (o_transactions_only o)
    (store_traces o) (store_traces_depth o) (automatic_isa_rec o) (error_summary o)
    (weak_clflush o) (o_tree_reorganization o) (o_redundant_logging o) (epoch_durability_fence o)
    (o_print_bug_detail o) (order_guarantee o) x.

(** [struct pmem_ops]: runtime data. *)
Record pmem_ops : Type := mkPmem {
  pmem_stores : region_set;
  min_add_pmem_store : Z;
  max_add_pmem_store : Z;
  not_pmem_num : Z;
  array : pmem_stores_array;
  debug_memory_merge : option region_set;
  pmem_mappings : region_set;
  min_add_pmem_mappings : Z;
  max_add_pmem_mappings : Z;
  multiple_stores : list pmem_st;
  redundant_flushes : list pmem_st;
  superfluous_flushes : list pmem_st;
  opts : options;
  epoch : bool;
  epoch_fence : Z;
  redundant_fence : list context_ptr;
  epoch_durability_reg : Z;
  pmem_time_records : OSet pmem_st_order pmem_st_order;
  global_time_stamp : Z;
  pmem_order_records : OSet order_record order_record;
  order_guarantee_reg : Z;
  global_time_records_index : Z;
  lack_ordering_trand_reg : Z;
}.

Definition set_pmem_stores (x : region_set) (p : pmem_ops) : pmem_ops :=
  mkPmem x (min_add_pmem_store p) (max_add_pmem_store p) (not_pmem_num p) (array p)
    (debug_memory_merge p) (pmem_mappings p) (min_add_pmem_mappings p) (max_add_pmem_mappings p)
    (multiple_stores p) (redundant_flushes p) (superfluous_flushes p) (opts p) (epoch p)
    (epoch_fence p) (redundant_fence p) (epoch_durability_reg p) (pmem_time_records p)
    (global_time_stamp p) (pmem_order_records p) (order_guarantee_reg p)
    (global_time_records_index p) (lack_ordering_trand_reg p).
Definition set_min_add_pmem_store (x : Z) (p : pmem_ops) : pmem_ops :=
  mkPmem (pmem_stores p) x (max_add_pmem_store p) (not_pmem_num p) (array p)
    (debug_memory_merge p) (pmem_mappings p) (min_add_pmem_mappings p) (max_add_pmem_mappings p)
    (multiple_stores p) (redundant_flushes p) (superfluous_flushes p) (opts p) (epoch p)
    (epoch_fence p) (redundant_fence p) (epoch_durability_reg p) (pmem_time_records p)
    (global_time_stamp p) (pmem_order_records p) (order_guarantee_reg p)
    (global_time_records_index p) (lack_ordering_trand_reg p).
Definition set_max_add_pmem_store (x : Z) (p : pmem_ops) : pmem_ops :=
  mkPmem (pmem_stores p) (min_add_pmem_store p) x (not_pmem_num p) (array p)
    (debug_memory_merge p) (pmem_mappings p) (min_add_pmem_mappings p) (max_add_pmem_mappings p)
    (multiple_stores p) (redundant_flushes p) (superfluous_flushes p) (opts p) (epoch p)
    (epoch_fence p) (redundant_fence p) (epoch_durability_reg p) (pmem_time_records p)
    (global_time_stamp p) (pmem_order_records p) (order_guarantee_reg p)
    (global_time_records_index p) (lack_ordering_trand_reg p).
Definition set_not_pmem_num (x : Z) (p : pmem_ops) : pmem_ops :=
  mkPmem (pmem_stores p) (min_add_pmem_store p) (max_add_pmem_store p) x (array p)
    (debug_memory_merge p) (pmem_mappings p) (min_add_pmem_mappings p) (max_add_pmem_mappings p)
    (multiple_stores p) (redundant_flushes p) (superfluous_flushes p) (opts p) (epoch p)
    (epoch_fence p) (redundant_fence p) (epoch_durability_reg p) (pmem_time_records p)
    (global_time_stamp p) (pmem_order_records p) (order_guarantee_reg p)
    (global_time_records_index p) (lack_ordering_trand_reg p).
Definition set_array (x : pmem_stores_array) (p : pmem_ops) : pmem_ops :=
  mkPmem (pmem_stores p) (min_add_pmem_store p) (max_add_pmem_store p) (not_pmem_num p) x
    (debug_memory_merge p) (pmem_mappings p) (min_add_pmem_mappings p) (max_add_pmem_mappings p)
    (multiple_stores p) (redundant_flushes p) (superfluous_flushes p) (opts p) (epoch p)
    (epoch_fence p) (redundant_fence p) (epoch_durability_reg p) (pmem_time_records p)
    (global_time_stamp p) (pmem_order_records p) (order_guarantee_reg p)
    (global_time_records_index p) (lack_ordering_trand_reg p).
Definition set_debug_memory_merge (x : option region_set) (p : pmem_ops) : pmem_ops :=
  mkPmem (pmem_stores p) (min_add_pmem_store p) (max_add_pmem_store p) (not_pmem_num p) (array p)
    x (pmem_mappings p) (min_add_pmem_mappings p) (max_add_pmem_mappings p) (multiple_stores p)
    (redundant_flushes p) (superfluous_flushes p) (opts p) (epoch p) (epoch_fence p)
    (redundant_fence p) (epoch_durability_reg p) (pmem_time_records p) (global_time_stamp p)
    (pmem_order_records p) (order_guarantee_reg p) (global_time_records_index p)
    (lack_ordering_trand_reg p).
Definition set_pmem_mappings (x : region_set) (p : pmem_ops) : pmem_ops :=
  mkPmem (pmem_stores p) (min_add_pmem_store p) (max_add_pmem_store p) (not_pmem_num p) (array p)
    (debug_memory_merge p) x (min_add_pmem_mappings p) (max_add_pmem_mappings p)
    (multiple_stores p) (redundant_flushes p) (superfluous_flushes p) (opts p) (epoch p)
    (epoch_fence p) (redundant_fence p) (epoch_durability_reg p) (pmem_time_records p)
    (global_time_stamp p) (pmem_order_records p) (order_guarantee_reg p)
    (global_time_records_index p) (lack_ordering_trand_reg p).
Definition set_min_add_pmem_mappings (x : Z) (p : pmem_ops) : pmem_ops :=
  mkPmem (pmem_stores p) (min_add_pmem_store p) (max_add_pmem_store p) (not_pmem_num p) (array p)
    (debug_memory_merge p) (pmem_mappings p) x (max_add_pmem_mappings p) (multiple_stores p)
    (redundant_flushes p) (superfluous_flushes p) (opts p) (epoch p) (epoch_fence p)
    (redundant_fence p) (epoch_durability_reg p) (pmem_time_records p) (global_time_stamp p)
    (pmem_order_records p) (order_guarantee_reg p) (global_time_records_index p)
    (lack_ordering_trand_reg p).
Definition set_max_add_pmem_mappings (x : Z) (p : pmem_ops) : pmem_ops :=
  mkPmem (pmem_stores p) (min_add_pmem_store p) (max_add_pmem_store p) (not_pmem_num p) (array p)
    (debug_memory_merge p) (pmem_mappings p) (min_add_pmem_mappings p) x (multiple_stores p)
    (redundant_flushes p) (superfluous_flushes p) (opts p) (epoch p) (epoch_fence p)
    (redundant_fence p) (epoch_durability_reg p) (pmem_time_records p) (global_time_stamp p)
    (pmem_order_records p) (order_guarantee_reg p) (global_time_records_index p)
    (lack_ordering_trand_reg p).
Definition set_multiple_stores (x : list pmem_st) (p : pmem_ops) : pmem_ops :=
  mkPmem (pmem_stores p) (min_add_pmem_store p) (max_add_pmem_store p) (not_pmem_num p) (array p)
    (debug_memory_merge p) (pmem_mappings p) (min_add_pmem_mappings p) (max_add_pmem_mappings p) x
    (redundant_flushes p) (superfluous_flushes p) (opts p) (epoch p) (epoch_fence p)
    (redundant_fence p) (epoch_durability_reg p) (pmem_time_records p) (global_time_stamp p)
    (pmem_order_records p) (order_guarantee_reg p) (global_time_records_index p)
    (lack_ordering_trand_reg p).
Definition set_redundant_flushes (x : list pmem_st) (p : pmem_ops) : pmem_ops :=
  mkPmem (pmem_stores p) (min_add_pmem_store p) (max_add_pmem_store p) (not_pmem_num p) (array p)
    (debug_memory_merge p) (pmem_mappings p) (min_add_pmem_mappings p) (max_add_pmem_mappings p)
    (multiple_stores p) x (superfluous_flushes p) (opts p) (epoch p) (epoch_fence p)
    (redundant_fence p) (epoch_durability_reg p) (pmem_time_records p) (global_time_stamp p)
    (pmem_order_records p) (order_guarantee_reg p) (global_time_records_index p)
    (lack_ordering_trand_reg p).
Definition set_superfluous_flushes (x : list pmem_st) (p : pmem_ops) : pmem_ops :=
  mkPmem (pmem_stores p) (min_add_pmem_store p) (max_add_pmem_store p) (not_pmem_num p) (array p)
    (debug_memory_merge p) (pmem_mappings p) (min_add_pmem_mappings p) (max_add_pmem_mappings p)
    (multiple_stores p) (redundant_flushes p) x (opts p) (epoch p) (epoch_fence p)
    (redundant_fence p) (epoch_durability_reg p) (pmem_time_records p) (global_time_stamp p)
    (pmem_order_records p) (order_guarantee_reg p) (global_time_records_index p)
    (lack_ordering_trand_reg p).
Definition set_opts (x : options) (p : pmem_ops) : pmem_ops :=
  mkPmem (pmem_stores p) (min_add_pmem_store p) (max_add_pmem_store p) (not_pmem_num p) (array p)
    (debug_memory_merge p) (pmem_mappings p) (min_add_pmem_mappings p) (max_add_pmem_mappings p)
    (multiple_stores p) (redundant_flushes p) (superfluous_flushes p) x (epoch p) (epoch_fence p)
    (redundant_fence p) (epoch_durability_reg p) (pmem_time_records p) (global_time_stamp p)
    (pmem_order_records p) (order_guarantee_reg p) (global_time_records_index p)
    (lack_ordering_trand_reg p).
Definition set_epoch (x : bool) (p : pmem_ops) : pmem_ops :=
  mkPmem (pmem_stores p) (min_add_pmem_store p) (max_add_pmem_store p) (not_pmem_num p) (array p)
    (debug_memory_merge p) (pmem_mappings p) (min_add_pmem_mappings p) (max_add_pmem_mappings p)
    (multiple_stores p) (redundant_flushes p) (superfluous_flushes p) (opts p) x (epoch_fence p)
    (redundant_fence p) (epoch_durability_reg p) (pmem_time_records p) (global_time_stamp p)
    (pmem_order_records p) (order_guarantee_reg p) (global_time_records_index p)
    (lack_ordering_trand_reg p).
Definition set_epoch_fence (x : Z) (p : pmem_ops) : pmem_ops :=
  mkPmem (pmem_stores p) (min_add_pmem_store p) (max_add_pmem_store p) (not_pmem_num p) (array p)
    (debug_memory_merge p) (pmem_mappings p) (min_add_pmem_mappings p) (max_add_pmem_mappings p)
    (multiple_stores p) (redundant_flushes p) (superfluous_flushes p) (opts p) (epoch p) x
    (redundant_fence p) (epoch_durability_reg p) (pmem_time_records p) (global_time_stamp p)
    (pmem_order_records p) (order_guarantee_reg p) (global_time_records_index p)
    (lack_ordering_trand_reg p).
Definition set_redundant_fence (x : list context_ptr) (p : pmem_ops) : pmem_ops :=
  mkPmem (pmem_stores p) (min_add_pmem_store p) (max_add_pmem_store p) (not_pmem_num p) (array p)
    (debug_memory_merge p) (pmem_mappings p) (min_add_pmem_mappings p) (max_add_pmem_mappings p)
    (multiple_stores p) (redundant_flushes p) (superfluous_flushes p) (opts p) (epoch p)
    (epoch_fence p) x (epoch_durability_reg p) (pmem_time_records p) (global_time_stamp p)
    (pmem_order_records p) (order_guarantee_reg p) (global_time_records_index p)
    (lack_ordering_trand_reg p).
Definition set_epoch_durability_reg (x : Z) (p : pmem_ops) : pmem_ops :=
  mkPmem (pmem_stores p) (min_add_pmem_store p) (max_add_pmem_store p) (not_pmem_num p) (array p)
    (debug_memory_merge p) (pmem_mappings p) (min_add_pmem_mappings p) (max_add_pmem_mappings p)
    (multiple_stores p) (redundant_flushes p) (superfluous_flushes p) (opts p) (epoch p)
    (epoch_fence p) (redundant_fence p) x (pmem_time_records p) (global_time_stamp p)
    (pmem_order_records p) (order_guarantee_reg p) (global_time_records_index p)
    (lack_ordering_trand_reg p).
Definition set_pmem_time_records (x : OSet pmem_st_order pmem_st_order) (p : pmem_ops) : pmem_ops :=
  mkPmem (pmem_stores p) (min_add_pmem_store p) (max_add_pmem_store p) (not_pmem_num p) (array p)
    (debug_memory_merge p) (pmem_mappings p) (min_add_pmem_mappings p) (max_add_pmem_mappings p)
    (multiple_stores p) (redundant_flushes p) (superfluous_flushes p) (opts p) (epoch p)
    (epoch_fence p) (redundant_fence p) (epoch_durability_reg p) x (global_time_stamp p)
    (pmem_order_records p) (order_guarantee_reg p) (global_time_records_index p)
    (lack_ordering_trand_reg p).
Definition set_global_time_stamp (x : Z) (p : pmem_ops) : pmem_ops :=
  mkPmem (pmem_stores p) (min_add_pmem_store p) (max_add_pmem_store p) (not_pmem_num p) (array p)
    (debug_memory_merge p) (pmem_mappings p) (min_add_pmem_mappings p) (max_add_pmem_mappings p)
    (multiple_stores p) (redundant_flushes p) (superfluous_flushes p) (opts p) (epoch p)
    (epoch_fence p) (redundant_fence p) (epoch_durability_reg p) (pmem_time_records p) x
    (pmem_order_records p) (order_guarantee_reg p) (global_time_records_index p)
    (lack_ordering_trand_reg p).
Definition set_pmem_order_records (x : OSet order_record order_record) (p : pmem_ops) : pmem_ops :=
  mkPmem (pmem_stores p) (min_add_pmem_store p) (max_add_pmem_store p) (not_pmem_num p) (array p)
    (debug_memory_merge p) (pmem_mappings p) (min_add_pmem_mappings p) (max_add_pmem_mappings p)
    (multiple_stores p) (redundant_flushes p) (superfluous_flushes p) (opts p) (epoch p)
    (epoch_fence p) (redundant_fence p) (epoch_durability_reg p) (pmem_time_records p)
    (global_time_stamp p) x (order_guarantee_reg p) (global_time_records_index p)
    (lack_ordering_trand_reg p).
Definition set_order_guarantee_reg (x : Z) (p : pmem_ops) : pmem_ops :=
  mkPmem (pmem_stores p) (min_add_pmem_store p) (max_add_pmem_store p) (not_pmem_num p) (array p)
    (debug_memory_merge p) (pmem_mappings p) (min_add_pmem_mappings p) (max_add_pmem_mappings p)
    (multiple_stores p) (redundant_flushes p) (superfluous_flushes p) (opts p) (epoch p)
    (epoch_fence p) (redundant_fence p) (epoch_durability_reg p) (pmem_time_records p)
    (global_time_stamp p) (pmem_order_records p) x (global_time_records_index p)
    (lack_ordering_trand_reg p).
Definition set_global_time_records_index (x : Z) (p : pmem_ops) : pmem_ops :=
  mkPmem (pmem_stores p) (min_add_pmem_store p) (max_add_pmem_store p) (not_pmem_num p) (array p)
    (debug_memory_merge p) (pmem_mappings p) (min_add_pmem_mappings p) (max_add_pmem_mappings p)
    (multiple_stores p) (redundant_flushes p) (superfluous_flushes p) (opts p) (epoch p)
    (epoch_fence p) (redundant_fence p) (epoch_durability_reg p) (pmem_time_records p)
    (global_time_stamp p) (pmem_order_records p) (order_guarantee_reg p) x
    (lack_ordering_trand_reg p).
Definition set_lack_ordering_trand_reg (x : Z) (p : pmem_ops) : pmem_ops :=
  mkPmem (pmem_stores p) (min_add_pmem_store p) (max_add_pmem_store p) (not_pmem_num p) (array p)
    (debug_memory_merge p) (pmem_mappings p) (min_add_pmem_mappings p) (max_add_pmem_mappings p)
    (multiple_stores p) (redundant_flushes p) (superfluous_flushes p) (opts p) (epoch p)
    (epoch_fence p) (redundant_fence p) (epoch_durability_reg p) (pmem_time_records p)
    (global_time_stamp p) (pmem_order_records p) (order_guarantee_reg p)
    (global_time_records_index p) x.

Definition multiple_stores_reg (p : pmem_ops) : Z := Z.of_nat (length (multiple_stores p)).
Definition redundant_flushes_reg (p : pmem_ops) : Z := Z.of_nat (length (redundant_flushes p)).
Definition superfluous_flushes_reg (p : pmem_ops) : Z :=
  Z.of_nat (length (superfluous_flushes p)).
Definition redundant_fence_reg (p : pmem_ops) : Z := Z.of_nat (length (redundant_fence p)).

(** [struct strand_pmem]: the saved state of a strand and its number. *)
Record strand_pmem : Type := mkStrand {
  p_pmem : option pmem_ops;
  strand_id : Z;
}.

(** The tool: the transactions with the globals, [pmem], the number of
    superblocks run, the current strand and the ones before it. *)
Record world : Type := mkWorld {
  w_tx : tx_state;
  pmem : pmem_ops;
  sblocks : Z;
  curr_strand_pmem : strand_pmem;
  prev_strands : list strand_pmem;
}.

Definition set_pmem (p : pmem_ops) (w : world) : world :=
  mkWorld (w_tx w) p (sblocks w) (curr_strand_pmem w) (prev_strands w).

Definition set_w_tx (t : tx_state) (w : world) : world :=
  mkWorld t (pmem w) (sblocks w) (curr_strand_pmem w) (prev_strands w).

#[export] Instance has_globals_world : HasGlobals world :=
  {| the_globals w := glob (w_tx w);
     with_globals g w := set_w_tx (mkTxState g (trans (w_tx w))) w |}.

#[export] Instance globals_laws_world : GlobalsLaws world.
Proof. split; [done|by intros [[] ? ? ? ?]]. Qed.

Abbreviation PM := (M world).

(** Calls of the transactions module. *)
Definition in_tx {A} (m : T A) : PM A := zoomM w_tx set_w_tx m.

(** Fields of [pmem]. *)
Definition pget {A} (f : pmem_ops -> A) : PM A := getsM (fun w => f (pmem w)).

Definition pmod (f : pmem_ops -> pmem_ops) : PM unit :=
  modM (fun w => set_pmem (f (pmem w)) w).

Definition oget {A} (f : options -> A) : PM A := pget (fun p => f (opts p)).

(** * The array of stores *)

(** Assignment to an element of an array. *)
Definition arr_upd {A} (i : Z) (f : A -> A) (a : Z -> A) : Z -> A :=
  fun j => if j =? i then f (a j) else a j.

Definition on_array (f : pmem_stores_array -> pmem_stores_array) : PM unit :=
  pmod (fun p => set_array (f (array p)) p).

Definition slot_get (i : Z) : PM pmem_st := pget (fun p => slots (array p) i).

Definition slot_set (i : Z) (f : pmem_st -> pmem_st) : PM unit :=
  on_array (fun a => set_slots (arr_upd i f (slots a)) a).

Definition snippet_get (i : Z) : PM arr_snippet := pget (fun p => snippet_info (array p) i).

Definition snippet_set (i : Z) (f : arr_snippet -> arr_snippet) : PM unit :=
  on_array (fun a => set_snippet_info (arr_upd i f (snippet_info a)) a).

(** [pmem.array.snippet_info_index]: the number of the snippet being filled. *)
Definition last_snippet : PM Z := pget (fun p => snippet_info_index (array p)).

(** A snippet with no stores. *)
Definition fresh_snippet (start : Z) (s : arr_snippet) : arr_snippet :=
  mkSnippet start word_max word_max start NO_FLUSHED.

(** Start a new snippet where the last one ends; there is room for
    [MAX_ARRAY_NUM] of them. *)
Definition init_snippet_info : PM unit :=
  on_array (fun a => set_snippet_info_index (snippet_info_index a + 1) a) ;;;
  i <- last_snippet ;;
  if MAX_ARRAY_NUM <=? i then stopM Undefined else
  prev <- snippet_get (i - 1) ;;
  snippet_set i (fresh_snippet (sn_index prev)).

(** Copy all of a store but its [index]. *)
Definition pmem_st_copy (copy orig : pmem_st) : pmem_st := set_index (index copy) orig.

(** [db_pmem_store_index++]: the value before. *)
Definition next_store_index : PM Z :=
  i <- getsM (fun w => db_pmem_store_index (the_globals w)) ;;
  modM (fun w => with_globals (set_db_pmem_store_index (i + 1) (the_globals w)) w) ;;;
  retM i.

(** * Sets of stores *)

(** The set a function works on: [pmem.pmem_stores] or
    [pmem.debug_memory_merge]. *)
Inductive store_set : Type := Stores | Merged.

Definition set_get (k : store_set) : PM region_set :=
  match k with
  | Stores => pget pmem_stores
  | Merged => s <- pget debug_memory_merge ;; liftM NullDeref s
  end.

Definition set_put (k : store_set) (s : region_set) : PM unit :=
  match k with
  | Stores => pmod (set_pmem_stores s)
  | Merged => pmod (set_debug_memory_merge (Some s))
  end.

Definition set_insert (k : store_set) (e : pmem_st) : PM unit :=
  s <- set_get k ;; s' <- liftM AssertFail (OSetGen_Insert s e) ;; set_put k s'.

Definition set_lookup (k : store_set) (key : pmem_st) : PM (option (nat * pmem_st)) :=
  s <- set_get k ;; retM (OSetGen_LookupNode s key).

Definition set_remove (k : store_set) (key : pmem_st) : PM (option pmem_st) :=
  s <- set_get k ;; r <- liftM AssertFail (OSetGen_Remove s key) ;;
  set_put k (snd r) ;;; retM (fst r).

Definition set_assign (k : store_set) (p : nat) (f : pmem_st -> pmem_st) : PM unit :=
  s <- set_get k ;; set_put k (OSetGen_Update s p f).

Definition set_deref (k : store_set) (p : nat) : PM pmem_st :=
  s <- set_get k ;; liftM NullDeref (OSetGen_Deref s p).

Definition set_reset (k : store_set) : PM unit :=
  s <- set_get k ;; s' <- liftM AssertFail (OSetGen_ResetIter s) ;; set_put k s'.

Definition set_reset_at (k : store_set) (key : pmem_st) : PM unit :=
  s <- set_get k ;; s' <- liftM AssertFail (OSetGen_ResetIterAt s key) ;; set_put k s'.

Definition set_next (k : store_set) : PM (option (nat * pmem_st)) :=
  s <- set_get k ;; r <- liftM AssertFail (OSetGen_Next s) ;;
  set_put k (snd r) ;;; retM (fst r).

(** [for (s_index = 0; s_index <= pmem.array.snippet_info_index; s_index++)]
    and [for (i = start_index; i < index; i++)], whose bounds are read in every
    round; [acc] is the local variable the body assigns. *)
Fixpoint for_snippets {A} (fuel : nat) (s : Z) (acc : A) (body : A -> Z -> PM A) : PM A :=
  match fuel with
  | O => stopM OutOfFuel
  | S fuel =>
      n <- last_snippet ;;
      if s <=? n then acc <- body acc s ;; for_snippets fuel (s + 1) acc body
      else retM acc
  end.

Fixpoint for_slots {A} (fuel : nat) (s i : Z) (acc : A) (body : A -> Z -> PM A) : PM A :=
  match fuel with
  | O => stopM OutOfFuel
  | S fuel =>
      sn <- snippet_get s ;;
      if i <? sn_index sn then acc <- body acc i ;; for_slots fuel s (i + 1) acc body
      else retM acc
  end.

(** The rounds the loops are given: the bodies never add snippets, and add at
    most two stores for each store they visit that is not such an addition. *)
Definition all_snippets {A} (acc : A) (body : A -> Z -> PM A) : PM A :=
  n <- last_snippet ;; for_snippets (S (S (Z.to_nat n))) 0 acc body.

Definition all_slots {A} (s : Z) (acc : A) (body : A -> Z -> PM A) : PM A :=
  sn <- snippet_get s ;;
  for_slots (S (Z.to_nat (3 * (sn_index sn - start_index sn)))) s (start_index sn) acc body.
