(* ===== verification/Store.v ===== *)
(** Stores to persistent memory: pmc_main.c from [is_pmem_access] to
    [trace_pmem_store].

    What the core knows about execution contexts (the addresses of their stack
    traces and how an address is described) is the class [CoreEnv]. *)
From S2P Require Import Prelude OSet Region Core Trans Pmem.
Local Open Scope pm_scope.

(** The core's tables of execution contexts and debug information. *)
Class CoreEnv : Type := {
  (** [VG_(make_StackTrace_from_ExeContext)], [VG_(get_ExeContext_StackTrace)] *)
  stack_trace : Z -> list Z;
  (** [VG_(describe_IP)] for each of the inlined frames at an address *)
  describe_IP : Z -> list string;
  (** the addresses [VG_(apply_StackTrace)] visits of a trace *)
  apply_StackTrace : list Z -> Z -> list Z;
  clo_xml : bool;
}.

(** [VG_(strstr)(s, pat) != NULL]. *)
Fixpoint has_prefix (pat s : string) : bool :=
  match pat, s with
  | EmptyString, _ => true
  | String a pat, String b s => Ascii.eqb a b && has_prefix pat s
  | String _ _, EmptyString => false
  end.

Fixpoint strstr (s pat : string) : bool :=
  has_prefix pat s || match s with EmptyString => false | String _ s => strstr s pat end.

(** Check if a given store overlaps with registered persistent memory
    regions. *)
Definition is_pmem_access (a sz : Z) : PM bool :=
  let tmp := region_at a sz in
  mx <- pget max_add_pmem_mappings ;; mn <- pget min_add_pmem_mappings ;;
  if (mx <? addr tmp) || (max_addr tmp <? mn) then retM false
  else set <- pget pmem_mappings ;; retM (OSetGen_Contains set tmp).

(** State to string change for information purposes. *)
Definition store_state_to_string (s : store_state) : string :=
  match s with
  | STST_CLEAN => "CLEAN"
  | STST_DIRTY => "DIRTY"
  | STST_FLUSHED => "FLUSHED"
  end.

(** Where a context is printed. *)
Definition pp_context_opt (c : context_ptr) : PM unit :=
  t <- oget o_tree_reorganization ;; d <- oget o_print_bug_detail ;;
  whenM (t || d) (pp_ExeContext c).

Definition print_multiple_stores : PM unit :=
  n <- pget multiple_stores_reg ;;
  umsg "\nNumber of overwritten stores: %lu\n" [Num n] ;;;
  umsg "Overwritten stores before they were made persistent:\n" [] ;;;
  evs <- pget multiple_stores ;;
  for_events (fun i tmp =>
    umsg "[%d] " [Num i] ;;;
    pp_context_opt (context tmp) ;;;
    umsg "\tAddress: 0x%lx\tsize: %llu\tstate: %s\n"
      [Num (addr tmp); Num (size tmp); Str (store_state_to_string (state tmp))]) 0 evs.

Definition print_max_poss_overwrites_error (limit : Z) : PM unit :=
  umsg "The number of overwritten stores exceeded %lu\n\n" [Num limit] ;;;
  umsg "This either means there is something fundamentally wrong with your program, or you are using your persistent memory as volatile memory.\n" [] ;;;
  message_flush ;;;
  print_multiple_stores.

(** * Merging stores *)

Section Stores.
Context `{CoreEnv}.

(** Print the description of an instruction address. *)
Definition print_store_ip_desc (ip : Z) : PM unit :=
  emit ";" [] ;;;
  for_events (fun _ buf => if clo_xml then say (Umsg "%s\n" [Str buf]) else emit "%s" [Str buf])
    0 (describe_IP ip).

(** Print a stack trace; [0] stands for the whole trace. *)
Definition pp_store_trace (store : pmem_st) (n_ips : Z) : PM unit :=
  c <- liftM NullDeref (context store) ;;
  let n_ips := if n_ips =? 0 then Z.of_nat (length (stack_trace c)) else n_ips in
  if n_ips =? 0 then stopM AssertFail else
  whenM clo_xml (say (Umsg "    <stack>\n" [])) ;;;
  for_events (fun _ ip => print_store_ip_desc ip) 0 (apply_StackTrace (stack_trace c) n_ips) ;;;
  whenM clo_xml (say (Umsg "    </stack>\n" [])).

(** Check if a memcpy/memset is at the given instruction address. *)
Definition is_ip_memset_memcpy (ip : Z) : bool :=
  match describe_IP ip with
  | [] => false
  | buf :: _ => strstr buf "memcpy" || strstr buf "memset"
  end.

(** Compare two ExeContexts, not counting a first memset/memcpy; [None] when
    the assertion on the lengths fails. *)
Definition cmp_exe_context (lhs rhs : context_ptr) : option bool :=
  match lhs, rhs with
  | Some l, Some r =>
      if l =? r then Some true else
      match stack_trace l, stack_trace r with
      | i1 :: ips1, i2 :: ips2 =>
          if negb (length ips1 =? length ips2)%nat then Some false
          else if (i1 =? i2) || (is_ip_memset_memcpy i1 && is_ip_memset_memcpy i2)
               then Some (bool_decide (ips1 = ips2))
          else Some false
      | _, _ => None
      end
  | _, _ => Some false
  end.

(** Checks if two stores are merge'able: only the state and the context.  The
    contexts are compared only when the states are equal. *)
Definition is_store_mergeable (lhs rhs : pmem_st) : option bool :=
  if bool_decide (state lhs = state rhs) then cmp_exe_context (context lhs) (context rhs)
  else Some false.

(** Merge two stores together: the fields of [to_merge] with the range of
    both. *)
Definition merge_stores (to_merge to_be_merged : pmem_st) : pmem_st :=
  let m := Z.max (max_addr to_merge) (max_addr to_be_merged) in
  let to_merge := set_addr (Z.min (addr to_merge) (addr to_be_merged)) to_merge in
  set_size (wsub m (addr to_merge)) to_merge.

(** * Splitting stores *)

(** A pointer to a store: a slot of the array, or a node of a set. *)
Inductive store_ptr : Type := Slot (i : Z) | InSet (p : nat).

Definition ptr_get (k : store_set) (p : store_ptr) : PM pmem_st :=
  match p with Slot i => slot_get i | InSet n => set_deref k n end.

Definition ptr_set (k : store_set) (p : store_ptr) (f : pmem_st -> pmem_st) : PM unit :=
  match p with Slot i => slot_set i f | InSet n => set_assign k n f end.

(** A callback is given a pointer to a store: [None] is a pointer to a node that has
    been freed, which must not be read.  To free a store if it was
    preallocated reads nothing of it, and freeing a node that has left its set has no
    effect on the state. *)
Definition free_clb (store : option pmem_st) (preallocated : bool) : PM unit := retM tt.

(** Issue a warning event with a copy of the store as the offender. *)
Definition add_mult_overwrite_warn (store : option pmem_st) (preallocated : bool) : PM unit :=
  i <- next_store_index ;;
  store <- liftM Undefined store ;;
  let new := pmem_st_copy (set_index i pmem_st_zero) store in
  evs <- pget multiple_stores ;;
  match add_warning_event evs new MAX_MULT_OVERWRITES with
  | None => print_max_poss_overwrites_error MAX_MULT_OVERWRITES ;;; stopM ExitMinus1
  | Some evs => pmod (set_multiple_stores evs)
  end.

(** [v & ((1 << (size * 8 + 1)) - 1)]: the shift is one of a 32-bit [int],
    whose count the processor takes modulo 32; the mask is sign-extended. *)
Definition int32 (z : Z) : Z := (z + 2 ^ 31) mod 2 ^ 32 - 2 ^ 31.

Definition low_mask (sz : Z) : Z :=
  wrap (int32 (int32 (2 ^ ((wadd (wrap (sz * 8)) 1) mod 32)) - 1)).

(** [v >>= n] on a 64-bit word: the processor takes the count modulo 64. *)
Definition shr (v n : Z) : Z := Z.shiftr v (n mod 64).

(** Split-adjust the two given stores so that they do not overlap: [old] loses
    what [new] covers, and the callback is called for that part.  A node of the tree that is
    covered by [new] is freed before its pointer goes to the callback. *)
Definition split_stores (k : store_set) (old : store_ptr) (new : pmem_st)
    (clb : option pmem_st -> bool -> PM unit) (is_arr : bool) : PM unit :=
  o <- ptr_get k old ;;
  let new_max := max_addr new in
  let old_max := max_addr o in
  if (addr new <=? addr o) && (old_max <=? new_max) then
    if is_arr then
      ptr_set k old (set_is_delete true) ;;;
      o <- ptr_get k old ;;
      clb (Some o) false
    else
      _ <- set_remove k o ;;
      set_reset_at k o ;;;
      clb None false
  else if addr o <? addr new then
    if new_max <? old_max then
      i <- next_store_index ;;
      let after := pmem_st_copy (set_index i pmem_st_zero) o in
      let after := set_size (wsub old_max new_max) (set_addr new_max after) in
      let after := set_value (Z.land (value after) (low_mask (size after))) after in
      ptr_set k old (fun o => set_size (wsub (addr new) (addr o))
        (set_value (shr (value o) (wsub old_max (addr new))) o)) ;;;
      set_insert k after ;;;
      o <- ptr_get k old ;;
      set_reset_at k o ;;;
      clb (Some (set_context (context o) new)) false
    else
      clb (Some (set_size (wsub old_max (addr new)) (set_addr (addr new) o))) false ;;;
      ptr_set k old (fun o => set_size (wsub (addr new) (addr o))
        (set_value (shr (value o) (wsub old_max (addr new))) o))
  else if new_max <? old_max then
    clb (Some (set_size (wsub (size o) (wsub old_max new_max)) o)) false ;;;
    ptr_set k old (fun o =>
      let o := set_size (wsub old_max new_max) (set_addr new_max o) in
      set_value (Z.land (value o) (low_mask (size o))) o)
  else stopM AssertFail.

(** * Adding stores to a set *)

(** Split everything the region overlaps. *)
Fixpoint split_overlapping (fuel : nat) (k : store_set) (region : pmem_st) : PM unit :=
  match fuel with
  | O => stopM OutOfFuel
  | S fuel =>
      old_entry <- set_lookup k region ;;
      match old_entry with
      | None => retM tt
      | Some (p, _) =>
          split_stores k (InSet p) region free_clb false ;;;
          split_overlapping fuel k region
      end
  end.

(** Merge the region with the neighbour the search entry finds, if the two are
    merge'able. *)
Definition merge_neighbour (k : store_set) (region search_entry : pmem_st) : PM pmem_st :=
  old_entry <- set_lookup k search_entry ;;
  match old_entry with
  | None => retM region
  | Some (_, old_entry) =>
      b <- liftM AssertFail (is_store_mergeable region old_entry) ;;
      if (b : bool) then
        _ <- set_remove k search_entry ;;
        retM (merge_stores region old_entry)
      else retM region
  end.

(** The two searches, one byte before and one byte after the region as it was
    given. *)
Definition merge_neighbours (k : store_set) (region : pmem_st) : PM pmem_st :=
  let search_entry := set_addr (wsub (addr region) 1) region in
  region <- merge_neighbour k region search_entry ;;
  let search_entry := set_addr (wadd (addr search_entry) 2) search_entry in
  merge_neighbour k region search_entry.

Definition split_rounds (k : store_set) : PM nat :=
  s <- set_get k ;; retM (S (S (tree_size (root s)))).

(** Add a store and merge it with adjacent stores if possible; the store as it
    was inserted. *)
Definition add_and_merge_store (region : pmem_st) : PM pmem_st :=
  n <- split_rounds Stores ;;
  split_overlapping n Stores region ;;;
  region <- merge_neighbours Stores region ;;
  set_insert Stores region ;;;
  retM region.

(** The same for the set of the detailed report, into which a copy goes.  The
    region itself, a slot or a node of [pmem_stores], is changed by the
    merge. *)
Definition db_add_and_merge_store (region : pmem_st) : PM pmem_st :=
  n <- split_rounds Merged ;;
  split_overlapping n Merged region ;;;
  region <- merge_neighbours Merged region ;;
  i <- next_store_index ;;
  set_insert Merged (pmem_st_copy (set_index i pmem_st_zero) region) ;;;
  retM region.

(** * Bounds *)

(** Bounds [mn], [mx] after a store, [-1] standing for none. *)
Definition widen (store : pmem_st) (mn mx : Z) : Z * Z :=
  let '(mn, mx) :=
    if (mx =? word_max) && (mn =? word_max) then (addr store, max_addr store) else (mn, mx) in
  (if addr store <? mn then addr store else mn,
   if mx <? max_addr store then max_addr store else mx).

Definition update_pmem_stores_head_minandmax (store : pmem_st) : PM unit :=
  i <- last_snippet ;;
  snippet_set i (fun s =>
    let b := widen store (min_add s) (max_add s) in
    set_max_add (snd b) (set_min_add (fst b) s)).

Definition update_Oset_pmem_stores_minandmax (store : pmem_st) : PM unit :=
  pmod (fun p =>
    let b := widen store (min_add_pmem_store p) (max_add_pmem_store p) in
    set_max_add_pmem_store (snd b) (set_min_add_pmem_store (fst b) p)).

(** -1: outside the bounds of the snippet, 1: inside, 0: across them. *)
Definition cmp_with_arr_minandmax (p_st : pmem_st) (i : Z) : PM Z :=
  s <- snippet_get i ;;
  retM (if (max_add s <? addr p_st) || (max_addr p_st <? min_add s) then -1
        else if (min_add s <=? addr p_st) && (max_addr p_st <=? max_add s) then 1
        else 0).

(** * Handling a store *)

(** A repeated store of the same value within [store_sb_indiff] blocks. *)
Definition same_store (indiff : Z) (store existing : pmem_st) : bool :=
  (wsub (block_num store) (block_num existing) <? indiff) &&
  (addr existing =? addr store) && (size existing =? size store) &&
  (value existing =? value store).

Definition mult_stores_slot (store : pmem_st) (i : Z) : PM unit :=
  existing <- slot_get i ;;
  if is_delete existing then retM tt
  else if negb (cmp_pmem_st existing store =? 0) then retM tt
  else
    indiff <- oget store_sb_indiff ;;
    if same_store indiff store existing then slot_set i (set_is_delete true)
    else split_stores Stores (Slot i) store add_mult_overwrite_warn true.

Definition mult_stores_snippet (store : pmem_st) (s : Z) : PM unit :=
  c <- cmp_with_arr_minandmax store s ;;
  whenM (negb (c =? -1)) (all_slots s tt (fun _ => mult_stores_slot store)).

(** The body of the loop over the tree.  The removal is by the key of [store],
    and the node of [existing] is freed: when that is another node than the one
    removed, the tree keeps a freed node. *)
Definition mult_stores_node (store : pmem_st) (n : nat * pmem_st) : PM unit :=
  let existing := snd n in
  if negb (cmp_pmem_st existing store =? 0) then retM tt
  else
    indiff <- oget store_sb_indiff ;;
    if same_store indiff store existing then
      found <- set_lookup Stores store ;;
      if negb (bool_decide (fst <$> found = Some (fst n))) then stopM Undefined
      else
        _ <- set_remove Stores store ;;
        set_reset_at Stores store
    else split_stores Stores (InSet (fst n)) store add_mult_overwrite_warn false.

(** The rounds of a loop over the tree: an entry may be visited once more
    after it was changed, and so may the (at most two) parts split from it. *)
Definition tree_rounds : PM nat :=
  s <- pget pmem_stores ;; retM (S (4 * tree_size (root s))).

(** Handle a new store checking for multiple overwrites. *)
Definition handle_with_mult_stores (store : pmem_st) : PM unit :=
  all_snippets tt (fun _ => mult_stores_snippet store) ;;;
  mx <- pget max_add_pmem_store ;; mn <- pget min_add_pmem_store ;;
  if (mx <? addr store) || (max_addr store <? mn) then retM tt
  else
    set_reset Stores ;;;
    n <- tree_rounds ;;
    while_next n (set_next Stores) (mult_stores_node store).

(** The fields [trace_pmem_store] assigns of the store it has allocated. *)
Definition fill_store (ep : bool) (a sz v blocks : Z) (ctx : option context_ptr) (st : pmem_st)
    : pmem_st :=
  let st := if ep then set_inEpoch true st else set_is_delete false st in
  let st := set_is_delete false (set_value v (set_block_num blocks
              (set_state STST_DIRTY (set_size sz (set_addr a st))))) in
  match ctx with Some c => set_context c st | None => st end.

(** The time of the last store to an ordered region. *)
Definition time_next : PM (option (nat * pmem_st_order)) :=
  s <- pget pmem_time_records ;; r <- liftM AssertFail (OSetGen_Next s) ;;
  pmod (set_pmem_time_records (snd r)) ;;; retM (fst r).

Definition time_reset : PM unit :=
  s <- pget pmem_time_records ;; s' <- liftM AssertFail (OSetGen_ResetIter s) ;;
  pmod (set_pmem_time_records s').

Definition time_assign (n : nat) (f : pmem_st_order -> pmem_st_order) : PM unit :=
  s <- pget pmem_time_records ;; pmod (set_pmem_time_records (OSetGen_Update s n f)).

Definition time_rounds : PM nat :=
  s <- pget pmem_time_records ;; retM (S (tree_size (root s))).

Definition store_time_records (store : pmem_st) : PM unit :=
  let search_pmem := mkOrder 0 0 0 None (addr store) (size store) in
  time_reset ;;;
  n <- time_rounds ;;
  while_next n time_next (fun old_pmem =>
    whenM (cmp_pmem_st_order search_pmem (snd old_pmem) =? 0)
      (now <- pget global_time_stamp ;;
       time_assign (fst old_pmem) (fun o =>
         set_timestamp_end word_max (set_timestamp_begin now o)) ;;;
       t <- oget o_tree_reorganization ;; d <- oget o_print_bug_detail ;;
       whenM (t || d) (time_assign (fst old_pmem) (set_or_context (context store))))).

(** Where the store is kept: a slot of the array, or a node that is not yet in
    the set. *)
Definition alloc_store : PM (option Z * pmem_st) :=
  l <- last_snippet ;;
  sn <- snippet_get l ;;
  if sn_index sn <? MAX_ARRAY_NUM then
    st <- slot_get (sn_index sn) ;; retM (Some (sn_index sn), st)
  else
    i <- next_store_index ;; retM (None, set_index i pmem_st_zero).

(** Put the store into the tree, or count it in the snippet; the store as it is
    afterwards. *)
Definition enter_store (slot : option Z) (store : pmem_st) : PM pmem_st :=
  match slot with
  | None =>
      t <- oget o_tree_reorganization ;;
      store <- (if (t : bool) then add_and_merge_store store
                else set_insert Stores store ;;; retM store) ;;
      update_Oset_pmem_stores_minandmax store ;;;
      retM store
  | Some i =>
      l <- last_snippet ;;
      snippet_set l (fun s => set_sn_index (sn_index s + 1) s) ;;;
      update_pmem_stores_head_minandmax store ;;;
      retM store
  end.

(** Trace the given store if it was to any of the registered persistent memory
    regions. *)
Definition trace_pmem_store (a sz v : Z) : PM unit :=
  b <- is_pmem_access a sz ;;
  if negb b then retM tt else
  loc <- alloc_store ;;
  ep <- pget epoch ;;
  blocks <- getsM sblocks ;;
  t <- oget o_tree_reorganization ;; d <- oget o_print_bug_detail ;;
  ctx <- (if t || d then c <- record_ExeContext ;; retM (Some c) else retM None) ;;
  let store := fill_store ep a sz v blocks ctx (snd loc) in
  match fst loc with Some i => slot_set i (fun _ => store) | None => retM tt end ;;;
  lg <- oget log_stores ;;
  whenM lg
    (emit "|STORE;0x%lx;0x%lx;0x%lx" [Num a; Num v; Num sz] ;;;
     tr <- oget store_traces ;; depth <- oget store_traces_depth ;;
     whenM tr (pp_store_trace store depth)) ;;;
  mult <- oget track_multiple_stores ;;
  whenM mult (handle_with_mult_stores store) ;;;
  og <- oget order_guarantee ;;
  whenM og (store_time_records store) ;;;
  store <- enter_store (fst loc) store ;;
  in_tx (handle_tx_store store).

(** Register the entry of a new SB. *)
Definition add_one_SB_entered : PM unit :=
  modM (fun w => mkWorld (w_tx w) (pmem w) (wadd (sblocks w) 1) (curr_strand_pmem w)
                   (prev_strands w)).
End Stores.
