(* ===== verification/Flush.v ===== *)
(** Flushes, fences, epochs and the order of stores: pmc_main.c from
    [check_pmem_order] to [trace_pmem_flush]. *)
From S2P Require Import Prelude OSet Region Core Trans Pmem Store.
Local Open Scope pm_scope.

(** * Reports of flushes *)

Definition print_redundant_flushes : PM unit :=
  n <- pget redundant_flushes_reg ;;
  umsg "\nNumber of redundantly flushed stores: %lu\n" [Num n] ;;;
  umsg "Stores flushed multiple times:\n" [] ;;;
  evs <- pget redundant_flushes ;;
  for_events (fun i tmp =>
    umsg "[%d] " [Num i] ;;;
    pp_context_opt (context tmp) ;;;
    umsg "\tAddress: 0x%lx\tsize: %llu\tstate: %s\n"
      [Num (addr tmp); Num (size tmp); Str (store_state_to_string (state tmp))]) 0 evs.

Definition print_superfluous_flushes : PM unit :=
  n <- pget superfluous_flushes_reg ;;
  umsg "\nNumber of unnecessary flushes: %lu\n" [Num n] ;;;
  evs <- pget superfluous_flushes ;;
  for_events (fun i tmp =>
    umsg "[%d] " [Num i] ;;;
    pp_context_opt (context tmp) ;;;
    umsg "\tAddress: 0x%lx\tsize: %llu\n" [Num (addr tmp); Num (size tmp)]) 0 evs.

Definition print_superfluous_flush_error (limit : Z) : PM unit :=
  umsg "The number of superfluous flushes exceeded %lu\n\n" [Num limit] ;;;
  umsg "This means your program is constantly flushing regions of memory, where no stores were made. This is a performance issue.\n" [] ;;;
  message_flush ;;;
  print_superfluous_flushes.

Definition print_redundant_flush_error (limit : Z) : PM unit :=
  umsg "The number of redundant flushes exceeded %lu\n\n" [Num limit] ;;;
  umsg "This means your program is constantly flushing regions of memory, which have already been flushed. This is a performance issue.\n" [] ;;;
  message_flush ;;;
  print_redundant_flushes.

(** Register a flush of a store that is not dirty. *)
Definition add_redundant_flush (being_flushed : pmem_st) : PM unit :=
  evs <- pget redundant_flushes ;;
  match add_warning_event evs (set_state STST_FLUSHED being_flushed) MAX_FLUSH_ERROR_EVENTS with
  | None => print_redundant_flush_error MAX_FLUSH_ERROR_EVENTS ;;; stopM ExitMinus1
  | Some evs => pmod (set_redundant_flushes evs)
  end.

Definition add_superfluous_flush (flush_info : pmem_st) : PM unit :=
  c <- record_ExeContext ;;
  evs <- pget superfluous_flushes ;;
  match add_warning_event evs (set_context c flush_info) MAX_FLUSH_ERROR_EVENTS with
  | None => print_superfluous_flush_error MAX_FLUSH_ERROR_EVENTS ;;; stopM ExitMinus1
  | Some evs => pmod (set_superfluous_flushes evs)
  end.

(** * Order of stores *)

Definition record_next : PM (option (nat * order_record)) :=
  s <- pget pmem_order_records ;; r <- liftM AssertFail (OSetGen_Next s) ;;
  pmod (set_pmem_order_records (snd r)) ;;; retM (fst r).

(** The set exists only if orders are checked; a null pointer fails the
    assertion of [VG_(OSetGen_ResetIter)]. *)
Definition record_reset : PM unit :=
  og <- oget order_guarantee ;;
  if negb og then stopM AssertFail else
  s <- pget pmem_order_records ;; s' <- liftM AssertFail (OSetGen_ResetIter s) ;;
  pmod (set_pmem_order_records s').

Definition record_rounds : PM nat :=
  s <- pget pmem_order_records ;; retM (S (tree_size (root s))).

Definition time_deref (n : nat) : PM pmem_st_order :=
  s <- pget pmem_time_records ;; liftM NullDeref (OSetGen_Deref s n).

(** Report the pairs whose first region was not persistent before the second
    was written. *)
Definition check_pmem_order : PM unit :=
  record_reset ;;;
  n <- record_rounds ;;
  while_next n record_next (fun tmp =>
    pmemA <- time_deref (rec_a (snd tmp)) ;;
    pmemB <- time_deref (rec_b (snd tmp)) ;;
    whenM (negb (timestamp_end pmemA <? timestamp_begin pmemB))
      (pmod (fun p => set_order_guarantee_reg (order_guarantee_reg p + 1) p) ;;;
       umsg "Not order guarantee: \n" [] ;;;
       pp_context_opt (or_context pmemA) ;;;
       pp_context_opt (or_context pmemB) ;;;
       umsg "\tFirst Address: 0x%lx\tFirst size: %lu\tSecond Address: 0x%lx\tSecond size: %lu\n"
         [Num (or_addr pmemA); Num (or_size pmemA); Num (or_addr pmemB); Num (or_size pmemB)])).

(** * Epochs *)

(** Count a fence of the current epoch; all but the first are redundant.  The
    test on the number of fences is on those of this epoch, the array holds
    those of all epochs. *)
Definition mark_epoch_fence : PM unit :=
  ep <- pget epoch ;;
  whenM ep
    (pmod (fun p => set_epoch_fence (wadd (epoch_fence p) 1) p) ;;;
     n <- pget epoch_fence ;;
     if MAX_REDUNDANT_FENCE - 1 <? n then
       umsg "exceed the capacity of MAX_REDUNDANT_FENCE" []
     else
       whenM (1 <? n)
         (reg <- pget redundant_fence_reg ;;
          if MAX_REDUNDANT_FENCE <=? reg then stopM Undefined
          else
            c <- record_ExeContext ;;
            pmod (fun p => set_redundant_fence (redundant_fence p ++ [c]) p))).

Definition epoch_begin : PM unit := pmod (set_epoch true).

(** Report a store that is still pending when its epoch ends. *)
Definition report_epoch_store (being_fenced : pmem_st) : PM unit :=
  umsg "Not persistent memory even if the epoch ends: \n" [] ;;;
  pp_context_opt (context being_fenced) ;;;
  umsg "\tAddress: 0x%lx\tsize: %llu\tstate: %s\n"
    [Num (addr being_fenced); Num (size being_fenced);
     Str (store_state_to_string (state being_fenced))].

Definition epoch_reg_incr : PM unit :=
  pmod (fun p => set_epoch_durability_reg (epoch_durability_reg p + 1) p).

Definition epoch_end_node (n : nat * pmem_st) : PM unit :=
  whenM (inEpoch (snd n))
    (report_epoch_store (snd n) ;;;
     set_assign Stores (fst n) (set_inEpoch false) ;;;
     epoch_reg_incr).

Definition epoch_end_slot (i : Z) : PM unit :=
  being_fenced <- slot_get i ;;
  whenM (inEpoch being_fenced && negb (is_delete being_fenced))
    (report_epoch_store being_fenced ;;;
     slot_set i (set_inEpoch false) ;;;
     epoch_reg_incr).

Definition epoch_end (txid : Z) : PM unit :=
  ep <- pget epoch ;;
  if negb ep then umsg "Cannot find EPOCH_BEGIN\n" []
  else
    nest <- in_tx (is_nest_trans txid) ;;
    whenM (negb nest) (pmod (set_epoch false)) ;;;
    pmod (set_epoch_fence 0) ;;;
    set_reset Stores ;;;
    n <- tree_rounds ;;
    while_next n (set_next Stores) epoch_end_node ;;;
    all_snippets tt (fun _ s => all_slots s tt (fun _ => epoch_end_slot)).

(** * Fences *)

Section Fence.
Context `{CoreEnv}.

(** A flushed part of the array makes the ordered region persistent now. *)
Definition order_slot (mn mx : Z) (rec : nat) (i : Z) : PM unit :=
  tmp_array <- slot_get i ;;
  whenM (bool_decide (state tmp_array = STST_FLUSHED) &&
         negb ((max_addr tmp_array <? mn) || (mx <? addr tmp_array)))
    (now <- pget global_time_stamp ;; time_assign rec (set_timestamp_end now)).

Definition order_snippet (mn mx : Z) (rec : nat) (s : Z) : PM unit :=
  sn <- snippet_get s ;;
  let apart := (max_add sn <? mn) || (mx <? min_add sn) in
  match flushed_num sn with
  | ALL_FLUSHED =>
      whenM (negb apart)
        (now <- pget global_time_stamp ;; time_assign rec (set_timestamp_end now))
  | PART_FLUSHED =>
      whenM (negb apart) (all_slots s tt (fun _ => order_slot mn mx rec))
  | NO_FLUSHED => retM tt
  end.

Definition order_node (a sz : Z) (rec : nat) (n : nat * pmem_st) : PM unit :=
  whenM ((cmp_pmem_st (snd n) (region_at a sz) =? 0) &&
         bool_decide (state (snd n) = STST_FLUSHED))
    (now <- pget global_time_stamp ;; time_assign rec (set_timestamp_end now)).

(** The time at which the ordered regions become persistent. *)
Definition fence_time_records : PM unit :=
  time_reset ;;;
  n <- time_rounds ;;
  while_next n time_next (fun old_pmem =>
    let o := snd old_pmem in
    all_snippets tt (fun _ =>
      order_snippet (or_addr o) (wadd (or_addr o) (or_size o)) (fst old_pmem)) ;;;
    set_reset Stores ;;;
    m <- tree_rounds ;;
    while_next m (set_next Stores) (order_node (or_addr o) (or_size o) (fst old_pmem))).

(** The flushed stores leave the tree; the bounds are those of the others. *)
Definition fence_node (n : nat * pmem_st) : PM unit :=
  let being_fenced := snd n in
  if bool_decide (state being_fenced = STST_FLUSHED) then
    _ <- set_remove Stores being_fenced ;;
    set_reset_at Stores being_fenced
  else update_Oset_pmem_stores_minandmax being_fenced.

Definition fence_tree : PM unit :=
  pmod (fun p => set_min_add_pmem_store word_max (set_max_add_pmem_store word_max p)) ;;;
  set_reset Stores ;;;
  n <- tree_rounds ;;
  while_next n (set_next Stores) fence_node.

(** The stores of the array that are neither flushed nor deleted move to the
    tree. *)
Definition fence_slot (i : Z) : PM unit :=
  being_fenced <- slot_get i ;;
  if bool_decide (state being_fenced = STST_FLUSHED) || is_delete being_fenced then retM tt
  else
    n <- next_store_index ;;
    let new := pmem_st_copy (set_index n pmem_st_zero) being_fenced in
    t <- oget o_tree_reorganization ;;
    new <- (if (t : bool) then add_and_merge_store new
            else set_insert Stores new ;;; retM new) ;;
    update_Oset_pmem_stores_minandmax new.

Definition fence_snippet (s : Z) : PM unit :=
  sn <- snippet_get s ;;
  if bool_decide (flushed_num sn = ALL_FLUSHED) then retM tt
  else all_slots s tt (fun _ => fence_slot).

(** The array is empty again. *)
Definition fence_reset : PM unit :=
  snippet_set 0 (fresh_snippet 0) ;;;
  on_array (set_snippet_info_index 0).

(** Register a fence: flushed stores are persistent. *)
Definition do_fence : PM unit :=
  lg <- oget log_stores ;;
  whenM lg (emit "|FENCE" []) ;;;
  og <- oget order_guarantee ;;
  whenM og fence_time_records ;;;
  fence_tree ;;;
  all_snippets tt (fun _ => fence_snippet) ;;;
  fence_reset ;;;
  whenM og (pmod (fun p => set_global_time_stamp (global_time_stamp p + 1) p)).

(** * Flushes *)

(** [roundup] of <sys/param.h> for a divisor that is not a constant. *)
Definition roundup (x y : Z) : Z := wrap (wadd x (y - 1) / y * y).

(** The region to flush, widened to cache lines if asked for. *)
Definition flush_region (base sz : Z) : PM pmem_st :=
  force <- oget force_flush_align ;;
  align <- oget flush_align_size ;;
  retM (if (force : bool)
        then region_at (Z.land base (wrap (Z.lnot (align - 1)))) (roundup sz align)
        else region_at base sz).

(** A strand other than the first flushes a region that is ordered after
    another. *)
Definition strand_order_check (flush_info : pmem_st) : PM unit :=
  let flush_order := mkOrder 0 0 0 None (addr flush_info) (size flush_info) in
  record_reset ;;;
  n <- record_rounds ;;
  while_next n record_next (fun tmp =>
    b <- time_deref (rec_b (snd tmp)) ;;
    whenM (cmp_pmem_st_order flush_order b =? 0)
      (pmod (fun p => set_lack_ordering_trand_reg (lack_ordering_trand_reg p + 1) p) ;;;
       umsg "Violating order guarantee because of multi-strands: \n" [] ;;;
       c <- record_ExeContext ;;
       pp_context_opt c ;;;
       umsg "\t flush Address: 0x%lx\tflush size: %lu\n"
         [Num (or_addr flush_order); Num (or_size flush_order)])).

(** The memory for a part split from a store of the array: the next slot of the
    last snippet, which is counted at once, or a node. *)
Definition alloc_split : PM (option Z * pmem_st) :=
  loc <- alloc_store ;;
  match fst loc with
  | Some _ =>
      l <- last_snippet ;;
      snippet_set l (fun s => set_sn_index (sn_index s + 1) s)
  | None => retM tt
  end ;;;
  retM loc.

Definition enter_split (slot : option Z) (split : pmem_st) : PM unit :=
  match slot with
  | Some i => slot_set i (fun _ => split)
  | None =>
      t <- oget o_tree_reorganization ;;
      if (t : bool) then _ <- add_and_merge_store split ;; retM tt
      else set_insert Stores split
  end.

(** The part of the store in slot [i] that lies before the flush stays
    dirty. *)
Definition split_before (flush_info : pmem_st) (i : Z) : PM unit :=
  b <- slot_get i ;;
  whenM (addr b <? addr flush_info)
    (loc <- alloc_split ;;
     let split := set_state STST_DIRTY (set_size (wsub (addr flush_info) (addr b))
                    (pmem_st_copy (snd loc) b)) in
     slot_set i (fun b => set_size (wsub (size b) (size split))
                            (set_addr (addr flush_info) b)) ;;;
     enter_split (fst loc) split).

(** The part that lies after it, too. *)
Definition split_after (flush_info : pmem_st) (i : Z) : PM unit :=
  let flush_max := max_addr flush_info in
  b <- slot_get i ;;
  whenM (flush_max <? max_addr b)
    (loc <- alloc_split ;;
     let split := set_state STST_DIRTY (set_size (wsub (max_addr b) flush_max)
                    (set_addr flush_max (pmem_st_copy (snd loc) b))) in
     slot_set i (fun b => set_size (wsub (size b) (size split)) b) ;;;
     enter_split (fst loc) split).

Definition redundant_check (being_flushed : pmem_st) : PM unit :=
  chk <- oget check_flush ;; whenM chk (add_redundant_flush being_flushed).

(** One store of the array; the result says whether the flush was valid. *)
Definition flush_slot (flush_info : pmem_st) (s : Z) (valid : bool) (i : Z) : PM bool :=
  being_flushed <- slot_get i ;;
  if is_delete being_flushed then slot_set i (set_state STST_FLUSHED) ;;; retM valid
  else if negb (cmp_pmem_st flush_info being_flushed =? 0) then retM valid
  else
    sn <- snippet_get s ;;
    if bool_decide (flushed_num sn = ALL_FLUSHED) ||
       negb (bool_decide (state being_flushed = STST_DIRTY)) then
      redundant_check being_flushed ;;; retM true
    else
      slot_set i (set_state STST_FLUSHED) ;;;
      snippet_set s (set_flushed_num PART_FLUSHED) ;;;
      split_before flush_info i ;;;
      split_after flush_info i ;;;
      retM true.

(** One snippet: covered as a whole, not touched, or looked at store by
    store. *)
Definition flush_snippet (flush_info : pmem_st) (valid : bool) (s : Z) : PM bool :=
  let flush_max := max_addr flush_info in
  sn <- snippet_get s ;;
  if (max_add sn <=? flush_max) && (addr flush_info <=? min_add sn) &&
     bool_decide (flushed_num sn = NO_FLUSHED) then
    snippet_set s (set_flushed_num ALL_FLUSHED) ;;; retM true
  else if (flush_max <? min_add sn) || (max_add sn <? addr flush_info) then retM valid
  else all_slots s valid (flush_slot flush_info s).

(** One store of the tree.  The part before the flush is a copy of the store,
    the part after it only gets an address, a size and a state; after each the
    iterator is put back at the store. *)
Definition flush_node (flush_info : pmem_st) (valid : bool) (n : nat * pmem_st) : PM bool :=
  let flush_max := max_addr flush_info in
  let p := fst n in
  let being_flushed := snd n in
  if negb (cmp_pmem_st flush_info being_flushed =? 0) then retM valid
  else if negb (bool_decide (state being_flushed = STST_DIRTY)) then
    redundant_check being_flushed ;;; retM true
  else
    set_assign Stores p (set_state STST_FLUSHED) ;;;
    b <- set_deref Stores p ;;
    whenM (addr b <? addr flush_info)
      (i <- next_store_index ;;
       let split := set_state STST_DIRTY (set_size (wsub (addr flush_info) (addr b))
                      (pmem_st_copy (set_index i pmem_st_zero) b)) in
       set_assign Stores p (fun b => set_size (wsub (size b) (size split))
                                       (set_addr (addr flush_info) b)) ;;;
       set_insert Stores split ;;;
       b <- set_deref Stores p ;;
       set_reset_at Stores b) ;;;
    b <- set_deref Stores p ;;
    whenM (flush_max <? max_addr b)
      (i <- next_store_index ;;
       let split := set_state STST_DIRTY (set_size (wsub (max_addr b) flush_max)
                      (set_addr flush_max (set_index i pmem_st_zero))) in
       set_assign Stores p (fun b => set_size (wsub (size b) (size split)) b) ;;;
       set_insert Stores split ;;;
       b <- set_deref Stores p ;;
       set_reset_at Stores b) ;;;
    retM true.

Definition flush_tree (flush_info : pmem_st) (valid : bool) : PM bool :=
  mx <- pget max_add_pmem_store ;; mn <- pget min_add_pmem_store ;;
  if (mx <? addr flush_info) || (max_addr flush_info <? mn) then retM valid
  else
    set_reset Stores ;;;
    n <- tree_rounds ;;
    fold_next n (set_next Stores) valid (flush_node flush_info).

(** Register a flush: dirty stores of the region are flushed. *)
Definition do_flush (base sz : Z) : PM unit :=
  flush_info <- flush_region base sz ;;
  lg <- oget log_stores ;;
  whenM lg (emit "|FLUSH;0x%lx;0x%llx" [Num (addr flush_info); Num (size flush_info)]) ;;;
  lack <- oget lack_ordering_trand ;;
  cur <- getsM curr_strand_pmem ;;
  whenM (lack && (0 <? strand_id cur)) (strand_order_check flush_info) ;;;
  valid <- all_snippets false (flush_snippet flush_info) ;;
  valid <- flush_tree flush_info valid ;;
  chk <- oget check_flush ;;
  whenM (negb valid && chk) (add_superfluous_flush flush_info) ;;;
  l <- last_snippet ;;
  sn <- snippet_get l ;;
  whenM (negb (bool_decide (flushed_num sn = NO_FLUSHED))) init_snippet_info.

(** Register runtime flush. *)
Definition trace_pmem_flush (a : Z) : PM unit :=
  align <- oget flush_align_size ;; do_flush a align.
End Fence.
