(* ===== verification/Report.v ===== *)
(** The reports: the printing functions of pmc_main.c and the gdb monitor. *)
From S2P Require Import Prelude OSet Region Core Trans Pmem Store Flush.
Local Open Scope pm_scope.

(** Prints registered redundant fences. *)
Definition print_redundant_fences : PM unit :=
  n <- pget redundant_fence_reg ;;
  if n =? 0 then retM tt else
  umsg "Number of redundantly fence: %lu\n" [Num n] ;;;
  evs <- pget redundant_fence ;;
  for_events (fun i tmp => umsg "[%d] " [Num i] ;;; pp_context_opt tmp) 0 evs.

(** The line of a store. *)
Definition print_store_line (tmp : pmem_st) : PM unit :=
  pp_context_opt (context tmp) ;;;
  umsg "\tAddress: 0x%lx\tsize: %llu\tstate: %s\n"
    [Num (addr tmp); Num (size tmp); Str (store_state_to_string (state tmp))].

(** A store of a snippet that was flushed as a whole is marked as flushed when
    it is reported. *)
Definition settle_slot (s i : Z) : PM unit :=
  sn <- snippet_get s ;;
  whenM (bool_decide (flushed_num sn = ALL_FLUSHED)) (slot_set i (set_state STST_FLUSHED)).

Definition stats_slot (s : Z) (k : Z) (i : Z) : PM Z :=
  settle_slot s i ;;;
  tmp <- slot_get i ;;
  umsg " [%lu] " [Num k] ;;;
  print_store_line tmp ;;;
  retM (k + 1).

(** The lines of the stores of the tree, after [k] lines for the array. *)
Definition stats_tree (k : Z) : PM Z :=
  set <- pget pmem_stores ;;
  if OSetGen_Size set =? 0 then retM k
  else
    set_reset Stores ;;;
    n <- tree_rounds ;;
    fold_next n (set_next Stores) k (fun k tmp => print_store_line (snd tmp) ;;; retM (k + 1)).

(** Print outstanding stores; [k] counts them, deleted ones included. *)
Definition print_store_stats : PM unit :=
  k <- all_snippets 0 (fun k s => all_slots s k (stats_slot s)) ;;
  k <- stats_tree k ;;
  pmod (set_not_pmem_num k).

Section Detail.
Context `{CoreEnv}.

(** A store of the array goes to the set of the detailed report; the merge
    changes the slot too. *)
Definition detail_slot (s i : Z) : PM unit :=
  tmp <- slot_get i ;;
  if is_delete tmp then retM tt
  else
    settle_slot s i ;;;
    tmp <- slot_get i ;;
    tmp <- db_add_and_merge_store tmp ;;
    slot_set i (fun _ => tmp).

Definition detail_node (n : nat * pmem_st) : PM unit :=
  tmp <- db_add_and_merge_store (snd n) ;;
  set_assign Stores (fst n) (fun _ => tmp).

(** Start the set of the report anew. *)
Definition reset_merged : PM unit :=
  old <- pget debug_memory_merge ;;
  match old with
  | None => retM tt
  | Some set => _ <- liftM AssertFail (OSetGen_Destroy set) ;; retM tt
  end ;;;
  pmod (set_debug_memory_merge (Some (OSetGen_Create (Some cmp_pmem_st)))).

(** The lines of the merged stores: how many, and how many bytes. *)
Definition detail_line (acc : Z * Z) (n : nat * pmem_st) : PM (Z * Z) :=
  umsg "[%d] " [Num (fst acc)] ;;;
  print_store_line (snd n) ;;;
  retM (fst acc + 1, wadd (snd acc) (size (snd n))).

Definition print_store_stats_detail : PM unit :=
  pmod (set_not_pmem_num 0) ;;;
  reset_merged ;;;
  all_snippets tt (fun _ s => all_slots s tt (fun _ => detail_slot s)) ;;;
  set <- pget pmem_stores ;;
  whenM (negb (OSetGen_Size set =? 0))
    (set_reset Stores ;;;
     n <- tree_rounds ;;
     while_next n (set_next Stores) detail_node) ;;;
  merged <- set_get Merged ;;
  umsg "Number of stores not made persistent: %u\n" [Num (OSetGen_Size merged)] ;;;
  if OSetGen_Size merged =? 0 then retM tt
  else
    set_reset Merged ;;;
    umsg "Stores not made persistent properly:\n" [] ;;;
    r <- fold_next (rounds merged) (set_next Merged) (0, 0) detail_line ;;
    pmod (set_not_pmem_num (fst r)) ;;;
    umsg "Total memory not made persistent: %lu\n" [Num (snd r)].

(** The number of all errors. *)
Definition all_errors : PM Z :=
  p <- pget (fun p => p) ;;
  tx <- in_tx get_tx_all_err ;;
  retM (redundant_flushes_reg p + superfluous_flushes_reg p + multiple_stores_reg p +
        not_pmem_num p + redundant_fence_reg p + epoch_durability_reg p +
        order_guarantee_reg p + lack_ordering_trand_reg p + tx).

(** Print the summary of whole analysis. *)
Definition print_general_summary : PM unit :=
  n <- all_errors ;; umsg "ERROR SUMMARY: %lu errors\n" [Num n].

(** Print tool statistics. *)
Definition print_pmem_stats (append_blank_line : bool) : PM unit :=
  d <- oget o_print_bug_detail ;;
  (if (d : bool) then print_store_stats_detail else print_store_stats) ;;;
  in_tx print_tx_summary ;;;
  print_redundant_fences ;;;
  rf <- pget redundant_flushes_reg ;;
  whenM (negb (rf =? 0)) print_redundant_flushes ;;;
  sf <- pget superfluous_flushes_reg ;;
  whenM (negb (sf =? 0)) print_superfluous_flushes ;;;
  tm <- oget track_multiple_stores ;; ms <- pget multiple_stores_reg ;;
  whenM (tm && (0 <? ms)) print_multiple_stores ;;;
  es <- oget error_summary ;;
  whenM es print_general_summary ;;;
  whenM append_blank_line (umsg "\n" []).

(** * Mappings *)

Definition mapping_next : PM (option (nat * pmem_st)) :=
  s <- pget pmem_mappings ;; r <- liftM AssertFail (OSetGen_Next s) ;;
  pmod (set_pmem_mappings (snd r)) ;;; retM (fst r).

Definition mapping_reset : PM unit :=
  s <- pget pmem_mappings ;; s' <- liftM AssertFail (OSetGen_ResetIter s) ;;
  pmod (set_pmem_mappings s').

(** Print the registered persistent memory mappings. *)
Definition print_persistent_mappings : PM unit :=
  mapping_reset ;;;
  s <- pget pmem_mappings ;;
  _ <- fold_next (rounds s) mapping_next 0 (fun i mapping =>
         umsg "[%d] Mapping base: 0x%lx\tsize: %llu\n"
           [Num i; Num (addr (snd mapping)); Num (size (snd mapping))] ;;;
         retM (i + 1)) ;;
  retM tt.

(** * The gdb monitor *)

Definition print_monitor_help : PM unit :=
  gdb_printf "\npmemcheck gdb monitor commands:\n  print_stats\n        prints the summary\n  print_pmem_regions \n        prints the registered persistent memory regions\n\n" [].

(** What [VG_(keyword_id)] makes of the first word of a request. *)
Inductive monitor_cmd : Type :=
  | CmdDuplicate | CmdUnknown | CmdHelp | CmdPrintStats | CmdPrintRegions.

Definition print_gdb_line (tmp : pmem_st) : PM unit :=
  gdb_printf "\tAddress: 0x%lx \tsize: %llu\n" [Num (addr tmp); Num (size tmp)].

(** Gdb monitor command handler: whether the command is recognized. *)
Definition handle_gdb_monitor_command (cmd : monitor_cmd) : PM bool :=
  match cmd with
  | CmdDuplicate => retM true
  | CmdUnknown => retM false
  | CmdHelp => print_monitor_help ;;; retM true
  | CmdPrintStats => print_pmem_stats true ;;; retM true
  | CmdPrintRegions =>
      gdb_printf "Registered persistent memory regions:\n" [] ;;;
      all_snippets tt (fun _ s => all_slots s tt (fun _ i =>
        tmp <- slot_get i ;; print_gdb_line tmp)) ;;;
      set_reset Stores ;;;
      n <- tree_rounds ;;
      while_next n (set_next Stores) (fun tmp => print_gdb_line (snd tmp)) ;;;
      retM true
  end.
End Detail.
