(* ===== verification/Client.v ===== *)
(** The interface of the tool: command line, start and end, and the requests
    of the client program (the end of pmc_main.c, pmdebugger.h). *)
From S2P Require Import Prelude OSet Region Core Trans Pmem Store Flush Report.
Local Open Scope pm_scope.

(** What the tool reads from outside: the client's memory, the file system and
    the core's keyword table. *)
Class ClientEnv : Type := {
  (** the string at an address of the client *)
  string_at : Z -> string;
  (** the first word of a monitor request, as [VG_(keyword_id)] finds it *)
  keyword_id : string -> monitor_cmd;
  (** the target of [/proc/self/fd/<fd>], if it can be read *)
  readlink : Z -> option string;
  (** the buffers successive reads of [/proc/cpuinfo] fill, [None] if it cannot
      be opened *)
  cpuinfo : option (list string);
  (** memory from [VG_(malloc)] *)
  malloc_slots : Z -> pmem_st;
  malloc_snippets : Z -> arr_snippet;
}.

(** * Numbers in strings *)

Definition isspace (c : Ascii.ascii) : bool :=
  let n := Z.of_N (Ascii.N_of_ascii c) in (n =? 32) || ((9 <=? n) && (n <=? 13)).

Definition dec_digit (c : Ascii.ascii) : option Z :=
  let n := Z.of_N (Ascii.N_of_ascii c) in
  if (48 <=? n) && (n <=? 57) then Some (n - 48) else None.

Fixpoint skip_space (s : string) : string :=
  match s with
  | String c s' => if isspace c then skip_space s' else s
  | EmptyString => s
  end.

(** A [Long]: a signed integer of 64 bits, which wraps around. *)
Definition int64 (z : Z) : Z := (z + 2 ^ 63) mod 2 ^ 64 - 2 ^ 63.

(** The value of the digits at the start of a string, the rest of it, and
    whether there were any. *)
Fixpoint dec_digits (n : Z) (conv : bool) (s : string) : Z * string * bool :=
  match s with
  | String c s' =>
      match dec_digit c with
      | Some d => dec_digits (int64 (10 * n + d)) true s'
      | None => (n, s, conv)
      end
  | EmptyString => (n, s, conv)
  end.

(** [VG_(strtoll10)] (m_libcbase.c): the number and what follows it. *)
Definition strtoll10 (str : string) : Z * string :=
  let s := skip_space str in
  let '(neg, s) :=
    match s with
    | String c s' =>
        if Ascii.eqb c (Ascii.ascii_of_nat 45) then (true, s')
        else if Ascii.eqb c (Ascii.ascii_of_nat 43) then (false, s') else (false, s)
    | EmptyString => (false, s)
    end in
  let '(n, rest, conv) := dec_digits 0 false s in
  ((if (neg : bool) then int64 (- n) else n), if (conv : bool) then rest else str).

(** * Command line *)

(** What follows a prefix. *)
Fixpoint strip_prefix (pat s : string) : option string :=
  match pat, s with
  | EmptyString, _ => Some s
  | String a pat, String b s => if Ascii.eqb a b then strip_prefix pat s else None
  | String _ _, EmptyString => None
  end.

(** [VG_BOOL_CLO]: [None] if this is another option, [Some None] if its value
    is invalid. *)
Definition bool_clo (arg opt : string) : option (option bool) :=
  match strip_prefix (opt +:+ "=") arg with
  | None => None
  | Some v =>
      if String.eqb v "yes" then Some (Some true)
      else if String.eqb v "no" then Some (Some false)
      else Some None
  end.

(** [VG_BINT_CLO]. *)
Definition bint_clo (arg opt : string) (lo hi : Z) : option (option Z) :=
  match strip_prefix (opt +:+ "=") arg with
  | None => None
  | Some v =>
      let '(n, rest) := strtoll10 v in
      if String.eqb rest "" && (lo <=? n) && (n <=? hi) then Some (Some n) else Some None
  end.

Definition UINT_MAX : Z := 2 ^ 32 - 1.

(** The options with a boolean value. *)
Definition bool_options : list (string * (bool -> options -> options)) :=
  [("--mult-stores", set_track_multiple_stores);
   ("--log-stores", set_log_stores);
   ("--log-stores-stacktraces", set_store_traces);
   ("--print-summary", set_print_summary);
   ("--flush-check", set_check_flush);
   ("--flush-align", set_force_flush_align);
   ("--tx-only", set_o_transactions_only);
   ("--isa-rec", set_automatic_isa_rec);
   ("--error-summary", set_error_summary);
   ("--expect-fence-after-clflush", set_weak_clflush);
   ("--tree-reorganization", set_o_tree_reorganization);
   ("--redundant-logging", set_o_redundant_logging);
   ("--epoch-durability-fence", set_epoch_durability_fence);
   ("--print-debug-detail", set_o_print_bug_detail);
   ("--order-guarantee", set_order_guarantee);
   ("--lack-ordering-in-strand", set_lack_ordering_trand)].

Definition int_options : list (string * Z * (Z -> options -> options)) :=
  [("--indiff", 0, set_store_sb_indiff);
   ("--log-stores-stacktraces-depth", 1, set_store_traces_depth)].

(** The first option of a table an argument is: [None] for none,
    [Some None] for an invalid value. *)
Fixpoint find_bool (arg : string) (l : list (string * (bool -> options -> options)))
    : option (option (options -> options)) :=
  match l with
  | [] => None
  | (name, set) :: l =>
      match bool_clo arg name with
      | Some (Some b) => Some (Some (set b))
      | Some None => Some None
      | None => find_bool arg l
      end
  end.

Fixpoint find_int (arg : string) (l : list (string * Z * (Z -> options -> options)))
    : option (option (options -> options)) :=
  match l with
  | [] => None
  | (name, lo, set) :: l =>
      match bint_clo arg name lo UINT_MAX with
      | Some (Some n) => Some (Some (set n))
      | Some None => Some None
      | None => find_int arg l
      end
  end.

(** Handle a tool command line argument: whether it is recognized.  No name is
    the beginning of another one with its [=], so that the order of the tests
    does not matter. *)
Definition pmc_process_cmd_line_option (arg : string) : PM bool :=
  match match find_bool arg bool_options with Some r => Some r | None => find_int arg int_options end with
  | None => retM false
  | Some None => stopM BadOption
  | Some (Some f) => pmod (fun p => set_opts (f (opts p)) p) ;;; retM true
  end.

(** * Start and end *)

(** The static [pmem] before [main]: all zero. *)
Definition options_zero : options :=
  mkOptions 0 false false false false 0 false false false 0 false false false false false
    false false false false.

(** The defaults [pmc_pre_clo_init] sets; the rest of it registers the tool's
    functions with the core. *)
Definition pmc_pre_clo_init (o : options) : options :=
  set_error_summary true (set_automatic_isa_rec true (set_store_traces_depth 1
    (set_print_summary true o))).

Section Client.
Context `{CoreEnv} `{ClientEnv}.

(** The number after the first [clflush size] in a buffer, truncated to an
    [int]. *)
Fixpoint after_str (s pat : string) : option string :=
  match strip_prefix pat s with
  | Some r => Some r
  | None => match s with EmptyString => None | String _ s => after_str s pat end
  end.

Definition clflush_str : string :=
  "clflush size" +:+ String (Ascii.ascii_of_nat 9) ": ".

Fixpoint find_cache_line (bufs : list string) : Z :=
  match bufs with
  | [] => 64
  | buf :: bufs =>
      match after_str buf clflush_str with
      | Some rest =>
          let n := fst (strtoll10 rest) in int32 (if n =? 0 then 64 else n)
      | None => find_cache_line bufs
      end
  end.

(** Read the cache line size - linux specific. *)
Definition read_cache_line_size : Z :=
  match cpuinfo with None => 64 | Some bufs => find_cache_line bufs end.

(** A set of stores: ordered by address if it is to be reorganized, by number
    otherwise. *)
Definition new_pmem_stores (tree : bool) : region_set :=
  OSetGen_Create_With_Pool (Some (if tree then cmp_pmem_st else cmp_pmem_own_st)).

Definition new_array : pmem_stores_array :=
  mkArray 0 malloc_slots (arr_upd 0 (fresh_snippet 0) malloc_snippets).

(** Post command line options initialization. *)
Definition pmc_post_clo_init : PM unit :=
  o <- pget opts ;;
  modM (fun w => with_globals (set_db_pmem_store_index 0 (the_globals w)) w) ;;;
  let o' := set_flush_align_size read_cache_line_size o in
  modM (set_pmem
    (mkPmem (new_pmem_stores (o_tree_reorganization o)) word_max word_max 0 new_array None
       (OSetGen_Create (Some cmp_pmem_st)) word_max word_max [] [] [] o' false 0 [] 0
       (OSetGen_Create_With_Pool (Some cmp_own_order)) 0
       (OSetGen_Create_With_Pool (Some cmp_own_record)) 0 0 0)) ;;;
  in_tx (init_transactions (o_transactions_only o) (o_tree_reorganization o)
           (o_redundant_logging o) (o_print_bug_detail o)) ;;;
  modM (fun w => mkWorld (w_tx w) (pmem w) (sblocks w) (mkStrand None 0) []) ;;;
  whenM (log_stores o) (emit "START" []).

(** Called on program exit. *)
Definition pmc_fini : PM unit :=
  og <- oget order_guarantee ;;
  whenM og check_pmem_order ;;;
  l <- last_snippet ;;
  whenM (MAX_ARRAY_NUM <=? l)
    (umsg "====================================pmem.array.snippet_info_index>=MAX_ARRAY_NUM============================================\n" []) ;;;
  lg <- oget log_stores ;;
  whenM lg (emit "|STOP\n" []) ;;;
  ps <- oget print_summary ;;
  whenM ps (print_pmem_stats false).

(** * Client requests *)

Inductive request : Type :=
  | REGISTER_PMEM_MAPPING | REGISTER_PMEM_FILE | REMOVE_PMEM_MAPPING
  | CHECK_IS_PMEM_MAPPING | PRINT_PMEM_MAPPINGS | DO_FLUSH | DO_FENCE
  | RESERVED1 | WRITE_STATS | RESERVED2 | RESERVED3 | RESERVED4 | RESERVED5
  | RESERVED7 | RESERVED8 | RESERVED9 | RESERVED10 | SET_CLEAN
  | START_TX | START_TX_N | END_TX | END_TX_N | ADD_TO_TX | ADD_TO_TX_N
  | REMOVE_FROM_TX | REMOVE_FROM_TX_N | ADD_THREAD_TO_TX_N
  | REMOVE_THREAD_FROM_TX_N | ADD_TO_GLOBAL_TX_IGNORE | RESERVED6 | EMIT_LOG
  | EPOCH_BEGIN | EPOCH_END | FENCE_MARK | NEW_STRAND | ORDER_GUARANTEE
  | GDB_MONITOR_COMMAND.

(** The enumeration of pmdebugger.h, in its order. *)
Definition requests : list request :=
  [REGISTER_PMEM_MAPPING; REGISTER_PMEM_FILE; REMOVE_PMEM_MAPPING;
   CHECK_IS_PMEM_MAPPING; PRINT_PMEM_MAPPINGS; DO_FLUSH; DO_FENCE;
   RESERVED1; WRITE_STATS; RESERVED2; RESERVED3; RESERVED4; RESERVED5;
   RESERVED7; RESERVED8; RESERVED9; RESERVED10; SET_CLEAN;
   START_TX; START_TX_N; END_TX; END_TX_N; ADD_TO_TX; ADD_TO_TX_N;
   REMOVE_FROM_TX; REMOVE_FROM_TX_N; ADD_THREAD_TO_TX_N;
   REMOVE_THREAD_FROM_TX_N; ADD_TO_GLOBAL_TX_IGNORE; RESERVED6; EMIT_LOG;
   EPOCH_BEGIN; EPOCH_END; FENCE_MARK; NEW_STRAND; ORDER_GUARANTEE].

(** [VG_USERREQ_TOOL_BASE('P', 'C')]. *)
Definition PC_BASE : Z := Z.lor (Z.shiftl 80 24) (Z.shiftl 67 16).

Definition is_tool_userreq (v : Z) : bool := Z.land v 4294901760 =? PC_BASE.

(** The request of a code: [None] for an unknown one. *)
Definition request_of (code : Z) : option request :=
  if code =? 4610 then Some GDB_MONITOR_COMMAND
  else if code <? PC_BASE then None
  else requests !! Z.to_nat (code - PC_BASE).

(** Register a mapping, and widen the bounds of all mappings. *)
Definition register_mapping (base sz : Z) : PM unit :=
  let temp_info := region_at base sz in
  pmod (fun p =>
    let b := widen temp_info (min_add_pmem_mappings p) (max_add_pmem_mappings p) in
    set_max_add_pmem_mappings (snd b) (set_min_add_pmem_mappings (fst b) p)) ;;;
  s <- pget pmem_mappings ;;
  s' <- liftM AssertFail (add_region temp_info s) ;;
  pmod (set_pmem_mappings s').

Definition no_mappings (p : pmem_ops) : pmem_ops :=
  set_min_add_pmem_mappings word_max (set_max_add_pmem_mappings word_max p).

(** The least address of a mapping. *)
Definition first_bound : PM unit :=
  mapping_reset ;;;
  pmem_tmp <- mapping_next ;;
  match pmem_tmp with
  | None => pmod no_mappings
  | Some (_, m) => pmod (set_min_add_pmem_mappings (addr m))
  end.

(** The end of the last mapping. *)
Definition last_bound : PM unit :=
  mapping_reset ;;;
  s <- pget pmem_mappings ;;
  before_pmem_tmp <- fold_next (rounds s) mapping_next None (fun _ m => retM (Some (snd m))) ;;
  match before_pmem_tmp with
  | None => pmod no_mappings
  | Some m => pmod (set_max_add_pmem_mappings (max_addr m))
  end.

(** Remove a mapping; the bounds are computed again when the mapping was the
    first or the last one. *)
Definition remove_mapping (base sz : Z) : PM unit :=
  let temp_info := region_at base sz in
  s <- pget pmem_mappings ;;
  s' <- liftM AssertFail (remove_region_mapping temp_info s) ;;
  pmod (set_pmem_mappings s') ;;;
  mn <- pget min_add_pmem_mappings ;;
  whenM (addr temp_info =? mn) first_bound ;;;
  mx <- pget max_add_pmem_mappings ;;
  whenM (max_addr temp_info =? mx) last_bound.

(** Try to register a file mapping: 0 on success, 1 otherwise. *)
Definition register_new_file (fd base sz offset : Z) : PM Z :=
  match readlink fd with
  | None => retM 1
  | Some file_name =>
      lg <- oget log_stores ;;
      whenM lg (emit "|REGISTER_FILE;%s;0x%lx;0x%lx;0x%lx"
                  [Str file_name; Num base; Num sz; Num offset]) ;;;
      retM 0
  end.

(** One store of the array under [SET_CLEAN].  The part a middle cut adds only
    gets an address and a size. *)
Definition clean_slot (region : pmem_st) (i : Z) : PM unit :=
  m <- slot_get i ;;
  if is_delete m then retM tt
  else if negb (cmp_pmem_st region m =? 0) then retM tt
  else match cut_region m region with
       | CutAll => slot_set i (set_is_delete true)
       | CutMiddle l r =>
           slot_set i (set_range l) ;;;
           loc <- alloc_split ;;
           enter_split (fst loc) (set_range r (snd loc))
       | CutHead p | CutTail p => slot_set i (set_range p)
       end.

Definition clean_snippet (region : pmem_st) (s : Z) : PM unit :=
  c <- cmp_with_arr_minandmax region s ;;
  whenM (negb (c =? -1)) (all_slots s tt (fun _ => clean_slot region)).

(** Mark a region as clean: its stores are forgotten. *)
Definition set_clean (base sz : Z) : PM unit :=
  let temp_info := region_at base sz in
  all_snippets tt (fun _ => clean_snippet temp_info) ;;;
  s <- pget pmem_stores ;;
  g <- getsM (fun w => the_globals w) ;;
  r <- liftM AssertFail (remove_region temp_info s (db_pmem_store_index g)) ;;
  pmod (set_pmem_stores (fst r)) ;;;
  modM (fun w => with_globals (set_db_pmem_store_index (snd r) (the_globals w)) w).

(** Start and end a transaction, with the epoch it is. *)
Definition start_tx (id : Z) : PM unit :=
  in_tx (register_new_tx id) ;;;
  ef <- oget epoch_durability_fence ;;
  whenM ef
    (nest <- in_tx (is_nest_trans id) ;; whenM (negb nest) epoch_begin).

Definition end_tx (id : Z) : PM Z :=
  ef <- oget epoch_durability_fence ;;
  nest <- (if (ef : bool) then in_tx (is_nest_trans id) else retM true) ;;
  r <- in_tx (remove_tx id) ;;
  whenM (negb nest) (mark_epoch_fence ;;; epoch_end id) ;;;
  retM r.

(** The state of a new strand: empty sets and arrays, the rest copied. *)
Definition strand_state (p : pmem_ops) : pmem_ops :=
  let p := set_not_pmem_num 0 (set_epoch_fence 0 (set_epoch false p)) in
  let p := if o_print_bug_detail (opts p) then set_debug_memory_merge None p else p in
  let p := set_pmem_stores (new_pmem_stores (o_tree_reorganization (opts p))) p in
  let p := set_array new_array p in
  set_opts (set_flush_align_size read_cache_line_size (opts p)) p.

(** Begin a new strand.  The number of the current one is incremented, and the
    new one gets the same number. *)
Definition new_strand : PM unit :=
  modM (fun w =>
    let cur := curr_strand_pmem w in
    let id := wadd (strand_id cur) 1 in
    mkWorld (w_tx w) (strand_state (pmem w)) (sblocks w)
      (mkStrand (Some (strand_state (pmem w))) id)
      (mkStrand (Some (pmem w)) id :: prev_strands w)).

(** Register that the first region has to be persistent before the second is
    written.  Without order checking the sets are null pointers. *)
Definition add_order_guarantee (a1 s1 a2 s2 : Z) : PM unit :=
  og <- oget order_guarantee ;;
  if negb og then stopM NullDeref else
  i <- pget global_time_records_index ;;
  s <- pget pmem_time_records ;;
  let newA := mkOrder i 0 0 None a1 s1 in
  let newB := mkOrder (i + 1) 0 0 None a2 s2 in
  let pa := next_id s in
  s <- liftM AssertFail (OSetGen_Insert s newA) ;;
  let pb := next_id s in
  s <- liftM AssertFail (OSetGen_Insert s newB) ;;
  pmod (set_pmem_time_records s) ;;;
  r <- pget pmem_order_records ;;
  r <- liftM AssertFail (OSetGen_Insert r (mkOrderRec (i + 2) pa pb)) ;;
  pmod (set_pmem_order_records r) ;;;
  pmod (set_global_time_records_index (i + 3)).

(** Requests that change the state of persistent memory. *)
Definition handle_pmem_request (r : request) (arg : nat -> Z) : PM (option (bool * option Z)) :=
  let done := Some (true, None) in
  match r with
  | REGISTER_PMEM_MAPPING => register_mapping (arg 1%nat) (arg 2%nat) ;;; retM done
  | REMOVE_PMEM_MAPPING => remove_mapping (arg 1%nat) (arg 2%nat) ;;; retM done
  | REGISTER_PMEM_FILE =>
      let fd := int32 (arg 1%nat) in
      ret <- (if 0 <=? fd then register_new_file fd (arg 2%nat) (arg 3%nat) (arg 4%nat)
              else retM 1) ;;
      retM (Some (true, Some ret))
  | CHECK_IS_PMEM_MAPPING =>
      s <- pget pmem_mappings ;;
      retM (Some (true, Some (is_in_mapping_set (region_at (arg 1%nat) (arg 2%nat)) s)))
  | PRINT_PMEM_MAPPINGS => print_persistent_mappings ;;; retM done
  | DO_FLUSH => do_flush (arg 1%nat) (arg 2%nat) ;;; retM done
  | DO_FENCE => do_fence ;;; retM done
  | WRITE_STATS => print_pmem_stats true ;;; retM done
  | GDB_MONITOR_COMMAND =>
      handled <- handle_gdb_monitor_command (keyword_id (string_at (arg 1%nat))) ;;
      retM (Some (handled, Some (if (handled : bool) then 0 else 1)))
  | EMIT_LOG =>
      lg <- oget log_stores ;;
      whenM lg (emit "|%s" [Str (string_at (arg 1%nat))]) ;;;
      retM done
  | SET_CLEAN => set_clean (arg 1%nat) (arg 2%nat) ;;; retM done
  | _ => retM None
  end.

(** Requests about transactions and epochs. *)
Definition handle_tx_request (r : request) (arg : nat -> Z) : PM (option (bool * option Z)) :=
  let done := Some (true, None) in
  tid <- get_running_tid ;;
  match r with
  | START_TX => start_tx tid ;;; retM done
  | START_TX_N => start_tx (arg 1%nat) ;;; retM done
  | END_TX => ret <- end_tx tid ;; retM (Some (true, Some ret))
  | END_TX_N => ret <- end_tx (arg 1%nat) ;; retM (Some (true, Some ret))
  | ADD_TO_TX =>
      ret <- in_tx (add_obj_to_tx tid (arg 1%nat) (arg 2%nat)) ;; retM (Some (true, Some ret))
  | ADD_TO_TX_N =>
      ret <- in_tx (add_obj_to_tx (arg 1%nat) (arg 2%nat) (arg 3%nat)) ;;
      retM (Some (true, Some ret))
  | REMOVE_FROM_TX =>
      ret <- in_tx (remove_obj_from_tx tid (arg 1%nat) (arg 2%nat)) ;;
      retM (Some (true, Some ret))
  | REMOVE_FROM_TX_N | ADD_THREAD_TO_TX_N | REMOVE_THREAD_FROM_TX_N =>
      ret <- in_tx (remove_obj_from_tx (arg 1%nat) (arg 2%nat) (arg 3%nat)) ;;
      retM (Some (true, Some ret))
  | ADD_TO_GLOBAL_TX_IGNORE =>
      in_tx (add_to_global_excludes (region_at (arg 1%nat) (arg 2%nat))) ;;; retM done
  | FENCE_MARK => mark_epoch_fence ;;; retM done
  | EPOCH_BEGIN =>
      ef <- oget epoch_durability_fence ;; whenM ef epoch_begin ;;; retM done
  | EPOCH_END =>
      ef <- oget epoch_durability_fence ;; whenM ef (epoch_end tid) ;;; retM done
  | RESERVED1 => retM done
  | NEW_STRAND => new_strand ;;; retM done
  | ORDER_GUARANTEE =>
      add_order_guarantee (arg 1%nat) (arg 2%nat) (arg 3%nat) (arg 4%nat) ;;; retM done
  | _ => retM None
  end.

(** Client mechanism handler: whether the request was handled, and the value
    given back to the client if one is. *)
Definition pmc_handle_client_request (arg : nat -> Z) : PM (bool * option Z) :=
  let code := arg 0%nat in
  if negb (is_tool_userreq code) && negb (code =? 4610) then retM (false, None) else
  match request_of code with
  | None =>
      umsg "Warning: unknown pmemcheck client request code 0x%llx\n" [Num code] ;;;
      retM (false, None)
  | Some r =>
      x <- handle_pmem_request r arg ;;
      match x with
      | Some res => retM res
      | None =>
          y <- handle_tx_request r arg ;;
          match y with
          | Some res => retM res
          | None =>
              umsg "Warning: deprecated pmemcheck client request code 0x%llx\n" [Num code] ;;;
              retM (false, None)
          end
      end
  end.
End Client.
