(* ===== verification/Spec.v ===== *)
(** What the tool promises: an abstract tracker of the stores that are not yet
    persistent.

    The tracker keeps the stores made before the last fence and those made
    after it, each with whether it has been flushed.  A store adds a dirty
    entry, a flush marks the entries it hits, a fence forgets the marked ones.
    A flush that hits an entry already marked is redundant, one that hits
    nothing is superfluous. *)
From S2P Require Import Prelude.

Record pending : Type := mkPending {
  p_addr : Z;
  p_size : Z;
  p_flushed : bool;
}.

#[export] Instance pending_eq_dec : EqDecision pending.
Proof. solve_decision. Defined.

Record tracker : Type := mkTracker {
  older : list pending;
  current : list pending;
  redundant : list pending;
  superfluous : list (Z * Z);
}.

(** What the client program does. *)
Inductive event : Type :=
  | EvMap (a s : Z)
  | EvUnmap (a s : Z)
  | EvStore (a s v : Z)
  | EvFlush (a s : Z)
  | EvFence.

(** The flush of [lo, lo + n) hits the entry. *)
Definition hit (lo n : Z) (e : pending) : bool :=
  negb ((p_addr e + p_size e <=? lo) || (lo + n <=? p_addr e)).

Definition mark (lo n : Z) (e : pending) : pending :=
  if hit lo n e then mkPending (p_addr e) (p_size e) true else e.

Definition again (lo n : Z) (e : pending) : bool := hit lo n e && p_flushed e.

(** Two ranges have a byte in common. *)
Definition meets (a s : Z) (m : Z * Z) : bool :=
  negb ((a + s <=? fst m) || (fst m + snd m <=? a)).

Definition track_store (a s : Z) (t : tracker) : tracker :=
  mkTracker (older t) (current t ++ [mkPending a s false]) (redundant t) (superfluous t).

Definition track_flush (check : bool) (lo n : Z) (t : tracker) : tracker :=
  mkTracker (mark lo n <$> older t) (mark lo n <$> current t)
    (redundant t ++
       if check then List.filter (again lo n) (current t) ++ List.filter (again lo n) (older t)
       else [])
    (superfluous t ++
       if check && negb (existsb (hit lo n) (current t) || existsb (hit lo n) (older t))
       then [(lo, n)] else []).

Definition track_fence (t : tracker) : tracker :=
  mkTracker (List.filter (fun e => negb (p_flushed e)) (older t ++ current t)) []
    (redundant t) (superfluous t).

(** What is left of a range without the bytes [a, a + s). *)
Definition minus (a s : Z) (m : Z * Z) : list (Z * Z) :=
  (if fst m <? a then [(fst m, Z.min (snd m) (a - fst m))] else []) ++
  (if a + s <? fst m + snd m
   then let lo := Z.max (fst m) (a + s) in [(lo, fst m + snd m - lo)] else []).

(** The registered ranges of persistent memory after an event. *)
Definition map_after (ev : event) (maps : list (Z * Z)) : list (Z * Z) :=
  match ev with
  | EvMap a s => (a, s) :: maps
  | EvUnmap a s => flat_map (minus a s) maps
  | _ => maps
  end.

(** One event; [maps] are the ranges registered so far. *)
Definition track (check : bool) (maps : list (Z * Z)) (ev : event) (t : tracker) : tracker :=
  match ev with
  | EvStore a s _ => if existsb (meets a s) maps then track_store a s t else t
  | EvFlush lo n => track_flush check lo n t
  | EvFence => track_fence t
  | EvMap _ _ | EvUnmap _ _ => t
  end.

Fixpoint track_all (check : bool) (maps : list (Z * Z)) (evs : list event) (t : tracker)
    : tracker :=
  match evs with
  | [] => t
  | ev :: evs => track_all check (map_after ev maps) evs (track check maps ev t)
  end.

(** A flush that leaves no dirty entry half flushed. *)
Definition whole (lo n : Z) (e : pending) : bool :=
  negb (hit lo n e) || p_flushed e ||
  ((lo <=? p_addr e) && (p_addr e + p_size e <=? lo + n)).

Definition no_cut (ev : event) (t : tracker) : bool :=
  match ev with
  | EvFlush lo n => forallb (whole lo n) (older t ++ current t)
  | _ => true
  end.

(** No flush of a run cuts an entry. *)
Fixpoint never_cuts (check : bool) (maps : list (Z * Z)) (evs : list event) (t : tracker)
    : bool :=
  match evs with
  | [] => true
  | ev :: evs => no_cut ev t && never_cuts check (map_after ev maps) evs (track check maps ev t)
  end.

(** Ranges inside the address space, away from its last byte. *)
Definition range_ok (a s : Z) : bool := (0 <=? a) && (0 <? s) && (a + s <? word_max).

Definition mapping_ok (a s : Z) : bool :=
  (1 <=? a) && (0 <? s) && (a + s + 1 <? word_size).

Definition event_ok (ev : event) : bool :=
  match ev with
  | EvMap a s | EvUnmap a s => mapping_ok a s
  | EvStore a s _ | EvFlush a s => range_ok a s
  | EvFence => true
  end.

(** ** Store by store *)

(** What becomes of one store: [None] once a flush has hit it and a fence has
    followed. *)
Fixpoint outcome (p : pending) (evs : list event) : option pending :=
  match evs with
  | [] => Some p
  | EvFlush lo n :: evs => outcome (mark lo n p) evs
  | EvFence :: evs => if p_flushed p then None else outcome p evs
  | _ :: evs => outcome p evs
  end.

(** The stores of a run that are not persistent at its end, in the order of
    the program. *)
Fixpoint not_persisted (maps : list (Z * Z)) (evs : list event) : list pending :=
  match evs with
  | [] => []
  | ev :: evs =>
      match ev with
      | EvStore a s _ =>
          if existsb (meets a s) maps then option_list (outcome (mkPending a s false) evs) else []
      | _ => []
      end ++ not_persisted (map_after ev maps) evs
  end.

(** A flush hits the store, and a fence follows. *)
Definition persisted_by (a s : Z) (evs : list event) : Prop :=
  exists evs1 lo n evs2, evs = evs1 ++ EvFlush lo n :: evs2 /\
    hit lo n (mkPending a s false) = true /\ EvFence ∈ evs2.

Definition survivors (evs : list event) (l : list pending) : list pending :=
  concat (map (fun p => option_list (outcome p evs)) l).

Lemma survivors_app evs l1 l2 : survivors evs (l1 ++ l2) = survivors evs l1 ++ survivors evs l2.
Proof. unfold survivors. by rewrite map_app, concat_app. Qed.

Lemma survivors_flush evs lo n l :
  survivors (EvFlush lo n :: evs) l = survivors evs (mark lo n <$> l).
Proof. unfold survivors. by rewrite (map_map (mark lo n)). Qed.

Lemma survivors_fence evs l :
  survivors (EvFence :: evs) l = survivors evs (List.filter (fun e => negb (p_flushed e)) l).
Proof.
  induction l as [|p l IH]; [done|]. unfold survivors in *. cbn [map concat]. rewrite IH. simpl.
  by destruct (p_flushed p).
Qed.

Lemma survivors_end l : survivors [] l = l.
Proof. induction l as [|p l IH]; [done|]. unfold survivors in *. cbn [map concat]. by rewrite IH. Qed.

(** The two lists of the tracker are the stores that are left, in order. *)
Lemma track_all_outcome check evs : forall maps t,
  let t' := track_all check maps evs t in
  older t' ++ current t' = survivors evs (older t ++ current t) ++ not_persisted maps evs.
Proof.
  induction evs as [|ev evs IH]; intros maps t; cbn zeta.
  { by rewrite survivors_end, app_nil_r. }
  etransitivity; [apply IH|]. destruct ev as [a s|a s|a s v|lo n|]; simpl; [done|done| | |].
  - change (survivors (EvStore a s v :: evs)) with (survivors evs).
    destruct (existsb _ _); [|done]. simpl. rewrite !survivors_app, <-!app_assoc.
    do 2 f_equal. unfold survivors at 1. simpl. by rewrite app_nil_r.
  - rewrite survivors_flush, fmap_app. done.
  - rewrite survivors_fence, app_nil_r. done.
Qed.

Lemma outcome_flushed p evs :
  p_flushed p = true -> outcome p evs = None <-> EvFence ∈ evs.
Proof.
  revert p. induction evs as [|ev evs IH]; intros p Hp; simpl.
  { split; [done|]. by intros ?%elem_of_nil. }
  rewrite elem_of_cons. destruct ev as [a s|a s|a s v|lo n|].
  1-3: rewrite IH by done; naive_solver.
  - rewrite IH; [naive_solver|]. unfold mark. by destruct (hit lo n p).
  - rewrite Hp. naive_solver.
Qed.

Lemma persisted_by_cons a s ev evs :
  persisted_by a s (ev :: evs) <->
  (exists lo n, ev = EvFlush lo n /\ hit lo n (mkPending a s false) = true /\ EvFence ∈ evs) \/
  persisted_by a s evs.
Proof.
  split.
  - intros ([|ev' evs1] & lo & n & evs2 & Heq & Hh & Hf); simplify_eq/=.
    + left. by exists lo, n.
    + right. by exists evs1, lo, n, evs2.
  - intros [(lo & n & -> & Hh & Hf)|(evs1 & lo & n & evs2 & -> & Hh & Hf)].
    + by exists [], lo, n, evs.
    + by exists (ev :: evs1), lo, n, evs2.
Qed.

Lemma outcome_dirty a s evs :
  outcome (mkPending a s false) evs = None <-> persisted_by a s evs.
Proof.
  induction evs as [|ev evs IH]; simpl.
  { split; [done|]. intros ([|? ?] & ? & ? & ? & ? & _); done. }
  rewrite persisted_by_cons. destruct ev as [a' s'|a' s'|a' s' v|lo n|].
  1-3,5: rewrite IH; naive_solver.
  unfold mark. destruct (hit lo n (mkPending a s false)) eqn:Hh.
  - rewrite outcome_flushed by done. split; [naive_solver|].
    intros [(? & ? & ? & ? & ?)|(evs1 & lo' & n' & evs2 & -> & _ & Hf)]; [done|].
    rewrite elem_of_app, elem_of_cons. naive_solver.
  - rewrite IH. split; [by right|]. intros [(lo' & n' & E & Hh' & _)|Hp]; [|done].
    simplify_eq. congruence.
Qed.

Lemma outcome_range p evs q : outcome p evs = Some q -> p_addr q = p_addr p /\ p_size q = p_size p.
Proof.
  revert p. induction evs as [|ev evs IH]; intros p Hq; simpl in Hq; [by simplify_eq|].
  destruct ev as [a s|a s|a s v|lo n|]; [by apply IH..| |].
  - apply IH in Hq. unfold mark in Hq. by destruct (hit lo n p).
  - destruct (p_flushed p); [done|]. by apply IH.
Qed.

(** The ranges registered after a sequence of events. *)
Definition maps_after (maps : list (Z * Z)) (evs : list event) : list (Z * Z) :=
  foldl (fun m ev => map_after ev m) maps evs.

(** The entries the first event contributes. *)
Lemma first_entries maps ev evs a s :
  (exists fl, mkPending a s fl ∈
     match ev with
     | EvStore a s _ =>
         if existsb (meets a s) maps then option_list (outcome (mkPending a s false) evs) else []
     | _ => []
     end) <->
  exists v, ev = EvStore a s v /\ existsb (meets a s) maps = true /\ ~ persisted_by a s evs.
Proof.
  destruct ev as [a' s'|a' s'|a' s' v|lo n|].
  1,2,4,5: split; [by intros (? & ?%elem_of_nil)|by intros (? & ? & _)].
  split.
  - intros (fl & Hin). destruct (existsb (meets a' s') maps) eqn:Em; [|by apply elem_of_nil in Hin].
    destruct (outcome (mkPending a' s' false) evs) as [q|] eqn:Eo; [|by apply elem_of_nil in Hin].
    apply list_elem_of_singleton in Hin as <-. apply outcome_range in Eo as Hr. simpl in Hr.
    destruct Hr as [-> ->]. exists v. split; [done|]. split; [done|].
    rewrite <-outcome_dirty, Eo. done.
  - intros (v' & E & Em & Hn). simplify_eq. rewrite Em.
    rewrite <-outcome_dirty in Hn. destruct (outcome _ evs) as [[a' s' fl]|] eqn:Eo; [|done].
    apply outcome_range in Eo as [? ?]. simplify_eq/=. exists fl. by apply list_elem_of_singleton.
Qed.

(** A store is left exactly if no flush and fence after it made it
    persistent. *)
Lemma not_persisted_spec evs a s : forall maps,
  (exists fl, mkPending a s fl ∈ not_persisted maps evs) <->
  exists evs1 v evs2, evs = evs1 ++ EvStore a s v :: evs2 /\
    existsb (meets a s) (maps_after maps evs1) = true /\ ~ persisted_by a s evs2.
Proof.
  induction evs as [|ev evs IH]; intros maps.
  { split; [by intros (? & ?%elem_of_nil)|]. by intros ([|? ?] & ? & ? & ? & _). }
  transitivity ((exists v, ev = EvStore a s v /\ existsb (meets a s) maps = true /\
      ~ persisted_by a s evs) \/ exists fl, mkPending a s fl ∈ not_persisted (map_after ev maps) evs).
  - rewrite <-first_entries. simpl. setoid_rewrite elem_of_app. naive_solver.
  - rewrite IH. split.
    + intros [(v & -> & Hm & Hn)|(evs1 & v & evs2 & -> & Hm & Hn)].
      * by exists [], v, evs.
      * by exists (ev :: evs1), v, evs2.
    + intros ([|ev' evs1] & v & evs2 & E & Hm & Hn); simplify_eq/=.
      * left. by exists v.
      * right. by exists evs1, v, evs2.
Qed.

(** Without the check no warning is registered. *)
Lemma track_all_unchecked evs : forall maps t,
  redundant (track_all false maps evs t) = redundant t /\
  superfluous (track_all false maps evs t) = superfluous t.
Proof.
  induction evs as [|ev evs IH]; intros maps t; [done|]. cbn [track_all].
  destruct (IH (map_after ev maps) (track false maps ev t)) as [H1 H2]. rewrite H1, H2.
  destruct ev as [a s|a s|a s v|lo n|]; simpl; [done|done|by destruct (existsb _ _)| |done].
  by rewrite !app_nil_r.
Qed.
