(* ===== verification/StoreSpec.v ===== *)
(** The array of stores and the tree seen as a tracker, the invariant of the
    tool's state, and the effect of a store. *)
From S2P Require Import Prelude OSet OSetTree OSetSpec Region RegionSpec Core Trans Pmem Store Spec.
Local Open Scope pm_scope.

(** ** The view *)

(** The elements of an array with indices in [lo, hi). *)
Definition arr_list {A} (a : Z -> A) (lo hi : Z) : list A := a <$> seqZ lo (hi - lo).

(** A store of a snippet that a flush has covered counts as flushed. *)
Definition eff (f : flushed_state) (e : pmem_st) : pmem_st :=
  match f with ALL_FLUSHED => set_state STST_FLUSHED e | _ => e end.

Definition snip_list (a : pmem_stores_array) (s : Z) : list pmem_st :=
  arr_list (slots a) (start_index (snippet_info a s)) (sn_index (snippet_info a s)).

Definition snip_entries (a : pmem_stores_array) (s : Z) : list pmem_st :=
  eff (flushed_num (snippet_info a s)) <$> snip_list a s.

Definition array_entries (a : pmem_stores_array) : list pmem_st :=
  concat (snip_entries a <$> seqZ 0 (snippet_info_index a + 1)).

Definition view_st (e : pmem_st) : pending :=
  mkPending (addr e) (size e) (bool_decide (state e = STST_FLUSHED)).

Definition view (w : world) : tracker :=
  mkTracker (view_st <$> elems (pmem_stores (pmem w))) (view_st <$> array_entries (array (pmem w)))
    (view_st <$> redundant_flushes (pmem w))
    ((fun e => (addr e, size e)) <$> superfluous_flushes (pmem w)).

Definition mapped (w : world) : list (Z * Z) :=
  (fun e => (addr e, size e)) <$> elems (pmem_mappings (pmem w)).

(** ** The invariant *)

(** A tracked store. *)
Record entry_ok (e : pmem_st) : Prop := {
  en_region : region_ok e;
  en_end : addr e + size e < word_max;
  en_live : is_delete e = false;
  en_state : state e <> STST_CLEAN;
}.

(** Stores between bounds; no bounds, no stores. *)
Definition bounded (mn mx : Z) (l : list pmem_st) : Prop :=
  Forall (fun e => mn <= addr e /\ addr e + size e <= mx) l /\
  (l = [] \/ 0 <= mn < word_max /\ mx < word_max).

Record snippet_ok (a : pmem_stores_array) (s : Z) : Prop := {
  sn_start : 0 <= start_index (snippet_info a s) <= sn_index (snippet_info a s);
  sn_entries : Forall entry_ok (snip_list a s);
  sn_bounded : bounded (min_add (snippet_info a s)) (max_add (snippet_info a s)) (snip_list a s);
  sn_empty : snip_list a s = [] ->
    min_add (snippet_info a s) = word_max /\ max_add (snippet_info a s) = word_max;
  sn_dirty : flushed_num (snippet_info a s) = NO_FLUSHED ->
    Forall (fun e => state e = STST_DIRTY) (snip_list a s);
}.

(** The snippets follow each other from the first slot on. *)
Record array_shape (a : pmem_stores_array) : Prop := {
  ar_last : 0 <= snippet_info_index a;
  ar_snippets s : 0 <= s <= snippet_info_index a -> snippet_ok a s;
  ar_first : start_index (snippet_info a 0) = 0;
  ar_chain s : 0 <= s < snippet_info_index a ->
    start_index (snippet_info a (s + 1)) = sn_index (snippet_info a s);
}.

(** The last snippet is being filled. *)
Record array_ok (a : pmem_stores_array) : Prop := {
  ar_shape :> array_shape a;
  ar_open : flushed_num (snippet_info a (snippet_info_index a)) = NO_FLUSHED;
}.

(** The next free slot. *)
Definition fill (a : pmem_stores_array) : Z := sn_index (snippet_info a (snippet_info_index a)).

(** Sets ordered by the numbers of the stores. *)
Abbreviation own_view := (os_view cmp_pmem_own_st (fun _ => True)).
Abbreviation own_ok := (os_ok cmp_pmem_own_st (fun _ => True)).

(** A tree ordered by the numbers of the stores, all below [n]. *)
Record tree_ok (set : region_set) (mn mx n : Z) : Prop := {
  tr_ok : os_ok cmp_pmem_own_st (fun _ => True) set;
  tr_index : Forall (fun e => index e < n) (elems set);
  tr_entries : Forall entry_ok (elems set);
  tr_bounded : bounded mn mx (elems set);
  tr_empty : elems set = [] -> mn = word_max /\ mx = word_max;
}.

(** The options under which the tool tracks stores, flushes and fences only. *)
Definition plain (o : options) : Prop :=
  track_multiple_stores o = false /\ log_stores o = false /\ order_guarantee o = false /\
  o_tree_reorganization o = false /\ lack_ordering_trand o = false /\
  force_flush_align o = false.

(** The registered mappings with their bounds. *)
Record maps_ok (set : region_set) (mn mx : Z) : Prop := {
  mp_ok : region_set_ok set;
  mp_bounds : Forall (fun e => mn <= addr e /\ addr e + size e <= mx) (elems set);
}.

(** What the store path needs of the transactions module: its handler of
    stores returns and keeps the invariant, and leaves the globals alone. *)
Class TxQuiet (P : tx_state -> Prop) : Prop := {
  tx_quiet st t : P t -> exists t', handle_tx_store st t = Ok tt t' /\ P t' /\ glob t' = glob t;
  tx_glob g t : P t -> P (mkTxState g (trans t));
}.

(** No error of the other kinds is registered. *)
Definition no_other_errors (p : pmem_ops) : Prop :=
  multiple_stores p = [] /\ redundant_fence p = [] /\ epoch_durability_reg p = 0 /\
  order_guarantee_reg p = 0 /\ lack_ordering_trand_reg p = 0.

(** The invariant, with room for [iter_limit - k] more operations. *)
Record inv (P : tx_state -> Prop) (k : Z) (w : world) : Prop := {
  iv_plain : plain (opts (pmem w));
  iv_quiet : no_other_errors (pmem w);
  iv_array : array_ok (array (pmem w));
  iv_tree : tree_ok (pmem_stores (pmem w)) (min_add_pmem_store (pmem w))
              (max_add_pmem_store (pmem w)) (db_pmem_store_index (the_globals w));
  iv_maps : maps_ok (pmem_mappings (pmem w)) (min_add_pmem_mappings (pmem w))
              (max_add_pmem_mappings (pmem w));
  iv_tx : P (w_tx w);
  iv_stores : card (pmem_stores (pmem w)) + fill (array (pmem w)) <= k;
  iv_snippets : snippet_info_index (array (pmem w)) <= k;
  iv_regions : card (pmem_mappings (pmem w)) <= k;
}.

(** The part of it about the stores that are tracked: the array, the tree, and room for the iterator. *)
Record stores_ok (w : world) : Prop := {
  sk_array : array_ok (array (pmem w));
  sk_tree : tree_ok (pmem_stores (pmem w)) (min_add_pmem_store (pmem w))
              (max_add_pmem_store (pmem w)) (db_pmem_store_index (the_globals w));
  sk_room : card (pmem_stores (pmem w)) < iter_limit;
}.

Lemma inv_stores P k w : inv P k w -> k < iter_limit -> stores_ok w.
Proof.
  intros [_ _ Ha Ht _ _ Hst _ _] Hk. split; [done|done|]. pose proof (ar_last _ Ha) as H0.
  destruct (ar_snippets _ Ha (snippet_info_index (array (pmem w))) ltac:(lia)) as [Hss _ _ _ _]. unfold fill in Hst. lia.
Qed.

(** ** Arrays *)

Lemma arr_list_nil {A} (a : Z -> A) lo hi : hi <= lo -> arr_list a lo hi = [].
Proof. intros Hle. unfold arr_list. by rewrite seqZ_nil by lia. Qed.

Lemma arr_list_cons {A} (a : Z -> A) lo hi :
  lo < hi -> arr_list a lo hi = a lo :: arr_list a (lo + 1) hi.
Proof.
  intros Hlt. unfold arr_list. rewrite seqZ_cons by lia. rewrite fmap_cons.
  by replace (Z.succ lo) with (lo + 1) by lia; replace (Z.pred (hi - lo)) with (hi - (lo + 1)) by lia.
Qed.

Lemma arr_list_app {A} (a : Z -> A) lo mid hi :
  lo <= mid <= hi -> arr_list a lo hi = arr_list a lo mid ++ arr_list a mid hi.
Proof.
  intros Hm. unfold arr_list. rewrite <-fmap_app. f_equal.
  replace (hi - lo) with ((mid - lo) + (hi - mid)) by lia.
  rewrite seqZ_app by lia. by replace (lo + (mid - lo)) with mid by lia.
Qed.

Lemma arr_list_snoc {A} (a : Z -> A) lo hi :
  lo <= hi -> arr_list a lo (hi + 1) = arr_list a lo hi ++ [a hi].
Proof.
  intros Hle. rewrite (arr_list_app a lo hi (hi + 1)) by lia. f_equal.
  rewrite arr_list_cons by lia. by rewrite arr_list_nil by lia.
Qed.

Lemma arr_list_ext {A} (a b : Z -> A) lo hi :
  (forall i, lo <= i < hi -> a i = b i) -> arr_list a lo hi = arr_list b lo hi.
Proof.
  intros Heq. apply list_fmap_ext. intros n i Hi. apply lookup_seqZ in Hi as [-> Hi].
  apply Heq. lia.
Qed.

Lemma arr_list_upd_out {A} (a : Z -> A) f i lo hi :
  ~ (lo <= i < hi) -> arr_list (arr_upd i f a) lo hi = arr_list a lo hi.
Proof.
  intros Hi. apply arr_list_ext. intros j Hj. unfold arr_upd.
  by rewrite (proj2 (Z.eqb_neq _ _)) by lia.
Qed.

Lemma arr_upd_same {A} (a : Z -> A) f i : arr_upd i f a i = f (a i).
Proof. unfold arr_upd. by rewrite Z.eqb_refl. Qed.

Lemma arr_upd_other {A} (a : Z -> A) f i j : j <> i -> arr_upd i f a j = a j.
Proof. intros Hne. unfold arr_upd. by rewrite (proj2 (Z.eqb_neq _ _)) by lia. Qed.

Lemma arr_list_nil_inv {A} (a : Z -> A) lo hi : arr_list a lo hi = [] -> hi <= lo.
Proof.
  intros Hn. destruct (Z.le_gt_cases hi lo) as [?|Hlt]; [done|].
  by rewrite arr_list_cons in Hn by lia.
Qed.

(** ** Access to persistent memory *)

Lemma meets_outside a s e : meets a s (addr e, size e) = false <-> outside (region_at a s) e.
Proof. unfold meets, outside. by rewrite negb_false_iff, orb_true_iff, !Z.leb_le. Qed.

Lemma is_pmem_access_ok a s w :
  maps_ok (pmem_mappings (pmem w)) (min_add_pmem_mappings (pmem w))
    (max_add_pmem_mappings (pmem w)) -> region_ok (region_at a s) ->
  is_pmem_access a s w = Ok (existsb (meets a s) (mapped w)) w.
Proof.
  intros [Hset Hb] Hr. unfold is_pmem_access. do 2 step.
  assert (Forall (fun e => outside (region_at a s) e) (elems (pmem_mappings (pmem w))) ->
    existsb (meets a s) (mapped w) = false) as Hnone.
  { intros Hall. apply not_true_is_false. intros (m & Hm & Ht)%existsb_exists.
    apply list_elem_of_In, list_elem_of_fmap in Hm as (e & -> & He).
    rewrite Forall_forall in Hall. apply Hall, meets_outside in He. congruence. }
  unfold mapped in *. rewrite !max_addr_ok by done. simpl.
  destruct (_ || _) eqn:Eout.
  - rewrite Hnone; [done|]. eapply Forall_impl; [exact Hb|]. intros e He. unfold outside. simpl in He |- *.
    apply orb_true_iff in Eout. rewrite !Z.ltb_lt in Eout. lia.
  - step. unfold OSetGen_Contains. destruct (OSetGen_Lookup _ _) as [e|] eqn:El.
    + destruct (Lookup_some cmp_pmem_st region_ok region_ok _ _ e (rs_ok _ Hset) Hr El) as [He Hc].
      unfold retM. f_equal. symmetry. apply existsb_exists. exists (addr e, size e). split.
      * apply list_elem_of_In, list_elem_of_fmap. by exists e.
      * apply not_false_is_true. rewrite meets_outside. apply cmp_overlap; [done| |done].
        by apply (region_of_set (pmem_mappings (pmem w))).
    + pose proof (Lookup_none cmp_pmem_st region_ok region_ok _ _ (rs_ok _ Hset) Hr El) as Hn.
      rewrite Hnone; [done|]. rewrite Forall_forall in *. intros e He. specialize (Hn e He).
      rewrite cmp_overlap in Hn by (done || by apply (region_of_set (pmem_mappings (pmem w)))).
      unfold outside in *. lia.
Qed.

(** ** Bounds *)

Lemma widen_bounded e mn mx l :
  entry_ok e -> bounded mn mx l -> (l = [] -> mn = word_max /\ mx = word_max) ->
  bounded (fst (widen e mn mx)) (snd (widen e mn mx)) (l ++ [e]) /\
  fst (widen e mn mx) < word_max.
Proof.
  intros [He Hend _ _] [Hl Hb] Hempty. unfold widen, bounded. rewrite max_addr_ok by done.
  destruct He as (? & ? & ?). rewrite Forall_app, Forall_singleton.
  destruct Hb as [->|Hb].
  - destruct Hempty as [-> ->]; [done|]. rewrite !Z.eqb_refl. simpl.
    rewrite !Z.ltb_irrefl. split; [|lia]. split; [split; [constructor|lia]|right; lia].
  - rewrite (proj2 (Z.eqb_neq mx _)) by lia. simpl. split; [|repeat ztest; lia].
    split; [split; [|repeat ztest; lia]|right; repeat ztest; lia].
    eapply Forall_impl; [exact Hl|]. intros x Hx. simpl in *. repeat ztest; lia.
Qed.

(** ** Entering a store *)

Lemma last_split (n : Z) : 0 <= n -> seqZ 0 (n + 1) = seqZ 0 n ++ [n].
Proof.
  intros Hn. by rewrite seqZ_app by lia.
Qed.

(** The slots of a snippet end where those of a later one begin, or before. *)
Lemma chain_le a t s :
  array_shape a -> 0 <= t < s -> s <= snippet_info_index a ->
  sn_index (snippet_info a t) <= start_index (snippet_info a s).
Proof.
  intros Ha Ht Hs. assert (exists d, s - t = Z.of_nat d) as [d Hd] by (exists (Z.to_nat (s - t)); lia).
  revert t Ht Hd. induction d as [|d IH]; intros t Ht Hd; [lia|].
  destruct (decide (t + 1 = s)) as [<-|Hne]; [by rewrite (ar_chain _ Ha t) by lia|].
  rewrite <-(ar_chain _ Ha t) by lia. etransitivity; [|apply (IH (t + 1)); lia].
  apply (sn_start _ _ (ar_snippets _ Ha (t + 1) ltac:(lia))).
Qed.

(** A snippet is not touched by changes to other snippets and to slots outside
    it. *)
Lemma snip_list_same a b s :
  snippet_info b s = snippet_info a s ->
  (forall i, start_index (snippet_info a s) <= i < sn_index (snippet_info a s) ->
    slots b i = slots a i) ->
  snip_list b s = snip_list a s.
Proof. intros Hs Hi. unfold snip_list. rewrite Hs. by apply arr_list_ext. Qed.

Lemma snippet_ok_same a b s :
  snippet_info b s = snippet_info a s -> snip_list b s = snip_list a s ->
  snippet_ok a s -> snippet_ok b s.
Proof. intros H1 H2 [? ? ? ? ?]. split; rewrite ?H1, ?H2; done. Qed.

(** The array with a store added to the last snippet. *)
Lemma array_push a b e :
  array_ok a -> entry_ok e -> state e = STST_DIRTY ->
  let l := snippet_info_index a in
  let sn := snippet_info a l in
  snippet_info_index b = l ->
  (forall s, s <> l -> snippet_info b s = snippet_info a s) ->
  snippet_info b l =
    set_max_add (snd (widen e (min_add sn) (max_add sn)))
      (set_min_add (fst (widen e (min_add sn) (max_add sn)))
        (set_sn_index (sn_index sn + 1) sn)) ->
  (forall i, i <> fill a -> slots b i = slots a i) -> slots b (fill a) = e ->
  array_ok b /\ array_entries b = array_entries a ++ [e] /\ fill b = fill a + 1.
Proof.
  intros Ha He Hd l sn Hl Hsn Hb Hsl Hse. subst l sn.
  pose proof (ar_last _ Ha) as Hl0.
  pose proof (ar_snippets _ Ha _ (conj Hl0 (Z.le_refl _))) as Hok.
  pose proof (sn_start _ _ Hok) as Hst. unfold fill in *.
  assert (forall s, 0 <= s < snippet_info_index a -> snip_list b s = snip_list a s) as Hold.
  { intros s Hs. apply snip_list_same; [apply Hsn; lia|]. intros i Hi. apply Hsl.
    pose proof (chain_le a s (snippet_info_index a) Ha). lia. }
  assert (snip_list b (snippet_info_index a) = snip_list a (snippet_info_index a) ++ [e]) as Hlast.
  { unfold snip_list. rewrite Hb. simpl. rewrite arr_list_snoc by lia. rewrite Hse. f_equal.
    apply arr_list_ext. intros i Hi. apply Hsl. lia. }
  assert (flushed_num (snippet_info b (snippet_info_index a)) = NO_FLUSHED) as Hno
    by (rewrite Hb; simpl; apply (ar_open _ Ha)).
  assert (array_ok b) as Hbok.
  { split; [split|by rewrite Hl].
    - by rewrite Hl.
    - intros s Hs. rewrite Hl in Hs. destruct (decide (s = snippet_info_index a)) as [->|Hne].
      + destruct (widen_bounded e _ _ _ He (sn_bounded _ _ Hok) (sn_empty _ _ Hok)) as [Hw _].
        split; rewrite ?Hlast.
        * rewrite Hb. simpl. lia.
        * rewrite Forall_app, Forall_singleton. split; [apply (sn_entries _ _ Hok)|done].
        * rewrite Hb. exact Hw.
        * intros Hnil. by destruct (snip_list a _).
        * intros _. rewrite Forall_app, Forall_singleton. split; [|done].
          apply (sn_dirty _ _ Hok), (ar_open _ Ha).
      + apply (snippet_ok_same a); [by apply Hsn|apply Hold; lia|apply (ar_snippets _ Ha); lia].
    - destruct (decide (0 = snippet_info_index a)) as [E|Hne].
      + rewrite E, Hb. simpl. rewrite <-E. apply (ar_first _ Ha).
      + rewrite Hsn by lia. apply (ar_first _ Ha).
    - intros s Hs. rewrite Hl in Hs. rewrite (Hsn s) by lia.
      destruct (decide (s + 1 = snippet_info_index a)) as [E|Hne].
      + rewrite E, Hb. simpl. rewrite <-E. apply (ar_chain _ Ha). lia.
      + rewrite Hsn by lia. apply (ar_chain _ Ha). lia. }
  split; [done|]. split; [|by rewrite Hl, Hb].
  unfold array_entries. rewrite Hl, last_split by lia. rewrite !fmap_app, !concat_app. simpl.
  rewrite !app_nil_r. unfold snip_entries at 2 4. rewrite Hno, (ar_open _ Ha), Hlast.
  rewrite fmap_app. simpl. rewrite app_assoc. f_equal. f_equal. f_equal.
  apply list_fmap_ext. intros n s Hs. apply lookup_seqZ in Hs as [-> Hs]. unfold snip_entries.
  rewrite Hsn by lia. f_equal. apply Hold. lia.
Qed.

(** ** [trace_pmem_store] *)

Lemma inv_mono P k k' w : inv P k w -> k <= k' -> inv P k' w.
Proof. intros [? ? ? ? ? ? ?] Hk. split; (done || lia). Qed.

Lemma iter_limit_array : iter_limit < MAX_ARRAY_NUM.
Proof. vm_compute. reflexivity. Qed.

(** The store that is recorded. *)
Lemma fill_store_ok ep a s v n c st :
  region_ok (region_at a s) -> a + s < word_max ->
  entry_ok (fill_store ep a s v n c st) /\
  view_st (fill_store ep a s v n c st) = mkPending a s false /\
  state (fill_store ep a s v n c st) = STST_DIRTY.
Proof.
  intros Hr He. assert (state (fill_store ep a s v n c st) = STST_DIRTY) as Hs
    by (by destruct ep, c).
  assert (addr (fill_store ep a s v n c st) = a) as Ha by (by destruct ep, c).
  assert (size (fill_store ep a s v n c st) = s) as Hz by (by destruct ep, c).
  assert (is_delete (fill_store ep a s v n c st) = false) as Hd by (by destruct ep, c).
  split; [|split; [|done]].
  - split; [|by rewrite Ha, Hz|done|by rewrite Hs]. unfold region_ok. by rewrite Ha, Hz.
  - unfold view_st. by rewrite Ha, Hz, Hs.
Qed.

Section Trace.
Context `{CoreEnv} (P : tx_state -> Prop) `{!TxQuiet P}.

(** The slot is filled, counted and covered by the bounds of its snippet. *)
Lemma enter_slot_ok k w e :
  inv P k w -> k + 1 < iter_limit -> entry_ok e -> state e = STST_DIRTY ->
  let i := fill (array (pmem w)) in
  exists w', (slot_set i (fun _ => e) ;;;
              store <- enter_store (Some i) e ;; in_tx (handle_tx_store store)) w = Ok tt w' /\
    inv P (k + 1) w' /\ opts (pmem w') = opts (pmem w) /\ mapped w' = mapped w /\
    view w' = mkTracker (older (view w)) (current (view w) ++ [view_st e]) (redundant (view w))
                (superfluous (view w)).
Proof.
  intros [Hp Hq Ha Ht Hm Htx Hn Hs Hre] Hk He Hd i. subst i.
  step. step. unfold in_tx, zoomM.
  set (w1 := set_pmem _ _). simpl in w1. 
  destruct (tx_quiet e (w_tx w) Htx) as (t' & Heq & Ht' & Hg).
  change (w_tx _) with (w_tx w). cbv beta iota zeta. rewrite Heq.
  eexists. split; [reflexivity|].
  destruct (array_push (array (pmem w))
    (array (pmem (set_w_tx t' w1))) e Ha He Hd) as (Hb & Hbe & Hbf).
  - done.
  - intros s Hne. simpl. by rewrite !arr_upd_other by done.
  - simpl. by rewrite !arr_upd_same.
  - intros j Hj. simpl. by rewrite arr_upd_other by done.
  - simpl. by rewrite arr_upd_same.
  - split; [|split; [done|split; [done|]]].
    + split; try done.
      * change (the_globals (set_w_tx t' w1)) with (glob t'). by rewrite Hg.
      * change (card (pmem_stores (pmem w)) + fill (array (pmem (set_w_tx t' w1))) <= k + 1).
        lia.
      * change (snippet_info_index (array (pmem w)) <= k + 1). lia.
      * change (card (pmem_mappings (pmem w)) <= k + 1). lia.
    + unfold view. rewrite Hbe, fmap_app. done.
Qed.

Lemma trace_pmem_store_ok k w a s v :
  inv P k w -> k + 1 < iter_limit -> range_ok a s = true ->
  exists w', trace_pmem_store a s v w = Ok tt w' /\ inv P (k + 1) w' /\
    opts (pmem w') = opts (pmem w) /\ mapped w' = mapped w /\
    view w' = track (check_flush (opts (pmem w))) (mapped w) (EvStore a s v) (view w).
Proof.
  intros Hinv Hk Hr. unfold range_ok in Hr.
  apply andb_true_iff in Hr as [[Ha Hs]%andb_true_iff He].
  rewrite Z.leb_le, Z.ltb_lt in *. unfold word_max in He.
  assert (region_ok (region_at a s)) as Hreg by (unfold region_ok; simpl; lia).
  unfold trace_pmem_store.
  rewrite (bind_ok _ _ w (existsb (meets a s) (mapped w)) w)
    by (apply is_pmem_access_ok; [apply (iv_maps _ _ _ Hinv)|done]).
  cbn [track]. destruct (existsb _ _); cbn [negb].
  2: { exists w. split; [done|]. split; [|done]. apply (inv_mono P k); [done|lia]. }
  assert (alloc_store w = Ok (Some (fill (array (pmem w))), slots (array (pmem w)) (fill (array (pmem w)))) w)
    as Halloc.
  { unfold alloc_store. do 2 step. fold (fill (array (pmem w))).
    pose proof (iv_stores _ _ _ Hinv). pose proof iter_limit_array.
    pose proof (wf_card _ (ok_wf _ _ _ (tr_ok _ _ _ _ (iv_tree _ _ _ Hinv)))).
    by rewrite (proj2 (Z.ltb_lt (fill (array (pmem w))) _)) by lia. }
  rewrite (bind_ok _ _ _ _ _ Halloc). do 4 step.
  assert (exists c, (if o_tree_reorganization (opts (pmem w)) || o_print_bug_detail (opts (pmem w))
    then c <- record_ExeContext ;; retM (Some c) else retM None) w = Ok c w) as [c Hc].
  { destruct (_ || _); by eexists. }
  rewrite (bind_ok _ _ _ _ _ Hc). cbn [fst snd].
  destruct (fill_store_ok (epoch (pmem w)) a s v (sblocks w) c
    (slots (array (pmem w)) (fill (array (pmem w)))) Hreg He) as (Hent & Hview & Hdirty).
  destruct (enter_slot_ok k w _ Hinv Hk Hent Hdirty) as (w' & Heq & Hinv' & Ho & Hm & Hv).
  erewrite bind_ok in Heq by reflexivity. step.
  destruct (iv_plain _ _ _ Hinv) as (Hmult & Hlog & Hog & _).
  step. cbn [opts pmem set_pmem set_array]. rewrite Hlog. step.
  step. cbn [opts pmem set_pmem set_array]. rewrite Hmult. step.
  step. cbn [opts pmem set_pmem set_array]. rewrite Hog. step.
  exists w'. split; [exact Heq|]. split; [done|]. split; [done|]. split; [done|].
  rewrite Hv, Hview. done.
Qed.
End Trace.
