(* ===== verification/SlotLoop.v ===== *)
(** Loops over the array of stores that change the slots one after the other: if the body replaces
    slot [i] by [g] of it, then the loop over a snippet, and the loop over all snippets, replaces every
    filled slot so.  What else such a loop does to the state, given the stores it has visited, is the
    parameter [reach]. *)
From S2P Require Import Prelude OSet Region Core Trans Pmem StoreSpec.
Local Open Scope Z_scope.
Local Open Scope pm_scope.

(** The indices of the snippets, without their stores. *)
Definition frame (a : pmem_stores_array) : Prop :=
  forall s, 0 <= s <= snippet_info_index a ->
    start_index (snippet_info a s) <= sn_index (snippet_info a s) /\
    (s < snippet_info_index a -> start_index (snippet_info a (s + 1)) = sn_index (snippet_info a s)).

Lemma shape_frame a : array_shape a -> frame a.
Proof. intros Ha s Hs. split; [apply (ar_snippets _ Ha s Hs)|]. intros Hlt. apply (ar_chain _ Ha). lia. Qed.

Lemma frame_fill a n : forall s,
  frame a -> 0 <= s <= snippet_info_index a -> snippet_info_index a - s <= Z.of_nat n ->
  sn_index (snippet_info a s) <= fill a.
Proof.
  induction n as [|n IH]; intros s Hf Hs Hn; destruct (Hf s Hs) as [Hle Hc].
  - unfold fill. by replace (snippet_info_index a) with s by lia.
  - destruct (Z.eq_dec s (snippet_info_index a)) as [->|Hne]; [done|].
    specialize (Hc ltac:(lia)). destruct (Hf (s + 1) ltac:(lia)). specialize (IH (s + 1) Hf ltac:(lia) ltac:(lia)). lia.
Qed.

(** Later snippets are behind. *)
Lemma frame_later a n : forall s t,
  frame a -> 0 <= s -> s < t <= snippet_info_index a -> t - s <= Z.of_nat n ->
  sn_index (snippet_info a s) <= start_index (snippet_info a t).
Proof.
  induction n as [|n IH]; intros s t Hf Hs Ht Hn; [lia|]. destruct (Hf s ltac:(lia)) as [_ Hc].
  specialize (Hc ltac:(lia)). destruct (Z.eq_dec t (s + 1)) as [->|Hne]; [lia|].
  destruct (Hf (s + 1) ltac:(lia)) as [Hle _]. specialize (IH (s + 1) t Hf ltac:(lia) ltac:(lia) ltac:(lia)). lia.
Qed.

(** Where snippet [s] starts; the free slots start after the last one. *)
Definition starts_at (a : pmem_stores_array) (s : Z) : Z :=
  if s <=? snippet_info_index a then start_index (snippet_info a s) else fill a.

Lemma starts_next a s : frame a -> 0 <= s <= snippet_info_index a ->
  starts_at a (s + 1) = sn_index (snippet_info a s).
Proof.
  intros Hf Hs. destruct (Hf s Hs) as [_ Hc]. unfold starts_at.
  destruct (Z.leb_spec (s + 1) (snippet_info_index a)); [apply Hc; lia|].
  unfold fill. by replace (snippet_info_index a) with s by lia.
Qed.

(** Every filled slot belongs to a snippet. *)
Lemma shape_entries a n : forall s, array_shape a -> 0 <= s <= snippet_info_index a ->
  snippet_info_index a - s <= Z.of_nat n ->
  forall j, start_index (snippet_info a s) <= j < fill a -> entry_ok (slots a j).
Proof.
  induction n as [|n IH]; intros s Ha Hs Hn j Hj;
    (destruct (Z.lt_ge_cases j (sn_index (snippet_info a s))) as [Hlt|Hge];
      [eapply Forall_forall; [exact (sn_entries _ _ (ar_snippets _ Ha s Hs))|];
       apply list_elem_of_fmap; exists j; split; [done|]; apply elem_of_seqZ; lia|]).
  - unfold fill in Hj. replace (snippet_info_index a) with s in Hj by lia. lia.
  - destruct (Z.eq_dec s (snippet_info_index a)) as [->|Hne]; [unfold fill in Hj; lia|].
    apply (IH (s + 1) Ha ltac:(lia) ltac:(lia)). rewrite (ar_chain _ Ha) by lia. lia.
Qed.

Lemma filled_entries a : array_shape a -> Forall entry_ok (arr_list (slots a) 0 (fill a)).
Proof.
  intros Ha. pose proof (ar_last _ Ha) as H0. apply Forall_forall. intros e He.
  apply list_elem_of_fmap in He as (j & -> & Hj). apply elem_of_seqZ in Hj.
  apply (shape_entries a (Z.to_nat (snippet_info_index a)) 0 Ha ltac:(lia) ltac:(lia)). rewrite (ar_first _ Ha). lia.
Qed.

Abbreviation slots_of w := (slots (array (pmem w))).

(** The effect of a loop apart from the slots. *)
Class LoopLaws (reach : world -> (Z -> pmem_st) -> list pmem_st -> world) (ok : world -> Prop) : Prop := {
  reach_none w : reach w (slots_of w) [] = w;
  reach_twice w s1 l1 s2 l2 : reach (reach w s1 l1) s2 l2 = reach w s2 (l1 ++ l2);
  reach_slots w s l : array (pmem (reach w s l)) = set_slots s (array (pmem w));
  reach_ok w s l : ok w -> ok (reach w s l);
}.

Section Loop.
Context (reach : world -> (Z -> pmem_st) -> list pmem_st -> world) (ok : world -> Prop) `{!LoopLaws reach ok}.
Context (g : pmem_st -> pmem_st).

(** Slots of a range have been replaced. *)
Definition slots_mapped (w : world) (lo hi : Z) (r : res world unit) : Prop :=
  exists sl, r = Ok tt (reach w sl (arr_list (slots_of w) lo hi)) /\
    forall j, sl j = if (lo <=? j) && (j <? hi) then g (slots_of w j) else slots_of w j.

Lemma slots_mapped_nil w lo hi : hi <= lo -> slots_mapped w lo hi (Ok tt w).
Proof.
  intros Hle. exists (slots_of w). split.
  - by rewrite arr_list_nil, reach_none by done.
  - intros j. by repeat ztest; (lia || cbn).
Qed.

Lemma slots_mapped_app w lo mid hi (m1 : PM unit) (k : unit -> PM unit) :
  lo <= mid <= hi -> slots_mapped w lo mid (m1 w) ->
  (forall w' sl l, w' = reach w sl l -> (forall j, mid <= j -> slots_of w' j = slots_of w j) ->
     slots_mapped w' mid hi (k tt w')) ->
  slots_mapped w lo hi (bindM m1 k w).
Proof.
  intros Hm (sl1 & Heq1 & Hs1) H2. rewrite (bind_ok _ _ _ _ _ Heq1).
  assert (forall j, mid <= j -> sl1 j = slots_of w j) as Hsame.
  { intros j Hj. rewrite Hs1. by repeat ztest; (lia || cbn). }
  destruct (H2 _ sl1 (arr_list (slots_of w) lo mid) eq_refl) as (sl2 & Heq2 & Hs2); rewrite !reach_slots in *; cbn [slots set_slots] in *; [done|].
  rewrite Heq2. exists sl2. split.
  - rewrite reach_twice. rewrite (arr_list_app _ lo mid hi) by done. do 3 f_equal.
    apply arr_list_ext. intros j Hj. apply Hsame. lia.
  - intros j. rewrite Hs2, Hs1. by repeat ztest; (lia || cbn).
Qed.

(** ** One snippet *)

Context (good : pmem_st -> Prop).

Lemma for_slots_mapped (body : Z -> PM unit) s n :
  (forall w i, ok w -> good (slots_of w i) -> slots_mapped w i (i + 1) (body i w)) ->
  forall i w fuel,
  let hi := sn_index (snippet_info (array (pmem w)) s) in
  ok w -> Forall good (arr_list (slots_of w) i hi) -> hi - i <= Z.of_nat n -> (n < fuel)%nat ->
  slots_mapped w i hi (for_slots fuel s i tt (fun _ => body) w).
Proof.
  intros Hbody. induction n as [|n IH]; intros i w fuel hi Ho Hl Hn Hfuel; (destruct fuel as [|fuel]; [lia|]);
    cbn [for_slots]; step; fold hi; destruct (Z.ltb_spec i hi) as [Hlt|Hge]; try lia;
    try (by apply slots_mapped_nil).
  rewrite arr_list_cons in Hl by done. apply Forall_cons in Hl as [Hi Hl].
  apply (slots_mapped_app w i (i + 1) hi); [lia|by apply Hbody|].
  intros w' sl l -> Hs. specialize (IH (i + 1) (reach w sl l) fuel).
  rewrite reach_slots in IH, Hs. apply IH; [by apply reach_ok| |cbn; fold hi; lia|lia].
  cbn [slots set_slots snippet_info] in *. erewrite arr_list_ext; [exact Hl|]. intros j Hj. apply Hs. lia.
Qed.

Lemma all_slots_mapped (body : Z -> PM unit) s w :
  (forall w i, ok w -> good (slots_of w i) -> slots_mapped w i (i + 1) (body i w)) ->
  let sn := snippet_info (array (pmem w)) s in
  ok w -> start_index sn <= sn_index sn -> Forall good (snip_list (array (pmem w)) s) ->
  slots_mapped w (start_index sn) (sn_index sn) (all_slots s tt (fun _ => body) w).
Proof.
  intros Hbody sn Ho Hle Hg. unfold all_slots. step. fold sn.
  apply (for_slots_mapped body s (Z.to_nat (sn_index sn - start_index sn)) Hbody); fold sn; (done || lia).
Qed.

(** ** All snippets *)

(** What the loop needs to know of a snippet and its stores. *)
Context (fits : arr_snippet -> list pmem_st -> Prop) (snip : Z -> PM unit).
Hypothesis snip_mapped : forall w s,
  let sn := snippet_info (array (pmem w)) s in
  ok w -> start_index sn <= sn_index sn -> fits sn (snip_list (array (pmem w)) s) ->
  slots_mapped w (start_index sn) (sn_index sn) (snip s w).

Lemma for_snippets_mapped n : forall s w fuel,
  let a := array (pmem w) in
  ok w -> frame a -> 0 <= s <= snippet_info_index a + 1 ->
  snippet_info_index a + 1 - s <= Z.of_nat n -> (n < fuel)%nat ->
  (forall t, s <= t <= snippet_info_index a -> fits (snippet_info a t) (snip_list a t)) ->
  slots_mapped w (starts_at a s) (fill a) (for_snippets fuel s tt (fun _ => snip) w).
Proof.
  induction n as [|n IH]; intros s w fuel a Ho Hf Hs Hn Hfuel Hl; (destruct fuel as [|fuel]; [lia|]);
    cbn [for_snippets]; step; fold a; destruct (Z.leb_spec s (snippet_info_index a)) as [Hle|Hgt]; try lia;
    try (apply slots_mapped_nil; unfold starts_at; by rewrite (proj2 (Z.leb_gt _ _))).
  pose proof (starts_next a s Hf ltac:(lia)) as Hnext. destruct (Hf s ltac:(lia)) as [Hst _].
  pose proof (frame_fill a (Z.to_nat (snippet_info_index a - s)) s Hf ltac:(lia) ltac:(lia)) as Hfill.
  assert (starts_at a s = start_index (snippet_info a s)) as Hat
    by (unfold starts_at; by rewrite (proj2 (Z.leb_le _ _))).
  rewrite Hat. apply (slots_mapped_app w _ (sn_index (snippet_info a s)) (fill a)); [lia|apply snip_mapped; auto with lia|].
  intros w' sl l -> Hsl. rewrite <-Hnext. specialize (IH (s + 1) (reach w sl l) fuel).
  rewrite reach_slots in IH, Hsl. fold a in IH, Hsl. cbn [slots set_slots] in Hsl.
  apply IH; [by apply reach_ok|done|simpl; lia..|].
  intros t Ht. cbn in Ht. specialize (Hl t ltac:(lia)). unfold snip_list in *. cbn.
  erewrite arr_list_ext; [exact Hl|]. intros j Hj. apply Hsl.
  pose proof (frame_later a (Z.to_nat (t - s)) s t Hf). lia.
Qed.

Lemma all_snippets_mapped w :
  let a := array (pmem w) in
  ok w -> array_shape a -> (forall s, 0 <= s <= snippet_info_index a -> fits (snippet_info a s) (snip_list a s)) ->
  slots_mapped w 0 (fill a) (all_snippets tt (fun _ => snip) w).
Proof.
  intros a Ho Ha Hfit. unfold all_snippets. step. fold a. pose proof (ar_last _ Ha) as H0.
  assert (starts_at a 0 = 0) as Hst by (unfold starts_at; rewrite (proj2 (Z.leb_le _ _)) by lia; apply (ar_first _ Ha)).
  pose proof (for_snippets_mapped (S (Z.to_nat (snippet_info_index a))) 0 w (S (S (Z.to_nat (snippet_info_index a))))) as Hloop.
  cbv zeta in Hloop. fold a in Hloop. rewrite Hst in Hloop. apply Hloop; try done; try lia. by apply shape_frame.
Qed.
End Loop.
