(* ===== verification/MapSpec.v ===== *)
(** The registered mappings: the handlers of the requests that register and
    remove a mapping, with the bounds of all mappings. *)
From S2P Require Import Prelude OSet OSetTree OSetSpec Region RegionSpec Core Trans Pmem Store Flush Report Client Spec StoreSpec.
Local Open Scope pm_scope.

(** The bytes of a list of ranges. *)
Definition in_ranges (m : list (Z * Z)) (b : Z) : Prop :=
  exists x, x ∈ m /\ fst x <= b < fst x + snd x.

Lemma meets_bytes a s m :
  0 < s -> Forall (fun x => 0 < snd x) m ->
  existsb (meets a s) m = true <-> exists b, a <= b < a + s /\ in_ranges m b.
Proof.
  intros Hs Hm. rewrite existsb_exists. rewrite Forall_forall in Hm. split.
  - intros (x & Hx & Hmeet). apply list_elem_of_In in Hx. specialize (Hm x Hx).
    unfold meets in Hmeet. apply negb_true_iff, orb_false_iff in Hmeet. rewrite !Z.leb_gt in Hmeet.
    exists (Z.max a (fst x)). split; [lia|]. exists x. split; [done|lia].
  - intros (b & Hb & x & Hx & Hxb). exists x. split; [by apply list_elem_of_In|].
    unfold meets. apply negb_true_iff, orb_false_iff. rewrite !Z.leb_gt. lia.
Qed.

(** Two lists of ranges with the same bytes. *)
Definition same_bytes (m1 m2 : list (Z * Z)) : Prop :=
  Forall (fun x => 0 < snd x) m1 /\ Forall (fun x => 0 < snd x) m2 /\
  forall b, in_ranges m1 b <-> in_ranges m2 b.

Lemma same_bytes_meets m1 m2 a s :
  same_bytes m1 m2 -> 0 < s -> existsb (meets a s) m1 = existsb (meets a s) m2.
Proof.
  intros (H1 & H2 & Hb) Hs. apply eq_true_iff_eq. rewrite !meets_bytes by done.
  by setoid_rewrite Hb.
Qed.


Lemma in_ranges_cons x m b : in_ranges (x :: m) b <-> fst x <= b < fst x + snd x \/ in_ranges m b.
Proof.
  unfold in_ranges. setoid_rewrite elem_of_cons. split.
  - intros (y & [->|Hy] & Hb); [by left|]. right. by exists y.
  - intros [Hb|(y & Hy & Hb)]; [exists x; tauto|exists y; tauto].
Qed.

Lemma in_ranges_app m1 m2 b : in_ranges (m1 ++ m2) b <-> in_ranges m1 b \/ in_ranges m2 b.
Proof. unfold in_ranges. setoid_rewrite elem_of_app. naive_solver. Qed.

Lemma in_ranges_nil b : in_ranges [] b <-> False.
Proof. split; [|done]. by intros (x & ?%elem_of_nil & _). Qed.

Lemma minus_spec a s m b :
  0 <= s ->
  in_ranges (minus a s m) b <-> fst m <= b < fst m + snd m /\ ~ (a <= b < a + s).
Proof.
  intros Hs. unfold minus. rewrite in_ranges_app.
  repeat ztest; cbn zeta; rewrite ?in_ranges_cons, ?in_ranges_nil; simpl; lia.
Qed.

Lemma minus_sized a s m : 0 <= s -> 0 < snd m -> Forall (fun x => 0 < snd x) (minus a s m).
Proof.
  intros Hs Hm. unfold minus. apply Forall_app.
  split; repeat ztest; repeat constructor; simpl; lia.
Qed.

Lemma unmap_spec a s maps b :
  0 <= s -> in_ranges (flat_map (minus a s) maps) b <-> in_ranges maps b /\ ~ (a <= b < a + s).
Proof.
  intros Hs. induction maps as [|m maps IH]; [simpl; rewrite in_ranges_nil; tauto|].
  simpl. rewrite in_ranges_app, in_ranges_cons, minus_spec, IH by done. tauto.
Qed.

Lemma unmap_sized a s maps :
  0 <= s -> Forall (fun x => 0 < snd x) maps -> Forall (fun x => 0 < snd x) (flat_map (minus a s) maps).
Proof.
  intros Hs Hm. induction maps as [|m maps IH]; [constructor|]. apply Forall_cons in Hm as [Hm Hms].
  simpl. apply Forall_app. split; [by apply minus_sized|by apply IH].
Qed.

Lemma in_ranges_set set b :
  in_ranges ((fun e => (addr e, size e)) <$> elems set) b <-> set_covers set b.
Proof.
  split.
  - intros (x & (e & -> & He)%list_elem_of_fmap & Hb). by exists e.
  - intros (e & He & Hb). exists (addr e, size e). split; [|done].
    apply list_elem_of_fmap. by exists e.
Qed.


Lemma same_bytes_maps w maps :
  Forall (fun x => 0 < snd x) maps -> region_set_ok (pmem_mappings (pmem w)) ->
  (forall b, set_covers (pmem_mappings (pmem w)) b <-> in_ranges maps b) -> same_bytes (mapped w) maps.
Proof.
  intros Hm Hset Hb. split; [|split; [done|]].
  - unfold mapped. apply Forall_fmap, Forall_forall. intros x Hx.
    pose proof (region_of_set _ x Hset Hx) as (? & ? & ?). done.
  - intros b. rewrite <-Hb. apply in_ranges_set.
Qed.

(** All registered bytes are between the bounds. *)
Lemma maps_between w b :
  maps_ok (pmem_mappings (pmem w)) (min_add_pmem_mappings (pmem w)) (max_add_pmem_mappings (pmem w)) ->
  set_covers (pmem_mappings (pmem w)) b ->
  min_add_pmem_mappings (pmem w) <= b < max_add_pmem_mappings (pmem w).
Proof.
  intros [_ Hb] (x & Hx & Hxb). rewrite Forall_forall in Hb. specialize (Hb x Hx).
  unfold covers in Hxb. lia.
Qed.

(** Bounds from the bytes. *)
Lemma bounds_from_bytes set mn mx :
  region_set_ok set -> (forall b, set_covers set b -> mn <= b < mx) ->
  Forall (fun e => mn <= addr e /\ addr e + size e <= mx) (elems set).
Proof.
  intros Hset Hin. apply Forall_forall. intros x Hx.
  pose proof (region_of_set set x Hset Hx) as (? & ? & ?).
  assert (set_covers set (addr x)) as Hlo by (exists x; unfold covers; split; [done|lia]).
  assert (set_covers set (addr x + size x - 1)) as Hhi by (exists x; unfold covers; split; [done|lia]).
  apply Hin in Hlo, Hhi. lia.
Qed.

Lemma register_mapping_ok P k w base sz maps :
  inv P k w -> same_bytes (mapped w) maps ->
  1 <= base -> 0 < sz -> base + sz + 1 < word_size ->
  exists w', register_mapping base sz w = Ok tt w' /\ inv P (k + 1) w' /\
    opts (pmem w') = opts (pmem w) /\ view w' = view w /\
    same_bytes (mapped w') ((base, sz) :: maps).
Proof.
  intros [Hp Hq Ha Ht Hmo Htx Hst Hsn Hre] (_ & Hm2 & Hm) H1 H2 H3.
  set (r := region_at base sz). assert (region_ok r) as Hr by (unfold region_ok; simpl; lia).
  pose proof (mp_ok _ _ _ Hmo) as Hset.
  destruct (add_region_correct (pmem_mappings (pmem w)) r Hset Hr) as (set' & Hadd & Hset' & Hsz & Hcov);
    [simpl; lia..|].
  eexists. split.
  { unfold register_mapping. step. step.
    change (pmem_mappings _) with (pmem_mappings (pmem w)). fold r. rewrite Hadd. reflexivity. }
  split; [|split; [done|split; [done|]]].
  - split; try done.
    + split; [done|]. apply bounds_from_bytes; [done|]. intros b Hb. apply Hcov in Hb. cbn.
      fold r. pose proof (maps_between w b Hmo) as Hold.
      set (mn := min_add_pmem_mappings (pmem w)) in *. set (mx := max_add_pmem_mappings (pmem w)) in *.
      assert (mn = word_max -> mx = word_max -> ~ set_covers (pmem_mappings (pmem w)) b) as Hnone
        by (intros E1 E2 Hc; specialize (Hold Hc); lia).
      unfold widen. rewrite max_addr_ok by done. unfold covers in Hb. simpl in *.
      destruct (Z.eqb_spec mx word_max), (Z.eqb_spec mn word_max); simpl;
        repeat ztest; destruct Hb as [Hb|Hb]; try (specialize (Hold Hb)); try lia; tauto.
    + change (card (pmem_stores (pmem w)) + fill (array (pmem w)) <= k + 1). lia.
    + change (snippet_info_index (array (pmem w)) <= k + 1). lia.
    + change (card set' <= k + 1). lia.
  - apply same_bytes_maps; [by constructor|done|]. intros b. etransitivity; [apply Hcov|].
    rewrite in_ranges_cons, <-(Hm b). rewrite <-in_ranges_set. unfold covers. simpl.
    change (_ <$> elems (pmem_mappings (pmem w))) with (mapped w). tauto.
Qed.

(** ** Removal *)

Abbreviation region_view := (os_view cmp_pmem_st region_ok).

Definition reach_maps (w : world) (set : region_set) : world :=
  set_pmem (set_pmem_mappings set (pmem w)) w.

Lemma mapping_reset_ok w :
  let set := pmem_mappings (pmem w) in
  region_set_ok set -> card set < iter_limit ->
  exists set', mapping_reset w = Ok tt (reach_maps w set') /\
    region_view set' (nodes set) (nodes set) /\ root set' = root set.
Proof.
  intros set Hset Hlim. destruct (view_reset _ _ set (rs_ok _ Hset) Hlim) as (set1 & Hres & Hv & Hroot).
  exists set1. split; [|done]. unfold mapping_reset. step. fold set. by rewrite Hres.
Qed.

Lemma mapping_next_ok w ns rest :
  region_view (pmem_mappings (pmem w)) ns rest ->
  exists set', mapping_next w = Ok (head rest) (reach_maps w set') /\ region_view set' ns (tail rest).
Proof.
  intros Hv. destruct (view_next _ _ _ _ _ Hv) as (set' & Hnx & Hv').
  exists set'. split; [|done]. unfold mapping_next. step. rewrite Hnx. done.
Qed.

(** The loop that looks for the last mapping. *)
Lemma mapping_last_ok rest : forall w ns acc fuel,
  region_view (pmem_mappings (pmem w)) ns rest -> (length rest < fuel)%nat ->
  exists set', fold_next fuel mapping_next acc (fun _ m => retM (Some (snd m))) w =
      Ok (match last rest with Some n => Some (snd n) | None => acc end) (reach_maps w set') /\
    region_view set' ns [].
Proof.
  induction rest as [|n rest IH]; intros w ns acc fuel Hv Hfuel;
    (destruct fuel as [|fuel]; [simpl in *; lia|]); cbn [fold_next];
    destruct (mapping_next_ok w _ _ Hv) as (set1 & Hnext & Hv1);
    rewrite (bind_ok _ _ _ _ _ Hnext); cbn [head tail] in *.
  - by exists set1.
  - step. destruct (IH (reach_maps w set1) ns (Some (snd n)) fuel) as (set2 & -> & Hv2);
      [done|simpl in *; lia|].
    exists set2. split; [|done]. f_equal. rewrite last_cons. by destruct (last rest).
Qed.

(** Sets with the same nodes. *)
Lemma region_set_nodes set set' ns rest :
  region_set_ok set -> region_view set' ns rest -> ns = nodes set -> region_set_ok set' /\ elems set' = elems set.
Proof.
  intros Hset Hv ->. assert (elems set' = elems set) as Hel
    by (unfold elems; by rewrite (view_nodes _ _ _ _ _ Hv)).
  split; [|done]. split; [apply (view_ok _ _ _ _ _ Hv)|]. rewrite Hel. apply (rs_apart _ Hset).
Qed.

(** The first region has the least address, the last one the greatest end. *)
Lemma first_region set n ns :
  region_set_ok set -> nodes set = n :: ns -> Forall (fun e => addr (snd n) <= addr e) (elems set).
Proof.
  intros Hset Hn. pose proof (ok_sorted _ _ _ (rs_ok _ Hset) [] n ns Hn) as (_ & _ & Hb).
  unfold elems. rewrite Hn, fmap_cons. constructor; [done|]. rewrite Forall_fmap.
  apply Forall_forall. intros m Hm. unfold before_all in Hb. rewrite Forall_forall in Hb.
  specialize (Hb m Hm). simpl in *.
  assert (region_ok (snd n) /\ region_ok (snd m)) as [Hnr Hmr].
  { split; apply (region_of_set set); try done; unfold elems; rewrite Hn, fmap_cons, elem_of_cons;
      [by left|right; apply list_elem_of_fmap; by exists m]. }
  apply (cmp_pmem_st_spec _ _ Hnr Hmr) in Hb. destruct Hnr. lia.
Qed.

Lemma last_region set n ns :
  region_set_ok set -> nodes set = ns ++ [n] ->
  Forall (fun e => addr e + size e <= addr (snd n) + size (snd n)) (elems set).
Proof.
  intros Hset Hn. pose proof (ok_sorted _ _ _ (rs_ok _ Hset) ns n [] Hn) as (_ & Ha & _).
  unfold elems. rewrite Hn, fmap_app. apply Forall_app. split; [|by repeat constructor].
  rewrite Forall_fmap. apply Forall_forall. intros m Hm. unfold after_all in Ha. rewrite Forall_forall in Ha.
  specialize (Ha m Hm). simpl in *.
  assert (region_ok (snd n) /\ region_ok (snd m)) as [Hnr Hmr].
  { split; apply (region_of_set set); try done; unfold elems; rewrite Hn, fmap_app, elem_of_app;
      [right; by left|left; apply list_elem_of_fmap; by exists m]. }
  apply (cmp_pmem_st_spec _ _ Hnr Hmr) in Ha. destruct Hnr. lia.
Qed.

Definition reach_bounds (w : world) (set : region_set) (mn mx : Z) : world :=
  set_pmem (set_pmem_mappings set
    (set_min_add_pmem_mappings mn (set_max_add_pmem_mappings mx (pmem w)))) w.

(** The same mappings, with bounds that hold. *)
Definition rebounded (w : world) (m : PM unit) : Prop :=
  exists set mn mx, m w = Ok tt (reach_bounds w set mn mx) /\
    nodes set = nodes (pmem_mappings (pmem w)) /\ card set = card (pmem_mappings (pmem w)) /\
    maps_ok set mn mx.

Lemma rebounded_skip w :
  maps_ok (pmem_mappings (pmem w)) (min_add_pmem_mappings (pmem w)) (max_add_pmem_mappings (pmem w)) ->
  rebounded w (retM tt).
Proof.
  intros Hm. exists (pmem_mappings (pmem w)), (min_add_pmem_mappings (pmem w)), (max_add_pmem_mappings (pmem w)).
  split; [|done]. unfold retM. f_equal. by destruct w as [? [] ? ? ?].
Qed.

Lemma view_size set ns rest :
  region_set_ok set -> forall set', region_view set' ns rest -> ns = nodes set -> card set' = card set.
Proof.
  intros Hset set' Hv ->. rewrite (wf_card _ (ok_wf _ _ _ (rs_ok _ Hset))).
  rewrite (wf_card _ (ok_wf _ _ _ (view_ok _ _ _ _ _ Hv))). by rewrite (view_nodes _ _ _ _ _ Hv).
Qed.

(** The bounds are computed again. *)
Lemma first_bound_ok w :
  let p := pmem w in
  maps_ok (pmem_mappings p) (min_add_pmem_mappings p) (max_add_pmem_mappings p) ->
  card (pmem_mappings p) < iter_limit ->
  rebounded w first_bound.
Proof.
  intros p [Hset Hb] Hlim. destruct (mapping_reset_ok w Hset Hlim) as (set1 & Heq1 & Hv1 & _).
  destruct (mapping_next_ok (reach_maps w set1) _ _ Hv1) as (set2 & Heq2 & Hv2).
  destruct (region_set_nodes _ _ _ _ Hset Hv2 eq_refl) as [Hset2 Hel2].
  pose proof (view_size _ _ _ Hset _ Hv2 eq_refl) as Hsz2. pose proof (view_nodes _ _ _ _ _ Hv2) as Hn2.
  unfold rebounded, first_bound. rewrite (bind_ok _ _ _ _ _ Heq1), (bind_ok _ _ _ _ _ Heq2). fold p.
  fold p in Heq2, Hn2, Hsz2, Hel2. destruct (nodes (pmem_mappings p)) as [|[i m] ns] eqn:Hns; cbn [head].
  - exists set2, word_max, word_max. split; [by destruct w as [? [] ? ? ?]|].
    split; [done|]. split; [done|]. split; [done|]. unfold elems. rewrite Hn2. constructor.
  - exists set2, (addr m), (max_add_pmem_mappings p). split; [by destruct w as [? [] ? ? ?]|].
    split; [done|]. split; [done|]. split; [done|].
    pose proof (first_region set2 (i, m) ns Hset2 Hn2) as Hf. rewrite Hel2 in *.
    rewrite Forall_forall in *. intros x Hx. specialize (Hb x Hx). specialize (Hf x Hx). simpl in *. lia.
Qed.

Lemma last_bound_ok w :
  let p := pmem w in
  maps_ok (pmem_mappings p) (min_add_pmem_mappings p) (max_add_pmem_mappings p) ->
  card (pmem_mappings p) < iter_limit -> rebounded w last_bound.
Proof.
  intros p [Hset Hb] Hlim. destruct (mapping_reset_ok w Hset Hlim) as (set1 & Heq1 & Hv1 & Hroot1).
  destruct (mapping_last_ok _ (reach_maps w set1) _ None (rounds set1) Hv1) as (set2 & Heq2 & Hv2).
  { unfold rounds. rewrite Hroot1. unfold nodes. rewrite length_inorder. lia. }
  destruct (region_set_nodes _ _ _ _ Hset Hv2 eq_refl) as [Hset2 Hel2].
  pose proof (view_size _ _ _ Hset _ Hv2 eq_refl) as Hsz2. pose proof (view_nodes _ _ _ _ _ Hv2) as Hn2.
  unfold rebounded, last_bound. rewrite (bind_ok _ _ _ _ _ Heq1). step.
  rewrite (bind_ok _ _ _ _ _ Heq2). fold p. fold p in Hn2, Hsz2, Hel2. destruct (last (nodes (pmem_mappings p))) as [m|] eqn:Hl.
  - apply last_Some in Hl as [ns Hns]. rewrite Hns in Hn2.
    assert (snd m ∈ elems (pmem_mappings p)) as Hm
      by (unfold elems; rewrite Hns, fmap_app, elem_of_app; right; by left).
    pose proof (region_of_set _ _ Hset Hm) as Hmr.
    exists set2, (min_add_pmem_mappings p), (max_addr (snd m)). split; [by destruct w as [? [] ? ? ?]|].
    split; [by rewrite Hns|]. split; [done|]. split; [done|]. rewrite max_addr_ok by done.
    pose proof (last_region set2 m ns Hset2 Hn2) as Hf. rewrite Hel2 in *.
    rewrite Forall_forall in *. intros x Hx. specialize (Hb x Hx). specialize (Hf x Hx). simpl in *. lia.
  - apply last_None in Hl. exists set2, word_max, word_max. split; [by destruct w as [? [] ? ? ?]|].
    split; [by rewrite Hl, Hn2|]. split; [done|]. split; [done|]. unfold elems. rewrite Hn2, Hl. constructor.
Qed.

Lemma whenM_rebounded w b m :
  let p := pmem w in
  maps_ok (pmem_mappings p) (min_add_pmem_mappings p) (max_add_pmem_mappings p) ->
  rebounded w m -> rebounded w (whenM b m).
Proof. intros p Hm Hr. destruct b; [done|by apply rebounded_skip]. Qed.

Lemma remove_mapping_ok P k w base sz maps :
  inv P k w -> k + 1 < iter_limit -> same_bytes (mapped w) maps ->
  1 <= base -> 0 < sz -> base + sz + 1 < word_size ->
  exists w', remove_mapping base sz w = Ok tt w' /\ inv P (k + 1) w' /\
    opts (pmem w') = opts (pmem w) /\ view w' = view w /\
    same_bytes (mapped w') (flat_map (minus base sz) maps).
Proof.
  intros [Hp Hq Ha Ht Hmo Htx Hst Hsn Hre] Hk (_ & Hm2 & Hm) H1 H2 H3.
  set (r := region_at base sz). assert (region_ok r) as Hr by (unfold region_ok; simpl; lia).
  pose proof (mp_ok _ _ _ Hmo) as Hset.
  destruct (remove_region_mapping_correct (pmem_mappings (pmem w)) r Hset Hr)
    as (set1 & Hrem & Hset1 & Hsz1 & Hcov).
  unfold remove_mapping. step. fold r. rewrite Hrem. step. step.
  set (w1 := set_pmem (set_pmem_mappings set1 (pmem w)) w).
  assert (maps_ok (pmem_mappings (pmem w1)) (min_add_pmem_mappings (pmem w1))
    (max_add_pmem_mappings (pmem w1))) as Hmo1.
  { split; [done|]. apply bounds_from_bytes; [done|]. intros b Hb. apply Hcov in Hb as [Hb _].
    exact (maps_between w b Hmo Hb). }
  assert (card (pmem_mappings (pmem w1)) < iter_limit) as Hlim1 by (change (card set1 < iter_limit); lia).
  step. destruct (whenM_rebounded w1 (addr r =? min_add_pmem_mappings (pmem w1)) first_bound Hmo1
    (first_bound_ok w1 Hmo1 Hlim1)) as (set2 & mn2 & mx2 & Heq2 & Hn2 & Hsz2 & Hmo2).
  rewrite (bind_ok _ _ _ _ _ Heq2). set (w2 := reach_bounds w1 set2 mn2 mx2). step.
  destruct (whenM_rebounded w2 (max_addr r =? max_add_pmem_mappings (pmem w2)) last_bound Hmo2
    (last_bound_ok w2 Hmo2 ltac:(by change (card set2 < iter_limit); rewrite Hsz2)))
    as (set3 & mn3 & mx3 & Heq3 & Hn3 & Hsz3 & Hmo3).
  exists (reach_bounds w2 set3 mn3 mx3). split; [exact Heq3|].
  change (pmem_mappings (pmem w1)) with set1 in *. change (pmem_mappings (pmem w2)) with set2 in *.
  split; [|split; [done|split; [done|]]].
  - split; try done.
    + change (card (pmem_stores (pmem w)) + fill (array (pmem w)) <= k + 1). lia.
    + change (snippet_info_index (array (pmem w)) <= k + 1). lia.
    + change (card set3 <= k + 1). lia.
  - apply same_bytes_maps; [by apply unmap_sized; [lia|]|apply (mp_ok _ _ _ Hmo3)|].
    change (pmem_mappings (pmem (reach_bounds w2 set3 mn3 mx3))) with set3. intros b.
    rewrite unmap_spec by lia. rewrite <-(Hm b), <-in_ranges_set.
    assert (elems set3 = elems set1) as -> by (unfold elems; by rewrite Hn3, Hn2).
    rewrite in_ranges_set. etransitivity; [apply Hcov|]. rewrite <-in_ranges_set. done.
Qed.
