(* ===== verification/FlushSpec.v ===== *)
(** The effect of a flush on the tracked stores. *)
From S2P Require Import Prelude OSet OSetTree OSetSpec Region RegionSpec Core Trans Pmem Store Flush Spec StoreSpec.
Local Open Scope pm_scope.

(** ** Entries under a flush *)

Definition hits (f e : pmem_st) : bool := cmp_pmem_st f e =? 0.

Definition dirty (e : pmem_st) : bool := bool_decide (state e = STST_DIRTY).

(** An entry after a flush that does not cut it. *)
Definition flush_e (f e : pmem_st) : pmem_st :=
  if hits f e && dirty e then set_state STST_FLUSHED e else e.

(** The flush does not cut the entry. *)
Definition uncut (f e : pmem_st) : Prop :=
  hits f e = true -> dirty e = true -> addr f <= addr e /\ addr e + size e <= addr f + size f.

(** A region that can be flushed. *)
Definition flush_ok (f : pmem_st) : Prop := region_ok f /\ addr f + size f < word_max.

Lemma hits_spec f e :
  region_ok f -> region_ok e -> hits f e = hit (addr f) (size f) (view_st e).
Proof.
  intros Hf He. unfold hits, hit. simpl. pose proof (cmp_overlap f e Hf He) as Hc.
  unfold outside in Hc. destruct (Z.eqb_spec (cmp_pmem_st f e) 0); repeat ztest; simpl; (done || lia).
Qed.

Lemma view_flush f e :
  region_ok f -> entry_ok e -> view_st (flush_e f e) = mark (addr f) (size f) (view_st e).
Proof.
  intros Hf [He _ _ Hs]. unfold flush_e, mark. rewrite <-hits_spec by done.
  unfold dirty. destruct (hits f e); [|done]. destruct (state e) eqn:E; [done|done|].
  simpl. unfold view_st. by rewrite E.
Qed.

Lemma uncut_whole f e :
  region_ok f -> entry_ok e -> whole (addr f) (size f) (view_st e) = true -> uncut f e.
Proof.
  intros Hf [He _ _ _] Hw Hh Hd. unfold whole in Hw. rewrite <-hits_spec, Hh in Hw by done.
  unfold dirty in Hd. apply bool_decide_eq_true in Hd. simpl in Hw. rewrite Hd in Hw. simpl in Hw.
  apply andb_true_iff in Hw as [H1 H2]. rewrite Z.leb_le in H1, H2. lia.
Qed.

Lemma entry_flushed e : entry_ok e -> entry_ok (set_state STST_FLUSHED e).
Proof. intros [? ? ? ?]. by split. Qed.

Lemma flush_e_ok f e : entry_ok e -> entry_ok (flush_e f e).
Proof. intros He. unfold flush_e. destruct (_ && _); [by apply entry_flushed|done]. Qed.

(** ** A world after a flush of the array: the array and the register of
    redundant flushes change. *)
Definition reach (w : world) (a : pmem_stores_array) (ev : list pmem_st) : world :=
  set_pmem (set_array a (set_redundant_flushes ev (pmem w))) w.

Lemma reach_self w : reach w (array (pmem w)) (redundant_flushes (pmem w)) = w.
Proof. by destruct w as [? [] ? ? ?]. Qed.

(** The events a list of entries adds. *)
Definition red_events (check : bool) (f : pmem_st) (l : list pmem_st) : list pending :=
  if check then List.filter (again (addr f) (size f)) (view_st <$> l) else [].

Lemma red_events_cons check f e l :
  red_events check f (e :: l) = red_events check f [e] ++ red_events check f l.
Proof. unfold red_events. destruct check; [|done]. simpl. by destruct (again _ _ _). Qed.

Section Flush.
Context `{CoreEnv}.

(** A flush of a store that is already flushed is registered, if asked for. *)
Lemma redundant_check_ok e w :
  Z.of_nat (length (redundant_flushes (pmem w))) +
    (if check_flush (opts (pmem w)) then 1 else 0) <= MAX_FLUSH_ERROR_EVENTS ->
  exists ev', redundant_check e w = Ok tt (reach w (array (pmem w)) ev') /\
    ev' = redundant_flushes (pmem w) ++
            (if check_flush (opts (pmem w)) then [set_state STST_FLUSHED e] else []).
Proof.
  intros Hroom. unfold redundant_check. step.
  destruct (check_flush (opts (pmem w))); cbn [whenM].
  - unfold add_redundant_flush. step. unfold add_warning_event.
    rewrite (proj2 (Z.eqb_neq _ _)) by lia. by eexists.
  - eexists. split; [|by rewrite app_nil_r]. by rewrite reach_self.
Qed.

Lemma eff_hits f fl e : hits f (eff fl e) = hits f e.
Proof. by destruct fl. Qed.

Lemma existsb_eff f fl l : existsb (hits f) (eff fl <$> l) = existsb (hits f) l.
Proof.
  induction l as [|e l IH]; [done|]. rewrite fmap_cons. cbn [existsb]. by rewrite eff_hits, IH.
Qed.

Lemma eff_region fl e : region_ok e -> region_ok (eff fl e).
Proof. by destruct fl. Qed.

(** A hit of a store that does not count as dirty is an event, one of a dirty
    store is not. *)
Lemma red_events_hit check f fl e :
  region_ok f -> entry_ok e -> hits f e = true ->
  red_events check f [eff fl e] =
    (if check && negb (dirty (eff fl e)) then [view_st (set_state STST_FLUSHED e)] else []).
Proof.
  intros Hf He Hh. unfold red_events, again. destruct check; [|done]. simpl.
  rewrite <-hits_spec, eff_hits, Hh by (done || apply eff_region, He). simpl.
  destruct He as [_ _ _ Hs]. unfold dirty.
  destruct fl; simpl; unfold view_st; destruct (state e) eqn:E; simpl; rewrite ?E; done.
Qed.

Lemma red_events_miss check f e :
  region_ok f -> region_ok e -> hits f e = false -> red_events check f [e] = [].
Proof.
  intros Hf He Hh. unfold red_events, again. destruct check; [|done]. simpl.
  by rewrite <-hits_spec, Hh.
Qed.

(** A store that is not cut is not split. *)
Lemma split_before_no f i w :
  addr f <= addr (slots (array (pmem w)) i) -> split_before f i w = Ok tt w.
Proof. intros Hle. unfold split_before. step. by rewrite (proj2 (Z.ltb_ge _ _)). Qed.

Lemma split_after_no f i w :
  max_addr (slots (array (pmem w)) i) <= max_addr f -> split_after f i w = Ok tt w.
Proof. intros Hle. unfold split_after. step. by rewrite (proj2 (Z.ltb_ge _ _)). Qed.

(** One slot. *)
Lemma flush_slot_ok f s valid i w :
  flush_ok f ->
  let a := array (pmem w) in
  let e := slots a i in
  let fl := flushed_num (snippet_info a s) in
  let check := check_flush (opts (pmem w)) in
  entry_ok e -> (fl <> ALL_FLUSHED -> uncut f e) ->
  Z.of_nat (length (redundant_flushes (pmem w))) +
    Z.of_nat (length (red_events check f [eff fl e])) <= MAX_FLUSH_ERROR_EVENTS ->
  exists a' ev', flush_slot f s valid i w = Ok (valid || hits f e) (reach w a' ev') /\
    snippet_info_index a' = snippet_info_index a /\
    (forall t, t <> s -> snippet_info a' t = snippet_info a t) /\
    (forall j, j <> i -> slots a' j = slots a j) /\
    view_st <$> ev' = (view_st <$> redundant_flushes (pmem w)) ++ red_events check f [eff fl e] /\
    match fl with
    | ALL_FLUSHED => slots a' i = e /\ snippet_info a' s = snippet_info a s
    | _ => slots a' i = flush_e f e /\
           snippet_info a' s = (if hits f e && dirty e then set_flushed_num PART_FLUSHED (snippet_info a s)
                                else snippet_info a s)
    end.
Proof.
  intros [Hf Hfe] a e fl check He Hcut Hroom. unfold flush_slot. step. fold a. fold e.
  rewrite (en_live _ He). fold (hits f e). destruct (hits f e) eqn:Eh; cbn [negb].
  2: { exists a, (redundant_flushes (pmem w)). rewrite orb_false_r. unfold a. rewrite reach_self.
       split; [done|]. repeat (split; [done|]). split.
       - rewrite red_events_miss, app_nil_r; [done|done|apply eff_region, He|by rewrite eff_hits].
       - unfold flush_e. rewrite Eh. simpl. by destruct fl. }
  rewrite orb_true_r. step. fold a. fold fl.
  rewrite (red_events_hit check f fl e Hf He Eh) in *.
  destruct (dirty (eff fl e)) eqn:Ed.
  - assert (fl <> ALL_FLUSHED) as Hfl by (intros E; by rewrite E in Ed).
    assert (dirty e = true) as Hd by (by destruct fl).
    destruct (Hcut Hfl Eh Hd) as [Hlo Hhi]. destruct He as [Her Hee _ _].
    rewrite (bool_decide_eq_false_2 _ Hfl). fold (dirty e). rewrite Hd. cbn [orb negb].
    do 2 step.
    erewrite bind_ok; [|apply split_before_no; simpl; by rewrite arr_upd_same].
    erewrite bind_ok; [|apply split_after_no].
    2: { simpl. rewrite arr_upd_same, !max_addr_ok by done. done. }
    rewrite andb_false_r in *.
    eexists _, (redundant_flushes (pmem w)). split; [reflexivity|]. split; [done|].
    split; [intros t Ht; simpl; by rewrite arr_upd_other|].
    split; [intros j Hj; simpl; by rewrite arr_upd_other|]. split; [by rewrite app_nil_r|].
    simpl. rewrite !arr_upd_same. fold a e. unfold flush_e. rewrite Eh, Hd. simpl.
    by destruct fl.
  - assert ((bool_decide (fl = ALL_FLUSHED) || negb (bool_decide (state e = STST_DIRTY))) = true) as ->.
    { destruct fl; try done; simpl in Ed; unfold dirty in Ed; by rewrite Ed. }
    rewrite andb_true_r in *.
    destruct (redundant_check_ok e w) as (ev' & Heq & Hev).
    { fold check. destruct check; simpl in *; lia. }
    rewrite (bind_ok _ _ _ _ _ Heq). exists a, ev'. split; [done|].
    repeat (split; [done|]). split.
    + rewrite Hev, fmap_app. fold check. by destruct check.
    + unfold flush_e. destruct fl; [| |done]; simpl in Ed; rewrite Ed, andb_false_r; done.
Qed.

(** The entries and the flag of a snippet after a flush that looks at its
    stores. *)
Definition flush_in (fl : flushed_state) (f e : pmem_st) : pmem_st :=
  match fl with ALL_FLUSHED => e | _ => flush_e f e end.

Definition flag_after (fl : flushed_state) (f : pmem_st) (l : list pmem_st) : flushed_state :=
  match fl with
  | ALL_FLUSHED => ALL_FLUSHED
  | _ => if existsb (fun e => hits f e && dirty e) l then PART_FLUSHED else fl
  end.

Lemma flag_after_cons fl f e l :
  flag_after (flag_after fl f [e]) f l = flag_after fl f (e :: l).
Proof.
  unfold flag_after. destruct fl; simpl; try done;
    destruct (hits f e && dirty e); simpl; try done; by destruct (existsb _ l).
Qed.

Lemma flush_in_flag fl f l e : flush_in (flag_after fl f l) f e = flush_in fl f e.
Proof. unfold flag_after. by destruct fl; simpl; try done; destruct (existsb _ l). Qed.

Lemma eff_flag_events check fl f l l' :
  red_events check f (eff (flag_after fl f l) <$> l') = red_events check f (eff fl <$> l').
Proof. unfold flag_after. by destruct fl; simpl; try done; destruct (existsb _ l). Qed.

(** What the loop over the slots from [i] on promises; [w] is the state before
    it. *)
Definition slots_post f s i (w : world) (valid : bool) (r : res world bool) : Prop :=
  let a := array (pmem w) in
  let sn := snippet_info a s in
  let fl := flushed_num sn in
  let l := arr_list (slots a) i (sn_index sn) in
  let check := check_flush (opts (pmem w)) in
  exists a' ev', r = Ok (valid || existsb (hits f) l) (reach w a' ev') /\
    snippet_info_index a' = snippet_info_index a /\
    (forall t, t <> s -> snippet_info a' t = snippet_info a t) /\
    snippet_info a' s = set_flushed_num (flag_after fl f l) sn /\
    (forall j, ~ (i <= j < sn_index sn) -> slots a' j = slots a j) /\
    arr_list (slots a') i (sn_index sn) = flush_in fl f <$> l /\
    view_st <$> ev' = (view_st <$> redundant_flushes (pmem w)) ++ red_events check f (eff fl <$> l).

Lemma flush_slots_none f s i w valid :
  sn_index (snippet_info (array (pmem w)) s) <= i -> slots_post f s i w valid (Ok valid w).
Proof.
  intros Hle. unfold slots_post. rewrite !arr_list_nil by done.
  exists (array (pmem w)), (redundant_flushes (pmem w)). rewrite reach_self. simpl.
  rewrite orb_false_r. split; [done|]. split; [done|]. split; [done|]. split.
  { unfold flag_after. simpl. destruct (snippet_info _ s) as [? ? ? ? []]; done. }
  split; [done|]. split; [by apply arr_list_nil|].
  unfold red_events. destruct (check_flush _); by rewrite app_nil_r.
Qed.

Lemma flush_slots_ok f s n : forall i w valid fuel,
  flush_ok f ->
  let a := array (pmem w) in
  let sn := snippet_info a s in
  let fl := flushed_num sn in
  let l := arr_list (slots a) i (sn_index sn) in
  let check := check_flush (opts (pmem w)) in
  sn_index sn - i <= Z.of_nat n -> (n < fuel)%nat ->
  Forall entry_ok l -> (fl <> ALL_FLUSHED -> Forall (uncut f) l) ->
  Z.of_nat (length (redundant_flushes (pmem w))) +
    Z.of_nat (length (red_events check f (eff fl <$> l))) <= MAX_FLUSH_ERROR_EVENTS ->
  slots_post f s i w valid (for_slots fuel s i valid (flush_slot f s) w).
Proof.
  induction n as [|n IH]; intros i w valid fuel Hf a sn fl l check Hn Hfuel Hl Hcut Hroom;
    (destruct fuel as [|fuel]; [lia|]); cbn [for_slots]; step; fold a; fold sn;
    destruct (Z.ltb_spec i (sn_index sn)) as [Hlt|Hge]; [lia|by apply flush_slots_none| |
      by apply flush_slots_none].
  assert (l = slots a i :: arr_list (slots a) (i + 1) (sn_index sn)) as El by (by apply arr_list_cons).
  rewrite El in Hl, Hcut, Hroom. rewrite fmap_cons, red_events_cons, length_app in Hroom.
  apply Forall_cons in Hl as [He Hl].
  destruct (flush_slot_ok f s valid i w Hf He) as (a1 & ev1 & Heq & Hn1 & Hs1 & Hj1 & Hev1 & Hsl1).
  { intros Hfl. by apply Hcut, Forall_cons in Hfl as [? _]. }
  { fold a; fold sn; fold fl; fold check. lia. }
  fold a in Heq, Hn1, Hs1, Hj1, Hev1, Hsl1. fold sn in Hev1, Hsl1. fold fl in Hev1, Hsl1.
  fold check in Hev1. rewrite (bind_ok _ _ _ _ _ Heq).
  assert (snippet_info a1 s = set_flushed_num (flag_after fl f [slots a i]) sn) as Hsn1.
  { unfold flag_after. simpl. rewrite orb_false_r. fold sn. unfold fl in *.
    destruct (flushed_num sn) eqn:Efl; destruct Hsl1 as [_ ->]; try (destruct (_ && _)); try done;
      rewrite <-Efl; by destruct sn. }
  assert (slots a1 i = flush_in fl f (slots a i)) as Hsi1
    by (unfold flush_in; destruct fl; by destruct Hsl1).
  assert (arr_list (slots a1) (i + 1) (sn_index sn) = arr_list (slots a) (i + 1) (sn_index sn)) as Hl1.
  { apply arr_list_ext. intros j Hj. apply Hj1. lia. }
  specialize (IH (i + 1) (reach w a1 ev1) (valid || hits f (slots a i)) fuel Hf).
  unfold slots_post in *. cbn [pmem array reach set_pmem set_array set_redundant_flushes
    redundant_flushes opts] in IH.
  rewrite Hsn1 in IH. cbn [sn_index set_flushed_num flushed_num] in IH. rewrite Hl1 in IH.
  rewrite !eff_flag_events in IH. fold check in IH.
  destruct IH as (a2 & ev2 & -> & Hn2 & Hs2 & Hsn2 & Hj2 & Hl2 & Hev2); [lia|lia|done|..].
  { intros Hfl. destruct (decide (fl = ALL_FLUSHED)) as [E|Hne].
    - by rewrite E in Hfl.
    - by apply Hcut, Forall_cons in Hne as [_ ?]. }
  { apply (f_equal length) in Hev1. rewrite length_app, !length_fmap in Hev1. lia. }
  exists a2, ev2. fold a sn fl check l. rewrite El. rewrite flag_after_cons in Hsn2.
  rewrite !fmap_cons, red_events_cons. simpl existsb. rewrite orb_assoc.
  split; [done|]. split; [congruence|]. split; [intros t Ht; rewrite Hs2, Hs1; done|].
  split; [done|]. split; [intros j Hj; rewrite Hj2, Hj1; [done|lia|lia]|]. split.
  - rewrite arr_list_cons by done. rewrite Hj2, Hsi1, Hl2 by lia. f_equal.
    apply list_fmap_ext. intros m e' _. apply flush_in_flag.
  - rewrite Hev2, Hev1. by rewrite app_assoc.
Qed.

(** What a flush does to one snippet: the flag and the states of its stores
    change, and they count as the flush wants them to. *)
Definition snippet_post f s (w : world) (valid : bool) (r : res world bool) : Prop :=
  let a := array (pmem w) in
  let sn := snippet_info a s in
  let l := snip_entries a s in
  exists a' ev', r = Ok (valid || existsb (hits f) l) (reach w a' ev') /\
    snippet_info_index a' = snippet_info_index a /\
    (forall t, t <> s -> snippet_info a' t = snippet_info a t) /\
    (exists fl, snippet_info a' s = set_flushed_num fl sn) /\
    (forall j, ~ (start_index sn <= j < sn_index sn) -> slots a' j = slots a j) /\
    snippet_ok a' s /\
    view_st <$> snip_entries a' s = mark (addr f) (size f) <$> (view_st <$> l) /\
    view_st <$> ev' =
      (view_st <$> redundant_flushes (pmem w)) ++ red_events (check_flush (opts (pmem w))) f l.

Lemma entries_ok a s : snippet_ok a s -> Forall entry_ok (snip_entries a s).
Proof.
  intros Hs. unfold snip_entries. rewrite Forall_fmap. eapply Forall_impl; [apply (sn_entries _ _ Hs)|].
  intros e He. simpl. unfold eff. destruct (flushed_num _); [done|done|by apply entry_flushed].
Qed.

(** A flush that misses all entries. *)
Lemma view_missed f l :
  region_ok f -> Forall entry_ok l -> Forall (fun e => hits f e = false) l ->
  existsb (hits f) l = false /\ mark (addr f) (size f) <$> (view_st <$> l) = view_st <$> l /\
  forall check, red_events check f l = [].
Proof.
  intros Hf Hl Hm. induction l as [|e l IH]; [by repeat split; intros []|].
  apply Forall_cons in Hl as [He Hl], Hm as [Hh Hm]. destruct (IH Hl Hm) as (H1 & H2 & H3).
  rewrite !fmap_cons. cbn [existsb]. rewrite Hh, H1, H2. split; [done|]. split.
  - f_equal. unfold mark. rewrite <-hits_spec, Hh; [done|done|apply He].
  - intros check. rewrite red_events_cons, H3, red_events_miss; [done|done|apply He|done].
Qed.

(** A flush that covers dirty entries. *)
Lemma view_covered f l :
  region_ok f -> Forall entry_ok l -> Forall (fun e => state e = STST_DIRTY) l ->
  Forall (fun e => addr f <= addr e /\ addr e + size e <= addr f + size f) l ->
  (l <> [] -> existsb (hits f) l = true) /\
  view_st <$> (set_state STST_FLUSHED <$> l) = mark (addr f) (size f) <$> (view_st <$> l) /\
  forall check, red_events check f l = [].
Proof.
  intros Hf Hl Hd Hc. induction l as [|e l IH]; [by repeat split; intros []|].
  apply Forall_cons in Hl as [He Hl], Hd as [Hs Hd], Hc as [Hce Hc].
  destruct (IH Hl Hd Hc) as (_ & H2 & H3).
  assert (hits f e = true) as Hh.
  { unfold hits. apply Z.eqb_eq, cmp_overlap; [done|apply He|]. destruct He as [(? & ? & ?) _ _ _].
    unfold outside. lia. }
  rewrite !fmap_cons. cbn [existsb]. rewrite Hh, H2. split; [done|]. split.
  - f_equal. unfold mark. rewrite <-hits_spec, Hh; [done|done|apply He].
  - intros check. rewrite red_events_cons, H3.
    pose proof (red_events_hit check f NO_FLUSHED e Hf He Hh) as Hr. simpl in Hr. rewrite Hr.
    unfold dirty. rewrite Hs. by rewrite andb_false_r.
Qed.

(** A flush that looks at the stores. *)
Lemma view_flush_in f fl l :
  region_ok f -> Forall entry_ok l ->
  view_st <$> (eff (flag_after fl f l) <$> (flush_in fl f <$> l)) =
  mark (addr f) (size f) <$> (view_st <$> (eff fl <$> l)).
Proof.
  intros Hf Hl. assert (forall l', Forall entry_ok l' ->
    view_st <$> (eff (flag_after fl f l) <$> (flush_in fl f <$> l')) =
    mark (addr f) (size f) <$> (view_st <$> (eff fl <$> l'))) as Hall; [|by apply Hall].
  intros l' Hl'. rewrite <-!list_fmap_compose. apply list_fmap_ext. intros n e Hn.
  rewrite Forall_forall in Hl'. assert (entry_ok e) as He by (by eapply Hl', list_elem_of_lookup_2).
  simpl. destruct fl; unfold flag_after; simpl.
  - destruct (existsb _ l); simpl; by apply view_flush.
  - destruct (existsb _ l); simpl; by apply view_flush.
  - unfold mark. by destruct (hit _ _ _).
Qed.

(** The stores after the loop are as good as before. *)
Lemma flush_in_entries fl f l : Forall entry_ok l -> Forall entry_ok (flush_in fl f <$> l).
Proof.
  intros Hl. rewrite Forall_fmap. eapply Forall_impl; [exact Hl|]. intros e He. simpl.
  unfold flush_in. destruct fl; (done || by apply flush_e_ok).
Qed.

Lemma flush_in_bounded fl f mn mx l : bounded mn mx l -> bounded mn mx (flush_in fl f <$> l).
Proof.
  intros [Hl Hb]. split; [|destruct Hb as [->|Hb]; [by left|by right]].
  rewrite Forall_fmap. eapply Forall_impl; [exact Hl|]. intros e He. simpl in *.
  unfold flush_in, flush_e. by destruct fl, (hits f e && dirty e).
Qed.

Lemma flush_in_dirty fl f l :
  flag_after fl f l = NO_FLUSHED -> fl = NO_FLUSHED /\ flush_in fl f <$> l = l.
Proof.
  unfold flag_after. intros Hno.
  assert (fl = NO_FLUSHED /\ existsb (fun e => hits f e && dirty e) l = false) as [-> Hex].
  { destruct fl; [|destruct (existsb _ l); done|done]. by destruct (existsb _ l). }
  split; [done|]. clear Hno. induction l as [|e l IH]; [done|]. simpl in Hex.
  apply orb_false_iff in Hex as [He Hex]. rewrite fmap_cons, IH by done.
  unfold flush_in, flush_e. by rewrite He.
Qed.

(** The flush covers the snippet, whose stores are all dirty. *)
Lemma snippet_covered f s valid w :
  flush_ok f ->
  let a := array (pmem w) in
  snippet_ok a s -> flushed_num (snippet_info a s) = NO_FLUSHED ->
  max_add (snippet_info a s) <= addr f + size f -> addr f <= min_add (snippet_info a s) ->
  snippet_post f s w valid ((snippet_set s (set_flushed_num ALL_FLUSHED) ;;; retM true) w).
Proof.
  intros [Hf Hfe] a Hs Hno Hmx Hmn. unfold snippet_post. fold a. set (l := snip_entries a s).
  pose proof (entries_ok a s Hs) as Hle. fold l in Hle.
  assert (l = snip_list a s) as El by (unfold l, snip_entries; rewrite Hno; apply list_fmap_id).
  assert (l <> []) as Hne.
  { rewrite El. intros Hnil. apply (sn_empty _ _ Hs) in Hnil as [_ Hx]. lia. }
  destruct (view_covered f l Hf Hle) as (Hex & Hv & Hev).
  { rewrite El. by apply (sn_dirty _ _ Hs). }
  { rewrite El. eapply Forall_impl; [apply (sn_bounded _ _ Hs)|]. intros e He. simpl in He. lia. }
  rewrite Hex, orb_true_r, Hev, app_nil_r by done.
  eexists _, (redundant_flushes (pmem w)). split; [reflexivity|]. split; [done|].
  split; [intros t Ht; simpl; by rewrite arr_upd_other|].
  split; [exists ALL_FLUSHED; simpl; by rewrite arr_upd_same|]. split; [done|].
  assert (snip_list (set_snippet_info (arr_upd s (set_flushed_num ALL_FLUSHED) (snippet_info a)) a) s
    = snip_list a s) as Hsl by (unfold snip_list; simpl; by rewrite arr_upd_same).
  split; [|split; [|done]].
  - fold a. destruct Hs. split; simpl; rewrite ?Hsl, ?arr_upd_same; done.
  - unfold snip_entries. simpl. fold a. rewrite Hsl, arr_upd_same. simpl. by rewrite <-Hv, El.
Qed.

(** The flush is outside the bounds of the snippet. *)
Lemma snippet_missed f s valid w :
  region_ok f ->
  let a := array (pmem w) in
  snippet_ok a s -> addr f + size f < min_add (snippet_info a s) \/ max_add (snippet_info a s) < addr f ->
  snippet_post f s w valid (Ok valid w).
Proof.
  intros Hf a Hs E2. unfold snippet_post. fold a. set (l := snip_entries a s).
  destruct (view_missed f l Hf (entries_ok a s Hs)) as (Hex & Hv & Hev).
  { unfold l, snip_entries.
    rewrite Forall_fmap. pose proof (sn_bounded _ _ Hs) as [Hb _]. pose proof (sn_entries _ _ Hs) as Hen.
    rewrite Forall_forall in *. intros e He. simpl. rewrite eff_hits.
    specialize (Hb e He). specialize (Hen e He). unfold hits. apply Z.eqb_neq.
    rewrite cmp_overlap by (done || apply Hen). unfold outside. lia. }
  exists a, (redundant_flushes (pmem w)). rewrite Hex, Hev, orb_false_r, app_nil_r.
  unfold a. rewrite reach_self. fold a. split; [done|]. repeat (split; [done|]).
  split; [exists (flushed_num (snippet_info a s)); by destruct (snippet_info a s)|].
  split; [done|]. split; [done|]. split; [|done]. by rewrite Hv.
Qed.

(** The stores are looked at one by one. *)
Lemma snippet_slots f s valid w :
  flush_ok f ->
  let a := array (pmem w) in
  let l := snip_entries a s in
  snippet_ok a s -> Forall (uncut f) l ->
  Z.of_nat (length (redundant_flushes (pmem w))) +
    Z.of_nat (length (red_events (check_flush (opts (pmem w))) f l)) <= MAX_FLUSH_ERROR_EVENTS ->
  snippet_post f s w valid (all_slots s valid (flush_slot f s) w).
Proof.
  intros Hfo a l Hs Hcut Hroom. pose proof Hfo as [Hf Hfe]. unfold snippet_post, all_slots. step. fold a l.
  pose proof (sn_start _ _ Hs) as Hst.
  destruct (flush_slots_ok f s (Z.to_nat (sn_index (snippet_info a s) - start_index (snippet_info a s)))
    (start_index (snippet_info a s)) w valid
    (S (Z.to_nat (3 * (sn_index (snippet_info a s) - start_index (snippet_info a s))))) Hfo)
    as (a' & ev' & -> & Hn & Ht & Hsn & Hj & Hl' & Hev').
  - fold a. lia.
  - lia.
  - apply (sn_entries _ _ Hs).
  - intros Hfl. fold a in Hfl |- *. unfold l, snip_entries in Hcut. rewrite Forall_fmap in Hcut.
    eapply Forall_impl; [exact Hcut|]. intros e. simpl.
    unfold eff. by destruct (flushed_num (snippet_info a s)).
  - done.
  - fold a in Hn, Ht, Hsn, Hj, Hl', Hev'. fold (snip_list a s) in *.
    exists a', ev'. split.
    { fold a. fold (snip_list a s). unfold l, snip_entries. by rewrite existsb_eff. }
    split; [done|]. split; [done|]. split; [by eexists|]. split; [done|].
    assert (snip_list a' s = flush_in (flushed_num (snippet_info a s)) f <$> snip_list a s) as Hsl.
    { unfold snip_list at 1. by rewrite Hsn. }
    split; [|split; [|done]].
    + split; rewrite ?Hsl, ?Hsn; simpl; try done.
      * apply flush_in_entries, (sn_entries _ _ Hs).
      * apply flush_in_bounded, (sn_bounded _ _ Hs).
      * intros Hnil. apply fmap_nil_inv in Hnil. by apply (sn_empty _ _ Hs).
      * intros [Hno ->]%flush_in_dirty. by apply (sn_dirty _ _ Hs).
    + unfold snip_entries at 1. rewrite Hsl, Hsn. simpl. rewrite view_flush_in; [done|done|].
      apply (sn_entries _ _ Hs).
Qed.

Lemma flush_snippet_ok f s valid w :
  flush_ok f ->
  let a := array (pmem w) in
  let l := snip_entries a s in
  snippet_ok a s -> Forall (uncut f) l ->
  Z.of_nat (length (redundant_flushes (pmem w))) +
    Z.of_nat (length (red_events (check_flush (opts (pmem w))) f l)) <= MAX_FLUSH_ERROR_EVENTS ->
  snippet_post f s w valid (flush_snippet f valid s w).
Proof.
  intros Hfo a l Hs Hcut Hroom. pose proof Hfo as [Hf Hfe]. unfold flush_snippet. step. fold a.
  rewrite max_addr_ok by done. destruct (_ && _ && _) eqn:E1.
  { apply andb_true_iff in E1 as [[Hmx Hmn]%andb_true_iff Hno].
    rewrite Z.leb_le in Hmx, Hmn. apply bool_decide_eq_true in Hno. by apply snippet_covered. }
  destruct (_ || _) eqn:E2; [|by apply snippet_slots].
  apply orb_true_iff in E2. rewrite !Z.ltb_lt in E2. by apply snippet_missed.
Qed.

(** The entries of the snippets from [s] on. *)
Definition entries_from (a : pmem_stores_array) (s : Z) : list pmem_st :=
  concat (snip_entries a <$> seqZ s (snippet_info_index a + 1 - s)).

Lemma entries_from_cons a s :
  s <= snippet_info_index a -> entries_from a s = snip_entries a s ++ entries_from a (s + 1).
Proof.
  intros Hs. unfold entries_from. rewrite seqZ_cons by lia. rewrite fmap_cons. simpl.
  by replace (Z.succ s) with (s + 1) by lia;
    replace (Z.pred (snippet_info_index a + 1 - s)) with (snippet_info_index a + 1 - (s + 1)) by lia.
Qed.

Lemma entries_from_nil a s : snippet_info_index a < s -> entries_from a s = [].
Proof. intros Hs. unfold entries_from. by rewrite seqZ_nil by lia. Qed.

Lemma entries_from_ext a b s :
  snippet_info_index b = snippet_info_index a ->
  (forall t, s <= t <= snippet_info_index a -> snip_entries b t = snip_entries a t) ->
  entries_from b s = entries_from a s.
Proof.
  intros Hn Ht. unfold entries_from. rewrite Hn. f_equal. apply list_fmap_ext.
  intros j t Hj. apply lookup_seqZ in Hj as [-> Hj]. apply Ht. lia.
Qed.

(** A change inside one snippet keeps the shape and the other snippets. *)
Lemma change_snippet a b s fl :
  array_shape a -> 0 <= s <= snippet_info_index a ->
  snippet_info_index b = snippet_info_index a ->
  (forall t, t <> s -> snippet_info b t = snippet_info a t) ->
  snippet_info b s = set_flushed_num fl (snippet_info a s) ->
  (forall j, ~ (start_index (snippet_info a s) <= j < sn_index (snippet_info a s)) ->
    slots b j = slots a j) ->
  snippet_ok b s ->
  array_shape b /\
  (forall t, 0 <= t <= snippet_info_index a -> t <> s -> snip_list b t = snip_list a t).
Proof.
  intros Ha Hs Hn Ht Hsn Hj Hok.
  assert (forall t, 0 <= t <= snippet_info_index a -> t <> s -> snip_list b t = snip_list a t) as Hsame.
  { intros t Htr Hne. apply snip_list_same; [by apply Ht|]. intros i Hi. apply Hj.
    destruct (Z.lt_total t s) as [Hlt|[?|Hgt]]; [|lia|].
    - pose proof (chain_le a t s Ha). lia.
    - pose proof (chain_le a s t Ha). lia. }
  assert (forall t, start_index (snippet_info b t) = start_index (snippet_info a t)) as Hstart.
  { intros t. destruct (decide (t = s)) as [->|Hne]; [by rewrite Hsn|by rewrite Ht]. }
  assert (forall t, sn_index (snippet_info b t) = sn_index (snippet_info a t)) as Hidx.
  { intros t. destruct (decide (t = s)) as [->|Hne]; [by rewrite Hsn|by rewrite Ht]. }
  split; [|done]. split; rewrite ?Hn.
  - apply (ar_last _ Ha).
  - intros t Htr. destruct (decide (t = s)) as [->|Hne]; [done|].
    apply (snippet_ok_same a); [by apply Ht|by apply Hsame|by apply (ar_snippets _ Ha)].
  - rewrite Hstart. apply (ar_first _ Ha).
  - intros t Htr. rewrite Hstart, Hidx. by apply (ar_chain _ Ha).
Qed.

Definition snippets_post f s (w : world) (valid : bool) (r : res world bool) : Prop :=
  let a := array (pmem w) in
  let l := entries_from a s in
  exists a' ev', r = Ok (valid || existsb (hits f) l) (reach w a' ev') /\
    array_shape a' /\ snippet_info_index a' = snippet_info_index a /\
    (forall t, exists fl, snippet_info a' t = set_flushed_num fl (snippet_info a t)) /\
    (forall t, 0 <= t < s -> snip_entries a' t = snip_entries a t) /\
    view_st <$> entries_from a' s = mark (addr f) (size f) <$> (view_st <$> l) /\
    view_st <$> ev' =
      (view_st <$> redundant_flushes (pmem w)) ++ red_events (check_flush (opts (pmem w))) f l.

Lemma red_events_app check f l1 l2 :
  red_events check f (l1 ++ l2) = red_events check f l1 ++ red_events check f l2.
Proof. unfold red_events. destruct check; [|done]. by rewrite fmap_app, List.filter_app. Qed.

Lemma flush_snippets_none f s w valid :
  array_shape (array (pmem w)) -> snippet_info_index (array (pmem w)) < s ->
  snippets_post f s w valid (Ok valid w).
Proof.
  intros Ha Hs. unfold snippets_post. rewrite entries_from_nil by done.
  exists (array (pmem w)), (redundant_flushes (pmem w)). rewrite reach_self. simpl.
  rewrite orb_false_r. repeat (split; [done|]). split.
  { intros t. exists (flushed_num (snippet_info (array (pmem w)) t)).
    by destruct (snippet_info _ t). }
  split; [done|]. split; [by rewrite entries_from_nil|].
  unfold red_events. destruct (check_flush _); by rewrite app_nil_r.
Qed.

Lemma flush_snippets_ok f n : forall s w valid fuel,
  flush_ok f ->
  let a := array (pmem w) in
  let l := entries_from a s in
  array_shape a -> 0 <= s -> snippet_info_index a + 1 - s <= Z.of_nat n -> (n < fuel)%nat ->
  Forall (uncut f) l ->
  Z.of_nat (length (redundant_flushes (pmem w))) +
    Z.of_nat (length (red_events (check_flush (opts (pmem w))) f l)) <= MAX_FLUSH_ERROR_EVENTS ->
  snippets_post f s w valid (for_snippets fuel s valid (flush_snippet f) w).
Proof.
  induction n as [|n IH]; intros s w valid fuel Hf a l Ha Hs Hn Hfuel Hcut Hroom;
    (destruct fuel as [|fuel]; [lia|]); cbn [for_snippets]; step; fold a;
    destruct (Z.leb_spec s (snippet_info_index a)) as [Hle|Hgt]; try lia;
    try by apply flush_snippets_none.
  unfold l in Hcut, Hroom. rewrite entries_from_cons, red_events_app, length_app in Hroom by done.
  rewrite entries_from_cons, Forall_app in Hcut by done. destruct Hcut as [Hcut1 Hcut2].
  destruct (flush_snippet_ok f s valid w Hf) as (a1 & ev1 & Heq & Hn1 & Ht1 & [fl Hsn1] & Hj1 & Hok1 & Hv1 & Hev1);
    [apply (ar_snippets _ Ha); lia|done|fold a; lia|].
  fold a in Heq, Hn1, Ht1, Hsn1, Hj1, Hv1, Hev1. rewrite (bind_ok _ _ _ _ _ Heq).
  destruct (change_snippet a a1 s fl Ha) as (Ha1 & Hsame); [lia|done..|].
  assert (forall t, 0 <= t <= snippet_info_index a -> t <> s -> snip_entries a1 t = snip_entries a t) as Hent.
  { intros t Ht Hne. unfold snip_entries. by rewrite Hsame, Ht1. }
  assert (entries_from a1 (s + 1) = entries_from a (s + 1)) as Hfrom.
  { apply entries_from_ext; [done|]. intros t Ht. apply Hent; lia. }
  specialize (IH (s + 1) (reach w a1 ev1) (valid || existsb (hits f) (snip_entries a s)) fuel Hf).
  unfold snippets_post in *. cbn [pmem array reach set_pmem set_array set_redundant_flushes
    redundant_flushes opts] in IH. rewrite Hfrom, Hn1 in IH.
  destruct IH as (a2 & ev2 & -> & Ha2 & Hn2 & Hsn2 & Hold2 & Hv2 & Hev2); [done|lia|lia|lia|done|..].
  { apply (f_equal length) in Hev1. rewrite length_app, !length_fmap in Hev1. lia. }
  exists a2, ev2. fold a. rewrite (entries_from_cons a s), existsb_app, orb_assoc by done.
  split; [done|]. split; [done|]. split; [done|]. split; [|split; [|split]].
  - intros t. destruct (Hsn2 t) as [fl' ->]. destruct (decide (t = s)) as [->|Hne].
    + rewrite Hsn1. by exists fl'.
    + rewrite Ht1 by done. by exists fl'.
  - intros t Ht. rewrite Hold2 by lia. apply Hent; lia.
  - rewrite (entries_from_cons a2 s) by lia. rewrite !fmap_app, Hv2, Hold2, Hv1 by lia. done.
  - rewrite Hev2, Hev1, red_events_app. by rewrite app_assoc.
Qed.

(** ** The tree *)

(** A world after a flush of the tree. *)
Definition reach_tree (w : world) (set : region_set) (ev : list pmem_st) : world :=
  set_pmem (set_pmem_stores set (set_redundant_flushes ev (pmem w))) w.

Lemma reach_tree_self w : reach_tree w (pmem_stores (pmem w)) (redundant_flushes (pmem w)) = w.
Proof. by destruct w as [? [] ? ? ?]. Qed.

Definition flush_n (f : pmem_st) (n : nat * pmem_st) : nat * pmem_st := (fst n, flush_e f (snd n)).

(** One node, which the iterator has just given. *)
Lemma flush_node_ok f valid i e dn rem w :
  region_ok f -> entry_ok e -> uncut f e ->
  own_view (pmem_stores (pmem w)) (dn ++ (i, e) :: rem) rem ->
  let check := check_flush (opts (pmem w)) in
  Z.of_nat (length (redundant_flushes (pmem w))) +
    Z.of_nat (length (red_events check f [e])) <= MAX_FLUSH_ERROR_EVENTS ->
  exists set' ev', flush_node f valid (i, e) w = Ok (valid || hits f e) (reach_tree w set' ev') /\
    own_view set' (dn ++ (i, flush_e f e) :: rem) rem /\
    card set' = card (pmem_stores (pmem w)) /\
    view_st <$> ev' = (view_st <$> redundant_flushes (pmem w)) ++ red_events check f [e].
Proof.
  intros Hf He Hcut Hv check Hroom. unfold flush_node. cbn [fst snd]. fold (hits f e). unfold flush_e.
  destruct (hits f e) eqn:Eh; cbn [negb andb].
  2: { exists (pmem_stores (pmem w)), (redundant_flushes (pmem w)).
       rewrite reach_tree_self, orb_false_r. split; [done|]. split; [done|]. split; [done|].
       rewrite red_events_miss, app_nil_r; [done|done|apply He|done]. }
  pose proof (red_events_hit check f NO_FLUSHED e Hf He Eh) as Hred. simpl in Hred.
  rewrite Hred in *. rewrite orb_true_r. fold (dirty e). destruct (dirty e) eqn:Ed; cbn [negb].
  - rewrite andb_false_r in *. destruct (Hcut Eh Ed) as [Hlo Hhi].
    assert (own_view (OSetGen_Update (pmem_stores (pmem w)) i (set_state STST_FLUSHED))
      (dn ++ (i, set_state STST_FLUSHED e) :: rem) rem) as Hv' by (by apply view_update).
    assert (OSetGen_Deref (OSetGen_Update (pmem_stores (pmem w)) i (set_state STST_FLUSHED)) i
      = Some (set_state STST_FLUSHED e)) as Hd.
    { apply Deref_node; [apply (ok_wf _ _ _ (view_ok _ _ _ _ _ Hv'))|].
      rewrite (view_nodes _ _ _ _ _ Hv'). set_solver. }
    step. set (w1 := set_pmem _ w).
    assert (set_deref Stores i w1 = Ok (set_state STST_FLUSHED e) w1) as Hdr.
    { unfold set_deref. step. change (pmem_stores (pmem w1)) with
        (OSetGen_Update (pmem_stores (pmem w)) i (set_state STST_FLUSHED)). by rewrite Hd. }
    rewrite (bind_ok _ _ _ _ _ Hdr). cbn [addr set_state].
    rewrite (proj2 (Z.ltb_ge (addr e) (addr f))) by lia. cbn [whenM]. step.
    rewrite (bind_ok _ _ _ _ _ Hdr).
    change (max_addr (set_state STST_FLUSHED e)) with (max_addr e).
    rewrite !max_addr_ok by (done || apply He).
    rewrite (proj2 (Z.ltb_ge (addr f + size f) (addr e + size e))) by lia. cbn [whenM]. step.
    exists (OSetGen_Update (pmem_stores (pmem w)) i (set_state STST_FLUSHED)),
      (redundant_flushes (pmem w)).
    split; [|split; [done|split; [apply Update_card|by rewrite app_nil_r]]].
    unfold w1, reach_tree. by destruct (pmem w).
  - rewrite andb_true_r in *.
    destruct (redundant_check_ok e w) as (ev' & Heq & Hev).
    { fold check. destruct check; simpl in *; lia. }
    rewrite (bind_ok _ _ _ _ _ Heq). exists (pmem_stores (pmem w)), ev'. split.
    + unfold retM, reach, reach_tree. by destruct w as [? [] ? ? ?].
    + split; [done|]. split; [done|]. rewrite Hev, fmap_app. fold check. by destruct check.
Qed.

(** One step of the iterator over the tree. *)
Lemma set_next_ok w ns rest :
  own_view (pmem_stores (pmem w)) ns rest ->
  exists set', set_next Stores w = Ok (head rest) (reach_tree w set' (redundant_flushes (pmem w))) /\
    own_view set' ns (tail rest) /\ card set' = card (pmem_stores (pmem w)).
Proof.
  intros Hv. destruct (view_next _ _ _ _ _ Hv) as (set' & Hnx & Hv').
  exists set'. split; [|split; [done|]].
  - unfold set_next. step. rewrite Hnx. by destruct w as [? [] ? ? ?].
  - unfold OSetGen_Next in Hnx. destruct (next_loop _ _) as [[x st]|]; [|done].
    cbn in Hnx. by simplify_eq.
Qed.

Lemma set_reset_ok w :
  let set := pmem_stores (pmem w) in
  own_ok set -> card set < iter_limit ->
  exists set', set_reset Stores w = Ok tt (reach_tree w set' (redundant_flushes (pmem w))) /\
    own_view set' (nodes set) (nodes set) /\ root set' = root set /\ card set' = card set.
Proof.
  intros set Hok Hlim. destruct (view_reset _ _ set Hok Hlim) as (set1 & Hres & Hv1 & Hroot1).
  exists set1. split; [|split; [done|split; [done|]]].
  - unfold set_reset. step. fold set. rewrite Hres. by destruct w as [? [] ? ? ?].
  - unfold OSetGen_ResetIter in Hres. destruct (match root set with Null => _ | _ => _ end); [|done].
    cbn in Hres. by simplify_eq.
Qed.

Lemma flush_nodes_ok f rem : forall dn w valid fuel,
  region_ok f -> Forall entry_ok rem.*2 -> Forall (uncut f) rem.*2 ->
  own_view (pmem_stores (pmem w)) (dn ++ rem) rem -> (length rem < fuel)%nat ->
  let check := check_flush (opts (pmem w)) in
  Z.of_nat (length (redundant_flushes (pmem w))) +
    Z.of_nat (length (red_events check f rem.*2)) <= MAX_FLUSH_ERROR_EVENTS ->
  exists set' ev', fold_next fuel (set_next Stores) valid (flush_node f) w =
      Ok (valid || existsb (hits f) rem.*2) (reach_tree w set' ev') /\
    own_view set' (dn ++ (flush_n f <$> rem)) [] /\
    card set' = card (pmem_stores (pmem w)) /\
    view_st <$> ev' = (view_st <$> redundant_flushes (pmem w)) ++ red_events check f rem.*2.
Proof.
  induction rem as [|[i e] rem IH]; intros dn w valid fuel Hf Hen Hcut Hv Hfuel check Hroom;
    (destruct fuel as [|fuel]; [simpl in *; lia|]); cbn [fold_next];
    destruct (set_next_ok w _ _ Hv) as (set1 & Hnext & Hv1 & Hsz1);
    rewrite (bind_ok _ _ _ _ _ Hnext); cbn [head tail] in *.
  - exists set1, (redundant_flushes (pmem w)). rewrite orb_false_r. split; [done|].
    split; [by rewrite app_nil_r in *|]. split; [done|].
    unfold red_events. destruct check; by rewrite app_nil_r.
  - rewrite fmap_cons in *. apply Forall_cons in Hen as [He Hen], Hcut as [Hc Hcut].
    rewrite red_events_cons, length_app in Hroom. cbn [snd] in *.
    destruct (flush_node_ok f valid i e dn rem (reach_tree w set1 (redundant_flushes (pmem w))) Hf He Hc)
      as (set2 & ev2 & Heq2 & Hv2 & Hsz2 & Hev2); [done| |].
    { change (check_flush _) with check. change (redundant_flushes _) with (redundant_flushes (pmem w)). lia. }
    rewrite (bind_ok _ _ _ _ _ Heq2). change (check_flush _) with check in Hev2.
    change (redundant_flushes (pmem (reach_tree _ _ _))) with (redundant_flushes (pmem w)) in Hev2.
    destruct (IH (dn ++ [(i, flush_e f e)]) (reach_tree w set2 ev2) (valid || hits f e) fuel)
      as (set3 & ev3 & Heq3 & Hv3 & Hsz3 & Hev3); try done.
    { by rewrite <-app_assoc. } { simpl in *; lia. }
    { change (check_flush _) with check. apply (f_equal length) in Hev2.
      rewrite length_app, !length_fmap in Hev2.
      change (redundant_flushes (pmem (reach_tree w set2 ev2))) with ev2. lia. }
    exists set3, ev3. split; [|split; [|split]].
    + cbn [existsb snd]. rewrite orb_assoc. exact Heq3.
    + rewrite <-app_assoc in Hv3. done.
    + etransitivity; [exact Hsz3|]. etransitivity; [exact Hsz2|]. exact Hsz1.
    + rewrite red_events_cons. etransitivity; [exact Hev3|].
      change (redundant_flushes (pmem (reach_tree w set2 ev2))) with ev2.
      rewrite Hev2. by rewrite <-app_assoc.
Qed.

Lemma flush_n_elems f (ns : list (nat * pmem_st)) : (flush_n f <$> ns).*2 = flush_e f <$> ns.*2.
Proof. rewrite <-!list_fmap_compose. by apply list_fmap_ext. Qed.

Lemma existsb_view f l :
  region_ok f -> Forall entry_ok l ->
  existsb (hits f) l = existsb (hit (addr f) (size f)) (view_st <$> l).
Proof.
  intros Hf Hl. induction l as [|e l IH]; [done|]. apply Forall_cons in Hl as [He Hl].
  rewrite fmap_cons. cbn [existsb]. by rewrite IH, hits_spec by (done || apply He).
Qed.

Lemma view_flush_list f l :
  region_ok f -> Forall entry_ok l ->
  view_st <$> (flush_e f <$> l) = mark (addr f) (size f) <$> (view_st <$> l).
Proof.
  intros Hf Hl. induction l as [|e l IH]; [done|]. apply Forall_cons in Hl as [He Hl].
  rewrite !fmap_cons, IH, view_flush by done. done.
Qed.

(** The tree after a flush. *)
Lemma flush_tree_elems f set set' mn mx n :
  tree_ok set mn mx n -> own_ok set' -> elems set' = flush_e f <$> elems set ->
  tree_ok set' mn mx n.
Proof.
  intros [_ Hi He [Hb Hb'] Hempty] Hok Hel.
  assert (forall e, index (flush_e f e) = index e /\ addr (flush_e f e) = addr e /\
    size (flush_e f e) = size e) as Hsame by (intros e; unfold flush_e; by destruct (_ && _)).
  split; rewrite ?Hel, ?Forall_fmap; try done.
  - eapply Forall_impl; [exact Hi|]. intros e. simpl. by rewrite (proj1 (Hsame e)).
  - eapply Forall_impl; [exact He|]. intros e. simpl. apply flush_e_ok.
  - split; [|destruct Hb' as [->|?]; [by left|by right]]. rewrite Forall_fmap.
    eapply Forall_impl; [exact Hb|]. intros e. simpl. destruct (Hsame e) as (_ & -> & ->). done.
  - intros Hnil%fmap_nil_inv. by apply Hempty.
Qed.

Lemma flush_tree_ok f valid w n :
  region_ok f ->
  let set := pmem_stores (pmem w) in
  let l := elems set in
  let check := check_flush (opts (pmem w)) in
  tree_ok set (min_add_pmem_store (pmem w)) (max_add_pmem_store (pmem w)) n ->
  card set < iter_limit -> Forall (uncut f) l ->
  Z.of_nat (length (redundant_flushes (pmem w))) +
    Z.of_nat (length (red_events check f l)) <= MAX_FLUSH_ERROR_EVENTS ->
  exists set' ev', flush_tree f valid w = Ok (valid || existsb (hits f) l) (reach_tree w set' ev') /\
    tree_ok set' (min_add_pmem_store (pmem w)) (max_add_pmem_store (pmem w)) n /\
    card set' = card set /\
    view_st <$> elems set' = mark (addr f) (size f) <$> (view_st <$> l) /\
    view_st <$> ev' = (view_st <$> redundant_flushes (pmem w)) ++ red_events check f l.
Proof.
  intros Hf set l check Ht Hlim Hcut Hroom. unfold flush_tree. do 2 step.
  rewrite max_addr_ok by done. pose proof (tr_entries _ _ _ _ Ht) as Hen.
  destruct (_ || _) eqn:E.
  - destruct (view_missed f l Hf Hen) as (Hex & Hv & Hev).
    { apply orb_true_iff in E. rewrite !Z.ltb_lt in E. pose proof (tr_bounded _ _ _ _ Ht) as [Hb _].
      unfold l. rewrite Forall_forall in *. intros e He. specialize (Hb e He). specialize (Hen e He).
      unfold hits. apply Z.eqb_neq. rewrite cmp_overlap by (done || apply Hen). unfold outside. lia. }
    exists set, (redundant_flushes (pmem w)). unfold set. rewrite reach_tree_self. fold set.
    rewrite Hex, Hev, Hv, orb_false_r, app_nil_r. done.
  - destruct (set_reset_ok w (tr_ok _ _ _ _ Ht) Hlim) as (set1 & Hreset & Hv1 & Hroot1 & Hsz1).
    fold set in Hv1, Hroot1, Hsz1.
    rewrite (bind_ok _ _ _ _ _ Hreset). step.
    destruct (flush_nodes_ok f (nodes set) [] (reach_tree w set1 (redundant_flushes (pmem w))) valid
      (S (4 * tree_size (root set1))) Hf Hen Hcut) as (set2 & ev2 & Hfold & Hv2 & Hsz2 & Hev2); [done| |done|].
    { rewrite Hroot1. unfold nodes. rewrite length_inorder. lia. }
    assert (elems set2 = flush_e f <$> l) as Hel.
    { unfold elems, l. rewrite (view_nodes _ _ _ _ _ Hv2). simpl. apply flush_n_elems. }
    exists set2, ev2. split; [exact Hfold|]. split; [|split; [|split]].
    + apply (flush_tree_elems f set); [done|apply (view_ok _ _ _ _ _ Hv2)|done].
    + etransitivity; [exact Hsz2|exact Hsz1].
    + rewrite Hel. by apply view_flush_list.
    + exact Hev2.
Qed.

(** ** The whole flush *)

Lemma array_entries_from a : array_entries a = entries_from a 0.
Proof. unfold array_entries, entries_from. by replace (snippet_info_index a + 1 - 0)
  with (snippet_info_index a + 1) by lia. Qed.

(** A new snippet after the last one. *)
Lemma array_open_snippet a :
  array_shape a ->
  let n := snippet_info_index a + 1 in
  let b := mkArray n (slots a) (arr_upd n (fresh_snippet (fill a)) (snippet_info a)) in
  array_ok b /\ array_entries b = array_entries a /\ fill b = fill a.
Proof.
  intros Ha n b. pose proof (ar_last _ Ha) as H0.
  assert (snippet_info b n = mkSnippet (fill a) word_max word_max (fill a) NO_FLUSHED) as Hn
    by (unfold b; simpl; by rewrite arr_upd_same).
  assert (forall t, t <> n -> snippet_info b t = snippet_info a t) as Ht
    by (intros t Ht; unfold b; simpl; by rewrite arr_upd_other).
  assert (forall t, t <> n -> snip_list b t = snip_list a t) as Hl
    by (intros t Hne; apply snip_list_same; [by apply Ht|done]).
  assert (snip_list b n = []) as Hnil by (unfold snip_list; rewrite Hn; by apply arr_list_nil).
  pose proof (sn_start _ _ (ar_snippets _ Ha (snippet_info_index a) ltac:(lia))) as Hst.
  split; [split; [split|]|split].
  - unfold b, n. simpl. lia.
  - intros t Htr. change (snippet_info_index b) with n in Htr.
    destruct (decide (t = n)) as [->|Hne].
    + split; rewrite ?Hnil, ?Hn; simpl; try done.
      * unfold fill. lia.
      * split; [done|by left].
    + apply (snippet_ok_same a); [by apply Ht|by apply Hl|]. apply (ar_snippets _ Ha).
      unfold n in *. lia.
  - rewrite Ht by (unfold n; lia). apply (ar_first _ Ha).
  - intros t Htr. change (snippet_info_index b) with n in Htr. rewrite (Ht t) by lia.
    destruct (decide (t + 1 = n)) as [E|Hne].
    + rewrite E, Hn. simpl. unfold fill. by replace t with (snippet_info_index a) by (unfold n in *; lia).
    + rewrite Ht by done. apply (ar_chain _ Ha). unfold n in *. lia.
  - change (snippet_info_index b) with n. by rewrite Hn.
  - unfold array_entries. change (snippet_info_index b) with n. rewrite last_split by (unfold n; lia).
    rewrite fmap_app, concat_app. simpl. unfold snip_entries at 2. rewrite Hnil. simpl.
    rewrite app_nil_r. f_equal. apply list_fmap_ext. intros j t Hj.
    apply lookup_seqZ in Hj as [-> Hj]. unfold snip_entries. by rewrite Hl, Ht by lia.
  - unfold fill at 1. change (snippet_info_index b) with n. by rewrite Hn.
Qed.

(** The end of a flush: a new snippet, unless the last one is still open. *)
Lemma flush_close_ok w :
  let a := array (pmem w) in
  array_shape a -> snippet_info_index a + 1 < MAX_ARRAY_NUM ->
  exists b, (l <- last_snippet ;; sn <- snippet_get l ;;
     whenM (negb (bool_decide (flushed_num sn = NO_FLUSHED))) init_snippet_info) w =
      Ok tt (set_pmem (set_array b (pmem w)) w) /\
    array_ok b /\ array_entries b = array_entries a /\ fill b = fill a /\
    snippet_info_index b <= snippet_info_index a + 1.
Proof.
  intros a Ha Hlim. do 2 step. fold a. case_bool_decide as Hno; cbn [negb whenM].
  - exists a. split; [|split; [by split|split; [done|split; [done|lia]]]].
    unfold a. by destruct w as [? [] ? ? ?].
  - unfold init_snippet_info. do 2 step. cbn [snippet_info_index array pmem set_pmem set_array
      set_snippet_info_index]. fold a.
    rewrite (proj2 (Z.leb_gt _ _)) by done. step.
    cbn [snippet_info array pmem set_pmem set_array set_snippet_info_index]. fold a.
    replace (snippet_info_index a + 1 - 1) with (snippet_info_index a) by lia. fold (fill a).
    destruct (array_open_snippet a Ha) as (Hb & He & Hf).
    eexists. split; [reflexivity|]. split; [exact Hb|]. split; [exact He|]. split; [exact Hf|].
    simpl. lia.
Qed.

(** A flush that hits nothing is registered, if asked for. *)
Lemma superfluous_ok f valid w :
  let check := check_flush (opts (pmem w)) in
  let new := if check && negb valid then [(addr f, size f)] else [] in
  Z.of_nat (length (superfluous_flushes (pmem w))) + Z.of_nat (length new) <= MAX_FLUSH_ERROR_EVENTS ->
  exists ev, whenM (negb valid && check) (add_superfluous_flush f) w =
      Ok tt (set_pmem (set_superfluous_flushes ev (pmem w)) w) /\
    (fun e => (addr e, size e)) <$> ev =
      ((fun e => (addr e, size e)) <$> superfluous_flushes (pmem w)) ++ new.
Proof.
  intros check new Hroom. unfold new in *. clear new.
  rewrite (andb_comm (negb valid) check). destruct (check && negb valid); cbn [whenM].
  - unfold add_superfluous_flush. do 2 step. unfold add_warning_event.
    rewrite (proj2 (Z.eqb_neq _ _)) by (simpl in Hroom; lia).
    eexists. split; [reflexivity|]. by rewrite fmap_app.
  - exists (superfluous_flushes (pmem w)). rewrite app_nil_r. split; [|done].
    by destruct w as [? [] ? ? ?].
Qed.

(** The entries of the array are good. *)
Lemma array_entries_ok a : array_shape a -> Forall entry_ok (array_entries a).
Proof.
  intros Ha. unfold array_entries. apply Forall_concat, Forall_fmap, Forall_forall.
  intros s Hs. apply elem_of_seqZ in Hs. apply entries_ok, (ar_snippets _ Ha). lia.
Qed.

Lemma uncut_list f l :
  region_ok f -> Forall entry_ok l ->
  forallb (whole (addr f) (size f)) (view_st <$> l) = true -> Forall (uncut f) l.
Proof.
  intros Hf Hl Hw. induction l as [|e l IH]; [done|]. apply Forall_cons in Hl as [He Hl].
  rewrite fmap_cons in Hw. cbn [forallb] in Hw. apply andb_true_iff in Hw as [? ?].
  constructor; [by apply uncut_whole|by apply IH].
Qed.

(** A flush of a range of the address space. *)
Lemma range_flush lo n : range_ok lo n = true -> flush_ok (region_at lo n).
Proof.
  unfold range_ok. rewrite !andb_true_iff, Z.leb_le, !Z.ltb_lt. unfold word_max, flush_ok, region_ok, word_max. simpl. lia.
Qed.

(** The state after the array and the tree have been gone through. *)
Record scanned (w : world) (lo n : Z) (w2 : world) (a : pmem_stores_array) (set : region_set) (ev : list pmem_st) : Prop := {
  sc_world : w2 = set_pmem (set_pmem_stores set (set_redundant_flushes ev (set_array a (pmem w)))) w;
  sc_array : array_shape a;
  sc_snippets : snippet_info_index a = snippet_info_index (array (pmem w));
  sc_fill : fill a = fill (array (pmem w));
  sc_tree : tree_ok set (min_add_pmem_store (pmem w)) (max_add_pmem_store (pmem w)) (db_pmem_store_index (the_globals w));
  sc_size : card set = card (pmem_stores (pmem w));
  sc_current : view_st <$> array_entries a = mark lo n <$> current (view w);
  sc_older : view_st <$> elems set = mark lo n <$> older (view w);
  sc_redundant : view_st <$> ev = redundant (track_flush (check_flush (opts (pmem w))) lo n (view w));
}.

(** The flush hits a tracked store. *)
Definition hits_some (lo n : Z) (t : tracker) : bool := existsb (hit lo n) (current t) || existsb (hit lo n) (older t).

Lemma flush_scan_ok P k w lo n :
  inv P k w -> k < iter_limit -> range_ok lo n = true -> no_cut (EvFlush lo n) (view w) = true ->
  let f := region_at lo n in
  Z.of_nat (length (redundant (track_flush (check_flush (opts (pmem w))) lo n (view w)))) <= MAX_FLUSH_ERROR_EVENTS ->
  exists w2 a set ev, scanned w lo n w2 a set ev /\
    forall A (m : bool -> PM A),
      (valid <- all_snippets false (flush_snippet f) ;; valid <- flush_tree f valid ;; m valid) w =
      m (hits_some lo n (view w)) w2.
Proof.
  intros Hinv Hk Hr Hcut f Hred. assert (flush_ok f) as Hf by (by apply range_flush).
  pose proof Hf as [Hfr _]. pose proof Hinv as [_ _ Ha Ht _ _ Hst Hsn _].
  set (check := check_flush (opts (pmem w))) in *.
  unfold no_cut in Hcut. rewrite forallb_app in Hcut. apply andb_true_iff in Hcut as [Hcut1 Hcut2].
  pose proof (array_entries_ok _ Ha) as Hen.
  pose proof (uncut_list f _ Hfr (tr_entries _ _ _ _ Ht) Hcut1) as Hu1.
  pose proof (uncut_list f _ Hfr Hen Hcut2) as Hu2.
  assert (redundant (track_flush check lo n (view w)) = redundant (view w) ++
    red_events check f (array_entries (array (pmem w))) ++ red_events check f (elems (pmem_stores (pmem w)))) as Er.
  { simpl. f_equal. unfold red_events. by destruct check. }
  rewrite Er, !length_app in Hred. cbn [redundant view] in Hred. rewrite length_fmap in Hred.
  pose proof (ar_last _ Ha) as Hl0.
  pose proof (sn_start _ _ (ar_snippets _ Ha (snippet_info_index (array (pmem w))) ltac:(lia))) as Hfill.
  destruct (flush_snippets_ok f (S (Z.to_nat (snippet_info_index (array (pmem w))))) 0 w false
    (S (S (Z.to_nat (snippet_info_index (array (pmem w)))))) Hf) as
    (a1 & ev1 & Heq1 & Ha1 & Hn1 & Hs1 & _ & Hv1 & Hev1); rewrite <-?array_entries_from; try done; try lia.
  { exact (ar_shape _ Ha). } { fold check. lia. }
  rewrite <-!array_entries_from in Heq1, Hv1, Hev1. cbn [orb] in Heq1. fold check in Hev1.
  pose proof (f_equal length Hev1) as Hlen1. rewrite length_app, !length_fmap in Hlen1.
  destruct (flush_tree_ok f (existsb (hits f) (array_entries (array (pmem w)))) (reach w a1 ev1)
    (db_pmem_store_index (the_globals w)) Hfr Ht) as (set2 & ev2 & Heq2 & Ht2 & Hsz2 & Hv2 & Hev2).
  { change (card (pmem_stores (pmem w)) < iter_limit). unfold fill in Hst. lia. } { done. }
  { change (check_flush _) with check. change (redundant_flushes _) with ev1.
    change (pmem_stores _) with (pmem_stores (pmem w)). lia. }
  exists (reach_tree (reach w a1 ev1) set2 ev2), a1, set2, ev2. split.
  - split; try done.
    + unfold fill. rewrite Hn1. by destruct (Hs1 (snippet_info_index (array (pmem w)))) as [? ->].
    + by rewrite Hv1, <-?array_entries_from.
    + fold check. rewrite Er, Hev2. change (check_flush _) with check. change (redundant_flushes _) with ev1.
      by rewrite Hev1, <-app_assoc.
  - intros A m. rewrite (bind_ok _ _ w _ (reach w a1 ev1)) by (unfold all_snippets; step; exact Heq1).
    rewrite (bind_ok _ _ _ _ _ Heq2). f_equal. unfold hits_some. cbn [current older view].
    rewrite !existsb_view; done || apply (tr_entries _ _ _ _ Ht).
Qed.

(** The common start of a flush. *)
Lemma flush_start_ok w lo n (m : pmem_st -> PM unit) :
  plain (opts (pmem w)) ->
  (flush_info <- flush_region lo n ;;
   lg <- oget log_stores ;;
   whenM lg (emit "|FLUSH;0x%lx;0x%llx" [Num (addr flush_info); Num (size flush_info)]) ;;;
   lack <- oget lack_ordering_trand ;;
   cur <- getsM curr_strand_pmem ;;
   whenM (lack && (0 <? strand_id cur)) (strand_order_check flush_info) ;;; m flush_info) w = m (region_at lo n) w.
Proof.
  intros (_ & Hlog & _ & _ & Hlack & Hforce).
  rewrite (bind_ok _ _ w (region_at lo n) w) by (unfold flush_region; do 2 step; by rewrite Hforce).
  step. rewrite Hlog. step. do 2 step. rewrite Hlack. cbn [andb]. by step.
Qed.

Lemma do_flush_ok P k w lo n :
  inv P k w -> k + 1 < iter_limit -> range_ok lo n = true ->
  no_cut (EvFlush lo n) (view w) = true ->
  let t := track (check_flush (opts (pmem w))) (mapped w) (EvFlush lo n) (view w) in
  Z.of_nat (length (redundant t)) <= MAX_FLUSH_ERROR_EVENTS ->
  Z.of_nat (length (superfluous t)) <= MAX_FLUSH_ERROR_EVENTS ->
  exists w', do_flush lo n w = Ok tt w' /\ inv P (k + 1) w' /\
    opts (pmem w') = opts (pmem w) /\ mapped w' = mapped w /\ view w' = t.
Proof.
  intros Hinv Hk Hr Hcut t Hred Hsup. pose proof Hinv as [Hp Hq Ha Ht Hm Htx Hst Hsn Hre].
  destruct (flush_scan_ok P k w lo n Hinv ltac:(lia) Hr Hcut Hred) as (w2 & a & set & ev & [-> Ha1 Hn1 Hf1 Ht2 Hsz2 Hv1 Hv2 Hev2] & Hscan).
  unfold do_flush. rewrite flush_start_ok, Hscan by done. step. set (w2 := set_pmem _ w).
  set (valid := hits_some lo n (view w)).
  destruct (superfluous_ok (region_at lo n) valid w2) as (ev3 & Heq3 & Hev3).
  { simpl in Hsup. rewrite length_app, length_fmap, Nat2Z.inj_add in Hsup. exact Hsup. }
  change (check_flush (opts (pmem w2))) with (check_flush (opts (pmem w))) in *.
  rewrite (bind_ok _ _ _ _ _ Heq3).
  set (w3 := set_pmem (set_superfluous_flushes ev3 (pmem w2)) w2).
  destruct (flush_close_ok w3) as (b & Heq4 & Hb & Hbe & Hbf & Hbn).
  { exact Ha1. } { change (snippet_info_index a + 1 < MAX_ARRAY_NUM). pose proof iter_limit_array. lia. }
  change (array (pmem w3)) with a in *.
  exists (set_pmem (set_array b (pmem w3)) w3). split; [exact Heq4|].
  split; [|split; [done|split; [done|]]].
  - split; try done.
    + change (card set + fill b <= k + 1). rewrite Hsz2, Hbf, Hf1. lia.
    + change (snippet_info_index b <= k + 1). lia.
    + change (card (pmem_mappings (pmem w)) <= k + 1). lia.
  - unfold view. cbn [pmem set_pmem pmem_stores array redundant_flushes superfluous_flushes w3 w2].
    unfold t, track, track_flush. f_equal; try done.
    by rewrite <-Hv1, <-Hbe.
Qed.
End Flush.
