(* ===== verification/FenceSpec.v ===== *)
(** The effect of a fence on the tracked stores. *)
From S2P Require Import Prelude OSet OSetTree OSetSpec Region RegionSpec Core Trans Pmem Store Flush Spec StoreSpec FlushSpec.
Local Open Scope pm_scope.

(** A store that a fence keeps. *)
Definition kept (e : pmem_st) : bool := negb (bool_decide (state e = STST_FLUSHED)).

Lemma view_kept l :
  view_st <$> List.filter kept l = List.filter (fun e => negb (p_flushed e)) (view_st <$> l).
Proof.
  induction l as [|e l IH]; [done|]. rewrite fmap_cons. cbn [List.filter].
  change (kept e) with (negb (p_flushed (view_st e))).
  destruct (negb _); [by rewrite fmap_cons, IH|done].
Qed.

(** A world after a step of a fence: the tree, its bounds and the number of the
    next store change. *)
Definition reach_fence (w : world) (set : region_set) (mn mx i : Z) : world :=
  with_globals (set_db_pmem_store_index i (the_globals w))
    (set_pmem (set_pmem_stores set (set_min_add_pmem_store mn (set_max_add_pmem_store mx (pmem w)))) w).

Lemma reach_fence_self w :
  reach_fence w (pmem_stores (pmem w)) (min_add_pmem_store (pmem w)) (max_add_pmem_store (pmem w))
    (db_pmem_store_index (the_globals w)) = w.
Proof. by destruct w as [[[] ?] [] ? ? ?]. Qed.

(** Bounds of a list of stores, [word_max] for none. *)
Definition bounds_of (mn mx : Z) (l : list pmem_st) : Prop :=
  bounded mn mx l /\ (l = [] -> mn = word_max /\ mx = word_max).

Lemma bounds_widen e mn mx l :
  entry_ok e -> bounds_of mn mx l ->
  bounds_of (fst (widen e mn mx)) (snd (widen e mn mx)) (l ++ [e]).
Proof.
  intros He [Hb Hn]. split; [by apply widen_bounded|]. intros Hnil. by destruct l.
Qed.

Section Fence.
Context `{CoreEnv}.

(** ** The tree *)

Lemma fence_node_ok w dn i e rem :
  own_view (pmem_stores (pmem w)) (dn ++ (i, e) :: rem) rem -> entry_ok e ->
  card (pmem_stores (pmem w)) < iter_limit ->
  bounds_of (min_add_pmem_store (pmem w)) (max_add_pmem_store (pmem w)) dn.*2 ->
  exists set' mn mx, fence_node (i, e) w =
      Ok tt (reach_fence w set' mn mx (db_pmem_store_index (the_globals w))) /\
    card set' <= card (pmem_stores (pmem w)) /\
    let dn' := dn ++ (if kept e then [(i, e)] else []) in
    own_view set' (dn' ++ rem) rem /\ bounds_of mn mx dn'.*2.
Proof.
  intros Hv He Hlim Hb. unfold fence_node, kept. cbn [snd].
  destruct (bool_decide (state e = STST_FLUSHED)); cbn [negb].
  - destruct (view_remove _ _ _ (pmem_stores (pmem w)) dn i e rem (view_ok _ _ _ _ _ Hv) Hlim
      (view_nodes _ _ _ _ _ Hv)) as (set1 & set2 & Hrem & Hres & Hv2 & Hsz).
    exists set2, (min_add_pmem_store (pmem w)), (max_add_pmem_store (pmem w)).
    split; [|split; [lia|by rewrite app_nil_r]].
    unfold set_remove, bindM. cbn -[OSetGen_Remove OSetGen_ResetIterAt].
    change (key_of e) with e in Hrem, Hres. rewrite Hrem. cbn -[OSetGen_ResetIterAt].
    rewrite Hres. cbn. by destruct w as [[[] ?] [] ? ? ?].
  - exists (pmem_stores (pmem w)),
      (fst (widen e (min_add_pmem_store (pmem w)) (max_add_pmem_store (pmem w)))),
      (snd (widen e (min_add_pmem_store (pmem w)) (max_add_pmem_store (pmem w)))). split.
    { unfold update_Oset_pmem_stores_minandmax, pmod, modM, reach_fence.
      by destruct w as [[[] ?] [] ? ? ?]. }
    split; [lia|]. split; [by rewrite <-app_assoc|]. rewrite fmap_app. by apply bounds_widen.
Qed.

Lemma fence_nodes_ok rem : forall dn w fuel,
  own_view (pmem_stores (pmem w)) (dn ++ rem) rem -> Forall entry_ok rem.*2 ->
  card (pmem_stores (pmem w)) < iter_limit -> (length rem < fuel)%nat ->
  bounds_of (min_add_pmem_store (pmem w)) (max_add_pmem_store (pmem w)) dn.*2 ->
  exists set' mn mx, while_next fuel (set_next Stores) fence_node w =
      Ok tt (reach_fence w set' mn mx (db_pmem_store_index (the_globals w))) /\
    card set' <= card (pmem_stores (pmem w)) /\
    let l := dn ++ List.filter (fun n => kept (snd n)) rem in
    own_ok set' /\ nodes set' = l /\ bounds_of mn mx l.*2.
Proof.
  unfold while_next.
  induction rem as [|[i e] rem IH]; intros dn w fuel Hv Hen Hlim Hfuel Hb;
    (destruct fuel as [|fuel]; [simpl in *; lia|]); cbn [fold_next];
    destruct (set_next_ok w _ _ Hv) as (set1 & Hnext & Hv1 & Hsz1);
    rewrite (bind_ok _ _ _ _ _ Hnext); cbn [head tail] in *.
  - exists set1, (min_add_pmem_store (pmem w)), (max_add_pmem_store (pmem w)).
    split; [|split; [lia|]].
    + unfold retM, reach_tree, reach_fence. by destruct w as [[[] ?] [] ? ? ?].
    + split; [apply (view_ok _ _ _ _ _ Hv1)|].
      split; [apply (view_nodes _ _ _ _ _ Hv1)|]. simpl. by rewrite app_nil_r.
  - rewrite fmap_cons in Hen. apply Forall_cons in Hen as [He Hen]. cbn [snd] in He.
    set (w1 := reach_tree w set1 (redundant_flushes (pmem w))) in *.
    destruct (fence_node_ok w1 dn i e rem) as (set2 & mn2 & mx2 & Heq2 & Hsz2 & Hv2 & Hb2); try done.
    { change (pmem_stores (pmem w1)) with set1. lia. }
    change (pmem_stores (pmem w1)) with set1 in Hsz2.
    rewrite (bind_ok _ _ _ _ _ Heq2).
    set (w2 := reach_fence w1 set2 mn2 mx2 (db_pmem_store_index (the_globals w1))) in *.
    destruct (IH (dn ++ (if kept e then [(i, e)] else [])) w2 fuel)
      as (set3 & mn3 & mx3 & Heq3 & Hsz3 & Hok3 & Hn3 & Hb3); try done.
    { change (pmem_stores (pmem w2)) with set2. lia. } { simpl in Hfuel. lia. }
    change (pmem_stores (pmem w2)) with set2 in Hsz3.
    exists set3, mn3, mx3. split; [|split; [lia|]].
    + etransitivity; [exact Heq3|]. unfold w2, w1, reach_tree, reach_fence.
      by destruct w as [[[] ?] [] ? ? ?].
    + split; [done|]. cbn [List.filter snd]. rewrite <-app_assoc in Hn3, Hb3.
      destruct (kept e); done.
Qed.

Lemma fence_tree_ok w :
  let set := pmem_stores (pmem w) in
  let n := db_pmem_store_index (the_globals w) in
  tree_ok set (min_add_pmem_store (pmem w)) (max_add_pmem_store (pmem w)) n ->
  card set < iter_limit ->
  exists set' mn mx, fence_tree w = Ok tt (reach_fence w set' mn mx n) /\
    card set' <= card set /\
    tree_ok set' mn mx n /\ elems set' = List.filter kept (elems set).
Proof.
  intros set n Ht Hlim. unfold fence_tree. step.
  set (w0 := set_pmem _ w).
  destruct (set_reset_ok w0 (tr_ok _ _ _ _ Ht) Hlim) as (set1 & Hreset & Hv1 & Hroot1 & Hsz1).
  change (pmem_stores (pmem w0)) with set in Hv1, Hroot1, Hsz1.
  set (w1 := reach_tree w0 set1 _) in Hreset.
  rewrite (bind_ok _ _ _ _ _ Hreset). step.
  destruct (fence_nodes_ok (nodes set) [] w1 (S (4 * tree_size (root set1))))
    as (set2 & mn & mx & Heq & Hsz2 & Hok2 & Hn2 & Hb2).
  - done.
  - apply (tr_entries _ _ _ _ Ht).
  - change (card set1 < iter_limit). lia.
  - rewrite Hroot1. unfold nodes. rewrite length_inorder. lia.
  - split; [split; [constructor|by left]|done].
  - assert (elems set2 = List.filter kept (elems set)) as Hel.
    { unfold elems. rewrite Hn2. simpl. clear.
      induction (nodes set) as [|x ns IH]; [done|]. rewrite fmap_cons. cbn [List.filter].
      destruct (kept (snd x)); [by rewrite fmap_cons, IH|done]. }
    exists set2, mn, mx. split; [exact Heq|]. split; [change (card set2 <= card set1) in Hsz2; lia|].
    split; [|done]. simpl in Hn2, Hb2.
    assert (forall Q : pmem_st -> Prop, Forall Q (elems set) -> Forall Q (elems set2)) as Hsub.
    { intros Q HQ. rewrite Hel. rewrite !Forall_forall in *. intros x Hx. apply HQ.
      apply list_elem_of_In in Hx. apply filter_In in Hx as [Hx _]. by apply list_elem_of_In. }
    assert (elems set2 = (List.filter (fun n => kept (snd n)) (nodes set)).*2) as Hel2
      by (unfold elems; by rewrite Hn2).
    destruct Hb2 as [Hb2 Hb2'].
    split; [done|apply Hsub, (tr_index _ _ _ _ Ht)|apply Hsub, (tr_entries _ _ _ _ Ht)| |];
      rewrite Hel2; done.
Qed.

(** ** The array *)

(** A store with the greatest number is inserted at the end. *)
Lemma own_insert_last set n e :
  own_ok set -> Forall (fun x => index x < n) (elems set) -> index e = n ->
  exists set', OSetGen_Insert set e = Some set' /\ own_ok set' /\
    elems set' = elems set ++ [e] /\ card set' = card set + 1.
Proof.
  intros Hok Hlt Hn.
  destruct (Insert_new cmp_pmem_own_st (fun _ => True) (fun _ => True) set e Hok I)
    as (set' & ms1 & ms3 & Hi & Hok' & Hns & Hns' & Ha & Hb & Hsz & _).
  { eapply Forall_impl; [exact Hlt|]. intros x Hx. simpl. unfold cmp_pmem_own_st. simpl in Hx.
    repeat ztest; lia. }
  exists set'. split; [done|]. split; [done|]. split; [|done].
  assert (ms3 = []) as ->.
  { destruct ms3 as [|[j x] ms3]; [done|]. apply before_all_cons in Hb as [Hc _]. simpl in Hc.
    rewrite Forall_forall in Hlt. assert (index x < n) as Hx.
    { apply Hlt. unfold elems. rewrite Hns, fmap_app, fmap_cons. set_solver. }
    unfold cmp_pmem_own_st in Hc. revert Hc. repeat ztest; lia. }
  unfold elems. rewrite Hns', Hns, app_nil_r, fmap_app. done.
Qed.

(** The tree with one more store. *)
Lemma tree_push set mn mx n e :
  tree_ok set mn mx n -> entry_ok e -> index e = n ->
  exists set', OSetGen_Insert set e = Some set' /\
    tree_ok set' (fst (widen e mn mx)) (snd (widen e mn mx)) (n + 1) /\
    elems set' = elems set ++ [e] /\ card set' = card set + 1.
Proof.
  intros [Hok Hi He Hb Hempty] Hent Hn.
  destruct (own_insert_last set n e Hok Hi Hn) as (set' & Hins & Hok' & Hel & Hsz).
  exists set'. split; [done|]. split; [|done]. split; rewrite ?Hel.
  - done.
  - rewrite Forall_app, Forall_singleton. split; [|lia].
    eapply Forall_impl; [exact Hi|]. intros x Hx. simpl in *. lia.
  - rewrite Forall_app, Forall_singleton. done.
  - by apply widen_bounded.
  - intros Hnil. by destruct (elems set).
Qed.

(** What moving a list of stores to the tree promises. *)
Definition moved (l : list pmem_st) (w : world) (r : res world unit) : Prop :=
  let set := pmem_stores (pmem w) in
  exists set' mn mx n, r = Ok tt (reach_fence w set' mn mx n) /\
    tree_ok set' mn mx n /\
    card set' = card set + Z.of_nat (length (List.filter kept l)) /\
    view_st <$> elems set' = (view_st <$> elems set) ++ (view_st <$> List.filter kept l).

Definition world_tree_ok (w : world) : Prop :=
  tree_ok (pmem_stores (pmem w)) (min_add_pmem_store (pmem w)) (max_add_pmem_store (pmem w))
    (db_pmem_store_index (the_globals w)).

Lemma moved_nil w : world_tree_ok w -> moved [] w (Ok tt w).
Proof.
  intros Ht. exists (pmem_stores (pmem w)), (min_add_pmem_store (pmem w)),
    (max_add_pmem_store (pmem w)), (db_pmem_store_index (the_globals w)).
  rewrite reach_fence_self. simpl. split; [done|]. split; [done|]. split; [lia|]. by rewrite app_nil_r.
Qed.

(** Moving one list after another. *)
Lemma moved_app l1 l2 w (m : PM unit) (k : unit -> PM unit) :
  moved l1 w (m w) ->
  (forall w', world_tree_ok w' -> array (pmem w') = array (pmem w) ->
     opts (pmem w') = opts (pmem w) -> moved l2 w' (k tt w')) ->
  moved (l1 ++ l2) w (bindM m k w).
Proof.
  intros (set1 & mn1 & mx1 & n1 & Heq1 & Ht1 & Hsz1 & Hv1) Hk.
  rewrite (bind_ok _ _ _ _ _ Heq1).
  destruct (Hk (reach_fence w set1 mn1 mx1 n1)) as (set2 & mn2 & mx2 & n2 & -> & Ht2 & Hsz2 & Hv2);
    [done..|].
  change (pmem_stores (pmem (reach_fence w set1 mn1 mx1 n1))) with set1 in *.
  exists set2, mn2, mx2, n2. split; [by destruct w as [[[] ?] [] ? ? ?]|]. split; [done|].
  rewrite List.filter_app, length_app, fmap_app, Hv2, Hv1, app_assoc. split; [lia|done].
Qed.

Lemma fence_slot_ok w i :
  let e := slots (array (pmem w)) i in
  world_tree_ok w -> o_tree_reorganization (opts (pmem w)) = false -> entry_ok e ->
  moved [e] w (fence_slot i w).
Proof.
  intros e Ht Ho He. unfold fence_slot. step. fold e. rewrite (en_live _ He), orb_false_r.
  unfold moved. cbn [List.filter]. unfold kept.
  destruct (bool_decide (state e = STST_FLUSHED)); cbn [negb].
  { exists (pmem_stores (pmem w)), (min_add_pmem_store (pmem w)),
      (max_add_pmem_store (pmem w)), (db_pmem_store_index (the_globals w)).
    rewrite reach_fence_self. simpl. split; [done|]. split; [done|]. split; [lia|]. by rewrite app_nil_r. }
  set (n := db_pmem_store_index (the_globals w)).
  set (new := pmem_st_copy (set_index n pmem_st_zero) e).
  assert (entry_ok new) as Hnew by (destruct He; by split).
  destruct (tree_push _ _ _ _ new Ht Hnew eq_refl) as (set' & Hins & Ht' & Hel & Hsz).
  exists set', (fst (widen new (min_add_pmem_store (pmem w)) (max_add_pmem_store (pmem w)))),
    (snd (widen new (min_add_pmem_store (pmem w)) (max_add_pmem_store (pmem w)))), (n + 1).
  split; [|split; [done|split; [simpl; lia|by rewrite Hel, fmap_app]]].
  step. step. cbn [opts pmem set_w_tx with_globals]. 
  change (o_tree_reorganization _) with (o_tree_reorganization (opts (pmem w))). rewrite Ho.
  fold n. fold new. unfold set_insert, bindM. cbn -[OSetGen_Insert widen].
  change (pmem_st_copy _ e) with new. rewrite Hins. cbn -[widen]. by destruct w as [[[] ?] [] ? ? ?].
Qed.

Lemma fence_slots_ok s n : forall i w fuel,
  let a := array (pmem w) in
  let l := arr_list (slots a) i (sn_index (snippet_info a s)) in
  world_tree_ok w -> o_tree_reorganization (opts (pmem w)) = false -> Forall entry_ok l ->
  sn_index (snippet_info a s) - i <= Z.of_nat n -> (n < fuel)%nat ->
  moved l w (for_slots fuel s i tt (fun _ => fence_slot) w).
Proof.
  induction n as [|n IH]; intros i w fuel a l Ht Ho Hl Hn Hfuel;
    (destruct fuel as [|fuel]; [lia|]); cbn [for_slots]; step; fold a;
    destruct (Z.ltb_spec i (sn_index (snippet_info a s))) as [Hlt|Hge]; try lia;
    try (unfold l; rewrite arr_list_nil by done; by apply moved_nil).
  unfold l in *. rewrite arr_list_cons in Hl |- * by done. apply Forall_cons in Hl as [He Hl].
  change (slots a i :: ?k) with ([slots a i] ++ k). apply moved_app; [by apply fence_slot_ok|].
  intros w' Ht' Ha' Ho'. specialize (IH (i + 1) w' fuel). rewrite Ha', Ho' in IH.
  fold a in IH. apply IH; (done || lia).
Qed.

Lemma fence_snippet_ok s w :
  let a := array (pmem w) in
  world_tree_ok w -> o_tree_reorganization (opts (pmem w)) = false -> snippet_ok a s ->
  moved (snip_entries a s) w (fence_snippet s w).
Proof.
  intros a Ht Ho Hs. unfold fence_snippet. step. fold a. unfold snip_entries.
  case_bool_decide as Hfl.
  - rewrite Hfl. assert (List.filter kept (eff ALL_FLUSHED <$> snip_list a s) = []) as Hnil.
    { induction (snip_list a s) as [|e l IH]; [done|]. rewrite fmap_cons. cbn [List.filter]. by rewrite IH. }
    destruct (moved_nil w Ht) as (set' & mn & mx & n & H1 & H2 & H3 & H4).
    exists set', mn, mx, n. by rewrite Hnil.
  - assert (eff (flushed_num (snippet_info a s)) <$> snip_list a s = snip_list a s) as ->.
    { destruct (flushed_num (snippet_info a s)); [apply list_fmap_id|apply list_fmap_id|done]. }
    unfold all_slots. step. fold a. pose proof (sn_start _ _ Hs).
    apply (fence_slots_ok s (Z.to_nat (sn_index (snippet_info a s) - start_index (snippet_info a s))));
      [done|done|apply (sn_entries _ _ Hs)|fold a; lia|lia].
Qed.

Lemma fence_snippets_ok n : forall s w fuel,
  let a := array (pmem w) in
  world_tree_ok w -> o_tree_reorganization (opts (pmem w)) = false -> array_shape a -> 0 <= s ->
  snippet_info_index a + 1 - s <= Z.of_nat n -> (n < fuel)%nat ->
  moved (entries_from a s) w (for_snippets fuel s tt (fun _ => fence_snippet) w).
Proof.
  induction n as [|n IH]; intros s w fuel a Ht Ho Ha Hs Hn Hfuel;
    (destruct fuel as [|fuel]; [lia|]); cbn [for_snippets]; step; fold a;
    destruct (Z.leb_spec s (snippet_info_index a)) as [Hle|Hgt]; try lia;
    try (rewrite entries_from_nil by done; by apply moved_nil).
  rewrite entries_from_cons by done.
  apply moved_app; [apply fence_snippet_ok; [done|done|apply (ar_snippets _ Ha); lia]|].
  intros w' Ht' Ha' Ho'. specialize (IH (s + 1) w' fuel). rewrite Ha', Ho' in IH.
  fold a in IH. apply IH; (done || lia).
Qed.

(** ** The whole fence *)

(** The array is as long as its last slot says. *)
Lemma array_entries_length a :
  array_shape a -> Z.of_nat (length (array_entries a)) = fill a.
Proof.
  intros Ha. pose proof (ar_last _ Ha) as H0.
  assert (forall m, Z.of_nat m <= snippet_info_index a ->
    Z.of_nat (length (concat (snip_entries a <$> seqZ 0 (Z.of_nat m + 1)))) =
    sn_index (snippet_info a (Z.of_nat m))) as Hall.
  { assert (forall s, 0 <= s <= snippet_info_index a -> Z.of_nat (length (snip_entries a s)) =
      sn_index (snippet_info a s) - start_index (snippet_info a s)) as Hlen.
    { intros s Hs. unfold snip_entries, snip_list, arr_list. rewrite !length_fmap, length_seqZ.
      pose proof (sn_start _ _ (ar_snippets _ Ha s Hs)). lia. }
    induction m as [|m IH]; intros Hm.
    - change (seqZ 0 (Z.of_nat 0 + 1)) with [0]. simpl. rewrite app_nil_r, Hlen by lia.
      rewrite (ar_first _ Ha). change (Z.of_nat 0) with 0. lia.
    - rewrite last_split by lia. rewrite fmap_app, concat_app, length_app.
      cbn [fmap list_fmap concat]. rewrite app_nil_r. rewrite Nat2Z.inj_add, Hlen by lia.
      replace (Z.of_nat (S m)) with (Z.of_nat m + 1) in * by lia. rewrite IH by lia.
      rewrite (ar_chain _ Ha) by lia. lia. }
  specialize (Hall (Z.to_nat (snippet_info_index a))). rewrite Z2Nat.id in Hall by lia.
  apply Hall. lia.
Qed.

(** The array after a fence: one empty snippet. *)
Lemma array_reset a :
  let b := mkArray 0 (slots a) (arr_upd 0 (fresh_snippet 0) (snippet_info a)) in
  array_ok b /\ array_entries b = [] /\ fill b = 0.
Proof.
  intros b. assert (snippet_info b 0 = mkSnippet 0 word_max word_max 0 NO_FLUSHED) as Hb by done.
  assert (snip_list b 0 = []) as Hnil by (unfold snip_list; rewrite Hb; by apply arr_list_nil).
  split; [split; [split|done]|split; [|done]].
  - done.
  - intros s Hs. assert (s = 0) as -> by (simpl in Hs; lia). split; rewrite ?Hnil; try done.
    + split; [done|by left].
  - done.
  - intros s Hs. simpl in Hs. lia.
  - unfold array_entries. change (seqZ 0 (snippet_info_index b + 1)) with [0].
    cbn [fmap list_fmap concat]. unfold snip_entries. by rewrite Hnil.
Qed.

Lemma filter_length_le {A} (p : A -> bool) l : (length (List.filter p l) <= length l)%nat.
Proof. induction l as [|x l IH]; simpl; [lia|]. destruct (p x); simpl; lia. Qed.

Lemma do_fence_ok P k w :
  (forall g t, P t -> P (mkTxState g (trans t))) ->
  inv P k w -> k + 1 < iter_limit ->
  exists w', do_fence w = Ok tt w' /\ inv P (k + 1) w' /\
    opts (pmem w') = opts (pmem w) /\ mapped w' = mapped w /\
    view w' = track (check_flush (opts (pmem w))) (mapped w) EvFence (view w).
Proof.
  intros HP [Hp Hq Ha Ht Hm Htx Hst Hsn Hre] Hk. pose proof Hp as (_ & Hlog & Hog & Htree & _).
  unfold do_fence. step. rewrite Hlog. step. step. rewrite Hog. step.
  pose proof (wf_card _ (ok_wf _ _ _ (tr_ok _ _ _ _ Ht))) as Hsz.
  pose proof (array_entries_length _ Ha) as Hlen. pose proof (ar_last _ Ha) as H0.
  destruct (fence_tree_ok w Ht) as (set1 & mn1 & mx1 & Heq1 & Hsz1 & Ht1 & Hel1); [lia|].
  rewrite (bind_ok _ _ _ _ _ Heq1). set (w1 := reach_fence w set1 mn1 mx1 _).
  destruct (fence_snippets_ok (S (Z.to_nat (snippet_info_index (array (pmem w))))) 0 w1
    (S (S (Z.to_nat (snippet_info_index (array (pmem w)))))))
    as (set2 & mn2 & mx2 & n2 & Heq2 & Ht2 & Hsz2 & Hv2); try done.
  { exact (ar_shape _ Ha). } { change (array (pmem w1)) with (array (pmem w)). lia. } { lia. }
  change (array (pmem w1)) with (array (pmem w)) in *.
  change (pmem_stores (pmem w1)) with set1 in *. rewrite <-array_entries_from in *.
  set (w2 := reach_fence w1 set2 mn2 mx2 n2) in *.
  assert (all_snippets tt (fun _ => fence_snippet) w1 = Ok tt w2) as Hall
    by (unfold all_snippets; step; exact Heq2).
  rewrite (bind_ok _ _ _ _ _ Hall). step. 
  destruct (array_reset (array (pmem w))) as (Hb & Hbe & Hbf).
  eexists. split; [reflexivity|]. split; [|split; [done|split; [done|]]].
  - split; try done.
    + exact (HP _ _ (HP _ _ Htx)).
    + change (card set2 + 0 <= k + 1). 
      pose proof (filter_length_le kept (array_entries (array (pmem w)))). lia.
    + change (0 <= k + 1). lia.
    + change (card (pmem_mappings (pmem w)) <= k + 1). lia.
  - unfold view, track, track_fence. cbn [older current redundant superfluous].
    rewrite List.filter_app, <-!view_kept, <-Hel1.
    f_equal. exact Hv2.
Qed.
End Fence.
