(* ===== verification/ReportSpec.v ===== *)
(** The report of the stores that are not persistent: what is printed, and the
    number of errors. *)
From S2P Require Import Prelude OSet OSetTree OSetSpec Region RegionSpec Core Trans Pmem Store Flush Report Spec StoreSpec FlushSpec FenceSpec.
Local Open Scope pm_scope.

(** ** What is to be printed *)

Definition pending_line (p : pending) : msg :=
  Umsg "\tAddress: 0x%lx\tsize: %llu\tstate: %s\n"
    [Num (p_addr p); Num (p_size p); Str (if p_flushed p then "FLUSHED" else "DIRTY")].

Fixpoint numbered_lines (k : Z) (l : list pending) : list msg :=
  match l with
  | [] => []
  | p :: l => Umsg " [%lu] " [Num k] :: pending_line p :: numbered_lines (k + 1) l
  end.

(** The stores since the last fence, numbered, then the older ones. *)
Definition stats_lines (t : tracker) : list msg :=
  numbered_lines 0 (current t) ++ (pending_line <$> older t).

Lemma numbered_lines_app k l1 l2 :
  numbered_lines k (l1 ++ l2) =
  numbered_lines k l1 ++ numbered_lines (k + Z.of_nat (length l1)) l2.
Proof.
  revert k. induction l1 as [|p l1 IH]; intros k; simpl; [by rewrite Z.add_0_r|].
  rewrite IH. do 4 f_equal. lia.
Qed.

(** ** Messages *)

Definition put_msgs (ms : list msg) (g : globals) : globals :=
  mkGlobals (running_tid g) (exe_context g) (clo_verbosity g) (db_pmem_store_index g)
    (rev ms ++ output g).

Lemma put_msgs_app ms1 ms2 g : put_msgs ms2 (put_msgs ms1 g) = put_msgs (ms1 ++ ms2) g.
Proof. unfold put_msgs. simpl. by rewrite rev_app_distr, app_assoc. Qed.

(** A world after part of a report: the slots are settled, the iterator has
    moved, lines are printed. *)
Definition reach_report (w : world) (a : pmem_stores_array) (set : region_set) (ms : list msg)
    : world :=
  with_globals (put_msgs ms (the_globals w)) (set_pmem (set_array a (set_pmem_stores set (pmem w))) w).

Lemma reach_report_self w : reach_report w (array (pmem w)) (pmem_stores (pmem w)) [] = w.
Proof. by destruct w as [[[] ?] [] ? ? ?]. Qed.

Lemma reach_report_trans w a1 s1 ms1 a2 s2 ms2 :
  reach_report (reach_report w a1 s1 ms1) a2 s2 ms2 = reach_report w a2 s2 (ms1 ++ ms2).
Proof. unfold reach_report. simpl. by rewrite put_msgs_app. Qed.

(** ** The array *)

(** The options under which only addresses, sizes and states are printed. *)
Definition terse (o : options) : Prop :=
  o_tree_reorganization o = false /\ o_print_bug_detail o = false.

Lemma print_store_line_ok e w :
  terse (opts (pmem w)) -> state e <> STST_CLEAN ->
  print_store_line e w =
    Ok tt (reach_report w (array (pmem w)) (pmem_stores (pmem w)) [pending_line (view_st e)]).
Proof.
  intros [Ht Hd] Hs. unfold print_store_line, pp_context_opt.
  erewrite bind_ok; [|step; step; rewrite Ht, Hd; reflexivity].
  unfold umsg, say, pending_line. simpl. unfold modM.
  destruct w as [[[] ?] [] ? ? ?]. unfold reach_report. simpl.
  by destruct (state e); [done| |].
Qed.

(** Slots [i..] of snippet [s] are settled and printed. *)
Definition slots_printed (w : world) (s i k : Z) (r : res world Z) : Prop :=
  let a := array (pmem w) in
  let sn := snippet_info a s in
  let l := eff (flushed_num sn) <$> arr_list (slots a) i (sn_index sn) in
  exists a', r = Ok (k + Z.of_nat (length l))
      (reach_report w a' (pmem_stores (pmem w)) (numbered_lines k (view_st <$> l))) /\
    snippet_info_index a' = snippet_info_index a /\ snippet_info a' = snippet_info a /\
    (forall j, ~ (i <= j < sn_index sn) -> slots a' j = slots a j) /\
    arr_list (slots a') i (sn_index sn) = l.

Lemma stats_slot_ok w s i k :
  let a := array (pmem w) in
  let fl := flushed_num (snippet_info a s) in
  let e := eff fl (slots a i) in
  terse (opts (pmem w)) -> entry_ok (slots a i) ->
  exists a', stats_slot s k i w = Ok (k + 1)
      (reach_report w a' (pmem_stores (pmem w)) (numbered_lines k [view_st e])) /\
    snippet_info_index a' = snippet_info_index a /\ snippet_info a' = snippet_info a /\
    (forall j, j <> i -> slots a' j = slots a j) /\ slots a' i = e.
Proof.
  intros a fl e Ho He. unfold stats_slot, settle_slot.
  assert (exists a', (sn <- snippet_get s ;;
      whenM (bool_decide (flushed_num sn = ALL_FLUSHED)) (slot_set i (set_state STST_FLUSHED))) w =
      Ok tt (reach_report w a' (pmem_stores (pmem w)) []) /\
    snippet_info_index a' = snippet_info_index a /\ snippet_info a' = snippet_info a /\
    (forall j, j <> i -> slots a' j = slots a j) /\ slots a' i = e) as (a' & Heq & H1 & H2 & H3 & H4).
  { step. fold a. fold fl. unfold e. case_bool_decide as Hfl; cbn [whenM].
    - exists (set_slots (arr_upd i (set_state STST_FLUSHED) (slots a)) a).
      split; [by destruct w as [[[] ?] [] ? ? ?]|]. split; [done|]. split; [done|].
      split; [intros j Hj; simpl; unfold arr_upd; by rewrite (proj2 (Z.eqb_neq _ _))|].
      simpl. unfold arr_upd. rewrite Z.eqb_refl, Hfl. done.
    - exists a. unfold a. rewrite reach_report_self. split; [done|]. split; [done|]. split; [done|].
      split; [done|]. by destruct fl. }
  rewrite (bind_ok _ _ _ _ _ Heq). step. step.
  change (slots (array (pmem (reach_report w a' (pmem_stores (pmem w)) []))) i) with (slots a' i).
  rewrite H4. assert (state e <> STST_CLEAN) as Hs by (unfold e; destruct fl; (done || apply He)).
  erewrite bind_ok; [|apply print_store_line_ok; [exact Ho|exact Hs]].
  by exists a'.
Qed.

Lemma stats_slots_ok s n : forall i k w fuel,
  let a := array (pmem w) in
  terse (opts (pmem w)) -> Forall entry_ok (arr_list (slots a) i (sn_index (snippet_info a s))) ->
  sn_index (snippet_info a s) - i <= Z.of_nat n -> (n < fuel)%nat ->
  slots_printed w s i k (for_slots fuel s i k (stats_slot s) w).
Proof.
  induction n as [|n IH]; intros i k w fuel a Ho Hl Hn Hfuel;
    (destruct fuel as [|fuel]; [lia|]); cbn [for_slots]; step; fold a;
    destruct (Z.ltb_spec i (sn_index (snippet_info a s))) as [Hlt|Hge]; try lia;
    try (unfold slots_printed; fold a; rewrite arr_list_nil by done; exists a; unfold a;
      simpl; rewrite Z.add_0_r, reach_report_self, arr_list_nil by done; done).
  rewrite arr_list_cons in Hl by done. apply Forall_cons in Hl as [He Hl].
  destruct (stats_slot_ok w s i k Ho He) as (a1 & Heq & H1 & H2 & H3 & H4).
  rewrite (bind_ok _ _ _ _ _ Heq). fold a in H1, H2, H3, H4.
  set (w1 := reach_report w a1 (pmem_stores (pmem w)) _).
  specialize (IH (i + 1) (k + 1) w1 fuel). unfold slots_printed in *.
  change (array (pmem w1)) with a1 in IH. rewrite H2 in IH.
  assert (arr_list (slots a1) (i + 1) (sn_index (snippet_info a s)) =
    arr_list (slots a) (i + 1) (sn_index (snippet_info a s))) as Hsame.
  { apply arr_list_ext. intros j Hj. apply H3. lia. }
  rewrite Hsame in IH.
  destruct IH as (a2 & -> & I1 & I2 & I3 & I4); [done|done|lia|lia|].
  exists a2. fold a. rewrite (arr_list_cons _ i) by done. rewrite !fmap_cons.
  split; [|split; [congruence|split; [congruence|split]]].
  - f_equal; [cbn [length]; lia|]. unfold w1. rewrite reach_report_trans. done.
  - intros j Hj. rewrite I3 by lia. apply H3. lia.
  - rewrite arr_list_cons by done. rewrite I4. f_equal. rewrite I3 by lia. exact H4.
Qed.

(** Marking the stores of a flushed snippet does not change what it counts
    as. *)
Lemma eff_eff fl e : eff fl (eff fl e) = eff fl e.
Proof. by destruct fl. Qed.

Lemma settled_snippet_ok a b s :
  snippet_ok a s -> snippet_info b s = snippet_info a s -> snip_list b s = snip_entries a s ->
  snippet_ok b s /\ snip_entries b s = snip_entries a s.
Proof.
  intros [H1 H2 [H3 H3'] H4 H5] Hi Hl. unfold snip_entries in *. split.
  - split; rewrite ?Hi, ?Hl; [done| | | |].
    + rewrite Forall_fmap. eapply Forall_impl; [exact H2|]. intros e He. simpl.
      unfold eff. destruct (flushed_num _); [done|done|by apply entry_flushed].
    + split; [|destruct H3' as [->|?]; [by left|by right]].
      rewrite Forall_fmap. eapply Forall_impl; [exact H3|]. intros e He. simpl in *.
      by destruct (flushed_num _).
    + intros Hn. apply H4. by destruct (snip_list a s).
    + intros Hfl. rewrite Hfl. rewrite Forall_fmap. eapply Forall_impl; [by apply H5|]. done.
  - rewrite Hi, Hl. rewrite <-list_fmap_compose. apply list_fmap_ext. intros ? e _. apply eff_eff.
Qed.

Definition snippets_printed (w : world) (s k : Z) (r : res world Z) : Prop :=
  let a := array (pmem w) in
  let l := entries_from a s in
  exists a', r = Ok (k + Z.of_nat (length l))
      (reach_report w a' (pmem_stores (pmem w)) (numbered_lines k (view_st <$> l))) /\
    snippet_info_index a' = snippet_info_index a /\ snippet_info a' = snippet_info a /\
    array_shape a' /\
    (forall t, 0 <= t <= snippet_info_index a -> snip_entries a' t = snip_entries a t).

Lemma stats_snippets_ok n : forall s k w fuel,
  let a := array (pmem w) in
  terse (opts (pmem w)) -> array_shape a -> 0 <= s ->
  snippet_info_index a + 1 - s <= Z.of_nat n -> (n < fuel)%nat ->
  snippets_printed w s k
    (for_snippets fuel s k (fun k s => all_slots s k (stats_slot s)) w).
Proof.
  induction n as [|n IH]; intros s k w fuel a Ho Ha Hs Hn Hfuel;
    (destruct fuel as [|fuel]; [lia|]); cbn [for_snippets]; step; fold a;
    destruct (Z.leb_spec s (snippet_info_index a)) as [Hle|Hgt]; try lia;
    try (unfold snippets_printed; fold a; rewrite entries_from_nil by done; exists a; unfold a;
      simpl; rewrite Z.add_0_r, reach_report_self; done).
  pose proof (ar_snippets _ Ha s ltac:(lia)) as Hsn.
  destruct (stats_slots_ok s (Z.to_nat (sn_index (snippet_info a s) - start_index (snippet_info a s)))
    (start_index (snippet_info a s)) k w
    (S (Z.to_nat (3 * (sn_index (snippet_info a s) - start_index (snippet_info a s))))) Ho)
    as (a1 & Heq & H1 & H2 & H3 & H4); fold a.
  { apply (sn_entries _ _ Hsn). } { pose proof (sn_start _ _ Hsn). lia. } { lia. }
  fold a in Heq, H1, H2, H3, H4.
  assert (all_slots s k (stats_slot s) w = Ok (k + Z.of_nat (length (snip_entries a s)))
    (reach_report w a1 (pmem_stores (pmem w)) (numbered_lines k (view_st <$> snip_entries a s)))) as Hall
    by (unfold all_slots; step; exact Heq).
  rewrite (bind_ok _ _ _ _ _ Hall).
  destruct (settled_snippet_ok a a1 s Hsn) as [Hok1 Hen1]; [by rewrite H2| |].
  { unfold snip_list. rewrite H2. exact H4. }
  destruct (change_snippet a a1 s (flushed_num (snippet_info a s)) Ha) as [Ha1 Hsame]; [lia|done|..].
  { intros t _. by rewrite H2. } { rewrite H2. by destruct (snippet_info a s). } { exact H3. } { done. }
  assert (forall t, 0 <= t <= snippet_info_index a -> snip_entries a1 t = snip_entries a t) as Hent.
  { intros t Ht. destruct (decide (t = s)) as [->|Hne]; [done|].
    unfold snip_entries. by rewrite Hsame, H2. }
  specialize (IH (s + 1) (k + Z.of_nat (length (snip_entries a s)))
    (reach_report w a1 (pmem_stores (pmem w)) (numbered_lines k (view_st <$> snip_entries a s))) fuel).
  unfold snippets_printed in *. change (array (pmem (reach_report w a1 _ _))) with a1 in IH.
  rewrite H1, (entries_from_ext a a1) in IH by (done || (intros; apply Hent; lia)).
  destruct IH as (a2 & -> & I1 & I2 & I3 & I4); [done|done|lia|lia|lia|].
  exists a2. fold a. rewrite (entries_from_cons a s) by done.
  split; [|split; [congruence|split; [congruence|split; [done|]]]].
  - rewrite reach_report_trans, fmap_app, numbered_lines_app, length_app, length_fmap.
    f_equal. lia.
  - intros t Ht. rewrite I4 by lia. by apply Hent.
Qed.

(** ** The tree *)

Lemma stats_nodes_ok rem : forall dn k w fuel,
  terse (opts (pmem w)) -> Forall entry_ok rem.*2 ->
  own_view (pmem_stores (pmem w)) (dn ++ rem) rem -> (length rem < fuel)%nat ->
  exists set', fold_next fuel (set_next Stores) k
      (fun k tmp => print_store_line (snd tmp) ;;; retM (k + 1)) w =
      Ok (k + Z.of_nat (length rem))
        (reach_report w (array (pmem w)) set' (pending_line <$> (view_st <$> rem.*2))) /\
    own_view set' (dn ++ rem) [] /\ card set' = card (pmem_stores (pmem w)).
Proof.
  induction rem as [|[i e] rem IH]; intros dn k w fuel Ho Hen Hv Hfuel;
    (destruct fuel as [|fuel]; [simpl in *; lia|]); cbn [fold_next];
    destruct (set_next_ok w _ _ Hv) as (set1 & Hnext & Hv1 & Hsz1);
    rewrite (bind_ok _ _ _ _ _ Hnext); cbn [head tail] in *.
  - exists set1. split; [|done]. unfold retM. f_equal; [simpl; lia|].
    by destruct w as [[[] ?] [] ? ? ?].
  - rewrite !fmap_cons in *. apply Forall_cons in Hen as [He Hen]. cbn [snd] in *.
    set (w1 := reach_tree w set1 (redundant_flushes (pmem w))).
    erewrite bind_ok; [|erewrite bind_ok; [|apply print_store_line_ok; [exact Ho|apply He]]; reflexivity].
    set (w2 := reach_report w1 _ _ _).
    destruct (IH (dn ++ [(i, e)]) (k + 1) w2 fuel) as (set2 & -> & Hv2 & Hsz2); try done.
    { by rewrite <-app_assoc. } { simpl in *; lia. }
    exists set2. split; [|split; [by rewrite <-app_assoc in Hv2|]].
    + f_equal; [cbn [length]; lia|]. unfold w2. rewrite reach_report_trans.
      unfold w1. by destruct w as [[[] ?] [] ? ? ?].
    + etransitivity; [exact Hsz2|]. exact Hsz1.
Qed.

Lemma stats_tree_ok k w :
  let set := pmem_stores (pmem w) in
  terse (opts (pmem w)) -> own_ok set -> Forall entry_ok (elems set) -> card set < iter_limit ->
  exists set2, stats_tree k w =
    Ok (k + Z.of_nat (length (elems set)))
      (reach_report w (array (pmem w)) set2 (pending_line <$> (view_st <$> elems set))) /\
    own_ok set2 /\ nodes set2 = nodes set /\ card set2 = card set.
Proof.
  intros set Ho Hok Hen Hlim. pose proof (wf_card _ (ok_wf _ _ _ Hok)) as Hsz.
  unfold stats_tree. step. fold set. rewrite (Size_small set (ok_wf _ _ _ Hok)) by lia.
  destruct (Z.eqb_spec (card set) 0) as [E|E].
  - exists set. assert (elems set = []) as ->.
    { apply nil_length_inv. unfold elems. rewrite length_fmap. lia. }
    split; [|done]. unfold retM. simpl. by rewrite Z.add_0_r, reach_report_self.
  - destruct (set_reset_ok w Hok Hlim) as (set1 & Hreset & Hv1 & Hroot1 & Hsz1).
    fold set in Hv1, Hroot1, Hsz1. rewrite (bind_ok _ _ _ _ _ Hreset). step.
    destruct (stats_nodes_ok (nodes set) [] k (reach_tree w set1 (redundant_flushes (pmem w)))
      (S (4 * tree_size (root set1)))) as (set2 & Heq & Hv2 & Hsz2); try done.
    { rewrite Hroot1. unfold nodes. rewrite length_inorder. lia. }
    exists set2. split; [|split; [apply (view_ok _ _ _ _ _ Hv2)|split]].
    + etransitivity; [exact Heq|]. unfold elems. by rewrite length_fmap.
    + by rewrite (view_nodes _ _ _ _ _ Hv2).
    + etransitivity; [exact Hsz2|exact Hsz1].
Qed.

(** ** The outstanding stores *)

Lemma print_store_stats_ok P k w :
  (forall g t, P t -> P (mkTxState g (trans t))) ->
  inv P k w -> k < iter_limit -> o_print_bug_detail (opts (pmem w)) = false ->
  exists a set, let t := view w in
    let n := Z.of_nat (length (current t) + length (older t)) in
    let w' := reach_report w a set (stats_lines t) in
    let w'' := set_pmem (set_not_pmem_num n (pmem w')) w' in
    print_store_stats w = Ok tt w'' /\ inv P k w'' /\ view w'' = t.
Proof.
  intros HP [Hp Hq Ha Ht Hm Htx Hst Hsn Hre] Hk Hd. pose proof Hp as (_ & _ & _ & Htree & _).
  pose proof (wf_card _ (ok_wf _ _ _ (tr_ok _ _ _ _ Ht))) as Hsz.
  pose proof (array_entries_length _ Ha) as Hlen. pose proof (ar_last _ Ha) as H0.
  set (a := array (pmem w)) in *. set (set := pmem_stores (pmem w)) in *.
  destruct (stats_snippets_ok (S (Z.to_nat (snippet_info_index a))) 0 0 w
    (S (S (Z.to_nat (snippet_info_index a))))) as (a1 & Heq1 & H1 & H2 & H3 & H4); try done.
  { exact (ar_shape _ Ha). } { fold a. lia. } { lia. }
  fold a in Heq1, H1, H2, H4. rewrite <-array_entries_from in Heq1.
  set (ms1 := numbered_lines 0 (view_st <$> array_entries a)) in *.
  set (w1 := reach_report w a1 (pmem_stores (pmem w)) ms1) in *.
  assert (all_snippets 0 (fun k s => all_slots s k (stats_slot s)) w =
    Ok (0 + Z.of_nat (length (array_entries a))) w1) as Hall by (unfold all_snippets; step; exact Heq1).
  destruct (stats_tree_ok (0 + Z.of_nat (length (array_entries a))) w1)
    as (set2 & Heq2 & Hok2 & Hn2 & Hsz2); try done.
  { apply (tr_ok _ _ _ _ Ht). } { apply (tr_entries _ _ _ _ Ht). }
  { change (card set < iter_limit). lia. }
  change (pmem_stores (pmem w1)) with set in *.
  exists a1, set2. intros t n w' w''.
  assert (elems set2 = elems set) as Hel by (unfold elems; by rewrite Hn2).
  assert (array_entries a1 = array_entries a) as Hae.
  { rewrite !array_entries_from. apply entries_from_ext; [done|]. intros s Hs. by apply H4. }
  split; [|split].
  - unfold print_store_stats. rewrite (bind_ok _ _ _ _ _ Hall), (bind_ok _ _ _ _ _ Heq2).
    unfold pmod, modM, w'', w'. unfold w1. rewrite reach_report_trans. unfold n, t, view.
    cbn [current older]. rewrite !length_fmap. do 3 f_equal. fold a set. lia.
  - destruct Ha as [Ha Hopen]. split; try done.
    + split; [done|]. change (flushed_num (snippet_info a1 (snippet_info_index a1)) = NO_FLUSHED).
      by rewrite H1, H2.
    + destruct Ht as [T1 T2 T3 T4 T5].
      split; change (pmem_stores (pmem w'')) with set2; rewrite ?Hel; done.
    + exact (HP _ _ Htx).
    + change (card set2 + sn_index (snippet_info a1 (snippet_info_index a1)) <= k).
      rewrite Hsz2, H2, H1. exact Hst.
    + change (snippet_info_index a1 <= k). by rewrite H1.
  - unfold t, view. change (pmem_stores (pmem w'')) with set2. change (array (pmem w'')) with a1.
    by rewrite Hel, Hae.
Qed.

(** ** Printing only *)

(** The code prints and does nothing else. *)
Definition says {St} `{HasGlobals St} (m : M St unit) (s : St) : Prop :=
  exists ms, m s = Ok tt (with_globals (put_msgs ms (the_globals s)) s).

Definition pure_print {St} `{HasGlobals St} (m : M St unit) : Prop := forall s, says m s.

Section Says.
Context {St : Type} `{GlobalsLaws St}.
Context (put_put : forall g1 g2 (s : St), with_globals g2 (with_globals g1 s) = with_globals g2 s).

Lemma print_ret : pure_print (retM tt).
Proof.
  intros s. exists []. unfold retM. f_equal. symmetry. etransitivity; [|apply globals_get].
  f_equal. by destruct (the_globals s).
Qed.

Lemma print_say m : pure_print (say m).
Proof. intros s. by exists [m]. Qed.

Lemma says_bind m (k : unit -> M St unit) s :
  says m s -> (forall g, says (k tt) (with_globals g s)) -> says (bindM m k) s.
Proof.
  intros [ms Hm] Hk. destruct (Hk (put_msgs ms (the_globals s))) as [ms' Hk'].
  exists (ms ++ ms'). rewrite (bind_ok _ _ _ _ _ Hm), Hk', globals_put, put_put.
  by rewrite put_msgs_app.
Qed.

Lemma print_bind m k : pure_print m -> pure_print (k tt) -> pure_print (bindM m k).
Proof. intros Hm Hk s. apply says_bind; auto. Qed.

Lemma print_gets {A} (f : St -> A) k : (forall a, pure_print (k a)) -> pure_print (bindM (getsM f) k).
Proof. intros Hk s. apply (Hk (f s)). Qed.

Lemma print_when b m : pure_print m -> pure_print (whenM b m).
Proof. intros Hm. destruct b; [done|apply print_ret]. Qed.

Lemma print_events {A} (body : Z -> A -> M St unit) evs : forall i,
  (forall j x, pure_print (body j x)) -> pure_print (for_events body i evs).
Proof.
  induction evs as [|x evs IH]; intros i Hb; [apply print_ret|].
  apply print_bind; [apply Hb|by apply IH].
Qed.
End Says.

Lemma world_put_put g1 g2 (w : world) : with_globals g2 (with_globals g1 w) = with_globals g2 w.
Proof. by destruct w. Qed.

(** A printing function, statement by statement. *)
Ltac prints :=
  repeat (cbv beta; match goal with
  | |- pure_print (bindM (pget _) _) => unfold pget
  | |- pure_print (bindM (oget _) _) => unfold oget
  | |- pure_print (bindM (getsM _) _) => apply print_gets; intros
  | |- pure_print (bindM _ _) => apply print_bind; [apply world_put_put| |]
  | |- pure_print (if _ then _ else _) => case_match
  | |- pure_print (for_events _ _ _) => apply print_events; [apply world_put_put|intros]
  | |- pure_print (whenM _ _) => apply print_when
  | |- pure_print (pp_context_opt _) => unfold pp_context_opt
  | |- pure_print (umsg _ _) => apply print_say
  | |- pure_print (pp_ExeContext _) => apply print_say
  | |- pure_print (retM _) => apply print_ret
  end).

Lemma print_redundant_flushes_says : pure_print print_redundant_flushes.
Proof. unfold print_redundant_flushes. prints. Qed.

Lemma print_superfluous_flushes_says : pure_print print_superfluous_flushes.
Proof. unfold print_superfluous_flushes. prints. Qed.

Lemma print_redundant_fences_says : pure_print print_redundant_fences.
Proof. unfold print_redundant_fences. prints. Qed.

(** ** The end of the run *)

Definition summary_line (n : Z) : msg := Umsg "ERROR SUMMARY: %lu errors\n" [Num n].

(** All the warnings of a tracker. *)
Definition tracker_errors (t : tracker) : Z :=
  Z.of_nat (length (redundant t)) + Z.of_nat (length (superfluous t)) +
  Z.of_nat (length (current t) + length (older t)).

Definition say_all (ms : list msg) (w : world) : world :=
  with_globals (put_msgs ms (the_globals w)) w.

Lemma when_says b (m : PM unit) w :
  pure_print m -> exists ms, whenM b m w = Ok tt (say_all ms w) /\ (b = false -> ms = []).
Proof.
  intros Hm. destruct b; [destruct (Hm w) as [ms Heq]; by exists ms|].
  exists []. split; [|done]. by destruct w as [[[] ?] ? ? ? ?].
Qed.
