(* ===== verification/Sample.v ===== *)
(** A small environment, on which the theorems about runs of the tool are
    instantiated: a client program with one call site and no files. *)
From S2P Require Import Prelude OSet Region Core Trans Pmem Store Report Client.

#[export] Instance sample_core : CoreEnv :=
  {| stack_trace _ := [1]; describe_IP _ := []; apply_StackTrace l _ := l; clo_xml := false |}.

(** Memory from the allocator holds anything. *)
#[export] Instance sample_client : ClientEnv :=
  {| string_at _ := ""; keyword_id _ := CmdUnknown; readlink _ := None; cpuinfo := None;
     malloc_slots _ := set_inEpoch true (set_index 77 pmem_st_zero);
     malloc_snippets _ := mkSnippet 5 6 7 8 ALL_FLUSHED |}.

Definition sample_trans : transaction_ops :=
  mkTrans (OSetGen_Create None) (OSetGen_Create None) [] false false (OSetGen_Create None) [] []
    false false false.

(** Thread 1 runs; nothing is initialized but the options. *)
Definition sample_world (o : options) : world :=
  mkWorld (mkTxState (mkGlobals 1 (Some 9) 0 0 []) sample_trans)
    (mkPmem (OSetGen_Create None) 0 0 0 (mkArray 0 malloc_slots malloc_snippets) None
       (OSetGen_Create None) 0 0 [] [] [] o false 0 [] 0 (OSetGen_Create None) 0
       (OSetGen_Create None) 0 0 0)
    0 (mkStrand None 0) [].

(** The options after the start, without any on the command line. *)
Definition default_options : options := pmc_pre_clo_init options_zero.

(** A run ends normally, in a state with a property. *)
Definition ends_with {S A} (p : S -> bool) (r : res S A) : bool :=
  match r with Ok _ s => p s | Stop _ _ => false end.

Lemma ends_with_ok {S} (p : S -> bool) (r : res S unit) :
  ends_with p r = true -> exists s, r = Ok tt s /\ p s = true.
Proof. destruct r as [[] s|]; [|done]. by exists s. Qed.
