(* ===== verification/Refine.v ===== *)
(** The tool implements the tracker: whole runs from the start of the tool on.

    The handlers are run on a sequence of mappings, stores, flushes and fences
    and compared with the specification, from the state the initialization
    leaves on to the report at exit. *)
From S2P Require Import Prelude OSet OSetTree OSetSpec Region RegionSpec Core Trans Pmem Store Flush Report Client Spec StoreSpec MapSpec FlushSpec FenceSpec ReportSpec Sample.
Local Open Scope pm_scope.

(** ** The tracker only depends on the bytes that are mapped *)

Lemma map_after_same ev m1 m2 :
  event_ok ev = true -> same_bytes m1 m2 -> same_bytes (map_after ev m1) (map_after ev m2).
Proof.
  intros Hev (H1 & H2 & Hb). destruct ev as [a s|a s|a s v|lo n|]; simpl in *; try done;
    unfold mapping_ok in Hev; apply andb_true_iff in Hev as [[_ Hs]%andb_true_iff _]; apply Z.ltb_lt in Hs.
  - split; [by constructor|]. split; [by constructor|]. intros b. by rewrite !in_ranges_cons, Hb.
  - split; [apply unmap_sized; (done || lia)|]. split; [apply unmap_sized; (done || lia)|].
    intros b. by rewrite !unmap_spec, Hb by lia.
Qed.

Lemma track_same check ev m1 m2 t :
  event_ok ev = true -> same_bytes m1 m2 -> track check m1 ev t = track check m2 ev t.
Proof.
  intros Hev Hm. destruct ev as [a s|a s|a s v|lo n|]; simpl; try done.
  rewrite (same_bytes_meets m1 m2); [done|done|]. simpl in Hev. unfold range_ok in Hev.
  apply andb_true_iff in Hev as [[_ Hs]%andb_true_iff _]. by apply Z.ltb_lt.
Qed.

Lemma track_all_same check evs : forall m1 m2 t,
  same_bytes m1 m2 -> forallb event_ok evs = true ->
  track_all check m1 evs t = track_all check m2 evs t.
Proof.
  induction evs as [|ev evs IH]; intros m1 m2 t Hm Hok; [done|]. cbn [forallb track_all] in *.
  apply andb_true_iff in Hok as [Hev Hok]. rewrite (track_same check ev m1 m2) by done.
  apply IH; [by apply map_after_same|done].
Qed.

Lemma never_cuts_same check evs : forall m1 m2 t,
  same_bytes m1 m2 -> forallb event_ok evs = true ->
  never_cuts check m1 evs t = never_cuts check m2 evs t.
Proof.
  induction evs as [|ev evs IH]; intros m1 m2 t Hm Hok; [done|]. cbn [forallb never_cuts] in *.
  apply andb_true_iff in Hok as [Hev Hok]. rewrite (track_same check ev m1 m2) by done.
  f_equal. apply IH; [by apply map_after_same|done].
Qed.

Section Run.
Context `{CoreEnv}.

(** The handler of an event of the client program. *)
Definition handle_event (ev : event) : PM unit :=
  match ev with
  | EvMap a s => register_mapping a s
  | EvUnmap a s => remove_mapping a s
  | EvStore a s v => trace_pmem_store a s v
  | EvFlush a s => do_flush a s
  | EvFence => do_fence
  end.

Fixpoint handle_events (evs : list event) : PM unit :=
  match evs with
  | [] => retM tt
  | ev :: evs => handle_event ev ;;; handle_events evs
  end.

(** The registers of warnings only grow. *)
Lemma track_grows check maps ev t :
  (length (redundant t) <= length (redundant (track check maps ev t)))%nat /\
  (length (superfluous t) <= length (superfluous (track check maps ev t)))%nat.
Proof.
  destruct ev as [a s|a s|a s v|a s|]; simpl; [lia|lia|destruct (existsb _ _); simpl; lia| |lia].
  rewrite !length_app. lia.
Qed.

Lemma track_all_grows check evs : forall maps t,
  (length (redundant t) <= length (redundant (track_all check maps evs t)))%nat /\
  (length (superfluous t) <= length (superfluous (track_all check maps evs t)))%nat.
Proof.
  induction evs as [|ev evs IH]; intros maps t; [done|]. cbn [track_all].
  destruct (track_grows check maps ev t), (IH (map_after ev maps) (track check maps ev t)). lia.
Qed.

(** The registers have room for all the warnings of a run. *)
Definition warnings_fit (t : tracker) : Prop :=
  Z.of_nat (length (redundant t)) <= MAX_FLUSH_ERROR_EVENTS /\
  Z.of_nat (length (superfluous t)) <= MAX_FLUSH_ERROR_EVENTS.

Lemma mapping_ok_elim a s : mapping_ok a s = true -> 1 <= a /\ 0 < s /\ a + s + 1 < word_size.
Proof.
  unfold mapping_ok. rewrite !andb_true_iff, Z.leb_le, !Z.ltb_lt. tauto.
Qed.

(** One event, seen through the mapped bytes. *)
Lemma handle_event_ok P `{!TxQuiet P} k w maps ev :
  inv P k w -> k + 1 < iter_limit -> event_ok ev = true -> no_cut ev (view w) = true ->
  same_bytes (mapped w) maps ->
  let t := track (check_flush (opts (pmem w))) maps ev (view w) in
  warnings_fit t ->
  exists w', handle_event ev w = Ok tt w' /\ inv P (k + 1) w' /\
    opts (pmem w') = opts (pmem w) /\ same_bytes (mapped w') (map_after ev maps) /\ view w' = t.
Proof.
  intros Hinv Hk Hok Hcut Hm t [Hr Hs]. unfold t in *.
  rewrite <-(track_same _ ev (mapped w) maps) in * by done. destruct ev as [a s|a s|a s v|a s|]; simpl.
  - destruct (mapping_ok_elim a s Hok) as (H1 & H2 & H3).
    destruct (register_mapping_ok P k w a s maps) as (w' & ? & ? & ? & ? & ?); try done. by exists w'.
  - destruct (mapping_ok_elim a s Hok) as (H1 & H2 & H3).
    destruct (remove_mapping_ok P k w a s maps) as (w' & ? & ? & ? & ? & ?); try done. by exists w'.
  - destruct (trace_pmem_store_ok P k w a s v) as (w' & ? & ? & ? & Hm' & ?); try done.
    exists w'. by rewrite Hm'.
  - destruct (do_flush_ok P k w a s) as (w' & ? & ? & ? & Hm' & ?); try done.
    exists w'. by rewrite Hm'.
  - destruct (do_fence_ok P k w) as (w' & ? & ? & ? & Hm' & ?); [|done|done|].
    + intros g x. by apply tx_glob.
    + exists w'. by rewrite Hm'.
Qed.

Lemma handle_events_ok P `{!TxQuiet P} evs : forall k w maps,
  inv P k w -> k + Z.of_nat (length evs) < iter_limit -> forallb event_ok evs = true ->
  same_bytes (mapped w) maps ->
  let check := check_flush (opts (pmem w)) in
  never_cuts check maps evs (view w) = true ->
  warnings_fit (track_all check maps evs (view w)) ->
  exists w', handle_events evs w = Ok tt w' /\ inv P (k + Z.of_nat (length evs)) w' /\
    opts (pmem w') = opts (pmem w) /\ same_bytes (mapped w') (maps_after maps evs) /\
    view w' = track_all check maps evs (view w).
Proof.
  induction evs as [|ev evs IH]; intros k w maps Hinv Hk Hok Hm check Hcut Hfit.
  { exists w. split; [done|]. split; [|done]. by replace (k + Z.of_nat (length [])) with k by (simpl; lia). }
  cbn [length] in *. cbn [forallb never_cuts track_all] in *.
  apply andb_true_iff in Hok as [Hok1 Hok2], Hcut as [Hcut1 Hcut2].
  destruct (handle_event_ok P k w maps ev) as (w1 & Heq & Hinv1 & Ho1 & Hm1 & Hv1); try done; [lia| |].
  { destruct Hfit as [Hr Hs].
    destruct (track_all_grows check evs (map_after ev maps) (track check maps ev (view w))).
    split; fold check; lia. }
  cbn [handle_events]. rewrite (bind_ok _ _ _ _ _ Heq).
  destruct (IH (k + 1) w1 (map_after ev maps) Hinv1) as (w2 & Heq2 & Hinv2 & Ho2 & Hm2 & Hv2); try done.
  - lia.
  - by rewrite Ho1, Hv1.
  - by rewrite Ho1, Hv1.
  - exists w2. split; [done|]. split; [|split; [congruence|split; [done|]]].
    + by replace (k + Z.of_nat (S (length evs))) with (k + 1 + Z.of_nat (length evs)) by lia.
    + by rewrite Hv2, Ho1, Hv1.
Qed.
End Run.

(** ** Without transactions *)

(** No thread is in a transaction, and stores outside of transactions are
    fine. *)
Record tx_idle (t : tx_state) : Prop := {
  id_threads : root (threads (trans t)) = Null;
  id_only : transactions_only (trans t) = false;
  id_verbose : verbose (trans t) = false;
  id_transactions : OSetGen_Size (transactions (trans t)) = 0;
  id_events : oot_stores (trans t) = [] /\ cross_tx_evs (trans t) = [] /\
    redundant_logging_tx_evs (trans t) = [];
}.

#[export] Instance tx_idle_quiet : TxQuiet tx_idle.
Proof.
  split; [|by intros g t []]. intros st t Ht. exists t. split; [|done].
  destruct Ht as [Hth Ho Hv _ _]. unfold handle_tx_store. step.
  destruct (_ =? 1); [done|]. step.
  assert (thread_lookup (running_tid (glob t)) t = Ok None t) as Hl.
  { unfold thread_lookup. step. unfold OSetGen_LookupNode. by rewrite Hth. }
  rewrite (bind_ok _ _ _ _ _ Hl). step. rewrite Ho. step. step. by rewrite Hv.
Qed.

(** ** The start of the tool *)

Section Start.
Context `{CoreEnv} `{ClientEnv}.

Lemma tree_ok_empty n : tree_ok (new_pmem_stores false) word_max word_max n.
Proof.
  split; [|constructor|constructor|split; [constructor|by left]|done].
  split; [|done|constructor]. split; try done; [|constructor..]. intros [] ? ? ?; done.
Qed.

(** After the initialization nothing is tracked. *)
Lemma init_ok w :
  let o := opts (pmem w) in
  plain o -> clo_verbosity (the_globals w) <= 1 -> o_transactions_only o = false ->
  exists w', pmc_post_clo_init w = Ok tt w' /\ inv tx_idle 0 w' /\
    opts (pmem w') = set_flush_align_size read_cache_line_size o /\ mapped w' = [] /\
    view w' = mkTracker [] [] [] [].
Proof.
  intros o Hp Hv Hto. unfold pmc_post_clo_init. pose proof Hp as (H1 & H2 & H3 & H4 & H5 & H6).
  step. step. step. fold o. step. step. rewrite H2. cbn [whenM].
  eexists. split; [reflexivity|].
  destruct (array_reset (mkArray 0 malloc_slots malloc_snippets)) as (Ha & Hae & Haf).
  split; [|split; [done|split; [done|]]].
  - split.
    + done.
    + done.
    + exact Ha.
    + cbn [pmem_stores pmem]. simpl. rewrite H4. apply tree_ok_empty.
    + split; [apply region_set_empty|constructor].
    + split; [done|exact Hto| |done|done]. simpl. apply Z.ltb_ge. exact Hv.
    + change (fill _) with 0. done.
    + done.
    + done.
  - unfold view. by f_equal.
Qed.

(** A run up to the last event. *)
Definition session (evs : list event) : PM unit := pmc_post_clo_init ;;; handle_events evs.

Definition no_pending : tracker := mkTracker [] [] [] [].

Lemma session_ok evs w :
  let o := opts (pmem w) in
  let t := track_all (check_flush o) [] evs no_pending in
  plain o -> clo_verbosity (the_globals w) <= 1 -> o_transactions_only o = false ->
  forallb event_ok evs = true -> Z.of_nat (length evs) < iter_limit ->
  never_cuts (check_flush o) [] evs no_pending = true -> warnings_fit t ->
  exists w', session evs w = Ok tt w' /\ inv tx_idle (Z.of_nat (length evs)) w' /\
    view w' = t /\ opts (pmem w') = set_flush_align_size read_cache_line_size o /\
    same_bytes (mapped w') (maps_after [] evs).
Proof.
  intros o t Hp Hv Hto Hevs Hlen Hcut Hfit. unfold session.
  destruct (init_ok w Hp Hv Hto) as (w1 & Heq1 & Hinv1 & Hc1 & Hm1 & Hv1).
  rewrite (bind_ok _ _ _ _ _ Heq1). fold o in Hc1.
  assert (check_flush (opts (pmem w1)) = check_flush o) as Hc by by rewrite Hc1.
  change (mkTracker [] [] [] []) with no_pending in Hv1.
  destruct (handle_events_ok tx_idle evs 0 w1 [] Hinv1) as (w2 & Heq2 & Hinv2 & Ho2 & Hm2 & Hv2); try done.
  - by rewrite Hm1.
  - by rewrite Hc, Hv1.
  - by rewrite Hc, Hv1.
  - exists w2. split; [done|]. split; [done|]. split; [by rewrite Hv2, Hc, Hv1|].
    split; [congruence|done].
Qed.

(** ** The end of a run *)

Lemma tx_summary_idle t : tx_idle t -> print_tx_summary t = Ok tt t.
Proof.
  intros [_ _ _ Htr (H1 & H2 & H3)]. unfold print_tx_summary. step. unfold oot_stores_reg.
  rewrite H1. step.
  assert (print_cross_evs t = Ok tt t) as Hc by (unfold print_cross_evs, cross_tx_reg; step; by rewrite H2).
  assert (print_redundant_logging_evs t = Ok tt t) as Hr
    by (unfold print_redundant_logging_evs, redundant_logging_tx_reg; step; by rewrite H3).
  rewrite (bind_ok _ _ _ _ _ Hc), (bind_ok _ _ _ _ _ Hr). step. by rewrite Htr.
Qed.

Lemma in_tx_ok {A} (m : T A) w a : m (w_tx w) = Ok a (w_tx w) -> in_tx m w = Ok a w.
Proof. intros Hm. unfold in_tx, zoomM. rewrite Hm. by destruct w. Qed.

Lemma tx_err_idle t : tx_idle t -> get_tx_all_err t = Ok 0 t.
Proof.
  intros [_ _ _ Htr (H1 & H2 & H3)]. unfold get_tx_all_err. do 4 step.
  unfold oot_stores_reg, cross_tx_reg, redundant_logging_tx_reg. by rewrite Htr, H1, H2, H3.
Qed.

Lemma summary_ok w :
  no_other_errors (pmem w) -> tx_idle (w_tx w) ->
  print_general_summary w =
    Ok tt (say_all [summary_line (redundant_flushes_reg (pmem w) + superfluous_flushes_reg (pmem w) +
      not_pmem_num (pmem w))] w).
Proof.
  intros (H1 & H2 & H3 & H4 & H5) Htx. unfold print_general_summary.
  erewrite bind_ok; [|unfold all_errors; step;
    rewrite (bind_ok _ _ _ _ _ (in_tx_ok _ _ _ (tx_err_idle _ Htx))); reflexivity].
  unfold multiple_stores_reg, redundant_fence_reg. rewrite H1, H2, H3, H4, H5.
  unfold umsg, say, modM. f_equal. unfold say_all. simpl. rewrite !Z.add_0_r. done.
Qed.

(** The report at the end lists the stores that are not persistent and counts
    all the errors. *)
Lemma fini_ok k w :
  let o := opts (pmem w) in
  let t := view w in
  inv tx_idle k w -> k < iter_limit ->
  o_print_bug_detail o = false -> print_summary o = true -> error_summary o = true ->
  exists w' mid, pmc_fini w = Ok tt w' /\ view w' = t /\
    output (the_globals w') =
      summary_line (tracker_errors t) :: rev mid ++ rev (stats_lines t) ++ output (the_globals w) /\
    (redundant t = [] -> superfluous t = [] -> mid = []).
Proof.
  intros o t Hinv Hk Hd Hps Hes. pose proof Hinv as [Hp Hq Ha Ht Hm Htx Hst Hsn Hre].
  pose proof Hp as (Htm & Hlog & Hog & Htree & _).
  fold o in Htm, Hlog, Hog. pose proof iter_limit_array.
  unfold pmc_fini. step. fold o. rewrite Hog. step. step. rewrite (proj2 (Z.leb_gt _ _)) by lia.
  step. step. fold o. rewrite Hlog. step. step. fold o. rewrite Hps.
  cbn [whenM]. unfold print_pmem_stats. step. fold o. rewrite Hd.
  destruct (print_store_stats_ok tx_idle k w (fun g x => tx_glob g x) Hinv Hk Hd)
    as (a & set & Heq & Hinv' & Hv').
  fold t in Heq, Hinv', Hv'. rewrite (bind_ok _ _ _ _ _ Heq).
  set (w1 := set_pmem _ _) in *. destruct Hinv' as [_ Hq1 _ _ _ Htx1 _ _ _].
  rewrite (bind_ok _ _ _ _ _ (in_tx_ok _ _ _ (tx_summary_idle _ Htx1))).
  assert (print_redundant_fences w1 = Ok tt w1) as Hrf.
  { unfold print_redundant_fences, redundant_fence_reg. step. destruct Hq1 as (_ & -> & _). done. }
  rewrite (bind_ok _ _ _ _ _ Hrf). step.
  destruct (when_says (negb (redundant_flushes_reg (pmem w1) =? 0)) _ w1 print_redundant_flushes_says)
    as (ms1 & Hw1 & Hz1). rewrite (bind_ok _ _ _ _ _ Hw1). step.
  destruct (when_says (negb (superfluous_flushes_reg (pmem (say_all ms1 w1)) =? 0)) _ (say_all ms1 w1)
    print_superfluous_flushes_says) as (ms2 & Hw2 & Hz2). rewrite (bind_ok _ _ _ _ _ Hw2). do 2 step.
  set (w3 := say_all ms2 (say_all ms1 w1)).
  change (opts (pmem w3)) with o. rewrite Htm. step. step. change (opts (pmem w3)) with o. rewrite Hes.
  rewrite (bind_ok _ _ _ _ _ (summary_ok w3 Hq1 ltac:(by apply (tx_glob _ _ ltac:(apply tx_glob; exact Htx1))))).
  cbn [whenM]. exists (say_all [summary_line (tracker_errors t)] w3), (ms1 ++ ms2).
  split; [|split; [exact Hv'|split]].
  - unfold retM. do 4 f_equal. unfold tracker_errors, redundant_flushes_reg, superfluous_flushes_reg.
    unfold t at 1 2. unfold view. cbn [redundant superfluous]. by rewrite !length_fmap.
  - simpl. rewrite !rev_app_distr, <-!app_assoc. done.
  - unfold t, view. cbn [redundant superfluous]. intros Er Es.
    apply fmap_nil_inv in Er, Es. rewrite Hz1, Hz2; [done|..].
    + unfold superfluous_flushes_reg. change (superfluous_flushes _) with (superfluous_flushes (pmem w)).
      by rewrite Es.
    + unfold redundant_flushes_reg. change (redundant_flushes _) with (redundant_flushes (pmem w)).
      by rewrite Er.
Qed.

(** ** What is promised *)

(** A run the promise is about: the options only track stores, flushes and
    fences; ranges do not reach the ends of the address space; the run is short
    enough for the iterators; no flush cuts a dirty store in two; the warnings
    fit into their registers. *)
Record run_ok (w : world) (evs : list event) : Prop := {
  ro_plain : plain (opts (pmem w));
  ro_verbosity : clo_verbosity (the_globals w) <= 1;
  ro_tx : o_transactions_only (opts (pmem w)) = false;
  ro_events : forallb event_ok evs = true;
  ro_length : Z.of_nat (length evs) < iter_limit;
  ro_cuts : never_cuts (check_flush (opts (pmem w))) [] evs no_pending = true;
  ro_warnings : warnings_fit (track_all (check_flush (opts (pmem w))) [] evs no_pending);
}.

(** The report is asked for, without call stacks. *)
Record report_on (o : options) : Prop := {
  rp_detail : o_print_bug_detail o = false;
  rp_summary : print_summary o = true;
  rp_errors : error_summary o = true;
}.

(** C1: a run of the tool from its initialization on (pmc_post_clo_init, then
    the handlers of the mappings the program registers and removes, of its
    stores, flushes and fences, in any order) returns, and what the array of
    stores, the tree and the registers of warnings then hold is exactly the
    state the abstract tracker reaches on the same events.  This is for the runs of [run_ok]:
    no flush cuts a store that is still tracked and dirty (it covers the whole of it or misses it;
    otherwise bytes can be lost, see [cut_flush_loses_bytes]), the options ask
    only for stores, flushes and fences to be tracked, with or without the check of flushes, there are no transactions and no
    verbose messages, the ranges lie inside the address space, and
    there are fewer events than the iterator bears and fewer warnings than the registers hold. *)
Theorem run_refines_tracker evs w (Hrun : run_ok w evs) :
  exists w', session evs w = Ok tt w' /\
    view w' = track_all (check_flush (opts (pmem w))) [] evs no_pending.
Proof.
  destruct Hrun as [H1 H2 H3 H5 H6 H7 H8].
  destruct (session_ok evs w) as (w' & Heq & _ & Hv & _ & _); try done. by exists w'.
Qed.

(** C2: after a run of [run_ok], in particular one in which no flush cuts a store that is
    still tracked and dirty, a store is still tracked exactly if the program made it
    into memory that was mapped then and no flush that hits it, followed by a
    fence, came after it. *)
Theorem tracked_iff_not_persisted evs w (Hrun : run_ok w evs) :
  exists w', session evs w = Ok tt w' /\
    forall a s, (exists fl, mkPending a s fl ∈ older (view w') ++ current (view w')) <->
      exists evs1 v evs2, evs = evs1 ++ EvStore a s v :: evs2 /\
        existsb (meets a s) (maps_after [] evs1) = true /\ ~ persisted_by a s evs2.
Proof.
  destruct Hrun as [H1 H2 H3 H5 H6 H7 H8].
  destruct (session_ok evs w) as (w' & Heq & _ & Hv & _ & _); try done. exists w'. split; [done|].
  intros a s. rewrite Hv, track_all_outcome. apply not_persisted_spec.
Qed.

(** C5: after a run of [run_ok] (no flush cuts a store that is still tracked and dirty, options that ask only for stores, flushes and
    fences, no transactions), and with the summary and the count of errors asked for and the
    detailed report not, the report at exit prints one line for every store that is not
    persistent, with its address, its size and whether it was flushed, the
    stores since the last fence first and numbered; the error count it ends with is the number of
    these stores plus the numbers of redundant and superfluous flushes. *)
Theorem exit_report_exact evs w (Hrun : run_ok w evs) (Hrep : report_on (opts (pmem w))) :
  let t := track_all (check_flush (opts (pmem w))) [] evs no_pending in
  exists w' before mid, (session evs ;;; pmc_fini) w = Ok tt w' /\
    output (the_globals w') = summary_line (tracker_errors t) :: mid ++ rev (stats_lines t) ++ before /\
    (check_flush (opts (pmem w)) = false -> mid = []).
Proof.
  intros t. destruct Hrun as [H1 H2 H3 H5 H6 H7 H8], Hrep as [R1 R2 R3].
  destruct (session_ok evs w) as (w1 & Heq & Hinv & Hv & Ho & _); try done.
  destruct (fini_ok _ w1 Hinv H6) as (w' & mid & Heq' & _ & Hout & Hmid); [by rewrite Ho..|].
  exists w', (output (the_globals w1)), (rev mid). rewrite (bind_ok _ _ _ _ _ Heq), Hv in *.
  split; [done|]. split; [done|]. intros Hc. fold t in Hmid. unfold t in Hmid. rewrite Hc in Hmid.
  destruct (track_all_unchecked evs [] no_pending) as [E1 E2]. by rewrite (Hmid E1 E2).
Qed.

(** The arguments of a client request. *)
Definition request_args (l : list Z) (i : nat) : Z := nth i l 0.

(** The code of [VG_USERREQ__PMC_CHECK_IS_PMEM_MAPPING]. *)
Definition check_is_pmem_mapping : Z := PC_BASE + 3.

(** C6: after any run of [run_ok], the client request that asks whether a range is a
    registered mapping is answered exactly: 0 if none of its bytes is in a
    mapping that was registered and not removed since, 1 if all of them are,
    2 if some are and some are not. *)
Theorem check_mapping_exact evs w base sz (Hrun : run_ok w evs)
    (Hrange : 0 <= base /\ 0 < sz /\ base + sz < word_size) :
  let mapped_byte := in_ranges (maps_after [] evs) in
  let bytes := fun b => base <= b < base + sz in
  exists w' n, session evs w = Ok tt w' /\
    pmc_handle_client_request (request_args [check_is_pmem_mapping; base; sz]) w' =
      Ok (true, Some n) w' /\
    (n = 0 /\ (forall b, bytes b -> ~ mapped_byte b) \/
     n = 1 /\ (forall b, bytes b -> mapped_byte b) \/
     n = 2 /\ (exists b, bytes b /\ mapped_byte b) /\ exists b, bytes b /\ ~ mapped_byte b).
Proof.
  intros mapped_byte bytes. destruct Hrun as [H1 H2 H3 H5 H6 H7 H8].
  destruct (session_ok evs w) as (w' & Heq & Hinv & _ & _ & (_ & _ & Hm)); try done.
  exists w', (is_in_mapping_set (region_at base sz) (pmem_mappings (pmem w'))).
  split; [done|]. split; [done|].
  assert (forall b, set_covers (pmem_mappings (pmem w')) b <-> mapped_byte b) as Hb.
  { intros b. rewrite <-in_ranges_set. apply Hm. }
  destruct (is_in_mapping_set_spec (pmem_mappings (pmem w')) (region_at base sz)
    (mp_ok _ _ _ (iv_maps _ _ _ Hinv)) Hrange) as [[-> Hc]|[[-> Hc]|[-> [Hc Hc']]]].
  - left. split; [done|]. intros b Hbb Hx. apply (Hc b Hbb). by apply Hb.
  - right. left. split; [done|]. intros b Hbb. by apply Hb, (Hc b Hbb).
  - right. right. split; [done|]. split.
    + destruct Hc as (b & Hbb & Hx). exists b. split; [done|by apply Hb].
    + destruct Hc' as (b & Hbb & Hx). exists b. split; [done|]. by rewrite <-Hb.
Qed.
End Start.

(** ** Examples *)

(** Stores to mapped and other memory, of which the first two are flushed before the fence, one of
    them twice. *)
Definition sample_events : list event :=
  [EvMap 1000 500; EvMap 1500 500; EvMap 5000 100; EvUnmap 5000 50; EvStore 5010 4 1; EvStore 1100 16 5; EvStore 1300 8 6; EvFlush 1280 64; EvFlush 1088 64; EvFlush 1280 64;
   EvStore 1500 4 7; EvStore 3000 4 7; EvFence; EvStore 1600 8 9; EvFlush 1600 64].

(** With the check of flushes switched on. *)
Definition checked_options : options := set_check_flush true default_options.

Lemma sample_run_ok : run_ok (sample_world checked_options) sample_events.
Proof. split; vm_compute; repeat split; done. Qed.

Lemma run_refines_tracker_witness :
  exists w', session sample_events (sample_world checked_options) = Ok tt w' /\
    view w' = mkTracker [mkPending 1500 4 false] [mkPending 1600 8 true] [mkPending 1300 8 true] [].
Proof. exact (run_refines_tracker sample_events (sample_world checked_options) sample_run_ok). Defined.

Lemma tracked_iff_not_persisted_witness :
  exists w', session sample_events (sample_world checked_options) = Ok tt w' /\
    forall a s, (exists fl, mkPending a s fl ∈ older (view w') ++ current (view w')) <->
      exists evs1 v evs2, sample_events = evs1 ++ EvStore a s v :: evs2 /\
        existsb (meets a s) (maps_after [] evs1) = true /\ ~ persisted_by a s evs2.
Proof. exact (tracked_iff_not_persisted sample_events (sample_world checked_options) sample_run_ok). Defined.

Lemma exit_report_exact_witness :
  exists w' before mid,
    (session sample_events ;;; pmc_fini) (sample_world checked_options) = Ok tt w' /\
    output (the_globals w') = summary_line 3 :: mid ++
      rev (stats_lines (mkTracker [mkPending 1500 4 false] [mkPending 1600 8 true] [mkPending 1300 8 true] []))
      ++ before /\
    (true = false -> mid = []).
Proof.
  apply (exit_report_exact sample_events (sample_world checked_options) sample_run_ok).
  split; reflexivity.
Defined.

Lemma check_mapping_exact_witness :
  let mapped_byte := in_ranges (maps_after [] sample_events) in
  let bytes := fun b => 5040 <= b < 5040 + 20 in
  exists w' n, session sample_events (sample_world checked_options) = Ok tt w' /\
    pmc_handle_client_request (request_args [check_is_pmem_mapping; 5040; 20]) w' =
      Ok (true, Some n) w' /\
    (n = 0 /\ (forall b, bytes b -> ~ mapped_byte b) \/
     n = 1 /\ (forall b, bytes b -> mapped_byte b) \/
     n = 2 /\ (exists b, bytes b /\ mapped_byte b) /\ exists b, bytes b /\ ~ mapped_byte b).
Proof.
  apply (check_mapping_exact sample_events (sample_world checked_options) 5040 20 sample_run_ok).
  vm_compute. repeat split; congruence.
Defined.

(** A store of 16 bytes, a store elsewhere with its flush, which closes a
    snippet of the array; then a new store into the first one, and a flush of
    the last 12 bytes only. *)
Definition cut_events : list event :=
  [EvMap 1000 1000; EvStore 1100 16 5; EvStore 1300 8 5; EvFlush 1296 16; EvStore 1108 4 7;
   EvFlush 1108 12; EvFence].

(** Some pending store has the byte. *)
Definition tracks_byte (t : tracker) (b : Z) : bool :=
  existsb (fun p => (p_addr p <=? b) && (b <? p_addr p + p_size p)) (older t ++ current t).

(** Some flush has the byte. *)
Definition flushes_byte (evs : list event) (b : Z) : bool :=
  existsb (fun ev => match ev with EvFlush lo n => (lo <=? b) && (b <? lo + n) | _ => false end) evs.

(** Without the hypothesis that no flush cuts a store the tool can lose
    bytes: in this run the byte 1100 is stored and never flushed, and after the
    fence no store that contains it is tracked any more.  do_flush appends the
    unflushed part of the store it cuts to the last snippet without widening
    that snippet's bounds, and the bounds then let the same flush mark the
    whole snippet as flushed. *)
Example cut_flush_loses_bytes :
  flushes_byte cut_events 1100 = false /\
  exists w', session cut_events (sample_world default_options) = Ok tt w' /\
    tracks_byte (view w') 1100 = false.
Proof.
  split; [reflexivity|].
  destruct (ends_with_ok (fun w => negb (tracks_byte (view w) 1100))
    (session cut_events (sample_world default_options))) as (w' & Heq & Hb);
    [vm_compute; reflexivity|].
  exists w'. split; [exact Heq|]. by apply negb_true_iff.
Qed.
