(* ===== verification/Overwrite.v ===== *)
(** Overwritten stores: what [split_stores] leaves of a store of the array and which part it
    reports. *)
From S2P Require Import Prelude OSet OSetTree OSetSpec Region RegionSpec Core Trans Pmem Store Flush Report Client Spec StoreSpec Sample Refine.
Local Open Scope Z_scope.
Local Open Scope pm_scope.

(** The next store number is taken. *)
Definition bump (w : world) : world :=
  with_globals (set_db_pmem_store_index (db_pmem_store_index (the_globals w) + 1) (the_globals w)) w.

Definition warned (e : pmem_st) (w : world) : world :=
  set_pmem (set_multiple_stores (multiple_stores (pmem w) ++
    [set_index (db_pmem_store_index (the_globals w)) e]) (pmem w)) (bump w).

Lemma warn_ok w e p :
  multiple_stores_reg (pmem w) < MAX_MULT_OVERWRITES ->
  add_mult_overwrite_warn (Some e) p w = Ok tt (warned e w).
Proof.
  intros Hlim. unfold add_mult_overwrite_warn.
  rewrite (bind_ok _ _ w (db_pmem_store_index (the_globals w)) (bump w)) by done. step. step.
  unfold add_warning_event, multiple_stores_reg in *. simpl.
  rewrite (proj2 (Z.eqb_neq _ _)) by lia. done.
Qed.

(** The tree is ordered by the numbers of the stores, which are below the next one. *)
Record numbered_tree (w : world) : Prop := {
  nt_ok : own_ok (pmem_stores (pmem w));
  nt_index : Forall (fun e => index e < db_pmem_store_index (the_globals w)) (elems (pmem_stores (pmem w)));
  nt_size : card (pmem_stores (pmem w)) + 1 < iter_limit;
}.

(** A store with the next number goes into the tree; the iterator can be set. *)
Lemma tree_insert_ok set n e :
  own_ok set -> Forall (fun e => index e < n) (elems set) -> card set + 1 < iter_limit -> index e = n ->
  exists set1, OSetGen_Insert set e = Some set1 /\ elems set1 = elems set ++ [e] /\
    forall k, exists set2, OSetGen_ResetIterAt set1 k = Some set2 /\ elems set2 = elems set1.
Proof.
  intros Hok Hidx Hsz He.
  destruct (Insert_new cmp_pmem_own_st (fun _ => True) (fun _ => True) set e Hok I)
    as (set1 & ms1 & ms3 & Hi & Hok1 & H1 & H2 & Ha & Hb & Hn & _).
  { eapply Forall_impl; [exact Hidx|]. intros x Hx. simpl in *. unfold cmp_pmem_own_st. repeat ztest; lia. }
  assert (ms3 = []) as ->.
  { destruct ms3 as [|m ms3]; [done|]. apply Forall_cons in Hb as [Hb _]. simpl in Hb.
    unfold elems in Hidx. rewrite H1, fmap_app, fmap_cons in Hidx.
    apply Forall_app in Hidx as [_ [Hm _]%Forall_cons]. unfold cmp_pmem_own_st in Hb.
    revert Hb. repeat ztest; lia. }
  exists set1. split; [done|]. split.
  - unfold elems. rewrite H1, H2, !fmap_app. simpl. by rewrite app_nil_r.
  - intros k. destruct (key_split cmp_pmem_own_st (fun _ => True) (fun _ => True) set1 k Hok1 I)
      as (l1 & l2 & l3 & Heq & L1 & L2 & L3).
    destruct (ResetIterAt_ok set1 k l1 l2 l3) as (st & ks & -> & _); try done.
    + apply small_height; [apply (ok_wf _ _ _ Hok1)|lia].
    + by eexists.
Qed.

(** What is left of a slot. *)
Definition left_of (e : pmem_st) (b : Z) : Prop := is_delete e = false /\ covers e b.

(** What a split does: one warning, for the bytes of both stores; the other bytes of the old store
    are in its slot or in a new store of the tree. *)
Record split_done (w w' : world) (i : Z) (new : pmem_st) : Prop := {
  sd_warning : exists ev, multiple_stores (pmem w') = multiple_stores (pmem w) ++ [ev] /\
    forall b, covers ev b <-> covers (slots (array (pmem w)) i) b /\ covers new b;
  sd_rest : exists parts, elems (pmem_stores (pmem w')) = elems (pmem_stores (pmem w)) ++ parts /\
    forall b, left_of (slots (array (pmem w')) i) b \/ (exists e, e ∈ parts /\ left_of e b) <->
      covers (slots (array (pmem w)) i) b /\ ~ covers new b;
  sd_others j : j <> i -> slots (array (pmem w')) j = slots (array (pmem w)) j;
}.

Definition slot_upd (i : Z) (f : pmem_st -> pmem_st) (w : world) : world :=
  set_pmem (set_array (set_slots (arr_upd i f (slots (array (pmem w)))) (array (pmem w))) (pmem w)) w.

Definition put_stores (set : region_set) (w : world) : world := set_pmem (set_pmem_stores set (pmem w)) w.

Lemma set_insert_run w e set :
  OSetGen_Insert (pmem_stores (pmem w)) e = Some set -> set_insert Stores e w = Ok tt (put_stores set w).
Proof. intros Hi. unfold set_insert. step. by rewrite Hi. Qed.

Lemma set_reset_at_run w k set :
  OSetGen_ResetIterAt (pmem_stores (pmem w)) k = Some set ->
  set_reset_at Stores k w = Ok tt (put_stores set w).
Proof. intros Hi. unfold set_reset_at. step. by rewrite Hi. Qed.

Lemma split_middle_ok w i new :
  let o := slots (array (pmem w)) i in
  is_delete o = false -> region_ok o -> region_ok new -> numbered_tree w ->
  multiple_stores_reg (pmem w) < MAX_MULT_OVERWRITES ->
  addr o < addr new -> addr new + size new < addr o + size o ->
  exists w', split_stores Stores (Slot i) new add_mult_overwrite_warn true w = Ok tt w' /\
    split_done w w' i new.
Proof.
  intros o Hd Ho Hn [Hok Hidx Hsz] Hlim H1 H2. destruct Ho as (O1 & O2 & O3), Hn as (N1 & N2 & N3).
  unfold split_stores. step. fold o. cbv zeta. rewrite !max_addr_ok by (unfold region_ok; lia).
  rewrite (proj2 (Z.leb_gt (addr new) (addr o))), (proj2 (Z.ltb_lt (addr o) (addr new))),
    (proj2 (Z.ltb_lt (addr new + size new) _)) by lia. cbn [andb].
  rewrite (bind_ok _ _ w (db_pmem_store_index (the_globals w)) (bump w)) by done.
  set (f := fun o0 : pmem_st => set_size _ _). set (after := set_value _ (set_size _ (set_addr (addr new + size new) _))).
  rewrite (bind_ok _ _ _ tt (slot_upd i f (bump w))) by done.
  destruct (tree_insert_ok (pmem_stores (pmem w)) _ after Hok Hidx Hsz eq_refl) as (set1 & Hi & Hel & Hr).
  rewrite (bind_ok _ _ _ _ _ (set_insert_run (slot_upd i f (bump w)) after set1 Hi)). step.
  match goal with |- context [set_reset_at Stores ?k] => destruct (Hr k) as (set2 & Hr2 & Hel2) end.
  rewrite (bind_ok _ _ _ _ _ (set_reset_at_run (put_stores set1 (slot_upd i f (bump w))) _ set2 Hr2)).
  rewrite warn_ok by done. eexists. split; [reflexivity|]. split.
  - eexists. split; [reflexivity|]. intros b. fold o. unfold covers. simpl. lia.
  - exists [after]. simpl. rewrite Hel2, Hel. split; [done|]. intros b. rewrite arr_upd_same. fold o.
    setoid_rewrite list_elem_of_singleton. unfold left_of, covers, f.
    split.
    + intros [[_ Hb]|(e & -> & _ & Hb)]; simpl in Hb; revert Hb; word_solve.
    + intros Hb. destruct (Z.lt_ge_cases b (addr new)) as [?|?]; [left|right; exists after; split; [done|]];
        (split; [done|]); simpl; word_solve.
  - intros j Hj. simpl. by rewrite arr_upd_other.
Qed.

Lemma split_all_ok w i new :
  let o := slots (array (pmem w)) i in
  is_delete o = false -> region_ok o -> region_ok new -> multiple_stores_reg (pmem w) < MAX_MULT_OVERWRITES ->
  addr new <= addr o -> addr o + size o <= addr new + size new ->
  exists w', split_stores Stores (Slot i) new add_mult_overwrite_warn true w = Ok tt w' /\
    split_done w w' i new.
Proof.
  intros o Hd Ho Hn Hlim H1 H2. unfold split_stores. step. fold o. cbv zeta. rewrite !max_addr_ok by done.
  rewrite !(proj2 (Z.leb_le _ _)) by lia. cbn [andb].
  rewrite (bind_ok _ _ _ tt (slot_upd i (set_is_delete true) w)) by done. step. rewrite warn_ok by done.
  eexists. split; [reflexivity|]. split.
  - eexists. split; [reflexivity|]. intros b. simpl. rewrite arr_upd_same. fold o. unfold covers. simpl. lia.
  - exists []. simpl. rewrite app_nil_r. split; [done|]. intros b. rewrite arr_upd_same. fold o.
    unfold left_of, covers. simpl. split; [|lia]. by intros [[? _]|(e & ?%elem_of_nil & _)].
  - intros j Hj. simpl. by rewrite arr_upd_other.
Qed.

(** The new store covers the end of the old one, or its beginning: the slot keeps the rest. *)
Lemma split_part_ok w i new ev f :
  let o := slots (array (pmem w)) i in
  (forall b, covers ev b <-> covers o b /\ covers new b) ->
  (forall b, left_of (f o) b <-> covers o b /\ ~ covers new b) ->
  split_done w (slot_upd i f (warned ev w)) i new.
Proof.
  intros o Hev Hf. split.
  - eexists. split; [reflexivity|]. intros b. fold o. rewrite <-Hev. done.
  - exists []. simpl. rewrite app_nil_r. split; [done|]. intros b. rewrite arr_upd_same. fold o. rewrite <-Hf.
    split; [intros [?|(e & ?%elem_of_nil & _)]; done|by left].
  - intros j Hj. simpl. by rewrite arr_upd_other.
Qed.

Lemma split_slot_ok w i new :
  let o := slots (array (pmem w)) i in
  is_delete o = false -> region_ok o -> region_ok new -> cmp_pmem_st o new = 0 -> numbered_tree w ->
  multiple_stores_reg (pmem w) < MAX_MULT_OVERWRITES ->
  exists w', split_stores Stores (Slot i) new add_mult_overwrite_warn true w = Ok tt w' /\
    split_done w w' i new.
Proof.
  intros o Hd Ho Hn Hc Ht Hlim. apply cmp_overlap in Hc; [|done..]. unfold outside in Hc.
  destruct (Z_lt_ge_dec (addr o) (addr new)) as [H1|H1];
    destruct (Z_lt_ge_dec (addr new + size new) (addr o + size o)) as [H2|H2].
  - by apply split_middle_ok.
  - unfold split_stores. step. fold o. cbv zeta. rewrite !max_addr_ok by done.
    rewrite (proj2 (Z.leb_gt (addr new) (addr o))), (proj2 (Z.ltb_lt (addr o) (addr new))),
      (proj2 (Z.ltb_ge (addr new + size new) _)) by lia. cbn [andb].
    rewrite (bind_ok _ _ _ _ _ (warn_ok w _ false Hlim)).
    eexists. split; [reflexivity|]. destruct Ho as (? & ? & ?), Hn as (? & ? & ?).
    apply split_part_ok; intros b; fold o; unfold left_of, covers; simpl; word_solve; intuition lia.
  - unfold split_stores. step. fold o. cbv zeta. rewrite !max_addr_ok by done.
    rewrite (proj2 (Z.leb_gt (addr o + size o) _)), (proj2 (Z.ltb_ge (addr o) (addr new))),
      (proj2 (Z.ltb_lt (addr new + size new) _)), andb_false_r by lia.
    rewrite (bind_ok _ _ _ _ _ (warn_ok w _ false Hlim)).
    eexists. split; [reflexivity|]. destruct Ho as (? & ? & ?), Hn as (? & ? & ?).
    apply split_part_ok; intros b; fold o; unfold left_of, covers; simpl; word_solve; intuition lia.
  - apply split_all_ok; try done; fold o; lia.
Qed.

(** C35: When a store overwrites one of the array that is not yet persistent, exactly one warning is
    registered, for exactly the bytes both have; the old store keeps its other bytes, in its slot or
    in a new store of the tree, and nothing else in the array or the tree changes. *)
Theorem overwrite_split_exact w i new (Hlive : is_delete (slots (array (pmem w)) i) = false)
    (Hold : region_ok (slots (array (pmem w)) i)) (Hnew : region_ok new)
    (Hmeet : cmp_pmem_st (slots (array (pmem w)) i) new = 0) (Htree : numbered_tree w)
    (Hroom : multiple_stores_reg (pmem w) < MAX_MULT_OVERWRITES) :
  exists w', split_stores Stores (Slot i) new add_mult_overwrite_warn true w = Ok tt w' /\
    split_done w w' i new.
Proof. by apply split_slot_ok. Qed.

(** The slot 0 of the array is a store of 16 bytes. *)
Definition one_store : world :=
  slot_upd 0 (fun _ => region_at 1100 16)
    (put_stores (OSetGen_Create (Some cmp_pmem_own_st)) (sample_world default_options)).

Lemma one_store_tree : numbered_tree one_store.
Proof. split; [apply (tr_ok _ _ _ _ (tree_ok_empty 0))|constructor|done]. Qed.

Lemma overwrite_split_exact_witness :
  exists w', split_stores Stores (Slot 0) (region_at 1104 4) add_mult_overwrite_warn true one_store = Ok tt w' /\
    split_done one_store w' 0 (region_at 1104 4).
Proof.
  apply (overwrite_split_exact one_store 0 (region_at 1104 4)); [by vm_compute..| |by vm_compute].
  exact one_store_tree.
Defined.

(** ** A covered store of the tree *)

(** Whatever the key, the removal from the tree succeeds, and so does the search for the place of
    the iterator after it. *)
Lemma remove_reset_ok set k :
  own_ok set -> card set < iter_limit ->
  exists r set1 set2, OSetGen_Remove set k = Some (r, set1) /\ OSetGen_ResetIterAt set1 k = Some set2.
Proof.
  intros Hok Hlim.
  assert (exists r set1, OSetGen_Remove set k = Some (r, set1) /\ own_ok set1 /\ card set1 < iter_limit)
    as (r & set1 & Hrem & Hok1 & Hlim1).
  { destruct (OSetGen_LookupNode set k) as [[i e]|] eqn:Hl.
    - destruct (Remove_found cmp_pmem_own_st (fun _ => True) (fun _ => True) set k i e Hok I Hl)
        as (set1 & ms1 & ms3 & ? & ? & _ & _ & ? & _). exists (Some e), set1. split_and!; [done..|lia].
    - exists None, set. by rewrite Remove_none. }
  destruct (key_split cmp_pmem_own_st (fun _ => True) (fun _ => True) set1 k Hok1 I)
    as (l1 & l2 & l3 & Heq & L1 & L2 & L3).
  destruct (ResetIterAt_ok set1 k l1 l2 l3) as (st & ks & Hreset & _); try done.
  { apply small_height; [apply (ok_wf _ _ _ Hok1)|lia]. }
  by exists r, set1, (set_stack st set1).
Qed.


(** A store is in the tree. *)
Definition one_node : world :=
  put_stores (default (OSetGen_Create (Some cmp_pmem_own_st))
    (OSetGen_Insert (OSetGen_Create (Some cmp_pmem_own_st)) (region_at 1104 4))) (sample_world default_options).


(** ** The bounds of the tree *)

Definition overwrite_options : options := set_track_multiple_stores true default_options.

(** A store in the middle of an older one; then everything is flushed and fenced. *)
Definition overwrite_events : list event :=
  [EvMap 1000 1000; EvStore 1100 16 5; EvStore 1104 4 7; EvFlush 1088 64; EvFence].

(** The part of an overwritten store that is put into the tree is not in the bounds of the tree:
    in this run all stores are flushed and fenced, but the flush does not look into the tree, and
    the part is reported as not persistent. *)
Theorem overwritten_part_not_flushed :
  exists w', session overwrite_events (sample_world overwrite_options) = Ok tt w' /\
    older (view w') ++ current (view w') = [mkPending 1108 8 false].
Proof.
  destruct (ends_with_ok (fun w => bool_decide (older (view w) ++ current (view w) = [mkPending 1108 8 false]))
    (session overwrite_events (sample_world overwrite_options))) as (w' & Heq & Hb);
    [vm_compute; reflexivity|].
  exists w'. split; [exact Heq|]. by apply bool_decide_eq_true in Hb.
Qed.

(** A store, a fence that moves it into the tree, and one flush of its first half. *)
Definition half_events : list event :=
  [EvMap 1000 1000; EvStore 1100 16 5; EvFence; EvFlush 1100 8].

(** A flush that cuts a store of the tree is registered as redundant, although it is the first
    flush of the store: when the flushed part is cut off, the iterator is set back to the store, which
    is then found flushed. *)
Theorem first_flush_redundant :
  exists w', session half_events (sample_world checked_options) = Ok tt w' /\
    redundant (view w') = [mkPending 1100 8 true].
Proof.
  destruct (ends_with_ok (fun w => bool_decide (redundant (view w) = [mkPending 1100 8 true]))
    (session half_events (sample_world checked_options))) as (w' & Heq & Hb);
    [vm_compute; reflexivity|].
  exists w'. split; [exact Heq|]. by apply bool_decide_eq_true in Hb.
Qed.
