(* ===== verification/ToolClaims.v ===== *)
(** The tool around the tracker: epochs, overwritten stores, requests and options. *)
From S2P Require Import Prelude OSet OSetTree OSetSpec Region RegionSpec Core Trans Pmem Store Flush Report Client Spec StoreSpec FlushSpec FenceSpec ReportSpec Sample Refine.
Local Open Scope Z_scope.
Local Open Scope pm_scope.

(** ** Epochs *)

(** A number of fences. *)
Fixpoint marks (n : nat) : PM unit :=
  match n with
  | O => retM tt
  | S n => mark_epoch_fence ;;; marks n
  end.

(** The state after [n] fences of an epoch, [k] of which are redundant. *)
Definition with_fences (n : Z) (k : nat) (w : world) : world :=
  set_pmem (set_redundant_fence (redundant_fence (pmem w) ++ replicate k (exe_context (the_globals w)))
    (set_epoch_fence n (pmem w))) w.

Lemma mark_ok w n :
  epoch (pmem w) = true -> epoch_fence (pmem w) = n -> 0 <= n < MAX_REDUNDANT_FENCE - 1 ->
  redundant_fence_reg (pmem w) < MAX_REDUNDANT_FENCE ->
  mark_epoch_fence w = Ok tt (with_fences (n + 1) (if n =? 0 then 0 else 1) w).
Proof.
  intros He Hn Hlim Hreg. unfold mark_epoch_fence. step. rewrite He. cbn [whenM]. step. step.
  cbn [pmem set_pmem epoch_fence set_epoch_fence]. rewrite Hn.
  rewrite wadd_small by (unfold is_word, MAX_REDUNDANT_FENCE, word_size in *; lia).
  rewrite (proj2 (Z.ltb_ge _ _)) by lia.
  destruct (Z.eqb_spec n 0) as [->|Hne]; cbn [Z.ltb Z.compare Pos.compare Pos.compare_cont Z.add].
  - cbn [whenM]. unfold with_fences, retM. f_equal. simpl. rewrite app_nil_r. by destruct w as [? [] ? ? ?].
  - rewrite (proj2 (Z.ltb_lt _ _)) by lia. cbn [whenM]. step.
    unfold redundant_fence_reg in *. simpl. rewrite (proj2 (Z.leb_gt _ _)) by lia. step. done.
Qed.

Lemma with_fences_twice n k n' k' w : with_fences n' k' (with_fences n k w) = with_fences n' (k + k') w.
Proof. unfold with_fences. simpl. by rewrite <-app_assoc, replicate_add. Qed.

Lemma marks_ok m : forall w n,
  epoch (pmem w) = true -> epoch_fence (pmem w) = n -> 0 < n ->
  n + Z.of_nat m < MAX_REDUNDANT_FENCE -> redundant_fence_reg (pmem w) + Z.of_nat m <= MAX_REDUNDANT_FENCE ->
  marks m w = Ok tt (with_fences (n + Z.of_nat m) m w).
Proof.
  induction m as [|m IH]; intros w n He Hn Hpos Hlim Hreg; cbn [marks].
  - unfold with_fences, retM. f_equal. simpl. rewrite app_nil_r, Z.add_0_r. destruct w as [? [] ? ? ?].
    simpl in *. by subst.
  - rewrite (bind_ok _ _ _ _ _ (mark_ok w n He Hn ltac:(lia) ltac:(lia))).
    rewrite (proj2 (Z.eqb_neq n 0)) by lia. rewrite (IH _ (n + 1)); [| | |lia..|].
    + rewrite with_fences_twice. do 2 f_equal. lia.
    + done.
    + done.
    + unfold redundant_fence_reg in *. simpl. rewrite length_app. simpl. lia.
Qed.

(** In an epoch every fence after the first is registered as redundant, with the place it was
    made at, and nothing else is registered; outside of an epoch fences are not counted. *)
Theorem epoch_fences_exact w m (Hfirst : epoch_fence (pmem w) = 0)
    (Hm : Z.of_nat m < MAX_REDUNDANT_FENCE - 1)
    (Hreg : redundant_fence_reg (pmem w) + Z.of_nat m < MAX_REDUNDANT_FENCE) :
  (epoch (pmem w) = true -> marks (S m) w = Ok tt (with_fences (Z.of_nat m + 1) m w)) /\
  (epoch (pmem w) = false -> marks (S m) w = Ok tt w).
Proof.
  split.
  - intros He. cbn [marks]. rewrite (bind_ok _ _ _ _ _ (mark_ok w 0 He Hfirst ltac:(unfold MAX_REDUNDANT_FENCE in *; lia) ltac:(lia))).
    cbn [Z.eqb]. rewrite (marks_ok m _ 1); [|done..|lia| |].
    + rewrite with_fences_twice. do 2 f_equal; lia.
    + unfold MAX_REDUNDANT_FENCE in *. lia.
    + unfold redundant_fence_reg in *. simpl. rewrite app_nil_r. lia.
  - intros He. assert (mark_epoch_fence w = Ok tt w) as Hnone
      by (unfold mark_epoch_fence; step; by rewrite He).
    assert (forall n, marks n w = Ok tt w) as Hall; [|apply Hall].
    induction n as [|n IH]; [done|]. cbn [marks]. by rewrite (bind_ok _ _ _ _ _ Hnone).
Qed.

Definition in_epoch (w : world) : world := set_pmem (set_epoch true (pmem w)) w.

Lemma epoch_fences_exact_witness :
  let w := in_epoch (sample_world default_options) in
  epoch (pmem w) = true /\ marks 3 w = Ok tt (with_fences 3 2 w).
Proof.
  split; [reflexivity|].
  apply (epoch_fences_exact (in_epoch (sample_world default_options)) 2); by vm_compute.
Defined.

(** Two epochs of 5001 and 5002 fences. *)
Definition many_fences : PM unit :=
  epoch_begin ;;; marks (Z.to_nat 5001) ;;; epoch_end 1 ;;; epoch_begin ;;; marks (Z.to_nat 5002).

Definition stops_with {A} (r : res world A) : option stop :=
  match r with Ok _ _ => None | Stop e _ => Some e end.

(** The capacity of the register of redundant fences is tested against the fences of one epoch,
    but the register keeps those of all epochs: two epochs with 10000 redundant fences together fill
    it without a test failing, and the next redundant fence writes past its end. *)
Theorem redundant_fences_overflow :
  stops_with (many_fences (sample_world default_options)) = Some Undefined.
Proof. by vm_compute. Qed.

(** ** Full registers of warnings *)

(** A flush that hits nothing marks nothing. *)
Lemma mark_missed lo n l : existsb (hit lo n) l = false -> mark lo n <$> l = l.
Proof.
  induction l as [|e l IH]; [done|]. cbn [existsb]. intros [He Hl]%orb_false_iff.
  rewrite fmap_cons, IH by done. unfold mark. by rewrite He.
Qed.

Lemma again_missed lo n l : existsb (hit lo n) l = false -> List.filter (again lo n) l = [].
Proof.
  induction l as [|e l IH]; [done|]. cbn [existsb List.filter]. intros [He Hl]%orb_false_iff.
  unfold again at 1. rewrite He. cbn [andb]. by apply IH.
Qed.

Lemma whole_missed lo n l : existsb (hit lo n) l = false -> forallb (whole lo n) l = true.
Proof.
  induction l as [|e l IH]; [done|]. cbn [existsb forallb]. intros [He Hl]%orb_false_iff.
  unfold whole at 1. rewrite He, IH by done. done.
Qed.

Definition too_many_superfluous : msg :=
  Umsg "The number of superfluous flushes exceeded %lu\n\n" [Num MAX_FLUSH_ERROR_EVENTS].

(** When the register of superfluous flushes is full, the next superfluous flush says so, prints
    the registered ones and ends the program with an error; the stores that are tracked and the
    registered warnings are as before. *)
Theorem superfluous_register_full `{CoreEnv} P k w lo n (Hinv : inv P k w) (Hk : k < iter_limit)
    (Hr : range_ok lo n = true) (Hcheck : check_flush (opts (pmem w)) = true)
    (Hmiss : hits_some lo n (view w) = false) (Hfit : warnings_fit (view w))
    (Hfull : Z.of_nat (length (superfluous_flushes (pmem w))) = MAX_FLUSH_ERROR_EVENTS) :
  exists w' ms, do_flush lo n w = Stop ExitMinus1 w' /\ view w' = view w /\
    output (the_globals w') = rev ms ++ too_many_superfluous :: output (the_globals w).
Proof.
  apply orb_false_iff in Hmiss as Hm. destruct Hm as [Hm1 Hm2].
  assert (redundant (track_flush (check_flush (opts (pmem w))) lo n (view w)) = redundant (view w)) as Hred.
  { cbn [redundant track_flush]. rewrite (again_missed _ _ _ Hm1), (again_missed _ _ _ Hm2).
    destruct (check_flush _); by rewrite app_nil_r. }
  destruct (flush_scan_ok P k w lo n Hinv Hk Hr) as (w2 & a & set & ev & [-> _ _ _ _ _ Hv1 Hv2 Hev2] & Hscan).
  { unfold no_cut. by rewrite forallb_app, (whole_missed _ _ _ Hm1), (whole_missed _ _ _ Hm2). }
  { rewrite Hred. apply Hfit. }
  unfold do_flush. rewrite flush_start_ok, Hscan, Hmiss by apply Hinv. step. set (w2 := set_pmem _ w).
  change (check_flush (opts (pmem w2))) with (check_flush (opts (pmem w))). rewrite Hcheck. cbn [negb andb whenM].
  set (w3 := say_all [too_many_superfluous; Umsg "This means your program is constantly flushing regions of memory, where no stores were made. This is a performance issue.\n" []; MessageFlush] w2).
  destruct (print_superfluous_flushes_says w3) as [ms Heq].
  exists (say_all ms w3), ([Umsg "This means your program is constantly flushing regions of memory, where no stores were made. This is a performance issue.\n" []; MessageFlush] ++ ms).
  split; [|split].
  - unfold bindM at 1. unfold add_superfluous_flush. do 2 step. unfold add_warning_event.
    change (superfluous_flushes (pmem w2)) with (superfluous_flushes (pmem w)). rewrite Hfull, Z.eqb_refl.
    unfold print_superfluous_flush_error. unfold bindM at 1. do 3 step.
    change (print_superfluous_flushes _) with (print_superfluous_flushes w3). by rewrite Heq.
  - rewrite Hred in Hev2. rewrite (mark_missed _ _ _ Hm1) in Hv1. rewrite (mark_missed _ _ _ Hm2) in Hv2.
    unfold view. f_equal; done.
  - simpl. by rewrite <-!app_assoc.
Qed.

(** The start of the tool, with a full register. *)
Lemma full_register_ok : exists w, inv tx_idle 0 w /\ check_flush (opts (pmem w)) = true /\
  older (view w) = [] /\ current (view w) = [] /\ warnings_fit (view w) /\
  Z.of_nat (length (superfluous_flushes (pmem w))) = MAX_FLUSH_ERROR_EVENTS.
Proof.
  destruct (init_ok (sample_world checked_options)) as (w1 & _ & Hinv1 & Ho1 & _ & Hv1);
    [by repeat split|done|done|].
  assert (exists l : list pmem_st, Z.of_nat (length l) = MAX_FLUSH_ERROR_EVENTS) as [l Hl].
  { exists (replicate (Z.to_nat MAX_FLUSH_ERROR_EVENTS) pmem_st_zero). rewrite length_replicate. by apply Z2Nat.id. }
  exists (set_pmem (set_superfluous_flushes l (pmem w1)) w1).
  assert (older (view w1) = [] /\ current (view w1) = [] /\ redundant (view w1) = []) as (E1 & E2 & E3) by by rewrite Hv1.
  split; [destruct Hinv1; by split|]. split; [change (check_flush (opts (pmem w1)) = true); by rewrite Ho1|].
  split; [exact E1|]. split; [exact E2|]. split; [|exact Hl]. split.
  - change (Z.of_nat (length (redundant (view w1))) <= MAX_FLUSH_ERROR_EVENTS). by rewrite E3.
  - cbn [superfluous view]. rewrite length_fmap. change (Z.of_nat (length l) <= MAX_FLUSH_ERROR_EVENTS). lia.
Qed.

Lemma superfluous_register_full_witness : exists w w' ms,
  do_flush 4096 64 w = Stop ExitMinus1 w' /\ view w' = view w /\
  output (the_globals w') = rev ms ++ too_many_superfluous :: output (the_globals w).
Proof.
  destruct full_register_ok as (w & Hinv & Hc & E1 & E2 & Hfit & Hfull).
  destruct (superfluous_register_full tx_idle 0 w 4096 64 Hinv eq_refl eq_refl Hc) as (w' & ms & Hres);
    [unfold hits_some; by rewrite E1, E2|exact Hfit|exact Hfull|]. by exists w, w', ms.
Defined.

(** ** Stores that were declared clean *)

(** The whole of a program with one store, which then declares its range clean. *)
Definition cleaned_run : PM unit :=
  session [EvMap 4096 4096; EvStore 5000 8 2] ;;; set_clean 5000 8 ;;; pmc_fini.

(** A store whose range the program has declared clean (SET_CLEAN) is deleted, so that no flush and
    no fence looks at it any more, but the report at exit still prints it and counts it as an error,
    since print_store_stats does not skip the deleted stores of the array. *)
Theorem cleaned_store_reported : exists w',
  cleaned_run (sample_world default_options) = Ok tt w' /\
  is_delete <$> array_entries (array (pmem w')) = [true] /\ elems (pmem_stores (pmem w')) = [] /\
  exists before, output (the_globals w') = summary_line 1 :: before.
Proof.
  destruct (ends_with_ok (fun w => bool_decide (is_delete <$> array_entries (array (pmem w)) = [true]) &&
      (length (elems (pmem_stores (pmem w))) =? 0)%nat && bool_decide (head (output (the_globals w)) = Some (summary_line 1)))
    (cleaned_run (sample_world default_options))) as (w' & Heq & Hb); [vm_compute; reflexivity|].
  apply andb_true_iff in Hb as [[Hd%bool_decide_eq_true Hl]%andb_true_iff Hr]. apply Nat.eqb_eq in Hl.
  exists w'. split; [exact Heq|]. split; [exact Hd|]. split; [by apply nil_length_inv|].
  apply bool_decide_eq_true in Hr. destruct (output (the_globals w')) as [|m ms]; [discriminate|].
  injection Hr as ->. by exists ms.
Qed.
