(* ===== verification/Interface.v ===== *)
(** The command line and the client requests: what the options set, and what unknown input does. *)
From stdpp Require Import pretty.
From S2P Require Import Prelude OSet Region Core Trans Pmem Store Flush Report Client Spec ReportSpec Sample Refine.
Local Open Scope Z_scope.
Local Open Scope pm_scope.

(** ** Numbers *)

Lemma digit_char x : (x < 10)%N ->
  dec_digit (pretty_N_char x) = Some (Z.of_N x) /\ isspace (pretty_N_char x) = false /\
  Ascii.eqb (pretty_N_char x) (Ascii.ascii_of_nat 45) = false /\
  Ascii.eqb (pretty_N_char x) (Ascii.ascii_of_nat 43) = false.
Proof.
  intros Hx. assert (x = 0 \/ x = 1 \/ x = 2 \/ x = 3 \/ x = 4 \/ x = 5 \/ x = 6 \/ x = 7 \/ x = 8 \/ x = 9)%N as H by lia.
  by destruct H as [->|[->|[->|[->|[->|[->|[->|[->|[->| ->]]]]]]]]].
Qed.

(** Wrapping around before or after the arithmetic is the same. *)
Lemma int64_step a b d : int64 (a * int64 b + d) = int64 (a * b + d).
Proof.
  unfold int64. f_equal. rewrite <-(Zplus_mod_idemp_l (a * b + d)).
  rewrite <-(Zplus_mod_idemp_l (a * _ + d)). f_equal. f_equal.
  rewrite <-(Zplus_mod_idemp_l (a * _)), <-(Zplus_mod_idemp_l (a * b)). f_equal. f_equal.
  rewrite <-Zmult_mod_idemp_r, Zminus_mod_idemp_l, Zmult_mod_idemp_r. f_equal. lia.
Qed.

Lemma int64_small z : - 2 ^ 63 <= z < 2 ^ 63 -> int64 z = z.
Proof. intros Hz. unfold int64. rewrite Z.mod_small; lia. Qed.

(** The digits of a number, read back. *)
Lemma dec_digits_pretty x : forall s conv, (0 < x)%N ->
  dec_digits 0 conv (pretty_N_go x s) = dec_digits (int64 (Z.of_N x)) true s.
Proof.
  induction (N.lt_wf_0 x) as [x _ IH]; intros s conv Hx. rewrite pretty_N_go_step by done.
  pose proof (N.mod_lt x 10 ltac:(done)) as Hmod. pose proof (N.div_mod x 10 ltac:(done)) as Hdm.
  destruct (digit_char (x `mod` 10) Hmod) as (Hd & _).
  destruct (N.eq_dec (x `div` 10) 0) as [Hz|Hnz].
  - rewrite Hz, pretty_N_go_0. cbn [dec_digits]. rewrite Hd. do 2 f_equal. lia.
  - assert (x `div` 10 < x)%N as Hlt by (by apply N.div_lt). rewrite (IH _ Hlt) by (by apply N.neq_0_lt_0).
    cbn [dec_digits]. rewrite Hd, int64_step. do 2 f_equal. lia.
Qed.

Lemma pretty_first x : forall s, (0 < x)%N ->
  exists c s', pretty_N_go x s = String c s' /\ exists y, (y < 10)%N /\ c = pretty_N_char y.
Proof.
  induction (N.lt_wf_0 x) as [x _ IH]; intros s Hx. rewrite pretty_N_go_step by done.
  destruct (N.eq_dec (x `div` 10) 0) as [Hz|Hnz].
  - rewrite Hz, pretty_N_go_0. eexists _, _. split; [done|]. exists (x `mod` 10)%N.
    split; [by apply N.mod_lt|done].
  - assert (x `div` 10 < x)%N as Hlt by (by apply N.div_lt). apply (IH _ Hlt). by apply N.neq_0_lt_0.
Qed.

Lemma strtoll10_pretty (n : N) :
  strtoll10 (pretty n) = (int64 (Z.of_N n), "") /\ strtoll10 ("-" +:+ pretty n) = (int64 (- Z.of_N n), "").
Proof.
  unfold pretty, pretty_N. case_decide as Hn; [by subst n|].
  assert (0 < n)%N as Hpos by lia. destruct (pretty_first n "" Hpos) as (c & s' & Heq & y & Hy & ->).
  destruct (digit_char y Hy) as (_ & Hs & Hm & Hp). unfold strtoll10. cbn [skip_space String.append].
  split.
  - rewrite Heq. cbn [skip_space]. rewrite Hs, Hm, Hp, <-Heq. by rewrite dec_digits_pretty.
  - change (skip_space ("-" +:+ pretty_N_go n "")) with (String (Ascii.ascii_of_nat 45) (pretty_N_go n "")).
    cbv iota beta. rewrite Ascii.eqb_refl. rewrite dec_digits_pretty by done.
    cbn [dec_digits]. f_equal.
    pose proof (int64_step (-1) (Z.of_N n) 0) as E. rewrite !Z.add_0_r in E.
    replace (- int64 (Z.of_N n)) with (-1 * int64 (Z.of_N n)) by lia. rewrite E. f_equal.
Qed.

(** ** Options *)

Definition with_opts (f : options -> options) (w : world) : world :=
  set_pmem (set_opts (f (opts (pmem w))) (pmem w)) w.

(** What an argument [name=value] of a boolean option is taken for. *)
Definition bool_value (v : string) : option bool :=
  if String.eqb v "yes" then Some true else if String.eqb v "no" then Some false else None.

(** Earlier options of the table are not mistaken for it. *)
Lemma find_bool_value v :
  Forall (fun o => find_bool (o.1 +:+ "=" +:+ v) bool_options =
    Some (match bool_value v with Some b => Some (o.2 b) | None => None end)) bool_options.
Proof.
  unfold bool_value, bool_options at 2.
  repeat (constructor; [lazy [find_bool bool_options bool_clo strip_prefix String.append Ascii.eqb Bool.eqb fst snd];
    by destruct (String.eqb v "yes"), (String.eqb v "no")|]). constructor.
Qed.

(** Every boolean option of the tool sets its own field of the options to the value [yes] or
    [no] it is given, and stops the start of the tool on any other value. *)
Theorem bool_options_exact name set v w (Hin : (name, set) ∈ bool_options) :
  pmc_process_cmd_line_option (name +:+ "=" +:+ v) w =
    match bool_value v with
    | Some b => Ok true (with_opts (set b) w)
    | None => Stop BadOption w
    end.
Proof.
  pose proof (proj1 (Forall_forall _ _) (find_bool_value v) _ Hin) as H. cbn [fst snd] in H.
  unfold pmc_process_cmd_line_option. rewrite H. by destruct (bool_value v).
Qed.

Lemma bool_options_exact_witness :
  pmc_process_cmd_line_option "--mult-stores=yes" (sample_world default_options) =
    Ok true (with_opts (set_track_multiple_stores true) (sample_world default_options)).
Proof.
  apply (bool_options_exact "--mult-stores" set_track_multiple_stores "yes").
  apply list_elem_of_here.
Defined.

(** A numeric option takes the number its value starts with, if that is all of it. *)
Lemma number_option o lo f s n w :
  (o, lo, f) ∈ int_options -> strtoll10 s = (n, "") ->
  pmc_process_cmd_line_option (o +:+ "=" +:+ s) w =
    if (lo <=? n) && (n <=? UINT_MAX) then Ok true (with_opts (f n) w) else Stop BadOption w.
Proof.
  intros Hin Hs. unfold pmc_process_cmd_line_option.
  repeat (apply elem_of_cons in Hin as [[= -> -> ->]|Hin]); [..|by apply elem_of_nil in Hin];
    lazy [find_bool bool_options bool_clo find_int int_options bint_clo strip_prefix String.append
          Ascii.eqb Bool.eqb fst snd];
    rewrite Hs; cbn -[Z.leb UINT_MAX]; by destruct (_ <=? n), (_ <=? UINT_MAX).
Qed.

(** C38: A number written in decimal digits, with or without a sign, is read by [VG_(strtoll10)] as
    the signed integer of 64 bits it wraps around to, which is the number itself below 2^63.  The
    numeric options take this integer when it is between their bounds, and stop the start of the tool
    otherwise: so they take every number between the bounds, and also the numbers beyond 2^64 that
    wrap around to one. *)
Theorem number_options_exact (n : N) w :
  let z := int64 (Z.of_N n) in
  strtoll10 (pretty n) = (z, "") /\ strtoll10 ("-" +:+ pretty n) = (int64 (- Z.of_N n), "") /\
  (if Z.of_N n <? 2 ^ 63 then z = Z.of_N n else z <> Z.of_N n) /\
  pmc_process_cmd_line_option ("--indiff=" +:+ pretty n) w =
    (if (0 <=? z) && (z <=? UINT_MAX) then Ok true (with_opts (set_store_sb_indiff z) w)
     else Stop BadOption w) /\
  pmc_process_cmd_line_option ("--log-stores-stacktraces-depth=" +:+ pretty n) w =
    (if (1 <=? z) && (z <=? UINT_MAX)
     then Ok true (with_opts (set_store_traces_depth z) w) else Stop BadOption w).
Proof.
  intros z. destruct (strtoll10_pretty n) as [H H']. split_and!; [done..| | |].
  - destruct (Z.ltb_spec (Z.of_N n) (2 ^ 63)) as [Hlt|Hge]; [apply int64_small; lia|].
    unfold z, int64. pose proof (Z.mod_pos_bound (Z.of_N n + 2 ^ 63) (2 ^ 64) ltac:(lia)). lia.
  - exact (number_option "--indiff" 0 set_store_sb_indiff _ _ w ltac:(set_solver) H).
  - exact (number_option "--log-stores-stacktraces-depth" 1 set_store_traces_depth _ _ w ltac:(set_solver) H).
Qed.

(** A number of twenty digits is taken for 1. *)
Example number_wraps w :
  pmc_process_cmd_line_option "--indiff=18446744073709551617" w = Ok true (with_opts (set_store_sb_indiff 1) w).
Proof. reflexivity. Qed.

(** ** Requests *)

Section Requests.
Context `{CoreEnv} `{ClientEnv}.

Definition said (m : msg) (w : world) : world := with_globals (put_msg m (the_globals w)) w.

(** A request of another tool is refused and changes nothing; a request of this tool that it does
    not know, or no longer supports, is refused with one warning. *)
Theorem foreign_requests (arg : nat -> Z) w :
  let code := arg 0%nat in
  (is_tool_userreq code = false -> code <> 4610 -> pmc_handle_client_request arg w = Ok (false, None) w) /\
  (is_tool_userreq code = true -> request_of code = None ->
   pmc_handle_client_request arg w =
     Ok (false, None) (said (Umsg "Warning: unknown pmemcheck client request code 0x%llx\n" [Num code]) w)) /\
  (is_tool_userreq code = true ->
   request_of code ∈ Some <$> [RESERVED2; RESERVED3; RESERVED4; RESERVED5; RESERVED6; RESERVED7; RESERVED8; RESERVED9; RESERVED10] ->
   pmc_handle_client_request arg w =
     Ok (false, None) (said (Umsg "Warning: deprecated pmemcheck client request code 0x%llx\n" [Num code]) w)).
Proof.
  intros code. unfold pmc_handle_client_request. fold code. split; [|split].
  - intros -> Hne. by rewrite (proj2 (Z.eqb_neq _ _)).
  - intros -> ->. done.
  - intros -> Hin. cbn in Hin. rewrite !elem_of_cons in Hin.
    destruct Hin as [->|[->|[->|[->|[->|[->|[->|[->|[->|H1]]]]]]]]]; try done. by apply elem_of_nil in H1.
Qed.

(** A request handled as the removal of an object from a transaction. *)
Lemma removal_request (arg : nat -> Z) w r :
  is_tool_userreq (arg 0%nat) = true -> request_of (arg 0%nat) = Some r ->
  r ∈ [REMOVE_FROM_TX_N; ADD_THREAD_TO_TX_N; REMOVE_THREAD_FROM_TX_N] ->
  pmc_handle_client_request arg w =
    (ret <- in_tx (remove_obj_from_tx (arg 1%nat) (arg 2%nat) (arg 3%nat)) ;; retM (true, Some ret)) w.
Proof.
  intros Htool Hreq Hin. unfold pmc_handle_client_request. rewrite Htool, Hreq. cbn [negb andb].
  rewrite !elem_of_cons in Hin. unfold bindM.
  destruct Hin as [->|[->|[->|Hin]]]; [..|by apply elem_of_nil in Hin]; simpl;
    unfold handle_tx_request, bindM, retM, get_running_tid, getsM; by destruct (in_tx _ _).
Qed.

(** The requests that make a thread join or leave a transaction do not do that: they are handled
    as the removal of an object from the transaction. *)
Theorem thread_requests_remove_objects id base sz w :
  let code := fun n => request_args [PC_BASE + n; id; base; sz] in
  let removal := ret <- in_tx (remove_obj_from_tx id base sz) ;; retM (true, Some ret) in
  request_of (PC_BASE + 26) = Some ADD_THREAD_TO_TX_N /\
  request_of (PC_BASE + 27) = Some REMOVE_THREAD_FROM_TX_N /\
  pmc_handle_client_request (code 26) w = removal w /\
  pmc_handle_client_request (code 27) w = removal w.
Proof.
  intros code removal. do 2 (split; [by vm_compute|]).
  split; [apply (removal_request (code 26) w ADD_THREAD_TO_TX_N)
         |apply (removal_request (code 27) w REMOVE_THREAD_FROM_TX_N)]; (by vm_compute) || set_solver.
Qed.
End Requests.
