(* ===== verification/IR.v ===== *)
(** The intermediate representation of Valgrind, as far as the tool looks at it: the types of
    libvex_ir.h and the functions of ir_defs.c that the instrumentation calls.

    A pointer to an expression is the expression; the tool builds one expression around a null
    pointer, which is [Iex_NULL].  The primitive operations are the ones the tool emits and a
    remainder, whose result types are a parameter. *)
From S2P Require Import Prelude.
#[local] Set Warnings "-register-all".

(** * Data *)

Inductive IRType : Type :=
  | Ity_INVALID | Ity_I1 | Ity_I8 | Ity_I16 | Ity_I32 | Ity_I64 | Ity_I128
  | Ity_F16 | Ity_F32 | Ity_F64 | Ity_D32 | Ity_D64 | Ity_D128 | Ity_F128
  | Ity_V128 | Ity_V256.

#[export] Instance IRType_eq_dec : EqDecision IRType.
Proof. solve_decision. Defined.

Inductive IREndness : Type := Iend_LE | Iend_BE.

(** Constants; floating point values are kept as their bit patterns. *)
Inductive IRConst : Type :=
  | Ico_U1 (v : Z) | Ico_U8 (v : Z) | Ico_U16 (v : Z) | Ico_U32 (v : Z) | Ico_U64 (v : Z)
  | Ico_F32 (v : Z) | Ico_F32i (v : Z) | Ico_F64 (v : Z) | Ico_F64i (v : Z)
  | Ico_V128 (v : Z) | Ico_V256 (v : Z).

(** The operations the tool emits, and all others by their number. *)
Inductive IROp : Type :=
  | Iop_Add32 | Iop_Add64
  | Iop_Or8 | Iop_Or16 | Iop_Or32 | Iop_Or64
  | Iop_Xor8 | Iop_Xor16 | Iop_Xor32 | Iop_Xor64
  | Iop_CasCmpEQ8 | Iop_CasCmpEQ16 | Iop_CasCmpEQ32 | Iop_CasCmpEQ64
  | Iop_1Uto64 | Iop_8Uto64 | Iop_16Uto64 | Iop_32Uto64
  | Iop_ReinterpF64asI64
  | Iop_V128to64 | Iop_V128HIto64
  | Iop_V256to64_0 | Iop_V256to64_1 | Iop_V256to64_2 | Iop_V256to64_3
  | Iop_other (n : Z).

Record IRRegArray : Type := mkIRRegArray { ra_base : Z; elemTy : IRType; nElems_ : Z }.

(** The function a helper call calls. *)
Inductive helper : Type :=
  | trace_pmem_store_h
  | trace_pmem_flush_h
  | do_fence_h
  | add_one_SB_entered_h
  | other_helper (address : Z).

Record IRCallee : Type := mkIRCallee {
  regparms : Z; cee_name : string; cee_addr : helper; mcx_mask : Z;
}.

Inductive IRExpr : Type :=
  | Iex_NULL
  | Iex_Binder (binder : Z)
  | Iex_Get (offset : Z) (ty : IRType)
  | Iex_GetI (descr : IRRegArray) (ix : IRExpr) (bias : Z)
  | Iex_RdTmp (tmp : Z)
  | Iex_Qop (op : IROp) (arg1 arg2 arg3 arg4 : IRExpr)
  | Iex_Triop (op : IROp) (arg1 arg2 arg3 : IRExpr)
  | Iex_Binop (op : IROp) (arg1 arg2 : IRExpr)
  | Iex_Unop (op : IROp) (arg : IRExpr)
  | Iex_Load (e : IREndness) (ty : IRType) (a : IRExpr)
  | Iex_Const (con : IRConst)
  | Iex_ITE (cond iftrue iffalse : IRExpr)
  | Iex_CCall (cee : IRCallee) (retty : IRType) (args : list IRExpr)
  | Iex_VECRET
  | Iex_GSPTR.

Inductive IREffect : Type := Ifx_None | Ifx_Read | Ifx_Write | Ifx_Modify.

Record IRFxState : Type := mkIRFxState {
  fx : IREffect; fx_offset : Z; fx_size : Z; nRepeats : Z; repeatLen : Z;
}.

(** A helper call; [None] for the invalid temporary. *)
Record IRDirty : Type := mkIRDirty {
  cee : IRCallee;
  guard : IRExpr;
  args : list IRExpr;
  d_tmp : option Z;
  mFx : IREffect;
  mAddr : option IRExpr;
  mSize : Z;
  fxState : list IRFxState;
}.

Inductive IRMBusEvent : Type := Imbe_Fence | Imbe_CancelReservation | Imbe_SFence | Imbe_LFence.

Inductive IRFlushKind : Type := Ifk_flush | Ifk_flushopt | Ifk_clwb.

(** A compare-and-swap; the high halves are there for a double one. *)
Record IRCAS : Type := mkIRCAS {
  oldHi : Z; oldLo : Z; cas_end : IREndness; cas_addr : IRExpr;
  expdHi : option IRExpr; expdLo : IRExpr; dataHi : option IRExpr; dataLo : IRExpr;
}.

Record IRStoreG : Type := mkIRStoreG {
  sg_end : IREndness; sg_addr : IRExpr; sg_data : IRExpr; sg_guard : IRExpr;
}.

Inductive IRLoadGOp : Type :=
  | ILGop_INVALID | ILGop_IdentV128 | ILGop_Ident64 | ILGop_Ident32
  | ILGop_16Uto32 | ILGop_16Sto32 | ILGop_8Uto32 | ILGop_8Sto32.

Inductive IRStmt : Type :=
  | Ist_NoOp
  | Ist_IMark (a len delta : Z)
  | Ist_AbiHint (base : IRExpr) (len : Z) (nia : IRExpr)
  | Ist_Put (offset : Z) (data : IRExpr)
  | Ist_PutI (descr : IRRegArray) (ix : IRExpr) (bias : Z) (data : IRExpr)
  | Ist_WrTmp (tmp : Z) (data : IRExpr)
  | Ist_Store (e : IREndness) (a data : IRExpr)
  | Ist_LoadG (e : IREndness) (cvt : IRLoadGOp) (dst : Z) (a alt g : IRExpr)
  | Ist_StoreG (details : IRStoreG)
  | Ist_CAS (details : IRCAS)
  | Ist_LLSC (e : IREndness) (result : Z) (a : IRExpr) (storedata : option IRExpr)
  | Ist_Dirty (details : IRDirty)
  | Ist_MBE (event : IRMBusEvent)
  | Ist_Exit (g : IRExpr) (jk : Z) (dst : IRConst) (offsIP : Z)
  | Ist_Flush (a : IRExpr) (fk : IRFlushKind).

(** A superblock: the types of the temporaries, the statements (an entry of the array may be a null
    pointer), and the jump at its end. *)
Record IRSB : Type := mkIRSB {
  tyenv : list IRType;
  stmts : list (option IRStmt);
  next : IRExpr;
  jumpkind : Z;
  offsIP : Z;
}.

(** * Functions *)

(** The result types of the operations the tool does not emit. *)
Class PrimopTypes : Type := { typeOfPrimop_rest : Z -> IRType }.

Definition isIRAtom (e : IRExpr) : bool :=
  match e with Iex_RdTmp _ | Iex_Const _ => true | _ => false end.

Section Types.
Context `{PrimopTypes}.

(** The result type of an operation. *)
Definition typeOfPrimop (op : IROp) : IRType :=
  match op with
  | Iop_Or8 | Iop_Xor8 => Ity_I8
  | Iop_Or16 | Iop_Xor16 => Ity_I16
  | Iop_Add32 | Iop_Or32 | Iop_Xor32 => Ity_I32
  | Iop_Add64 | Iop_Or64 | Iop_Xor64 => Ity_I64
  | Iop_CasCmpEQ8 | Iop_CasCmpEQ16 | Iop_CasCmpEQ32 | Iop_CasCmpEQ64 => Ity_I1
  | Iop_1Uto64 | Iop_8Uto64 | Iop_16Uto64 | Iop_32Uto64 => Ity_I64
  | Iop_ReinterpF64asI64 => Ity_I64
  | Iop_V128to64 | Iop_V128HIto64 => Ity_I64
  | Iop_V256to64_0 | Iop_V256to64_1 | Iop_V256to64_2 | Iop_V256to64_3 => Ity_I64
  | Iop_other n => typeOfPrimop_rest n
  end.

Definition typeOfIRTemp (env : list IRType) (tmp : Z) : option IRType :=
  if tmp <? 0 then None else env !! Z.to_nat tmp.

Definition typeOfIRConst (con : IRConst) : IRType :=
  match con with
  | Ico_U1 _ => Ity_I1 | Ico_U8 _ => Ity_I8 | Ico_U16 _ => Ity_I16 | Ico_U32 _ => Ity_I32
  | Ico_U64 _ => Ity_I64 | Ico_F32 _ | Ico_F32i _ => Ity_F32 | Ico_F64 _ | Ico_F64i _ => Ity_F64
  | Ico_V128 _ => Ity_V128 | Ico_V256 _ => Ity_V256
  end.

(** [None] where the code panics. *)
Fixpoint typeOfIRExpr (env : list IRType) (e : IRExpr) : option IRType :=
  match e with
  | Iex_Load _ ty _ => Some ty
  | Iex_Get _ ty => Some ty
  | Iex_GetI descr _ _ => Some (elemTy descr)
  | Iex_RdTmp tmp => typeOfIRTemp env tmp
  | Iex_Const con => Some (typeOfIRConst con)
  | Iex_Qop op _ _ _ _ | Iex_Triop op _ _ _ | Iex_Binop op _ _ | Iex_Unop op _ =>
      Some (typeOfPrimop op)
  | Iex_CCall _ retty _ => Some retty
  | Iex_ITE _ _ iffalse => typeOfIRExpr env iffalse
  | Iex_Binder _ | Iex_VECRET | Iex_GSPTR | Iex_NULL => None
  end.
End Types.

(** The size in bytes; it panics on the two types without one. *)
Definition sizeofIRType (ty : IRType) : option Z :=
  match ty with
  | Ity_I8 => Some 1
  | Ity_I16 => Some 2
  | Ity_I32 => Some 4
  | Ity_I64 => Some 8
  | Ity_I128 => Some 16
  | Ity_F16 => Some 2
  | Ity_F32 => Some 4
  | Ity_F64 => Some 8
  | Ity_F128 => Some 16
  | Ity_D32 => Some 4
  | Ity_D64 => Some 8
  | Ity_D128 => Some 16
  | Ity_V128 => Some 16
  | Ity_V256 => Some 32
  | Ity_INVALID | Ity_I1 => None
  end.

(** [mkIRExpr_HWord] on a 64-bit host. *)
Definition mkIRExpr_HWord (hw : Z) : IRExpr := Iex_Const (Ico_U64 (wrap hw)).

(** A helper call without a result, with a guard that is always true, that declares no effects. *)
Definition unsafeIRDirty_0_N (rp : Z) (name : string) (h : helper) (l : list IRExpr) : IRDirty :=
  mkIRDirty (mkIRCallee rp name h 0) (Iex_Const (Ico_U1 1)) l None Ifx_None None 0 [].

Definition set_guard (g : IRExpr) (d : IRDirty) : IRDirty :=
  mkIRDirty (cee d) g (args d) (d_tmp d) (mFx d) (mAddr d) (mSize d) (fxState d).

Definition deepCopyIRSBExceptStmts (bb : IRSB) : IRSB :=
  mkIRSB (tyenv bb) [] (next bb) (jumpkind bb) (offsIP bb).

(** Append a statement. *)
Definition add_stmt (st : IRStmt) (sb : IRSB) : IRSB :=
  mkIRSB (tyenv sb) (stmts sb ++ [Some st]) (next sb) (jumpkind sb) (offsIP sb).

(** A new temporary: its number is the number of those before it. *)
Definition add_temp (ty : IRType) (sb : IRSB) : IRSB :=
  mkIRSB (tyenv sb ++ [ty]) (stmts sb) (next sb) (jumpkind sb) (offsIP sb).

Definition next_temp (sb : IRSB) : Z := Z.of_nat (length (tyenv sb)).
