(* ===== verification/IRSane.v ===== *)
(** The sanity check of the intermediate representation (ir_defs.c, isFlatIRStmt to sanityCheckIRSB),
    which the translation runs on superblocks: expressions are flat, every temporary is assigned
    once and before it is read, and everything is well-typed.

    The check panics when a block is bad; here it is a boolean that is false where the code calls
    sanityCheckFail, fails an assertion, panics in a function of the types or reads through a null
    pointer.  The array of counters is a function; its bound is the number of temporaries, which
    the code tests before it reads or writes the array.  The size of the array of statements is not
    part of the blocks of IR.v, and neither is the test of it. *)
From S2P Require Import Prelude IR.
Local Open Scope Z_scope.

(** The argument types of the operations the tool does not emit; [Ity_INVALID] where there is no such
    argument. *)
Class PrimopArgs : Type := { argsOfPrimop_rest : Z -> IRType * IRType * IRType * IRType }.

Definition IRTemp_INVALID : Z := 2 ^ 32 - 1.

Definition VEX_N_FXSTATE : Z := 7.

(** * Tests on types that may be missing *)

Definition has_type (o : option IRType) (ty : IRType) : bool :=
  match o with Some t => bool_decide (t = ty) | None => false end.

Definition not_type (o : option IRType) (ty : IRType) : bool :=
  match o with Some t => negb (bool_decide (t = ty)) | None => false end.

Definition same_type (o1 o2 : option IRType) : bool :=
  match o1, o2 with Some t1, Some t2 => bool_decide (t1 = t2) | _, _ => false end.

(** * Flatness *)

Definition is_IRExpr_VECRET_or_GSPTR (e : IRExpr) : bool :=
  match e with Iex_VECRET | Iex_GSPTR => true | _ => false end.

Definition isIRAtom_or_VECRET_or_GSPTR (e : IRExpr) : bool := isIRAtom e || is_IRExpr_VECRET_or_GSPTR e.

(** An expression that may be missing. *)
Definition if_there (f : IRExpr -> bool) (o : option IRExpr) : bool :=
  match o with Some e => f e | None => true end.

(** The right-hand side of an assignment: all its subexpressions are atoms. *)
Definition flat_rhs (e : IRExpr) : bool :=
  match e with
  | Iex_Binder _ | Iex_Get _ _ | Iex_RdTmp _ | Iex_Const _ => true
  | Iex_GetI _ ix _ => isIRAtom ix
  | Iex_Qop _ a1 a2 a3 a4 => isIRAtom a1 && isIRAtom a2 && isIRAtom a3 && isIRAtom a4
  | Iex_Triop _ a1 a2 a3 => isIRAtom a1 && isIRAtom a2 && isIRAtom a3
  | Iex_Binop _ a1 a2 => isIRAtom a1 && isIRAtom a2
  | Iex_Unop _ a => isIRAtom a
  | Iex_Load _ _ a => isIRAtom a
  | Iex_CCall _ _ args => forallb isIRAtom args
  | Iex_ITE c t f => isIRAtom c && isIRAtom t && isIRAtom f
  | Iex_VECRET | Iex_GSPTR | Iex_NULL => false
  end.

(** The only place where an expression may be no atom is the right-hand side of an assignment. *)
Definition isFlatIRStmt (st : IRStmt) : bool :=
  match st with
  | Ist_AbiHint base _ nia => isIRAtom base && isIRAtom nia
  | Ist_Put _ data => isIRAtom data
  | Ist_PutI _ ix _ data => isIRAtom ix && isIRAtom data
  | Ist_WrTmp _ e => flat_rhs e
  | Ist_Store _ a data => isIRAtom a && isIRAtom data
  | Ist_StoreG sg => isIRAtom (sg_addr sg) && isIRAtom (sg_data sg) && isIRAtom (sg_guard sg)
  | Ist_LoadG _ _ _ a alt g => isIRAtom a && isIRAtom alt && isIRAtom g
  | Ist_CAS cas =>
      isIRAtom (cas_addr cas) && if_there isIRAtom (expdHi cas) && isIRAtom (expdLo cas) &&
      if_there isIRAtom (dataHi cas) && isIRAtom (dataLo cas)
  | Ist_LLSC _ _ a storedata => isIRAtom a && if_there isIRAtom storedata
  | Ist_Dirty di =>
      isIRAtom (guard di) && forallb isIRAtom_or_VECRET_or_GSPTR (args di) && if_there isIRAtom (mAddr di)
  | Ist_NoOp | Ist_IMark _ _ _ | Ist_MBE _ => true
  | Ist_Exit g _ _ _ => isIRAtom g
  | Ist_Flush a _ => isIRAtom a
  end.

(** * Parts of a block *)

Definition saneIRRegArray (arr : IRRegArray) : bool :=
  (0 <=? ra_base arr) && (ra_base arr <=? 10000) && negb (bool_decide (elemTy arr = Ity_I1)) &&
  (0 <? nElems_ arr) && (nElems_ arr <=? 500).

(** The address of a helper: those of the tool are not null. *)
Definition null_helper (h : helper) : bool := match h with other_helper a => a =? 0 | _ => false end.

Definition saneIRCallee (c : IRCallee) : bool :=
  negb (null_helper (cee_addr c)) && (0 <=? regparms c) && (regparms c <=? 3).

Definition saneIRConst (con : IRConst) : bool :=
  match con with Ico_U1 v => (v =? 1) || (v =? 0) | _ => true end.

Definition countArgs (l : list IRExpr) : Z := Z.of_nat (length l).

(** * Every temporary is defined once, before its uses *)

Definition counts := Z -> Z.

(** The temporary [tmp] of a block with [n] ones can be read. *)
Definition useBeforeDef_Temp (n : Z) (def_counts : counts) (tmp : Z) : bool :=
  (0 <=? tmp) && (tmp <? n) && (1 <=? def_counts tmp).

Definition assignedOnce_Temp (n : Z) (tmp : Z) (def_counts : counts) : option counts :=
  if (tmp <? 0) || (n <=? tmp) then None
  else
    let def_counts := fun t => if t =? tmp then def_counts t + 1 else def_counts t in
    if 1 <? def_counts tmp then None else Some def_counts.

Fixpoint useBeforeDef_Expr (n : Z) (def_counts : counts) (e : IRExpr) : bool :=
  match e with
  | Iex_Get _ _ | Iex_Const _ => true
  | Iex_GetI _ ix _ => useBeforeDef_Expr n def_counts ix
  | Iex_RdTmp tmp => useBeforeDef_Temp n def_counts tmp
  | Iex_Qop _ a1 a2 a3 a4 =>
      useBeforeDef_Expr n def_counts a1 && useBeforeDef_Expr n def_counts a2 &&
      useBeforeDef_Expr n def_counts a3 && useBeforeDef_Expr n def_counts a4
  | Iex_Triop _ a1 a2 a3 =>
      useBeforeDef_Expr n def_counts a1 && useBeforeDef_Expr n def_counts a2 &&
      useBeforeDef_Expr n def_counts a3
  | Iex_Binop _ a1 a2 => useBeforeDef_Expr n def_counts a1 && useBeforeDef_Expr n def_counts a2
  | Iex_Unop _ a => useBeforeDef_Expr n def_counts a
  | Iex_Load _ _ a => useBeforeDef_Expr n def_counts a
  | Iex_CCall _ _ args =>
      forallb (fun a => negb (is_IRExpr_VECRET_or_GSPTR a) && useBeforeDef_Expr n def_counts a) args
  | Iex_ITE c t f =>
      useBeforeDef_Expr n def_counts c && useBeforeDef_Expr n def_counts t &&
      useBeforeDef_Expr n def_counts f
  | Iex_Binder _ | Iex_VECRET | Iex_GSPTR | Iex_NULL => false
  end.

(** The guard of a helper call is not looked at. *)
Definition useBeforeDef_Stmt (n : Z) (def_counts : counts) (st : IRStmt) : bool :=
  let use := useBeforeDef_Expr n def_counts in
  match st with
  | Ist_IMark _ _ _ | Ist_NoOp | Ist_MBE _ => true
  | Ist_AbiHint base _ nia => use base && use nia
  | Ist_Put _ data => use data
  | Ist_PutI _ ix _ data => use ix && use data
  | Ist_WrTmp _ data => use data
  | Ist_Store _ a data => use a && use data
  | Ist_StoreG sg => use (sg_addr sg) && use (sg_data sg) && use (sg_guard sg)
  | Ist_LoadG _ _ _ a alt g => use a && use alt && use g
  | Ist_CAS cas =>
      use (cas_addr cas) && if_there use (expdHi cas) && use (expdLo cas) &&
      if_there use (dataHi cas) && use (dataLo cas)
  | Ist_LLSC _ _ a storedata => use a && if_there use storedata
  | Ist_Dirty d =>
      forallb (fun a => is_IRExpr_VECRET_or_GSPTR a || use a) (args d) &&
      match mFx d, mAddr d with
      | Ifx_None, _ => true
      | _, Some a => use a
      | _, None => false
      end
  | Ist_Exit g _ _ _ => use g
  | Ist_Flush a _ => use a
  end.

Definition assignedOnce_Stmt (n : Z) (st : IRStmt) (def_counts : counts) : option counts :=
  match st with
  | Ist_WrTmp tmp _ => assignedOnce_Temp n tmp def_counts
  | Ist_LoadG _ _ dst _ _ _ => assignedOnce_Temp n dst def_counts
  | Ist_Dirty d =>
      match d_tmp d with Some tmp => assignedOnce_Temp n tmp def_counts | None => Some def_counts end
  | Ist_CAS cas =>
      (if oldHi cas =? IRTemp_INVALID then Some def_counts
       else assignedOnce_Temp n (oldHi cas) def_counts) ≫= assignedOnce_Temp n (oldLo cas)
  | Ist_LLSC _ result _ _ => assignedOnce_Temp n result def_counts
  | _ => Some def_counts
  end.

(** * Types *)

Section Types.
Context `{PrimopTypes} `{PrimopArgs}.

(** The argument types of an operation. *)
Definition argsOfPrimop (op : IROp) : IRType * IRType * IRType * IRType :=
  let UNARY t := (t, Ity_INVALID, Ity_INVALID, Ity_INVALID) in
  let BINARY t1 t2 := (t1, t2, Ity_INVALID, Ity_INVALID) in
  match op with
  | Iop_Or8 | Iop_Xor8 | Iop_CasCmpEQ8 => BINARY Ity_I8 Ity_I8
  | Iop_Or16 | Iop_Xor16 | Iop_CasCmpEQ16 => BINARY Ity_I16 Ity_I16
  | Iop_Add32 | Iop_Or32 | Iop_Xor32 | Iop_CasCmpEQ32 => BINARY Ity_I32 Ity_I32
  | Iop_Add64 | Iop_Or64 | Iop_Xor64 | Iop_CasCmpEQ64 => BINARY Ity_I64 Ity_I64
  | Iop_1Uto64 => UNARY Ity_I1
  | Iop_8Uto64 => UNARY Ity_I8
  | Iop_16Uto64 => UNARY Ity_I16
  | Iop_32Uto64 => UNARY Ity_I32
  | Iop_ReinterpF64asI64 => UNARY Ity_F64
  | Iop_V128to64 | Iop_V128HIto64 => UNARY Ity_V128
  | Iop_V256to64_0 | Iop_V256to64_1 | Iop_V256to64_2 | Iop_V256to64_3 => UNARY Ity_V256
  | Iop_other n => argsOfPrimop_rest n
  end.

(** The result type of a guarded load; [None] where the code panics. *)
Definition typeOfIRLoadGOp (cvt : IRLoadGOp) : option (IRType * IRType) :=
  match cvt with
  | ILGop_IdentV128 => Some (Ity_V128, Ity_V128)
  | ILGop_Ident64 => Some (Ity_I64, Ity_I64)
  | ILGop_Ident32 => Some (Ity_I32, Ity_I32)
  | ILGop_16Uto32 | ILGop_16Sto32 => Some (Ity_I32, Ity_I16)
  | ILGop_8Uto32 | ILGop_8Sto32 => Some (Ity_I32, Ity_I8)
  | ILGop_INVALID => None
  end.

Definition is_arg (ty : IRType) : bool := negb (bool_decide (ty = Ity_INVALID)).

Fixpoint tcExpr (env : list IRType) (gWordTy : IRType) (e : IRExpr) : bool :=
  let typeOf := typeOfIRExpr env in
  match e with
  | Iex_Get _ _ | Iex_RdTmp _ => true
  | Iex_GetI descr ix _ => tcExpr env gWordTy ix && has_type (typeOf ix) Ity_I32 && saneIRRegArray descr
  | Iex_Qop op a1 a2 a3 a4 =>
      let '(t1, t2, t3, t4) := argsOfPrimop op in
      tcExpr env gWordTy a1 && tcExpr env gWordTy a2 && tcExpr env gWordTy a3 && tcExpr env gWordTy a4 &&
      is_arg t1 && is_arg t2 && is_arg t3 && is_arg t4 &&
      has_type (typeOf a1) t1 && has_type (typeOf a2) t2 && has_type (typeOf a3) t3 && has_type (typeOf a4) t4
  | Iex_Triop op a1 a2 a3 =>
      let '(t1, t2, t3, t4) := argsOfPrimop op in
      tcExpr env gWordTy a1 && tcExpr env gWordTy a2 && tcExpr env gWordTy a3 &&
      is_arg t1 && is_arg t2 && is_arg t3 && negb (is_arg t4) &&
      has_type (typeOf a1) t1 && has_type (typeOf a2) t2 && has_type (typeOf a3) t3
  | Iex_Binop op a1 a2 =>
      let '(t1, t2, t3, t4) := argsOfPrimop op in
      tcExpr env gWordTy a1 && tcExpr env gWordTy a2 &&
      is_arg t1 && is_arg t2 && negb (is_arg t3) && negb (is_arg t4) &&
      has_type (typeOf a1) t1 && has_type (typeOf a2) t2
  | Iex_Unop op a =>
      let '(t1, t2, t3, t4) := argsOfPrimop op in
      tcExpr env gWordTy a && is_arg t1 && negb (is_arg t2) && negb (is_arg t3) && negb (is_arg t4) &&
      has_type (typeOf a) t1
  | Iex_Load _ _ a => tcExpr env gWordTy a && has_type (typeOf a) gWordTy
  | Iex_CCall cee retty args =>
      saneIRCallee cee && (regparms cee <=? countArgs args) && (countArgs args <=? 32) &&
      forallb (fun a => negb (is_IRExpr_VECRET_or_GSPTR a) && tcExpr env gWordTy a) args &&
      negb (bool_decide (retty = Ity_I1)) && forallb (fun a => not_type (typeOf a) Ity_I1) args
  | Iex_Const con => saneIRConst con
  | Iex_ITE c t f =>
      tcExpr env gWordTy c && tcExpr env gWordTy t && tcExpr env gWordTy f &&
      has_type (typeOf c) Ity_I1 && same_type (typeOf t) (typeOf f)
  | Iex_Binder _ | Iex_VECRET | Iex_GSPTR | Iex_NULL => false
  end.

(** The effects on the guest state that a helper call declares. *)
Definition sane_fx (f : IRFxState) : bool :=
  match fx f with Ifx_None => false | _ => true end && (0 <? fx_size f) &&
  (if nRepeats f =? 0 then repeatLen f =? 0
   else (fx_size f <? repeatLen f) && (repeatLen f mod fx_size f =? 0)).

(** The arguments of a helper call with the result type [retTy], from the [i]-th on; the result is
    the number of pointers to the guest state among them. *)
Fixpoint tc_dirty_args (env : list IRType) (retTy : IRType) (i nVECRETs nGSPTRs : Z) (l : list IRExpr)
    : option Z :=
  match l with
  | [] => Some nGSPTRs
  | a :: l =>
      if 32 <=? i then None
      else
        let nVECRETs := match a with Iex_VECRET => nVECRETs + 1 | _ => nVECRETs end in
        let nGSPTRs := match a with Iex_GSPTR => nGSPTRs + 1 | _ => nGSPTRs end in
        let vector := bool_decide (retTy = Ity_V128) || bool_decide (retTy = Ity_V256) in
        if (is_IRExpr_VECRET_or_GSPTR a || not_type (typeOfIRExpr env a) Ity_I1) && (nGSPTRs <=? 1) &&
           (if nVECRETs =? 1 then vector else if nVECRETs =? 0 then negb vector else false)
        then tc_dirty_args env retTy (i + 1) nVECRETs nGSPTRs l
        else None
  end.

Definition tc_dirty (env : list IRType) (gWordTy : IRType) (d : IRDirty) : bool :=
  saneIRCallee (cee d) && (regparms (cee d) <=? countArgs (args d)) &&
  match mFx d, mAddr d with
  | Ifx_None, None => mSize d =? 0
  | Ifx_None, Some _ | _, None => false
  | _, Some _ => negb (mSize d =? 0)
  end &&
  (Z.of_nat (length (fxState d)) <=? VEX_N_FXSTATE) && forallb sane_fx (fxState d) &&
  tcExpr env gWordTy (guard d) && has_type (typeOfIRExpr env (guard d)) Ity_I1 &&
  match match d_tmp d with Some t => typeOfIRTemp env t | None => Some Ity_INVALID end with
  | Some retTy =>
      negb (bool_decide (retTy = Ity_I1)) &&
      match tc_dirty_args env retTy 0 0 0 (args d) with
      | Some nGSPTRs =>
          (nGSPTRs <=? 1) && negb (bool_decide (fxState d = []) && negb (nGSPTRs =? 0))
      | None => false
      end
  | None => false
  end.

(** The integer types a load-linked or store-conditional moves. *)
Definition llsc_type (o : option IRType) : bool :=
  match o with Some (Ity_I64 | Ity_I32 | Ity_I16 | Ity_I8) => true | _ => false end.

Definition tc_cas (env : list IRType) (gWordTy : IRType) (cas : IRCAS) : bool :=
  let typeOf := typeOfIRExpr env in
  match oldHi cas =? IRTemp_INVALID, expdHi cas, dataHi cas with
  | true, None, None => true
  | false, Some eHi, Some dHi =>
      same_type (typeOf eHi) (typeOf dHi) && same_type (typeOf eHi) (typeOfIRTemp env (oldHi cas)) &&
      same_type (typeOfIRTemp env (oldHi cas)) (typeOfIRTemp env (oldLo cas))
  | _, _, _ => false
  end &&
  tcExpr env gWordTy (cas_addr cas) && has_type (typeOf (cas_addr cas)) gWordTy &&
  same_type (typeOf (expdLo cas)) (typeOf (dataLo cas)) &&
  same_type (typeOf (expdLo cas)) (typeOfIRTemp env (oldLo cas)) &&
  match typeOf (expdLo cas) with
  | Some (Ity_I8 | Ity_I16 | Ity_I32) => true
  | Some Ity_I64 => bool_decide (gWordTy = Ity_I64)
  | _ => false
  end.

Definition tcStmt (env : list IRType) (gWordTy : IRType) (st : IRStmt) : bool :=
  let typeOf := typeOfIRExpr env in
  let tc := tcExpr env gWordTy in
  match st with
  | Ist_IMark _ len delta => (len <=? 24) && (delta <=? 1)
  | Ist_AbiHint base _ nia => has_type (typeOf base) gWordTy && has_type (typeOf nia) gWordTy
  | Ist_Put _ data => tc data && not_type (typeOf data) Ity_I1
  | Ist_PutI descr ix _ data =>
      tc data && tc ix && not_type (typeOf data) Ity_I1 && has_type (typeOf data) (elemTy descr) &&
      has_type (typeOf ix) Ity_I32 && saneIRRegArray descr
  | Ist_WrTmp tmp data => tc data && same_type (typeOfIRTemp env tmp) (typeOf data)
  | Ist_Store _ a data =>
      tc a && tc data && has_type (typeOf a) gWordTy && not_type (typeOf data) Ity_I1
  | Ist_StoreG sg =>
      tc (sg_addr sg) && tc (sg_data sg) && tc (sg_guard sg) && has_type (typeOf (sg_addr sg)) gWordTy &&
      not_type (typeOf (sg_data sg)) Ity_I1 && has_type (typeOf (sg_guard sg)) Ity_I1
  | Ist_LoadG _ cvt dst a alt g =>
      tc a && tc alt && tc g && has_type (typeOf g) Ity_I1 && has_type (typeOf a) gWordTy &&
      same_type (typeOf alt) (typeOfIRTemp env dst) &&
      match typeOfIRLoadGOp cvt with
      | Some (cvtRes, _) => has_type (typeOfIRTemp env dst) cvtRes
      | None => false
      end
  | Ist_CAS cas => tc_cas env gWordTy cas
  | Ist_LLSC _ result a storedata =>
      has_type (typeOf a) gWordTy &&
      match storedata with
      | None => llsc_type (typeOfIRTemp env result)
      | Some data => has_type (typeOfIRTemp env result) Ity_I1 && llsc_type (typeOf data)
      end
  | Ist_Dirty d => tc_dirty env gWordTy d
  | Ist_NoOp | Ist_MBE _ => true
  | Ist_Exit g _ dst offsIP =>
      tc g && has_type (typeOf g) Ity_I1 && saneIRConst dst && bool_decide (typeOfIRConst dst = gWordTy) &&
      (16 <=? offsIP)
  | Ist_Flush a _ => tc a && has_type (typeOf a) gWordTy
  end.

(** * The whole check *)

(** A test of an entry of the array of statements, which may be a null pointer. *)
Definition entry (f : IRStmt -> bool) (o : option IRStmt) : bool :=
  match o with Some st => f st | None => false end.

(** The loop that counts the definitions: the uses of each statement, then what it defines. *)
Fixpoint count_defs (n : Z) (l : list (option IRStmt)) (def_counts : counts) : option counts :=
  match l with
  | [] => Some def_counts
  | None :: _ => None
  | Some st :: l =>
      if useBeforeDef_Stmt n def_counts st then assignedOnce_Stmt n st def_counts ≫= count_defs n l
      else None
  end.

(** Every value of the enumeration is plausible, so that test cannot fail. *)
Definition sanityCheckIRSB (bb : IRSB) (require_flat : bool) (guest_word_size : IRType) : bool :=
  (bool_decide (guest_word_size = Ity_I32) || bool_decide (guest_word_size = Ity_I64)) &&
  (negb require_flat || forallb (entry isFlatIRStmt) (stmts bb) && isIRAtom (next bb)) &&
  bool_decide (is_Some (count_defs (next_temp bb) (stmts bb) (fun _ => 0))) &&
  forallb (entry (tcStmt (tyenv bb) guest_word_size)) (stmts bb) &&
  has_type (typeOfIRExpr (tyenv bb) (next bb)) guest_word_size && (16 <=? offsIP bb).
End Types.
