(* ===== verification/Instr.v ===== *)
(** The instrumentation: pmc_instrument and the functions of pmc_main.c it calls to add helper
    calls to a superblock. *)
From S2P Require Import Prelude OSet Region Core Trans Pmem IR.
Local Open Scope Z_scope.
Local Open Scope pm_scope.

Definition MAX_DSIZE : Z := 256.

(** The block being built, and the globals for the messages. *)
Record instr_state : Type := mkInstr { sbOut : IRSB; i_glob : globals }.

#[export] Instance has_globals_instr : HasGlobals instr_state :=
  {| the_globals := i_glob; with_globals g s := mkInstr (sbOut s) g |}.

Abbreviation IM := (M instr_state).

Definition on_sb (f : IRSB -> IRSB) : IM unit := modM (fun s => mkInstr (f (sbOut s)) (i_glob s)).

Definition addStmtToIRSB (st : IRStmt) : IM unit := on_sb (add_stmt st).

Definition newIRTemp (ty : IRType) : IM Z :=
  t <- getsM (fun s => next_temp (sbOut s)) ;; on_sb (add_temp ty) ;;; retM t.

Definition assertM (b : bool) : IM unit := if b then retM tt else stopM AssertFail.

(** The numbers of the two enumerations a message prints. *)
Definition type_code (ty : IRType) : Z :=
  4352 + match ty with
         | Ity_INVALID => 0 | Ity_I1 => 1 | Ity_I8 => 2 | Ity_I16 => 3 | Ity_I32 => 4 | Ity_I64 => 5
         | Ity_I128 => 6 | Ity_F16 => 7 | Ity_F32 => 8 | Ity_F64 => 9 | Ity_D32 => 10 | Ity_D64 => 11
         | Ity_D128 => 12 | Ity_F128 => 13 | Ity_V128 => 14 | Ity_V256 => 15
         end.

Definition tag_code (e : IRExpr) : option Z :=
  match e with
  | Iex_NULL => None
  | Iex_Binder _ => Some 6400 | Iex_Get _ _ => Some 6401 | Iex_GetI _ _ _ => Some 6402
  | Iex_RdTmp _ => Some 6403 | Iex_Qop _ _ _ _ _ => Some 6404 | Iex_Triop _ _ _ _ => Some 6405
  | Iex_Binop _ _ _ => Some 6406 | Iex_Unop _ _ => Some 6407 | Iex_Load _ _ _ => Some 6408
  | Iex_Const _ => Some 6409 | Iex_ITE _ _ _ => Some 6410 | Iex_CCall _ _ _ => Some 6411
  | Iex_VECRET => Some 6412 | Iex_GSPTR => Some 6413
  end.

(** [(UInt)x]. *)
Definition uint32 (z : Z) : Z := z mod 2 ^ 32.

(** Check if a temporary of the type needs to be widened. *)
Definition tmp_needs_widen (ty : IRType) : bool :=
  match ty with Ity_I1 | Ity_I8 | Ity_I16 | Ity_I32 => true | _ => false end.

(** Check if the const expression needs to be widened. *)
Definition const_needs_widen (e : IRExpr) : bool :=
  match e with
  | Iex_Const (Ico_U1 _ | Ico_U8 _ | Ico_U16 _ | Ico_U32 _ | Ico_U64 _) => true
  | _ => false
  end.

(** Widen a given const expression to a word sized expression, by way of a 32-bit word. *)
Definition widen_const (e : IRExpr) : option IRExpr :=
  match e with
  | Iex_Const (Ico_U1 v | Ico_U8 v | Ico_U16 v | Ico_U32 v | Ico_U64 v) => Some (mkIRExpr_HWord (uint32 v))
  | _ => None
  end.

Section Instrument.
Context `{PrimopTypes}.

Definition typeOf (e : IRExpr) : IM IRType :=
  env <- getsM (fun s => tyenv (sbOut s)) ;; liftM AssertFail (typeOfIRExpr env e).

(** Make a new atomic expression from e. *)
Definition make_expr (ty : IRType) (e : IRExpr) : IM IRExpr :=
  tyE <- typeOf e ;;
  assertM (bool_decide (tyE = ty)) ;;;
  t <- newIRTemp tyE ;;
  addStmtToIRSB (Ist_WrTmp t e) ;;;
  retM (Iex_RdTmp t).

(** A generic widening function. *)
Definition widen_operation (e : IRExpr) : IM IROp :=
  ty <- typeOf e ;;
  match ty with
  | Ity_I1 => retM Iop_1Uto64
  | Ity_I8 => retM Iop_8Uto64
  | Ity_I16 => retM Iop_16Uto64
  | Ity_I32 => retM Iop_32Uto64
  | _ => stopM AssertFail
  end.

(** The call of the helper for stores. *)
Definition add_store_call (daddr : IRExpr) (dsize : Z) (g : option IRExpr) (v : IRExpr) : IM unit :=
  let di := unsafeIRDirty_0_N 3 "trace_pmem_store" trace_pmem_store_h [daddr; mkIRExpr_HWord dsize; v] in
  addStmtToIRSB (Ist_Dirty (match g with Some g => set_guard g di | None => di end)).

(** The parts of a wide value, with their offsets from the address. *)
Definition wide_parts (ty : IRType) (e : IREndness) : list (IROp * Z) :=
  match ty, e with
  | Ity_V256, Iend_LE =>
      [(Iop_V256to64_0, 0); (Iop_V256to64_1, 8); (Iop_V256to64_2, 16); (Iop_V256to64_3, 24)]
  | Ity_V256, Iend_BE =>
      [(Iop_V256to64_0, 24); (Iop_V256to64_1, 16); (Iop_V256to64_2, 8); (Iop_V256to64_3, 0)]
  | Ity_V128, Iend_LE => [(Iop_V128to64, 0); (Iop_V128HIto64, 8)]
  | Ity_V128, Iend_BE => [(Iop_V128to64, 8); (Iop_V128HIto64, 0)]
  | _, _ => []
  end.

Fixpoint for_parts (parts : list (IROp * Z)) (body : IROp -> Z -> IM unit) : IM unit :=
  match parts with
  | [] => retM tt
  | (op, off) :: parts => body op off ;;; for_parts parts body
  end.

(** Handle wide sse operations. *)
Definition handle_wide_expr (e : IREndness) (a data : IRExpr) (g : option IRExpr) (sz : Z) : IM unit :=
  ty <- typeOf data ;;
  tyAddr <- typeOf a ;;
  assertM (bool_decide (tyAddr = Ity_I32) || bool_decide (tyAddr = Ity_I64)) ;;;
  let parts := wide_parts ty e in
  for_parts parts (fun op off =>
    let '(mkAdd, eBias) :=
      if bool_decide (tyAddr = Ity_I32) then (Iop_Add32, Iex_Const (Ico_U32 off))
      else (Iop_Add64, Iex_Const (Ico_U64 off)) in
    a_i <- make_expr tyAddr (Iex_Binop mkAdd a eBias) ;;
    d_i <- make_expr Ity_I64 (Iex_Unop op data) ;;
    add_store_call a_i (sz / Z.of_nat (length parts)) g d_i).

(** Add a guarded write event. *)
Definition add_event_dw_guarded (daddr : IRExpr) (dsize : Z) (g : option IRExpr) (v : IRExpr) : IM unit :=
  assertM (isIRAtom daddr) ;;;
  assertM (isIRAtom v) ;;;
  assertM ((1 <=? dsize) && (dsize <=? MAX_DSIZE)) ;;;
  ty <- typeOf v ;;
  let is_tmp := match v with Iex_RdTmp _ => true | _ => false end in
  if is_tmp && bool_decide (ty = Ity_I64) then add_store_call daddr dsize g v
  else if is_tmp && bool_decide (ty = Ity_F64) then
    d <- make_expr Ity_I64 (Iex_Unop Iop_ReinterpF64asI64 v) ;; add_store_call daddr dsize g d
  else if is_tmp && tmp_needs_widen ty then
    op <- widen_operation v ;;
    d <- make_expr Ity_I64 (Iex_Unop op v) ;; add_store_call daddr dsize g d
  else if const_needs_widen v then
    c <- liftM AssertFail (widen_const v) ;; add_store_call daddr dsize g c
  else if bool_decide (ty = Ity_V128) || bool_decide (ty = Ity_V256) then
    handle_wide_expr Iend_LE daddr v g dsize
  else
    tag <- liftM NullDeref (tag_code v) ;;
    umsg "Unable to trace store - unsupported type of store 0x%x 0x%x\n" [Num tag; Num (type_code ty)].

(** Add an ordinary write event. *)
Definition add_event_dw (daddr : IRExpr) (dsize : Z) (v : IRExpr) : IM unit :=
  add_event_dw_guarded daddr dsize None v.

(** Add an ordinary flush event. *)
Definition add_flush_event (daddr : IRExpr) : IM unit :=
  assertM (isIRAtom daddr) ;;;
  addStmtToIRSB (Ist_Dirty (unsafeIRDirty_0_N 1 "trace_pmem_flush" trace_pmem_flush_h [daddr])).

(** Add an event without any parameters. *)
Definition add_simple_event (h : helper) (name : string) : IM unit :=
  addStmtToIRSB (Ist_Dirty (unsafeIRDirty_0_N 0 name h [])).

(** The operations to compare two values of the type of a compare-and-swap. *)
Definition cas_ops (ty : IRType) : option (IROp * IROp * IROp) :=
  match ty with
  | Ity_I8 => Some (Iop_CasCmpEQ8, Iop_Or8, Iop_Xor8)
  | Ity_I16 => Some (Iop_CasCmpEQ16, Iop_Or16, Iop_Xor16)
  | Ity_I32 => Some (Iop_CasCmpEQ32, Iop_Or32, Iop_Xor32)
  | Ity_I64 => Some (Iop_CasCmpEQ64, Iop_Or64, Iop_Xor64)
  | _ => None
  end.

(** A double compare-and-swap: the variable [zero] is a null pointer, and the second address is
    computed from the pointer to the first one; reading the result is undefined. *)
Definition instrument_dcas (cas : IRCAS) (loType : IRType) (dataSize : Z) (ops : IROp * IROp * IROp)
    : IM unit :=
  let '(opCasCmpEQ, opOr, opXor) := ops in
  xHi <- make_expr loType (Iex_Binop opXor (default Iex_NULL (expdHi cas)) (Iex_RdTmp (oldHi cas))) ;;
  xLo <- make_expr loType (Iex_Binop opXor (expdLo cas) (Iex_RdTmp (oldLo cas))) ;;
  xHL <- make_expr loType (Iex_Binop opOr xHi xLo) ;;
  g <- make_expr Ity_I1 (Iex_Binop opCasCmpEQ xHL Iex_NULL) ;;
  add_event_dw_guarded (cas_addr cas) dataSize (Some g) (dataLo cas) ;;;
  stopM Undefined.

Definition instrument_cas (env : list IRType) (cas : IRCAS) : IM unit :=
  dataTy <- liftM AssertFail (typeOfIRExpr env (dataLo cas)) ;;
  dataSize <- liftM AssertFail (sizeofIRType dataTy) ;;
  addStmtToIRSB (Ist_CAS cas) ;;;
  loType <- liftM AssertFail (typeOfIRExpr env (expdLo cas)) ;;
  ops <- liftM AssertFail (cas_ops loType) ;;
  match dataHi cas with
  | Some _ => instrument_dcas cas loType dataSize ops
  | None =>
      g <- make_expr Ity_I1 (Iex_Binop (fst (fst ops)) (expdLo cas) (Iex_RdTmp (oldLo cas))) ;;
      add_event_dw_guarded (cas_addr cas) dataSize (Some g) (dataLo cas)
  end.

(** The size of the data of a store. *)
Definition store_size (env : list IRType) (data : IRExpr) : IM Z :=
  ty <- liftM AssertFail (typeOfIRExpr env data) ;;
  assertM (negb (bool_decide (ty = Ity_INVALID))) ;;;
  liftM AssertFail (sizeofIRType ty).

(** One statement of the second loop; [env] is the type environment of the original block. *)
Definition instrument_stmt (o : options) (env : list IRType) (st : IRStmt) : IM unit :=
  match st with
  | Ist_NoOp => retM tt
  | Ist_IMark _ _ _ | Ist_AbiHint _ _ _ | Ist_Put _ _ | Ist_PutI _ _ _ _ | Ist_LoadG _ _ _ _ _ _
  | Ist_WrTmp _ _ | Ist_Exit _ _ _ _ | Ist_Dirty _ => addStmtToIRSB st
  | Ist_Flush a fk =>
      addStmtToIRSB st ;;;
      whenM (automatic_isa_rec o)
        (ty <- liftM AssertFail (typeOfIRExpr env a) ;;
         assertM (negb (bool_decide (ty = Ity_INVALID))) ;;;
         add_flush_event a ;;;
         match fk with
         | Ifk_flush => whenM (negb (weak_clflush o)) (add_simple_event do_fence_h "do_fence")
         | _ => retM tt
         end)
  | Ist_MBE event =>
      addStmtToIRSB st ;;;
      whenM (automatic_isa_rec o)
        match event with
        | Imbe_Fence | Imbe_SFence => add_simple_event do_fence_h "do_fence"
        | _ => retM tt
        end
  | Ist_Store _ a data =>
      addStmtToIRSB st ;;;
      n <- store_size env data ;;
      add_event_dw a n data
  | Ist_StoreG sg =>
      addStmtToIRSB st ;;;
      n <- store_size env (sg_data sg) ;;
      add_event_dw_guarded (sg_addr sg) n (Some (sg_guard sg)) (sg_data sg)
  | Ist_CAS cas => instrument_cas env cas
  | Ist_LLSC _ _ a storedata =>
      addStmtToIRSB st ;;;
      match storedata with
      | None => retM tt
      | Some d =>
          ty <- liftM AssertFail (typeOfIRExpr env d) ;;
          n <- liftM AssertFail (sizeofIRType ty) ;;
          add_event_dw a n d
      end
  end.

(** The statements before the first instruction mark are copied as they are; the result is the
    rest. *)
Fixpoint copy_preamble (l : list (option IRStmt)) : IM (list (option IRStmt)) :=
  match l with
  | [] => retM []
  | None :: _ => stopM NullDeref
  | Some (Ist_IMark a n d) :: l => retM (Some (Ist_IMark a n d) :: l)
  | Some st :: l => addStmtToIRSB st ;;; copy_preamble l
  end.

Fixpoint instrument_stmts (o : options) (env : list IRType) (l : list (option IRStmt)) : IM unit :=
  match l with
  | [] => retM tt
  | None :: l => instrument_stmts o env l
  | Some st :: l => instrument_stmt o env st ;;; instrument_stmts o env l
  end.

(** The main instrumentation function. *)
Definition pmc_instrument (o : options) (bb : IRSB) (gWordTy hWordTy : IRType) (g : globals)
    : res instr_state unit :=
  let start := mkInstr (deepCopyIRSBExceptStmts bb) g in
  if negb (bool_decide (gWordTy = hWordTy)) then Stop AssertFail start
  else
    (rest <- copy_preamble (stmts bb) ;;
     add_simple_event add_one_SB_entered_h "add_one_SB_entered" ;;;
     instrument_stmts o (tyenv bb) rest) start.
End Instrument.
