(* ===== verification/InstrSpec.v ===== *)
(** The instrumentation calls the helpers for exactly the stores, flushes and fences the client code
    executes, and leaves that code alone.

    The client's statements are run by a parameter; the code the tool adds (assignments to new
    temporaries and helper calls) is run here.  What is compared is the state of the client, the
    temporaries of the original block, whether the block runs to its end, and the sequence of
    helper calls. *)
From S2P Require Import Prelude OSet Region Core Trans Pmem IR Instr.
Local Open Scope Z_scope.
Local Open Scope pm_scope.

(** * Running the added code *)

Definition temps := Z -> Z.

(** A vector constant has a bit for each of its bytes. *)
Fixpoint bytes_of_mask (n : nat) (v : Z) : Z :=
  match n with
  | O => 0
  | S n => (if Z.odd v then 255 else 0) + 2 ^ 8 * bytes_of_mask n (v / 2)
  end.

#[global] Opaque bytes_of_mask.

Definition const_val (con : IRConst) : Z :=
  match con with
  | Ico_U1 v | Ico_U8 v | Ico_U16 v | Ico_U32 v | Ico_U64 v | Ico_F32 v | Ico_F32i v | Ico_F64 v
  | Ico_F64i v => v
  | Ico_V128 v => bytes_of_mask 16 v
  | Ico_V256 v => bytes_of_mask 32 v
  end.

Definition atom_val (tm : temps) (e : IRExpr) : Z :=
  match e with Iex_RdTmp t => tm t | Iex_Const con => const_val con | _ => 0 end.

Definition unop_val (op : IROp) (v : Z) : Z :=
  match op with
  | Iop_1Uto64 => v mod 2
  | Iop_8Uto64 => v mod 2 ^ 8
  | Iop_16Uto64 => v mod 2 ^ 16
  | Iop_32Uto64 => v mod 2 ^ 32
  | Iop_V128to64 | Iop_V256to64_0 => v mod 2 ^ 64
  | Iop_V128HIto64 | Iop_V256to64_1 => v / 2 ^ 64 mod 2 ^ 64
  | Iop_V256to64_2 => v / 2 ^ 128 mod 2 ^ 64
  | Iop_V256to64_3 => v / 2 ^ 192 mod 2 ^ 64
  | _ => v
  end.

Definition same_bits (w a b : Z) : Z := if a mod 2 ^ w =? b mod 2 ^ w then 1 else 0.

Definition binop_val (op : IROp) (a b : Z) : Z :=
  match op with
  | Iop_Add32 => (a + b) mod 2 ^ 32
  | Iop_Add64 => (a + b) mod 2 ^ 64
  | Iop_Or8 | Iop_Or16 | Iop_Or32 | Iop_Or64 => Z.lor a b
  | Iop_Xor8 | Iop_Xor16 | Iop_Xor32 | Iop_Xor64 => Z.lxor a b
  | Iop_CasCmpEQ8 => same_bits 8 a b
  | Iop_CasCmpEQ16 => same_bits 16 a b
  | Iop_CasCmpEQ32 => same_bits 32 a b
  | Iop_CasCmpEQ64 => same_bits 64 a b
  | _ => 0
  end.

Definition expr_val (tm : temps) (e : IRExpr) : Z :=
  match e with
  | Iex_Unop op a => unop_val op (atom_val tm a)
  | Iex_Binop op a b => binop_val op (atom_val tm a) (atom_val tm b)
  | e => atom_val tm e
  end.

(** A call of a helper with its arguments. *)
Record call : Type := mkCall { callee : helper; values : list Z }.

Definition set_temp (t v : Z) (tm : temps) : temps := fun u => if u =? t then v else tm u.

Definition is_on (tm : temps) (g : IRExpr) : bool := negb (atom_val tm g mod 2 =? 0).

(** One statement of the tool. *)
Definition tool_step (st : IRStmt) (tm : temps) : temps * list call :=
  match st with
  | Ist_WrTmp t e => (set_temp t (expr_val tm e) tm, [])
  | Ist_Dirty d =>
      (tm, if is_on tm (guard d) then [mkCall (cee_addr (cee d)) (atom_val tm <$> args d)] else [])
  | _ => (tm, [])
  end.

(** The statements of the tool: assignments to temporaries the original block does not have, and
    calls of its helpers. *)
Definition is_tool (n : Z) (st : IRStmt) : bool :=
  match st with
  | Ist_WrTmp t _ => n <=? t
  | Ist_Dirty d => match cee_addr (cee d) with other_helper _ => false | _ => true end
  | _ => false
  end.

(** * What is expected *)

(** The bits of a value of a type. *)
Definition low_part (ty : IRType) (v : Z) : Z :=
  match ty with
  | Ity_I1 => v mod 2
  | Ity_I8 => v mod 2 ^ 8
  | Ity_I16 => v mod 2 ^ 16
  | Ity_I32 => v mod 2 ^ 32
  | _ => v
  end.

(** The calls for a store of [v] of type [ty] at [a]: one for a value of up to 64 bits, one for each
    64 bits of a vector; none for the other types. *)
Definition store_calls (ty : IRType) (a n v : Z) : list call :=
  let at_ off k := mkCall trace_pmem_store_h [(a + off) mod 2 ^ 64; 8; v / 2 ^ k mod 2 ^ 64] in
  match ty with
  | Ity_I1 | Ity_I8 | Ity_I16 | Ity_I32 | Ity_I64 | Ity_F64 => [mkCall trace_pmem_store_h [a; n; low_part ty v]]
  | Ity_V128 => [at_ 0 0; at_ 8 64]
  | Ity_V256 => [at_ 0 0; at_ 8 64; at_ 16 128; at_ 24 192]
  | _ => []
  end.

(** Constants of at most 64 bits are cut to 32 bits. *)
Definition data_calls (tm : temps) (ty : IRType) (n : Z) (a data : IRExpr) : list call :=
  match data with
  | Iex_Const con =>
      match con with
      | Ico_U1 v | Ico_U8 v | Ico_U16 v | Ico_U32 v | Ico_U64 v =>
          [mkCall trace_pmem_store_h [atom_val tm a; n; wrap (uint32 v)]]
      | Ico_V128 _ | Ico_V256 _ => store_calls ty (atom_val tm a) n (const_val con)
      | _ => []
      end
  | _ => store_calls ty (atom_val tm a) n (atom_val tm data)
  end.

(** A compare-and-swap stores exactly if the old value is the expected one. *)
Definition cas_width (ty : IRType) : Z :=
  match ty with Ity_I8 => 8 | Ity_I16 => 16 | Ity_I32 => 32 | _ => 64 end.

Section Expected.
Context `{PrimopTypes}.

(** The calls for a statement, after it has been executed. *)
Definition expected (o : options) (env : list IRType) (st : IRStmt) (tm : temps) : list call :=
  let stores a data :=
    match typeOfIRExpr env data with
    | Some ty => match sizeofIRType ty with Some n => data_calls tm ty n a data | None => [] end
    | None => []
    end in
  match st with
  | Ist_Store _ a data => stores a data
  | Ist_StoreG sg => if is_on tm (sg_guard sg) then stores (sg_addr sg) (sg_data sg) else []
  | Ist_LLSC _ _ a (Some data) => stores a data
  | Ist_CAS cas =>
      match typeOfIRExpr env (expdLo cas) with
      | Some ty =>
          if same_bits (cas_width ty) (atom_val tm (expdLo cas)) (tm (oldLo cas)) =? 1
          then stores (cas_addr cas) (dataLo cas) else []
      | None => []
      end
  | Ist_Flush a fk =>
      if automatic_isa_rec o then
        mkCall trace_pmem_flush_h [atom_val tm a] ::
        (match fk with Ifk_flush => if weak_clflush o then [] else [mkCall do_fence_h []] | _ => [] end)
      else []
  | Ist_MBE (Imbe_Fence | Imbe_SFence) => if automatic_isa_rec o then [mkCall do_fence_h []] else []
  | _ => []
  end.

(** An atom with a type: a constant, or a temporary of the block. *)
Definition typed_atom (env : list IRType) (e : IRExpr) : Prop :=
  isIRAtom e = true /\ exists ty, typeOfIRExpr env e = Some ty.

Definition store_ok (env : list IRType) (a data : IRExpr) : Prop :=
  isIRAtom a = true /\ isIRAtom data = true /\ typeOfIRExpr env a = Some Ity_I64 /\
  exists ty n, typeOfIRExpr env data = Some ty /\ sizeofIRType ty = Some n.

(** Flat, typed statements of a 64-bit client without double compare-and-swaps. *)
Definition stmt_ok (env : list IRType) (st : IRStmt) : Prop :=
  match st with
  | Ist_WrTmp t _ => t < Z.of_nat (length env)
  | Ist_Dirty d => match cee_addr (cee d) with other_helper _ => True | _ => False end
  | Ist_Store _ a data => store_ok env a data
  | Ist_StoreG sg => store_ok env (sg_addr sg) (sg_data sg) /\ typed_atom env (sg_guard sg)
  | Ist_LLSC _ _ a (Some data) => store_ok env a data
  | Ist_CAS cas =>
      dataHi cas = None /\ store_ok env (cas_addr cas) (dataLo cas) /\ typed_atom env (expdLo cas) /\
      0 <= oldLo cas < Z.of_nat (length env) /\
      exists ty, typeOfIRExpr env (expdLo cas) = Some ty /\ cas_ops ty <> None
  | Ist_Flush a _ => typed_atom env a /\ typeOfIRExpr env a <> Some Ity_INVALID
  | _ => True
  end.
End Expected.

(** * Code that is added *)

Fixpoint run_tool (code : list IRStmt) (tm : temps) : temps * list call :=
  match code with
  | [] => (tm, [])
  | st :: code =>
      let r := tool_step st tm in
      let r' := run_tool code r.1 in
      (r'.1, r.2 ++ r'.2)
  end.

(** Two states of the temporaries below [n]. *)
Definition agree (n : Z) (tm tm' : temps) : Prop := forall t, t < n -> tm t = tm' t.

Lemma agree_refl n tm : agree n tm tm.
Proof. done. Qed.

Definition below (n : Z) (e : IRExpr) : Prop := match e with Iex_RdTmp t => t < n | _ => True end.

Lemma atom_agree n tm tm' e : agree n tm tm' -> below n e -> atom_val tm e = atom_val tm' e.
Proof. destruct e; try done. simpl. auto. Qed.

Lemma set_temp_agree n t v tm : n <= t -> agree n tm (set_temp t v tm).
Proof. intros Hle u Hu. unfold set_temp. by rewrite (proj2 (Z.eqb_neq _ _)) by lia. Qed.

Lemma atom_set n t v tm e : n <= t -> below n e -> atom_val (set_temp t v tm) e = atom_val tm e.
Proof. intros Hle He. symmetry. by apply (atom_agree n); [apply set_temp_agree|]. Qed.

Lemma set_temp_same t v tm : set_temp t v tm t = v.
Proof. unfold set_temp. by rewrite Z.eqb_refl. Qed.

Lemma agree_trans n m tm1 tm2 tm3 : n <= m -> agree n tm1 tm2 -> agree m tm2 tm3 -> agree n tm1 tm3.
Proof. intros Hle H1 H2 t Ht. rewrite H1 by done. apply H2. lia. Qed.

Lemma run_tool_app c1 c2 tm :
  run_tool (c1 ++ c2) tm =
    ((run_tool c2 (run_tool c1 tm).1).1, (run_tool c1 tm).2 ++ (run_tool c2 (run_tool c1 tm).1).2).
Proof.
  revert tm. induction c1 as [|st c1 IH]; intros tm; simpl.
  - by destruct (run_tool c2 tm).
  - rewrite IH. simpl. by rewrite app_assoc.
Qed.

(** The block with more statements and temporaries. *)
Definition ext (s : instr_state) (code : list IRStmt) (tys : list IRType) (g : globals) : instr_state :=
  let sb := sbOut s in
  mkInstr (mkIRSB (tyenv sb ++ tys) (stmts sb ++ (Some <$> code)) (next sb) (jumpkind sb) (offsIP sb)) g.

Definition nt (s : instr_state) : Z := next_temp (sbOut s).

Lemma ext_ext s c1 t1 g1 c2 t2 g2 : ext (ext s c1 t1 g1) c2 t2 g2 = ext s (c1 ++ c2) (t1 ++ t2) g2.
Proof. unfold ext. simpl. by rewrite fmap_app, <-!app_assoc. Qed.

Lemma nt_ext s c t g : nt (ext s c t g) = nt s + Z.of_nat (length t).
Proof. unfold nt, next_temp. simpl. rewrite length_app. lia. Qed.

(** The operation adds code of the tool that makes the calls [evs]. *)
Definition emits (m : IM unit) (s : instr_state) (lo : Z) (evs : temps -> list call) : Prop :=
  exists code tys g, m s = Ok tt (ext s code tys g) /\ Forall (fun st => is_tool lo st = true) code /\
    forall tm, (run_tool code tm).2 = evs tm /\ agree (nt s) tm (run_tool code tm).1.

Section Emits.
Context `{PrimopTypes}.

(** The block being built has the temporaries of the original one, and maybe more. *)
Definition extends (env : list IRType) (s : instr_state) : Prop := env `prefix_of` tyenv (sbOut s).

Lemma extends_nt env s : extends env s -> Z.of_nat (length env) <= nt s.
Proof. intros Hp. apply prefix_length in Hp. unfold nt, next_temp. lia. Qed.

Lemma extends_ext env s c t g : extends env s -> extends env (ext s c t g).
Proof. intros Hp. unfold extends. simpl. by apply prefix_app_r. Qed.

#[local] Hint Resolve extends_nt extends_ext : pm.

Lemma typed_extends env s e ty :
  extends env s -> isIRAtom e = true -> typeOfIRExpr env e = Some ty ->
  typeOfIRExpr (tyenv (sbOut s)) e = Some ty.
Proof.
  intros Hp Ha Ht. destruct e; try done. simpl in *. unfold typeOfIRTemp in *.
  destruct (tmp <? 0); [done|]. by eapply prefix_lookup_Some.
Qed.

Lemma typed_below env e ty :
  isIRAtom e = true -> typeOfIRExpr env e = Some ty -> below (Z.of_nat (length env)) e.
Proof.
  intros Ha Ht. destruct e; try done. simpl in *. unfold typeOfIRTemp in Ht.
  destruct (Z.ltb_spec tmp 0); [lia|]. apply lookup_lt_Some in Ht. lia.
Qed.

Lemma below_le n m e : n <= m -> below n e -> below m e.
Proof. destruct e; simpl; try done. lia. Qed.

Lemma emits_seq m1 m2 s lo e1 e2 :
  emits m1 s lo e1 -> (forall c t g, emits m2 (ext s c t g) lo e2) ->
  (forall tm tm', agree (nt s) tm tm' -> e2 tm' = e2 tm) ->
  emits (m1 ;;; m2) s lo (fun tm => e1 tm ++ e2 tm).
Proof.
  intros (c1 & t1 & g1 & Heq1 & Ht1 & Hr1) H2 He. destruct (H2 c1 t1 g1) as (c2 & t2 & g2 & Heq2 & Ht2 & Hr2).
  exists (c1 ++ c2), (t1 ++ t2), g2. split; [|split].
  - by rewrite (bind_ok _ _ _ _ _ Heq1), Heq2, ext_ext.
  - by apply Forall_app.
  - intros tm. rewrite run_tool_app. simpl. destruct (Hr1 tm) as [E1 A1].
    destruct (Hr2 (run_tool c1 tm).1) as [E2 A2]. split.
    + rewrite E1, E2. f_equal. by apply He.
    + eapply agree_trans; [|exact A1|exact A2]. rewrite nt_ext. lia.
Qed.

Lemma make_expr_run s ty e :
  typeOfIRExpr (tyenv (sbOut s)) e = Some ty ->
  make_expr ty e s = Ok (Iex_RdTmp (nt s)) (ext s [Ist_WrTmp (nt s) e] [ty] (i_glob s)).
Proof.
  intros Ht. unfold make_expr, typeOf.
  rewrite (bind_ok _ _ s ty s) by (step; by rewrite Ht). unfold assertM. rewrite bool_decide_true by done.
  done.
Qed.

(** ** Stores *)

Definition guard_on (g : option IRExpr) (tm : temps) : bool :=
  match g with Some g => is_on tm g | None => true end.

Definition guard_below (n : Z) (g : option IRExpr) : Prop :=
  match g with Some g => below n g | None => True end.

(** The call of the helper. *)
Definition store_stmt (a : IRExpr) (n : Z) (g : option IRExpr) (v : IRExpr) : IRStmt :=
  let di := unsafeIRDirty_0_N 3 "trace_pmem_store" trace_pmem_store_h [a; mkIRExpr_HWord n; v] in
  Ist_Dirty (match g with Some g => set_guard g di | None => di end).

Lemma store_call_run a n g v s : add_store_call a n g v s = Ok tt (ext s [store_stmt a n g v] [] (i_glob s)).
Proof. unfold add_store_call, addStmtToIRSB, on_sb, modM, ext. simpl. by rewrite app_nil_r. Qed.

Lemma store_stmt_step a n g v tm : 0 <= n < word_size ->
  tool_step (store_stmt a n g v) tm =
    (tm, if guard_on g tm then [mkCall trace_pmem_store_h [atom_val tm a; n; atom_val tm v]] else []).
Proof.
  intros Hn. unfold store_stmt. destruct g as [g|]; simpl; rewrite wrap_small by done; done.
Qed.

Lemma store_stmt_tool lo a n g v : is_tool lo (store_stmt a n g v) = true.
Proof. by destruct g. Qed.

Lemma emits_call s lo a n g v : 0 <= n < word_size ->
  emits (add_store_call a n g v) s lo (fun tm =>
    if guard_on g tm then [mkCall trace_pmem_store_h [atom_val tm a; n; atom_val tm v]] else []).
Proof.
  intros Hn. eexists _, _, _. split; [apply store_call_run|]. split.
  - by constructor; [apply store_stmt_tool|].
  - intros tm. cbn [run_tool]. rewrite store_stmt_step by done. simpl. by rewrite app_nil_r.
Qed.

(** The value in a new temporary, then the call. *)
Lemma emits_temp_call s lo a n g e f :
  0 <= n < word_size -> lo <= nt s -> below (nt s) a -> guard_below (nt s) g ->
  typeOfIRExpr (tyenv (sbOut s)) e = Some Ity_I64 -> (forall tm, expr_val tm e = f tm) ->
  emits (d <- make_expr Ity_I64 e ;; add_store_call a n g d) s lo (fun tm =>
    if guard_on g tm then [mkCall trace_pmem_store_h [atom_val tm a; n; f tm]] else []).
Proof.
  intros Hn Hlo Ha Hg Ht Hf. eexists _, _, _. split; [|split].
  - rewrite (bind_ok _ _ _ _ _ (make_expr_run _ _ _ Ht)), store_call_run, ext_ext. reflexivity.
  - constructor; [simpl; by apply Z.leb_le|]. by constructor; [apply store_stmt_tool|].
  - intros tm. cbn [run_tool app]. rewrite store_stmt_step by done. simpl. rewrite set_temp_same, Hf, app_nil_r.
    rewrite (atom_set (nt s)) by done. split; [|by apply set_temp_agree].
    destruct g as [g|]; [|done]. simpl in *. unfold is_on. by rewrite (atom_set (nt s)).
Qed.

(** One part of a vector. *)
Lemma emits_part s lo a data g op off n :
  0 <= n < word_size -> lo <= nt s -> below (nt s) a -> below (nt s) data -> guard_below (nt s) g ->
  typeOfPrimop op = Ity_I64 ->
  emits (a_i <- make_expr Ity_I64 (Iex_Binop Iop_Add64 a (Iex_Const (Ico_U64 off))) ;;
         d_i <- make_expr Ity_I64 (Iex_Unop op data) ;; add_store_call a_i n g d_i) s lo (fun tm =>
    if guard_on g tm
    then [mkCall trace_pmem_store_h [(atom_val tm a + off) mod 2 ^ 64; n; unop_val op (atom_val tm data)]]
    else []).
Proof.
  intros Hn Hlo Ha Hd Hg Hop.
  set (e := Iex_Binop Iop_Add64 a (Iex_Const (Ico_U64 off))).
  assert (make_expr Ity_I64 e s = Ok (Iex_RdTmp (nt s)) (ext s [Ist_WrTmp (nt s) e] [Ity_I64] (i_glob s))) as H1
    by (by apply make_expr_run).
  set (s1 := ext s [Ist_WrTmp (nt s) e] [Ity_I64] (i_glob s)) in *.
  assert (nt s1 = nt s + 1) as Hnt by (unfold s1; by rewrite nt_ext).
  assert (emits (d_i <- make_expr Ity_I64 (Iex_Unop op data) ;; add_store_call (Iex_RdTmp (nt s)) n g d_i) s1 lo
    (fun tm => if guard_on g tm then [mkCall trace_pmem_store_h [tm (nt s); n; unop_val op (atom_val tm data)]] else []))
    as (c & tys & gl & Heq & Htool & Hrun).
  { apply (emits_temp_call s1 lo (Iex_RdTmp (nt s)) n g (Iex_Unop op data)); [done|lia|simpl; lia| |by simpl; rewrite Hop|done].
    destruct g as [g|]; [|done]. simpl in *. by apply (below_le (nt s)); [lia|]. }
  exists (Ist_WrTmp (nt s) e :: c), (Ity_I64 :: tys), gl. split; [|split].
  - rewrite (bind_ok _ _ _ _ _ H1), Heq. unfold s1. by rewrite ext_ext.
  - constructor; [simpl; by apply Z.leb_le|done].
  - intros tm. cbn [run_tool tool_step]. cbn [fst snd app]. destruct (Hrun (set_temp (nt s) (expr_val tm e) tm)) as [E A].
    rewrite E, set_temp_same, (atom_set (nt s)) by done. split.
    + destruct g as [g|]; [|done]. simpl in *. unfold is_on. by rewrite (atom_set (nt s)).
    + eapply agree_trans; [|by apply set_temp_agree|exact A]. lia.
Qed.

Definition part_calls (parts : list (IROp * Z)) (n : Z) (a data : IRExpr) (tm : temps) : list call :=
  (fun p => mkCall trace_pmem_store_h [(atom_val tm a + p.2) mod 2 ^ 64; n; unop_val p.1 (atom_val tm data)]) <$> parts.

(** What a call depends on. *)
Lemma calls_agree n tm tm' a data g parts k :
  agree n tm tm' -> below n a -> below n data -> guard_below n g ->
  (if guard_on g tm' then part_calls parts k a data tm' else []) =
  (if guard_on g tm then part_calls parts k a data tm else []).
Proof.
  intros Hag Ha Hd Hg. unfold part_calls. rewrite <-(atom_agree n tm tm' a), <-(atom_agree n tm tm' data) by done.
  destruct g as [g|]; [|done]. simpl in *. unfold is_on. by rewrite <-(atom_agree n tm tm' g).
Qed.

Lemma guard_below_le n m g : n <= m -> guard_below n g -> guard_below m g.
Proof. destruct g; [apply below_le|done]. Qed.

Lemma emits_parts n a data g lo parts : forall s,
  0 <= n < word_size -> Forall (fun p => typeOfPrimop p.1 = Ity_I64) parts ->
  lo <= nt s -> below (nt s) a -> below (nt s) data -> guard_below (nt s) g ->
  emits (for_parts parts (fun op off =>
    a_i <- make_expr Ity_I64 (Iex_Binop Iop_Add64 a (Iex_Const (Ico_U64 off))) ;;
    d_i <- make_expr Ity_I64 (Iex_Unop op data) ;; add_store_call a_i n g d_i)) s lo
    (fun tm => if guard_on g tm then part_calls parts n a data tm else []).
Proof.
  induction parts as [|[op off] parts IH]; intros s Hn Hops Hlo Ha Hd Hg.
  - exists [], [], (i_glob s). split; [|split; [constructor|]].
    + unfold ext. simpl. rewrite !app_nil_r. by destruct s as [[] ?].
    + intros tm. simpl. by destruct (guard_on g tm).
  - inversion Hops as [|? ? Hop Hops']; subst. cbn [for_parts].
    destruct (emits_seq _ (for_parts parts _) s lo _ _ (emits_part s lo a data g op off n Hn Hlo Ha Hd Hg Hop)
      (fun c t gl => IH (ext s c t gl) Hn Hops' ltac:(rewrite nt_ext; lia)
        ltac:(apply (below_le (nt s)); [rewrite nt_ext; lia|done])
        ltac:(apply (below_le (nt s)); [rewrite nt_ext; lia|done])
        ltac:(apply (guard_below_le (nt s)); [rewrite nt_ext; lia|done])))
      as (c & t & gl & Heq & Ht & Hr).
    + intros tm tm' Hag. by apply (calls_agree (nt s)).
    + exists c, t, gl. split; [done|]. split; [done|]. intros tm. destruct (Hr tm) as [E A]. split; [|done].
      rewrite E. by destruct (guard_on g tm).
Qed.

Lemma wide_emits s env lo a data g ty n :
  extends env s -> lo <= nt s -> isIRAtom a = true -> isIRAtom data = true ->
  typeOfIRExpr env a = Some Ity_I64 -> typeOfIRExpr env data = Some ty -> guard_below (nt s) g ->
  ty = Ity_V128 \/ ty = Ity_V256 -> sizeofIRType ty = Some n ->
  emits (handle_wide_expr Iend_LE a data g n) s lo (fun tm =>
    if guard_on g tm then store_calls ty (atom_val tm a) n (atom_val tm data) else []).
Proof.
  intros Hext Hlo Ha Hd Hta Htd Hg Hty Hn. pose proof (extends_nt _ _ Hext) as Hnt.
  assert (below (nt s) a /\ below (nt s) data) as [Hba Hbd]
    by (split; (eapply below_le; [exact Hnt|by eapply typed_below])).
  destruct (emits_parts 8 a data g lo (wide_parts ty Iend_LE) s) as (c & tys & gl & Heq & Ht & Hr); try done.
  { destruct Hty as [-> | ->]; repeat constructor. }
  exists c, tys, gl. split; [|split; [done|]].
  - unfold handle_wide_expr, typeOf.
    rewrite (bind_ok _ _ s ty s) by (step; by rewrite (typed_extends _ _ _ _ Hext Hd Htd)).
    rewrite (bind_ok _ _ s Ity_I64 s) by (step; by rewrite (typed_extends _ _ _ _ Hext Ha Hta)).
    step. rewrite <-Heq. destruct Hty as [-> | ->]; simplify_eq/=; done.
  - intros tm. destruct (Hr tm) as [E A]. split; [|done]. rewrite E.
    destruct Hty as [-> | ->]; unfold part_calls, store_calls; simpl; by rewrite ?Z.div_1_r.
Qed.

(** The temporaries and the width of a value that is widened. *)
Lemma narrow_emits s lo a n g v ty :
  0 <= n < word_size -> lo <= nt s -> below (nt s) a -> guard_below (nt s) g ->
  typeOfIRExpr (tyenv (sbOut s)) v = Some ty -> tmp_needs_widen ty = true ->
  emits (op <- widen_operation v ;; d <- make_expr Ity_I64 (Iex_Unop op v) ;; add_store_call a n g d) s lo (fun tm =>
    if guard_on g tm then [mkCall trace_pmem_store_h [atom_val tm a; n; low_part ty (atom_val tm v)]] else []).
Proof.
  intros Hn Hlo Ha Hg Ht Hw.
  assert (exists op, widen_operation v s = Ok op s /\ typeOfPrimop op = Ity_I64 /\
    forall x, unop_val op x = low_part ty x) as (op & Heq & Hop & Hval).
  { unfold widen_operation, typeOf. rewrite (bind_ok _ _ s ty s) by (step; by rewrite Ht).
    destruct ty; try done; eexists; (split; [reflexivity|done]). }
  destruct (emits_temp_call s lo a n g (Iex_Unop op v) (fun tm => low_part ty (atom_val tm v)) Hn Hlo Ha Hg)
    as (c & tys & gl & Heq2 & H2); [by simpl; rewrite Hop|intros tm; apply Hval|].
  exists c, tys, gl. split; [|done]. by rewrite (bind_ok _ _ _ _ _ Heq).
Qed.

Lemma emits_ext m1 m2 s lo e1 e2 :
  m1 s = m2 s -> (forall tm, e1 tm = e2 tm) -> emits m1 s lo e1 -> emits m2 s lo e2.
Proof.
  intros Hm He (c & t & g & Heq & Ht & Hr). exists c, t, g. rewrite <-Hm. split; [done|]. split; [done|].
  intros tm. rewrite <-He. apply Hr.
Qed.

Lemma emits_nothing s lo : emits (retM tt) s lo (fun _ => []).
Proof.
  exists [], [], (i_glob s). split; [|by split; [constructor|]].
  unfold ext. simpl. rewrite !app_nil_r. by destruct s as [[] ?].
Qed.

Lemma emits_message s lo fmt l : emits (umsg fmt l) s lo (fun _ => []).
Proof.
  eexists [], [], _. split; [|by split; [constructor|]].
  unfold ext. simpl. rewrite !app_nil_r. by destruct s as [[] ?].
Qed.

Lemma size_bounds ty n : sizeofIRType ty = Some n -> 1 <= n <= 32.
Proof. destruct ty; intros; simplify_eq/=; lia. Qed.

(** The guard only matters for whether there are calls. *)
Definition guarded (g : option IRExpr) (f : temps -> list call) (tm : temps) : list call :=
  if guard_on g tm then f tm else [].

Lemma guarded_nothing g tm : guarded g (fun _ => []) tm = [].
Proof. unfold guarded. by destruct (guard_on g tm). Qed.

Lemma event_emits s env lo a data g ty n :
  extends env s -> lo <= nt s -> isIRAtom a = true -> isIRAtom data = true ->
  typeOfIRExpr env a = Some Ity_I64 -> typeOfIRExpr env data = Some ty -> guard_below (nt s) g ->
  sizeofIRType ty = Some n ->
  emits (add_event_dw_guarded a n g data) s lo (guarded g (fun tm => data_calls tm ty n a data)).
Proof.
  intros Hext Hlo Ha Hd Hta Htd Hg Hn. pose proof (extends_nt _ _ Hext) as Hnt.
  pose proof (size_bounds _ _ Hn) as Hb.
  assert (0 <= n < word_size) as Hw by (unfold word_size; lia).
  assert (below (nt s) a) as Hba by (eapply below_le; [exact Hnt|by eapply typed_below]).
  pose proof (typed_extends _ _ _ _ Hext Hd Htd) as Htd'.
  pose proof (wide_emits s env lo a data g ty n Hext Hlo Ha Hd Hta Htd Hg) as Hwide.
  pose proof (narrow_emits s lo a n g data ty Hw Hlo Hba Hg Htd') as Hnarrow.
  pose proof (emits_call s lo a n g) as Hcall.
  pose proof (emits_temp_call s lo a n g (Iex_Unop Iop_ReinterpF64asI64 data) (fun tm => atom_val tm data)
    Hw Hlo Hba Hg eq_refl (fun _ => eq_refl)) as Hf64.
  assert (forall k : IRType -> IM unit, (assertM (isIRAtom a) ;;; assertM (isIRAtom data) ;;;
    assertM ((1 <=? n) && (n <=? MAX_DSIZE)) ;;; ty <- typeOf data ;; k ty) s = k ty s) as Hpre.
  { intros k. rewrite Ha, Hd, (proj2 (Z.leb_le _ _)), (proj2 (Z.leb_le _ _)) by (unfold MAX_DSIZE; lia).
    do 3 step. by rewrite (bind_ok _ _ s ty s) by (unfold typeOf; step; by rewrite Htd'). }
  unfold add_event_dw_guarded. eapply emits_ext; [symmetry; apply Hpre|reflexivity|]. clear Hpre.
  destruct data as [| | | |t| | | | | |con| | | |]; try done.
  - simpl in Hwide, Hnarrow, Hf64. unfold data_calls.
    destruct ty; simplify_eq/=; try (apply Hwide; [by auto|done]); try (apply Hnarrow; done);
      try (apply Hcall; done); try exact Hf64;
      (eapply emits_ext; [reflexivity|intros tm; symmetry; apply guarded_nothing|apply emits_message]).
  - destruct con; simplify_eq/=; try (apply Hwide; [by auto|done]); try (apply (Hcall (mkIRExpr_HWord _)); done);
      (eapply emits_ext; [reflexivity|intros tm; symmetry; apply guarded_nothing|apply emits_message]).
Qed.

Lemma data_agree n tm tm' ty k a data :
  agree n tm tm' -> below n a -> below n data -> data_calls tm' ty k a data = data_calls tm ty k a data.
Proof.
  intros Hag Ha Hd. pose proof (atom_agree n tm tm' a Hag Ha) as Ea. pose proof (atom_agree n tm tm' data Hag Hd) as Ed.
  unfold data_calls. rewrite <-Ea. destruct data; try done; by rewrite <-Ed.
Qed.

Lemma store_below env s a data :
  extends env s -> store_ok env a data -> below (nt s) a /\ below (nt s) data.
Proof.
  intros Hext (Ha & Hd & Hta & ty & n & Htd & _). pose proof (extends_nt _ _ Hext) as Hnt.
  split; (eapply below_le; [exact Hnt|by eapply typed_below]).
Qed.

(** The calls of a store statement. *)
Definition stores (env : list IRType) (a data : IRExpr) (tm : temps) : list call :=
  match typeOfIRExpr env data with
  | Some ty => match sizeofIRType ty with Some n => data_calls tm ty n a data | None => [] end
  | None => []
  end.

Lemma stores_emits s env lo a data g n ty :
  extends env s -> lo <= nt s -> store_ok env a data -> guard_below (nt s) g ->
  typeOfIRExpr env data = Some ty -> sizeofIRType ty = Some n ->
  emits (add_event_dw_guarded a n g data) s lo (guarded g (stores env a data)).
Proof.
  intros Hext Hlo (Ha & Hd & Hta & _) Hg Ht Hn.
  eapply emits_ext; [reflexivity| |exact (event_emits s env lo a data g ty n Hext Hlo Ha Hd Hta Ht Hg Hn)].
  intros tm. unfold guarded, stores. by rewrite Ht, Hn.
Qed.

Lemma store_size_run env data s ty n :
  typeOfIRExpr env data = Some ty -> sizeofIRType ty = Some n -> store_size env data s = Ok n s.
Proof.
  intros Ht Hn. unfold store_size. rewrite Ht. step. unfold assertM.
  rewrite bool_decide_false by (intros ->; done). step. by rewrite Hn.
Qed.

Lemma cas_emits s env lo cas :
  extends env s -> lo <= nt s -> stmt_ok env (Ist_CAS cas) ->
  forall dataTy n loType ops, typeOfIRExpr env (dataLo cas) = Some dataTy -> sizeofIRType dataTy = Some n ->
  typeOfIRExpr env (expdLo cas) = Some loType -> cas_ops loType = Some ops ->
  emits (g <- make_expr Ity_I1 (Iex_Binop (fst (fst ops)) (expdLo cas) (Iex_RdTmp (oldLo cas))) ;;
         add_event_dw_guarded (cas_addr cas) n (Some g) (dataLo cas)) s lo (fun tm =>
    if same_bits (cas_width loType) (atom_val tm (expdLo cas)) (tm (oldLo cas)) =? 1
    then stores env (cas_addr cas) (dataLo cas) tm else []).
Proof.
  intros Hext Hlo (_ & Hst & [Hea _] & Hold & _) dataTy n loType ops Hdt Hn Hlt Hops.
  destruct (store_below env s _ _ Hext Hst) as [Hba Hbd]. pose proof (extends_nt _ _ Hext) as Hnt.
  set (e := Iex_Binop _ _ _).
  assert (typeOfIRExpr (tyenv (sbOut s)) e = Some Ity_I1 /\
    forall tm, expr_val tm e = same_bits (cas_width loType) (atom_val tm (expdLo cas)) (tm (oldLo cas))) as [Hte Hval].
  { unfold e. destruct loType; try done; simplify_eq/=; done. }
  set (s1 := ext s [Ist_WrTmp (nt s) e] [Ity_I1] (i_glob s)).
  assert (nt s1 = nt s + 1) as Hnt1 by (unfold s1; by rewrite nt_ext).
  destruct (stores_emits s1 env lo (cas_addr cas) (dataLo cas) (Some (Iex_RdTmp (nt s))) n dataTy)
    as (c & tys & gl & Heq & Ht & Hr); try done; [unfold s1; auto with pm|lia|simpl; lia|].
  exists (Ist_WrTmp (nt s) e :: c), (Ity_I1 :: tys), gl. split; [|split].
  - rewrite (bind_ok _ _ _ _ _ (make_expr_run s Ity_I1 e Hte)). fold s1. rewrite Heq. unfold s1. by rewrite ext_ext.
  - constructor; [simpl; apply Z.leb_le; lia|done].
  - intros tm. cbn [run_tool tool_step fst snd app]. destruct (Hr (set_temp (nt s) (expr_val tm e) tm)) as [E A].
    rewrite E. split; [|eapply agree_trans; [|by apply set_temp_agree|exact A]; lia].
    unfold guarded, guard_on, is_on, atom_val at 1. rewrite set_temp_same, Hval.
    unfold stores. rewrite Hdt, Hn, (data_agree (nt s) tm) by (done || by apply set_temp_agree).
    unfold same_bits. by destruct (_ mod 2 ^ _ =? _ mod 2 ^ _).
Qed.

(** A statement is copied, and followed by code for its calls. *)
Definition copied (o : options) (env : list IRType) (st : IRStmt) (s : instr_state) : Prop :=
  exists code tys g, instrument_stmt o env st s = Ok tt (ext s (st :: code) tys g) /\
    Forall (fun st => is_tool (Z.of_nat (length env)) st = true) code /\
    forall tm, (run_tool code tm).2 = expected o env st tm /\
      agree (Z.of_nat (length env)) tm (run_tool code tm).1.

Lemma copied_by o env st s m :
  extends env s ->
  let s1 := ext s [st] [] (i_glob s) in
  emits m s1 (Z.of_nat (length env)) (expected o env st) -> instrument_stmt o env st s = m s1 ->
  copied o env st s.
Proof.
  intros Hext s1 (c & t & g & Heq & Ht & Hr) Hm. exists c, t, g. rewrite Hm, Heq. unfold s1. rewrite ext_ext.
  split; [done|]. split; [done|]. intros tm. destruct (Hr tm) as [E A]. split; [done|].
  intros u Hu. apply A. apply (extends_ext _ _ [st] [] (i_glob s)), extends_nt in Hext. unfold s1. lia.
Qed.

Lemma add_stmt_run st s : addStmtToIRSB st s = Ok tt (ext s [st] [] (i_glob s)).
Proof. unfold addStmtToIRSB, on_sb, modM, ext. simpl. by rewrite app_nil_r. Qed.

(** The call of a helper that is always made. *)
Lemma emits_helper s lo rp name h l :
  is_tool lo (Ist_Dirty (unsafeIRDirty_0_N rp name h l)) = true ->
  emits (addStmtToIRSB (Ist_Dirty (unsafeIRDirty_0_N rp name h l))) s lo (fun tm => [mkCall h (atom_val tm <$> l)]).
Proof.
  intros Ht. eexists _, _, _. split; [apply add_stmt_run|]. split; [by constructor|]. intros tm. by simpl.
Qed.

Lemma flush_copied o env a fk s :
  extends env s -> stmt_ok env (Ist_Flush a fk) -> copied o env (Ist_Flush a fk) s.
Proof.
  intros Hext [[Ha (ty & Ht)] Hinv].
  set (m := whenM (automatic_isa_rec o) (add_flush_event a ;;;
    match fk with Ifk_flush => whenM (negb (weak_clflush o)) (add_simple_event do_fence_h "do_fence")
                | _ => retM tt end)).
  apply (copied_by o env _ s m); [done|..].
  - unfold m. eapply emits_ext; [reflexivity|intros tm; symmetry; simpl; reflexivity|].
    destruct (automatic_isa_rec o); [|apply emits_nothing]. cbn [whenM].
    unfold add_flush_event, assertM. rewrite Ha.
    apply (emits_seq _ _ _ _ (fun tm => [mkCall trace_pmem_flush_h [atom_val tm a]])
      (fun tm => match fk with Ifk_flush => if weak_clflush o then [] else [mkCall do_fence_h []] | _ => [] end)).
    + by eapply emits_ext; [| |apply (emits_helper _ _ 1 "trace_pmem_flush" trace_pmem_flush_h [a])].
    + intros c t g. destruct fk; try apply emits_nothing. destruct (weak_clflush o); [apply emits_nothing|].
      by apply (emits_helper _ _ 0 "do_fence" do_fence_h []).
    + done.
  - cbn [instrument_stmt]. rewrite (bind_ok _ _ _ _ _ (add_stmt_run _ _)). unfold m.
    destruct (automatic_isa_rec o); [|done]. cbn [whenM]. rewrite Ht. step. unfold assertM at 1.
    by rewrite bool_decide_false by congruence.
Qed.

Lemma stored_copied o env st a data g s :
  extends env s -> store_ok env a data -> guard_below (Z.of_nat (length env)) g ->
  (forall tm, expected o env st tm = guarded g (stores env a data) tm) ->
  (forall n ty, typeOfIRExpr env data = Some ty -> sizeofIRType ty = Some n ->
     instrument_stmt o env st s = add_event_dw_guarded a n g data (ext s [st] [] (i_glob s))) ->
  copied o env st s.
Proof.
  intros Hext Hok Hg He Hi. pose proof Hok as (_ & _ & _ & ty & n & Ht & Hn).
  apply (copied_by o env st s (add_event_dw_guarded a n g data)); [done| |by apply (Hi n ty)].
  eapply emits_ext; [reflexivity|intros tm; symmetry; apply He|].
  apply (stores_emits _ _ _ _ _ _ n ty); try done; [auto with pm|..].
  - auto with pm.
  - eapply guard_below_le; [|exact Hg]. auto with pm.
Qed.

Lemma cas_copied o env cas s :
  extends env s -> stmt_ok env (Ist_CAS cas) -> copied o env (Ist_CAS cas) s.
Proof.
  intros Hext Hok. pose proof Hok as (Hhi & (_ & _ & _ & dataTy & n & Hdt & Hn) & _ & _ & loType & Hlt & Hc).
  destruct (cas_ops loType) as [ops|] eqn:Hops; [|done].
  assert (extends env (ext s [Ist_CAS cas] [] (i_glob s))) as Hext1 by auto with pm.
  eapply copied_by; [done|..].
  - eapply emits_ext; [reflexivity| |exact (cas_emits _ env _ cas Hext1 (extends_nt _ _ Hext1) Hok
      dataTy n loType ops Hdt Hn Hlt Hops)].
    intros tm. simpl. by rewrite Hlt.
  - cbn [instrument_stmt]. unfold instrument_cas. rewrite Hdt. step. rewrite Hn. step.
    rewrite (bind_ok _ _ _ _ _ (add_stmt_run _ _)). rewrite Hlt. step. rewrite Hops. step. by rewrite Hhi.
Qed.

Lemma instrument_stmt_run o env st s :
  extends env s -> stmt_ok env st -> st <> Ist_NoOp -> copied o env st s.
Proof.
  intros Hext Hok Hno. pose proof (add_stmt_run st s) as Hst.
  destruct st as [| | | | | |e a data| |sg|cas|e r a [data|]| |ev| |a fk]; try done.
  all: try (apply (copied_by o env _ s (retM tt));
    [done|apply emits_nothing|cbn [instrument_stmt]; by rewrite ?(bind_ok _ _ _ _ _ Hst), ?Hst]).
  - apply (stored_copied o env _ a data None); try done. intros n ty Ht Hn. cbn [instrument_stmt].
    rewrite (bind_ok _ _ _ _ _ Hst). by rewrite (bind_ok _ _ _ _ _ (store_size_run _ _ _ _ _ Ht Hn)).
  - destruct Hok as [Hs [Hga (gty & Hgt)]].
    apply (stored_copied o env _ (sg_addr sg) (sg_data sg) (Some (sg_guard sg))); try done.
    + simpl. by eapply typed_below.
    + intros n ty Ht Hn. cbn [instrument_stmt].
      rewrite (bind_ok _ _ _ _ _ Hst). by rewrite (bind_ok _ _ _ _ _ (store_size_run _ _ _ _ _ Ht Hn)).
  - by apply cas_copied.
  - apply (stored_copied o env _ a data None); try done. intros n ty Ht Hn. cbn [instrument_stmt].
    rewrite (bind_ok _ _ _ _ _ Hst). rewrite Ht. step. rewrite Hn. by step.
  - set (m := whenM (automatic_isa_rec o) match ev with
        | Imbe_Fence | Imbe_SFence => add_simple_event do_fence_h "do_fence" | _ => retM tt end).
    apply (copied_by o env _ s m); [done|..].
    + unfold m. eapply emits_ext; [reflexivity|intros tm; symmetry; simpl; reflexivity|].
      destruct (automatic_isa_rec o); cbn [whenM]; destruct ev; try apply emits_nothing;
        by apply (emits_helper _ _ 0 "do_fence" do_fence_h []).
    + cbn [instrument_stmt]. by rewrite (bind_ok _ _ _ _ _ Hst).
  - by apply flush_copied.
Qed.
End Emits.

#[export] Hint Resolve agree_refl extends_nt extends_ext emits_nothing add_stmt_run : pm.
