(* ===== verification/InstrRun.v ===== *)
(** Running instrumented superblocks: the semantics of a block whose client statements are run by a
    parameter, the run of the original block that an observer annotates with the calls it expects,
    and that the instrumented block has exactly that run. *)
From S2P Require Import Prelude OSet Region Core Trans Pmem IR Instr InstrSpec.
Local Open Scope Z_scope.
Local Open Scope pm_scope.

Section Run.
Context `{PrimopTypes}.

(** What the rest of the machine does with a statement of the client: new values of the temporaries,
    a new state of the client, and whether the execution goes on with the next statement. *)
Context {C : Type} (client : IRStmt -> temps -> C -> temps * C * bool).

(** The end of a run: the temporaries, the client's state, the helper calls, and whether the run
    came to the end of the statements. *)
Record outcome : Type := mkOut { out_temps : temps; out_client : C; out_calls : list call; completed : bool }.

Definition add_calls (l : list call) (r : outcome) : outcome :=
  mkOut (out_temps r) (out_client r) (l ++ out_calls r) (completed r).

(** A statement of the client, and what follows it. *)
Definition client_step (st : IRStmt) (tm : temps) (c : C) (k : temps -> C -> outcome) : outcome :=
  let r := client st tm c in
  if r.2 then k r.1.1 r.1.2 else mkOut r.1.1 r.1.2 [] false.

(** Statements from [lo] on are the tool's. *)
Fixpoint exec (lo : Z) (l : list (option IRStmt)) (tm : temps) (c : C) : outcome :=
  match l with
  | [] => mkOut tm c [] true
  | None :: l | Some Ist_NoOp :: l => exec lo l tm c
  | Some st :: l =>
      if is_tool lo st then
        let r := tool_step st tm in add_calls r.2 (exec lo l r.1 c)
      else client_step st tm c (exec lo l)
  end.

(** The observer's run of the original statements. *)
Fixpoint observed (o : options) (env : list IRType) (l : list (option IRStmt)) (tm : temps) (c : C)
    : outcome :=
  match l with
  | [] => mkOut tm c [] true
  | None :: l | Some Ist_NoOp :: l => observed o env l tm c
  | Some st :: l =>
      client_step st tm c (fun tm c => add_calls (expected o env st tm) (observed o env l tm c))
  end.

(** The observer counts the block when it comes to the first instruction. *)
Fixpoint observed_block (o : options) (env : list IRType) (l : list (option IRStmt)) (tm : temps) (c : C)
    : outcome :=
  match l with
  | Some (Ist_IMark _ _ _) :: _ | [] =>
      add_calls [mkCall add_one_SB_entered_h []] (observed o env l tm c)
  | None :: l | Some Ist_NoOp :: l => observed_block o env l tm c
  | Some st :: l => client_step st tm c (observed_block o env l)
  end.

(** Equal runs as far as the temporaries below [n] go. *)
Definition same_run (n : Z) (r1 r2 : outcome) : Prop :=
  agree n (out_temps r1) (out_temps r2) /\ out_client r1 = out_client r2 /\
  out_calls r1 = out_calls r2 /\ completed r1 = completed r2.

(** The client reads and writes the temporaries below [n] only: two states that agree there lead to
    states that agree there. *)
Definition within (n : Z) (st : IRStmt) : Prop :=
  forall tm tm' c, agree n tm tm' ->
    agree n (client st tm c).1.1 (client st tm' c).1.1 /\
    (client st tm c).1.2 = (client st tm' c).1.2 /\ (client st tm c).2 = (client st tm' c).2.

Lemma noop_dec st : st = Ist_NoOp \/ st <> Ist_NoOp.
Proof. destruct st; auto. Qed.

Lemma imark_dec st : (exists a n d, st = Ist_IMark a n d) \/ (forall a n d, st <> Ist_IMark a n d).
Proof. destruct st; try (by right); eauto. Qed.

Lemma observed_cons o env st l tm c : st <> Ist_NoOp ->
  observed o env (Some st :: l) tm c =
    client_step st tm c (fun tm c => add_calls (expected o env st tm) (observed o env l tm c)).
Proof. by destruct st. Qed.

Lemma observed_block_cons o env st l tm c : st <> Ist_NoOp -> (forall a n d, st <> Ist_IMark a n d) ->
  observed_block o env (Some st :: l) tm c = client_step st tm c (observed_block o env l).
Proof. intros Hno Hmark. destruct st; try done. by edestruct Hmark. Qed.

Lemma same_run_calls n l r1 r2 : same_run n r1 r2 -> same_run n (add_calls l r1) (add_calls l r2).
Proof. intros (A & B & D & E). split_and!; try done. simpl. by rewrite D. Qed.

Lemma client_step_same n st tm tm' c k k' :
  within n st -> agree n tm tm' ->
  (forall tm tm' c, agree n tm tm' -> same_run n (k tm c) (k' tm' c)) ->
  same_run n (client_step st tm c k) (client_step st tm' c k').
Proof.
  intros Hw Hag Hk. destruct (Hw tm tm' c Hag) as (A & B & D). unfold client_step. rewrite B, D.
  destruct (client st tm' c).2; [by apply Hk|by split_and!].
Qed.

(** Code of the tool runs to its end. *)
Lemma exec_tool lo code l tm c :
  Forall (fun st => is_tool lo st = true) code ->
  exec lo ((Some <$> code) ++ l) tm c =
    add_calls (run_tool code tm).2 (exec lo l (run_tool code tm).1 c).
Proof.
  intros Hf. revert tm. induction Hf as [|st code Hst Hf IH]; intros tm.
  - simpl. unfold add_calls. simpl. by destruct (exec lo l tm c).
  - cbn [fmap list_fmap app exec]. destruct st; try done; simpl in Hst |- *; rewrite Hst, IH;
      unfold add_calls; simpl; by rewrite ?app_assoc.
Qed.

Lemma ok_not_tool env st : stmt_ok env st -> is_tool (Z.of_nat (length env)) st = false.
Proof.
  destruct st; try done; simpl.
  - intros Hlt. by apply Z.leb_gt.
  - by destruct (cee_addr (cee details)).
Qed.

Lemma exec_client env st l tm c : stmt_ok env st -> st <> Ist_NoOp ->
  exec (Z.of_nat (length env)) (Some st :: l) tm c =
    client_step st tm c (exec (Z.of_nat (length env)) l).
Proof. intros Hok Hno. pose proof (ok_not_tool _ _ Hok) as Ht. destruct st; try done; cbn [exec]; by rewrite Ht. Qed.

Lemma stores_agree env a data tm tm' :
  store_ok env a data -> agree (Z.of_nat (length env)) tm tm' -> stores env a data tm' = stores env a data tm.
Proof.
  intros (Ha & Hd & Hta & ty & n & Htd & Hn) Hag. unfold stores. rewrite Htd, Hn.
  eapply data_agree; [exact Hag|by eapply typed_below..].
Qed.

Lemma typed_agree env e tm tm' :
  typed_atom env e -> agree (Z.of_nat (length env)) tm tm' -> atom_val tm' e = atom_val tm e.
Proof. intros [Ha [ty Ht]] Hag. symmetry. eapply atom_agree; [exact Hag|by eapply typed_below]. Qed.

(** The expected calls depend on the original block's temporaries only. *)
Lemma expected_agree o env st tm tm' :
  stmt_ok env st -> agree (Z.of_nat (length env)) tm tm' -> expected o env st tm' = expected o env st tm.
Proof.
  intros Hok Hag. destruct st as [| | | | | |e a data| |sg|cas|e r a [data|]| |ev| |a fk]; try done.
  - exact (stores_agree _ _ _ _ _ Hok Hag).
  - destruct Hok as [Hs Hg]. simpl. unfold is_on. rewrite (typed_agree _ _ _ _ Hg Hag).
    destruct (negb _); [exact (stores_agree _ _ _ _ _ Hs Hag)|done].
  - destruct Hok as (_ & Hs & He & Hold & ty & Ht & _). simpl.
    rewrite Ht, (typed_agree _ _ _ _ He Hag), (Hag (oldLo cas)) by lia.
    destruct (_ =? 1); [exact (stores_agree _ _ _ _ _ Hs Hag)|done].
  - exact (stores_agree _ _ _ _ _ Hok Hag).
  - destruct Hok as [He _]. simpl. by rewrite (typed_agree _ _ _ _ He Hag).
Qed.

(** Statements the instrumentation accepts and the client runs within the block's temporaries. *)
Definition stmt_fine (env : list IRType) (ost : option IRStmt) : Prop :=
  match ost with Some st => stmt_ok env st /\ within (Z.of_nat (length env)) st | None => True end.

(** The operation extends the block by code whose runs are the given ones. *)
Definition produces {A} (m : IM A) (a : A) (n : Z) (s : instr_state) (run : temps -> C -> outcome) : Prop :=
  exists code tys g, m s = Ok a (ext s code tys g) /\
    forall tm tm' c, agree n tm tm' -> same_run n (exec n (Some <$> code) tm c) (run tm' c).

Lemma instrument_stmts_run o env l s :
  extends env s -> Forall (stmt_fine env) l ->
  produces (instrument_stmts o env l) tt (Z.of_nat (length env)) s (observed o env l).
Proof.
  intros Hext Hf. revert s Hext. set (n := Z.of_nat (length env)).
  induction Hf as [|ost l Hst Hf IH]; intros s Hext.
  { exists [], [], (i_glob s). split; [|by intros; split_and!].
    unfold ext. simpl. rewrite !app_nil_r. by destruct s as [[] ?]. }
  destruct ost as [st|]; [|by apply IH]. destruct Hst as [Hok Hw].
  destruct (noop_dec st) as [->|Hno].
  { destruct (IH s Hext) as (c & t & g & Heq & Hr). by exists c, t, g. }
  destruct (instrument_stmt_run o env st s Hext Hok Hno) as (c1 & t1 & g1 & Heq1 & Ht1 & Hr1).
  destruct (IH (ext s (st :: c1) t1 g1)) as (c2 & t2 & g2 & Heq2 & Hr2); [auto with pm|].
  exists (st :: c1 ++ c2), (t1 ++ t2), g2. split.
  { cbn [instrument_stmts]. by rewrite (bind_ok _ _ _ _ _ Heq1), Heq2, ext_ext. }
  intros tm tm' c Hag. rewrite fmap_cons, fmap_app. unfold n. rewrite exec_client by done. fold n.
  rewrite observed_cons by done.
  apply client_step_same; [done..|].
  clear tm tm' c Hag. intros tm tm' c Hag. rewrite exec_tool by done. destruct (Hr1 tm) as [E A].
  rewrite E, <-(expected_agree o env st tm tm') by done.
  apply same_run_calls, Hr2. intros t Ht. rewrite <-Hag by done. symmetry. by apply A.
Qed.

(** No empty entry before the first instruction mark. *)
Fixpoint preamble_whole (l : list (option IRStmt)) : Prop :=
  match l with
  | Some (Ist_IMark _ _ _) :: _ | [] => True
  | Some _ :: l => preamble_whole l
  | None :: _ => False
  end.

Definition counted (o : options) (env : list IRType) (rest : list (option IRStmt)) : IM unit :=
  add_simple_event add_one_SB_entered_h "add_one_SB_entered" ;;; instrument_stmts o env rest.

Lemma counted_run o env l s :
  extends env s -> Forall (stmt_fine env) l ->
  produces (counted o env l) tt (Z.of_nat (length env)) s (fun tm c =>
    add_calls [mkCall add_one_SB_entered_h []] (observed o env l tm c)).
Proof.
  intros Hext Hf. unfold counted, add_simple_event. set (st := Ist_Dirty _).
  destruct (instrument_stmts_run o env l (ext s [st] [] (i_glob s))) as (c & t & g & Heq & Hr);
    [auto with pm|done|].
  exists (st :: c), t, g. split.
  - by rewrite (bind_ok _ _ _ _ _ (add_stmt_run st s)), Heq, ext_ext.
  - intros tm tm' c' Hag. rewrite fmap_cons. cbn -[add_calls]. by apply same_run_calls, Hr.
Qed.

Lemma preamble_run o env l s :
  extends env s -> Forall (stmt_fine env) l -> preamble_whole l ->
  produces (rest <- copy_preamble l ;; counted o env rest) tt (Z.of_nat (length env)) s (observed_block o env l).
Proof.
  intros Hext Hf. revert s Hext. induction Hf as [|ost l Hst Hf IH]; intros s Hext Hpre.
  { by apply counted_run. }
  destruct ost as [st|]; [|done].
  destruct (imark_dec st) as [(a & n & d & ->)|Hmark].
  { by apply counted_run; [|constructor]. }
  destruct (IH (ext s [st] [] (i_glob s))) as (c & t & g & Heq & Hr);
    [auto with pm|by destruct st; try done; edestruct Hmark|].
  exists (st :: c), t, g. split.
  { assert (copy_preamble (Some st :: l) = (addStmtToIRSB st ;;; copy_preamble l)) as ->
      by (destruct st; try done; by edestruct Hmark).
    unfold bindM at 1. rewrite (bind_ok _ _ _ _ _ (add_stmt_run st s)). unfold bindM in Heq. by rewrite Heq, ext_ext. }
  intros tm tm' c' Hag. rewrite fmap_cons.
  destruct (noop_dec st) as [->|Hno]; [by apply Hr|].
  destruct Hst as [Hok Hw]. rewrite exec_client by done.
  rewrite observed_block_cons by done.
  by apply client_step_same.
Qed.

(** ** The observer changes nothing *)

Definition same_client (n : Z) (r r' : outcome) : Prop :=
  agree n (out_temps r) (out_temps r') /\ out_client r = out_client r' /\ completed r = completed r'.

Lemma client_step_erased n st tm c k k' :
  (forall tm c, same_client n (k tm c) (k' tm c)) -> same_client n (client_step st tm c k) (client_step st tm c k').
Proof. intros Hk. unfold client_step. destruct (client st tm c).2; [apply Hk|by split_and!]. Qed.

Lemma observed_client o env l tm c :
  Forall (stmt_fine env) l ->
  same_client (Z.of_nat (length env)) (observed o env l tm c) (exec (Z.of_nat (length env)) l tm c).
Proof.
  intros Hf. revert tm c. induction Hf as [|ost l Hst Hf IH]; intros tm c; [by split_and!|].
  destruct ost as [st|]; [|apply IH]. destruct Hst as [Hok _].
  destruct (noop_dec st) as [->|Hno]; [by apply IH|].
  rewrite exec_client by done.
  rewrite observed_cons by done.
  apply client_step_erased. intros. apply IH.
Qed.

Lemma observed_block_client o env l tm c :
  Forall (stmt_fine env) l ->
  same_client (Z.of_nat (length env)) (observed_block o env l tm c) (exec (Z.of_nat (length env)) l tm c).
Proof.
  intros Hf. revert tm c. induction Hf as [|ost l Hst Hf IH]; intros tm c; [by split_and!|].
  destruct ost as [st|]; [|apply IH].
  destruct (imark_dec st) as [(a & n & d & ->)|Hmark].
  { by apply (observed_client o env (Some (Ist_IMark a n d) :: l)); constructor. }
  destruct (noop_dec st) as [->|Hno]; [by apply IH|].
  destruct Hst as [Hok _]. rewrite exec_client by done.
  rewrite observed_block_cons by done.
  apply client_step_erased. intros. apply IH.
Qed.
End Run.
