(* ===== verification/InstrClaims.v ===== *)
(** What the instrumentation promises: the instrumented block does what the original does, its helper
    calls are exactly the ones an observer of the original expects, and the calls for a store spell
    out its bytes; and where it does not. *)
From S2P Require Import Prelude OSet Region Core Trans Pmem IR Instr InstrSpec InstrRun Sample.
Local Open Scope Z_scope.
Local Open Scope pm_scope.

Section Claims.
Context `{PrimopTypes} {C : Type}.

(** A block the promise is about: flat and typed code without double compare-and-swaps, which the
    client runs within the temporaries of the block. *)
Definition block_ok (client : IRStmt -> temps -> C -> temps * C * bool) (bb : IRSB) : Prop :=
  preamble_whole (stmts bb) /\ Forall (stmt_fine client (tyenv bb)) (stmts bb).

Lemma pmc_instrument_run client o bb g :
  block_ok client bb ->
  produces client (fun s => pmc_instrument o bb Ity_I64 Ity_I64 (i_glob s)) tt
    (Z.of_nat (length (tyenv bb))) (mkInstr (deepCopyIRSBExceptStmts bb) g)
    (observed_block client o (tyenv bb) (stmts bb)).
Proof.
  intros [Hpre Hf]. destruct (preamble_run client o (tyenv bb) (stmts bb)
    (mkInstr (deepCopyIRSBExceptStmts bb) g)) as (c & t & g' & Heq & Hr); [by unfold extends|done..|].
  exists c, t, g'. by split.
Qed.
End Claims.

(** * The bytes of a store *)

Definition byte_of (v k : Z) : Z := v / 2 ^ (8 * k) mod 2 ^ 8.

(** The call reports that the byte at [b] is now [x]. *)
Definition reports (cl : call) (b x : Z) : Prop :=
  exists a n v, cl = mkCall trace_pmem_store_h [a; n; v] /\ a <= b < a + n /\ x = byte_of v (b - a).

(** The calls report exactly the [n] bytes of [v] from [a] on. *)
Definition spells (l : list call) (a n v : Z) : Prop :=
  forall b x, (exists cl, cl ∈ l /\ reports cl b x) <-> a <= b < a + n /\ x = byte_of v (b - a).

Lemma spells_one a n v : spells [mkCall trace_pmem_store_h [a; n; v]] a n v.
Proof.
  intros b x. split.
  - intros (cl & ->%list_elem_of_singleton & a' & n' & v' & ? & ? & ?). by simplify_eq.
  - intros [Hb Hx]. exists (mkCall trace_pmem_store_h [a; n; v]).
    split; [by apply list_elem_of_singleton|]. by exists a, n, v.
Qed.

Lemma spells_app l1 l2 a n1 n2 v1 v2 v :
  0 <= n1 -> 0 <= n2 -> spells l1 a n1 v1 -> spells l2 (a + n1) n2 v2 ->
  (forall k, 0 <= k < n1 -> byte_of v1 k = byte_of v k) ->
  (forall k, 0 <= k < n2 -> byte_of v2 k = byte_of v (n1 + k)) ->
  spells (l1 ++ l2) a (n1 + n2) v.
Proof.
  intros Hn1 Hn2 H1 H2 E1 E2 b x.
  transitivity ((exists cl, cl ∈ l1 /\ reports cl b x) \/ exists cl, cl ∈ l2 /\ reports cl b x).
  { setoid_rewrite elem_of_app. naive_solver. }
  rewrite (H1 b x), (H2 b x). split.
  - intros [[Hb ->]|[Hb ->]]; (split; [lia|]).
    + by rewrite E1 by lia.
    + rewrite E2 by lia. f_equal. lia.
  - intros [Hb ->]. destruct (Z.lt_ge_cases b (a + n1)).
    + left. split; [lia|]. by rewrite E1 by lia.
    + right. split; [lia|]. rewrite E2 by lia. f_equal. lia.
Qed.

Lemma byte_of_bits v k : 0 <= k -> forall i, 0 <= i < 8 -> Z.testbit (byte_of v k) i = Z.testbit v (8 * k + i).
Proof.
  intros Hk i Hi. unfold byte_of. rewrite Z.mod_pow2_bits_low, Z.div_pow2_bits by lia. f_equal. lia.
Qed.

(** A byte is its eight bits. *)
Lemma byte_of_eq v w k j : 0 <= k -> 0 <= j ->
  (forall i, 0 <= i < 8 -> Z.testbit v (8 * k + i) = Z.testbit w (8 * j + i)) -> byte_of v k = byte_of w j.
Proof.
  intros Hk Hj He. apply Z.bits_inj'. intros i Hi. destruct (Z.lt_ge_cases i 8).
  - by rewrite !byte_of_bits, He by lia.
  - unfold byte_of. by rewrite !Z.mod_pow2_bits_high by lia.
Qed.

Lemma byte_of_low v w k : 0 <= k -> 8 * (k + 1) <= w -> byte_of (v mod 2 ^ w) k = byte_of v k.
Proof. intros Hk Hw. apply byte_of_eq; [lia|lia|]. intros i Hi. by rewrite Z.mod_pow2_bits_low by lia. Qed.

Lemma spells_part a v off : 0 <= off -> 0 <= a -> a + off < 2 ^ 64 ->
  spells [mkCall trace_pmem_store_h [(a + off) mod 2 ^ 64; 8; v / 2 ^ (8 * off) mod 2 ^ 64]]
    (a + off) 8 (v / 2 ^ (8 * off)).
Proof.
  intros Ho Ha Hs. rewrite Z.mod_small by lia. intros b x. rewrite (spells_one _ _ _ b x).
  split; intros [Hb ->]; (split; [done|]);
    rewrite (byte_of_low (v / 2 ^ (8 * off)) 64) by lia; done.
Qed.

Lemma byte_of_shift v off k : 0 <= off -> 0 <= k -> byte_of (v / 2 ^ (8 * off)) k = byte_of v (off + k).
Proof.
  intros Ho Hk. apply byte_of_eq; [lia|lia|]. intros i Hi. rewrite Z.div_pow2_bits by lia. f_equal. lia.
Qed.

Lemma spells_small l a n v w :
  spells l a n v -> (forall k, 0 <= k < n -> byte_of v k = byte_of w k) -> spells l a n w.
Proof.
  intros Hs He b x. rewrite (Hs b x). split; intros [Hb ->]; (split; [done|]); rewrite He by lia; done.
Qed.

(** The types of values that are traced. *)
Definition traced (ty : IRType) : bool :=
  match ty with Ity_I8 | Ity_I16 | Ity_I32 | Ity_I64 | Ity_F64 | Ity_V128 | Ity_V256 => true | _ => false end.

(** Two halves of a value, one after the other. *)
Lemma spells_halves l1 l2 a m n v off : 0 <= m -> 0 <= n -> 0 <= off ->
  spells l1 (a + off) m (v / 2 ^ (8 * off)) ->
  spells l2 (a + (off + m)) n (v / 2 ^ (8 * (off + m))) ->
  spells (l1 ++ l2) (a + off) (m + n) (v / 2 ^ (8 * off)).
Proof.
  intros Hm Hn Ho H1 H2. apply (spells_app _ _ _ m n (v / 2 ^ (8 * off)) (v / 2 ^ (8 * (off + m)))); try done.
  - by replace (a + off + m) with (a + (off + m)) by lia.
  - intros k Hk. rewrite !byte_of_shift by lia. f_equal. lia.
Qed.

Lemma store_calls_spell ty a n v :
  traced ty = true -> sizeofIRType ty = Some n -> 0 <= a -> a + n <= 2 ^ 64 -> spells (store_calls ty a n v) a n v.
Proof.
  intros Ht Hn Ha Hs. assert (Hp := spells_part a v). assert (Hh := spells_halves).
  assert (forall l m, spells l (a + 0) m (v / 2 ^ (8 * 0)) -> spells l a m v) as H0.
  { intros l m. by rewrite Z.add_0_r, Z.div_1_r. }
  destruct ty; simplify_eq/=; try apply spells_one.
  1-3: (eapply spells_small; [apply spells_one|]; intros k Hk; by apply byte_of_low; lia).
  - apply H0. apply (Hh [_] [_] a 8 8 v 0); [lia..|apply Hp; lia|apply (Hp (0 + 8)); lia].
  - apply H0. apply (Hh [_] [_; _; _] a 8 24 v 0); [lia..|apply Hp; lia|].
    apply (Hh [_] [_; _] a 8 16 v 8); [lia..|apply Hp; lia|].
    apply (Hh [_] [_] a 8 8 v 16); [lia..|apply Hp; lia|apply (Hp (16 + 8)); lia].
Qed.

(** * A sample client *)

#[export] Instance sample_primops : PrimopTypes := {| typeOfPrimop_rest _ := Ity_I64 |}.

(** The client's state is the list of its stores; it leaves a block at an exit whose guard is on. *)
Definition sample_step (st : IRStmt) (tm : temps) (c : list (Z * Z)) : temps * list (Z * Z) * bool :=
  match st with
  | Ist_WrTmp t e => (set_temp t (atom_val tm e) tm, c, true)
  | Ist_Store _ a data => (tm, (atom_val tm a, atom_val tm data) :: c, true)
  | Ist_Exit g _ _ _ => (tm, c, negb (is_on tm g))
  | _ => (tm, c, true)
  end.

Definition sample_block : IRSB :=
  mkIRSB [Ity_I64; Ity_I32; Ity_V128; Ity_I1]
    [Some Ist_NoOp; Some (Ist_IMark 4096 4 0);
     Some (Ist_WrTmp 1 (Iex_Const (Ico_U32 7)));
     Some (Ist_Store Iend_LE (Iex_RdTmp 0) (Iex_RdTmp 1)); None;
     Some (Ist_Exit (Iex_RdTmp 3) 0 (Ico_U64 8192) 184);
     Some (Ist_Store Iend_LE (Iex_RdTmp 0) (Iex_RdTmp 2));
     Some (Ist_Flush (Iex_RdTmp 0) Ifk_clwb); Some (Ist_MBE Imbe_SFence)]
    (Iex_Const (Ico_U64 8192)) 0 184.

Lemma sample_block_ok : block_ok sample_step sample_block.
Proof.
  split; [done|]. cbn [sample_block tyenv stmts].
  repeat apply Forall_cons_2; try done; 
    (split; [first [done|by split_and!; try done; do 2 eexists; split
      |by split; [split; [done|by eexists]|]]|]);
    intros tm tm' c Ha; simpl; rewrite ?(Ha 0), ?(Ha 1), ?(Ha 2) by done; try done.
  - split_and!; try done. intros t Ht. unfold set_temp. destruct (t =? 1); [done|by apply Ha].
  - split_and!; try done. unfold is_on. simpl. by rewrite (Ha 3).
Qed.

(** * The claims *)

(** The instrumentation of a block succeeds, and running the instrumented block makes exactly
    the helper calls that an observer of the original block expects: one for the block, and after
    each executed store, compare-and-swap, flush and fence those that describe it, in the order of
    the execution, also when the block is left in the middle. *)
Theorem instrument_calls_exact `{PrimopTypes} {C} (client : IRStmt -> temps -> C -> temps * C * bool)
    o bb g (Hok : block_ok client bb) :
  exists bb' g', pmc_instrument o bb Ity_I64 Ity_I64 g = Ok tt (mkInstr bb' g') /\
    forall tm c, out_calls (exec client (Z.of_nat (length (tyenv bb))) (stmts bb') tm c) =
      out_calls (observed_block client o (tyenv bb) (stmts bb) tm c).
Proof.
  destruct (pmc_instrument_run client o bb g Hok) as (code & tys & g' & Heq & Hr).
  eexists _, g'. split; [exact Heq|]. intros tm c. apply (Hr tm tm c). done.
Qed.

Lemma instrument_calls_exact_witness :
  exists bb' g', pmc_instrument default_options sample_block Ity_I64 Ity_I64 (the_globals (sample_world default_options)) = Ok tt (mkInstr bb' g') /\
    forall tm c, out_calls (exec sample_step 4 (stmts bb') tm c) =
      out_calls (observed_block sample_step default_options (tyenv sample_block) (stmts sample_block) tm c).
Proof. apply (instrument_calls_exact sample_step). exact sample_block_ok. Defined.

(** The instrumented block does to the client what the original block does: the same state, the
    same temporaries, and it is left at the same place; and its end is kept. *)
Theorem instrument_transparent `{PrimopTypes} {C} (client : IRStmt -> temps -> C -> temps * C * bool)
    o bb g (Hok : block_ok client bb) :
  exists bb' g', pmc_instrument o bb Ity_I64 Ity_I64 g = Ok tt (mkInstr bb' g') /\
    (next bb', jumpkind bb', offsIP bb') = (next bb, jumpkind bb, offsIP bb) /\
    tyenv bb `prefix_of` tyenv bb' /\
    forall tm c, let n := Z.of_nat (length (tyenv bb)) in
      same_client n (exec client n (stmts bb') tm c) (exec client n (stmts bb) tm c).
Proof.
  destruct (pmc_instrument_run client o bb g Hok) as (code & tys & g' & Heq & Hr).
  eexists _, g'. split; [exact Heq|]. split; [done|]. split; [by apply prefix_app_r|].
  intros tm c n. destruct (Hr tm tm c ltac:(done)) as (A & B & _ & D).
  destruct (observed_block_client client o (tyenv bb) (stmts bb) tm c (proj2 Hok)) as (A' & B' & D').
  split_and!; [|by etransitivity..]. intros t Ht. etransitivity; [by apply A|by apply A'].
Qed.

Lemma instrument_transparent_witness :
  exists bb' g', pmc_instrument default_options sample_block Ity_I64 Ity_I64 (the_globals (sample_world default_options)) = Ok tt (mkInstr bb' g') /\
    (next bb', jumpkind bb', offsIP bb') = (next sample_block, jumpkind sample_block, offsIP sample_block) /\
    tyenv sample_block `prefix_of` tyenv bb' /\
    forall tm c, same_client 4 (exec sample_step 4 (stmts bb') tm c) (exec sample_step 4 (stmts sample_block) tm c).
Proof. apply (instrument_transparent sample_step). exact sample_block_ok. Defined.

(** Data whose value the code hands on: constants of more than 32 bits are cut, floating point
    constants are not traced. *)
Definition exact_data (data : IRExpr) : Prop :=
  match data with
  | Iex_Const (Ico_U1 v | Ico_U8 v | Ico_U16 v | Ico_U32 v | Ico_U64 v) => 0 <= v < 2 ^ 32
  | Iex_Const (Ico_F32 _ | Ico_F32i _ | Ico_F64 _ | Ico_F64i _) => False
  | _ => True
  end.

Lemma data_calls_spell tm ty n a data :
  traced ty = true -> sizeofIRType ty = Some n -> exact_data data ->
  0 <= atom_val tm a -> atom_val tm a + n <= 2 ^ 64 ->
  spells (data_calls tm ty n a data) (atom_val tm a) n (atom_val tm data).
Proof.
  intros Ht Hn Hd Ha Hs. pose proof (store_calls_spell ty (atom_val tm a) n) as Hsp.
  unfold data_calls. destruct data as [| | | | | | | | | |con| | | |]; try by apply Hsp.
  destruct con; simpl in Hd; try done; try (by apply Hsp); unfold uint32; rewrite Z.mod_small by done;
    rewrite wrap_small by (unfold is_word, word_size; lia); apply spells_one.
Qed.

(** C23: after a store of a value of a type the tool traces (integers of 8, 16, 32 and 64 bits, F64, V128 and
    V256), which is neither an integer constant of 2^32 or more nor a floating point constant, the added
    code reports exactly the bytes of the store with their new values: each byte of the range is
    reported, nothing outside of it, and each with the byte of the stored value that belongs there,
    however many helper calls the value is split into.  Stores of the other types (F32, F16, I128, decimals) are not
    reported (the tool prints that it is unable to), and larger constants with their low 32 bits ([wide_constant_cut]). *)
Theorem store_reported_bytewise `{PrimopTypes} o env s e a data ty n
    (Hext : extends env s) (Hs : store_ok env a data) (Ht : typeOfIRExpr env data = Some ty)
    (Hn : sizeofIRType ty = Some n) (Htr : traced ty = true) (Hd : exact_data data) :
  exists code tys g,
    instrument_stmt o env (Ist_Store e a data) s = Ok tt (ext s (Ist_Store e a data :: code) tys g) /\
    forall tm, 0 <= atom_val tm a -> atom_val tm a + n <= 2 ^ 64 ->
      spells (run_tool code tm).2 (atom_val tm a) n (atom_val tm data).
Proof.
  destruct (instrument_stmt_run o env (Ist_Store e a data) s Hext Hs) as (c & t & g & Heq & _ & Hr); [done|].
  exists c, t, g. split; [exact Heq|]. intros tm Ha Hb. rewrite (proj1 (Hr tm)). simpl. rewrite Ht, Hn.
  by apply data_calls_spell.
Qed.

(** The start of the instrumentation of the sample block. *)
Definition sample_state : instr_state :=
  mkInstr (deepCopyIRSBExceptStmts sample_block) (the_globals (sample_world default_options)).

Lemma sample_extends : extends (tyenv sample_block) sample_state.
Proof. by unfold extends. Qed.

Lemma store_reported_bytewise_witness :
  exists code tys g,
    let st := Ist_Store Iend_LE (Iex_RdTmp 0) (Iex_RdTmp 2) in
    instrument_stmt default_options (tyenv sample_block) st sample_state = Ok tt (ext sample_state (st :: code) tys g) /\
    forall tm, 0 <= tm 0 -> tm 0 + 16 <= 2 ^ 64 -> spells (run_tool code tm).2 (tm 0) 16 (tm 2).
Proof.
  apply (store_reported_bytewise default_options (tyenv sample_block) sample_state Iend_LE
    (Iex_RdTmp 0) (Iex_RdTmp 2) Ity_V128 16); try reflexivity; [apply sample_extends|].
  split_and!; try reflexivity. exists Ity_V128, 16. by split.
Defined.

(** A constant that is stored is reported with its low 32 bits only: for every constant of more
    than 32 bits the reported value is not the stored one. *)
Theorem wide_constant_cut `{PrimopTypes} o env s e a v
    (Hext : extends env s) (Ha : isIRAtom a = true) (Hta : typeOfIRExpr env a = Some Ity_I64)
    (Hv : 2 ^ 32 <= v < 2 ^ 64) :
  let st := Ist_Store e a (Iex_Const (Ico_U64 v)) in
  exists code tys g, instrument_stmt o env st s = Ok tt (ext s (st :: code) tys g) /\
    forall tm, (run_tool code tm).2 = [mkCall trace_pmem_store_h [atom_val tm a; 8; v mod 2 ^ 32]] /\
      v mod 2 ^ 32 <> v.
Proof.
  intros st. assert (stmt_ok env st) as Hok by (split_and!; try done; by exists Ity_I64, 8).
  destruct (instrument_stmt_run o env st s Hext Hok) as (c & t & g & Heq & _ & Hr); [done|].
  exists c, t, g. split; [exact Heq|]. intros tm. rewrite (proj1 (Hr tm)).
  pose proof (Z.mod_pos_bound v (2 ^ 32)). split; [|lia].
  unfold st. cbn. unfold uint32. by rewrite wrap_small by (unfold is_word, word_size; lia).
Qed.

Lemma wide_constant_cut_witness :
  let st := Ist_Store Iend_LE (Iex_RdTmp 0) (Iex_Const (Ico_U64 (2 ^ 40 + 5))) in
  exists code tys g, instrument_stmt default_options (tyenv sample_block) st sample_state =
      Ok tt (ext sample_state (st :: code) tys g) /\
    forall tm, (run_tool code tm).2 = [mkCall trace_pmem_store_h [tm 0; 8; (2 ^ 40 + 5) mod 2 ^ 32]] /\
      (2 ^ 40 + 5) mod 2 ^ 32 <> 2 ^ 40 + 5.
Proof. apply (wide_constant_cut default_options); [apply sample_extends|reflexivity|reflexivity|lia]. Defined.

(** A double compare-and-swap (a 16-byte one, say) cannot be instrumented: the code builds an
    expression around a null pointer and computes the address of the second half from the pointer
    to the first address's expression, which is undefined. *)
Theorem double_cas_undefined `{PrimopTypes} o env s cas hi
    (Hext : extends env s) (Hhi : dataHi cas = Some hi) (Hs : store_ok env (cas_addr cas) (dataLo cas))
    (Hty : exists ty, typeOfIRExpr env (expdLo cas) = Some ty /\ cas_ops ty <> None) :
  exists s', instrument_stmt o env (Ist_CAS cas) s = Stop Undefined s'.
Proof.
  destruct Hs as (Ha & Hd & Hta & dty & n & Hdt & Hn), Hty as (ty & Hty & Hops).
  destruct (cas_ops ty) as [[[eq or] xor]|] eqn:Ho; [|done].
  assert (typeOfPrimop xor = ty /\ typeOfPrimop or = ty /\ typeOfPrimop eq = Ity_I1) as (H1 & H2 & H3)
    by (destruct ty; by simplify_eq/=).
  cbn [instrument_stmt]. unfold instrument_cas. rewrite Hdt. step. rewrite Hn. step.
  rewrite (bind_ok _ _ _ _ _ (add_stmt_run _ _)), Hty. step. rewrite Ho. step. rewrite Hhi. unfold instrument_dcas.
  rewrite (bind_ok _ _ _ _ _ (make_expr_run _ ty (Iex_Binop xor _ _) ltac:(by simpl; rewrite H1))).
  rewrite (bind_ok _ _ _ _ _ (make_expr_run _ ty (Iex_Binop xor _ _) ltac:(by simpl; rewrite H1))).
  rewrite (bind_ok _ _ _ _ _ (make_expr_run _ ty (Iex_Binop or _ _) ltac:(by simpl; rewrite H2))).
  rewrite (bind_ok _ _ _ _ _ (make_expr_run _ Ity_I1 (Iex_Binop eq _ _) ltac:(by simpl; rewrite H3))).
  match goal with |- context[bindM (add_event_dw_guarded ?a ?n ?g ?d) _ ?s'] =>
    destruct (event_emits s' env 0 a d g dty n) as (c & t & gl & Heq & _) end; try done.
  - by repeat apply extends_ext.
  - unfold nt, next_temp. lia.
  - simpl. rewrite !nt_ext. simpl. lia.
  - rewrite (bind_ok _ _ _ _ _ Heq). by eexists.
Qed.

Definition sample_dcas : IRCAS :=
  mkIRCAS 0 0 Iend_LE (Iex_RdTmp 0) (Some (Iex_RdTmp 0)) (Iex_RdTmp 0) (Some (Iex_RdTmp 0)) (Iex_RdTmp 0).

Lemma double_cas_undefined_witness :
  exists s', instrument_stmt default_options (tyenv sample_block) (Ist_CAS sample_dcas) sample_state = Stop Undefined s'.
Proof.
  apply (double_cas_undefined default_options (tyenv sample_block) sample_state sample_dcas (Iex_RdTmp 0));
    [apply sample_extends|reflexivity| |].
  - split_and!; try reflexivity. by exists Ity_I64, 8.
  - by exists Ity_I64.
Defined.
