(* ===== verification/IRSaneSpec.v ===== *)
(** The sanity check and more temporaries: a statement that passes in a block passes in every block
    that has more temporaries, and the counters of the definitions agree on those both have.

    On this rests that the instrumentation keeps the check: the invariant of the block that is built
    is that all of its statements pass, with every temporary of the tool assigned once. *)
From S2P Require Import Prelude OSet Region Core Trans Pmem IR Instr InstrSpec IRSane.
Local Open Scope Z_scope.
Local Open Scope pm_scope.

(** Conjunctions of tests. *)
Ltac bools :=
  repeat match goal with
  | H : _ && _ = true |- _ => apply andb_true_iff in H as [? ?]
  | |- _ && _ = true => apply andb_true_iff; split
  end.

Create HintDb sane.

(** * More temporaries *)

(** Where the first type is known, the second is the same. *)
Definition refines (o o' : option IRType) : Prop := forall ty, o = Some ty -> o' = Some ty.

Lemma has_type_refines o o' ty : refines o o' -> has_type o ty = true -> has_type o' ty = true.
Proof. intros Hr. destruct o as [t|]; [|done]. by rewrite (Hr t). Qed.

Lemma not_type_refines o o' ty : refines o o' -> not_type o ty = true -> not_type o' ty = true.
Proof. intros Hr. destruct o as [t|]; [|done]. by rewrite (Hr t). Qed.

Lemma llsc_refines o o' : refines o o' -> llsc_type o = true -> llsc_type o' = true.
Proof. intros Hr. destruct o as [t|]; [|done]. by rewrite (Hr t). Qed.

Lemma same_type_refines o1 o2 o1' o2' :
  refines o1 o1' -> refines o2 o2' -> same_type o1 o2 = true -> same_type o1' o2' = true.
Proof. intros H1 H2. destruct o1 as [t1|]; [|done]. destruct o2 as [t2|]; [|done]. by rewrite (H1 t1), (H2 t2). Qed.

Lemma has_type_iff o ty : has_type o ty = true <-> o = Some ty.
Proof. destruct o as [t|]; simpl; [|done]. rewrite bool_decide_eq_true. naive_solver. Qed.

Lemma same_type_iff o1 o2 : same_type o1 o2 = true <-> exists ty, o1 = Some ty /\ o2 = Some ty.
Proof.
  destruct o1 as [t1|]; simpl; [|naive_solver]. destruct o2 as [t2|]; simpl; [|naive_solver].
  rewrite bool_decide_eq_true. naive_solver.
Qed.

Lemma not_type_some o ty : not_type o ty = true -> exists t, o = Some t /\ t <> ty.
Proof. destruct o as [t|]; [|done]. simpl. rewrite negb_true_iff, bool_decide_eq_false. by exists t. Qed.

Lemma llsc_not_bit o : llsc_type o = true -> exists ty, o = Some ty /\ ty <> Ity_I1.
Proof. destruct o as [ty|]; [|done]. intros Ht. exists ty. by destruct ty. Qed.

(** The types that the tests of the check establish. *)
Ltac types :=
  bools;
  repeat match goal with
  | H : has_type _ _ = true |- _ => apply has_type_iff in H
  | H : same_type _ _ = true |- _ => apply same_type_iff in H as (? & ? & ?)
  | H : not_type _ _ = true |- _ => apply not_type_some in H as (? & ? & ?)
  | H : llsc_type (typeOfIRExpr _ _) = true |- _ => apply llsc_not_bit in H as (? & ? & ?)
  end.

#[export] Hint Resolve has_type_refines not_type_refines llsc_refines same_type_refines : sane.

Section Weaken.
Context `{PrimopTypes} `{PrimopArgs}.
Context (env env' : list IRType) (Hp : env `prefix_of` env').

Lemma temp_refines t : refines (typeOfIRTemp env t) (typeOfIRTemp env' t).
Proof. intros ty. unfold typeOfIRTemp. destruct (t <? 0); [done|]. intros. by eapply prefix_lookup_Some. Qed.

Lemma expr_refines e : refines (typeOfIRExpr env e) (typeOfIRExpr env' e).
Proof. induction e; intros r Ht; try done; [by apply temp_refines|]. simpl in *. auto. Qed.

#[local] Hint Resolve temp_refines expr_refines : sane.

Lemma tc_atom gw e : isIRAtom e = true -> tcExpr env gw e = true -> tcExpr env' gw e = true.
Proof. by destruct e. Qed.

#[local] Hint Resolve tc_atom : sane.

(** The arguments of a call of a pure function. *)
Lemma tc_args gw l :
  forallb isIRAtom l = true ->
  forallb (fun a => negb (is_IRExpr_VECRET_or_GSPTR a) && tcExpr env gw a) l = true ->
  forallb (fun a => negb (is_IRExpr_VECRET_or_GSPTR a) && tcExpr env' gw a) l = true.
Proof. induction l as [|a l IH]; [done|]. simpl. intros. bools; eauto with sane. Qed.

Lemma args_not_bit l :
  forallb (fun a => not_type (typeOfIRExpr env a) Ity_I1) l = true ->
  forallb (fun a => not_type (typeOfIRExpr env' a) Ity_I1) l = true.
Proof. induction l as [|a l IH]; [done|]. simpl. intros. bools; eauto with sane. Qed.

#[local] Hint Resolve tc_args args_not_bit : sane.

Lemma tc_rhs gw e : flat_rhs e = true -> tcExpr env gw e = true -> tcExpr env' gw e = true.
Proof.
  destruct e; try done; simpl; intros; try destruct (argsOfPrimop op) as [[[t1 t2] t3] t4];
    bools; eauto with sane.
Qed.

Lemma dirty_args_weak ret i v g l n :
  tc_dirty_args env ret i v g l = Some n -> tc_dirty_args env' ret i v g l = Some n.
Proof.
  revert i v g. induction l as [|a l IH]; intros i v g; [done|]. simpl.
  destruct (32 <=? i); [done|]. intros Hs. case_match eqn:Ht; [|done].
  rewrite (proj2 (andb_true_iff _ _)); [by apply IH|]. split; bools; try done.
  match goal with H : _ || _ = true |- _ => apply orb_true_iff in H as [Hv|Hv] end;
    apply orb_true_iff; eauto with sane.
Qed.

Lemma tc_dirty_weak gw d :
  isIRAtom (guard d) = true -> tc_dirty env gw d = true -> tc_dirty env' gw d = true.
Proof.
  intros Hg. unfold tc_dirty. intros Hd. apply andb_true_iff in Hd as [Hd Hret]. bools; eauto with sane.
  destruct (match d_tmp d with Some t => typeOfIRTemp env t | None => Some Ity_INVALID end) as [ret|] eqn:Hr; [|done].
  assert (match d_tmp d with Some t => typeOfIRTemp env' t | None => Some Ity_INVALID end = Some ret) as ->.
  { destruct (d_tmp d); [by apply temp_refines|done]. }
  bools; [done|]. destruct (tc_dirty_args env ret 0 0 0 (args d)) as [n|] eqn:Ha; [|done].
  by rewrite (dirty_args_weak _ _ _ _ _ _ Ha).
Qed.

Lemma tc_cas_weak gw cas : isIRAtom (cas_addr cas) = true -> tc_cas env gw cas = true -> tc_cas env' gw cas = true.
Proof.
  intros Ha. unfold tc_cas. intros Hc. bools; eauto with sane.
  - destruct (oldHi cas =? IRTemp_INVALID), (expdHi cas), (dataHi cas); try done. bools; eauto with sane.
  - destruct (typeOfIRExpr env (expdLo cas)) eqn:He; [|done]. by rewrite (expr_refines _ _ He).
Qed.

Lemma tc_stmt_weak gw st : isFlatIRStmt st = true -> tcStmt env gw st = true -> tcStmt env' gw st = true.
Proof.
  destruct st; simpl; intros Hf Ht; try done; bools; eauto using tc_rhs, tc_dirty_weak, tc_cas_weak with sane.
  - destruct (typeOfIRLoadGOp cvt) as [[r ?]|]; [|done]. eauto with sane.
  - destruct storedata; bools; eauto with sane.
Qed.
End Weaken.

(** * The counters *)

(** The second counters have all that can be read by the first. *)
Definition covers (n n' : Z) (c c' : counts) : Prop := n <= n' /\ forall t, t < n -> c t <= c' t.

Section Uses.
Context (n n' : Z) (c c' : counts) (Hc : covers n n' c c').

Lemma use_atom e : isIRAtom e = true -> useBeforeDef_Expr n c e = true -> useBeforeDef_Expr n' c' e = true.
Proof.
  destruct e; try done. simpl. unfold useBeforeDef_Temp. destruct Hc as [Hn Hle]. intros _ Hu.
  specialize (Hle tmp). bools; lia.
Qed.

#[local] Hint Resolve use_atom : sane.

Lemma use_args l :
  forallb isIRAtom l = true ->
  forallb (fun a => negb (is_IRExpr_VECRET_or_GSPTR a) && useBeforeDef_Expr n c a) l = true ->
  forallb (fun a => negb (is_IRExpr_VECRET_or_GSPTR a) && useBeforeDef_Expr n' c' a) l = true.
Proof. induction l as [|a l IH]; [done|]. simpl. intros. bools; eauto with sane. Qed.

Lemma use_rhs e : flat_rhs e = true -> useBeforeDef_Expr n c e = true -> useBeforeDef_Expr n' c' e = true.
Proof. destruct e; try done; simpl; intros; bools; eauto using use_args with sane. by apply (use_atom (Iex_RdTmp tmp)). Qed.

Lemma use_dirty_args l :
  forallb isIRAtom_or_VECRET_or_GSPTR l = true ->
  forallb (fun a => is_IRExpr_VECRET_or_GSPTR a || useBeforeDef_Expr n c a) l = true ->
  forallb (fun a => is_IRExpr_VECRET_or_GSPTR a || useBeforeDef_Expr n' c' a) l = true.
Proof.
  induction l as [|a l IH]; [done|]. simpl. intros Hf Hu. bools; [|eauto].
  unfold isIRAtom_or_VECRET_or_GSPTR in *.
  destruct (is_IRExpr_VECRET_or_GSPTR a); [done|]. rewrite orb_false_r in *. simpl in *. eauto with sane.
Qed.

Lemma use_there o : if_there isIRAtom o = true ->
  if_there (useBeforeDef_Expr n c) o = true -> if_there (useBeforeDef_Expr n' c') o = true.
Proof. destruct o; simpl; eauto with sane. Qed.

Lemma use_stmt st :
  isFlatIRStmt st = true -> useBeforeDef_Stmt n c st = true -> useBeforeDef_Stmt n' c' st = true.
Proof.
  destruct st; simpl; intros; try done; bools; eauto using use_rhs, use_dirty_args, use_there with sane.
  destruct (mFx details), (mAddr details); try done; eauto with sane.
Qed.
End Uses.

Lemma assigned_temp n t c c1 : assignedOnce_Temp n t c = Some c1 ->
  0 <= t < n /\ c t <= 0 /\ forall u, c1 u = if u =? t then c u + 1 else c u.
Proof.
  unfold assignedOnce_Temp. case_match eqn:Hr; [done|]. rewrite Z.eqb_refl.
  case_match eqn:Ht; intros; simplify_eq. apply orb_false_iff in Hr as [? ?]. by split_and!; try lia.
Qed.

Lemma assigned_temp_ok n t c : 0 <= t < n -> c t <= 0 -> exists c1, assignedOnce_Temp n t c = Some c1.
Proof.
  intros Ht Hc. unfold assignedOnce_Temp. rewrite (proj2 (orb_false_iff (t <? 0) (_ <=? t))) by lia.
  rewrite Z.eqb_refl. destruct (Z.ltb_spec 1 (c t + 1)); [lia|]. by eexists.
Qed.

(** The counters agree below [n] and are otherwise kept. *)
Definition same_below (n : Z) (c c' c1 c1' : counts) : Prop :=
  (forall t, t < n -> c1' t = c1 t) /\ forall t, n <= t -> c1' t = c' t.

Lemma assigned_temp_same n n' t c c' c1 :
  n <= n' -> (forall u, u < n -> c' u = c u) -> assignedOnce_Temp n t c = Some c1 ->
  exists c1', assignedOnce_Temp n' t c' = Some c1' /\ same_below n c c' c1 c1'.
Proof.
  intros Hn Hag H1. apply assigned_temp in H1 as (Ht & Hz & Hc1).
  destruct (assigned_temp_ok n' t c') as (c1' & H1'); [lia|rewrite Hag; lia|].
  exists c1'. split; [done|]. apply assigned_temp in H1' as (_ & _ & Hc1').
  split; intros u Hu; rewrite Hc1', ?Hc1; destruct (Z.eqb_spec u t); try lia; rewrite Hag; lia.
Qed.

Lemma assigned_same n n' st c c' c1 :
  n <= n' -> (forall u, u < n -> c' u = c u) -> assignedOnce_Stmt n st c = Some c1 ->
  exists c1', assignedOnce_Stmt n' st c' = Some c1' /\ same_below n c c' c1 c1'.
Proof.
  intros Hn Hag. destruct st; simpl; try (by apply assigned_temp_same);
    try (intros; simplify_eq; by exists c').
  - destruct (oldHi details =? IRTemp_INVALID); simpl; [by apply assigned_temp_same|].
    intros Hb. apply bind_Some in Hb as (c2 & H2 & H1).
    destruct (assigned_temp_same _ _ _ _ _ _ Hn Hag H2) as (c2' & -> & A & B).
    destruct (assigned_temp_same _ _ _ _ _ _ Hn A H1) as (c1' & H1' & A' & B').
    exists c1'. split; [done|]. split; [done|]. intros t Ht. rewrite B', B; done.
  - destruct (d_tmp details); [by apply assigned_temp_same|]. intros. simplify_eq. by exists c'.
Qed.

Lemma assigned_temp_le n t c c1 : assignedOnce_Temp n t c = Some c1 -> forall u, c u <= c1 u.
Proof. intros Ha u. apply assigned_temp in Ha as (_ & _ & ->). case_match; lia. Qed.

Lemma assigned_le n st c c1 : assignedOnce_Stmt n st c = Some c1 -> forall u, c u <= c1 u.
Proof.
  destruct st; simpl; try (by apply assigned_temp_le); try (intros; simplify_eq; lia).
  - destruct (oldHi details =? IRTemp_INVALID); simpl; [by apply assigned_temp_le|].
    intros Hb u. apply bind_Some in Hb as (c2 & H2 & H1).
    pose proof (assigned_temp_le _ _ _ _ H2 u). pose proof (assigned_temp_le _ _ _ _ H1 u). lia.
  - destruct (d_tmp details); [by apply assigned_temp_le|]. intros. simplify_eq. lia.
Qed.

(** More temporaries do not change the counters. *)
Lemma assigned_temp_more n n' t c c1 :
  n <= n' -> assignedOnce_Temp n t c = Some c1 -> assignedOnce_Temp n' t c = Some c1.
Proof.
  intros Hn. unfold assignedOnce_Temp. case_match eqn:Hr; [done|]. apply orb_false_iff in Hr as [? ?].
  by rewrite (proj2 (orb_false_iff (t <? 0) (_ <=? t))) by lia.
Qed.

Lemma assigned_more n n' st c c1 :
  n <= n' -> assignedOnce_Stmt n st c = Some c1 -> assignedOnce_Stmt n' st c = Some c1.
Proof.
  intros Hn. destruct st; simpl; try done; try (by apply assigned_temp_more).
  - intros Hb. apply bind_Some in Hb as (c2 & H2 & H1). apply bind_Some. exists c2.
    split; [|by eapply assigned_temp_more]. case_match; [done|by eapply assigned_temp_more].
  - case_match; [by apply assigned_temp_more|done].
Qed.

Lemma count_defs_more n n' l c c1 :
  n <= n' -> forallb (entry isFlatIRStmt) l = true -> count_defs n l c = Some c1 -> count_defs n' l c = Some c1.
Proof.
  intros Hn. revert c. induction l as [|[st|] l IH]; intros c Hf Hd; try done. simpl in *. bools.
  destruct (useBeforeDef_Stmt n c st) eqn:Hu; [|done]. apply bind_Some in Hd as (c2 & H2 & Hd).
  rewrite (use_stmt n n' c c) by (done || by split; [|lia]).
  rewrite (assigned_more _ _ _ _ _ Hn H2). simpl. by apply IH.
Qed.

Lemma count_defs_app n l1 l2 c : count_defs n (l1 ++ l2) c = count_defs n l1 c ≫= count_defs n l2.
Proof.
  revert c. induction l1 as [|[st|] l1 IH]; intros c; try done. simpl.
  destruct (useBeforeDef_Stmt n c st); [|done]. destruct (assignedOnce_Stmt n st c); simpl; [apply IH|done].
Qed.
