(* ===== verification/IRSsa.v ===== *)
(** Flat blocks that pass the sanity check are in single assignment form: the operands and the
    assigned temporaries of statements, and what the counters of the check record of them. *)
From S2P Require Import Prelude IR IRSane IRSaneSpec.
Local Open Scope Z_scope.

(** * Operands and assignments *)

(** The operands of the right-hand side of an assignment. *)
Definition rhs_operands (e : IRExpr) : list IRExpr :=
  match e with
  | Iex_GetI _ ix _ => [ix]
  | Iex_RdTmp _ | Iex_Const _ => [e]
  | Iex_Qop _ a1 a2 a3 a4 => [a1; a2; a3; a4]
  | Iex_Triop _ a1 a2 a3 => [a1; a2; a3]
  | Iex_Binop _ a1 a2 => [a1; a2]
  | Iex_Unop _ a | Iex_Load _ _ a => [a]
  | Iex_CCall _ _ l => l
  | Iex_ITE c t f => [c; t; f]
  | _ => []
  end.

(** The operands of a flat statement, without the guard of a helper call. *)
Definition operands (st : IRStmt) : list IRExpr :=
  match st with
  | Ist_NoOp | Ist_IMark _ _ _ | Ist_MBE _ => []
  | Ist_AbiHint base _ nia => [base; nia]
  | Ist_Put _ data => [data]
  | Ist_PutI _ ix _ data => [ix; data]
  | Ist_WrTmp _ e => rhs_operands e
  | Ist_Store _ a data => [a; data]
  | Ist_StoreG sg => [sg_addr sg; sg_data sg; sg_guard sg]
  | Ist_LoadG _ _ _ a alt g => [a; alt; g]
  | Ist_CAS cas => [cas_addr cas; expdLo cas; dataLo cas] ++ option_list (expdHi cas) ++ option_list (dataHi cas)
  | Ist_LLSC _ _ a storedata => a :: option_list storedata
  | Ist_Dirty d => args d ++ match mFx d with Ifx_None => [] | _ => option_list (mAddr d) end
  | Ist_Exit g _ _ _ => [g]
  | Ist_Flush a _ => [a]
  end.

(** The temporaries a statement assigns. *)
Definition assigns (st : IRStmt) : list Z :=
  match st with
  | Ist_WrTmp t _ | Ist_LoadG _ _ t _ _ _ | Ist_LLSC _ t _ _ => [t]
  | Ist_Dirty d => option_list (d_tmp d)
  | Ist_CAS cas => (if oldHi cas =? IRTemp_INVALID then [] else [oldHi cas]) ++ [oldLo cas]
  | _ => []
  end.

Definition all_assigned (l : list (option IRStmt)) : list Z :=
  l ≫= fun o => match o with Some st => assigns st | None => [] end.

(** The counters say what has been assigned. *)
Definition records (c : counts) (d : list Z) : Prop := forall t, c t = if bool_decide (t ∈ d) then 1 else 0.

Section SingleAssignment.
Context (n : Z).

Lemma operands_used c st :
  useBeforeDef_Stmt n c st = true ->
  Forall (fun a => is_IRExpr_VECRET_or_GSPTR a || useBeforeDef_Expr n c a = true) (operands st).
Proof.
  assert (forall e, useBeforeDef_Expr n c e = true -> is_IRExpr_VECRET_or_GSPTR e || useBeforeDef_Expr n c e = true) as Hu.
  { intros e ->. apply orb_true_r. }
  assert (forall o, if_there (useBeforeDef_Expr n c) o = true ->
    Forall (fun a => is_IRExpr_VECRET_or_GSPTR a || useBeforeDef_Expr n c a = true) (option_list o)) as Ho.
  { intros [e|]; repeat constructor. auto. }
  destruct st; simpl; intros; bools; repeat apply Forall_cons_2; rewrite ?Forall_app; auto.
  - destruct data; simpl in *; bools; repeat apply Forall_cons_2; auto.
    apply Forall_forall. intros a Ha. apply Hu. eapply forallb_forall in H; [|by apply list_elem_of_In].
    bools. done.
  - split.
    + apply Forall_forall. intros a Ha. eapply forallb_forall in H; [exact H|by apply list_elem_of_In].
    + destruct (mFx details), (mAddr details); try done; by repeat apply Forall_cons_2; auto.
Qed.

Lemma temp_recorded t c c1 d :
  assignedOnce_Temp n t c = Some c1 -> records c d -> NoDup d ->
  records c1 (d ++ [t]) /\ NoDup (d ++ [t]) /\ Forall (fun t => 0 <= t < n) [t].
Proof.
  intros Ha Hr Hd. apply assigned_temp in Ha as (Ht & Hz & Hc1).
  assert (t ∉ d) as Hnot. { intros Hin. rewrite Hr, bool_decide_true in Hz by done. lia. }
  split; [|split; [|by constructor]].
  - intros u. rewrite Hc1. destruct (Z.eqb_spec u t) as [->|Hne].
    + by rewrite Hr, bool_decide_false, bool_decide_true by set_solver.
    + rewrite Hr. do 2 case_bool_decide; set_solver.
  - apply NoDup_app. split_and!; [done|set_solver|apply NoDup_singleton].
Qed.

Lemma stmt_recorded st c c1 d :
  assignedOnce_Stmt n st c = Some c1 -> records c d -> NoDup d ->
  records c1 (d ++ assigns st) /\ NoDup (d ++ assigns st) /\ Forall (fun t => 0 <= t < n) (assigns st).
Proof.
  intros Ha Hr Hd. pose proof temp_recorded as Ht.
  assert (Some c = Some c1 -> records c1 (d ++ []) /\ NoDup (d ++ []) /\ Forall (fun t => 0 <= t < n) []) as H0.
  { intros. simplify_eq. by rewrite app_nil_r. }
  destruct st; simpl in *; try (by apply H0);
    try (by apply (Ht _ _ _ _ Ha Hr Hd)).
  - destruct (oldHi details =? IRTemp_INVALID); simpl in *.
    + by apply (Ht _ _ _ _ Ha Hr Hd).
    + apply bind_Some in Ha as (c2 & Ha & Ha'). destruct (Ht _ _ _ _ Ha Hr Hd) as (Hr2 & Hd2 & ?).
      destruct (Ht _ _ _ _ Ha' Hr2 Hd2) as (Hr3 & Hd3 & ?). rewrite <-app_assoc in *.
      split; [done|]. split; [done|]. by apply (Forall_app _ [_] [_]).
  - destruct (d_tmp details); simpl in *; [|by apply H0].
    by apply (Ht _ _ _ _ Ha Hr Hd).
Qed.

Lemma block_recorded l : forall c c1 d,
  count_defs n l c = Some c1 -> records c d -> NoDup d ->
  NoDup (d ++ all_assigned l) /\ Forall (fun t => 0 <= t < n) (all_assigned l) /\
  forall l1 st l2 t, l = l1 ++ Some st :: l2 -> Iex_RdTmp t ∈ operands st -> t ∈ d ++ all_assigned l1.
Proof.
  induction l as [|[st|] l IH]; intros c c1 d Hc Hr Hd; [|simpl in Hc|done].
  { rewrite app_nil_r. split_and!; [done|constructor|]. by intros []. }
  destruct (useBeforeDef_Stmt n c st) eqn:Hu; [|done]. apply bind_Some in Hc as (c2 & Ha & Hc).
  destruct (stmt_recorded _ _ _ _ Ha Hr Hd) as (Hr2 & Hd2 & Hrange).
  destruct (IH _ _ _ Hc Hr2 Hd2) as (A & B & D). cbn [all_assigned mbind list_bind]. fold (all_assigned l).
  rewrite <-app_assoc in A. split_and!; [done|by apply Forall_app|].
  intros [|o l1] st' l2 t Heq Ht; simplify_eq/=.
  - rewrite app_nil_r. apply operands_used in Hu. eapply Forall_forall in Hu; [|exact Ht]. simpl in Hu.
    unfold useBeforeDef_Temp in Hu. bools. specialize (Hr t). case_bool_decide; [done|lia].
  - fold (all_assigned l1). rewrite app_assoc. by eapply D.
Qed.
End SingleAssignment.

(** * The parts of the check *)

(** The parts of the check of a flat block. *)
Lemma sane_parts `{PrimopTypes} `{PrimopArgs} bb gw :
  sanityCheckIRSB bb true gw = true <->
  (gw = Ity_I32 \/ gw = Ity_I64) /\
  forallb (entry isFlatIRStmt) (stmts bb) = true /\ isIRAtom (next bb) = true /\
  (exists c, count_defs (next_temp bb) (stmts bb) (fun _ => 0) = Some c) /\
  forallb (entry (tcStmt (tyenv bb) gw)) (stmts bb) = true /\
  typeOfIRExpr (tyenv bb) (next bb) = Some gw /\ 16 <= offsIP bb.
Proof.
  unfold sanityCheckIRSB. simpl. rewrite !andb_true_iff, orb_true_iff, !bool_decide_eq_true, has_type_iff, Z.leb_le.
  unfold is_Some. tauto.
Qed.

