(* ===== verification/InstrSane.v ===== *)
(** The instrumentation keeps the sanity check: the block it builds from a flat block that passes
    passes as well.

    The invariant of the block that is built relates it to the part of the original block that has
    been copied: its statements are flat and well-typed, the counters of the original temporaries
    are those of the original block, and each temporary of the tool has been assigned once. *)
From S2P Require Import Prelude OSet Region Core Trans Pmem IR Instr InstrSpec IRSane IRSaneSpec.
Local Open Scope Z_scope.
Local Open Scope pm_scope.

(** The counters of a block with [m] temporaries whose first [n] have the counters [c]. *)
Definition merged (n m : Z) (c : counts) : counts :=
  fun t => if t <? n then c t else if t <? m then 1 else 0.

(** A property of statements that those of the tool have. *)
Class ToolLike (P : IRStmt -> bool) : Prop := {
  like_temp t e : P (Ist_WrTmp t e) = true;
  like_call rp name h l g : P (Ist_Dirty (set_guard g (unsafeIRDirty_0_N rp name h l))) = true;
}.

#[export] Instance like_any : ToolLike (fun _ => true).
Proof. by split. Qed.

Section Sane.
Context `{PrimopTypes} `{PrimopArgs} (env : list IRType) (P : IRStmt -> bool) `{!ToolLike P}.

Local Abbreviation n0 := (Z.of_nat (length env)).
Local Abbreviation tys s := (tyenv (sbOut s)).

(** The block that is built, when the original block has the counters [c] so far. *)
Record good (c : counts) (s : instr_state) : Prop := mkGood {
  good_extends : extends env s;
  good_counts : forall t, 0 <= c t;
  good_like : forallb (entry P) (stmts (sbOut s)) = true;
  good_flat : forallb (entry isFlatIRStmt) (stmts (sbOut s)) = true;
  good_typed : forallb (entry (tcStmt (tys s) Ity_I64)) (stmts (sbOut s)) = true;
  good_defs : exists c', count_defs (nt s) (stmts (sbOut s)) (fun _ => 0) = Some c' /\
    forall t, c' t = merged n0 (nt s) c t;
}.

Lemma typed_more s l t :
  forallb (entry isFlatIRStmt) l = true -> forallb (entry (tcStmt (tys s) Ity_I64)) l = true ->
  forallb (entry (tcStmt (tys s ++ t) Ity_I64)) l = true.
Proof.
  induction l as [|[st|] l IH]; try done. simpl. intros Hf Ht. bools; [|auto].
  eapply tc_stmt_weak; [by apply prefix_app_r|done..].
Qed.

(** One more statement, with the temporaries it needs. *)
Lemma good_grow c c1 s st t g :
  good c s -> P st = true -> isFlatIRStmt st = true -> tcStmt (tys s ++ t) Ity_I64 st = true -> (forall u, 0 <= c1 u) ->
  (forall c', (forall u, c' u = merged n0 (nt s) c u) ->
     let m := nt s + Z.of_nat (length t) in
     useBeforeDef_Stmt m c' st = true /\
     exists c1', assignedOnce_Stmt m st c' = Some c1' /\ forall u, c1' u = merged n0 m c1 u) ->
  good c1 (ext s [st] t g).
Proof.
  intros [He _ Hlk Hf Ht (c' & Hd & Hc')] HP Hfl Htc Hpos Hst. destruct (Hst c' Hc') as (Hu & c1' & Ha & Hc1').
  constructor; [by apply extends_ext|done|..].
  - simpl. rewrite forallb_app, Hlk. simpl. by rewrite HP.
  - simpl. rewrite forallb_app, Hf. simpl. by rewrite Hfl.
  - simpl. rewrite forallb_app, typed_more by done. simpl. by rewrite Htc.
  - exists c1'. rewrite nt_ext. split; [|done]. simpl. rewrite count_defs_app.
    rewrite (count_defs_more (nt s) (nt s + Z.of_nat (length t)) _ _ _ ltac:(lia) Hf Hd). simpl. by rewrite Hu, Ha.
Qed.

(** A statement of the original block. *)
Definition passes (c : counts) (st : IRStmt) (c1 : counts) : Prop :=
  P st = true /\ isFlatIRStmt st = true /\ tcStmt env Ity_I64 st = true /\
  useBeforeDef_Stmt n0 c st = true /\ assignedOnce_Stmt n0 st c = Some c1.

Lemma merged_covers m c : n0 <= m -> covers n0 m c (merged n0 m c).
Proof. intros Hm. split; [done|]. intros t Ht. unfold merged. by rewrite (proj2 (Z.ltb_lt _ _)) by lia. Qed.

Lemma good_client c c1 s st g : good c s -> passes c st c1 -> good c1 (ext s [st] [] g).
Proof.
  intros Hg (HP & Hf & Ht & Hu & Ha). pose proof Hg as [He Hpos _ _ _ _]. pose proof (extends_nt _ _ He) as Hn.
  apply (good_grow c); try done.
  - rewrite app_nil_r. by eapply tc_stmt_weak.
  - intros u. pose proof (assigned_le _ _ _ _ Ha u). specialize (Hpos u). lia.
  - intros c' Hc'. cbn [length]. rewrite Z.add_0_r.
    assert (forall u, u < n0 -> c' u = c u) as Hag.
    { intros u Hlt. rewrite Hc'. unfold merged. by rewrite (proj2 (Z.ltb_lt _ _)). }
    split.
    + eapply use_stmt; [|done..]. split; [done|]. intros u Hlt. rewrite Hag; lia.
    + destruct (assigned_same _ _ _ _ _ _ Hn Hag Ha) as (c1' & Ha' & A & B). exists c1'. split; [done|].
      intros u. unfold merged. destruct (Z.ltb_spec u n0); [by apply A|].
      rewrite B, Hc' by done. unfold merged. by rewrite (proj2 (Z.ltb_ge u n0)).
Qed.

(** ** What the tool builds statements from *)

Definition usable (c : counts) (s : instr_state) (e : IRExpr) (ty : IRType) : Prop :=
  isIRAtom e = true /\ typeOfIRExpr (tys s) e = Some ty /\ tcExpr (tys s) Ity_I64 e = true /\
  useBeforeDef_Expr (nt s) (merged n0 (nt s) c) e = true.

Definition guard_usable (c : counts) (s : instr_state) (g : option IRExpr) : Prop :=
  match g with Some g => usable c s g Ity_I1 | None => True end.

Lemma merged_more m m' c : m <= m' -> covers m m' (merged n0 m c) (merged n0 m' c).
Proof.
  intros Hm. split; [done|]. intros t Ht. unfold merged. case_match; [done|]. by rewrite !(proj2 (Z.ltb_lt _ _)) by lia.
Qed.

Lemma usable_ext c s e ty code t g : usable c s e ty -> usable c (ext s code t g) e ty.
Proof.
  intros (Ha & Ht & Hc & Hu). split_and!; [done|..].
  - eapply expr_refines; [|exact Ht]. by apply prefix_app_r.
  - eapply tc_atom; [done|exact Hc].
  - eapply use_atom; [|done|exact Hu]. rewrite nt_ext. apply merged_more. lia.
Qed.

Lemma guard_usable_ext c s g code t gl : guard_usable c s g -> guard_usable c (ext s code t gl) g.
Proof. destruct g; [apply usable_ext|done]. Qed.

(** The temporary that has just been assigned. *)
Lemma usable_new c s e ty g : extends env s -> usable c (ext s [Ist_WrTmp (nt s) e] [ty] g) (Iex_RdTmp (nt s)) ty.
Proof.
  intros He. apply extends_nt in He. split_and!; try done.
  - simpl. unfold typeOfIRTemp, nt, next_temp. rewrite (proj2 (Z.ltb_ge _ _)), Nat2Z.id by lia.
    by rewrite list_lookup_middle.
  - rewrite nt_ext. simpl. unfold useBeforeDef_Temp, merged. simpl.
    rewrite (proj2 (Z.ltb_ge (nt s) n0)), (proj2 (Z.ltb_lt (nt s) _)) by lia. lia.
Qed.

Lemma usable_const c s con : saneIRConst con = true -> usable c s (Iex_Const con) (typeOfIRConst con).
Proof. done. Qed.

Definition rhs_ok (c : counts) (s : instr_state) (e : IRExpr) (ty : IRType) : Prop :=
  flat_rhs e = true /\ typeOfIRExpr (tys s) e = Some ty /\ tcExpr (tys s) Ity_I64 e = true /\
  useBeforeDef_Expr (nt s) (merged n0 (nt s) c) e = true.

Lemma rhs_unop c s op v t1 :
  usable c s v t1 -> t1 <> Ity_INVALID -> argsOfPrimop op = (t1, Ity_INVALID, Ity_INVALID, Ity_INVALID) ->
  rhs_ok c s (Iex_Unop op v) (typeOfPrimop op).
Proof.
  intros (Ha & Ht & Hc & Hu) Hi Hop. split_and!; try done. simpl. rewrite Hop, Ht, Hc. simpl.
  unfold is_arg. by rewrite bool_decide_false, bool_decide_true by done.
Qed.

Lemma rhs_binop c s op a b t1 :
  usable c s a t1 -> usable c s b t1 -> t1 <> Ity_INVALID ->
  argsOfPrimop op = (t1, t1, Ity_INVALID, Ity_INVALID) ->
  rhs_ok c s (Iex_Binop op a b) (typeOfPrimop op).
Proof.
  intros (Ha & Ht & Hc & Hu) (Ha' & Ht' & Hc' & Hu') Hi Hop. split_and!; simpl; [by bools|done| |by bools].
  rewrite Hop, Ht, Ht', Hc, Hc'. unfold is_arg. simpl. rewrite (bool_decide_false (t1 = _)) by done.
  by rewrite bool_decide_true by done.
Qed.

Lemma good_make c s e ty g : good c s -> rhs_ok c s e ty -> good c (ext s [Ist_WrTmp (nt s) e] [ty] g).
Proof.
  intros Hg (Hf & Ht & Hc & Hu). pose proof Hg as [He Hpos _ _ _ _].
  pose proof (usable_new c s e ty g He) as (_ & Hnew & _). apply extends_nt in He.
  apply (good_grow c); try done; [apply like_temp|..].
  - simpl. bools; [eapply tc_rhs; [by apply prefix_app_r|done..]|]. apply same_type_iff. exists ty. split; [exact Hnew|].
    eapply expr_refines; [by apply prefix_app_r|done].
  - intros c' Hc'. change (Z.of_nat (length [ty])) with 1. split.
    + eapply use_rhs; [|done|exact Hu]. split; [lia|]. intros u _. by rewrite Hc'.
    + destruct (assigned_temp_ok (nt s + 1) (nt s) c') as (c1' & Ha); [lia| |].
      { rewrite Hc'. unfold merged. rewrite (proj2 (Z.ltb_ge (nt s) n0)), Z.ltb_irrefl by lia. done. }
      exists c1'. split; [done|]. apply assigned_temp in Ha as (_ & _ & Hc1'). intros u. rewrite Hc1', Hc'.
      unfold merged. destruct (Z.eqb_spec u (nt s)), (Z.ltb_spec u n0), (Z.ltb_spec u (nt s)), (Z.ltb_spec u (nt s + 1)); lia.
Qed.

(** A call of a helper of the tool with at most three arguments. *)
Lemma good_call c s rp name h l gd g :
  good c s -> null_helper h = false -> 0 <= rp <= Z.of_nat (length l) -> Z.of_nat (length l) <= 3 ->
  Forall (fun a => usable c s a Ity_I64) l -> usable c s gd Ity_I1 ->
  good c (ext s [Ist_Dirty (set_guard gd (unsafeIRDirty_0_N rp name h l))] [] g).
Proof.
  intros Hg Hh Hrp Hl Hargs (Hga & Hgt & Hgc & Hgu). pose proof Hg as [He Hpos _ _ _ _].
  assert (forallb isIRAtom_or_VECRET_or_GSPTR l = true /\ forall i, 0 <= i -> i + Z.of_nat (length l) <= 32 ->
    tc_dirty_args (tys s) Ity_INVALID i 0 0 l = Some 0) as [Hat Htc].
  { clear -Hargs. induction Hargs as [|a l (Ha & Ht & _) Hargs [IH1 IH2]]; [done|]. split.
    - simpl. unfold isIRAtom_or_VECRET_or_GSPTR at 1. by rewrite Ha, IH1.
    - intros i Hi Hl. cbn [length] in Hl. simpl. rewrite (proj2 (Z.leb_gt 32 i)), Ht by lia. simpl.
      destruct a; try done; simpl; apply IH2; lia. }
  apply (good_grow c); try done; [apply like_call|..].
  - simpl. by rewrite Hga, Hat.
  - rewrite app_nil_r. simpl. unfold tc_dirty, saneIRCallee, countArgs. simpl. rewrite Hh, Hgt, Hgc, Htc by lia. simpl.
    bools; try done; try lia. 
  - intros c' Hc'. simpl. rewrite Z.add_0_r. split.
    + rewrite andb_true_r. clear -Hargs Hc'. induction Hargs as [|a l (Ha & Ht & _ & Hu) Hargs IH]; [done|].
      simpl. bools; [|done]. apply orb_true_iff. right. eapply use_atom; [|done|exact Hu]. split; [done|].
      intros u _. by rewrite Hc'.
    + by exists c'.
Qed.

(** ** The functions of the instrumentation *)

(** The operation succeeds and leaves a good block. *)
Definition keeps (c : counts) (m : IM unit) (s : instr_state) : Prop :=
  exists code t g, m s = Ok tt (ext s code t g) /\ good c (ext s code t g).

Lemma ext_nil s : ext s [] [] (i_glob s) = s.
Proof. unfold ext. simpl. rewrite !app_nil_r. by destruct s as [[] ?]. Qed.

Lemma keeps_nothing c s : good c s -> keeps c (retM tt) s.
Proof. intros Hg. exists [], [], (i_glob s). by rewrite ext_nil. Qed.

Lemma keeps_message c s fmt l : good c s -> keeps c (umsg fmt l) s.
Proof.
  intros [? ? ? ? ? ?]. eexists [], [], _. split.
  - unfold ext. simpl. rewrite !app_nil_r. by destruct s as [[] ?].
  - constructor; unfold extends, nt in *; simpl; by rewrite ?app_nil_r.
Qed.

Lemma keeps_seq c m1 m2 s :
  keeps c m1 s -> (forall code t g, good c (ext s code t g) -> keeps c m2 (ext s code t g)) -> keeps c (m1 ;;; m2) s.
Proof.
  intros (c1 & t1 & g1 & Heq1 & Hg1) H2. destruct (H2 _ _ _ Hg1) as (c2 & t2 & g2 & Heq2 & Hg2).
  exists (c1 ++ c2), (t1 ++ t2), g2. rewrite (bind_ok _ _ _ _ _ Heq1), Heq2. by rewrite ext_ext in *.
Qed.

(** Steps that do not change the block. *)
Lemma keeps_same c m1 m2 s : m1 s = m2 s -> keeps c m1 s -> keeps c m2 s.
Proof. intros Hm. unfold keeps. by rewrite Hm. Qed.

Lemma keeps_make c s e ty k :
  good c s -> rhs_ok c s e ty ->
  (forall s', s' = ext s [Ist_WrTmp (nt s) e] [ty] (i_glob s) -> good c s' -> usable c s' (Iex_RdTmp (nt s)) ty ->
     keeps c (k (Iex_RdTmp (nt s))) s') ->
  keeps c (x <- make_expr ty e ;; k x) s.
Proof.
  intros Hg Hr Hk. pose proof Hr as (_ & Ht & _). pose proof Hg as [He _ _ _ _ _].
  destruct (Hk _ eq_refl (good_make _ _ _ _ _ Hg Hr) (usable_new _ _ _ _ _ He)) as (c2 & t2 & g2 & Heq & Hg2).
  exists (Ist_WrTmp (nt s) e :: c2), (ty :: t2), g2. rewrite (bind_ok _ _ _ _ _ (make_expr_run _ _ _ Ht)), Heq.
  by rewrite ext_ext in *.
Qed.

Lemma keeps_call c s a n g v :
  good c s -> usable c s a Ity_I64 -> usable c s v Ity_I64 -> guard_usable c s g -> keeps c (add_store_call a n g v) s.
Proof.
  intros Hg Ha Hv Hgd. exists [store_stmt a n g v], [], (i_glob s). split; [apply store_call_run|].
  assert (Forall (fun e => usable c s e Ity_I64) [a; mkIRExpr_HWord n; v]) as Hl by (by repeat apply Forall_cons_2).
  destruct g as [gd|].
  - by apply (good_call c s 3 "trace_pmem_store" trace_pmem_store_h).
  - by apply (good_call c s 3 "trace_pmem_store" trace_pmem_store_h _ (Iex_Const (Ico_U1 1))).
Qed.

(** A helper that is always called. *)
Lemma keeps_helper c s name h l :
  good c s -> null_helper h = false -> Z.of_nat (length l) <= 3 -> Forall (fun a => usable c s a Ity_I64) l ->
  keeps c (addStmtToIRSB (Ist_Dirty (unsafeIRDirty_0_N (Z.of_nat (length l)) name h l))) s.
Proof.
  intros Hg Hh Hn Hl. eexists _, _, _. split; [apply add_stmt_run|].
  by apply (good_call c s _ name h l (Iex_Const (Ico_U1 1))); try lia.
Qed.

Lemma keeps_temp_call c s a n g e :
  good c s -> usable c s a Ity_I64 -> rhs_ok c s e Ity_I64 -> guard_usable c s g ->
  keeps c (d <- make_expr Ity_I64 e ;; add_store_call a n g d) s.
Proof.
  intros Hg Ha He Hgd. apply keeps_make; [done..|]. intros s' -> Hg' Hnew.
  apply keeps_call; [done|by apply usable_ext|done|by apply guard_usable_ext].
Qed.

Lemma keeps_parts c a data ty n g parts : forall s,
  good c s -> usable c s a Ity_I64 -> usable c s data ty -> guard_usable c s g -> ty <> Ity_INVALID ->
  Forall (fun p => argsOfPrimop p.1 = (ty, Ity_INVALID, Ity_INVALID, Ity_INVALID) /\ typeOfPrimop p.1 = Ity_I64) parts ->
  keeps c (for_parts parts (fun op off =>
    a_i <- make_expr Ity_I64 (Iex_Binop Iop_Add64 a (Iex_Const (Ico_U64 off))) ;;
    d_i <- make_expr Ity_I64 (Iex_Unop op data) ;; add_store_call a_i n g d_i)) s.
Proof.
  induction parts as [|[op off] parts IH]; intros s Hg Ha Hd Hgd Hty Hp; [by apply keeps_nothing|].
  inversion Hp as [|? ? [Hop Hres] Hp']; subst. cbn [for_parts]. apply keeps_seq.
  - apply keeps_make; [done|by apply (rhs_binop c s Iop_Add64 a _ Ity_I64)|]. intros s' -> Hg' Hnew.
    apply keeps_temp_call; [done..| |by apply guard_usable_ext]. rewrite <-Hres.
    by eapply rhs_unop; [apply usable_ext|..].
  - intros code t gl Hg'. apply IH; try done; [by apply usable_ext..|by apply guard_usable_ext].
Qed.

Lemma keeps_wide c s a data ty n g :
  good c s -> usable c s a Ity_I64 -> usable c s data ty -> guard_usable c s g -> ty = Ity_V128 \/ ty = Ity_V256 ->
  keeps c (handle_wide_expr Iend_LE a data g n) s.
Proof.
  intros Hg Ha Hd Hgd Hty. pose proof Ha as (_ & Hta & _). pose proof Hd as (_ & Htd & _).
  eapply keeps_same; [|apply (keeps_parts c a data ty (n / Z.of_nat (length (wide_parts ty Iend_LE))) g (wide_parts ty Iend_LE) s)];
    try done; [|by destruct Hty as [-> | ->]|by destruct Hty as [-> | ->]; repeat constructor].
  unfold handle_wide_expr, typeOf.
  rewrite (bind_ok _ _ s ty s) by (step; by rewrite Htd).
  rewrite (bind_ok _ _ s Ity_I64 s) by (step; by rewrite Hta). by step.
Qed.

Lemma keeps_narrow c s a n g v ty :
  good c s -> usable c s a Ity_I64 -> usable c s v ty -> guard_usable c s g -> tmp_needs_widen ty = true ->
  keeps c (op <- widen_operation v ;; d <- make_expr Ity_I64 (Iex_Unop op v) ;; add_store_call a n g d) s.
Proof.
  intros Hg Ha Hv Hgd Hw. pose proof Hv as (_ & Ht & _).
  assert (exists op, widen_operation v s = Ok op s /\ typeOfPrimop op = Ity_I64 /\
    argsOfPrimop op = (ty, Ity_INVALID, Ity_INVALID, Ity_INVALID)) as (op & Heq & Hop & Hargs).
  { unfold widen_operation, typeOf. rewrite (bind_ok _ _ s ty s) by (step; by rewrite Ht).
    destruct ty; try done; eexists; (split; [reflexivity|done]). }
  eapply keeps_same; [symmetry; apply (bind_ok _ _ _ _ _ Heq)|].
  apply keeps_temp_call; try done. rewrite <-Hop. eapply rhs_unop; [done| |done]. by destruct ty.
Qed.

Lemma keeps_event c s a n g v ty :
  good c s -> usable c s a Ity_I64 -> usable c s v ty -> guard_usable c s g -> sizeofIRType ty = Some n ->
  keeps c (add_event_dw_guarded a n g v) s.
Proof.
  intros Hg Ha Hv Hgd Hn. pose proof (size_bounds _ _ Hn) as Hb. pose proof Hv as (Hva & Ht & _). pose proof Ha as (Haa & _).
  assert (forall k : IRType -> IM unit, (assertM (isIRAtom a) ;;; assertM (isIRAtom v) ;;;
    assertM ((1 <=? n) && (n <=? MAX_DSIZE)) ;;; ty <- typeOf v ;; k ty) s = k ty s) as Hpre.
  { intros k. rewrite Haa, Hva, (proj2 (Z.leb_le _ _)), (proj2 (Z.leb_le _ _)) by (unfold MAX_DSIZE; lia).
    do 3 step. by rewrite (bind_ok _ _ s ty s) by (unfold typeOf; step; by rewrite Ht). }
  unfold add_event_dw_guarded. eapply keeps_same; [symmetry; apply Hpre|]. clear Hpre.
  pose proof (keeps_wide c s a v ty n g Hg Ha Hv Hgd) as Hwide.
  pose proof (keeps_narrow c s a n g v ty Hg Ha Hv Hgd) as Hnarrow.
  destruct v as [| | | |t| | | | | |con| | | |]; try done.
  - destruct ty; simplify_eq/=; try (apply Hwide; by auto); try (by apply Hnarrow); try (by apply keeps_call);
      try (by apply keeps_message).
    apply keeps_temp_call; try done. by apply (rhs_unop c s Iop_ReinterpF64asI64 _ Ity_F64).
  - destruct con; simplify_eq/=; try (apply Hwide; by auto); try (by apply keeps_message);
      by apply (keeps_call c s a _ g (mkIRExpr_HWord _)).
Qed.
End Sane.
