(* ===== verification/InstrSaneRun.v ===== *)
(** The statements of a block that passes the sanity check, and the block: each of them is
    instrumented without a failed assertion, and the invariant of InstrSane.v is kept. *)
From S2P Require Import Prelude OSet Region Core Trans Pmem IR Instr InstrSpec InstrRun IRSane IRSaneSpec InstrSane.
Local Open Scope Z_scope.
Local Open Scope pm_scope.

(** No double compare-and-swap. *)
Definition single_cas (st : IRStmt) : bool :=
  match st with Ist_CAS cas => match dataHi cas with None => true | Some _ => false end | _ => true end.

(** Name the type of an expression, and that it has it. *)
Ltac named e ty H :=
  match goal with H' : typeOfIRExpr _ e = Some ?t |- _ => rename t into ty; rename H' into H end.

Section Statements.
Context `{PrimopTypes} `{PrimopArgs} (env : list IRType) (Hvalid : Ity_INVALID ∉ env).
Context (P : IRStmt -> bool) `{!ToolLike P}.

Local Abbreviation n0 := (Z.of_nat (length env)).

(** An atom is well-typed unless it is a bit. *)
Lemma atom_tc (tys : list IRType) e ty :
  isIRAtom e = true -> typeOfIRExpr tys e = Some ty -> ty <> Ity_I1 -> tcExpr tys Ity_I64 e = true.
Proof. destruct e; try done. simpl. intros _ ? Ht. simplify_eq. by destruct con. Qed.

(** An atom that is no bit has a size. *)
Lemma atom_sized e ty :
  isIRAtom e = true -> typeOfIRExpr env e = Some ty -> ty <> Ity_I1 -> exists n, sizeofIRType ty = Some n.
Proof.
  intros Ha Ht Hb. assert (ty <> Ity_INVALID) as Hi.
  { intros ->. destruct e; try done; simpl in Ht.
    - unfold typeOfIRTemp in Ht. destruct (tmp <? 0); [done|]. by apply list_elem_of_lookup_2 in Ht.
    - by destruct con. }
  destruct ty; try done; by eexists.
Qed.

(** An operand of a statement that has been executed. *)
Lemma usable_client c c1 s st e ty :
  extends env s -> assignedOnce_Stmt n0 st c = Some c1 ->
  isIRAtom e = true -> typeOfIRExpr env e = Some ty -> tcExpr env Ity_I64 e = true ->
  useBeforeDef_Expr n0 c e = true -> usable env c1 s e ty.
Proof.
  intros He Ha Hat Ht Hc Hu. pose proof (extends_nt _ _ He) as Hn. split_and!; [done|..].
  - by eapply expr_refines.
  - by eapply tc_atom.
  - eapply use_atom; [|done|exact Hu]. destruct (merged_covers env (nt s) c1 Hn) as [? Hm]. split; [done|].
    intros t Hlt. pose proof (assigned_le _ _ _ _ Ha t). specialize (Hm t Hlt). lia.
Qed.

(** The statement is copied, and followed by what [m] adds. *)
Lemma keeps_after c c1 o st s m :
  good env P c s -> passes env P c st c1 -> let s1 := ext s [st] [] (i_glob s) in
  instrument_stmt o env st s = m s1 -> (good env P c1 s1 -> keeps env P c1 m s1) ->
  keeps env P c1 (instrument_stmt o env st) s.
Proof.
  intros Hg Hp s1 Heq Hm. destruct (Hm (good_client _ _ _ _ _ _ _ Hg Hp)) as (c2 & t2 & g2 & Heq2 & Hg2).
  exists (st :: c2), t2, g2. rewrite Heq, Heq2. unfold s1 in *. by rewrite ext_ext in *.
Qed.

Lemma keeps_copied c c1 o st s :
  good env P c s -> passes env P c st c1 -> instrument_stmt o env st s = addStmtToIRSB st s ->
  keeps env P c1 (instrument_stmt o env st) s.
Proof.
  intros Hg Hp Heq. apply (keeps_after c c1 o st s (retM tt)); [done..| |apply keeps_nothing].
  by rewrite Heq, add_stmt_run.
Qed.

(** A store of an atom that is no bit. *)
Lemma keeps_stored c c1 o st s a data g ty :
  good env P c s -> passes env P c st c1 ->
  isIRAtom a = true -> typeOfIRExpr env a = Some Ity_I64 -> useBeforeDef_Expr n0 c a = true ->
  isIRAtom data = true -> typeOfIRExpr env data = Some ty -> ty <> Ity_I1 -> useBeforeDef_Expr n0 c data = true ->
  (forall s1, good env P c1 s1 -> guard_usable env c1 s1 g) ->
  (forall n, sizeofIRType ty = Some n ->
     instrument_stmt o env st s = add_event_dw_guarded a n g data (ext s [st] [] (i_glob s))) ->
  keeps env P c1 (instrument_stmt o env st) s.
Proof.
  intros Hg Hp Ha Hta Hua Hd Htd Hb Hud Hgd Heq. pose proof Hp as (_ & _ & _ & _ & Has).
  destruct (atom_sized data ty Hd Htd Hb) as [n Hn].
  eapply keeps_after; [done..|by apply Heq|]. intros Hg1. pose proof Hg1 as [He _ _ _ _ _].
  apply (keeps_event env P c1 _ a n g data ty); try done; [..|by apply Hgd].
  - eapply usable_client; try done. by apply (atom_tc env a Ity_I64).
  - eapply usable_client; try done. by apply (atom_tc env data ty).
Qed.

Lemma keeps_flush c c1 o s a fk :
  good env P c s -> passes env P c (Ist_Flush a fk) c1 -> keeps env P c1 (instrument_stmt o env (Ist_Flush a fk)) s.
Proof.
  intros Hg Hp. pose proof Hp as (_ & Hf & Ht & Hu & Ha). simpl in Hf, Ht, Hu. bools.
  match goal with H : has_type _ _ = true |- _ => apply has_type_iff in H as Hta end.
  eapply (keeps_after _ _ _ _ _ (whenM (automatic_isa_rec o) _)); [done..| |].
  - cbn [instrument_stmt]. rewrite (bind_ok _ _ _ _ _ (add_stmt_run _ _)), Hta. reflexivity.
  - intros Hg1. destruct (automatic_isa_rec o); [|by apply keeps_nothing]. cbn [whenM].
    eapply keeps_same; [symmetry; by do 2 step|]. apply keeps_seq.
    + unfold add_flush_event, assertM. rewrite Hf. eapply keeps_same; [symmetry; by step|].
      apply (keeps_helper env P c1 _ "trace_pmem_flush" trace_pmem_flush_h [a]); try done.
      constructor; [|done]. pose proof Hg1 as [He _ _ _ _ _]. by eapply usable_client.
    + intros code t g Hg'. destruct fk; try by apply keeps_nothing. destruct (weak_clflush o); [by apply keeps_nothing|].
      by apply (keeps_helper env P c1 _ "do_fence" do_fence_h []).
Qed.

Lemma keeps_fence c c1 o s ev :
  good env P c s -> passes env P c (Ist_MBE ev) c1 -> keeps env P c1 (instrument_stmt o env (Ist_MBE ev)) s.
Proof.
  intros Hg Hp. eapply keeps_after; [done..| |].
  - cbn [instrument_stmt]. rewrite (bind_ok _ _ _ _ _ (add_stmt_run _ _)). reflexivity.
  - intros Hg1. destruct (automatic_isa_rec o); cbn [whenM]; [|by apply keeps_nothing].
    destruct ev; try (by apply keeps_nothing); by apply (keeps_helper env P c1 _ "do_fence" do_fence_h []).
Qed.

(** After a compare-and-swap the old value can be read. *)
Lemma usable_old c c1 s cas ty :
  good env P c s -> passes env P c (Ist_CAS cas) c1 -> typeOfIRTemp env (oldLo cas) = Some ty ->
  usable env c1 (ext s [Ist_CAS cas] [] (i_glob s)) (Iex_RdTmp (oldLo cas)) ty.
Proof.
  intros Hg Hp Ht. pose proof Hg as [_ Hpos _ _ _ _]. pose proof Hp as (_ & _ & _ & _ & Ha).
  pose proof (good_client _ _ _ _ _ _ (i_glob s) Hg Hp) as [He _ _ _ _ _]. pose proof (extends_nt _ _ He) as Hn.
  simpl in Ha. apply bind_Some in Ha as (c2 & H2 & H1).
  assert (forall u, 0 <= c2 u) as Hpos2.
  { intros u. specialize (Hpos u). destruct (oldHi cas =? IRTemp_INVALID); [by simplify_eq|].
    pose proof (assigned_temp_le _ _ _ _ H2 u). lia. }
  apply assigned_temp in H1 as (Hr & _ & Hc1). split_and!; try done.
  - by eapply (expr_refines env _ He (Iex_RdTmp (oldLo cas))).
  - simpl. unfold useBeforeDef_Temp, merged. rewrite (proj2 (Z.ltb_lt _ n0)), Hc1, Z.eqb_refl by lia.
    specialize (Hpos2 (oldLo cas)). lia.
Qed.

(** What the check says of a compare-and-swap. *)
Lemma cas_facts cas :
  isFlatIRStmt (Ist_CAS cas) = true -> tcStmt env Ity_I64 (Ist_CAS cas) = true ->
  isIRAtom (cas_addr cas) = true /\ isIRAtom (expdLo cas) = true /\ isIRAtom (dataLo cas) = true /\
  typeOfIRExpr env (cas_addr cas) = Some Ity_I64 /\
  exists ty ops, typeOfIRExpr env (expdLo cas) = Some ty /\ typeOfIRExpr env (dataLo cas) = Some ty /\
    typeOfIRTemp env (oldLo cas) = Some ty /\ cas_ops ty = Some ops /\ typeOfPrimop ops.1.1 = Ity_I1 /\
    argsOfPrimop ops.1.1 = (ty, ty, Ity_INVALID, Ity_INVALID) /\ ty <> Ity_INVALID /\ ty <> Ity_I1.
Proof.
  simpl. unfold tc_cas. intros Hf Ht. bools.
  types. simplify_eq. split_and!; try done.
  named (expdLo cas) ty He. exists ty.
  match goal with H : (match typeOfIRExpr _ _ with _ => _ end) = true |- _ => rewrite He in H end.
  destruct ty; try done; eexists; by split_and!.
Qed.

Lemma keeps_cas c c1 o s cas :
  good env P c s -> passes env P c (Ist_CAS cas) c1 -> dataHi cas = None ->
  keeps env P c1 (instrument_stmt o env (Ist_CAS cas)) s.
Proof.
  intros Hg Hp Hhi. pose proof Hp as (_ & Hf & Ht & Hu & Ha).
  destruct (cas_facts cas Hf Ht) as (Haa & Hea & Hda & Hta & ty & ops & Hte & Htd & Hto & Hops & Hres & Hargs & Hi & Hb).
  simpl in Hu. bools. destruct (atom_sized (dataLo cas) ty) as [n Hn]; [done..|].
  eapply keeps_after; [done..| |].
  - cbn [instrument_stmt]. unfold instrument_cas. rewrite Htd. step. rewrite Hn. step.
    rewrite (bind_ok _ _ _ _ _ (add_stmt_run _ _)), Hte. step. rewrite Hops. step. rewrite Hhi. reflexivity.
  - intros Hg1. pose proof Hg1 as [He _ _ _ _ _]. apply (keeps_make env P); [done| |].
    + rewrite <-Hres. apply (rhs_binop env c1 _ _ _ _ ty); try done; [|by eapply usable_old].
      eapply usable_client; try done. by eapply atom_tc.
    + intros s' -> Hg' Hnew. pose proof Hg' as [He' _ _ _ _ _].
      apply (keeps_event env P c1 _ _ n _ _ ty); try done; (eapply usable_client; try done; by eapply atom_tc).
Qed.

Lemma keeps_stmt c c1 o s st :
  good env P c s -> passes env P c st c1 -> single_cas st = true -> keeps env P c1 (instrument_stmt o env st) s.
Proof.
  intros Hg Hp Hs. pose proof Hp as (_ & Hf & Ht & Hu & Ha).
  destruct st as [| | | | | |e a data| |sg|cas|e r a [data|]| |ev| |a fk];
    try (by eapply keeps_copied); try (by eapply keeps_flush); try (by eapply keeps_fence).
  - simpl in Ha. simplify_eq. by apply keeps_nothing.
  - simpl in Hf, Ht, Hu. types. named data ty Htd.
    apply (keeps_stored c c1 o _ s a data None ty); try done. intros n Hn.
    cbn [instrument_stmt]. rewrite (bind_ok _ _ _ _ _ (add_stmt_run _ _)).
    by rewrite (bind_ok _ _ _ _ _ (store_size_run _ _ _ _ _ Htd Hn)).
  - simpl in Hf, Ht, Hu. types. named (sg_data sg) ty Htd.
    apply (keeps_stored c c1 o _ s (sg_addr sg) (sg_data sg) (Some (sg_guard sg)) ty); try done.
    + intros s1 [He _ _ _ _ _]. by eapply usable_client.
    + intros n Hn. cbn [instrument_stmt]. rewrite (bind_ok _ _ _ _ _ (add_stmt_run _ _)).
      by rewrite (bind_ok _ _ _ _ _ (store_size_run _ _ _ _ _ Htd Hn)).
  - apply (keeps_cas c); try done. simpl in Hs. by destruct (dataHi cas).
  - simpl in Hf, Ht, Hu. types. named data ty Htd.
    apply (keeps_stored c c1 o _ s a data None ty); try done. intros n Hn.
    cbn [instrument_stmt]. rewrite (bind_ok _ _ _ _ _ (add_stmt_run _ _)), Htd. step. rewrite Hn. by step.
Qed.

(** ** Blocks *)

(** The original statements: flat, well-typed, each with its definitions and uses in order. *)
Lemma keeps_stmts c c1 o l : forall s,
  good env P c s -> forallb (entry isFlatIRStmt) l = true -> forallb (entry (tcStmt env Ity_I64)) l = true ->
  forallb (entry single_cas) l = true -> forallb (entry P) l = true -> count_defs n0 l c = Some c1 ->
  keeps env P c1 (instrument_stmts o env l) s.
Proof.
  revert c. induction l as [|[st|] l IH]; intros c s Hg Hf Ht Hs HP Hd; try done; simpl in *.
  { simplify_eq. by apply keeps_nothing. }
  bools. destruct (useBeforeDef_Stmt n0 c st) eqn:Hu; [|done]. apply bind_Some in Hd as (c2 & Hst & Hd).
  destruct (keeps_stmt c c2 o s st) as (cd & t & g & Heq & Hg2); [done|by split_and!|done|].
  destruct (IH c2 (ext s cd t g)) as (cd' & t' & g' & Heq' & Hg'); [done..|].
  exists (cd ++ cd'), (t ++ t'), g'. rewrite (bind_ok _ _ _ _ _ Heq), Heq'. by rewrite ext_ext in *.
Qed.

Lemma keeps_counted c c1 o l s :
  good env P c s -> forallb (entry isFlatIRStmt) l = true -> forallb (entry (tcStmt env Ity_I64)) l = true ->
  forallb (entry single_cas) l = true -> forallb (entry P) l = true -> count_defs n0 l c = Some c1 -> keeps env P c1 (counted o env l) s.
Proof.
  intros Hg Hf Ht Hs HP Hd.
  destruct (keeps_helper env P c s "add_one_SB_entered" add_one_SB_entered_h []) as (cd & t & g & Heq & Hg2); [done..|].
  destruct (keeps_stmts c c1 o l (ext s cd t g)) as (cd' & t' & g' & Heq' & Hg'); [done..|].
  exists (cd ++ cd'), (t ++ t'), g'. unfold counted, add_simple_event.
  rewrite (bind_ok _ _ _ _ _ Heq), Heq'. by rewrite ext_ext in *.
Qed.

Lemma keeps_block c c1 o l : forall s,
  good env P c s -> forallb (entry isFlatIRStmt) l = true -> forallb (entry (tcStmt env Ity_I64)) l = true ->
  forallb (entry single_cas) l = true -> forallb (entry P) l = true -> count_defs n0 l c = Some c1 ->
  keeps env P c1 (rest <- copy_preamble l ;; counted o env rest) s.
Proof.
  revert c. induction l as [|[st|] l IH]; intros c s Hg Hf Ht Hs HP Hd; try done.
  { by apply (keeps_counted c). }
  destruct (imark_dec st) as [(a & n & d & ->)|Hmark].
  { by apply (keeps_counted c). }
  simpl in Hf, Ht, Hs, HP, Hd. bools. destruct (useBeforeDef_Stmt n0 c st) eqn:Hu; [|done].
  apply bind_Some in Hd as (c2 & Hst & Hd).
  destruct (IH c2 (ext s [st] [] (i_glob s))) as (cd & t & g & Heq & Hg2); [|done..|].
  { apply (good_client env P c); [done|]. by split_and!. }
  exists (st :: cd), t, g. rewrite ext_ext in Heq, Hg2. split; [|done].
  assert (copy_preamble (Some st :: l) = (addStmtToIRSB st ;;; copy_preamble l)) as ->
    by (destruct st; try done; by edestruct Hmark).
  unfold bindM at 1. rewrite (bind_ok _ _ _ _ _ (add_stmt_run st s)). unfold bindM in Heq. by rewrite Heq.
Qed.
End Statements.
