(* ===== verification/InstrSaneClaims.v ===== *)
(** What the sanity check is worth and that the instrumentation keeps it: a block that passes is in
    single assignment form, the instrumented block passes again, and every block that passes is
    observed exactly. *)
From S2P Require Import Prelude OSet Region Core Trans Pmem IR Instr InstrSpec InstrRun Sample InstrClaims.
From S2P Require Import IRSane IRSaneSpec IRSsa InstrSane InstrSaneRun.
Local Open Scope Z_scope.
Local Open Scope pm_scope.

(** * Blocks that pass *)

Section Blocks.
Context `{PrimopTypes} `{PrimopArgs}.

(** Not a call of one of the tool's helpers. *)
Definition client_code (st : IRStmt) : bool :=
  match st with
  | Ist_Dirty d => match cee_addr (cee d) with other_helper _ => true | _ => false end
  | _ => true
  end.

Lemma sane_temp (env : list IRType) t ty : typeOfIRTemp env t = Some ty -> 0 <= t < Z.of_nat (length env).
Proof.
  unfold typeOfIRTemp. destruct (Z.ltb_spec t 0); [done|]. intros Hl. apply lookup_lt_Some in Hl. lia.
Qed.

Lemma sane_store env a data ty :
  Ity_INVALID ∉ env -> isIRAtom a = true -> isIRAtom data = true -> typeOfIRExpr env a = Some Ity_I64 ->
  typeOfIRExpr env data = Some ty -> ty <> Ity_I1 -> store_ok env a data.
Proof.
  intros Hv Ha Hd Hta Htd Hb. destruct (atom_sized env Hv data ty Hd Htd Hb) as [n Hn].
  split_and!; try done. by exists ty, n.
Qed.

Lemma sane_stmt_ok env st :
  Ity_INVALID ∉ env -> isFlatIRStmt st = true -> tcStmt env Ity_I64 st = true -> single_cas st = true ->
  client_code st = true -> stmt_ok env st.
Proof.
  intros Hv Hf Ht Hs Hc. pose proof (cas_facts env) as Hcas.
  destruct st as [| | | | | |e a data| |sg|cas|e r a [data|]|d|ev| |a fk]; try done.
  1,2,5: simpl in Hf, Ht; types; by eapply sane_store || (simpl; by eapply sane_temp).
  - simpl in Hf, Ht; types. split; [by eapply sane_store|]. split; [done|by eexists].
  - destruct (Hcas cas Hf Ht) as (Ha & He & Hd & Hta & ty & ops & Hte & Htd & Hto & Hops & _ & _ & _ & Hb).
    simpl in Hs. split_and!; [by destruct (dataHi cas)|by eapply sane_store|split; [done|by eexists]|by eapply sane_temp..|].
    exists ty. by rewrite Hops.
  - simpl in Hc |- *. by destruct (cee_addr (cee d)).
  - simpl in Hf, Ht; types. split; [split; [done|by eexists]|congruence].
Qed.

Lemma whole_entries l : forallb (entry isFlatIRStmt) l = true -> preamble_whole l.
Proof. induction l as [|[st|] l IH]; try done. simpl. intros Hf. bools. destruct st; auto. Qed.

Lemma sane_entries {C} (client : IRStmt -> temps -> C -> temps * C * bool) env l :
  Ity_INVALID ∉ env -> forallb (entry isFlatIRStmt) l = true -> forallb (entry (tcStmt env Ity_I64)) l = true ->
  forallb (entry (fun st => single_cas st && client_code st)) l = true ->
  Forall (fun o => match o with Some st => within client (Z.of_nat (length env)) st | None => True end) l ->
  Forall (stmt_fine client env) l.
Proof.
  intros Hv Hf Ht Hs Hc. induction Hc as [|[st|] l Hw Hc IH]; [constructor| |done].
  simpl in Hf, Ht, Hs. bools. constructor; [|auto]. split; [|done]. by apply sane_stmt_ok.
Qed.

(** The instrumented block passes, and its statements have the properties that those of the original
    block and of the tool have. *)
Lemma instrument_sane P `{!ToolLike P} o bb g :
  sanityCheckIRSB bb true Ity_I64 = true -> Ity_INVALID ∉ tyenv bb ->
  forallb (entry single_cas) (stmts bb) = true -> forallb (entry P) (stmts bb) = true ->
  exists bb' g', pmc_instrument o bb Ity_I64 Ity_I64 g = Ok tt (mkInstr bb' g') /\
    sanityCheckIRSB bb' true Ity_I64 = true /\ forallb (entry P) (stmts bb') = true.
Proof.
  intros Hsane Hvalid Hcas HP.
  apply sane_parts in Hsane as (_ & Hf & Hna & (c & Hd) & Ht & Hn & Ho).
  destruct (keeps_block (tyenv bb) Hvalid P (fun _ => 0) c o (stmts bb) (mkInstr (deepCopyIRSBExceptStmts bb) g))
    as (code & t & g' & Heq & [He _ HP' Hf' Ht' (c' & Hd' & _)]); try done.
  { constructor; try done; [by unfold extends|]. exists (fun _ => 0). split; [done|]. intros t. unfold merged, nt, next_temp.
    simpl. destruct (t <? _); done. }
  eexists _, g'. split; [exact Heq|]. split; [|done]. apply sane_parts. split_and!; try done; [by right|by exists c'|].
  by eapply (expr_refines (tyenv bb)).
Qed.

Lemma entries_impl (f g : IRStmt -> bool) l :
  (forall st, f st = true -> g st = true) -> forallb (entry f) l = true -> forallb (entry g) l = true.
Proof. intros Hfg. induction l as [|[st|] l IH]; simpl; try done. intros. bools; auto. Qed.
End Blocks.

(** * A sample block *)

#[export] Instance sample_primop_args : PrimopArgs :=
  {| argsOfPrimop_rest _ := (Ity_I64, Ity_I64, Ity_INVALID, Ity_INVALID) |}.

(** Stores of several types, a guarded one, a compare-and-swap, an exit, a flush and a fence. *)
Definition sane_block : IRSB :=
  mkIRSB [Ity_I64; Ity_I32; Ity_V128; Ity_I1; Ity_I64]
    [Some Ist_NoOp; Some (Ist_IMark 4096 4 0);
     Some (Ist_WrTmp 0 (Iex_Get 16 Ity_I64)); Some (Ist_WrTmp 1 (Iex_Get 24 Ity_I32));
     Some (Ist_WrTmp 2 (Iex_Get 32 Ity_V128));
     Some (Ist_WrTmp 3 (Iex_Binop Iop_CasCmpEQ32 (Iex_RdTmp 1) (Iex_Const (Ico_U32 7))));
     Some (Ist_Store Iend_LE (Iex_RdTmp 0) (Iex_RdTmp 1));
     Some (Ist_StoreG (mkIRStoreG Iend_LE (Iex_RdTmp 0) (Iex_RdTmp 2) (Iex_RdTmp 3)));
     Some (Ist_CAS (mkIRCAS IRTemp_INVALID 4 Iend_LE (Iex_RdTmp 0) None (Iex_Const (Ico_U64 1)) None (Iex_RdTmp 0)));
     Some (Ist_Exit (Iex_RdTmp 3) 0 (Ico_U64 8192) 184);
     Some (Ist_Flush (Iex_RdTmp 0) Ifk_flush); Some (Ist_MBE Imbe_SFence)]
    (Iex_Const (Ico_U64 8192)) 0 184.

Lemma sane_block_within : Forall (fun o => match o with Some st => within sample_step 5 st | None => True end) (stmts sane_block).
Proof.
  repeat apply Forall_cons_2; try done; intros tm tm' c Ha; simpl; rewrite ?(Ha 0), ?(Ha 1) by done; try done;
    (split_and!; try done); try (intros t Ht; unfold set_temp; case_match; [done|by apply Ha]).
  unfold is_on. simpl. by rewrite (Ha 3).
Qed.

(** A call whose guard reads a temporary that no statement assigns passes the check. *)
Example unassigned_guard_passes :
  sanityCheckIRSB (mkIRSB [Ity_I1]
    [Some (Ist_Dirty (set_guard (Iex_RdTmp 0) (unsafeIRDirty_0_N 0 "helper" (other_helper 1) [])))]
    (Iex_Const (Ico_U64 8192)) 0 184) true Ity_I64 = true.
Proof. vm_compute. reflexivity. Qed.

(** * The claims *)

(** C17: the instrumentation keeps the sanity check: from every flat block of a 64-bit client that
    passes it, has no temporary of the invalid type and no double compare-and-swap, a block is
    built without a failed assertion, and that block passes the check as well: it is flat and
    well-typed, and each of its temporaries is assigned once and before it is read. *)
Theorem instrument_keeps_sanity `{PrimopTypes} `{PrimopArgs} o bb g
    (Hsane : sanityCheckIRSB bb true Ity_I64 = true) (Hvalid : Ity_INVALID ∉ tyenv bb)
    (Hcas : forallb (entry single_cas) (stmts bb) = true) :
  exists bb' g', pmc_instrument o bb Ity_I64 Ity_I64 g = Ok tt (mkInstr bb' g') /\
    sanityCheckIRSB bb' true Ity_I64 = true.
Proof.
  destruct (instrument_sane (fun _ => true) o bb g) as (bb' & g' & Heq & Hs' & _); try done; [|by exists bb', g'].
  apply sane_parts in Hsane as (_ & Hf & _). by eapply entries_impl; [|exact Hf].
Qed.

Lemma instrument_keeps_sanity_witness :
  exists bb' g', pmc_instrument default_options sane_block Ity_I64 Ity_I64 (the_globals (sample_world default_options)) = Ok tt (mkInstr bb' g') /\
    sanityCheckIRSB bb' true Ity_I64 = true.
Proof.
  apply (instrument_keeps_sanity default_options sane_block);
    [vm_compute; reflexivity|by apply (bool_decide_unpack _)|vm_compute; reflexivity].
Defined.

(** C22: a flat block that passes the sanity check is in single assignment form: no temporary is
    assigned by two statements or twice by one, all assigned temporaries are declared, and every
    temporary a statement has as an operand has been assigned by an earlier one, with one exception: the
    guard of a helper call, which the check does not look at, is not among the [operands] (see
    [unassigned_guard_passes]). *)
Theorem sane_single_assignment `{PrimopTypes} `{PrimopArgs} bb gw
    (Hsane : sanityCheckIRSB bb true gw = true) :
  NoDup (all_assigned (stmts bb)) /\
  Forall (fun t => 0 <= t < Z.of_nat (length (tyenv bb))) (all_assigned (stmts bb)) /\
  forall l1 st l2 t, stmts bb = l1 ++ Some st :: l2 -> Iex_RdTmp t ∈ operands st -> t ∈ all_assigned l1.
Proof.
  apply sane_parts in Hsane as (_ & _ & _ & (c & Hd) & _).
  by apply (block_recorded _ _ _ _ [] Hd); [|constructor].
Qed.

Lemma sane_single_assignment_witness :
  NoDup (all_assigned (stmts sane_block)) /\
  Forall (fun t => 0 <= t < 5) (all_assigned (stmts sane_block)) /\
  forall l1 st l2 t, stmts sane_block = l1 ++ Some st :: l2 -> Iex_RdTmp t ∈ operands st -> t ∈ all_assigned l1.
Proof. apply (sane_single_assignment sane_block Ity_I64). vm_compute. reflexivity. Defined.

(** C16: every flat block of the client that passes the sanity check, without temporaries of the
    invalid type and without double compare-and-swaps, is observed exactly: its instrumentation
    succeeds, and running the result does to the client what the original does and makes exactly the
    helper calls an observer of the original expects. *)
Theorem sane_block_observed `{PrimopTypes} `{PrimopArgs} {C} (client : IRStmt -> temps -> C -> temps * C * bool)
    o bb g
    (Hsane : sanityCheckIRSB bb true Ity_I64 = true) (Hvalid : Ity_INVALID ∉ tyenv bb)
    (Hcode : forallb (entry (fun st => single_cas st && client_code st)) (stmts bb) = true)
    (Hclient : Forall (fun o => match o with Some st => within client (Z.of_nat (length (tyenv bb))) st | None => True end) (stmts bb)) :
  exists bb' g', pmc_instrument o bb Ity_I64 Ity_I64 g = Ok tt (mkInstr bb' g') /\
    forall tm c, let n := Z.of_nat (length (tyenv bb)) in let r := exec client n (stmts bb') tm c in
      same_client n r (exec client n (stmts bb) tm c) /\
      out_calls r = out_calls (observed_block client o (tyenv bb) (stmts bb) tm c).
Proof.
  apply sane_parts in Hsane as (_ & Hf & _ & _ & Ht & _).
  assert (block_ok client bb) as Hok.
  { split; [by apply whole_entries|]. by apply sane_entries. }
  destruct (pmc_instrument_run client o bb g Hok) as (code & tys & g' & Heq & Hr).
  eexists _, g'. split; [exact Heq|]. intros tm c n r. destruct (Hr tm tm c ltac:(done)) as (A & B & D & E).
  destruct (observed_block_client client o (tyenv bb) (stmts bb) tm c (proj2 Hok)) as (A' & B' & E').
  split; [|done]. split_and!; [|by etransitivity..]. intros t Hlt. etransitivity; [by apply A|by apply A'].
Qed.

Lemma sane_block_observed_witness :
  exists bb' g', pmc_instrument default_options sane_block Ity_I64 Ity_I64 (the_globals (sample_world default_options)) = Ok tt (mkInstr bb' g') /\
    forall tm c, let r := exec sample_step 5 (stmts bb') tm c in
      same_client 5 r (exec sample_step 5 (stmts sane_block) tm c) /\
      out_calls r = out_calls (observed_block sample_step default_options (tyenv sane_block) (stmts sane_block) tm c).
Proof.
  apply (sane_block_observed sample_step default_options sane_block);
    [vm_compute; reflexivity|by apply (bool_decide_unpack _)|vm_compute; reflexivity|exact sane_block_within].
Defined.
