(* ===== verification/IRDead.v ===== *)
(** The removal of dead code (VEX/priv/ir_opt.c, addUses_Temp to do_deadcode_BB), the first pass the
    translation runs on a block that has been instrumented.

    The array of booleans is the set of the temporaries whose entry is true; a temporary outside of
    the array is a memory error, which is [None], as are the panics and the null pointers. *)
From stdpp Require Import gmap.
From S2P Require Import Prelude IR IRSane.
Local Open Scope Z_scope.

Abbreviation temp_set := (gset Z).

(** The array has [n] entries. *)
Definition in_array (n tmp : Z) : bool := (0 <=? tmp) && (tmp <? n).

Definition addUses_Temp (n : Z) (tmp : Z) (set : temp_set) : option temp_set :=
  if in_array n tmp then Some ({[tmp]} ∪ set) else None.

Fixpoint addUses_Expr (n : Z) (e : IRExpr) (set : temp_set) : option temp_set :=
  match e with
  | Iex_GetI _ ix _ => addUses_Expr n ix set
  | Iex_ITE c t f => (addUses_Expr n c set ≫= addUses_Expr n t) ≫= addUses_Expr n f
  | Iex_CCall _ _ args => foldl (fun set a => set ≫= addUses_Expr n a) (Some set) args
  | Iex_Load _ _ a => addUses_Expr n a set
  | Iex_Qop _ a1 a2 a3 a4 =>
      ((addUses_Expr n a1 set ≫= addUses_Expr n a2) ≫= addUses_Expr n a3) ≫= addUses_Expr n a4
  | Iex_Triop _ a1 a2 a3 => (addUses_Expr n a1 set ≫= addUses_Expr n a2) ≫= addUses_Expr n a3
  | Iex_Binop _ a1 a2 => addUses_Expr n a1 set ≫= addUses_Expr n a2
  | Iex_Unop _ a => addUses_Expr n a set
  | Iex_RdTmp tmp => addUses_Temp n tmp set
  | Iex_Const _ | Iex_Get _ _ => Some set
  | Iex_Binder _ | Iex_VECRET | Iex_GSPTR | Iex_NULL => None
  end.

(** An expression that may be missing. *)
Definition addUses_there (n : Z) (o : option IRExpr) (set : temp_set) : option temp_set :=
  match o with Some e => addUses_Expr n e set | None => Some set end.

Definition addUses_Stmt (n : Z) (st : IRStmt) (set : temp_set) : option temp_set :=
  match st with
  | Ist_AbiHint base _ nia => addUses_Expr n base set ≫= addUses_Expr n nia
  | Ist_PutI _ ix _ data => addUses_Expr n ix set ≫= addUses_Expr n data
  | Ist_WrTmp _ data => addUses_Expr n data set
  | Ist_Put _ data => addUses_Expr n data set
  | Ist_Store _ a data => addUses_Expr n a set ≫= addUses_Expr n data
  | Ist_StoreG sg =>
      (addUses_Expr n (sg_addr sg) set ≫= addUses_Expr n (sg_data sg)) ≫= addUses_Expr n (sg_guard sg)
  | Ist_LoadG _ _ _ a alt g => (addUses_Expr n a set ≫= addUses_Expr n alt) ≫= addUses_Expr n g
  | Ist_CAS cas =>
      (((addUses_Expr n (cas_addr cas) set ≫= addUses_there n (expdHi cas)) ≫= addUses_Expr n (expdLo cas))
        ≫= addUses_there n (dataHi cas)) ≫= addUses_Expr n (dataLo cas)
  | Ist_LLSC _ _ a storedata => addUses_Expr n a set ≫= addUses_there n storedata
  | Ist_Dirty d =>
      foldl (fun set a => if is_IRExpr_VECRET_or_GSPTR a then set else set ≫= addUses_Expr n a)
        ((match mFx d, mAddr d with
          | Ifx_None, _ => Some set
          | _, Some a => addUses_Expr n a set
          | _, None => None
          end) ≫= addUses_Expr n (guard d)) (args d)
  | Ist_NoOp | Ist_IMark _ _ _ | Ist_MBE _ => Some set
  | Ist_Exit g _ _ _ => addUses_Expr n g set
  | Ist_Flush a _ => addUses_Expr n a set
  end.

Definition isZeroU1 (e : IRExpr) : bool := match e with Iex_Const (Ico_U1 v) => v =? 0 | _ => false end.

Definition isOneU1 (e : IRExpr) : bool := match e with Iex_Const (Ico_U1 v) => v =? 1 | _ => false end.

(** An exit that is always taken. *)
Definition is_always_taken (st : IRStmt) : bool :=
  match st with Ist_Exit g _ _ _ => isOneU1 g | _ => false end.

(** The body of the first pass for a statement that is no no-op: what it becomes, and the temporaries
    that are used from there on. *)
Definition deadcode_stmt (n : Z) (st : IRStmt) (set : temp_set) : option (IRStmt * temp_set) :=
  let keep := addUses_Stmt n st set ≫= fun set => Some (st, set) in
  match st with
  | Ist_WrTmp tmp _ =>
      if negb (in_array n tmp) then None
      else if bool_decide (tmp ∈ set) then keep
      else Some (Ist_NoOp, set)
  | Ist_Dirty d => if isZeroU1 (guard d) then Some (Ist_NoOp, set) else keep
  | _ => keep
  end.

(** The first pass, backwards: the new statements, the temporaries used from the first one on, and the
    place of the first exit that is always taken. *)
Fixpoint deadcode_stmts (n : Z) (l : list (option IRStmt)) (set : temp_set)
    : option (list (option IRStmt) * temp_set * option nat) :=
  match l with
  | [] => Some ([], set, None)
  | None :: _ => None
  | Some st :: l =>
      deadcode_stmts n l set ≫= fun '(l', set, i_unconditional_exit) =>
      let later := S <$> i_unconditional_exit in
      match st with
      | Ist_NoOp => Some (Some st :: l', set, later)
      | _ =>
          deadcode_stmt n st set ≫= fun '(st', set) =>
          Some (Some st' :: l', set, if is_always_taken st then Some O else later)
      end
  end.

(** The second pass turns the exit that is always taken into the end of the block. *)
Definition end_at_exit (bb : IRSB) (i_unconditional_exit : option nat) : option IRSB :=
  match i_unconditional_exit with
  | None => Some bb
  | Some i =>
      match stmts bb !! i with
      | Some (Some (Ist_Exit _ jk dst off)) =>
          Some (mkIRSB (tyenv bb) (take i (stmts bb) ++ replicate (length (stmts bb) - i) (Some Ist_NoOp))
                  (Iex_Const dst) jk off)
      | _ => None
      end
  end.

Definition do_deadcode_BB (bb : IRSB) : option IRSB :=
  let n_tmps := next_temp bb in
  addUses_Expr n_tmps (next bb) ∅ ≫= fun set =>
  deadcode_stmts n_tmps (stmts bb) set ≫= fun '(l, _, i) =>
  end_at_exit (mkIRSB (tyenv bb) l (next bb) (jumpkind bb) (offsIP bb)) i.
