(* ===== verification/IRDeadSpec.v ===== *)
(** What the removal of dead code does to a block that passes the sanity check: it does not fail, the
    statements that are left out assign temporaries nobody reads or are never executed, and the new
    block passes the check, unless a call that is left out was to assign a temporary. *)
From stdpp Require Import gmap.
From S2P Require Import Prelude IR IRSane IRSaneSpec IRSsa IRDead.
Local Open Scope Z_scope.

(** * The temporaries that are used *)

(** All the expressions a statement reads. *)
Definition reads (st : IRStmt) : list IRExpr :=
  operands st ++ match st with Ist_Dirty d => [IR.guard d] | _ => [] end.

Section Uses.
Context (n : Z).

(** The function adds exactly the temporaries among [l] to the set. *)
Definition adds (f : temp_set -> option temp_set) (l : list IRExpr) : Prop :=
  forall set, (forall t, Iex_RdTmp t ∈ l -> in_array n t = true) ->
    exists set', f set = Some set' /\ forall t, t ∈ set' <-> t ∈ set \/ Iex_RdTmp t ∈ l.

Lemma adds_nothing : adds Some [].
Proof. intros set _. exists set. split; [done|]. set_solver. Qed.

Lemma adds_same f l l' : (forall t, Iex_RdTmp t ∈ l <-> Iex_RdTmp t ∈ l') -> adds f l -> adds f l'.
Proof.
  intros Hl Hf set Hin. destruct (Hf set) as (set' & ? & Hs); [intros t Ht; by apply Hin, Hl|].
  exists set'. split; [done|]. intros t. by rewrite Hs, Hl.
Qed.

Lemma adds_seq f g l1 l2 : adds f l1 -> adds g l2 -> adds (fun set => f set ≫= g) (l1 ++ l2).
Proof.
  intros Hf Hg set Hin. destruct (Hf set) as (s1 & -> & H1); [intros t Ht; apply Hin; set_solver|].
  destruct (Hg s1) as (s2 & Heq & H2); [intros t Ht; apply Hin; set_solver|].
  exists s2. split; [exact Heq|]. intros t. rewrite H2, H1. set_solver.
Qed.

Lemma adds_atom e : isIRAtom e = true -> adds (addUses_Expr n e) [e].
Proof.
  destruct e; try done; intros _ set Hin; simpl.
  - unfold addUses_Temp. rewrite Hin by set_solver. eexists. split; [done|]. set_solver.
  - eexists. split; [done|]. set_solver.
Qed.

Lemma adds_there o : if_there isIRAtom o = true -> adds (addUses_there n o) (option_list o).
Proof. destruct o; simpl; [apply adds_atom|intros; apply adds_nothing]. Qed.

(** The arguments of a call, where some may be special. *)
Lemma adds_args f l0 l :
  forallb isIRAtom_or_VECRET_or_GSPTR l = true -> adds f l0 ->
  adds (fun set => foldl (fun set a => if is_IRExpr_VECRET_or_GSPTR a then set else set ≫= addUses_Expr n a) (f set) l)
    (l0 ++ l).
Proof.
  revert f l0. induction l as [|a l IH]; intros f l0 Hl Hf; simpl in *; [by rewrite app_nil_r|]. bools.
  unfold isIRAtom_or_VECRET_or_GSPTR in *. destruct (is_IRExpr_VECRET_or_GSPTR a) eqn:Ha.
  - eapply adds_same; [|by apply IH]. destruct a; set_solver.
  - rewrite orb_false_r in *. rewrite cons_middle, (assoc_L (++)).
    by apply (IH (fun set => f set ≫= addUses_Expr n a)), adds_seq, adds_atom.
Qed.

Lemma adds_pure_args l : forallb isIRAtom l = true ->
  adds (fun set => foldl (fun set a => set ≫= addUses_Expr n a) (Some set) l) l.
Proof.
  intros Hl. eapply (adds_same _ ([] ++ l)); [done|].
  assert (forall f l0, adds f l0 -> adds (fun set => foldl (fun set a => set ≫= addUses_Expr n a) (f set) l) (l0 ++ l)) as Hg;
    [|by apply Hg, adds_nothing].
  revert Hl. induction l as [|a l IH]; intros Hl f l0 Hf; simpl in *; [by rewrite app_nil_r|]. bools.
  rewrite cons_middle, (assoc_L (++)). by apply (IH ltac:(done) (fun set => f set ≫= addUses_Expr n a)), adds_seq, adds_atom.
Qed.

(** Chains of additions; the order of the expressions does not matter. *)
Ltac adds :=
  first [apply adds_nothing | apply adds_atom; done | apply adds_there; done
        | eapply adds_same; [|eapply adds_seq; adds]; set_solver].

Lemma adds_rhs c e : flat_rhs e = true -> useBeforeDef_Expr n c e = true -> adds (addUses_Expr n e) (rhs_operands e).
Proof. destruct e; try done; simpl; intros Hf Hu; bools; try adds. by apply adds_pure_args. Qed.

Lemma adds_stmt c st :
  isFlatIRStmt st = true -> useBeforeDef_Stmt n c st = true -> adds (addUses_Stmt n st) (reads st).
Proof.
  destruct st; simpl; intros Hf Hu; bools; unfold reads; rewrite ?app_nil_r; simpl; try adds; [by eapply adds_rhs|].
  eapply adds_same; [|apply (adds_args _ ((match mFx details with Ifx_None => [] | _ => option_list (mAddr details) end) ++ [guard details])); [done|]].
  - set_solver.
  - apply adds_seq; [|by apply adds_atom]. destruct (mFx details), (mAddr details); try done; adds.
Qed.
End Uses.

(** * The first pass *)

(** A statement whose temporaries are in range and whose uses the pass finds. *)
Definition tidy (n : Z) (o : option IRStmt) : Prop :=
  exists st, o = Some st /\ adds n (addUses_Stmt n st) (reads st) /\
    (forall t, Iex_RdTmp t ∈ reads st -> in_array n t = true) /\ Forall (fun t => in_array n t = true) (assigns st).

(** What may be left out when the temporaries of [set] are used afterwards. *)
Definition droppable (st : IRStmt) (set : temp_set) : Prop :=
  match st with
  | Ist_WrTmp t _ => t ∉ set
  | Ist_Dirty d => isZeroU1 (guard d) = true
  | _ => False
  end.

(** [swept l l' out inn]: the statements [l] become [l'] where [out] is used after them; [inn] is what
    is used from the first one on. *)
Inductive swept : list (option IRStmt) -> list (option IRStmt) -> temp_set -> temp_set -> Prop :=
  | swept_nil set : swept [] [] set set
  | swept_keep st l l' out set inn :
      swept l l' out set -> (forall t, t ∈ inn <-> t ∈ set \/ Iex_RdTmp t ∈ reads st) ->
      swept (Some st :: l) (Some st :: l') out inn
  | swept_drop st l l' out set :
      swept l l' out set -> droppable st set -> swept (Some st :: l) (Some Ist_NoOp :: l') out set.

(** The place of the first exit that is always taken. *)
Fixpoint first_taken (l : list (option IRStmt)) : option nat :=
  match l with
  | [] => None
  | Some st :: l => if is_always_taken st then Some O else S <$> first_taken l
  | None :: l => S <$> first_taken l
  end.

Lemma deadcode_stmt_swept n st set :
  tidy n (Some st) -> exists st' set', deadcode_stmt n st set = Some (st', set') /\
    ((st' = st /\ forall t, t ∈ set' <-> t ∈ set \/ Iex_RdTmp t ∈ reads st) \/
     (st' = Ist_NoOp /\ set' = set /\ droppable st set)).
Proof.
  intros (? & [= <-] & Hadd & Hin & Has). destruct (Hadd set Hin) as (set' & Heq & Hset).
  assert (exists st' set', addUses_Stmt n st set ≫= (fun set => Some (st, set)) = Some (st', set') /\
    ((st' = st /\ forall t, t ∈ set' <-> t ∈ set \/ Iex_RdTmp t ∈ reads st) \/
     (st' = Ist_NoOp /\ set' = set /\ droppable st set))) as Hkeep.
  { exists st, set'. rewrite Heq. auto. }
  unfold deadcode_stmt. destruct st; try exact Hkeep.
  - inversion Has as [|? ? Ht _]; subst. rewrite Ht. simpl. case_bool_decide; [exact Hkeep|].
    eexists _, _. split; [done|]. by right.
  - destruct (isZeroU1 (guard details)) eqn:Hz; [|exact Hkeep]. eexists _, _. split; [done|]. by right.
Qed.

Lemma deadcode_stmts_swept n l set : Forall (tidy n) l ->
  exists l' inn, deadcode_stmts n l set = Some (l', inn, first_taken l) /\ swept l l' set inn.
Proof.
  induction 1 as [|o l Ht Hl (l' & s1 & Heq & Hsw)]; [by eexists _, _; split; [|constructor]|].
  pose proof Ht as (st & -> & _). cbn [deadcode_stmts]. rewrite Heq. simpl.
  destruct (deadcode_stmt_swept n st s1 Ht) as (st' & s2 & Heq' & Hst).
  assert (swept (Some st :: l) (Some st' :: l') set s2) as Hsw'.
  { destruct Hst as [[-> Hs]|(-> & -> & Hd)]; [by eapply swept_keep|by apply swept_drop]. }
  destruct st; try (rewrite Heq'; simpl; by eexists _, _; split).
  eexists _, _. split; [done|]. eapply swept_keep; [done|]. set_solver.
Qed.

(** ** What is kept *)

Lemma swept_forall (f : option IRStmt -> bool) l l' out inn :
  f (Some Ist_NoOp) = true -> swept l l' out inn -> forallb f l = true -> forallb f l' = true.
Proof.
  intros H0. induction 1; simpl; intros; bools; auto; bools; auto.
Qed.

Lemma swept_taken l l' out inn i :
  swept l l' out inn -> first_taken l = Some i ->
  exists g jk dst off, l !! i = Some (Some (Ist_Exit g jk dst off)) /\ isOneU1 g = true /\ l' !! i = l !! i.
Proof.
  intros Hs. revert i. induction Hs as [|st l l' out s inn Hs IH Hin|st l l' out s Hs IH Hd]; intros i Hi; [done|..];
    simpl in Hi; destruct (is_always_taken st) eqn:Ht.
  - simplify_eq. destruct st; try done. by eexists _, _, _, _.
  - apply fmap_Some in Hi as (j & Hj & ->). by apply IH.
  - by destruct st.
  - apply fmap_Some in Hi as (j & Hj & ->). by apply IH.
Qed.

(** * The sanity check *)

(** A call that is never made and has a result. *)
Definition loses_result (st : IRStmt) : bool :=
  match st with
  | Ist_Dirty d => isZeroU1 (guard d) && match d_tmp d with Some _ => true | None => false end
  | _ => false
  end.

(** The counters of the swept code: at most those of the original, and the same for the temporaries
    that are used later. *)
Definition fewer (set : temp_set) (c c' : counts) : Prop :=
  (forall t, c' t <= c t) /\ forall t, t ∈ set -> c' t = c t.

Section Sane.
Context (n : Z).

(** An operand that can be read. *)
Definition readable (c : counts) (a : IRExpr) : Prop :=
  is_IRExpr_VECRET_or_GSPTR a || useBeforeDef_Expr n c a = true.

Lemma readable_atom c a : isIRAtom a = true -> readable c a -> useBeforeDef_Expr n c a = true.
Proof. unfold readable. by destruct a. Qed.

#[local] Hint Resolve readable_atom : sane.

Lemma readable_args c l : forallb isIRAtom l = true -> Forall (readable c) l ->
  forallb (fun a => negb (is_IRExpr_VECRET_or_GSPTR a) && useBeforeDef_Expr n c a) l = true.
Proof.
  induction 2 as [|a l Ha Hl IH]; simpl in *; [done|]. bools; eauto with sane. by destruct a.
Qed.

Lemma readable_there c o : if_there isIRAtom o = true -> Forall (readable c) (option_list o) ->
  if_there (useBeforeDef_Expr n c) o = true.
Proof. destruct o; simpl; [|done]. rewrite Forall_singleton. eauto with sane. Qed.

(** The uses of a flat statement are those of its operands. *)
Lemma use_operands c c' st :
  isFlatIRStmt st = true -> useBeforeDef_Stmt n c st = true -> Forall (readable c') (operands st) ->
  useBeforeDef_Stmt n c' st = true.
Proof.
  destruct st; simpl; intros Hf Hu Hr; bools; rewrite ?Forall_cons, ?Forall_app in Hr; destruct_and?;
    eauto using readable_there with sane.
  - destruct data; try done; simpl in *; bools; rewrite ?Forall_cons in Hr; destruct_and?;
      eauto using readable_args with sane.
  - apply forallb_forall. intros a Ha. apply list_elem_of_In in Ha.
    by match goal with Hr : Forall (readable c') (args _) |- _ => apply (proj1 (Forall_forall _ _) Hr) end.
  - destruct (mFx details), (mAddr details); try done; simpl in *; rewrite ?Forall_cons in *; destruct_and?; eauto with sane.
Qed.

Lemma atoms_all l : forallb isIRAtom l = true -> Forall (fun a => isIRAtom_or_VECRET_or_GSPTR a = true) l.
Proof. intros Hl. apply Forall_forall. intros a Ha. apply orb_true_iff. left. eapply forallb_forall in Hl; [done|by apply list_elem_of_In]. Qed.

Lemma flat_operands st :
  isFlatIRStmt st = true -> Forall (fun a => isIRAtom_or_VECRET_or_GSPTR a = true) (operands st).
Proof.
  destruct st; simpl; intros Hf; bools; try (apply atoms_all; simpl; bools; done).
  - destruct data; try done; apply atoms_all; simpl in *; bools; done.
  - apply atoms_all. destruct (expdHi details), (dataHi details); simpl in *; bools; done.
  - apply atoms_all. destruct storedata; simpl in *; bools; done.
  - apply Forall_app. split.
    + apply Forall_forall. intros a Ha. eapply forallb_forall; [done|by apply list_elem_of_In].
    + apply atoms_all. destruct (mFx details), (mAddr details); simpl in *; bools; done.
Qed.

Lemma fewer_used c c' st (set inn : temp_set) :
  isFlatIRStmt st = true -> (forall t, t ∈ inn <-> t ∈ set \/ Iex_RdTmp t ∈ reads st) -> fewer inn c c' ->
  useBeforeDef_Stmt n c st = true -> useBeforeDef_Stmt n c' st = true.
Proof.
  intros Hf Hin [_ Hc] Hu. apply (use_operands c); [done..|]. apply operands_used in Hu.
  apply flat_operands in Hf. apply Forall_forall. intros a Ha. eapply Forall_forall in Hu, Hf; [|exact Ha..].
  destruct a; try done. unfold readable, useBeforeDef_Temp in *. simpl in *. unfold useBeforeDef_Temp in *.
  rewrite Hc; [done|]. apply Hin. right. unfold reads. set_solver.
Qed.

(** An assignment of the original is one of the swept code. *)
Lemma fewer_temp set c c' c1 t :
  fewer set c c' -> assignedOnce_Temp n t c = Some c1 ->
  exists c1', assignedOnce_Temp n t c' = Some c1' /\ fewer set c1 c1'.
Proof.
  intros [Hle Heq] Ha. apply assigned_temp in Ha as (Ht & Hz & Hc1).
  destruct (assigned_temp_ok n t c') as (c1' & Ha'); [done|specialize (Hle t); lia|].
  exists c1'. split; [done|]. apply assigned_temp in Ha' as (_ & _ & Hc1').
  split; intros u; [|intros Hu; specialize (Heq u Hu)]; specialize (Hle u); rewrite Hc1, Hc1'; case_match; lia.
Qed.

Lemma fewer_assigned set c c' c1 st :
  fewer set c c' -> assignedOnce_Stmt n st c = Some c1 ->
  exists c1', assignedOnce_Stmt n st c' = Some c1' /\ fewer set c1 c1'.
Proof.
  intros Hc Ha. assert (Some c = Some c1 -> exists c1', Some c' = Some c1' /\ fewer set c1 c1') as Hno.
  { intros. simplify_eq. by exists c'. }
  destruct st; simpl in *; try (by eapply fewer_temp); try (by apply Hno).
  - destruct (oldHi details =? IRTemp_INVALID); simpl in *; [by eapply fewer_temp|].
    apply bind_Some in Ha as (c2 & H2 & H1). destruct (fewer_temp _ _ _ _ _ Hc H2) as (c2' & -> & Hc2).
    simpl. by eapply fewer_temp.
  - destruct (d_tmp details); [by eapply fewer_temp|by apply Hno].
Qed.

Lemma fewer_subset (s1 s2 : temp_set) c c' : s1 ⊆ s2 -> fewer s2 c c' -> fewer s1 c c'.
Proof. intros Hs [? Heq]. split; [done|]. intros t Ht. by apply Heq, Hs. Qed.

Lemma droppable_fewer st set c c' c1 :
  droppable st set -> loses_result st = false -> fewer set c c' -> assignedOnce_Stmt n st c = Some c1 -> fewer set c1 c'.
Proof.
  intros Hd Hl [Hle Heq] Ha. destruct st; try done; simpl in *.
  - apply assigned_temp in Ha as (_ & _ & Hc1).
    split; intros u; [|intros Hu]; rewrite Hc1; specialize (Hle u); case_match eqn:Hut; try lia; [|by apply Heq].
    apply Z.eqb_eq in Hut. by subst.
  - rewrite Hd in Hl. simpl in Hl. destruct (d_tmp details); [done|]. by simplify_eq.
Qed.

Lemma swept_counts l l' out inn : swept l l' out inn -> forall c c' c1,
  forallb (entry isFlatIRStmt) l = true -> forallb (entry (fun st => negb (loses_result st))) l = true ->
  fewer inn c c' -> count_defs n l c = Some c1 -> exists c1', count_defs n l' c' = Some c1' /\ fewer out c1 c1'.
Proof.
  induction 1 as [|st l l' out set inn Hs IH Hin|st l l' out set Hs IH Hd]; intros c c' c1 Hf Hl Hc Hd'; simpl in *.
  { simplify_eq. by exists c'. }
  all: bools; destruct (useBeforeDef_Stmt n c st) eqn:Hu; [|done]; apply bind_Some in Hd' as (c2 & Ha & Hd').
  - rewrite (fewer_used c c' st set inn) by done.
    destruct (fewer_assigned set c c' c2 st) as (c2' & -> & Hc2); [|done|by eapply IH].
    eapply fewer_subset; [|done]. intros t Ht. apply Hin. by left.
  - apply (IH c2); try done. apply (droppable_fewer st set c); try done. by apply negb_true_iff.
Qed.
End Sane.

(** * Blocks that pass *)

Lemma assigned_in_array n st c c1 : assignedOnce_Stmt n st c = Some c1 -> Forall (fun t => in_array n t = true) (assigns st).
Proof.
  assert (forall t c c1, assignedOnce_Temp n t c = Some c1 -> Forall (fun t => in_array n t = true) [t]) as Ht.
  { intros t c' c1' Ha. apply assigned_temp in Ha as (Hr & _). apply Forall_singleton. unfold in_array. lia. }
  destruct st; simpl; try (by intros; constructor); try (by apply Ht).
  - intros Ha. apply bind_Some in Ha as (c2 & H2 & H1). apply Forall_app. split; [|by eapply Ht].
    case_match; [constructor|by eapply Ht].
  - destruct (d_tmp details); [by apply Ht|constructor].
Qed.

Section Blocks.
Context `{PrimopTypes} `{PrimopArgs} (env : list IRType).

Local Abbreviation n0 := (Z.of_nat (length env)).

Lemma typed_in_array t ty : typeOfIRTemp env t = Some ty -> in_array n0 t = true.
Proof.
  unfold typeOfIRTemp, in_array. destruct (Z.ltb_spec t 0); [done|]. intros Hl. apply lookup_lt_Some in Hl. lia.
Qed.

Lemma reads_in_array gw st c t :
  tcStmt env gw st = true -> useBeforeDef_Stmt n0 c st = true -> Iex_RdTmp t ∈ reads st -> in_array n0 t = true.
Proof.
  intros Ht Hu Hr. unfold reads in Hr. apply elem_of_app in Hr as [Hr|Hr].
  - apply operands_used in Hu. eapply Forall_forall in Hu; [|exact Hr]. simpl in Hu.
    unfold useBeforeDef_Temp in Hu. unfold in_array. by bools.
  - destruct st; try (by inversion Hr). apply list_elem_of_singleton in Hr. simpl in Ht.
    unfold tc_dirty in Ht. bools.
    match goal with H : has_type (typeOfIRExpr env (guard _)) _ = true |- _ => rewrite <-Hr in H; apply has_type_iff in H as Hg end.
    by eapply typed_in_array.
Qed.

Lemma sane_tidy gw l c c1 :
  forallb (entry isFlatIRStmt) l = true -> forallb (entry (tcStmt env gw)) l = true ->
  count_defs n0 l c = Some c1 -> Forall (tidy n0) l.
Proof.
  revert c. induction l as [|[st|] l IH]; intros c Hf Ht Hd; simpl in *; [constructor| |done]. bools.
  destruct (useBeforeDef_Stmt n0 c st) eqn:Hu; [|done]. apply bind_Some in Hd as (c2 & Ha & Hd).
  constructor; [|by eapply IH]. exists st. split_and!; [done|by eapply adds_stmt| |by eapply assigned_in_array].
  intros t Hr. by eapply reads_in_array.
Qed.
End Blocks.

Section Deadcode.
Context `{PrimopTypes} `{PrimopArgs}.

(** What the pass does to a block that passes the check. *)
Lemma deadcode_run bb gw : sanityCheckIRSB bb true gw = true ->
  exists set l' inn, (forall t, t ∈ set <-> next bb = Iex_RdTmp t) /\ swept (stmts bb) l' set inn /\
    do_deadcode_BB bb =
      end_at_exit (mkIRSB (tyenv bb) l' (next bb) (jumpkind bb) (offsIP bb)) (first_taken (stmts bb)).
Proof.
  intros Hs. apply sane_parts in Hs as (_ & Hf & Hna & (c & Hd) & Ht & Hn & _).
  destruct (adds_atom (next_temp bb) (next bb) Hna ∅) as (set & Heq & Hset).
  { intros t Hr. apply list_elem_of_singleton in Hr. rewrite <-Hr in Hn. simpl in Hn. by eapply typed_in_array. }
  destruct (deadcode_stmts_swept (next_temp bb) (stmts bb) set) as (l' & inn & Heq' & Hsw); [by eapply sane_tidy|].
  exists set, l', inn. split_and!; [|done|unfold do_deadcode_BB; by rewrite Heq; simpl; rewrite Heq'].
  intros t. rewrite Hset. set_solver.
Qed.

Lemma noops_count n k c : count_defs n (replicate k (Some Ist_NoOp)) c = Some c.
Proof. by induction k. Qed.

Lemma forallb_take {A} (f : A -> bool) i l : forallb f l = true -> forallb f (take i l) = true.
Proof. revert i. induction l as [|x l IH]; intros [|i] Hl; try done. simpl in *. bools; auto. Qed.

Lemma forallb_replicate {A} (f : A -> bool) k x : f x = true -> forallb f (replicate k x) = true.
Proof. intros Hx. induction k; simpl; [done|]. by bools. Qed.

(** The block may be cut at an exit. *)
Lemma end_at_exit_sane bb gw i :
  sanityCheckIRSB bb true gw = true ->
  (forall k, i = Some k -> exists g jk dst off, stmts bb !! k = Some (Some (Ist_Exit g jk dst off))) ->
  exists bb', end_at_exit bb i = Some bb' /\ sanityCheckIRSB bb' true gw = true.
Proof.
  intros Hs Hi. destruct i as [k|]; [|by exists bb]. destruct (Hi k eq_refl) as (g & jk & dst & off & Hk). clear Hi.
  apply sane_parts in Hs as (Hgw & Hf & _ & (c & Hd) & Ht & _). simpl. rewrite Hk. eexists. split; [done|].
  apply sane_parts. simpl.
  assert (tcStmt (tyenv bb) gw (Ist_Exit g jk dst off) = true) as Hex.
  { apply list_elem_of_lookup_2, list_elem_of_In in Hk. apply (proj1 (forallb_forall _ _) Ht _ Hk). }
  simpl in Hex. bools.
  split_and!; try done.
  - rewrite forallb_app, forallb_take by done. by apply forallb_replicate.
  - rewrite <-(take_drop k (stmts bb)), count_defs_app in Hd. apply bind_Some in Hd as (c1 & Hd & _).
    exists c1. rewrite count_defs_app. unfold next_temp in *. simpl. rewrite Hd. simpl. apply noops_count.
  - rewrite forallb_app, forallb_take by done. by apply forallb_replicate.
  - match goal with H : bool_decide _ = true |- _ => apply bool_decide_eq_true in H as Hty end. by rewrite Hty.
  - lia.
Qed.

Lemma deadcode_sane bb gw :
  sanityCheckIRSB bb true gw = true -> forallb (entry (fun st => negb (loses_result st))) (stmts bb) = true ->
  exists bb', do_deadcode_BB bb = Some bb' /\ sanityCheckIRSB bb' true gw = true.
Proof.
  intros Hs Hl. destruct (deadcode_run bb gw Hs) as (set & l' & inn & _ & Hsw & ->).
  apply sane_parts in Hs as (Hgw & Hf & Hna & (c & Hd) & Ht & Hn & Ho). apply end_at_exit_sane.
  - apply sane_parts. simpl. split_and!; try done; [by eapply swept_forall| |by eapply swept_forall].
    destruct (swept_counts (next_temp bb) _ _ _ _ Hsw (fun _ => 0) (fun _ => 0) c Hf Hl) as (c1 & Hc1 & _); [done..|]. by exists c1.
  - intros k Hk. destruct (swept_taken _ _ _ _ _ Hsw Hk) as (g & jk & dst & off & Hl' & _ & Heq).
    exists g, jk, dst, off. simpl. by rewrite Heq.
Qed.
End Deadcode.
