(* ===== verification/IRDeadRun.v ===== *)
(** The removal of dead code does not change what a block does: the state of the client, the calls of
    the tool's helpers and the jump at the end are those of the original block.

    The client's statements are run by a parameter.  What is asked of it is what the intermediate
    representation promises of a flat statement: it reads its operands and assigns its temporaries,
    an assignment does nothing else, and a call whose guard is false does nothing. *)
From stdpp Require Import gmap.
From S2P Require Import Prelude OSet Region Core Trans Pmem IR Instr InstrSpec InstrRun.
From S2P Require Import IRSane IRSaneSpec IRSsa IRDead IRDeadSpec.
Local Open Scope Z_scope.
Local Open Scope pm_scope.

(** * Clients *)

Class TameClient {C : Type} (client : IRStmt -> temps -> C -> temps * C * bool) : Prop := {
  tame_writes st tm c t : t ∉ assigns st -> (client st tm c).1.1 t = tm t;
  tame_reads st tm tm' c :
    isFlatIRStmt st = true -> (forall t, Iex_RdTmp t ∈ reads st -> tm t = tm' t) ->
    (client st tm c).1.2 = (client st tm' c).1.2 /\ (client st tm c).2 = (client st tm' c).2 /\
    forall t, t ∈ assigns st -> (client st tm c).1.1 t = (client st tm' c).1.1 t;
  tame_assign t e tm c : (client (Ist_WrTmp t e) tm c).1.2 = c /\ (client (Ist_WrTmp t e) tm c).2 = true;
  tame_uncalled d tm c : isZeroU1 (guard d) = true ->
    (client (Ist_Dirty d) tm c).1.2 = c /\ (client (Ist_Dirty d) tm c).2 = true;
}.

Section Step.
Context {C : Type} (client : IRStmt -> temps -> C -> temps * C * bool) `{!TameClient client} (lo : Z).

(** One statement, of the tool or of the client: temporaries, client, calls, and whether the next
    statement is executed. *)
Definition step_of (st : IRStmt) (tm : temps) (c : C) : temps * C * list call * bool :=
  if is_tool lo st then ((tool_step st tm).1, c, (tool_step st tm).2, true)
  else ((client st tm c).1.1, (client st tm c).1.2, [], (client st tm c).2).

Lemma exec_step st l tm c : st <> Ist_NoOp ->
  exec client lo (Some st :: l) tm c =
    let '(tm', c', calls, go) := step_of st tm c in
    if go then add_calls calls (exec client lo l tm' c') else mkOut tm' c' calls false.
Proof.
  intros Hno. unfold step_of, client_step, add_calls.
  destruct st; try done; cbn [exec]; destruct (is_tool lo _); try done; unfold client_step;
    destruct (client _ tm c) as [[tm1 c1] []]; simpl; try done; by destruct (exec _ _ _ _ _).
Qed.

Definition agree_on (set : temp_set) (tm tm' : temps) : Prop := forall t, t ∈ set -> tm t = tm' t.

Lemma operand_agree tm tm' (l : list IRExpr) a :
  (forall t, Iex_RdTmp t ∈ l -> tm t = tm' t) -> a ∈ l -> atom_val tm a = atom_val tm' a.
Proof. intros Hag Ha. destruct a; try done. simpl. by apply Hag. Qed.

(** The tool's statements depend on what they read. *)
Lemma tool_agree st tm tm' (set : temp_set) :
  (forall t, Iex_RdTmp t ∈ reads st -> tm t = tm' t) -> agree_on set tm tm' -> is_tool lo st = true ->
  (tool_step st tm).2 = (tool_step st tm').2 /\ agree_on set (tool_step st tm).1 (tool_step st tm').1.
Proof.
  intros Hr Hs Ht. destruct st; try done; simpl.
  - split; [done|]. intros u Hu. unfold set_temp. destruct (u =? tmp); [|by apply Hs].
    unfold reads in Hr. simpl in Hr. rewrite app_nil_r in Hr. pose proof (operand_agree tm tm' (rhs_operands data)) as Ho.
    destruct data; try done; simpl in *; first [apply Hr; set_solver|f_equal; apply (Ho _ Hr); set_solver].
  - split; [|done]. unfold is_on, reads in *. simpl in Hr.
    rewrite (operand_agree tm tm' _ (guard details) Hr) by set_solver.
    destruct (negb _); [|done]. do 2 f_equal. apply list_fmap_ext. intros i a Ha.
    eapply operand_agree; [exact Hr|]. apply list_elem_of_lookup_2 in Ha. set_solver.
Qed.

(** A statement that is kept does the same. *)
Lemma step_kept st tm tm' c (set inn : temp_set) :
  isFlatIRStmt st = true -> (forall t, t ∈ inn <-> t ∈ set \/ Iex_RdTmp t ∈ reads st) -> agree_on inn tm tm' ->
  exists tm1 tm1' c1 calls go, step_of st tm c = (tm1, c1, calls, go) /\ step_of st tm' c = (tm1', c1, calls, go) /\
    agree_on set tm1 tm1'.
Proof.
  intros Hf Hin Hag.
  assert (agree_on set tm tm') as Hs by (intros t Ht; apply Hag, Hin; by left).
  assert (forall t, Iex_RdTmp t ∈ reads st -> tm t = tm' t) as Hr by (intros t Ht; apply Hag, Hin; by right).
  unfold step_of. destruct (is_tool lo st) eqn:Ht.
  - destruct (tool_agree st tm tm' set Hr Hs Ht) as [Hc Ha]. rewrite Hc. by eexists _, _, _, _, _.
  - destruct (tame_reads st tm tm' c Hf Hr) as (Hc & Hg & Ha). rewrite Hc, Hg. eexists _, _, _, _, _. split_and!; try done.
    intros t Hin'. destruct (decide (t ∈ assigns st)) as [|Hno]; [by apply Ha|]. rewrite !tame_writes by done. by apply Hs.
Qed.

(** A statement that is left out does nothing that is seen later. *)
Lemma step_dropped st tm c (set : temp_set) :
  droppable st set -> loses_result st = false ->
  exists tm1, step_of st tm c = (tm1, c, [], true) /\ agree_on set tm1 tm.
Proof.
  intros Hd Hl. unfold step_of. destruct st; try done; simpl in Hd.
  - destruct (is_tool lo _).
    + eexists. split; [done|]. intros u Hu. simpl. unfold set_temp. destruct (Z.eqb_spec u tmp); [by subst|done].
    + destruct (tame_assign tmp data tm c) as [-> ->]. eexists. split; [done|].
      intros u Hu. apply tame_writes. simpl. set_solver.
  - destruct (is_tool lo _).
    + eexists. split; [|by intros u Hu]. simpl. unfold is_on. destruct (guard details); try done.
      simpl in Hd. destruct con; try done. apply Z.eqb_eq in Hd as ->. done.
    + destruct (tame_uncalled details tm c Hd) as [-> ->]. eexists. split; [done|].
      intros u Hu. apply tame_writes. simpl in *. rewrite Hd in Hl. destruct (d_tmp details); [done|]. set_solver.
Qed.

(** Code that has been swept, from states that agree on what is used. *)
Lemma swept_exec l l' out inn : swept l l' out inn -> forall tm tm' c,
  forallb (entry isFlatIRStmt) l = true -> forallb (entry (fun st => negb (loses_result st))) l = true ->
  agree_on inn tm tm' ->
  let r := exec client lo l tm c in let r' := exec client lo l' tm' c in
  out_client r' = out_client r /\ out_calls r' = out_calls r /\ completed r' = completed r /\
  (completed r = true -> agree_on out (out_temps r) (out_temps r')).
Proof.
  induction 1 as [|st l l' out set inn Hs IH Hin|st l l' out set Hs IH Hd]; intros tm tm' c Hf Hl Hag; [done|..];
    simpl in Hf, Hl; bools.
  - destruct (noop_dec st) as [->|Hno].
    { apply IH; try done. intros t Ht. apply Hag, Hin. by left. }
    rewrite !exec_step by done.
    destruct (step_kept st tm tm' c set inn) as (tm1 & tm1' & c1 & calls & [] & -> & -> & Hag'); [done..| |done].
    simpl. destruct (IH tm1 tm1' c1) as (A & B & D & E); [done..|]. by rewrite A, B.
  - rewrite exec_step by (by intros ->).
    destruct (step_dropped st tm c set) as (tm1 & -> & Hag'); [done|by apply negb_true_iff|].
    apply (IH tm1 tm' c); try done. intros t Ht. rewrite Hag' by done. by apply Hag.
Qed.
End Step.

(** * Where a block is left *)

(** The client, with the statement where it was left. *)
Definition traced {C} (client : IRStmt -> temps -> C -> temps * C * bool) (st : IRStmt) (tm : temps)
    (c : C * option IRStmt) : temps * (C * option IRStmt) * bool :=
  let r := client st tm c.1 in (r.1.1, (r.1.2, if r.2 then c.2 else Some st), r.2).

#[export] Instance traced_tame {C} (client : IRStmt -> temps -> C -> temps * C * bool) `{!TameClient client} :
  TameClient (traced client).
Proof.
  split; unfold traced; simpl.
  - intros. by apply tame_writes.
  - intros st tm tm' [c w] Hf Hr. destruct (tame_reads st tm tm' c Hf Hr) as (A & B & D). simpl. by rewrite A, B.
  - intros t e tm [c w]. simpl. destruct (tame_assign t e tm c) as [-> ->]. done.
  - intros d tm [c w] Hz. simpl. destruct (tame_uncalled d tm c Hz) as [-> ->]. done.
Qed.

Section Flow.
Context {C : Type} (client : IRStmt -> temps -> C -> temps * C * bool).

(** What a run of a block is to the outside: the state of the client, the calls of helpers, and the
    jump; there is none if a statement that is no exit does not come to its end. *)
Definition flow (lo : Z) (bb : IRSB) (tm : temps) (c : C) : C * list call * option (Z * Z * Z) :=
  let r := exec (traced client) lo (stmts bb) tm (c, None) in
  ((out_client r).1, out_calls r,
   match (out_client r).2 with
   | Some (Ist_Exit _ jk dst off) => Some (const_val dst, jk, off)
   | Some _ => None
   | None => Some (atom_val (out_temps r) (next bb), jumpkind bb, offsIP bb)
   end).

Lemma exec_app {D} (cl : IRStmt -> temps -> D -> temps * D * bool) lo l1 l2 tm c :
  exec cl lo (l1 ++ l2) tm c =
    let r := exec cl lo l1 tm c in
    if completed r then add_calls (out_calls r) (exec cl lo l2 (out_temps r) (out_client r)) else r.
Proof.
  assert (forall r : @outcome D, add_calls [] r = r) as H0 by (by intros []).
  revert tm c. induction l1 as [|[st|] l1 IH]; intros tm c; [simpl; by rewrite H0| |apply IH].
  destruct (noop_dec st) as [->|Hno]; [apply IH|]. cbn [app]. rewrite !exec_step by done.
  destruct (step_of cl lo st tm c) as [[[tm1 c1] calls] []]; [|done]. rewrite IH. simpl.
  destruct (completed (exec cl lo l1 tm1 c1)); [|done]. unfold add_calls. simpl. by rewrite app_assoc.
Qed.

Lemma exec_noops {D} (cl : IRStmt -> temps -> D -> temps * D * bool) lo k tm c :
  exec cl lo (replicate k (Some Ist_NoOp)) tm c = mkOut tm c [] true.
Proof. by induction k. Qed.

(** The run has come to the end exactly if no place is recorded. *)
Lemma traced_completed lo l tm c : let r := exec (traced client) lo l tm (c, None) in
  completed r = true <-> (out_client r).2 = None.
Proof.
  revert tm c. induction l as [|[st|] l IH]; intros tm c; [done| |apply IH].
  destruct (noop_dec st) as [->|Hno]; [apply IH|]. rewrite exec_step by done. unfold step_of.
  destruct (is_tool lo st); [apply IH|]. unfold traced at 1 2 3 4. simpl.
  destruct (client st tm c) as [[tm1 c1] []]; simpl; [apply IH|done].
Qed.

(** Sweeping the statements. *)
Lemma swept_flow `{!TameClient client} lo bb l' set inn :
  forallb (entry isFlatIRStmt) (stmts bb) = true -> isIRAtom (next bb) = true ->
  forallb (entry (fun st => negb (loses_result st))) (stmts bb) = true ->
  (forall t, t ∈ set <-> next bb = Iex_RdTmp t) -> swept (stmts bb) l' set inn ->
  forall tm c, flow lo (mkIRSB (tyenv bb) l' (next bb) (jumpkind bb) (offsIP bb)) tm c = flow lo bb tm c.
Proof.
  intros Hf Hn Hl Hset Hsw tm c. unfold flow. simpl.
  destruct (swept_exec (traced client) lo _ _ _ _ Hsw tm tm (c, None) Hf Hl) as (A & B & D & E); [done|].
  rewrite A, B. f_equal. destruct ((out_client (exec (traced client) lo (stmts bb) tm (c, None))).2) eqn:Hw; [done|].
  apply traced_completed, E in Hw. do 3 f_equal. destruct (next bb) eqn:Hnx; try done. symmetry. by apply Hw, Hset.
Qed.

(** The end of the block at an exit that is always taken. *)
Lemma cut_flow lo bb bb' i g jk dst off
    (Hexit : forall tm c, (client (Ist_Exit g jk dst off) tm c).1.2 = c /\ (client (Ist_Exit g jk dst off) tm c).2 = false) :
  stmts bb !! i = Some (Some (Ist_Exit g jk dst off)) -> end_at_exit bb (Some i) = Some bb' ->
  forall tm c, flow lo bb' tm c = flow lo bb tm c.
Proof.
  intros Hi He tm c. simpl in He. rewrite Hi in He. simplify_eq. unfold flow. simpl.
  set (rest := replicate _ _). set (whole := exec _ lo (stmts bb) tm (c, None)).
  assert (whole = exec (traced client) lo (take i (stmts bb) ++ Some (Ist_Exit g jk dst off) :: drop (S i) (stmts bb)) tm (c, None))
    as -> by (by rewrite (take_drop_middle _ _ _ Hi)).
  rewrite !exec_app. simpl.
  pose proof (traced_completed lo (take i (stmts bb)) tm c) as Hc. simpl in Hc.
  destruct (exec (traced client) lo (take i (stmts bb)) tm (c, None)) as [tm1 [c1 w] calls []]; simpl in *.
  - unfold rest. rewrite exec_noops. unfold client_step, traced. simpl. destruct (Hexit tm1 c1) as [-> ->]. simpl.
    by destruct Hc as [-> _].
  - destruct w as [w|]; [done|]. destruct Hc as [_ Hc]. by specialize (Hc eq_refl).
Qed.
End Flow.
