(* ===== verification/IRDeadClaims.v ===== *)
(** The removal of dead code on blocks that pass the sanity check, alone and after the
    instrumentation, and the one kind of block it breaks. *)
From stdpp Require Import gmap.
From S2P Require Import Prelude OSet Region Core Trans Pmem IR Instr InstrSpec InstrRun Sample InstrClaims.
From S2P Require Import IRSane IRSaneSpec IRSsa InstrSane InstrSaneRun InstrSaneClaims IRDead IRDeadSpec IRDeadRun.
Local Open Scope Z_scope.
Local Open Scope pm_scope.

(** A client that leaves a block at the exits whose guard is literally true. *)
Class TakesExits {C : Type} (client : IRStmt -> temps -> C -> temps * C * bool) : Prop :=
  takes_exit g jk dst off tm c : isOneU1 g = true ->
    (client (Ist_Exit g jk dst off) tm c).1.2 = c /\ (client (Ist_Exit g jk dst off) tm c).2 = false.

(** The tool's calls have no result. *)
#[export] Instance tool_keeps_results : ToolLike (fun st => negb (loses_result st)).
Proof. split; [done|]. intros. simpl. by rewrite andb_false_r. Qed.

Section Blocks.
Context `{PrimopTypes} `{PrimopArgs} {C : Type} (client : IRStmt -> temps -> C -> temps * C * bool).

Lemma deadcode_flow `{!TameClient client} `{!TakesExits client} lo bb bb' gw :
  sanityCheckIRSB bb true gw = true -> forallb (entry (fun st => negb (loses_result st))) (stmts bb) = true ->
  do_deadcode_BB bb = Some bb' -> forall tm c, flow client lo bb' tm c = flow client lo bb tm c.
Proof.
  intros Hs Hl Heq tm c. destruct (deadcode_run bb gw Hs) as (set & l' & inn & Hset & Hsw & Hd).
  apply sane_parts in Hs as (_ & Hf & Hn & _). rewrite Hd in Heq.
  rewrite <-(swept_flow client lo bb l' set inn Hf Hn Hl Hset Hsw).
  destruct (first_taken (stmts bb)) as [i|] eqn:Hi; [|by simplify_eq/=].
  destruct (swept_taken _ _ _ _ _ Hsw Hi) as (g & jk & dst & off & Hst & Hone & Hst').
  eapply cut_flow; [|by simpl; rewrite Hst'|exact Heq]. intros. by apply takes_exit.
Qed.

(** A statement of a block that passes is run within the temporaries of the block. *)
Lemma tame_within {D} (cl : IRStmt -> temps -> D -> temps * D * bool) `{!TameClient cl} n st :
  isFlatIRStmt st = true -> (forall t, Iex_RdTmp t ∈ reads st -> in_array n t = true) -> within cl n st.
Proof.
  intros Hf Hin tm tm' c Hag.
  destruct (tame_reads st tm tm' c Hf) as (A & B & E).
  { intros t Ht. apply Hag. specialize (Hin t Ht). unfold in_array in Hin. lia. }
  split_and!; try done. intros t Ht. destruct (decide (t ∈ assigns st)); [by apply E|]. rewrite !tame_writes by done. by apply Hag.
Qed.

Lemma sane_within {D} (cl : IRStmt -> temps -> D -> temps * D * bool) `{!TameClient cl} bb gw : sanityCheckIRSB bb true gw = true ->
  Forall (fun o => match o with Some st => within cl (next_temp bb) st | None => True end) (stmts bb).
Proof.
  intros Hs. apply sane_parts in Hs as (_ & Hf & _ & (c & Hd) & Ht & _).
  pose proof (sane_tidy (tyenv bb) gw _ _ _ Hf Ht Hd) as Htidy. clear Hd Ht.
  induction Htidy as [|o l (st & -> & _ & Hin & _) Hl IH]; simpl in Hf; bools; constructor; [by apply tame_within|auto].
Qed.

(** The record of the place changes nothing else. *)
Lemma observed_traced o env l tm c w :
  out_calls (observed (traced client) o env l tm (c, w)) = out_calls (observed client o env l tm c).
Proof.
  revert tm c. induction l as [|[st|] l IH]; intros tm c; [done| |apply IH].
  destruct (noop_dec st) as [->|Hno]; [apply IH|]. rewrite !observed_cons by done. unfold client_step, traced. simpl.
  destruct (client st tm c) as [[tm1 c1] []]; simpl; [by rewrite <-IH|done].
Qed.

Lemma observed_block_traced o env l tm c w :
  out_calls (observed_block (traced client) o env l tm (c, w)) = out_calls (observed_block client o env l tm c).
Proof.
  revert tm c. induction l as [|[st|] l IH]; intros tm c; [done| |apply IH].
  destruct (imark_dec st) as [(a & n & d & ->)|Hmark].
  { simpl. f_equal. apply (observed_traced o env (Some (Ist_IMark a n d) :: l)). }
  destruct (noop_dec st) as [->|Hno]; [apply IH|]. rewrite !observed_block_cons by done. unfold client_step, traced. simpl.
  destruct (client st tm c) as [[tm1 c1] []]; simpl; [apply IH|done].
Qed.

(** The instrumented block has the run of the original one, with the calls that are expected. *)
Lemma instrument_flow `{!TameClient client} o bb bb' g g' :
  sanityCheckIRSB bb true Ity_I64 = true -> Ity_INVALID ∉ tyenv bb ->
  forallb (entry (fun st => single_cas st && client_code st)) (stmts bb) = true ->
  pmc_instrument o bb Ity_I64 Ity_I64 g = Ok tt (mkInstr bb' g') ->
  forall tm c, let n := next_temp bb in let '(c1, _, jump) := flow client n bb tm c in
    flow client n bb' tm c = (c1, out_calls (observed_block client o (tyenv bb) (stmts bb) tm c), jump).
Proof.
  intros Hs Hv Hcode Hi tm c n. pose proof (sane_within (traced client) bb Ity_I64 Hs) as Hw.
  apply sane_parts in Hs as (_ & Hf & Hna & _ & Ht & Hn & _).
  assert (block_ok (traced client) bb) as Hok by (split; [by apply whole_entries|by apply sane_entries]).
  destruct (pmc_instrument_run (traced client) o bb g Hok) as (code & tys & gl & Heq & Hr).
  simpl in Heq. rewrite Hi in Heq. injection Heq as -> ->. destruct (Hr tm tm (c, None) ltac:(done)) as (A & B & D & _).
  destruct (observed_block_client (traced client) o (tyenv bb) (stmts bb) tm (c, None) (proj2 Hok)) as (A' & B' & _).
  unfold flow. simpl. unfold n, next_temp. rewrite <-B', <-B, D, observed_block_traced. f_equal.
  destruct ((out_client _).2); [done|]. do 3 f_equal. destruct (next bb) eqn:Hnx; try done. simpl.
  assert (0 <= tmp < Z.of_nat (length (tyenv bb))) as Hlt by (by eapply sane_temp). rewrite A, A' by lia. done.
Qed.
End Blocks.

(** * Samples *)

(** A client whose state is the list of its stores, and that leaves a block at an exit whose guard is
    on; what it does not compute is zero. *)
Definition tame_step (st : IRStmt) (tm : temps) (c : list (Z * Z)) : temps * list (Z * Z) * bool :=
  let v := match st with Ist_WrTmp _ e => atom_val tm e | _ => 0 end in
  (fun t => if bool_decide (t ∈ assigns st) then v else tm t,
   match st with Ist_Store _ a data => (atom_val tm a, atom_val tm data) :: c | _ => c end,
   match st with Ist_Exit g _ _ _ => negb (is_on tm g) | _ => true end).

#[export] Instance tame_step_tame : TameClient tame_step.
Proof.
  split; unfold tame_step; simpl.
  - intros st tm c t Ht. by rewrite bool_decide_false.
  - intros st tm tm' c Hf Hr. pose proof (operand_agree tm tm' (reads st)) as Ho. split_and!.
    + destruct st; try done. f_equal. f_equal; apply Ho; try done; unfold reads; set_solver.
    + destruct st; try done. unfold is_on. by rewrite (Ho g) by (done || unfold reads; set_solver).
    + intros t Ht. rewrite bool_decide_true by done. destruct st; try done. simpl in Ht.
      destruct data; try done; apply Ho; try done; unfold reads; set_solver.
  - done.
  - done.
Qed.

#[export] Instance tame_step_exits : TakesExits tame_step.
Proof.
  intros g jk dst off tm c Hg. split; [done|]. simpl. unfold is_on. destruct g; try done. destruct con; try done.
  simpl in *. apply Z.eqb_eq in Hg as ->. done.
Qed.

(** A block with an assignment nobody reads, a call that is never made and an exit in the middle that
    is always taken. *)
Definition dead_block : IRSB :=
  mkIRSB [Ity_I64; Ity_I32; Ity_I64]
    [Some (Ist_IMark 4096 4 0); Some (Ist_WrTmp 0 (Iex_Get 16 Ity_I64)); Some (Ist_WrTmp 1 (Iex_Get 24 Ity_I32));
     Some (Ist_Dirty (set_guard (Iex_Const (Ico_U1 0)) (unsafeIRDirty_0_N 0 "helper" (other_helper 1) [])));
     Some (Ist_Store Iend_LE (Iex_RdTmp 0) (Iex_Const (Ico_U64 5)));
     Some (Ist_Exit (Iex_Const (Ico_U1 1)) 3 (Ico_U64 8192) 184);
     Some (Ist_WrTmp 2 (Iex_Get 32 Ity_I64)); Some (Ist_Store Iend_LE (Iex_RdTmp 0) (Iex_RdTmp 2))]
    (Iex_RdTmp 2) 0 184.

(** A call that is never made and has a result, which is stored. *)
Definition lost_block : IRSB :=
  mkIRSB [Ity_I64]
    [Some (Ist_IMark 4096 4 0);
     Some (Ist_Dirty (mkIRDirty (mkIRCallee 0 "helper" (other_helper 1) 0) (Iex_Const (Ico_U1 0)) [] (Some 0) Ifx_None None 0 []));
     Some (Ist_Store Iend_LE (Iex_Const (Ico_U64 4096)) (Iex_RdTmp 0))]
    (Iex_Const (Ico_U64 8192)) 0 184.

(** * The claims *)

(** C20: on a flat block that passes the sanity check, without calls that are never made and have a
    result, the removal of dead code succeeds; the new block passes the check, and from every state
    it leaves the client in the same state, makes the same helper calls and jumps to the same place
    as the original, also where an exit in the middle became the end of the block. *)
Theorem deadcode_correct `{PrimopTypes} `{PrimopArgs} {C} (client : IRStmt -> temps -> C -> temps * C * bool)
    `{!TameClient client} `{!TakesExits client} bb gw
    (Hsane : sanityCheckIRSB bb true gw = true)
    (Hresults : forallb (entry (fun st => negb (loses_result st))) (stmts bb) = true) :
  exists bb', do_deadcode_BB bb = Some bb' /\ sanityCheckIRSB bb' true gw = true /\
    forall lo tm c, flow client lo bb' tm c = flow client lo bb tm c.
Proof.
  destruct (deadcode_sane bb gw Hsane Hresults) as (bb' & Heq & Hs'). exists bb'. split_and!; try done.
  intros lo. by apply (deadcode_flow client lo bb bb' gw).
Qed.

Lemma deadcode_correct_witness :
  exists bb', do_deadcode_BB dead_block = Some bb' /\ sanityCheckIRSB bb' true Ity_I64 = true /\
    forall lo tm c, flow tame_step lo bb' tm c = flow tame_step lo dead_block tm c.
Proof. apply (deadcode_correct tame_step dead_block Ity_I64); vm_compute; reflexivity. Defined.

(** The sample block loses its dead assignment, its call and all from the exit on. *)
Example dead_block_swept :
  (fun bb => (stmts bb, next bb, jumpkind bb)) <$> do_deadcode_BB dead_block =
    Some ([Some (Ist_IMark 4096 4 0); Some (Ist_WrTmp 0 (Iex_Get 16 Ity_I64)); Some Ist_NoOp; Some Ist_NoOp;
           Some (Ist_Store Iend_LE (Iex_RdTmp 0) (Iex_Const (Ico_U64 5))); Some Ist_NoOp; Some Ist_NoOp; Some Ist_NoOp],
          Iex_Const (Ico_U64 8192), 3).
Proof. vm_compute. reflexivity. Qed.

(** C19: the instrumentation and the pass that follows it: from every flat client block that passes the
    sanity check, without temporaries of the invalid type, without double compare-and-swaps and without calls that are never made and have a
    result, both succeed; the block that results passes the check, leaves the client in the same
    state and jumps to the same place as the original block, and makes exactly the helper calls an
    observer of the original block expects: no call the tool has added is lost. *)
Theorem instrumented_deadcode_observed `{PrimopTypes} `{PrimopArgs} {C}
    (client : IRStmt -> temps -> C -> temps * C * bool) `{!TameClient client} `{!TakesExits client} o bb g
    (Hsane : sanityCheckIRSB bb true Ity_I64 = true) (Hvalid : Ity_INVALID ∉ tyenv bb)
    (Hcode : forallb (entry (fun st => single_cas st && client_code st)) (stmts bb) = true)
    (Hresults : forallb (entry (fun st => negb (loses_result st))) (stmts bb) = true) :
  exists bb1 g' bb2, pmc_instrument o bb Ity_I64 Ity_I64 g = Ok tt (mkInstr bb1 g') /\
    do_deadcode_BB bb1 = Some bb2 /\ sanityCheckIRSB bb2 true Ity_I64 = true /\
    forall tm c, let n := next_temp bb in let '(c1, _, jump) := flow client n bb tm c in
      flow client n bb2 tm c = (c1, out_calls (observed_block client o (tyenv bb) (stmts bb) tm c), jump).
Proof.
  assert (forallb (entry single_cas) (stmts bb) = true) as Hcas.
  { eapply entries_impl; [|exact Hcode]. simpl. intros. by bools. }
  destruct (instrument_sane (fun st => negb (loses_result st)) o bb g) as (bb1 & g' & Hi & Hs1 & Hr1); try done.
  destruct (deadcode_sane bb1 Ity_I64 Hs1 Hr1) as (bb2 & Hd & Hs2).
  exists bb1, g', bb2. split_and!; try done. intros tm c n.
  pose proof (instrument_flow client o bb bb1 g g' Hsane Hvalid Hcode Hi tm c) as Hf. fold n in Hf. simpl in Hf.
  rewrite (deadcode_flow client n bb1 bb2 Ity_I64) by done. exact Hf.
Qed.

Lemma instrumented_deadcode_observed_witness :
  exists bb1 g' bb2, pmc_instrument default_options sane_block Ity_I64 Ity_I64 (the_globals (sample_world default_options)) = Ok tt (mkInstr bb1 g') /\
    do_deadcode_BB bb1 = Some bb2 /\ sanityCheckIRSB bb2 true Ity_I64 = true /\
    forall tm c, let '(c1, _, jump) := flow tame_step 5 sane_block tm c in
      flow tame_step 5 bb2 tm c =
        (c1, out_calls (observed_block tame_step default_options (tyenv sane_block) (stmts sane_block) tm c), jump).
Proof.
  apply (instrumented_deadcode_observed tame_step default_options sane_block);
    [vm_compute; reflexivity|by apply (bool_decide_unpack _)|vm_compute; reflexivity|vm_compute; reflexivity].
Defined.

(** * Calls that are never made *)

(** What is left of an entry: nothing, or the entry itself if it is no call that is never made. *)
Definition left_entry (o o' : option IRStmt) : Prop :=
  o' = Some Ist_NoOp \/ (o' = o /\ forall d, o = Some (Ist_Dirty d) -> isZeroU1 (guard d) = false).

Lemma deadcode_stmt_left n st set st' set' :
  deadcode_stmt n st set = Some (st', set') -> left_entry (Some st) (Some st').
Proof.
  unfold deadcode_stmt, left_entry. intros E.
  destruct st; repeat case_match; try done; try (apply bind_Some in E as (? & _ & E)); simplify_eq;
    first [by left|right; split; [done|]; intros; by simplify_eq].
Qed.

Lemma deadcode_stmts_left n l : forall set l' inn i,
  deadcode_stmts n l set = Some (l', inn, i) -> Forall2 left_entry l l'.
Proof.
  induction l as [|[st|] l IH]; intros set l' inn i E; simpl in E; [by simplify_eq| |done].
  apply bind_Some in E as ([[l1 s1] i1] & E1 & E). pose proof (IH _ _ _ _ E1) as Hl.
  destruct st; try (apply bind_Some in E as ([st' s2] & E2 & E); simplify_eq; constructor; [by eapply deadcode_stmt_left|done]).
  simplify_eq. constructor; [by left|done].
Qed.

Lemma end_at_exit_left bb i bb' l :
  end_at_exit bb i = Some bb' -> Forall2 left_entry l (stmts bb) -> Forall2 left_entry l (stmts bb').
Proof.
  intros E Hl. destruct i as [k|]; simpl in E; [|by simplify_eq]. repeat case_match; try done. simplify_eq. simpl.
  pose proof (Forall2_length _ _ _ Hl) as Hlen. rewrite <-(take_drop k l). apply Forall2_app; [by apply Forall2_take|].
  apply Forall2_same_length_lookup_2; [rewrite length_replicate, length_drop; lia|].
  intros j o o' _ [-> _]%lookup_replicate. by left.
Qed.

(** What the entries that are left assign was assigned before, but not by calls that are never made. *)
Lemma left_assigned l l' t : Forall2 left_entry l l' -> t ∈ all_assigned l' -> t ∈ all_assigned l.
Proof.
  unfold all_assigned. induction 1 as [|o o' l l' Ho Hl IH]; [done|]. cbn. rewrite !elem_of_app.
  destruct Ho as [->|[-> _]]; [intros [?%elem_of_nil|?]|intros [?|?]]; auto; done.
Qed.

Lemma left_unassigned l1 d l2 l' t : isZeroU1 (guard d) = true -> d_tmp d = Some t ->
  NoDup (all_assigned (l1 ++ Some (Ist_Dirty d) :: l2)) -> Forall2 left_entry (l1 ++ Some (Ist_Dirty d) :: l2) l' ->
  t ∉ all_assigned l'.
Proof.
  intros Hz Ht Hnd Hl. apply Forall2_app_inv_l in Hl as (l1' & l2' & H1 & H2 & ->).
  apply Forall2_cons_inv_l in H2 as (o' & l3 & Ho & H3 & ->). unfold all_assigned in *.
  rewrite bind_app, bind_cons in Hnd. rewrite bind_app, bind_cons. cbn [assigns] in Hnd. rewrite Ht in Hnd.
  apply NoDup_app in Hnd as (_ & Hn1 & (_ & Hn2 & _)%NoDup_app).
  destruct Ho as [->|[_ Hd]]; [|by rewrite (Hd d eq_refl) in Hz]. rewrite !elem_of_app.
  intros [Hin|[?%elem_of_nil|Hin]]; [|done|].
  - apply (left_assigned l1) in Hin; [|done]. apply (Hn1 t Hin). rewrite elem_of_app. left. by left.
  - apply (left_assigned l2) in Hin; [|done]. apply (Hn2 t); [by left|done].
Qed.

(** C21: the pass breaks every block with a call that is never made and whose result is read: from a
    flat block that passes the sanity check, it takes the call out with the assignment of its
    result, and when a statement that is left reads the result, the block that results no longer passes
    the check. *)
Theorem deadcode_drops_result `{PrimopTypes} `{PrimopArgs} bb bb' gw l1 d l2 t st
    (Hsane : sanityCheckIRSB bb true gw = true)
    (Hcall : stmts bb = l1 ++ Some (Ist_Dirty d) :: l2) (Hnever : isZeroU1 (guard d) = true) (Hresult : d_tmp d = Some t)
    (Hpass : do_deadcode_BB bb = Some bb')
    (Hleft : Some st ∈ stmts bb') (Hread : Iex_RdTmp t ∈ operands st) :
  sanityCheckIRSB bb' true gw = false.
Proof.
  apply not_true_iff_false. intros Hs'. unfold do_deadcode_BB in Hpass.
  apply bind_Some in Hpass as (set & _ & Hpass). apply bind_Some in Hpass as ([[l' inn] i] & Hl & Hpass).
  apply deadcode_stmts_left, (end_at_exit_left _ _ _ _ Hpass) in Hl. rewrite Hcall in Hl.
  apply sane_parts in Hsane as (_ & _ & _ & (c & Hd) & _). apply sane_parts in Hs' as (_ & _ & _ & (c' & Hd') & _).
  destruct (block_recorded _ _ _ _ [] Hd) as (Hnd & _); [done|constructor|]. simpl in Hnd. rewrite Hcall in Hnd.
  destruct (block_recorded _ _ _ _ [] Hd') as (_ & _ & Hops); [done|constructor|].
  apply list_elem_of_split in Hleft as (k1 & k2 & Hk). specialize (Hops k1 st k2 t Hk Hread). simpl in Hops.
  apply (left_unassigned _ _ _ _ t Hnever Hresult Hnd Hl). rewrite Hk. unfold all_assigned in *.
  rewrite bind_app, elem_of_app. by left.
Qed.

Lemma deadcode_drops_result_witness :
  match do_deadcode_BB lost_block with Some bb' => sanityCheckIRSB bb' true Ity_I64 = false | None => False end.
Proof.
  destruct (do_deadcode_BB lost_block) as [bb'|] eqn:E; [|vm_compute in E; discriminate].
  pose proof E as E'. vm_compute in E'. injection E' as E'.
  apply (deadcode_drops_result lost_block bb' Ity_I64 (take 1 (stmts lost_block))
    (mkIRDirty (mkIRCallee 0 "helper" (other_helper 1) 0) (Iex_Const (Ico_U1 0)) [] (Some 0) Ifx_None None 0 []) (drop 2 (stmts lost_block)) 0
    (Ist_Store Iend_LE (Iex_Const (Ico_U64 4096)) (Iex_RdTmp 0)));
    [vm_compute; reflexivity|reflexivity|reflexivity|reflexivity|exact E|rewrite <-E'; simpl; set_solver|simpl; set_solver].
Defined.
