(* ===== verification/IRFlat.v ===== *)
(** Flattening (VEX/priv/ir_opt.c, isFlat to flatten_BB), the pass that makes the blocks of the front end
    flat before they are instrumented.

    The state is the block that is built.  The subexpressions of an operation are flattened in the
    arguments of a call, whose order C leaves open: [ord] says, for the expression and the block
    that is there when its call is reached, in which order they are evaluated.  It is any function, so
    that every order is covered, and another one at every call. *)
From S2P Require Import Prelude IR IRSane.
Local Open Scope Z_scope.
Local Open Scope pm_scope.

Abbreviation FM := (M IRSB).

(** A block to start from. *)
Definition Ijk_Boring : Z := 6657.

Definition emptyIRSB : IRSB := mkIRSB [] [] Iex_NULL Ijk_Boring 0.

(** newIRTemp and addStmtToIRSB on the block that is built. *)
Definition flat_temp (ty : IRType) : FM Z := t <- getsM next_temp ;; modM (add_temp ty) ;;; retM t.

Definition flat_stmt (st : IRStmt) : FM unit := modM (add_stmt st).

(** The assignment of an expression to a temporary, which is read in its place. *)
Definition flat_assign (t1 : Z) (e : IRExpr) : FM IRExpr := flat_stmt (Ist_WrTmp t1 e) ;;; retM (Iex_RdTmp t1).

(** Heuristic for reducing the number of copies. *)
Definition isFlat (e : IRExpr) : bool :=
  match e with
  | Iex_Get _ _ => true
  | Iex_Binop _ a1 a2 => isIRAtom a1 && isIRAtom a2
  | Iex_Load _ _ a => isIRAtom a
  | _ => false
  end.

(** The loop over the arguments of a call. *)
Section Args.
Context (f : IRExpr -> FM IRExpr).

Fixpoint flat_args (l : list IRExpr) : FM (list IRExpr) :=
  match l with
  | [] => retM []
  | a :: l => a' <- f a ;; l' <- flat_args l ;; retM (a' :: l')
  end.
End Args.

(** An expression that may be missing. *)
Definition flat_there (f : IRExpr -> FM IRExpr) (o : option IRExpr) : FM (option IRExpr) :=
  match o with Some e => e' <- f e ;; retM (Some e') | None => retM None end.

(** The computations of a list, one after the other in any order: an entry of [o] is the position, among
    those that are left, of the one that is next (and the first of them is next when [o] is used up).  The
    results are in the order of the list. *)
Fixpoint in_order {A} (n : nat) (o : list nat) (ms : list (FM A)) : FM (list A) :=
  match n with
  | O => retM []
  | S n =>
      let i := Nat.modulo (hd O o) (length ms) in
      m <- liftM AssertFail (ms !! i) ;;
      x <- m ;;
      l <- in_order n (tl o) (delete i ms) ;;
      retM (take i l ++ x :: drop i l)
  end.

(** The order of the arguments, for an expression and the block so far. *)
Abbreviation order := (IRExpr -> IRSB -> list nat).

Section Flatten.
Context `{PrimopTypes} (ord : order).

(** The arguments of the call that makes the flat expression for [ex]. *)
Definition evaluate {A} (ex : IRExpr) (ms : list (FM A)) : FM (list A) :=
  o <- getsM (ord ex) ;; in_order (length ms) o ms.

Fixpoint flatten_Expr (ex : IRExpr) : FM IRExpr :=
  env <- getsM tyenv ;;
  ty <- liftM AssertFail (typeOfIRExpr env ex) ;;
  match ex with
  | Iex_GetI descr ix bias =>
      t1 <- flat_temp ty ;; ix' <- flatten_Expr ix ;; flat_assign t1 (Iex_GetI descr ix' bias)
  | Iex_Get _ _ => t1 <- flat_temp ty ;; flat_assign t1 ex
  | Iex_Qop op a1 a2 a3 a4 =>
      t1 <- flat_temp ty ;;
      args <- evaluate ex [flatten_Expr a1; flatten_Expr a2; flatten_Expr a3; flatten_Expr a4] ;;
      match args with [a1'; a2'; a3'; a4'] => flat_assign t1 (Iex_Qop op a1' a2' a3' a4') | _ => stopM AssertFail end
  | Iex_Triop op a1 a2 a3 =>
      t1 <- flat_temp ty ;;
      args <- evaluate ex [flatten_Expr a1; flatten_Expr a2; flatten_Expr a3] ;;
      match args with [a1'; a2'; a3'] => flat_assign t1 (Iex_Triop op a1' a2' a3') | _ => stopM AssertFail end
  | Iex_Binop op a1 a2 =>
      t1 <- flat_temp ty ;;
      args <- evaluate ex [flatten_Expr a1; flatten_Expr a2] ;;
      match args with [a1'; a2'] => flat_assign t1 (Iex_Binop op a1' a2') | _ => stopM AssertFail end
  | Iex_Unop op a => t1 <- flat_temp ty ;; a' <- flatten_Expr a ;; flat_assign t1 (Iex_Unop op a')
  | Iex_Load e lty a => t1 <- flat_temp ty ;; a' <- flatten_Expr a ;; flat_assign t1 (Iex_Load e lty a')
  | Iex_CCall cee retty args =>
      newargs <- flat_args flatten_Expr args ;;
      t1 <- flat_temp ty ;;
      flat_assign t1 (Iex_CCall cee retty newargs)
  | Iex_ITE c t f =>
      t1 <- flat_temp ty ;;
      args <- evaluate ex [flatten_Expr c; flatten_Expr t; flatten_Expr f] ;;
      match args with [c'; t'; f'] => flat_assign t1 (Iex_ITE c' t' f') | _ => stopM AssertFail end
  | Iex_Const (Ico_F64i v) => t1 <- flat_temp ty ;; flat_assign t1 (Iex_Const (Ico_F64i v))
  | Iex_Const _ | Iex_RdTmp _ => retM ex
  | Iex_Binder _ | Iex_VECRET | Iex_GSPTR | Iex_NULL => stopM AssertFail
  end.

Definition flatten_Stmt (st : IRStmt) : FM unit :=
  match st with
  | Ist_Put off data =>
      if isIRAtom data then flat_stmt st else e1 <- flatten_Expr data ;; flat_stmt (Ist_Put off e1)
  | Ist_PutI descr ix bias data =>
      e1 <- flatten_Expr ix ;; e2 <- flatten_Expr data ;; flat_stmt (Ist_PutI descr e1 bias e2)
  | Ist_WrTmp t data =>
      if isFlat data then flat_stmt st else e1 <- flatten_Expr data ;; flat_stmt (Ist_WrTmp t e1)
  | Ist_Store e a data =>
      e1 <- flatten_Expr a ;; e2 <- flatten_Expr data ;; flat_stmt (Ist_Store e e1 e2)
  | Ist_StoreG sg =>
      e1 <- flatten_Expr (sg_addr sg) ;; e2 <- flatten_Expr (sg_data sg) ;; e3 <- flatten_Expr (sg_guard sg) ;;
      flat_stmt (Ist_StoreG (mkIRStoreG (sg_end sg) e1 e2 e3))
  | Ist_LoadG e cvt dst a alt g =>
      e1 <- flatten_Expr a ;; e2 <- flatten_Expr alt ;; e3 <- flatten_Expr g ;;
      flat_stmt (Ist_LoadG e cvt dst e1 e2 e3)
  | Ist_CAS cas =>
      e1 <- flatten_Expr (cas_addr cas) ;;
      e2 <- flat_there flatten_Expr (expdHi cas) ;;
      e3 <- flatten_Expr (expdLo cas) ;;
      e4 <- flat_there flatten_Expr (dataHi cas) ;;
      e5 <- flatten_Expr (dataLo cas) ;;
      flat_stmt (Ist_CAS (mkIRCAS (oldHi cas) (oldLo cas) (cas_end cas) e1 e2 e3 e4 e5))
  | Ist_LLSC e r a storedata =>
      e1 <- flatten_Expr a ;; e2 <- flat_there flatten_Expr storedata ;; flat_stmt (Ist_LLSC e r e1 e2)
  | Ist_Dirty d =>
      m <- match mFx d, mAddr d with
           | Ifx_None, None => retM None
           | Ifx_None, Some _ => stopM AssertFail
           | _, None => stopM NullDeref
           | _, Some a => e <- flatten_Expr a ;; retM (Some e)
           end ;;
      g <- flatten_Expr (guard d) ;;
      l <- flat_args (fun a => if is_IRExpr_VECRET_or_GSPTR a then retM a else flatten_Expr a) (args d) ;;
      flat_stmt (Ist_Dirty (mkIRDirty (cee d) g l (d_tmp d) (mFx d) m (mSize d) (fxState d)))
  | Ist_NoOp => retM tt
  | Ist_MBE _ | Ist_IMark _ _ _ => flat_stmt st
  | Ist_AbiHint base len nia =>
      e1 <- flatten_Expr base ;; e2 <- flatten_Expr nia ;; flat_stmt (Ist_AbiHint e1 len e2)
  | Ist_Exit g jk dst off => e1 <- flatten_Expr g ;; flat_stmt (Ist_Exit e1 jk dst off)
  | Ist_Flush a fk => e1 <- flatten_Expr a ;; flat_stmt (Ist_Flush e1 fk)
  end.

(** Empty entries are skipped. *)
Fixpoint flatten_stmts (l : list (option IRStmt)) : FM unit :=
  match l with
  | [] => retM tt
  | None :: l => flatten_stmts l
  | Some st :: l => flatten_Stmt st ;;; flatten_stmts l
  end.

(** The end of the block is set when its statements are there. *)
Definition flatten_BB (bb : IRSB) : res IRSB unit :=
  (flatten_stmts (stmts bb) ;;;
   nx <- flatten_Expr (next bb) ;;
   modM (fun out => mkIRSB (tyenv out) (stmts out) nx (jumpkind bb) (offsIP bb)))
    (mkIRSB (tyenv bb) (stmts emptyIRSB) (next emptyIRSB) (jumpkind emptyIRSB) (offsIP emptyIRSB)).
End Flatten.
