(* ===== verification/IRFlatSpec.v ===== *)
(** Flattening keeps the sanity check: from a block that passes the check of blocks that need not be
    flat, the block that is built passes the one of flat blocks.

    Expressions are flattened by recursion, so the facts on more temporaries are needed for all
    expressions here, not only for those of flat statements. *)
From S2P Require Import Prelude IR IRSane IRSaneSpec IRSsa IRFlat.
Local Open Scope Z_scope.
Local Open Scope pm_scope.

Create HintDb flat.

(** Induction on expressions, with the arguments of calls. *)
Section Induction.
Context (P : IRExpr -> Prop).
Context (Hnull : P Iex_NULL) (Hbinder : forall b, P (Iex_Binder b)) (Hget : forall o ty, P (Iex_Get o ty))
  (Hgeti : forall d ix b, P ix -> P (Iex_GetI d ix b)) (Htmp : forall t, P (Iex_RdTmp t))
  (Hqop : forall op a1 a2 a3 a4, P a1 -> P a2 -> P a3 -> P a4 -> P (Iex_Qop op a1 a2 a3 a4))
  (Htriop : forall op a1 a2 a3, P a1 -> P a2 -> P a3 -> P (Iex_Triop op a1 a2 a3))
  (Hbinop : forall op a1 a2, P a1 -> P a2 -> P (Iex_Binop op a1 a2))
  (Hunop : forall op a, P a -> P (Iex_Unop op a)) (Hload : forall e ty a, P a -> P (Iex_Load e ty a))
  (Hconst : forall con, P (Iex_Const con)) (Hite : forall c t f, P c -> P t -> P f -> P (Iex_ITE c t f))
  (Hccall : forall cee ty l, Forall P l -> P (Iex_CCall cee ty l)) (Hvecret : P Iex_VECRET) (Hgsptr : P Iex_GSPTR).

Fixpoint IRExpr_tree_ind (e : IRExpr) : P e :=
  let fix all (l : list IRExpr) : Forall P l :=
    match l with
    | [] => List.Forall_nil P
    | a :: l => List.Forall_cons P a l (IRExpr_tree_ind a) (all l)
    end in
  match e with
  | Iex_NULL => Hnull
  | Iex_Binder b => Hbinder b
  | Iex_Get o ty => Hget o ty
  | Iex_GetI d ix b => Hgeti d ix b (IRExpr_tree_ind ix)
  | Iex_RdTmp t => Htmp t
  | Iex_Qop op a1 a2 a3 a4 =>
      Hqop op a1 a2 a3 a4 (IRExpr_tree_ind a1) (IRExpr_tree_ind a2) (IRExpr_tree_ind a3) (IRExpr_tree_ind a4)
  | Iex_Triop op a1 a2 a3 => Htriop op a1 a2 a3 (IRExpr_tree_ind a1) (IRExpr_tree_ind a2) (IRExpr_tree_ind a3)
  | Iex_Binop op a1 a2 => Hbinop op a1 a2 (IRExpr_tree_ind a1) (IRExpr_tree_ind a2)
  | Iex_Unop op a => Hunop op a (IRExpr_tree_ind a)
  | Iex_Load e ty a => Hload e ty a (IRExpr_tree_ind a)
  | Iex_Const con => Hconst con
  | Iex_ITE c t f => Hite c t f (IRExpr_tree_ind c) (IRExpr_tree_ind t) (IRExpr_tree_ind f)
  | Iex_CCall cee ty l => Hccall cee ty l (all l)
  | Iex_VECRET => Hvecret
  | Iex_GSPTR => Hgsptr
  end.
End Induction.

Lemma forallb_weak {A} (f g : A -> bool) l :
  Forall (fun a => f a = true -> g a = true) l -> forallb f l = true -> forallb g l = true.
Proof. induction 1; simpl; [done|]. intros. bools; auto. Qed.

Section More.
Context `{PrimopTypes} `{PrimopArgs}.

(** More temporaries: types. *)
Lemma tc_expr_weak env env' gw e :
  env `prefix_of` env' -> tcExpr env gw e = true -> tcExpr env' gw e = true.
Proof.
  intros Hp. pose proof (expr_refines env env' Hp) as He.
  induction e using IRExpr_tree_ind; simpl; try done; intros;
    try destruct (argsOfPrimop op) as [[[t1 t2] t3] t4]; bools; eauto with sane.
  - apply (forallb_weak (fun a => negb (is_IRExpr_VECRET_or_GSPTR a) && tcExpr env gw a)); [|done].
    eapply Forall_impl; [done|]. simpl. intros a Ha Hc. bools; auto.
  - apply (forallb_weak (fun a => not_type (typeOfIRExpr env a) Ity_I1)); [|done]. apply Forall_true. intros a Ha. eauto with sane.
Qed.

(** More temporaries: definitions. *)
Lemma use_expr_weak n n' c c' e :
  covers n n' c c' -> useBeforeDef_Expr n c e = true -> useBeforeDef_Expr n' c' e = true.
Proof.
  intros Hc. induction e using IRExpr_tree_ind; simpl; try done; intros; bools; auto.
  - by apply (use_atom n n' c c' Hc (Iex_RdTmp t)).
  - eapply forallb_weak; [|done]. eapply Forall_impl; [done|]. simpl. intros a Ha Hu. bools; auto.
Qed.

(** * The block that is built *)

(** Everything in the block passes, and [c] counts its definitions. *)
Record built (gw : IRType) (c : counts) (s : IRSB) : Prop := mkBuilt {
  built_flat : forallb (entry isFlatIRStmt) (stmts s) = true;
  built_typed : forallb (entry (tcStmt (tyenv s) gw)) (stmts s) = true;
  built_defs : count_defs (next_temp s) (stmts s) (fun _ => 0) = Some c;
  built_fresh t : next_temp s <= t -> c t = 0;
}.

(** A later state of it: the temporaries that were there are as they were. *)
Record later (c : counts) (s : IRSB) (c' : counts) (s' : IRSB) : Prop := mkLater {
  later_types : tyenv s `prefix_of` tyenv s';
  later_counts t : t < next_temp s -> c' t = c t;
}.

Lemma later_refl c s : later c s c s.
Proof. by split. Qed.

Lemma later_temps c s c' s' : later c s c' s' -> next_temp s <= next_temp s'.
Proof. intros [Ht _]. apply prefix_length in Ht. unfold next_temp. lia. Qed.

Lemma later_trans c1 s1 c2 s2 c3 s3 : later c1 s1 c2 s2 -> later c2 s2 c3 s3 -> later c1 s1 c3 s3.
Proof.
  intros H12 H23. pose proof (later_temps _ _ _ _ H12). destruct H12 as [T12 C12], H23 as [T23 C23].
  split; [by etransitivity|]. intros t Hlt. rewrite C23, C12; lia.
Qed.

Lemma later_covers c s c' s' : later c s c' s' -> covers (next_temp s) (next_temp s') c c'.
Proof. intros Hl. split; [by eapply later_temps|]. intros t Ht. destruct Hl as [_ Hc]. rewrite Hc; lia. Qed.

(** An expression that passes where it stands. *)
Definition fine (gw : IRType) (c : counts) (s : IRSB) (e : IRExpr) (ty : IRType) : Prop :=
  typeOfIRExpr (tyenv s) e = Some ty /\ tcExpr (tyenv s) gw e = true /\
  useBeforeDef_Expr (next_temp s) c e = true.

Lemma fine_later gw c s c' s' e ty : later c s c' s' -> fine gw c s e ty -> fine gw c' s' e ty.
Proof.
  intros Hl (Ht & Hc & Hu). pose proof (later_types _ _ _ _ Hl) as Hp. split_and!.
  - by eapply expr_refines.
  - by eapply tc_expr_weak.
  - eapply use_expr_weak; [by eapply later_covers|done].
Qed.

Lemma built_temp gw c s ty : built gw c s -> built gw c (add_temp ty s) /\ later c s c (add_temp ty s).
Proof.
  intros [Hf Ht Hd Hz]. assert (next_temp (add_temp ty s) = next_temp s + 1) as Hn.
  { unfold next_temp. simpl. rewrite length_app. simpl. lia. }
  split; split; try done.
  - simpl. clear -Hf Ht. induction (stmts s) as [|[st|] l IH]; try done. simpl in *. bools; auto.
    eapply tc_stmt_weak; [by apply prefix_app_r|done..].
  - rewrite Hn. eapply count_defs_more; [|done..]. lia.
  - intros t Hle. apply Hz. lia.
  - simpl. by apply prefix_app_r.
Qed.

Lemma assigned_below n st c c1 t :
  assignedOnce_Stmt n st c = Some c1 -> n <= t -> c1 t = c t.
Proof. intros Ha Hle. destruct (assigned_same n n st c c c1) as (c1' & Ha' & _ & Hb); [lia|done|done|]. simplify_eq. by apply Hb. Qed.

Lemma built_stmt gw c c1 s st :
  built gw c s -> isFlatIRStmt st = true -> tcStmt (tyenv s) gw st = true -> useBeforeDef_Stmt (next_temp s) c st = true ->
  assignedOnce_Stmt (next_temp s) st c = Some c1 -> built gw c1 (add_stmt st s).
Proof.
  intros [Hf Ht Hd Hz] Hfl Htc Hu Ha. split; simpl.
  - rewrite forallb_app, Hf. simpl. by rewrite Hfl.
  - rewrite forallb_app, Ht. simpl. by rewrite Htc.
  - unfold next_temp in *. simpl. rewrite count_defs_app, Hd. simpl. by rewrite Hu, Ha.
  - intros t Hle. unfold next_temp in *. simpl in Hle. rewrite (assigned_below _ _ _ _ _ Ha) by done. by apply Hz.
Qed.

(** * Computations that add to the block *)

(** The computation succeeds, what it adds passes, and its result is [R]. *)
Definition yields {A} (gw : IRType) (c : counts) (s : IRSB) (m : FM A) (R : A -> counts -> IRSB -> Prop) : Prop :=
  exists x s1 c1, m s = Ok x s1 /\ built gw c1 s1 /\ later c s c1 s1 /\ R x c1 s1.

(** The same from every later state. *)
Definition yields_later {A} (gw : IRType) (c : counts) (s : IRSB) (m : FM A) (R : A -> counts -> IRSB -> Prop) : Prop :=
  forall c' s', later c s c' s' -> built gw c' s' -> yields gw c' s' m R.

(** A property of a result that later additions do not change. *)
Definition lasting {A} (R : A -> counts -> IRSB -> Prop) : Prop :=
  forall x c s c' s', later c s c' s' -> R x c s -> R x c' s'.

(** An atom that passes. *)
Definition atom_of (gw ty : IRType) (a : IRExpr) (c : counts) (s : IRSB) : Prop := isIRAtom a = true /\ fine gw c s a ty.

Lemma atom_of_lasting gw ty : lasting (atom_of gw ty).
Proof. intros a c s c' s' Hl [Ha Hf]. split; [done|by eapply fine_later]. Qed.

Lemma yields_bind {A B} gw c s (m : FM A) (k : A -> FM B) R Q :
  yields gw c s m R ->
  (forall x c1 s1, later c s c1 s1 -> built gw c1 s1 -> R x c1 s1 -> yields gw c1 s1 (k x) Q) ->
  yields gw c s (x <- m ;; k x) Q.
Proof.
  intros (x & s1 & c1 & Heq & Hb & Hl & Hr) Hk. destruct (Hk x c1 s1 Hl Hb Hr) as (y & s2 & c2 & Heq2 & Hb2 & Hl2 & Hq).
  exists y, s2, c2. rewrite (bind_ok _ _ _ _ _ Heq). split_and!; try done. by eapply later_trans.
Qed.

Lemma yields_ret {A} gw c s (x : A) (R : A -> counts -> IRSB -> Prop) : built gw c s -> R x c s -> yields gw c s (retM x) R.
Proof. intros Hb Hr. exists x, s, c. by split_and!. Qed.

Lemma yields_weaken {A} gw c s c0 s0 (m : FM A) R : later c0 s0 c s -> yields_later gw c0 s0 m R -> yields_later gw c s m R.
Proof. intros Hl Hm c' s' Hl' Hb. apply Hm; [by eapply later_trans|done]. Qed.

(** Computations in any order: each result is [R] of its own parameter. *)
Lemma yields_in_order {A B} gw (R : B -> A -> counts -> IRSB -> Prop) n : (forall b, lasting (R b)) ->
  forall o (ms : list (FM A)) bs c s, length ms = n -> built gw c s -> Forall2 (fun m b => yields_later gw c s m (R b)) ms bs ->
  yields gw c s (in_order n o ms) (fun l c s => Forall2 (fun b x => R b x c s) bs l).
Proof.
  intros HL. induction n as [|n IH]; intros o ms bs c s Hn Hb Hms.
  { destruct ms; [|done]. inversion Hms. by apply yields_ret. }
  cbn [in_order]. set (i := Nat.modulo (hd 0%nat o) (length ms)).
  assert (i < length ms)%nat as Hi by (apply Nat.mod_upper_bound; lia).
  destruct (lookup_lt_is_Some_2 ms i Hi) as [m Hm]. destruct (Forall2_lookup_l _ _ _ _ _ Hms Hm) as (b & Hbs & Hy).
  eapply yields_bind; [rewrite Hm; by apply (yields_ret _ _ _ m (fun x _ _ => x = m))|]. intros ? c0 s0 Hl0 Hb0 ->.
  eapply yields_bind; [by apply Hy|]. intros x c1 s1 Hl1 Hb1 HR.
  eapply yields_bind; [apply (IH (tl o) (delete i ms) (delete i bs))|].
  - rewrite length_delete by done. lia.
  - done.
  - apply Forall2_delete. eapply Forall2_impl; [exact Hms|]. intros m' b' Hy'. eapply yields_weaken; [|exact Hy'].
    by eapply later_trans.
  - intros l c2 s2 Hl2 Hb2 HRs. apply yields_ret; [done|]. apply lookup_lt_Some in Hbs as Hib.
    rewrite <-(take_drop_middle bs i b Hbs). rewrite delete_take_drop in HRs.
    apply Forall2_app_inv_l in HRs as (l1 & l2 & H1 & H2 & ->). pose proof (Forall2_length _ _ _ H1) as Hl.
    rewrite length_take in Hl. rewrite take_app_length', drop_app_length' by lia. apply Forall2_app; [done|].
    constructor; [by eapply HL|done].
Qed.

Lemma evaluate_later {A B} ord gw c s e (R : B -> A -> counts -> IRSB -> Prop) ms bs :
  (forall b, lasting (R b)) -> Forall2 (fun m b => yields_later gw c s m (R b)) ms bs ->
  yields_later gw c s (evaluate ord e ms) (fun l c s => Forall2 (fun b x => R b x c s) bs l).
Proof.
  intros HL Hms c' s' Hl Hb. unfold evaluate. eapply (yields_bind _ _ _ _ _ (fun _ _ _ => True));
    [by exists (ord e s'), s', c'|]. intros o c1 s1 Hl1 Hb1 _. apply yields_in_order; [done..|].
  eapply Forall2_impl; [exact Hms|]. intros m b Hy. eapply yields_weaken; [|exact Hy]. by eapply later_trans.
Qed.

(** The arguments of a call, each related to what it becomes. *)
Lemma yields_args gw (f : IRExpr -> FM IRExpr) (R : IRExpr -> IRExpr -> counts -> IRSB -> Prop) l :
  forall c s, built gw c s -> (forall a, lasting (R a)) -> Forall (fun a => yields_later gw c s (f a) (R a)) l ->
  yields gw c s (flat_args f l) (fun l' c s => Forall2 (fun a a' => R a a' c s) l l').
Proof.
  induction l as [|a l IH]; intros c s Hb HL Hf; [by apply yields_ret|]. inversion Hf as [|? ? Ha Hl]; subst. simpl.
  eapply yields_bind; [apply Ha; [apply later_refl|done]|]. intros a' c1 s1 Hl1 Hb1 HR.
  eapply yields_bind; [apply IH; try done|].
  { eapply Forall_impl; [exact Hl|]. intros b Hy. by eapply yields_weaken. }
  intros l' c2 s2 Hl2 Hb2 HRs. apply yields_ret; [done|]. constructor; [by eapply HL|done].
Qed.

(** The assignment of a temporary that is declared and has not been assigned. *)
Lemma assign_run gw c s t1 e ty :
  built gw c s -> typeOfIRTemp (tyenv s) t1 = Some ty -> c t1 = 0 -> flat_rhs e = true -> fine gw c s e ty ->
  exists s1 c1, flat_assign t1 e s = Ok (Iex_RdTmp t1) s1 /\ built gw c1 s1 /\ tyenv s1 = tyenv s /\
    (forall t, t <> t1 -> c1 t = c t) /\ atom_of gw ty (Iex_RdTmp t1) c1 s1.
Proof.
  intros Hb Ht1 Hz Hf (Ht & Hc & Hu).
  assert (0 <= t1 < next_temp s) as Hr.
  { unfold typeOfIRTemp in Ht1. destruct (Z.ltb_spec t1 0); [done|]. apply lookup_lt_Some in Ht1. unfold next_temp. lia. }
  destruct (assigned_temp_ok (next_temp s) t1 c Hr ltac:(lia)) as (c1 & Ha).
  exists (add_stmt (Ist_WrTmp t1 e) s), c1. split_and!; try done.
  - eapply built_stmt; try done. simpl. rewrite Hc, Ht1, Ht. simpl. by rewrite bool_decide_true.
  - apply assigned_temp in Ha as (_ & _ & Hc1). intros t Hne. rewrite Hc1. by rewrite (proj2 (Z.eqb_neq _ _)).
  - apply assigned_temp in Ha as (_ & _ & Hc1). do 3 (split; [done|]). simpl. unfold useBeforeDef_Temp, next_temp in *. simpl.
    rewrite Hc1, Z.eqb_refl. lia.
Qed.

Lemma new_temp_type ty s : typeOfIRTemp (tyenv (add_temp ty s)) (next_temp s) = Some ty.
Proof.
  unfold typeOfIRTemp, next_temp. simpl. rewrite (proj2 (Z.ltb_ge _ _)), Nat2Z.id by lia. by rewrite list_lookup_middle.
Qed.

(** A temporary that is declared, the code for its value, and its assignment. *)
Lemma yields_node {A} gw c s ty (m : FM A) (k : Z -> A -> FM IRExpr) R :
  built gw c s -> yields_later gw c s m R ->
  (forall x c1 s1, R x c1 s1 -> exists e, k (next_temp s) x = flat_assign (next_temp s) e /\ flat_rhs e = true /\ fine gw c1 s1 e ty) ->
  yields gw c s (t1 <- flat_temp ty ;; x <- m ;; k t1 x) (atom_of gw ty).
Proof.
  intros Hb Hm Hk. destruct (built_temp gw c s ty Hb) as [Hb0 Hl0]. pose proof Hb as [_ _ _ Hz].
  destruct (Hm _ _ Hl0 Hb0) as (x & s1 & c1 & Heq & Hb1 & Hl1 & HR). destruct (Hk _ _ _ HR) as (e & Hke & Hfl & Hfine).
  pose proof (new_temp_type ty s) as Hty. apply (temp_refines _ _ (later_types _ _ _ _ Hl1)) in Hty.
  assert (next_temp (add_temp ty s) = next_temp s + 1) as Hnt.
  { unfold next_temp. simpl. rewrite length_app. simpl. lia. }
  destruct (assign_run gw c1 s1 (next_temp s) e ty) as (s2 & c2 & Heq2 & Hb2 & Htys & Hc2 & Hat); try done.
  { destruct Hl1 as [_ Hc1]. rewrite Hc1 by lia. apply Hz. lia. }
  exists (Iex_RdTmp (next_temp s)), s2, c2. split_and!; try done.
  - change ((x <- m ;; k (next_temp s) x) (add_temp ty s) = Ok (Iex_RdTmp (next_temp s)) s2).
    by rewrite (bind_ok _ _ _ _ _ Heq), Hke.
  - pose proof (later_trans _ _ _ _ _ _ Hl0 Hl1) as [Hp Hc1]. split; [by rewrite Htys|].
    intros t Hlt. rewrite Hc2 by lia. by apply Hc1.
Qed.

(** The same for code that comes before the declaration. *)
Lemma yields_assign gw c s e ty :
  built gw c s -> flat_rhs e = true -> fine gw c s e ty ->
  yields gw c s (t1 <- flat_temp ty ;; flat_assign t1 e) (atom_of gw ty).
Proof.
  intros Hb Hf He. apply (yields_node gw c s ty (retM tt) (fun t1 _ => flat_assign t1 e) (fun _ c s => fine gw c s e ty)); [done| |].
  - intros c' s' Hl Hb'. apply yields_ret; [done|by eapply fine_later].
  - intros _ c1 s1 Hfine. by exists e.
Qed.

(** * Expressions *)

(** Flattening a fine expression gives an atom of its type. *)
Definition flattens (ord : order) (gw : IRType) (e : IRExpr) : Prop :=
  forall c s ty, built gw c s -> fine gw c s e ty -> yields gw c s (flatten_Expr ord e) (atom_of gw ty).

Lemma flattens_later ord gw e c s ty :
  flattens ord gw e -> fine gw c s e ty -> yields_later gw c s (flatten_Expr ord e) (atom_of gw ty).
Proof. intros He Hf c' s' Hl Hb. apply He; [done|by eapply fine_later]. Qed.

(** The type of the expression is computed first. *)
Lemma yields_typed {A} gw c s e ty (k : IRType -> FM A) R :
  typeOfIRExpr (tyenv s) e = Some ty -> yields gw c s (k ty) R ->
  yields gw c s (env <- getsM tyenv ;; ty <- liftM AssertFail (typeOfIRExpr env e) ;; k ty) R.
Proof. intros Ht (x & s1 & c1 & Heq & Hr). exists x, s1, c1. split; [|done]. step. rewrite Ht. by step. Qed.

(** The parts of a type check of an operation. *)
Lemma has_type_fine gw c s e ty :
  has_type (typeOfIRExpr (tyenv s) e) ty = true -> tcExpr (tyenv s) gw e = true ->
  useBeforeDef_Expr (next_temp s) c e = true -> fine gw c s e ty.
Proof. intros Ht Hc Hu. apply has_type_iff in Ht. done. Qed.

Lemma flatten_atom ord e s : isIRAtom e = true -> typeOfIRExpr (tyenv s) e <> None -> typeOfIRExpr (tyenv s) e <> Some Ity_F64 ->
  flatten_Expr ord e s = Ok e s.
Proof.
  intros Ha Ht Hf. destruct (typeOfIRExpr (tyenv s) e) as [ty|] eqn:He; [|done].
  destruct e; try done; cbn [flatten_Expr]; step; rewrite He; step; [done|]. by destruct con.
Qed.

#[local] Hint Resolve atom_of_lasting : flat.

(** Take apart that results pass. *)
Ltac parts :=
  repeat match goal with
  | H : _ /\ _ |- _ => destruct H
  | H : atom_of _ _ _ _ _ |- _ => destruct H as [? (? & ? & ?)]
  | H : Forall2 _ [] _ |- _ => inversion H; clear H; subst
  | H : Forall2 _ (_ :: _) _ |- _ => inversion H; clear H; subst
  end.

(** A result passes when its parts do. *)
Ltac finish :=
  eexists; split; [reflexivity|]; split; [simpl; bools; done|];
  split_and!; simpl;
  repeat match goal with H : argsOfPrimop _ = _ |- _ => rewrite H | H : typeOfIRExpr _ _ = Some _ |- _ => rewrite H
                       | H : tcExpr _ _ _ = true |- _ => rewrite H | H : useBeforeDef_Expr _ _ _ = true |- _ => rewrite H end;
  simpl; rewrite ?bool_decide_true by done; bools; done.

(** What is known of an expression that passes, and its type. *)
Ltac open_fine :=
  let c := fresh "c" in let s := fresh "s" in let ty := fresh "ty" in
  let Hb := fresh "Hb" in let Ht := fresh "Ht" in let Hc := fresh "Hc" in let Hu := fresh "Hu" in
  intros c s ty Hb (Ht & Hc & Hu); simpl in Ht, Hc, Hu;
  try match type of Hc with context [argsOfPrimop ?op] =>
    let E := fresh "Hop" in destruct (argsOfPrimop op) as [[[? ?] ?] ?] eqn:E end;
  bools; cbn [flatten_Expr]; eapply yields_typed; [done|].

(** The code for the subexpressions. *)
Ltac subs :=
  first [eapply (evaluate_later _ _ _ _ _ (atom_of _)); [auto with flat|repeat constructor; subs] | eapply flattens_later; [done|first [done|by apply has_type_fine]]].

Lemma flatten_unop ord gw op a : flattens ord gw a -> flattens ord gw (Iex_Unop op a).
Proof.
  intros IH. open_fine. eapply (yields_node _ _ _ _ (flatten_Expr ord a)); [done|subs|].
  intros x c1 s1 HR. parts. finish.
Qed.

Lemma flatten_load ord gw e lty a : flattens ord gw a -> flattens ord gw (Iex_Load e lty a).
Proof.
  intros IH. open_fine. eapply (yields_node _ _ _ _ (flatten_Expr ord a)); [done|subs|].
  intros x c1 s1 HR. parts. finish.
Qed.

Lemma flatten_geti ord gw d ix b : flattens ord gw ix -> flattens ord gw (Iex_GetI d ix b).
Proof.
  intros IH. open_fine. eapply (yields_node _ _ _ _ (flatten_Expr ord ix)); [done|subs|].
  intros x c1 s1 HR. parts. finish.
Qed.

Lemma flatten_binop ord gw op a1 a2 : flattens ord gw a1 -> flattens ord gw a2 -> flattens ord gw (Iex_Binop op a1 a2).
Proof.
  intros IH1 IH2. open_fine. eapply (yields_node _ _ _ _ (evaluate _ _ _)); [done|subs|].
  intros l c1 s1 HR. cbv beta in HR. parts. finish.
Qed.

Lemma flatten_triop ord gw op a1 a2 a3 :
  flattens ord gw a1 -> flattens ord gw a2 -> flattens ord gw a3 -> flattens ord gw (Iex_Triop op a1 a2 a3).
Proof.
  intros IH1 IH2 IH3. open_fine. eapply (yields_node _ _ _ _ (evaluate _ _ _)); [done|subs|].
  intros l c1 s1 HR. cbv beta in HR. parts. finish.
Qed.

Lemma flatten_qop ord gw op a1 a2 a3 a4 :
  flattens ord gw a1 -> flattens ord gw a2 -> flattens ord gw a3 -> flattens ord gw a4 ->
  flattens ord gw (Iex_Qop op a1 a2 a3 a4).
Proof.
  intros IH1 IH2 IH3 IH4. open_fine. eapply (yields_node _ _ _ _ (evaluate _ _ _)); [done|subs|].
  intros l c1 s1 HR. cbv beta in HR. parts. finish.
Qed.

Lemma flatten_ite ord gw e1 e2 e3 :
  flattens ord gw e1 -> flattens ord gw e2 -> flattens ord gw e3 -> flattens ord gw (Iex_ITE e1 e2 e3).
Proof.
  intros IH1 IH2 IH3. open_fine.
  match goal with H : same_type _ _ = true |- _ => apply same_type_iff in H as (t & Ht2 & Ht3) end. simplify_eq.
  assert (fine gw c s e2 ty /\ fine gw c s e3 ty) as [Hf2 Hf3] by done.
  eapply (yields_node _ _ _ _ (evaluate _ _ _)); [done|subs|].
  intros l c1 s1 HR. cbv beta in HR. parts. finish.
Qed.

Lemma flatten_get ord gw o gty : flattens ord gw (Iex_Get o gty).
Proof. open_fine. by apply yields_assign. Qed.

Lemma flatten_const ord gw con : flattens ord gw (Iex_Const con).
Proof.
  open_fine. simplify_eq. destruct con; try (by apply yields_ret); by apply yields_assign.
Qed.

(** An argument becomes an atom that is no bit. *)
Definition arg_of (gw : IRType) (_ a' : IRExpr) (c : counts) (s : IRSB) : Prop :=
  exists ty, ty <> Ity_I1 /\ atom_of gw ty a' c s.

Lemma arg_of_lasting gw a : lasting (arg_of gw a).
Proof. intros x c s c' s' Hl (ty & Hb & Ha). exists ty. split; [done|]. by eapply atom_of_lasting. Qed.

Lemma arg_later ord gw a c s :
  flattens ord gw a -> not_type (typeOfIRExpr (tyenv s) a) Ity_I1 = true -> tcExpr (tyenv s) gw a = true ->
  useBeforeDef_Expr (next_temp s) c a = true -> yields_later gw c s (flatten_Expr ord a) (arg_of gw a).
Proof.
  intros Ha Ht Hc Hu c' s' Hl Hb. apply not_type_some in Ht as (ty & Ht & Hbit).
  destruct (flattens_later ord gw a c s ty Ha) with (c' := c') (s' := s') as (x & s1 & c1 & Heq & Hb1 & Hl1 & HR); try done.
  exists x, s1, c1. split_and!; try done. by exists ty.
Qed.

Lemma args_fine gw c s l l' : Forall2 (fun a a' => arg_of gw a a' c s) l l' ->
  countArgs l' = countArgs l /\ forallb isIRAtom l' = true /\
  forallb (fun a => negb (is_IRExpr_VECRET_or_GSPTR a) && tcExpr (tyenv s) gw a) l' = true /\
  forallb (fun a => not_type (typeOfIRExpr (tyenv s) a) Ity_I1) l' = true /\
  forallb (fun a => negb (is_IRExpr_VECRET_or_GSPTR a) && useBeforeDef_Expr (next_temp s) c a) l' = true.
Proof.
  unfold countArgs.
  induction 1 as [|a a' l l' (ty & Hbit & Hat & Ht & Hc & Hu) Hl (A & B & D & E & F)]; [done|]. simpl.
  assert (is_IRExpr_VECRET_or_GSPTR a' = false) as -> by (by destruct a').
  rewrite Hat, Ht, Hc, Hu, B, D, E, F. simpl. rewrite bool_decide_false by done. split_and!; try done. lia.
Qed.

Lemma flatten_ccall ord gw cee cty l : Forall (flattens ord gw) l -> flattens ord gw (Iex_CCall cee cty l).
Proof.
  intros IH. open_fine. simplify_eq.
  eapply yields_bind; [apply (yields_args gw (flatten_Expr ord) (arg_of gw)); [done|apply arg_of_lasting|]|].
  - apply Forall_forall. intros a Ha. eapply Forall_forall in IH; [|exact Ha]. apply list_elem_of_In in Ha.
    repeat match goal with H : forallb _ l = true |- _ => apply (proj1 (forallb_forall _ _)) with a in H; [|done] end.
    simpl in *. bools. by apply arg_later.
  - intros l' c1 s1 Hl Hb1 HR. destruct (args_fine _ _ _ _ _ HR) as (A & B & D & E & F).
    apply yields_assign; [done|done|]. split_and!; simpl; try done. rewrite A, D, E. by bools.
Qed.

Lemma flatten_expr ord gw e : flattens ord gw e.
Proof.
  induction e using IRExpr_tree_ind; try (by intros c s ty Hb (_ & Hc & _)).
  - apply flatten_get.
  - by apply flatten_geti.
  - open_fine. by apply yields_ret.
  - by apply flatten_qop.
  - by apply flatten_triop.
  - by apply flatten_binop.
  - by apply flatten_unop.
  - by apply flatten_load.
  - apply flatten_const.
  - by apply flatten_ite.
  - by apply flatten_ccall.
Qed.
End More.
