(* ===== verification/IRFlatStmt.v ===== *)
(** The statements of a block that passes the sanity check, flattened one after the other. *)
From S2P Require Import Prelude IR IRSane IRSaneSpec IRSsa IRFlat IRFlatSpec.
Local Open Scope Z_scope.
Local Open Scope pm_scope.

(** An atom whose value is plausible. *)
Definition plain_atom (e : IRExpr) : bool :=
  match e with Iex_RdTmp _ => true | Iex_Const con => saneIRConst con | _ => false end.

(** The expressions of a statement that the check does not look into: their types or their definitions
    are not checked. *)
Definition unchecked (st : IRStmt) : list IRExpr :=
  match st with
  | Ist_AbiHint base _ nia => [base; nia]
  | Ist_CAS cas => [expdLo cas; dataLo cas] ++ option_list (expdHi cas) ++ option_list (dataHi cas)
  | Ist_LLSC _ _ a storedata => a :: option_list storedata
  | Ist_Dirty d => guard d :: option_list (mAddr d) ++ args d
  | _ => []
  end.

Definition plain_stmt (st : IRStmt) : bool :=
  forallb (fun e => plain_atom e || is_IRExpr_VECRET_or_GSPTR e) (unchecked st).

(** Bring what is known of atoms to the current state. *)
Ltac carry :=
  repeat match goal with
  | Hl : later ?c ?s _ _, H : atom_of _ _ _ ?c ?s |- _ =>
      lazymatch type of Hl with later _ _ c s => fail | _ => apply (atom_of_lasting _ _ _ _ _ _ _ Hl) in H end
  end.

(** Take apart that results pass. *)
Ltac parts :=
  repeat match goal with
  | H : _ /\ _ |- _ => destruct H
  | H : atom_of _ _ _ _ _ |- _ => destruct H as [? (? & ? & ?)]
  end.

(** A flattened statement passes when its parts do. *)
Ltac passes_flat :=
  parts; simpl; unfold tc_cas; simpl;
  repeat match goal with H : typeOfIRExpr _ _ = Some _ |- _ => rewrite H | H : tcExpr _ _ _ = true |- _ => rewrite H
    | H : useBeforeDef_Expr _ _ _ = true |- _ => rewrite H | H : isIRAtom _ = true |- _ => rewrite H
    | H : typeOfIRTemp _ _ = Some _ |- _ => rewrite H | H : (_ =? IRTemp_INVALID) = _ |- _ => rewrite H end;
  simpl; bools; rewrite ?bool_decide_true by done; rewrite ?bool_decide_false by done; try done.

#[local] Arguments flat_there _ _ : simpl never.
#[local] Arguments assignedOnce_Stmt _ _ _ : simpl never.

Section Statements.
Context `{PrimopTypes} `{PrimopArgs} (ord : order) (gw : IRType) (bb : IRSB).

Local Abbreviation n0 := (next_temp bb).

(** The computation ends in a block that passes and goes with the original one, whose counters are
    [co] by then. *)
Definition ends (co : counts) (c : counts) (s : IRSB) (m : FM unit) : Prop :=
  exists s1 c1, m s = Ok tt s1 /\ built gw c1 s1 /\ later co bb c1 s1.

Lemma ends_bind {A} co c s (m : FM A) (k : A -> FM unit) R :
  yields gw c s m R ->
  (forall x c1 s1, later c s c1 s1 -> built gw c1 s1 -> R x c1 s1 -> ends co c1 s1 (k x)) ->
  ends co c s (x <- m ;; k x).
Proof.
  intros (x & s1 & c1 & Heq & Hb & Hl & HR) Hk. destruct (Hk x c1 s1 Hl Hb HR) as (s2 & c2 & Heq2 & Hr).
  exists s2, c2. by rewrite (bind_ok _ _ _ _ _ Heq).
Qed.

Lemma ends_stmt co co1 c s st st' :
  later co bb c s -> built gw c s -> assignedOnce_Stmt n0 st co = Some co1 ->
  (forall n c, assignedOnce_Stmt n st' c = assignedOnce_Stmt n st c) ->
  isFlatIRStmt st' = true -> tcStmt (tyenv s) gw st' = true -> useBeforeDef_Stmt (next_temp s) c st' = true ->
  ends co1 c s (flat_stmt st').
Proof.
  intros Hl Hb Ha Hst Hf Ht Hu. pose proof (later_temps _ _ _ _ Hl) as Hn. destruct Hl as [Hp Hc].
  destruct (assigned_same n0 (next_temp s) st co c co1 Hn Hc Ha) as (c1 & Ha1 & Hb1 & _).
  exists (add_stmt st' s), c1. split; [done|]. split; [|by split].
  eapply built_stmt; try done. by rewrite Hst.
Qed.

(** An expression of the original block, flattened. *)
Lemma ends_expr co co' c s e ty k :
  later co bb c s -> built gw c s -> fine gw co bb e ty ->
  (forall x c1 s1, later c s c1 s1 -> later co bb c1 s1 -> built gw c1 s1 -> atom_of gw ty x c1 s1 -> ends co' c1 s1 (k x)) ->
  ends co' c s (x <- flatten_Expr ord e ;; k x).
Proof.
  intros Hl Hb He Hk. eapply ends_bind; [apply flatten_expr; [done|by eapply fine_later]|].
  intros x c1 s1 Hl1 Hb1 HR. apply Hk; try done. by eapply later_trans.
Qed.

(** The same for an expression that may be missing. *)
Lemma ends_some co co' c s e ty k :
  later co bb c s -> built gw c s -> fine gw co bb e ty ->
  (forall x c1 s1, later c s c1 s1 -> later co bb c1 s1 -> built gw c1 s1 -> atom_of gw ty x c1 s1 -> ends co' c1 s1 (k (Some x))) ->
  ends co' c s (x <- flat_there (flatten_Expr ord) (Some e) ;; k x).
Proof.
  intros Hl Hb He Hk.
  destruct (ends_expr co co' c s e ty (fun x => k (Some x)) Hl Hb He Hk) as (s1 & c1 & Heq & Hr).
  exists s1, c1. split; [|done]. rewrite <-Heq. unfold flat_there, bindM. by destruct (flatten_Expr ord e s).
Qed.

Lemma ends_none co' c s k : ends co' c s (k None) -> ends co' c s (x <- flat_there (flatten_Expr ord) None ;; k x).
Proof. done. Qed.

(** ** Each statement *)

(** Flatten the next expression. *)
Ltac flat_next :=
  lazymatch goal with
  | |- ends _ _ _ (bindM (flat_there _ _) _) => eapply ends_some
  | |- _ => eapply ends_expr
  end; [eassumption|eassumption|first [eassumption|by split_and!]|];
  let x := fresh "x" in let c1 := fresh "c" in let s1 := fresh "s" in let Hl := fresh "Hlat" in
  let Hb := fresh "Hblt" in let HR := fresh "HR" in
  intros x c1 s1 ? Hl Hb HR; carry.

(** Bring the types of temporaries to the current state. *)
Ltac temps :=
  repeat match goal with
  | Hl : later _ bb _ ?s, H : typeOfIRTemp (tyenv bb) _ = Some _ |- ends _ _ ?s _ =>
      apply (temp_refines _ _ (later_types _ _ _ _ Hl)) in H
  end.

(** Add the flattened statement. *)
Ltac flat_done := temps; eapply ends_stmt; try eassumption; [done|passes_flat..].

Lemma plain_fine co e ty :
  plain_atom e || is_IRExpr_VECRET_or_GSPTR e = true -> typeOfIRExpr (tyenv bb) e = Some ty ->
  useBeforeDef_Expr n0 co e = true -> fine gw co bb e ty.
Proof. intros Hp Ht Hu. split_and!; try done. destruct e; try done. simpl in *. by rewrite orb_false_r in Hp. Qed.

Section Each.
Context (co co1 c : counts) (s : IRSB) (Hl : later co bb c s) (Hb : built gw c s).

Definition flattened (st : IRStmt) : Prop :=
  tcStmt (tyenv bb) gw st = true -> useBeforeDef_Stmt n0 co st = true -> assignedOnce_Stmt n0 st co = Some co1 ->
  plain_stmt st = true -> ends co1 c s (flatten_Stmt ord st).

Ltac open := intros Ht Hu Ha Hpl; simpl in Ht, Hu; types; cbn [flatten_Stmt].

Lemma flattened_store e a data : flattened (Ist_Store e a data).
Proof. open. do 2 flat_next. flat_done. Qed.

Lemma flattened_storeg sg : flattened (Ist_StoreG sg).
Proof. open. do 3 flat_next. flat_done. Qed.

Lemma flattened_puti d ix b data : flattened (Ist_PutI d ix b data).
Proof. open. simplify_eq. do 2 flat_next. flat_done. Qed.

Lemma flattened_exit g jk dst off : flattened (Ist_Exit g jk dst off).
Proof. open. flat_next. flat_done. Qed.

Lemma flattened_flush a fk : flattened (Ist_Flush a fk).
Proof. open. flat_next. flat_done. Qed.

Lemma flattened_loadg e cvt dst a alt g : flattened (Ist_LoadG e cvt dst a alt g).
Proof.
  open. destruct (typeOfIRLoadGOp cvt) as [[r ?]|] eqn:Hcvt; [|done]. types. simplify_eq. do 3 flat_next. flat_done.
  by rewrite Hcvt, bool_decide_true.
Qed.

Lemma flattened_hint base len nia : flattened (Ist_AbiHint base len nia).
Proof.
  open. unfold plain_stmt in Hpl. simpl in Hpl. bools.
  assert (fine gw co bb base gw /\ fine gw co bb nia gw) as [? ?] by (split; by apply plain_fine).
  do 2 flat_next. flat_done.
Qed.
(** A statement that is added as it is. *)
Lemma flattened_as_is st :
  isFlatIRStmt st = true -> flatten_Stmt ord st = flat_stmt st -> flattened st.
Proof.
  intros Hf Heq Ht Hu Ha _. rewrite Heq. pose proof (later_types _ _ _ _ Hl).
  eapply ends_stmt; try done; [by eapply tc_stmt_weak|]. eapply use_stmt; [by eapply later_covers|done..].
Qed.

Lemma flattened_put off data : flattened (Ist_Put off data).
Proof.
  destruct (isIRAtom data) eqn:Hat.
  - apply flattened_as_is; [done|]. simpl. by rewrite Hat.
  - open. rewrite Hat. flat_next. flat_done.
Qed.

Lemma isFlat_rhs e : isFlat e = true -> flat_rhs e = true.
Proof. by destruct e. Qed.

Lemma flattened_wrtmp t data : flattened (Ist_WrTmp t data).
Proof.
  destruct (isFlat data) eqn:Hfl.
  - apply flattened_as_is; [by apply isFlat_rhs|]. simpl. by rewrite Hfl.
  - open. rewrite Hfl. flat_next. flat_done. by destruct x0.
Qed.

Lemma flattened_llsc e r a storedata : flattened (Ist_LLSC e r a storedata).
Proof.
  open. unfold plain_stmt in Hpl. simpl in Hpl. bools.
  assert (fine gw co bb a gw) by (by apply plain_fine). flat_next.
  destruct storedata as [data|]; simpl in *; bools.
  - destruct (typeOfIRExpr (tyenv bb) data) as [ty|] eqn:Hty; [|done]. types.
    assert (fine gw co bb data ty) by (by apply plain_fine).
    flat_next. flat_done.
  - apply ends_none. destruct (typeOfIRTemp (tyenv bb) r) eqn:Hty; [|done]. flat_done.
Qed.

Lemma flattened_cas cas : flattened (Ist_CAS cas).
Proof.
  intros Ht Hu Ha Hpl. simpl in Ht, Hu. unfold tc_cas in Ht. unfold plain_stmt in Hpl. simpl in Hpl. rewrite forallb_app in Hpl.
  destruct cas as [oh ol e a eh el dh dl]. cbn [flatten_Stmt IR.oldHi IR.oldLo cas_end cas_addr expdHi expdLo dataHi dataLo] in *.
  types. simplify_eq. match goal with Hs : typeOfIRExpr (tyenv bb) el = Some ?t |- _ => rename t into ty, Hs into Hty end.
  assert (fine gw co bb el ty /\ fine gw co bb dl ty) as [? ?] by (split; by apply plain_fine).
  rewrite Hty in *. flat_next.
  destruct (oh =? IRTemp_INVALID) eqn:Hoh, eh as [eh|], dh as [dh|]; simpl in *; try done; types; simplify_eq.
  - apply ends_none. flat_next. apply ends_none. flat_next. flat_done.
  - match goal with Hs : typeOfIRExpr (tyenv bb) eh = Some ?t |- _ => assert (fine gw co bb eh t /\ fine gw co bb dh t) as [? ?] by (split; by apply plain_fine) end.
    do 4 flat_next. flat_done.
Qed.

(** ** Calls of helpers *)

(** An argument becomes an atom of its type, or is one of the special ones and is kept. *)
Definition dirty_arg (a a' : IRExpr) (c : counts) (s : IRSB) : Prop :=
  if is_IRExpr_VECRET_or_GSPTR a then a' = a
  else exists ty, typeOfIRExpr (tyenv bb) a = Some ty /\ atom_of gw ty a' c s.

Lemma dirty_arg_lasting a : lasting (dirty_arg a).
Proof.
  intros x c' s' c1 s1 Hl1. unfold dirty_arg. destruct (is_IRExpr_VECRET_or_GSPTR a); [done|].
  intros (ty & Ht & Ha). exists ty. split; [done|]. by eapply atom_of_lasting.
Qed.

Lemma plain_typed e :
  plain_atom e || is_IRExpr_VECRET_or_GSPTR e = true -> useBeforeDef_Expr n0 co e = true ->
  exists ty, fine gw co bb e ty.
Proof.
  intros Hp Hu. assert (exists ty, typeOfIRExpr (tyenv bb) e = Some ty) as (ty & Ht); [|exists ty; by apply plain_fine].
  destruct e; try done; simpl in *; [|by eexists]. unfold useBeforeDef_Temp, next_temp in Hu. bools.
  unfold typeOfIRTemp. rewrite (proj2 (Z.ltb_ge _ _)) by lia. apply lookup_lt_is_Some. lia.
Qed.

Lemma dirty_args_yield l c1 s1 :
  later co bb c1 s1 -> built gw c1 s1 -> forallb (fun a => is_IRExpr_VECRET_or_GSPTR a || useBeforeDef_Expr n0 co a) l = true ->
  forallb (fun e => plain_atom e || is_IRExpr_VECRET_or_GSPTR e) l = true ->
  yields gw c1 s1 (flat_args (fun a => if is_IRExpr_VECRET_or_GSPTR a then retM a else flatten_Expr ord a) l)
    (fun l' c s => Forall2 (fun a a' => dirty_arg a a' c s) l l').
Proof.
  intros Hl1 Hb1 Hu Hp. apply yields_args; [done|apply dirty_arg_lasting|]. apply Forall_forall. intros a Hin.
  apply list_elem_of_In in Hin. apply (proj1 (forallb_forall _ _)) with a in Hu, Hp; try done.
  intros c2 s2 Hl2 Hb2. unfold dirty_arg. destruct (is_IRExpr_VECRET_or_GSPTR a) eqn:Ha; [by apply yields_ret|].
  destruct (plain_typed a) as (ty & Hf); [by rewrite Ha|done|].
  destruct (flatten_expr ord gw a c2 s2 ty) as (x & s3 & c3 & Heq & Hb3 & Hl3 & HR); [done|by do 2 (eapply fine_later; [done|])|].
  exists x, s3, c3. split_and!; try done. exists ty. by destruct Hf.
Qed.

Lemma dirty_args_types l l' c1 s1 ret i v g n :
  Forall2 (fun a a' => dirty_arg a a' c1 s1) l l' ->
  tc_dirty_args (tyenv bb) ret i v g l = Some n -> tc_dirty_args (tyenv s1) ret i v g l' = Some n.
Proof.
  intros HR. revert i v g. induction HR as [|a a' l l' Ha HR IH]; intros i v g; [done|]. simpl.
  destruct (32 <=? i); [done|]. intros Hs. case_match eqn:Ht; [|done].
  unfold dirty_arg in Ha. destruct (is_IRExpr_VECRET_or_GSPTR a) eqn:Hsp.
  - subst a'. rewrite Hsp. simpl in *. rewrite Ht. by apply IH.
  - destruct Ha as (ty & Hty & Hat & Hf & _). rewrite Hty in Ht. rewrite Hf.
    destruct a; try done; destruct a'; try done; simpl in *; rewrite Ht; by apply IH.
Qed.

Lemma dirty_args_pass l l' c1 s1 : Forall2 (fun a a' => dirty_arg a a' c1 s1) l l' ->
  countArgs l' = countArgs l /\ forallb isIRAtom_or_VECRET_or_GSPTR l' = true /\
  forallb (fun a => is_IRExpr_VECRET_or_GSPTR a || useBeforeDef_Expr (next_temp s1) c1 a) l' = true.
Proof.
  unfold countArgs. induction 1 as [|a a' l l' Ha HR (A & B & D)]; [done|]. simpl.
  unfold isIRAtom_or_VECRET_or_GSPTR, dirty_arg in *. destruct (is_IRExpr_VECRET_or_GSPTR a) eqn:Hsp.
  - subst a'. rewrite Hsp, orb_true_r. simpl. split_and!; try done. lia.
  - destruct Ha as (ty & Hty & Hat & _ & _ & Hu). rewrite Hat, Hu, orb_true_r. simpl. split_and!; try done. lia.
Qed.

(** The memory that the helper accesses. *)
Lemma dirty_memory d :
  tc_dirty (tyenv bb) gw d = true ->
  match mFx d, mAddr d with
  | Ifx_None, None => retM None
  | Ifx_None, Some _ => stopM AssertFail
  | _, None => stopM NullDeref
  | _, Some a => e <- flatten_Expr ord a ;; retM (Some e)
  end = flat_there (flatten_Expr ord) (mAddr d).
Proof. unfold tc_dirty. intros Ht. bools. by destruct (mFx d), (mAddr d). Qed.

Lemma dirty_types d m l c1 s1 :
  later co bb c1 s1 -> isIRAtom (guard d) = true -> (is_Some m <-> is_Some (mAddr d)) ->
  Forall2 (fun a a' => dirty_arg a a' c1 s1) (args d) l -> tc_dirty (tyenv bb) gw d = true ->
  tc_dirty (tyenv s1) gw (mkIRDirty (cee d) (guard d) l (d_tmp d) (mFx d) m (mSize d) (fxState d)) = true.
Proof.
  intros Hl1 Hg Hm HR Ht. pose proof (later_types _ _ _ _ Hl1) as Hp.
  destruct (dirty_args_pass _ _ _ _ HR) as (Hlen & _ & _). unfold tc_dirty in *.
  cbn [cee guard args d_tmp mFx mAddr mSize fxState]. rewrite Hlen. apply andb_true_iff in Ht as [Ht Hret]. bools; try done.
  - destruct m, (mAddr d); try done; [by destruct (proj1 Hm)|by destruct (proj2 Hm)].
  - by eapply tc_atom.
  - eapply has_type_refines; [by apply expr_refines|done].
  - destruct (match d_tmp d with Some t => typeOfIRTemp (tyenv bb) t | None => Some Ity_INVALID end) as [ret|] eqn:Hr; [|done].
    assert (match d_tmp d with Some t => typeOfIRTemp (tyenv s1) t | None => Some Ity_INVALID end = Some ret) as ->.
    { destruct (d_tmp d); [by eapply temp_refines|done]. }
    bools; [done|]. destruct (tc_dirty_args (tyenv bb) ret 0 0 0 (args d)) as [n|] eqn:Hn; [|done].
    by rewrite (dirty_args_types _ _ _ _ _ _ _ _ _ HR Hn).
Qed.

(** The guard and the arguments, when the memory is there; the guard is kept. *)
Lemma dirty_rest d m c1 s1 :
  later co bb c1 s1 -> built gw c1 s1 -> tc_dirty (tyenv bb) gw d = true -> plain_stmt (Ist_Dirty d) = true ->
  useBeforeDef_Stmt n0 co (Ist_Dirty d) = true -> assignedOnce_Stmt n0 (Ist_Dirty d) co = Some co1 ->
  match mAddr d with None => m = None | Some _ => exists a ty, m = Some a /\ atom_of gw ty a c1 s1 end ->
  ends co1 c1 s1
    (g <- flatten_Expr ord (guard d) ;;
     l <- flat_args (fun a => if is_IRExpr_VECRET_or_GSPTR a then retM a else flatten_Expr ord a) (args d) ;;
     flat_stmt (Ist_Dirty (mkIRDirty (cee d) g l (d_tmp d) (mFx d) m (mSize d) (fxState d)))).
Proof.
  intros Hl1 Hb1 Ht Hp Hu Ha Hm. unfold plain_stmt in Hp. simpl in Hp, Hu. rewrite forallb_app in Hp. bools.
  assert (isIRAtom (guard d) = true /\ typeOfIRExpr (tyenv s1) (guard d) = Some Ity_I1) as [Hg Hty].
  { unfold tc_dirty in Ht. types. split; [by destruct (guard d)|]. eapply expr_refines; [by eapply later_types|done]. }
  eapply (ends_bind _ _ _ _ _ (fun x _ _ => x = guard d)).
  { exists (guard d), s1, c1. split_and!; try done. apply flatten_atom; [done|by rewrite Hty..]. }
  intros g c2 s2 Hl2 Hb2 ->. pose proof (later_trans _ _ _ _ _ _ Hl1 Hl2) as Hl12.
  eapply ends_bind; [by apply dirty_args_yield|]. intros l c3 s3 Hl3 Hb3 HR.
  pose proof (later_trans _ _ _ _ _ _ Hl12 Hl3) as Hl13. pose proof (later_trans _ _ _ _ _ _ Hl2 Hl3) as Hl23.
  destruct (dirty_args_pass _ _ _ _ HR) as (_ & Hat & Hus).
  eapply ends_stmt; try done; simpl.
  - rewrite Hg, Hat. simpl. destruct (mAddr d); [|by rewrite Hm]. destruct Hm as (a & ty & -> & Hm & _). done.
  - apply (dirty_types _ _ _ c3); try done. destruct (mAddr d); [|by rewrite Hm]. destruct Hm as (a & ty & -> & _). done.
  - rewrite Hus. simpl. destruct (mFx d) eqn:Hfx; [done|..]; (destruct (mAddr d); [|done]);
      destruct Hm as (a & ty & -> & Hm); apply (atom_of_lasting _ _ _ _ _ _ _ Hl23) in Hm as (_ & _ & _ & ?); done.
Qed.

Lemma flattened_dirty d : flattened (Ist_Dirty d).
Proof.
  intros Ht Hu Ha Hpl. cbn [flatten_Stmt]. simpl in Ht. rewrite dirty_memory by done.
  pose proof (dirty_rest d) as Hrest. destruct (mAddr d) as [a|] eqn:Hm.
  - assert (exists ty, fine gw co bb a ty) as (ty & Hf).
    { unfold tc_dirty in Ht. unfold plain_stmt in Hpl. simpl in Hpl, Hu. rewrite Hm in *. simpl in Hpl. bools.
      apply plain_typed; [done|]. by destruct (mFx d). }
    flat_next. apply Hrest; try done. by exists x, ty.
  - apply ends_none. by apply Hrest.
Qed.

(** ** All of them *)
Lemma flatten_stmt st : flattened st.
Proof.
  destruct st; auto using flattened_hint, flattened_put, flattened_puti, flattened_wrtmp, flattened_store,
    flattened_storeg, flattened_loadg, flattened_cas, flattened_llsc, flattened_dirty, flattened_exit, flattened_flush.
  - intros Ht Hu Ha _. injection Ha as <-. by exists s, c.
  - by apply flattened_as_is.
  - by apply flattened_as_is.
Qed.
End Each.

Lemma flatten_all l : forall co co1 c s,
  later co bb c s -> built gw c s -> forallb (entry (tcStmt (tyenv bb) gw)) l = true -> forallb (entry plain_stmt) l = true ->
  count_defs n0 l co = Some co1 -> ends co1 c s (flatten_stmts ord l).
Proof.
  induction l as [|[st|] l IH]; intros co co1 c s Hl Hb Ht Hp Hd; simpl in *; try done.
  - simplify_eq. by exists s, c.
  - bools. destruct (useBeforeDef_Stmt n0 co st) eqn:Hu; [|done]. apply bind_Some in Hd as (co2 & Ha & Hd).
    destruct (flatten_stmt co co2 c s Hl Hb st) as (s1 & c1 & Heq & Hb1 & Hl1); try done.
    destruct (IH co2 co1 c1 s1) as (s2 & c2 & Heq2 & Hr); try done.
    exists s2, c2. by rewrite (bind_ok _ _ _ _ _ Heq).
Qed.
End Statements.
