(* ===== verification/IRFlatRun.v ===== *)
(** A meaning for blocks that need not be flat, and that flattening keeps it.

    What a machine does is a parameter: the value of an operation, given the values of its operands,
    and the effect of a statement, given the values of its expressions.  An expression is evaluated
    from the inside out, all of it, before its statement takes effect. *)
From stdpp Require Import gmap.
From S2P Require Import Prelude OSet Region Core Trans Pmem IR Instr InstrSpec InstrRun.
From S2P Require Import IRSane IRSaneSpec IRSsa IRDead IRDeadSpec IRDeadRun IRFlat IRFlatSpec.
Local Open Scope Z_scope.
Local Open Scope pm_scope.

(** * Machines *)

(** The operation or statement is given without its subexpressions.  A statement computes the values of
    the temporaries it assigns, the next state, and whether the execution goes on. *)
Class Machine (C : Type) : Type := {
  node_val : IRExpr -> list Z -> C -> Z;
  act : IRStmt -> list Z -> C -> list Z * C * bool;
}.

(** A special argument of a helper call is part of the call. *)
Definition hole (e : IRExpr) : IRExpr := if is_IRExpr_VECRET_or_GSPTR e then e else Iex_NULL.

(** A statement without its expressions. *)
Definition skeleton (st : IRStmt) : IRStmt :=
  match st with
  | Ist_NoOp | Ist_IMark _ _ _ | Ist_MBE _ => st
  | Ist_AbiHint _ len _ => Ist_AbiHint Iex_NULL len Iex_NULL
  | Ist_Put off _ => Ist_Put off Iex_NULL
  | Ist_PutI d _ b _ => Ist_PutI d Iex_NULL b Iex_NULL
  | Ist_WrTmp t _ => Ist_WrTmp t Iex_NULL
  | Ist_Store e _ _ => Ist_Store e Iex_NULL Iex_NULL
  | Ist_LoadG e cvt dst _ _ _ => Ist_LoadG e cvt dst Iex_NULL Iex_NULL Iex_NULL
  | Ist_StoreG sg => Ist_StoreG (mkIRStoreG (sg_end sg) Iex_NULL Iex_NULL Iex_NULL)
  | Ist_CAS cas =>
      Ist_CAS (mkIRCAS (oldHi cas) (oldLo cas) (cas_end cas) Iex_NULL ((fun _ => Iex_NULL) <$> expdHi cas) Iex_NULL
                 ((fun _ => Iex_NULL) <$> dataHi cas) Iex_NULL)
  | Ist_LLSC e r _ storedata => Ist_LLSC e r Iex_NULL ((fun _ => Iex_NULL) <$> storedata)
  | Ist_Dirty d =>
      Ist_Dirty (mkIRDirty (cee d) Iex_NULL (hole <$> args d) (d_tmp d) (mFx d) ((fun _ => Iex_NULL) <$> mAddr d) (mSize d) (fxState d))
  | Ist_Exit _ jk dst off => Ist_Exit Iex_NULL jk dst off
  | Ist_Flush _ fk => Ist_Flush Iex_NULL fk
  end.

(** The temporaries of [l] get the values [vs]. *)
Fixpoint set_all (l vs : list Z) (tm : temps) : temps :=
  match l with [] => tm | t :: l => set_temp t (default 0 (head vs)) (set_all l (tail vs) tm) end.

Lemma set_all_other l vs tm u : u ∉ l -> set_all l vs tm u = tm u.
Proof.
  revert vs. induction l as [|t l IH]; intros vs Hu; [done|]. simpl. unfold set_temp.
  destruct (Z.eqb_spec u t); [set_solver|]. apply IH. set_solver.
Qed.

Lemma set_all_same l vs tm tm' u : u ∈ l -> set_all l vs tm u = set_all l vs tm' u.
Proof.
  revert vs. induction l as [|t l IH]; intros vs Hu; [set_solver|]. simpl. unfold set_temp.
  destruct (Z.eqb_spec u t); [done|]. apply IH. set_solver.
Qed.

(** The temporaries that an expression reads. *)
Fixpoint temps_of (e : IRExpr) : list Z :=
  match e with
  | Iex_RdTmp t => [t]
  | Iex_GetI _ a _ | Iex_Unop _ a | Iex_Load _ _ a => temps_of a
  | Iex_Qop _ a1 a2 a3 a4 => temps_of a1 ++ temps_of a2 ++ temps_of a3 ++ temps_of a4
  | Iex_Triop _ a1 a2 a3 | Iex_ITE a1 a2 a3 => temps_of a1 ++ temps_of a2 ++ temps_of a3
  | Iex_Binop _ a1 a2 => temps_of a1 ++ temps_of a2
  | Iex_CCall _ _ l => flat_map temps_of l
  | _ => []
  end.

Lemma atom_temps a t : isIRAtom a = true -> t ∈ temps_of a -> a = Iex_RdTmp t.
Proof. destruct a; try done; simpl; set_solver. Qed.

Lemma flat_temps e t : flat_rhs e = true -> t ∈ temps_of e -> Iex_RdTmp t ∈ rhs_operands e.
Proof.
  pose proof (fun a => atom_temps a t) as Ha.
  destruct e; try done; simpl; intros Hf Ht; bools; rewrite ?elem_of_app in Ht; destruct_or?;
    try (match goal with Ht : t ∈ temps_of _ |- _ => apply Ha in Ht; [subst; clear; set_solver|done] end); try (clear -Ht; set_solver).

  induction args as [|a l IH]; [set_solver|]. simpl in *. bools. rewrite elem_of_app in Ht. destruct Ht as [Ht|Ht].
  - rewrite (Ha a) by done. by left.
  - right. by apply IH.
Qed.

Section Meaning.
Context {C : Type} `{!Machine C}.

Fixpoint eval (tm : temps) (c : C) (e : IRExpr) : Z :=
  match e with
  | Iex_RdTmp t => tm t
  | Iex_Const con => const_val con
  | Iex_GetI d ix b => node_val (Iex_GetI d Iex_NULL b) [eval tm c ix] c
  | Iex_Qop op a1 a2 a3 a4 =>
      node_val (Iex_Qop op Iex_NULL Iex_NULL Iex_NULL Iex_NULL) [eval tm c a1; eval tm c a2; eval tm c a3; eval tm c a4] c
  | Iex_Triop op a1 a2 a3 =>
      node_val (Iex_Triop op Iex_NULL Iex_NULL Iex_NULL) [eval tm c a1; eval tm c a2; eval tm c a3] c
  | Iex_Binop op a1 a2 => node_val (Iex_Binop op Iex_NULL Iex_NULL) [eval tm c a1; eval tm c a2] c
  | Iex_Unop op a => node_val (Iex_Unop op Iex_NULL) [eval tm c a] c
  | Iex_Load e ty a => node_val (Iex_Load e ty Iex_NULL) [eval tm c a] c
  | Iex_ITE e1 e2 e3 =>
      node_val (Iex_ITE Iex_NULL Iex_NULL Iex_NULL) [eval tm c e1; eval tm c e2; eval tm c e3] c
  | Iex_CCall cee ty l => node_val (Iex_CCall cee ty []) (map (eval tm c) l) c
  | e => node_val e [] c
  end.

(** One statement, as the client of a block. *)
Definition ir_step (st : IRStmt) (tm : temps) (c : C) : temps * C * bool :=
  match st with
  | Ist_WrTmp t e => (set_temp t (eval tm c e) tm, c, true)
  | _ => let r := act (skeleton st) (map (eval tm c) (reads st)) c in (set_all (assigns st) r.1.1 tm, r.1.2, r.2)
  end.

(** A call that is not made does nothing, and an exit with a true guard is taken. *)
Class LawfulMachine : Prop := {
  act_uncalled d vs c : last vs = Some 0 -> (act (Ist_Dirty d) vs c).1.2 = c /\ (act (Ist_Dirty d) vs c).2 = true;
  act_exit jk dst off c : (act (Ist_Exit Iex_NULL jk dst off) [1] c).1.2 = c /\ (act (Ist_Exit Iex_NULL jk dst off) [1] c).2 = false;
}.

Lemma eval_ext tm tm' c e : (forall t, t ∈ temps_of e -> tm t = tm' t) -> eval tm c e = eval tm' c e.
Proof.
  induction e using IRExpr_tree_ind; simpl; intros Ht; try done; try (apply Ht; by left);
    try (repeat match goal with IH : _ -> eval tm c ?e = _ |- context [eval tm c ?e] =>
      rewrite IH by (intros t Hin; apply Ht; rewrite ?elem_of_app; tauto) end; done).
  f_equal. induction H as [|a l Ha Hl IH]; [done|]. simpl in *. f_equal.
  - apply Ha. intros t Hin. apply Ht, elem_of_app. by left.
  - apply IH. intros t Hin. apply Ht, elem_of_app. by right.
Qed.

Lemma evals_ext tm tm' c l : (forall a t, a ∈ l -> t ∈ temps_of a -> tm t = tm' t) -> map (eval tm c) l = map (eval tm' c) l.
Proof. intros Hl. apply list_fmap_ext. intros i a Ha. apply eval_ext. intros t. apply Hl. by eapply list_elem_of_lookup_2. Qed.

(** The expressions of a flat statement are atoms or special. *)
Lemma flat_reads st a t : isFlatIRStmt st = true -> (forall u e, st <> Ist_WrTmp u e) -> a ∈ reads st -> t ∈ temps_of a ->
  Iex_RdTmp t ∈ reads st.
Proof.
  intros Hf Hw Ha Ht. assert (isIRAtom_or_VECRET_or_GSPTR a = true) as Hat; [|unfold isIRAtom_or_VECRET_or_GSPTR in Hat].
  - unfold isIRAtom_or_VECRET_or_GSPTR.
    assert (forall o : option IRExpr, if_there isIRAtom o = true -> a ∈ option_list o -> isIRAtom a = true) as Ho.
    { intros [e|]; simpl; [|set_solver]. intros ? ->%list_elem_of_singleton. done. }
    destruct st; try done; unfold reads in Ha; simpl in *; bools;
      repeat match goal with H : _ ∈ _ ++ _ |- _ => apply elem_of_app in H as [?|?] | H : _ ∈ _ :: _ |- _ => apply elem_of_cons in H as [->|?]
        | H : _ ∈ [] |- _ => by apply elem_of_nil in H | H : isIRAtom ?x = true |- isIRAtom ?x || _ = true => by rewrite H end;
      try (match goal with H : a ∈ option_list ?o |- _ => by rewrite (Ho o) end).
    + by edestruct Hw.
    + apply (proj1 (forallb_forall isIRAtom_or_VECRET_or_GSPTR (args details))); [done|by apply list_elem_of_In].
    + rewrite (Ho (mAddr details)); [done..|]. destruct (mFx details); [set_solver|done..].
  - apply orb_true_iff in Hat as [Hat|Hat]; [|by destruct a; try done; apply elem_of_nil in Ht].
    by rewrite <-(atom_temps a t).
Qed.

(** ** The client of a block *)

Lemma ir_step_act st tm c : (forall u e, st <> Ist_WrTmp u e) ->
  let r := act (skeleton st) (map (eval tm c) (reads st)) c in ir_step st tm c = (set_all (assigns st) r.1.1 tm, r.1.2, r.2).
Proof. destruct st; try done. intros Hw. by edestruct Hw. Qed.

Lemma assign_dec st : (exists t e, st = Ist_WrTmp t e) \/ forall u e, st <> Ist_WrTmp u e.
Proof. destruct st; eauto. Qed.

#[export] Instance ir_step_tame `{!LawfulMachine} : TameClient ir_step.
Proof.
  split.
  - intros st tm c t Ht. destruct (assign_dec st) as [(u & e & ->)|Hw].
    + simpl in *. unfold set_temp. destruct (Z.eqb_spec t u); [set_solver|done].
    + rewrite ir_step_act by done. by apply set_all_other.
  - intros st tm tm' c Hf Hr. destruct (assign_dec st) as [(t & e & ->)|Hw].
    + simpl. split_and!; try done. intros u ->%list_elem_of_singleton. unfold set_temp. rewrite Z.eqb_refl.
      apply eval_ext. intros v Hv. apply Hr. unfold reads. simpl. rewrite app_nil_r. by apply flat_temps.
    + rewrite !ir_step_act by done. rewrite (evals_ext tm tm'); [|intros a t Ha Ht; by eapply Hr, flat_reads].
      split_and!; try done. intros t Ht. by apply set_all_same.
  - done.
  - intros d tm c Hz. apply act_uncalled. unfold reads. rewrite map_app. simpl. rewrite last_snoc.
    destruct (guard d); try done. destruct con; try done. simpl in *. by apply Z.eqb_eq in Hz as ->.
Qed.
End Meaning.
