(* ===== verification/IRFlatMeaning.v ===== *)
(** The code that flattening an expression adds to the block computes the value of the expression, and
    changes no temporary that was there before. *)
From S2P Require Import Prelude OSet Region Core Trans Pmem IR Instr InstrSpec.
From S2P Require Import IRSane IRSaneSpec IRFlat IRFlatSpec IRFlatRun.
Local Open Scope Z_scope.
Local Open Scope pm_scope.

Lemma bind_inv {S A B} (m : M S A) (k : A -> M S B) s y s2 :
  bindM m k s = Ok y s2 -> exists x s1, m s = Ok x s1 /\ k x s1 = Ok y s2.
Proof. unfold bindM. destruct (m s) as [x s1|]; [|done]. eauto. Qed.

(** Go back over one statement of the code. *)
Ltac back H :=
  let x := fresh "x" in let s1 := fresh "s" in let Hm := fresh "Hm" in
  apply bind_inv in H as (x & s1 & Hm & H).

(** The expression reads temporaries below [n] only. *)
Definition known (n : Z) (e : IRExpr) : Prop := forall t, t ∈ temps_of e -> t < n.

Lemma known_mono n n' e : n <= n' -> known n e -> known n' e.
Proof. intros Hn Hk t Ht. specialize (Hk t Ht). lia. Qed.

Lemma used_known n c e : useBeforeDef_Expr n c e = true -> known n e.
Proof.
  unfold known. induction e using IRExpr_tree_ind; simpl; intros Hu t' Ht; try (by apply elem_of_nil in Ht); bools;
    rewrite ?elem_of_app in Ht; destruct_or?; try (by auto).
  - apply list_elem_of_singleton in Ht as ->. unfold useBeforeDef_Temp in Hu. bools. lia.
  - induction H as [|a l Ha Hl IH]; [by apply elem_of_nil in Ht|]. simpl in *. bools. apply elem_of_app in Ht as [Ht|Ht]; auto.
Qed.

Section Code.
Context `{PrimopTypes} {C : Type} `{!Machine C}.

(** Assignments, run one after the other. *)
Fixpoint assign_all (c : C) (l : list (Z * IRExpr)) (tm : temps) : temps :=
  match l with [] => tm | (t, e) :: l => assign_all c l (set_temp t (eval tm c e) tm) end.

Lemma assign_all_app c l1 l2 tm : assign_all c (l1 ++ l2) tm = assign_all c l2 (assign_all c l1 tm).
Proof. revert tm. induction l1 as [|[t e] l1 IH]; intros tm; [done|]. simpl. apply IH. Qed.

Lemma assign_all_agree c n l tm : Forall (fun p => n <= p.1) l -> agree n tm (assign_all c l tm).
Proof.
  intros Hl. revert tm. induction Hl as [|[t e] l Ht Hl IH]; intros tm; [done|]. simpl in *.
  eapply agree_trans; [reflexivity|by apply set_temp_agree|apply IH].
Qed.

Definition assignments (l : list (Z * IRExpr)) : list (option IRStmt) := map (fun p => Some (Ist_WrTmp p.1 p.2)) l.

(** The block has grown by assignments to new temporaries. *)
Record grown (s s1 : IRSB) (l : list (Z * IRExpr)) : Prop := mkGrown {
  grown_code : stmts s1 = stmts s ++ assignments l;
  grown_temps : next_temp s <= next_temp s1;
  grown_new : Forall (fun p => next_temp s <= p.1 < next_temp s1) l;
}.

Lemma grown_agree s s1 l c tm : grown s s1 l -> agree (next_temp s) tm (assign_all c l tm).
Proof. intros [_ _ Hl]. apply assign_all_agree. eapply Forall_impl; [exact Hl|]. simpl. lia. Qed.

Lemma grown_app s s1 s2 l1 l2 : grown s s1 l1 -> grown s1 s2 l2 -> grown s s2 (l1 ++ l2).
Proof.
  intros [C1 T1 N1] [C2 T2 N2]. split; [|lia|].
  - rewrite C2, C1. unfold assignments. by rewrite map_app, app_assoc.
  - apply Forall_app. split; (eapply Forall_impl; [done|]); simpl; lia.
Qed.

Lemma eval_known n tm tm' c e : known n e -> agree n tm tm' -> eval tm c e = eval tm' c e.
Proof. intros Hk Hag. apply eval_ext. intros t Ht. by apply Hag, Hk. Qed.

Lemma evals_known n tm tm' c l : Forall (known n) l -> agree n tm tm' -> map (eval tm c) l = map (eval tm' c) l.
Proof. intros Hk Hag. induction Hk as [|e l He Hk IH]; [done|]. simpl. by rewrite IH, (eval_known n tm tm'). Qed.

(** A computation that ends adds code that computes the values of [es]; the results read as [vs]. *)
Definition computes {A} (s : IRSB) (m : FM A) (vs : A -> list IRExpr) (es : list IRExpr) : Prop :=
  forall x s1, m s = Ok x s1 -> exists l, grown s s1 l /\ Forall (known (next_temp s1)) (vs x) /\
    forall tm c, map (eval (assign_all c l tm) c) (vs x) = map (eval tm c) es.

(** The same from every state with the temporaries that are read. *)
Definition computes_from {A} (n : Z) (m : FM A) (vs : A -> list IRExpr) (es : list IRExpr) : Prop :=
  forall s, n <= next_temp s -> computes s m vs es.

Lemma computes_ret {A} s (x : A) vs es : (forall tm c, map (eval tm c) (vs x) = map (eval tm c) es) ->
  Forall (known (next_temp s)) (vs x) -> computes s (retM x) vs es.
Proof.
  intros Hv Hk y s1 [= <- <-]. exists []. split_and!; try done. split; [|done|done]. unfold assignments. by rewrite app_nil_r.
Qed.

(** One computation after the other, for expressions that could be read before the first. *)
Lemma computes_seq {A B} s (m1 : FM A) (m2 : FM B) vs1 vs2 es1 es2 n :
  Forall (known n) es2 -> n <= next_temp s -> computes s m1 vs1 es1 -> computes_from n m2 vs2 es2 ->
  forall x s1 y s2, m1 s = Ok x s1 -> m2 s1 = Ok y s2 ->
  exists l, grown s s2 l /\ Forall (known (next_temp s2)) (vs1 x) /\ Forall (known (next_temp s2)) (vs2 y) /\
    forall tm c, map (eval (assign_all c l tm) c) (vs1 x) = map (eval tm c) es1 /\
                 map (eval (assign_all c l tm) c) (vs2 y) = map (eval tm c) es2.
Proof.
  intros Hes Hn H1 H2 x s1 y s2 E1 E2. destruct (H1 _ _ E1) as (l1 & G1 & K1 & V1).
  destruct (H2 s1 ltac:(destruct G1; lia) _ _ E2) as (l2 & G2 & K2 & V2).
  exists (l1 ++ l2). split; [by eapply grown_app|]. split; [|split; [done|]].
  { eapply Forall_impl; [done|]. intros e. apply known_mono. by destruct G2. }
  intros tm c. rewrite assign_all_app, <-V1, V2. pose proof (grown_agree _ _ _ c tm G1) as A1.
  pose proof (grown_agree _ _ _ c (assign_all c l1 tm) G2) as A2. split; symmetry.
  - by eapply evals_known.
  - eapply evals_known; [done|]. intros t Ht. apply A1. lia.
Qed.

(** Computations in any order. *)
Lemma computes_in_order n k : forall o (ms : list (FM IRExpr)) es,
  length ms = k -> Forall (known n) es -> Forall2 (fun m e => computes_from n m (fun x => [x]) [e]) ms es ->
  computes_from n (in_order k o ms) (fun l => l) es.
Proof.
  induction k as [|k IH]; intros o ms es Hk Hes Hms s Hn.
  { destruct ms; [|done]. inversion Hms. by apply computes_ret. }
  intros l' s2 E. cbn [in_order] in E. set (i := Nat.modulo (hd 0%nat o) (length ms)) in *.
  assert (i < length ms)%nat as Hi by (apply Nat.mod_upper_bound; lia).
  destruct (lookup_lt_is_Some_2 ms i Hi) as [m Hm]. destruct (Forall2_lookup_l _ _ _ _ _ Hms Hm) as (e & He & Hc).
  rewrite Hm in E. back E. injection Hm0 as <- <-. do 2 back E. injection E as <- <-.
  assert (computes_from n (in_order k (tl o) (delete i ms)) (fun l => l) (delete i es)) as Hrest.
  { apply IH; [rewrite length_delete by done; lia|by apply Forall_delete|by apply Forall2_delete]. }
  destruct (computes_seq s m _ (fun x => [x]) (fun l => l) [e] (delete i es) n ltac:(by apply Forall_delete) Hn (Hc s Hn) Hrest
    _ _ _ _ Hm0 Hm1) as (l1 & G & K1 & K2 & V).
  exists l1. split; [done|]. inversion K1 as [|? ? Kx _]; subst. split.
  { rewrite <-(take_drop i x0) in K2. apply Forall_app in K2 as [? ?]. apply Forall_app. by split; [|constructor]. }
  intros tm c. destruct (V tm c) as [V1 V2]. injection V1 as V1. rewrite <-(take_drop_middle es i e He).
  rewrite delete_take_drop in V2. rewrite !map_app. cbn [map]. rewrite V1.
  rewrite map_app in V2. pose proof (f_equal (take i) V2) as T. pose proof (f_equal (drop i) V2) as D.
  apply lookup_lt_Some in He as Hie. rewrite take_app_length' in T by (rewrite length_map, length_take; lia).
  rewrite drop_app_length' in D by (rewrite length_map, length_take; lia).
  rewrite firstn_map in T. rewrite skipn_map in D. by rewrite T, D.
Qed.

Lemma computes_evaluate ord n e ms es :
  Forall (known n) es -> Forall2 (fun m e => computes_from n m (fun x => [x]) [e]) ms es ->
  computes_from n (evaluate ord e ms) (fun l => l) es.
Proof.
  intros Hes Hms s Hn x s1 E. unfold evaluate in E. back E. injection Hm as <- <-.
  by eapply computes_in_order.
Qed.

Lemma computes_args n f l :
  Forall (known n) l -> Forall (fun a => computes_from n (f a) (fun x => [x]) [a]) l ->
  computes_from n (flat_args f l) (fun l' => l') l.
Proof.
  intros Hk Hf. induction Hf as [|a l Ha Hf IH]; intros s Hn; [by apply computes_ret|].
  inversion Hk as [|? ? Hka Hkl]; subst. intros l' s2 E. simpl in E. do 2 back E. injection E as <- <-.
  destruct (computes_seq s (f a) (flat_args f l) _ _ [a] l n Hkl Hn (Ha s Hn) (IH Hkl) _ _ _ _ Hm Hm0) as (l1 & G & K1 & K2 & V).
  exists l1. split; [done|]. split; [constructor; [by inversion K1|done]|].
  intros tm c. simpl. destruct (V tm c) as [V1 ->]. by injection V1 as ->.
Qed.

Lemma new_temp_next ty s : next_temp (add_temp ty s) = next_temp s + 1.
Proof. unfold next_temp. simpl. rewrite length_app. simpl. lia. Qed.

(** The assignment of a value to a temporary that is new. *)
Lemma grown_assign s s1 l t1 e :
  grown s s1 l -> next_temp s <= t1 < next_temp s1 -> grown s (add_stmt (Ist_WrTmp t1 e) s1) (l ++ [(t1, e)]).
Proof.
  intros [Hc Ht Hn] Hr. split; [|done|].
  - simpl. rewrite Hc. unfold assignments. by rewrite map_app, <-app_assoc.
  - apply Forall_app. split; [done|]. by constructor.
Qed.

Lemma computes_assign s s1 l t1 vs es e e' x s2 :
  grown s s1 l -> next_temp s <= t1 < next_temp s1 ->
  (forall tm c, map (eval (assign_all c l tm) c) vs = map (eval tm c) es) ->
  (forall tm tm' c, map (eval tm c) vs = map (eval tm' c) es -> eval tm c e' = eval tm' c e) ->
  flat_assign t1 e' s1 = Ok x s2 ->
  exists l, grown s s2 l /\ Forall (known (next_temp s2)) [x] /\
    forall tm c, map (eval (assign_all c l tm) c) [x] = map (eval tm c) [e].
Proof.
  intros G Hr V He [= <- <-]. exists (l ++ [(t1, e')]). split; [by apply grown_assign|]. split.
  - constructor; [|done]. intros t ->%list_elem_of_singleton. unfold next_temp in *. simpl. lia.
  - intros tm c. rewrite assign_all_app. simpl. rewrite set_temp_same. f_equal. by apply He.
Qed.

(** A temporary that is declared, the code for the operands of an operation, and its assignment. *)
Lemma computes_node {A} n ty (m : FM A) (k : Z -> A -> FM IRExpr) vs es build e :
  computes_from n m vs es -> (forall t x s y s1, k t x s = Ok y s1 -> flat_assign t (build x) s = Ok y s1) ->
  (forall x tm tm' c, map (eval tm c) (vs x) = map (eval tm' c) es -> eval tm c (build x) = eval tm' c e) ->
  computes_from n (t1 <- flat_temp ty ;; x <- m ;; k t1 x) (fun x => [x]) [e].
Proof.
  intros Hm0 Hk He s Hn y s2 E. back E. injection Hm as <- <-. back E. pose proof (new_temp_next ty s) as Ht.
  apply Hk in E.
  destruct (Hm0 (add_temp ty s) ltac:(lia) _ _ Hm) as (l & [Gc Gt Gn] & _ & V).
  eapply (computes_assign s s0 l (next_temp s)); [|lia|exact V|apply He|exact E].
  split; [done|lia|]. eapply Forall_impl; [exact Gn|]. simpl. lia.
Qed.

(** The same for a call, whose temporary is declared after its arguments. *)
Lemma computes_call {A} n ty (m : FM A) vs es build e :
  computes_from n m vs es ->
  (forall x tm tm' c, map (eval tm c) (vs x) = map (eval tm' c) es -> eval tm c (build x) = eval tm' c e) ->
  computes_from n (x <- m ;; t1 <- flat_temp ty ;; flat_assign t1 (build x)) (fun x => [x]) [e].
Proof.
  intros Hm0 He s Hn y s2 E. back E. back E. injection Hm1 as <- <-.
  destruct (Hm0 s Hn _ _ Hm) as (l & [Gc Gt Gn] & _ & V). pose proof (new_temp_next ty s0) as Ht.
  eapply (computes_assign s _ l (next_temp s0)); [|rewrite Ht; lia|exact V|apply He|exact E].
  split; [done|lia|]. eapply Forall_impl; [exact Gn|]. simpl. lia.
Qed.

(** * Expressions *)

Lemma computes_typed {A} n e (k : IRType -> FM A) vs es :
  (forall ty, computes_from n (k ty) vs es) ->
  computes_from n (env <- getsM tyenv ;; ty <- liftM AssertFail (typeOfIRExpr env e) ;; k ty) vs es.
Proof.
  intros Hk s Hn x s1 E. back E. injection Hm as <- <-. back E. destruct (typeOfIRExpr (tyenv s) e) as [ty|]; [|done].
  injection Hm as <- <-. by apply (Hk ty s Hn).
Qed.

Lemma known_sub n e l : known n e -> (forall t, t ∈ flat_map temps_of l -> t ∈ temps_of e) -> Forall (known n) l.
Proof.
  intros Hk Hs. apply Forall_forall. intros a Ha t Ht. apply Hk, Hs. apply list_elem_of_In, in_flat_map.
  exists a. by rewrite <-!list_elem_of_In.
Qed.

Lemma computes_leaf n ty e : temps_of e = [] -> computes_from n (t1 <- flat_temp ty ;; flat_assign t1 e) (fun x => [x]) [e].
Proof.
  intros He. apply (computes_node n ty (retM tt) (fun t1 _ => flat_assign t1 e) (fun _ => []) [] (fun _ => e)); try done.
  - intros s Hn. by apply computes_ret.
  - intros _ tm tm' c _. apply eval_ext. rewrite He. set_solver.
Qed.

(** The operands of an operation. *)
Ltac operands_compute :=
  lazymatch goal with
  | |- computes_from _ (evaluate _ _ _) _ _ => eapply computes_evaluate; [|repeat constructor; operands_compute]; eauto using Forall_cons, Forall_nil
  | IH : forall n, known n ?e -> _ |- computes_from _ (flatten_Expr _ ?e) _ _ => apply IH; assumption
  end.

(** A list of the results has the length of the list of the operands. *)
Ltac lengths := repeat match goal with x : list IRExpr |- _ => is_var x; destruct x; try done end.

(** The value of an operation is determined by those of its operands. *)
Ltac by_values := intros;
  match goal with Hv : map _ _ = map _ _ |- eval _ ?c _ = _ => exact (f_equal (fun vs => node_val _ vs c) Hv) end.

Ltac node build := eapply (computes_node _ _ _ _ _ _ build); [operands_compute|intros; by lengths|intros; lengths; by_values].

Lemma flatten_computes ord e : forall n, known n e -> computes_from n (flatten_Expr ord e) (fun x => [x]) [e].
Proof.
  induction e using IRExpr_tree_ind; intros n Hk; cbn [flatten_Expr]; apply computes_typed; intros ty0; try done.
  - by apply computes_leaf.
  - node (fun x => Iex_GetI d x b).
  - intros s Hn. apply computes_ret; [done|]. constructor; [|done]. by eapply known_mono.
  - apply (known_sub n _ [e1; e2; e3; e4]) in Hk; [|simpl; set_solver]. decompose_Forall_hyps.
    node (fun l => match l with [a1; a2; a3; a4] => Iex_Qop op a1 a2 a3 a4 | _ => Iex_NULL end).
  - apply (known_sub n _ [e1; e2; e3]) in Hk; [|simpl; set_solver]. decompose_Forall_hyps. node (fun l => match l with [a1; a2; a3] => Iex_Triop op a1 a2 a3 | _ => Iex_NULL end).
  - apply (known_sub n _ [e1; e2]) in Hk; [|simpl; set_solver]. decompose_Forall_hyps. node (fun l => match l with [a1; a2] => Iex_Binop op a1 a2 | _ => Iex_NULL end).
  - node (fun x => Iex_Unop op x).
  - node (fun x => Iex_Load e ty x).
  - destruct con; try (intros s Hn; apply computes_ret; [done|]; constructor; [by eapply known_mono|done]). by apply computes_leaf.
  - apply (known_sub n _ [e1; e2; e3]) in Hk; [|simpl; set_solver]. decompose_Forall_hyps. node (fun l => match l with [a1; a2; a3] => Iex_ITE a1 a2 a3 | _ => Iex_NULL end).
  - apply (known_sub n _ l) in Hk; [|done].
    eapply (computes_call _ _ _ _ _ (fun x => Iex_CCall cee ty x)); [|by_values]. apply computes_args; [done|].
    apply Forall_forall. intros a Ha. eapply Forall_forall in H0, Hk; [|exact Ha..]. by apply H0.
Qed.
End Code.
