(* ===== verification/IRFlatSim.v ===== *)
(** Flattened statements do what the originals do, and so do flattened blocks. *)
From stdpp Require Import gmap.
From S2P Require Import Prelude OSet Region Core Trans Pmem IR Instr InstrSpec InstrRun.
From S2P Require Import IRSane IRSaneSpec IRSsa IRDead IRDeadSpec IRDeadRun IRFlat IRFlatSpec IRFlatRun IRFlatMeaning.
Local Open Scope Z_scope.
Local Open Scope pm_scope.

(** The expressions of a statement. *)
Definition exprs (st : IRStmt) : list IRExpr := match st with Ist_WrTmp _ e => [e] | _ => reads st end.

Lemma skeleton_assigns st : assigns (skeleton st) = assigns st.
Proof. by destruct st. Qed.

Section Sim.
Context `{PrimopTypes} {C : Type} `{!Machine C} (ord : order).

(** The statement and the values of its expressions say what it does. *)
Lemma ir_step_values st st' tm tm' c :
  skeleton st' = skeleton st -> map (eval tm' c) (exprs st') = map (eval tm c) (exprs st) ->
  (ir_step st' tm' c).1.2 = (ir_step st tm c).1.2 /\ (ir_step st' tm' c).2 = (ir_step st tm c).2 /\
  (forall t, t ∈ assigns st -> (ir_step st' tm' c).1.1 t = (ir_step st tm c).1.1 t) /\
  (forall t, t ∉ assigns st -> (ir_step st' tm' c).1.1 t = tm' t /\ (ir_step st tm c).1.1 t = tm t).
Proof.
  intros Hs Hv. destruct (assign_dec st) as [(u & e & ->)|Hw].
  - destruct st'; try done. simpl in Hs, Hv. injection Hs as ->. injection Hv as Hv. simpl. rewrite Hv. split_and!; try done.
    + intros t ->%list_elem_of_singleton. by rewrite !set_temp_same.
    + intros t Ht. unfold set_temp. by rewrite (proj2 (Z.eqb_neq t u)) by set_solver.
  - assert (forall u e, st' <> Ist_WrTmp u e) as Hw' by (intros u e ->; destruct st; try done; by edestruct Hw).
    assert (exprs st = reads st /\ exprs st' = reads st') as [He He'].
    { split; [destruct st|destruct st']; try done; [by edestruct Hw|by edestruct Hw']. }
    rewrite !ir_step_act by done. rewrite He, He' in Hv. rewrite Hs, Hv. simpl.
    rewrite <-(skeleton_assigns st'), Hs, skeleton_assigns. split_and!; try done.
    + intros t Ht. by apply set_all_same.
    + intros t Ht. by rewrite !set_all_other.
Qed.

(** * One statement *)

(** The code so far, from [s0] on, and the expressions that have been flattened. *)
Definition progress (s0 : IRSB) (l : list (Z * IRExpr)) (dn : list (IRExpr * IRExpr)) (s : IRSB) : Prop :=
  grown s0 s l /\ Forall (fun p => known (next_temp s) p.2) dn /\
  forall tm c, Forall (fun p => eval (assign_all c l tm) c p.2 = eval tm c p.1) dn.

Lemma progress_start s0 : progress s0 [] [] s0.
Proof. split; [|done]. split; [by rewrite app_nil_r|done|done]. Qed.

Lemma progress_more s0 l dn s l1 s1 new :
  progress s0 l dn s -> grown s s1 l1 -> Forall (fun p => known (next_temp s0) p.1) new -> Forall (fun p => known (next_temp s1) p.2) new ->
  (forall tm c, Forall (fun p => eval (assign_all c l1 tm) c p.2 = eval tm c p.1) new) ->
  progress s0 (l ++ l1) (new ++ dn) s1.
Proof.
  intros (G & K & V) G1 Hk Hk1 Hv. split; [by eapply grown_app|]. split.
  - apply Forall_app. split; [done|]. eapply Forall_impl; [exact K|]. intros p. apply known_mono. by destruct G1.
  - intros tm c. apply Forall_app. split.
    + apply Forall_forall. intros p Hp. rewrite assign_all_app. specialize (Hv (assign_all c l tm) c).
      eapply Forall_forall in Hv; [|exact Hp]. eapply Forall_forall in Hk; [|exact Hp]. rewrite Hv. symmetry.
      eapply eval_known; [exact Hk|by eapply grown_agree].
    + apply Forall_forall. intros p Hp. rewrite assign_all_app. specialize (V tm c).
      eapply Forall_forall in V; [|exact Hp]. eapply Forall_forall in K; [|exact Hp]. rewrite <-V. symmetry.
      eapply eval_known; [exact K|by eapply grown_agree].
Qed.

Lemma progress_next s0 l dn s e x s1 :
  progress s0 l dn s -> known (next_temp s0) e -> flatten_Expr ord e s = Ok x s1 -> exists l1, progress s0 l1 ((e, x) :: dn) s1.
Proof.
  intros P Hk E. pose proof P as [[_ Ht _] _]. destruct (flatten_computes ord e _ Hk s Ht x s1 E) as (l1 & G & K & V).
  exists (l ++ l1). apply (progress_more s0 l dn s l1 s1 [(e, x)]); try done.
  - by constructor.
  - constructor; [by inversion K|done].
  - intros tm c. specialize (V tm c). constructor; [by injection V|done].
Qed.

(** What flattening makes of a statement. *)
Definition translated (s : IRSB) (st : IRStmt) (s1 : IRSB) : Prop :=
  exists l st', stmts s1 = stmts s ++ assignments l ++ [Some st'] /\ next_temp s <= next_temp s1 /\
    Forall (fun p => next_temp s <= p.1 < next_temp s1) l /\ skeleton st' = skeleton st /\
    forall tm c, map (eval (assign_all c l tm) c) (exprs st') = map (eval tm c) (exprs st).

Lemma translated_stmt s0 l dn s st st' s1 :
  progress s0 l dn s -> flat_stmt st' s = Ok tt s1 -> skeleton st' = skeleton st ->
  (forall tm c tm', Forall (fun p => eval tm' c p.2 = eval tm c p.1) dn -> map (eval tm' c) (exprs st') = map (eval tm c) (exprs st)) ->
  translated s0 st s1.
Proof.
  intros ([Gc Gt Gn] & _ & V) [= <-] Hs Hv. exists l, st'. simpl. rewrite Gc, <-app_assoc. unfold next_temp in *. simpl.
  split_and!; try done. intros tm c. by apply Hv.
Qed.

Lemma translated_as_is s st s1 : flat_stmt st s = Ok tt s1 -> translated s st s1.
Proof. intros [= <-]. by exists [], st. Qed.

(** Go back over the flattening of an expression, which may be missing. *)
Ltac back_expr E :=
  let l := fresh "l" in let Hm := fresh "Hm" in
  apply bind_inv in E as (? & ? & Hm & E);
  lazymatch type of Hm with
  | retM _ _ = _ => injection Hm as <- <-
  | _ =>
      lazymatch type of Hm with
      | bindM _ _ _ = _ => let Hr := fresh "Hr" in apply bind_inv in Hm as (? & ? & Hm & Hr); injection Hr as <- <-
      | _ => idtac
      end;
      match goal with P : progress _ _ _ ?s, Hm : flatten_Expr ord ?e ?s = Ok ?x ?s1 |- _ =>
        let P' := fresh "P" in
        destruct (progress_next _ _ _ _ e x s1 P) as (l & P'); [eassumption|exact Hm|]; clear P Hm; rename P' into P
      end
  end.

(** The statement that is made of the results. *)
Ltac rebuilt := eapply translated_stmt; [eassumption..|done|]; intros; simpl; decompose_Forall_hyps; unfold reads; simpl; congruence.

(** The result of flattening is an atom. *)
Lemma flatten_result e s x s1 : flatten_Expr ord e s = Ok x s1 -> isIRAtom x = true.
Proof.
  intros E. destruct e; cbn [flatten_Expr] in E; do 2 back E; try done; try (by injection E as <- <-);
    try (by destruct con; try (by injection E as <- <-); back E; injection E as <- <-);
    repeat (back E; try (by repeat case_match; try done; injection E as <- <-)).
Qed.

(** The arguments of a helper call. *)
Lemma progress_args s0 l dn args : forall s l' s1,
  progress s0 l dn s -> Forall (known (next_temp s0)) args ->
  flat_args (fun a => if is_IRExpr_VECRET_or_GSPTR a then retM a else flatten_Expr ord a) args s = Ok l' s1 ->
  exists l1 new, progress s0 l1 (new ++ dn) s1 /\ Forall2 (fun a x => (a, x) ∈ new /\ hole x = hole a) args l'.
Proof.
  revert l dn. induction args as [|a args IH]; intros l dn s l' s1 P Hk E.
  - injection E as <- <-. by exists l, [].
  - simpl in E. back E. back E. injection E as <- <-. inversion Hk as [|? ? Hka Hkl]; subst.
    assert (exists l2, progress s0 l2 ((a, x) :: dn) s2 /\ hole x = hole a) as (l2 & P2 & Hx).
    { unfold hole. destruct (is_IRExpr_VECRET_or_GSPTR a) eqn:Ha.
      - injection Hm as <- <-. exists (l ++ []). rewrite Ha. split; [|done].
        apply (progress_more s0 l dn s [] s [(a, a)]); try done; [apply progress_start|by constructor|..].
        + constructor; [|done]. eapply known_mono; [|exact Hka]. by destruct P as [[]].
        + intros tm c. by constructor.
      - destruct (progress_next _ _ _ _ a x s2 P Hka Hm) as (l2 & P2). exists l2. split; [done|].
        apply flatten_result in Hm. by destruct x. }
    destruct (IH _ _ _ _ _ P2 Hkl Hm0) as (l3 & new & P3 & HF).
    exists l3, (new ++ [(a, x)]). rewrite <-app_assoc. split; [done|]. constructor.
    + split; [|done]. apply elem_of_app. right. by left.
    + eapply Forall2_impl; [exact HF|]. simpl. intros b y [Hin Hh]. split; [|done]. apply elem_of_app. by left.
Qed.

Lemma cas_translated cas s s1 :
  Forall (known (next_temp s)) (exprs (Ist_CAS cas)) -> flatten_Stmt ord (Ist_CAS cas) s = Ok tt s1 -> translated s (Ist_CAS cas) s1.
Proof.
  intros Hk E. pose proof (progress_start s) as P. destruct cas as [oh ol en a [eh|] el [dh|] dl];
    unfold exprs, reads in Hk; simpl in Hk, E; decompose_Forall_hyps; do 5 back_expr E; rebuilt.
Qed.

Lemma args_holes (l l' : list IRExpr) (new : list (IRExpr * IRExpr)) :
  Forall2 (fun a x => (a, x) ∈ new /\ hole x = hole a) l l' -> hole <$> l' = hole <$> l.
Proof. induction 1 as [|a x l l' [Hin Hh] HF IH]; [done|]. csimpl. by rewrite Hh, IH. Qed.

Lemma args_values c tm tm' (l l' : list IRExpr) (new : list (IRExpr * IRExpr)) :
  Forall2 (fun a x => (a, x) ∈ new /\ hole x = hole a) l l' -> Forall (fun p => eval tm' c p.2 = eval tm c p.1) new ->
  map (eval tm' c) l' = map (eval tm c) l.
Proof.
  intros HF Hv. induction HF as [|a x l l' [Hin Hh] HF IH]; [done|]. simpl. rewrite IH. f_equal.
  by apply (proj1 (Forall_forall _ _) Hv (a, x)).
Qed.

(** The guard and the arguments, after the address of the memory. *)
Lemma call_translated d m l dn s0 s s1 :
  progress s0 l dn s -> Forall (known (next_temp s0)) (args d) -> known (next_temp s0) (guard d) ->
  (mAddr d = None /\ m = None \/ exists a x, mAddr d = Some a /\ m = Some x /\ (a, x) ∈ dn) ->
  (g <- flatten_Expr ord (guard d) ;;
   l <- flat_args (fun a => if is_IRExpr_VECRET_or_GSPTR a then retM a else flatten_Expr ord a) (args d) ;;
   flat_stmt (Ist_Dirty (mkIRDirty (cee d) g l (d_tmp d) (mFx d) m (mSize d) (fxState d)))) s = Ok tt s1 ->
  translated s0 (Ist_Dirty d) s1.
Proof.
  intros P Hka Hkg Hmem E. back_expr E. back E.
  destruct (progress_args _ _ _ _ _ _ _ P Hka Hm) as (l1 & new & P1 & HF).
  eapply translated_stmt; [exact P1|exact E|..].
  - simpl. rewrite (args_holes _ _ _ HF). by destruct Hmem as [[-> ->]|(a & y & -> & -> & _)].
  - intros tm c tm' Hv. apply Forall_app in Hv as [Hnew Hdn]. inversion Hdn as [|? ? Hg Hrest]; subst.
    unfold exprs, reads. simpl. rewrite !map_app. simpl. rewrite (args_values _ _ _ _ _ _ HF Hnew). f_equal; [|by f_equal].
    f_equal. destruct (mFx d); [done|..]; destruct Hmem as [[-> ->]|(a & y & -> & -> & Hin)]; try done; simpl; f_equal;
      by apply (proj1 (Forall_forall _ _) Hrest (a, y)).
Qed.

Lemma dirty_translated d s s1 :
  Forall (known (next_temp s)) (exprs (Ist_Dirty d)) -> flatten_Stmt ord (Ist_Dirty d) s = Ok tt s1 -> translated s (Ist_Dirty d) s1.
Proof.
  intros Hk E. pose proof (progress_start s) as P. unfold exprs, reads in Hk. simpl in Hk, E.
  rewrite !Forall_app in Hk. destruct Hk as [[Hka Hkm] Hkg]. inversion Hkg as [|? ? Hg _]; subst. back E.
  destruct (mFx d) eqn:Hfx, (mAddr d) as [a|] eqn:Ha; try done.
  1: injection Hm as <- <-; apply (call_translated d None [] [] s s); [done..|by left|by rewrite Hfx].
  all: apply bind_inv in Hm as (y & s2 & Hm & Hr); injection Hr as <- <-; apply Forall_inv in Hkm;
    destruct (progress_next _ _ _ _ a y s2 P Hkm Hm) as (l & P1); apply (call_translated d (Some y) l [(a, y)] s s2);
    [done..|right; exists a, y; split_and!; try done; by left|by rewrite Hfx].
Qed.

Lemma stmt_translated st s s1 :
  Forall (known (next_temp s)) (exprs st) -> flatten_Stmt ord st s = Ok tt s1 -> st <> Ist_NoOp -> translated s st s1.
Proof.
  intros Hk E Hno. pose proof (progress_start s) as P.
  destruct st as [| | | | | | | | | | ? ? ? [data|] | | | | ]; try done; try (by apply translated_as_is); try (by apply cas_translated);
    try (by apply dirty_translated);
    unfold exprs, reads in Hk; simpl in E, Hk; decompose_Forall_hyps.
  - do 2 back_expr E. rebuilt.
  - destruct (isIRAtom data); [by apply translated_as_is|]. back_expr E. rebuilt.
  - do 2 back_expr E. rebuilt.
  - destruct (isFlat data); [by apply translated_as_is|]. back_expr E. rebuilt.
  - do 2 back_expr E. rebuilt.
  - do 3 back_expr E. rebuilt.
  - do 3 back_expr E. rebuilt.
  - do 2 back_expr E. rebuilt.
  - do 2 back_expr E. rebuilt.
  - back_expr E. rebuilt.
  - back_expr E. rebuilt.
Qed.

(** * Blocks *)

(** A statement of the client that reads and assigns temporaries below [n] only. *)
Definition fits (n : Z) (st : IRStmt) : Prop :=
  is_tool n st = false /\ Forall (known n) (exprs st) /\ Forall (fun t => t < n) (assigns st).

Lemma is_tool_skeleton lo st st' : skeleton st' = skeleton st -> is_tool lo st' = is_tool lo st.
Proof.
  assert (forall st, is_tool lo (skeleton st) = is_tool lo st) as Hk by (by intros []).
  intros Hs. by rewrite <-Hk, Hs, Hk.
Qed.

Lemma is_tool_mono n lo st : n <= lo -> is_tool n st = false -> is_tool lo st = false.
Proof. intros Hn. destruct st; simpl; try done. rewrite !Z.leb_gt. lia. Qed.

(** Runs that are the same as far as temporaries below [n] and the outside go. *)
Definition alike (n : Z) (r r' : @outcome (C * option IRStmt)) : Prop :=
  agree n (out_temps r) (out_temps r') /\ (out_client r').1 = (out_client r).1 /\
  skeleton <$> (out_client r').2 = skeleton <$> (out_client r).2 /\ out_calls r' = out_calls r /\ completed r' = completed r.

Lemma exec_assignments lo l k tm c w : Forall (fun p => p.1 < lo) l ->
  exec (traced ir_step) lo (assignments l ++ k) tm (c, w) = exec (traced ir_step) lo k (assign_all c l tm) (c, w).
Proof.
  intros Hl. revert tm. induction Hl as [|[t e] l Ht Hl IH]; intros tm; [done|]. simpl in *.
  rewrite (proj2 (Z.leb_gt _ _)) by done. apply IH.
Qed.

(** A statement of the client, run and recorded. *)
Lemma exec_ir lo st k tm c w : st <> Ist_NoOp -> is_tool lo st = false ->
  let r := ir_step st tm c in
  exec (traced ir_step) lo (Some st :: k) tm (c, w) =
    if r.2 then exec (traced ir_step) lo k r.1.1 (r.1.2, w) else mkOut r.1.1 (r.1.2, Some st) [] false.
Proof.
  intros Hno Ht r. rewrite exec_step by done. unfold step_of, traced. rewrite Ht. subst r. cbn.
  destruct (ir_step st tm c).2; [|done]. by destruct (exec _ _ _ _ _).
Qed.

(** One statement and its translation, before code that is alike. *)
Lemma stmt_alike n lo st st' l k k' tm tm' c w w' :
  fits n st -> st <> Ist_NoOp -> n <= lo -> skeleton st' = skeleton st -> Forall (fun p => n <= p.1 < lo) l ->
  agree n tm tm' -> skeleton <$> w' = skeleton <$> w ->
  map (eval (assign_all c l tm') c) (exprs st') = map (eval tm' c) (exprs st) ->
  (forall tm tm' c w w', agree n tm tm' -> skeleton <$> w' = skeleton <$> w ->
     alike n (exec (traced ir_step) lo k tm (c, w)) (exec (traced ir_step) lo k' tm' (c, w'))) ->
  alike n (exec (traced ir_step) lo (Some st :: k) tm (c, w))
          (exec (traced ir_step) lo (assignments l ++ Some st' :: k') tm' (c, w')).
Proof.
  intros (Htool & Hk & Ha) Hno Hlo Hs Hl Hag Hw Hv IH.
  rewrite exec_assignments by (eapply Forall_impl; [exact Hl|]; simpl; lia).
  assert (st' <> Ist_NoOp) as Hno' by (intros ->; by destruct st).
  pose proof (is_tool_mono n lo st Hlo Htool) as Ht. rewrite !exec_ir by (done || by rewrite (is_tool_skeleton lo st st')).
  rewrite <-(evals_known n tm tm') in Hv by done.
  assert (agree n tm' (assign_all c l tm')) as Hag'.
  { apply assign_all_agree. eapply Forall_impl; [exact Hl|]. simpl. lia. }
  destruct (ir_step_values st st' tm (assign_all c l tm') c Hs Hv) as (A & B & D & E). rewrite A, B.
  assert (agree n (ir_step st tm c).1.1 (ir_step st' (assign_all c l tm') c).1.1) as Hr.
  { intros t Ht'. destruct (decide (t ∈ assigns st)) as [Hin|Hin]; [by rewrite D|]. destruct (E t Hin) as [-> ->].
    rewrite <-Hag' by done. by apply Hag. }
  destruct (ir_step st tm c).2; [by apply IH|]. split_and!; try done. simpl. by rewrite Hs.
Qed.

Lemma stmts_alike n lo l : forall s s1,
  flatten_stmts ord l s = Ok tt s1 -> n <= next_temp s -> next_temp s1 <= lo ->
  Forall (fun o => match o with Some st => fits n st | None => True end) l ->
  exists code, stmts s1 = stmts s ++ code /\ next_temp s <= next_temp s1 /\
    forall tm tm' c w w', agree n tm tm' -> skeleton <$> w' = skeleton <$> w ->
      alike n (exec (traced ir_step) lo l tm (c, w)) (exec (traced ir_step) lo code tm' (c, w')).
Proof.
  induction l as [|[st|] l IH]; intros s s1 E Hn Hlo Hf.
  - injection E as <-. exists []. rewrite app_nil_r. split_and!; [done..|]. intros. by split_and!.
  - inversion Hf as [|? ? Hst Hfl]; subst. simpl in E. apply bind_inv in E as ([] & s2 & Hm & E).
    destruct (noop_dec st) as [->|Hno]. { injection Hm as <-. apply (IH _ _ E Hn Hlo Hfl). }
    assert (translated s st s2) as (l1 & st' & Hc & Ht & Hl1 & Hs & Hv).
    { apply stmt_translated; try done. destruct Hst as (_ & Hk & _). eapply Forall_impl; [exact Hk|]. intros e. by apply known_mono. }
    destruct (IH _ _ E ltac:(lia) Hlo Hfl) as (code & Hc1 & Ht1 & Hr).
    exists (assignments l1 ++ Some st' :: code). split; [by rewrite Hc1, Hc, <-!app_assoc|]. split; [lia|].
    intros tm tm' c w w' Hag Hw. eapply stmt_alike; try done; [lia|].
    eapply Forall_impl; [exact Hl1|]. simpl. lia.
  - inversion Hf; subst. simpl in E. by apply IH.
Qed.
End Sim.
