(* ===== verification/IRFlatClaims.v ===== *)
(** What flattening guarantees: every block that passes the sanity check before it is flattened can be
    flattened, passes the stricter check of flat blocks after it, and does the same. *)
From stdpp Require Import gmap.
From S2P Require Import Prelude OSet Region Core Trans Pmem IR Instr InstrSpec InstrRun InstrClaims InstrSaneClaims.
From S2P Require Import IRSane IRSaneSpec IRSsa InstrSane IRDead IRDeadSpec IRDeadRun.
From S2P Require Import IRFlat IRFlatSpec IRFlatStmt IRFlatRun IRFlatMeaning IRFlatSim.
Local Open Scope Z_scope.
Local Open Scope pm_scope.

Section Flat.
Context `{PrimopTypes} `{PrimopArgs}.

(** The block that flattening starts from. *)
Lemma built_start gw tys nx jk off : built gw (fun _ => 0) (mkIRSB tys [] nx jk off).
Proof. by split. Qed.

Lemma sane_word bb flat gw : sanityCheckIRSB bb flat gw = true -> gw = Ity_I32 \/ gw = Ity_I64.
Proof. unfold sanityCheckIRSB. intros Hs. bools. destruct gw; try done; auto. Qed.

(** The block that flattening makes. *)
Lemma flatten_sane (ord : order) (gw : IRType) (bb : IRSB) :
  sanityCheckIRSB bb false gw = true -> forallb (entry plain_stmt) (stmts bb) = true -> plain_atom (next bb) = true ->
  exists s1, flatten_stmts ord (stmts bb) (mkIRSB (tyenv bb) [] (next emptyIRSB) (jumpkind emptyIRSB) (offsIP emptyIRSB)) = Ok tt s1 /\
    let bb' := mkIRSB (tyenv s1) (stmts s1) (next bb) (jumpkind bb) (offsIP bb) in
    flatten_BB ord bb = Ok tt bb' /\ sanityCheckIRSB bb' true gw = true.
Proof.
  intros Hsane Hplain Hnext. pose proof (sane_word _ _ _ Hsane) as Hgw. unfold sanityCheckIRSB in Hsane. types.
  match goal with Hd : bool_decide (is_Some _) = true |- _ => apply bool_decide_eq_true in Hd as (co & Hd) end.
  destruct (flatten_all ord gw bb (stmts bb) (fun _ => 0) co (fun _ => 0)
    (mkIRSB (tyenv bb) [] (next emptyIRSB) (jumpkind emptyIRSB) (offsIP emptyIRSB)))
    as (s1 & c1 & Heq & [Hf Ht Hc _] & Hl); [by split|apply built_start|done..|].
  assert (typeOfIRExpr (tyenv s1) (next bb) = Some gw) as Hty by (eapply expr_refines; [by eapply later_types|done]).
  exists s1. split; [done|]. split.
  - unfold flatten_BB. simpl stmts at 2. rewrite (bind_ok _ _ _ _ _ Heq). rewrite (bind_ok _ _ s1 (next bb) s1); [done|].
    apply flatten_atom; [by destruct (next bb)|..]; rewrite Hty; [done|]. by destruct Hgw as [->| ->].
  - unfold sanityCheckIRSB. simpl. bools; try done. + by destruct (next bb). + apply bool_decide_eq_true. by exists c1.
    + by apply has_type_iff.
Qed.

(** * The statements of a block that passes *)

Lemma assigned_range n st c c1 : assignedOnce_Stmt n st c = Some c1 -> Forall (fun t => t < n) (assigns st).
Proof.
  assert (forall t c c1, assignedOnce_Temp n t c = Some c1 -> t < n) as Ht.
  { intros t c' c1' Ha. apply assigned_temp in Ha. lia. }
  destruct st; simpl; intros Ha; eauto using Forall_cons, Forall_nil.
  - apply bind_Some in Ha as (c2 & Ha & Ha'). apply Forall_app. split; [|eauto using Forall_cons, Forall_nil].
    destruct (oldHi details =? IRTemp_INVALID); eauto using Forall_cons, Forall_nil.
  - destruct (d_tmp details); simpl; eauto using Forall_cons, Forall_nil.
Qed.

Lemma sane_fits env gw st c c1 : let n := Z.of_nat (length env) in
  tcStmt env gw st = true -> useBeforeDef_Stmt n c st = true -> assignedOnce_Stmt n st c = Some c1 ->
  plain_stmt st = true -> client_code st = true -> fits n st.
Proof.
  intros n Ht Hu Ha Hp Hc. pose proof (assigned_range _ _ _ _ Ha) as Hr. split_and!; [| |done].
  - destruct st; try done; simpl in *; [by apply Forall_inv, Z.leb_gt in Hr|]. by destruct (cee_addr (cee details)).
  - destruct (assign_dec st) as [(t & e & ->)|Hw]; [constructor; [by eapply used_known|done]|].
    assert (exprs st = reads st) as -> by (destruct st; try done; by edestruct Hw). apply Forall_app. split.
    + apply operands_used in Hu. eapply Forall_impl; [exact Hu|]. simpl. intros a Ho.
      destruct (is_IRExpr_VECRET_or_GSPTR a) eqn:Hs; [|by eapply used_known]. destruct a; try done; by intros u Hin%elem_of_nil.
    + destruct st; try done. constructor; [|done]. unfold plain_stmt in Hp. simpl in Hp, Ht. unfold tc_dirty in Ht. types.
      intros u Hin. destruct (guard details) eqn:Hg; try done; [|by apply elem_of_nil in Hin].
      apply list_elem_of_singleton in Hin as ->. by eapply sane_temp.
Qed.

Lemma sane_all_fit env gw l : forall c c1,
  forallb (entry (tcStmt env gw)) l = true -> forallb (entry plain_stmt) l = true -> forallb (entry client_code) l = true ->
  count_defs (Z.of_nat (length env)) l c = Some c1 ->
  Forall (fun o => match o with Some st => fits (Z.of_nat (length env)) st | None => True end) l.
Proof.
  induction l as [|[st|] l IH]; intros c c1 Ht Hp Hcl Hd; [constructor| |done]. simpl in *. bools.
  destruct (useBeforeDef_Stmt _ c st) eqn:Hu; [|done]. apply bind_Some in Hd as (c2 & Ha & Hd).
  constructor; [by eapply sane_fits|by eapply IH].
Qed.

(** The flattened block does what the original does. *)
Lemma flatten_flow {C} `{!Machine C} ord gw bb s1 lo :
  sanityCheckIRSB bb false gw = true -> forallb (entry plain_stmt) (stmts bb) = true -> plain_atom (next bb) = true ->
  forallb (entry client_code) (stmts bb) = true ->
  flatten_stmts ord (stmts bb) (mkIRSB (tyenv bb) [] (next emptyIRSB) (jumpkind emptyIRSB) (offsIP emptyIRSB)) = Ok tt s1 ->
  next_temp s1 <= lo -> forall tm c,
  flow ir_step lo (mkIRSB (tyenv s1) (stmts s1) (next bb) (jumpkind bb) (offsIP bb)) tm c = flow ir_step lo bb tm c.
Proof.
  intros Hsane Hplain Hnext Hcode E Hlo tm c. unfold sanityCheckIRSB in Hsane. types.
  match goal with Hd : bool_decide (is_Some _) = true |- _ => apply bool_decide_eq_true in Hd as (co & Hd) end.
  destruct (stmts_alike ord (next_temp bb) lo (stmts bb) _ _ E) as (code & Hc & Ht & Hr); [done..|by eapply sane_all_fit|].
  simpl in Hc. subst code. destruct (Hr tm tm c None None) as (A & B & D & F & _); [done..|]. unfold flow. simpl.
  rewrite B, F. f_equal.
  destruct ((out_client (exec (traced ir_step) lo (stmts s1) tm (c, None))).2) as [st'|],
    ((out_client (exec (traced ir_step) lo (stmts bb) tm (c, None))).2) as [st|]; try done.
  - simpl in D. injection D as D. destruct st, st'; try done. simpl in D. by simplify_eq.
  - do 3 f_equal. destruct (next bb) eqn:Hnx; try done. simpl. symmetry. apply A. unfold next_temp.
    match goal with Hty : typeOfIRExpr _ _ = Some _ |- _ => simpl in Hty; apply sane_temp in Hty; lia end.
Qed.
End Flat.

(** * Samples *)

(** A machine whose state is the list of its stores, that adds up the operands of every operation, and
    leaves a block at an exit whose guard is on. *)
#[local] Instance adding_machine : Machine (list (list Z)) := {
  node_val e vs c := match e with Iex_Get off _ => off | _ => fold_right Z.add 0 vs end;
  act st vs c := ([], match st with Ist_Store _ _ _ => vs :: c | _ => c end,
                  match st with Ist_Exit _ _ _ _ => bool_decide (vs = [0]) | _ => true end);
}.

(** A block with nested expressions. *)
Definition nested_block : IRSB :=
  mkIRSB [Ity_I64; Ity_I64]
    [Some (Ist_IMark 4096 4 0); Some Ist_NoOp;
     Some (Ist_WrTmp 0 (Iex_Binop Iop_Add64 (Iex_Load Iend_LE Ity_I64 (Iex_Get 16 Ity_I64)) (Iex_Const (Ico_U64 8))));
     Some (Ist_Store Iend_LE (Iex_Binop Iop_Add64 (Iex_RdTmp 0) (Iex_Get 24 Ity_I64))
             (Iex_Unop Iop_32Uto64 (Iex_Get 32 Ity_I32)));
     Some (Ist_Dirty (mkIRDirty (mkIRCallee 0 "helper" (other_helper 1) 0) (Iex_Const (Ico_U1 1)) [Iex_GSPTR; Iex_RdTmp 0] (Some 1)
             Ifx_None None 0 [mkIRFxState Ifx_Read 16 8 0 0]));
     Some (Ist_Exit (Iex_Binop Iop_CasCmpEQ64 (Iex_RdTmp 1) (Iex_Get 40 Ity_I64)) 3 (Ico_U64 8192) 184)]
    (Iex_RdTmp 0) 0 184.

(** * The claim *)

(** C18: flattening is correct: a block of the front end that passes the check of blocks that need not
    be flat, and in which the expressions that this check does not look into are atoms, can be
    flattened without a panic, in whatever order the arguments of each call are evaluated; the result
    passes the check of flat blocks, with every nested expression assigned once to a temporary of its
    own type before it is read; and on every machine, from every state, it leaves the client in the
    same state and jumps to the same place as the original block. *)
Theorem flatten_correct `{PrimopTypes} `{PrimopArgs} {C} `{!Machine C} (ord : order) (gw : IRType) (bb : IRSB)
    (Hsane : sanityCheckIRSB bb false gw = true)
    (Hplain : forallb (entry (fun st => plain_stmt st && client_code st)) (stmts bb) = true)
    (Hnext : plain_atom (next bb) = true) :
  exists bb', flatten_BB ord bb = Ok tt bb' /\ sanityCheckIRSB bb' true gw = true /\
    forall lo tm c, next_temp bb' <= lo -> flow ir_step lo bb' tm c = flow ir_step lo bb tm c.
Proof.
  assert (forallb (entry plain_stmt) (stmts bb) = true /\ forallb (entry client_code) (stmts bb) = true) as [Hp Hc].
  { split; (eapply entries_impl; [|exact Hplain]); simpl; intros; by bools. }
  destruct (flatten_sane ord gw bb Hsane Hp Hnext) as (s1 & E & Hbb & Hs). eexists. split_and!; [exact Hbb|exact Hs|].
  intros lo tm c Hlo. by eapply flatten_flow.
Qed.

(** The arguments from left to right, and from right to left: 11 is the last position of those of two, of three
    and of four. *)
Definition forwards : order := fun _ _ => [].
Definition backwards : order := fun _ _ => repeat 11%nat 4.

(** Every order of three computations is one of them, and their results stay in their places. *)
Example in_order_all :
  (fun o => match in_order 3 o [flat_temp Ity_I8; flat_temp Ity_I16; flat_temp Ity_I32] emptyIRSB with
            | Ok l s => (l, tyenv s) | Stop _ _ => ([], []) end) <$>
    [[0; 0]; [0; 1]; [1; 0]; [1; 1]; [2; 0]; [2; 1]]%nat =
  [([0; 1; 2], [Ity_I8; Ity_I16; Ity_I32]); ([0; 2; 1], [Ity_I8; Ity_I32; Ity_I16]);
   ([1; 0; 2], [Ity_I16; Ity_I8; Ity_I32]); ([2; 0; 1], [Ity_I16; Ity_I32; Ity_I8]);
   ([1; 2; 0], [Ity_I32; Ity_I8; Ity_I16]); ([2; 1; 0], [Ity_I32; Ity_I16; Ity_I8])].
Proof. vm_compute. reflexivity. Qed.

Lemma flatten_correct_witness :
  exists bb', flatten_BB backwards nested_block = Ok tt bb' /\ sanityCheckIRSB bb' true Ity_I64 = true /\
    forall lo tm c, next_temp bb' <= lo -> flow ir_step lo bb' tm c = flow ir_step lo nested_block tm c.
Proof. apply (flatten_correct backwards Ity_I64 nested_block); vm_compute; reflexivity. Defined.

(** The order of evaluation shows in the numbers of the temporaries only. *)
Example store_flattened :
  (fun ord : order => match flatten_BB ord (mkIRSB [] [Some (Ist_Store Iend_LE (Iex_Const (Ico_U64 64))
     (Iex_Binop Iop_Add64 (Iex_Get 16 Ity_I64) (Iex_Get 24 Ity_I64)))] (Iex_Const (Ico_U64 0)) 0 16) with
   | Ok _ bb' => stmts bb' | Stop _ _ => [] end) <$> [forwards; backwards] =
  [[Some (Ist_WrTmp 1 (Iex_Get 16 Ity_I64)); Some (Ist_WrTmp 2 (Iex_Get 24 Ity_I64));
    Some (Ist_WrTmp 0 (Iex_Binop Iop_Add64 (Iex_RdTmp 1) (Iex_RdTmp 2)));
    Some (Ist_Store Iend_LE (Iex_Const (Ico_U64 64)) (Iex_RdTmp 0))];
   [Some (Ist_WrTmp 1 (Iex_Get 24 Ity_I64)); Some (Ist_WrTmp 2 (Iex_Get 16 Ity_I64));
    Some (Ist_WrTmp 0 (Iex_Binop Iop_Add64 (Iex_RdTmp 2) (Iex_RdTmp 1)));
    Some (Ist_Store Iend_LE (Iex_Const (Ico_U64 64)) (Iex_RdTmp 0))]].
Proof. vm_compute. reflexivity. Qed.

(** Why the other expressions have to be atoms: the check does not look into the operands of a hint, and
    once they are flattened it does. *)
Example hint_unchecked :
  let bb := mkIRSB [] [Some (Ist_AbiHint (Iex_Binop Iop_Add64 (Iex_Const (Ico_U8 1)) (Iex_Const (Ico_U64 0))) 128 (Iex_Const (Ico_U64 0)))]
    (Iex_Const (Ico_U64 0)) 0 16 in
  sanityCheckIRSB bb false Ity_I64 = true /\
  match flatten_BB forwards bb with Ok _ bb' => sanityCheckIRSB bb' true Ity_I64 | Stop _ _ => true end = false.
Proof. split; vm_compute; reflexivity. Qed.
