(* ===== verification/EndToEnd.v ===== *)
(** From the client's code to the tracker: the helper calls of instrumented blocks, dispatched to the
    tool's handlers, leave the tool in the state the tracker has after the stores, flushes and fences
    of the original blocks. *)
From S2P Require Import Prelude OSet OSetTree OSetSpec Region RegionSpec Core Trans Pmem Store Flush Report Client Spec StoreSpec MapSpec FlushSpec FenceSpec ReportSpec Sample Refine IR Instr InstrSpec InstrRun InstrClaims.
Local Open Scope Z_scope.
Local Open Scope pm_scope.

(** ** The interface between the added code and the handlers *)

(** A call with the arguments its helper takes. *)
Definition call_ok (cl : call) : bool :=
  match callee cl, values cl with
  | trace_pmem_store_h, [_; _; _] | trace_pmem_flush_h, [_] | do_fence_h, [] | add_one_SB_entered_h, [] => true
  | _, _ => false
  end.

(** What the tracker is told; a flush is one of [line] bytes. *)
Definition call_event (line : Z) (cl : call) : option event :=
  match callee cl, values cl with
  | trace_pmem_store_h, [a; n; v] => Some (EvStore a n v)
  | trace_pmem_flush_h, [a] => Some (EvFlush a line)
  | do_fence_h, [] => Some EvFence
  | _, _ => None
  end.

Section Dispatch.
Context `{CoreEnv}.

Definition handle_call (cl : call) : PM unit :=
  match callee cl, values cl with
  | trace_pmem_store_h, [a; n; v] => trace_pmem_store a n v
  | trace_pmem_flush_h, [a] => trace_pmem_flush a
  | do_fence_h, [] => do_fence
  | add_one_SB_entered_h, [] => add_one_SB_entered
  | _, _ => stopM AssertFail
  end.

Fixpoint handle_calls (l : list call) : PM unit :=
  match l with
  | [] => retM tt
  | cl :: l => handle_call cl ;;; handle_calls l
  end.

(** A call is its event, or only counts a block. *)
Lemma handle_call_event cl w :
  call_ok cl = true ->
  match call_event (flush_align_size (opts (pmem w))) cl with
  | Some ev => handle_call cl w = handle_event ev w
  | None => handle_call cl w = add_one_SB_entered w
  end.
Proof.
  destruct cl as [h l]. unfold call_ok, call_event, handle_call. simpl.
  destruct h, l as [|? [|? [|? [|]]]]; done.
Qed.

Lemma entered_ok P k w :
  inv P k w -> exists w', add_one_SB_entered w = Ok tt w' /\ inv P k w' /\ pmem w' = pmem w.
Proof. intros []. eexists. split; [reflexivity|]. by split. Qed.

Lemma handle_calls_ok P `{!TxQuiet P} line l : forall k w maps,
  let evs := omap (call_event line) l in
  let check := check_flush (opts (pmem w)) in
  inv P k w -> flush_align_size (opts (pmem w)) = line -> forallb call_ok l = true ->
  k + Z.of_nat (length evs) < iter_limit -> forallb event_ok evs = true ->
  same_bytes (mapped w) maps -> never_cuts check maps evs (view w) = true ->
  warnings_fit (track_all check maps evs (view w)) ->
  exists w', handle_calls l w = Ok tt w' /\ view w' = track_all check maps evs (view w).
Proof.
  induction l as [|cl l IH]; intros k w maps evs check Hinv Hline Hcl Hk Hok Hm Hcut Hfit; [by exists w|].
  cbn [forallb] in Hcl. apply andb_true_iff in Hcl as [Hc Hcl]. cbn [handle_calls].
  pose proof (handle_call_event cl w Hc) as Hcall. rewrite Hline in Hcall.
  unfold evs in *. cbn [omap list_omap] in *. destruct (call_event line cl) as [ev|].
  - cbn [length forallb never_cuts track_all] in *.
    apply andb_true_iff in Hok as [Hok1 Hok2], Hcut as [Hcut1 Hcut2].
    destruct (handle_event_ok P k w maps ev) as (w1 & Heq & Hinv1 & Ho1 & Hm1 & Hv1); try done; [lia| |].
    { destruct Hfit as [Hr Hs].
      destruct (track_all_grows check (omap (call_event line) l) (map_after ev maps) (track check maps ev (view w))).
      split; fold check; lia. }
    rewrite <-Hcall in Heq. rewrite (bind_ok _ _ _ _ _ Heq).
    destruct (IH (k + 1) w1 (map_after ev maps)) as (w2 & Heq2 & Hv2); rewrite ?Ho1, ?Hv1; try done; [lia|].
    exists w2. split; [done|]. by rewrite Hv2, Ho1, Hv1.
  - destruct (entered_ok P k w Hinv) as (w1 & Heq & Hinv1 & Hp). rewrite <-Hcall in Heq.
    rewrite (bind_ok _ _ _ _ _ Heq).
    assert (view w1 = view w /\ mapped w1 = mapped w) as [Hv1 Hm1] by (unfold view, mapped; by rewrite Hp).
    destruct (IH k w1 maps) as (w2 & Heq2 & Hv2); rewrite ?Hp, ?Hv1, ?Hm1; try done.
    exists w2. split; [done|]. by rewrite Hv2, Hp, Hv1.
Qed.
End Dispatch.

(** ** The calls an observer expects have the arguments their helpers take *)

Lemma data_calls_ok tm ty n a data : forallb call_ok (data_calls tm ty n a data) = true.
Proof. unfold data_calls. destruct data as [| | | | | | | | | |[]| | | |]; try done; by destruct ty. Qed.

Section Observed.
Context `{PrimopTypes} {C : Type} (client : IRStmt -> temps -> C -> temps * C * bool).

Lemma stores_calls_ok env a data tm : forallb call_ok (stores env a data tm) = true.
Proof.
  unfold stores. destruct (typeOfIRExpr env data) as [ty|]; [|done].
  destruct (sizeofIRType ty); [|done]. apply data_calls_ok.
Qed.

Lemma expected_calls_ok o env st tm : forallb call_ok (expected o env st tm) = true.
Proof.
  destruct st as [| | | | | |e a data| |sg|cas|e r a [data|]| |ev| |a fk]; try done.
  - apply stores_calls_ok.
  - simpl. destruct (is_on tm (sg_guard sg)); [apply stores_calls_ok|done].
  - simpl. destruct (typeOfIRExpr env (expdLo cas)); [|done]. destruct (_ =? 1); [apply stores_calls_ok|done].
  - apply stores_calls_ok.
  - simpl. by destruct ev, (automatic_isa_rec o).
  - simpl. by destruct (automatic_isa_rec o), fk, (weak_clflush o).
Qed.

Lemma step_calls_ok st tm c k :
  (forall tm c, forallb call_ok (out_calls (k tm c)) = true) ->
  forallb call_ok (out_calls (client_step client st tm c k)) = true.
Proof. intros Hk. unfold client_step. destruct (client st tm c).2; [apply Hk|done]. Qed.

Lemma observed_calls_ok o env l : forall tm c, forallb call_ok (out_calls (observed client o env l tm c)) = true.
Proof.
  induction l as [|[st|] l IH]; intros tm c; [done| |apply IH].
  destruct (noop_dec st) as [->|Hno]; [apply IH|]. rewrite observed_cons by done.
  apply step_calls_ok. intros. simpl. by rewrite forallb_app, expected_calls_ok, IH.
Qed.

Lemma observed_block_calls_ok o env l : forall tm c,
  forallb call_ok (out_calls (observed_block client o env l tm c)) = true.
Proof.
  induction l as [|[st|] l IH]; intros tm c; [done| |apply IH].
  destruct (imark_dec st) as [(a & n & d & ->)|Hmark].
  { cbn [observed_block]. simpl. by apply (observed_calls_ok o env (Some (Ist_IMark a n d) :: l)). }
  destruct (noop_dec st) as [->|Hno]; [apply IH|]. rewrite observed_block_cons by done.
  by apply step_calls_ok.
Qed.
End Observed.

(** ** Runs in two parts *)

Lemma track_all_app check evs1 evs2 : forall maps t,
  track_all check maps (evs1 ++ evs2) t = track_all check (maps_after maps evs1) evs2 (track_all check maps evs1 t).
Proof. induction evs1 as [|ev evs1 IH]; intros maps t; [done|]. apply IH. Qed.

Lemma never_cuts_app check evs1 evs2 : forall maps t,
  never_cuts check maps (evs1 ++ evs2) t =
    never_cuts check maps evs1 t &&
    never_cuts check (maps_after maps evs1) evs2 (track_all check maps evs1 t).
Proof.
  induction evs1 as [|ev evs1 IH]; intros maps t; [done|]. cbn [app never_cuts track_all].
  by rewrite IH, andb_assoc.
Qed.

(** An executed block: the original, what became of it, and the state it was entered in. *)
Record visit (C : Type) : Type := mkVisit {
  v_block : IRSB; v_instrumented : IRSB; v_temps : temps; v_client : C;
}.
Arguments mkVisit {C} _ _ _ _.
Arguments v_block {C} _.
Arguments v_instrumented {C} _.
Arguments v_temps {C} _.
Arguments v_client {C} _.

Section Visits.
Context `{PrimopTypes} {C : Type} (client : IRStmt -> temps -> C -> temps * C * bool) (o : options).

(** The block that runs is the one the instrumentation made. *)
Definition visit_ok (v : visit C) : Prop :=
  block_ok client (v_block v) /\
  exists g g', pmc_instrument o (v_block v) Ity_I64 Ity_I64 g = Ok tt (mkInstr (v_instrumented v) g').

(** The calls the instrumented block makes. *)
Definition visit_calls (v : visit C) : list call :=
  out_calls (exec client (Z.of_nat (length (tyenv (v_block v)))) (stmts (v_instrumented v)) (v_temps v) (v_client v)).

(** The events of the original block. *)
Definition visit_events (line : Z) (v : visit C) : list event :=
  omap (call_event line)
    (out_calls (observed_block client o (tyenv (v_block v)) (stmts (v_block v)) (v_temps v) (v_client v))).

Lemma visit_calls_observed v :
  visit_ok v -> visit_calls v =
    out_calls (observed_block client o (tyenv (v_block v)) (stmts (v_block v)) (v_temps v) (v_client v)).
Proof.
  intros [Hok (g & g' & Hi)]. destruct (pmc_instrument_run client o (v_block v) g Hok) as (code & tys & g2 & Heq & Hr).
  cbn [i_glob] in Heq. rewrite Hi in Heq. simplify_eq.
  destruct (Hr (v_temps v) (v_temps v) (v_client v)) as (_ & _ & Hcalls & _); [done|].
  unfold visit_calls. destruct v as [bb bb' tm c]. simpl in *. by simplify_eq/=.
Qed.

Lemma visit_calls_ok line v :
  visit_ok v -> omap (call_event line) (visit_calls v) = visit_events line v /\ forallb call_ok (visit_calls v) = true.
Proof. intros Hv. unfold visit_events. rewrite visit_calls_observed by done. split; [done|apply observed_block_calls_ok]. Qed.

Lemma visits_calls_ok line vs :
  Forall visit_ok vs ->
  omap (call_event line) (flat_map visit_calls vs) = flat_map (visit_events line) vs /\
  forallb call_ok (flat_map visit_calls vs) = true.
Proof.
  induction 1 as [|v vs Hv Hvs [IH1 IH2]]; [done|]. cbn [flat_map].
  destruct (visit_calls_ok line v Hv) as [E1 E2]. by rewrite omap_app, forallb_app, E1, E2, IH1, IH2.
Qed.
End Visits.

(** ** The whole tool *)

(** A client registers its mappings (and makes other requests) and then executes a sequence of
    blocks; the tool runs their instrumented versions, whose helper calls go to the handlers.  Then the
    tool holds exactly the stores, flush marks and warnings the tracker holds after the events of the calls an
    observer of the original blocks expects. *)
Lemma instrumented_run_view `{PrimopTypes} `{CoreEnv} `{ClientEnv} {C}
    (client : IRStmt -> temps -> C -> temps * C * bool) w evs vs
    (Hvs : Forall (visit_ok client (opts (pmem w))) vs)
    (Hrun : run_ok w (evs ++ flat_map (visit_events client (opts (pmem w)) read_cache_line_size) vs)) :
  exists w', (session evs ;;; handle_calls (flat_map (visit_calls client) vs)) w = Ok tt w' /\
    view w' = track_all (check_flush (opts (pmem w))) []
      (evs ++ flat_map (visit_events client (opts (pmem w)) read_cache_line_size) vs) no_pending.
Proof.
  destruct (visits_calls_ok client _ read_cache_line_size vs Hvs) as [He Hcl]. rewrite <-He in *.
  set (l := flat_map (visit_calls client) vs) in *. set (o := opts (pmem w)) in *.
  destruct Hrun as [Hro1 Hro2 Hro3 Hro4 Hro5 Hro6 Hro7]. fold o in Hro1, Hro3, Hro6, Hro7.
  rewrite forallb_app in Hro4. rewrite length_app in Hro5. rewrite never_cuts_app in Hro6. rewrite track_all_app in Hro7 |- *.
  apply andb_true_iff in Hro4 as [Hro4 Hro4'], Hro6 as [Hro6 Hro6'].
  set (t1 := track_all (check_flush o) [] evs no_pending) in *.
  destruct (session_ok evs w) as (w1 & Heq1 & Hinv1 & Hv1 & Ho1 & Hm1); fold o; try done; [lia| |].
  { destruct Hro7 as [Hr Hs]. fold t1. destruct (track_all_grows (check_flush o) (omap (call_event read_cache_line_size) l)
      (maps_after [] evs) t1). split; lia. }
  fold o in Hv1, Ho1. fold t1 in Hv1. rewrite (bind_ok _ _ _ _ _ Heq1).
  assert (check_flush (opts (pmem w1)) = check_flush o) as Hc by by rewrite Ho1.
  destruct (handle_calls_ok tx_idle read_cache_line_size l (Z.of_nat (length evs)) w1 (maps_after [] evs))
    as (w2 & Heq2 & Hv2); rewrite ?Hc, ?Hv1; try done.
  - by rewrite Ho1.
  - lia.
  - exists w2. split; [done|]. by rewrite Hv2, Hc, Hv1.
Qed.

(** The sample block with the first temporary pointing into a mapping. *)
Definition sample_visit : visit (list (Z * Z)) :=
  mkVisit sample_block
    (match pmc_instrument checked_options sample_block Ity_I64 Ity_I64 (the_globals (sample_world checked_options)) with
     | Ok _ s | Stop _ s => sbOut s
     end) (fun t => if t =? 0 then 4096 else if t =? 2 then 2 ^ 100 + 1 else 0) [].

(** An executed flush instruction is taken as a flush of a cache line's length from its operand
    on, not of the line that contains it: after a store at 4160, a flush at 4156, which is in the
    line before, and a fence, the store is no longer tracked. *)
Theorem unaligned_flush_next_line :
  4156 / read_cache_line_size <> 4160 / read_cache_line_size /\
  exists w', (session [EvMap 4096 4096] ;;;
      handle_calls [mkCall trace_pmem_store_h [4160; 8; 5]; mkCall trace_pmem_flush_h [4156]; mkCall do_fence_h []])
      (sample_world default_options) = Ok tt w' /\ tracks_byte (view w') 4160 = false.
Proof.
  split; [done|].
  destruct (ends_with_ok (fun w => negb (tracks_byte (view w) 4160)) ((session [EvMap 4096 4096] ;;;
      handle_calls [mkCall trace_pmem_store_h [4160; 8; 5]; mkCall trace_pmem_flush_h [4156]; mkCall do_fence_h []])
      (sample_world default_options))) as (w' & Heq & Hb); [vm_compute; reflexivity|].
  exists w'. split; [exact Heq|]. by apply negb_true_iff.
Qed.
