(* ===== verification/EpochSpec.v ===== *)
(** The end of an epoch: the stores of the epoch that are still tracked are reported and counted. *)
From S2P Require Import Prelude OSet OSetTree OSetSpec Region RegionSpec Core Trans Pmem Store Flush Report Client Spec StoreSpec SlotLoop FlushSpec FenceSpec ReportSpec Sample Refine.
Local Open Scope Z_scope.
Local Open Scope pm_scope.

(** ** What is reported *)

Definition epoch_lines (e : pmem_st) : list msg :=
  [Umsg "Not persistent memory even if the epoch ends: \n" [];
   Umsg "\tAddress: 0x%lx\tsize: %llu\tstate: %s\n"
     [Num (addr e); Num (size e); Str (store_state_to_string (state e))]].

Definition of_epoch (l : list pmem_st) : list pmem_st := List.filter inEpoch l.

Definition ended (e : pmem_st) : pmem_st := if inEpoch e then set_inEpoch false e else e.

(** A world after the stores [l] have been looked at. *)
Definition reach_epoch (w : world) (a : pmem_stores_array) (set : region_set) (l : list pmem_st) : world :=
  let w' := reach_report w a set (flat_map epoch_lines (of_epoch l)) in
  set_pmem (set_epoch_durability_reg (epoch_durability_reg (pmem w) + Z.of_nat (length (of_epoch l))) (pmem w')) w'.

Lemma reach_epoch_self w : reach_epoch w (array (pmem w)) (pmem_stores (pmem w)) [] = w.
Proof. unfold reach_epoch. simpl. rewrite Z.add_0_r. by destruct w as [[[] ?] [] ? ? ?]. Qed.

Lemma reach_epoch_trans w a1 s1 l1 a2 s2 l2 :
  reach_epoch (reach_epoch w a1 s1 l1) a2 s2 l2 = reach_epoch w a2 s2 (l1 ++ l2).
Proof.
  unfold reach_epoch, of_epoch. rewrite List.filter_app, flat_map_app, length_app, Nat2Z.inj_add.
  rewrite Z.add_assoc. unfold reach_report. cbn. rewrite <-put_msgs_app. done.
Qed.

(** The effect of the loop over the array. *)
Definition reach_slots_epoch (w : world) (sl : Z -> pmem_st) (l : list pmem_st) : world :=
  reach_epoch w (set_slots sl (array (pmem w))) (pmem_stores (pmem w)) l.

#[export] Instance epoch_loop : LoopLaws reach_slots_epoch (fun w => terse (opts (pmem w))).
Proof.
  split; [|intros w s1 l1 s2 l2; apply reach_epoch_trans|done|done]. intros w. unfold reach_slots_epoch.
  replace (set_slots (slots_of w) (array (pmem w))) with (array (pmem w)) by (by destruct (array (pmem w))).
  apply reach_epoch_self.
Qed.

Section Epoch.
Context `{CoreEnv}.

Lemma report_epoch_store_ok e w :
  terse (opts (pmem w)) ->
  report_epoch_store e w = Ok tt (reach_report w (array (pmem w)) (pmem_stores (pmem w)) (epoch_lines e)).
Proof.
  intros [Ht Hd]. unfold report_epoch_store. step.
  erewrite bind_ok; [|unfold pp_context_opt; step; step; cbn; rewrite Ht, Hd; reflexivity].
  by destruct w as [[[] ?] [] ? ? ?].
Qed.

(** ** The array *)

Lemma epoch_slot_ok w i :
  terse (opts (pmem w)) -> is_delete (slots_of w i) = false ->
  slots_mapped reach_slots_epoch ended w i (i + 1) (epoch_end_slot i w).
Proof.
  intros Ho Hd. unfold slots_mapped. rewrite arr_list_cons, arr_list_nil by lia.
  unfold epoch_end_slot, ended. step. rewrite Hd. destruct (inEpoch (slots_of w i)) eqn:He; cbn [andb negb whenM].
  - exists (arr_upd i (set_inEpoch false) (slots_of w)). split.
    + rewrite (bind_ok _ _ _ _ _ (report_epoch_store_ok (slots_of w i) w Ho)). step.
      unfold reach_slots_epoch, reach_epoch, of_epoch. cbn [List.filter flat_map length]. rewrite He.
      by destruct w as [[[] ?] [] ? ? ?].
    + intros j. unfold arr_upd. destruct (Z.eqb_spec j i) as [->|]; [rewrite He|]; by repeat ztest; (lia || cbn).
  - exists (slots_of w). split.
    + unfold retM. f_equal. etransitivity; [symmetry; apply (reach_none w)|].
      unfold reach_slots_epoch, reach_epoch, of_epoch. cbn [List.filter]. by rewrite He.
    + intros j. destruct (Z.eqb_spec j i) as [->|]; [rewrite He|]; by repeat ztest; (lia || cbn).
Qed.

Lemma epoch_array_ok w :
  terse (opts (pmem w)) -> array_shape (array (pmem w)) ->
  slots_mapped reach_slots_epoch ended w 0 (fill (array (pmem w)))
    (all_snippets tt (fun _ s => all_slots s tt (fun _ => epoch_end_slot)) w).
Proof.
  intros Ho Ha. pose (live := fun e => is_delete e = false).
  apply (all_snippets_mapped reach_slots_epoch (fun w => terse (opts (pmem w))) ended (fun _ => Forall live)
    (fun s => all_slots s tt (fun _ => epoch_end_slot))); [|done|done|].
  - intros w' s sn Ho' Hle Hl. apply (all_slots_mapped reach_slots_epoch _ ended live epoch_end_slot s w'); try done.
    intros w'' i Ho'' Hd. by apply epoch_slot_ok.
  - intros s Hs. eapply Forall_impl; [exact (sn_entries _ _ (ar_snippets _ Ha s Hs))|]. intros e He. apply He.
Qed.

(** ** The tree *)

Definition ended_n (n : nat * pmem_st) : nat * pmem_st := (n.1, ended n.2).

Lemma epoch_node_ok w dn i e rem :
  terse (opts (pmem w)) -> own_view (pmem_stores (pmem w)) (dn ++ (i, e) :: rem) rem ->
  exists set', epoch_end_node (i, e) w = Ok tt (reach_epoch w (array (pmem w)) set' [e]) /\
    own_view set' (dn ++ ended_n (i, e) :: rem) rem /\ card set' = card (pmem_stores (pmem w)).
Proof.
  intros Ho Hv. unfold epoch_end_node, ended_n, ended. cbn [fst snd].
  destruct (inEpoch e) eqn:He; cbn [whenM].
  - exists (OSetGen_Update (pmem_stores (pmem w)) i (set_inEpoch false)). split; [|split; [|apply Update_card]].
    + rewrite (bind_ok _ _ _ _ _ (report_epoch_store_ok e w Ho)). step.
      unfold reach_epoch, of_epoch. cbn [List.filter flat_map length]. rewrite He.
      by destruct w as [[[] ?] [] ? ? ?].
    + by apply (view_update _ _ _ dn i e rem (set_inEpoch false)).
  - exists (pmem_stores (pmem w)). split; [|done]. unfold retM. f_equal.
    rewrite <-(reach_epoch_self w) at 1. unfold reach_epoch, of_epoch. cbn [List.filter]. by rewrite He.
Qed.

Lemma epoch_nodes_ok rem : forall dn w fuel,
  terse (opts (pmem w)) -> own_view (pmem_stores (pmem w)) (dn ++ rem) rem -> (length rem < fuel)%nat ->
  exists set', while_next fuel (set_next Stores) epoch_end_node w =
      Ok tt (reach_epoch w (array (pmem w)) set' rem.*2) /\
    own_view set' (dn ++ (ended_n <$> rem)) [] /\ card set' = card (pmem_stores (pmem w)).
Proof.
  unfold while_next.
  induction rem as [|[i e] rem IH]; intros dn w fuel Ho Hv Hfuel;
    (destruct fuel as [|fuel]; [simpl in *; lia|]); cbn [fold_next];
    destruct (set_next_ok w _ _ Hv) as (set1 & Hnext & Hv1 & Hsz1);
    rewrite (bind_ok _ _ _ _ _ Hnext); cbn [head tail] in *.
  - exists set1. split; [|done]. unfold retM, reach_epoch. cbn. rewrite Z.add_0_r.
    by destruct w as [[[] ?] [] ? ? ?].
  - set (w1 := reach_tree w set1 (redundant_flushes (pmem w))).
    destruct (epoch_node_ok w1 dn i e rem Ho Hv1) as (set2 & Heq2 & Hv2 & Hsz2).
    rewrite (bind_ok _ _ _ _ _ Heq2). set (w2 := reach_epoch w1 _ _ _).
    destruct (IH (dn ++ [ended_n (i, e)]) w2 fuel) as (set3 & Heq3 & Hv3 & Hsz3); try done.
    { by rewrite <-app_assoc. } { simpl in *; lia. }
    exists set3. rewrite <-app_assoc in Hv3. split; [|split; [done|]].
    + rewrite Heq3. unfold w2. by rewrite reach_epoch_trans.
    + rewrite Hsz3. change (card set2 = card (pmem_stores (pmem w))). rewrite Hsz2. exact Hsz1.
Qed.

(** ** The whole epoch *)

(** The tracked stores as they are kept: those of the tree, and the slots that are filled. *)
Definition kept_stores (w : world) : list pmem_st :=
  elems (pmem_stores (pmem w)) ++ arr_list (slots (array (pmem w))) 0 (fill (array (pmem w))).

Lemma view_ended fl e : view_st (eff fl (ended e)) = view_st (eff fl e).
Proof. unfold ended. destruct (inEpoch e); by destruct fl. Qed.

Lemma of_epoch_ended l : of_epoch (ended <$> l) = [].
Proof.
  induction l as [|e l IH]; [done|]. rewrite fmap_cons. cbn [of_epoch List.filter].
  assert (inEpoch (ended e) = false) as -> by (unfold ended; by destruct (inEpoch e) eqn:E). exact IH.
Qed.

Lemma array_view_ended a sl :
  (forall j, sl j = ended (slots a j) \/ sl j = slots a j) ->
  view_st <$> array_entries (set_slots sl a) = view_st <$> array_entries a.
Proof.
  intros Hs. unfold array_entries. cbn [snippet_info_index set_slots].
  etransitivity; [apply concat_map|]. etransitivity; [|symmetry; apply concat_map]. f_equal.
  etransitivity; [apply map_map|]. etransitivity; [|symmetry; apply map_map]. apply map_ext. intros s.
  unfold snip_entries, snip_list, arr_list. cbn. rewrite <-!list_fmap_compose.
  apply list_fmap_ext. intros _ j _. simpl. destruct (Hs j) as [-> | ->]; [apply view_ended|done].
Qed.

Lemma epoch_end_ok w txid b :
  stores_ok w -> epoch (pmem w) = true -> terse (opts (pmem w)) ->
  is_nest_trans txid (w_tx w) = Ok b (w_tx w) ->
  exists sl set, let a := set_slots sl (array (pmem w)) in
    let w' := reach_epoch w a set (kept_stores w) in
    epoch_end txid w = Ok tt (set_pmem (set_epoch_fence 0 (set_epoch b (pmem w'))) w') /\
    (forall j, sl j = if (0 <=? j) && (j <? fill a) then ended (slots (array (pmem w)) j) else slots (array (pmem w)) j) /\
    elems set = ended <$> elems (pmem_stores (pmem w)).
Proof.
  intros [Ha Ht Hst] Hep Ho Hnest.
  unfold epoch_end. step. rewrite Hep. cbn [negb]. rewrite (bind_ok _ _ _ _ _ (in_tx_ok _ _ _ Hnest)).
  set (w1 := set_pmem (set_epoch_fence 0 (set_epoch b (pmem w))) w).
  assert (forall k : PM unit, (whenM (negb b) (pmod (set_epoch false)) ;;; pmod (set_epoch_fence 0) ;;; k) w = k w1) as ->.
  { intros k'. unfold w1. destruct b; cbn [negb whenM]; step; step; [|done].
    assert (set_epoch true (pmem w) = pmem w) as -> by (destruct (pmem w); simpl in Hep; by rewrite Hep). by destruct w. }
  destruct (set_reset_ok w1 (tr_ok _ _ _ _ Ht)) as (set1 & Hreset & Hv1 & Hroot1 & Hsz1).
  { exact Hst. }
  rewrite (bind_ok _ _ _ _ _ Hreset). step.
  set (w2 := reach_tree w1 set1 _).
  destruct (epoch_nodes_ok (nodes (pmem_stores (pmem w1))) [] w2 (S (4 * tree_size (root set1))))
    as (set2 & Heq2 & Hv2 & Hsz2); [done|exact Hv1| |].
  { rewrite Hroot1. unfold nodes. rewrite length_inorder. lia. }
  rewrite (bind_ok _ _ _ _ _ Heq2). set (w3 := reach_epoch w2 _ _ _).
  assert (array (pmem w3) = array (pmem w) /\ terse (opts (pmem w3))) as [Ha3 Ho3] by done.
  destruct (epoch_array_ok w3 Ho3) as (sl & Heq3 & Hs3); [rewrite Ha3; exact (ar_shape _ Ha)|].
  unfold reach_slots_epoch in Heq3. rewrite Ha3 in Heq3, Hs3.
  exists sl, set2. split; [|split; [exact Hs3|]].
  - etransitivity; [exact Heq3|]. unfold w3. rewrite reach_epoch_trans.
    by destruct w as [[[] ?] [] ? ? ?].
  - unfold elems. rewrite (view_nodes _ _ _ _ _ Hv2). simpl. by rewrite <-!list_fmap_compose.
Qed.
End Epoch.

(** C36: at the end of an epoch exactly the tracked stores that are marked as made in an epoch (their
    inEpoch field) are reported, each once, and counted as errors of durability besides those
    counted before; afterwards none of them has the mark any more, what is tracked is the same, the
    count of fences is zero, and the epoch goes on exactly if the transaction is a nested one.
    This is for every state with a well-formed array and tree, whatever the other options and the
    errors so far, without tree reorganization and detailed reports. *)
Theorem epoch_end_exact `{CoreEnv} w txid b (Hstores : stores_ok w)
    (Hep : epoch (pmem w) = true) (Hterse : terse (opts (pmem w)))
    (Hnest : is_nest_trans txid (w_tx w) = Ok b (w_tx w)) :
  let l := of_epoch (kept_stores w) in
  exists w', epoch_end txid w = Ok tt w' /\
    epoch_durability_reg (pmem w') = epoch_durability_reg (pmem w) + Z.of_nat (length l) /\
    output (the_globals w') = rev (flat_map epoch_lines l) ++ output (the_globals w) /\
    kept_stores w' = ended <$> kept_stores w /\ of_epoch (kept_stores w') = [] /\
    view w' = view w /\ epoch (pmem w') = b /\ epoch_fence (pmem w') = 0.
Proof.
  intros l. destruct (epoch_end_ok w txid b Hstores Hep Hterse Hnest) as (sl & set & Heq & Hs & Hel).
  set (w' := set_pmem _ _) in Heq. exists w'. split; [exact Heq|].
  assert (kept_stores w' = ended <$> kept_stores w) as Hkept.
  { unfold kept_stores. rewrite fmap_app. f_equal; [exact Hel|]. unfold w'. cbn.
    unfold arr_list. rewrite <-list_fmap_compose. apply list_fmap_ext. intros n j Hj.
    apply lookup_seqZ in Hj as [-> Hj]. rewrite Hs. change (fill (set_slots sl _)) with (fill (array (pmem w))) in *.
    by repeat ztest; (lia || cbn). }
  split; [done|]. split; [done|]. split; [done|]. split.
  { by rewrite Hkept, of_epoch_ended. }
  split; [|done]. unfold view. f_equal.
  - change (pmem_stores (pmem w')) with set. rewrite Hel, <-list_fmap_compose. apply list_fmap_ext.
    intros _ e _. exact (view_ended NO_FLUSHED e).
  - apply array_view_ended. intros j. rewrite Hs. destruct (_ && _); auto.
Qed.

(** An epoch with two stores that are not persistent. *)
Definition epoch_events : list event := [EvMap 4096 4096; EvStore 4096 8 1; EvStore 5000 4 2; EvFlush 4096 64].

Lemma nest_reads id t : match is_nest_trans id t with Ok _ t' => t' = t | Stop _ _ => True end.
Proof.
  unfold is_nest_trans, tx_lookup. step. destruct (OSetGen_LookupNode _ _) as [[p ?]|]; [|done].
  cbn. unfold bindM, tx_deref, getsM, get, liftM. cbn. by destruct (OSetGen_Deref _ _).
Qed.

Definition epoch_sample (w : world) : bool :=
  epoch (pmem w) && negb (o_tree_reorganization (opts (pmem w)) || o_print_bug_detail (opts (pmem w))) && (length (of_epoch (kept_stores w)) =? 2)%nat &&
  match is_nest_trans 1 (w_tx w) with Ok b _ => negb b | Stop _ _ => false end.

Lemma epoch_run_ok (p : world -> bool) :
  ends_with p ((pmc_post_clo_init ;;; epoch_begin ;;; handle_events epoch_events) (sample_world default_options)) = true ->
  exists w, inv tx_idle 4 w /\ p w = true.
Proof.
  intros Hp. destruct (ends_with_ok p _ Hp) as (w & Heq & Hw). clear Hp.
  exists w. split; [|exact Hw].
  destruct (init_ok (sample_world default_options)) as (w1 & Heq1 & Hinv1 & Ho1 & Hm1 & Hv1);
    [by repeat split|done|done|].
  rewrite (bind_ok _ _ _ _ _ Heq1) in Heq.
  set (w2 := set_pmem (set_epoch true (pmem w1)) w1).
  assert (inv tx_idle 0 w2) as Hinv2 by (destruct Hinv1; by split).
  assert (opts (pmem w2) = opts (pmem w1) /\ view w2 = view w1 /\ mapped w2 = mapped w1) as (Ho2 & Hv2 & Hm2) by done.
  rewrite (bind_ok epoch_begin _ w1 tt w2 eq_refl) in Heq. clearbody w2.
  rewrite Ho1 in Ho2. rewrite Hv1 in Hv2. rewrite Hm1 in Hm2.
  destruct (handle_events_ok tx_idle epoch_events 0 w2 [] Hinv2) as (w3 & Heq3 & Hinv3 & _);
    rewrite ?Ho2, ?Hv2, ?Hm2; [vm_compute; done..|].
  rewrite Heq in Heq3. by simplify_eq.
Qed.

Lemma epoch_end_exact_witness : exists w w',
  length (of_epoch (kept_stores w)) = 2%nat /\ epoch_end 1 w = Ok tt w' /\
  epoch_durability_reg (pmem w') = epoch_durability_reg (pmem w) + 2 /\
  of_epoch (kept_stores w') = [] /\ view w' = view w /\ epoch (pmem w') = false.
Proof.
  destruct (epoch_run_ok epoch_sample) as (w & Hinv & Hs); [vm_compute; reflexivity|]. unfold epoch_sample in Hs.
  apply andb_true_iff in Hs as [[[Hep Hd]%andb_true_iff Hl]%andb_true_iff Hn]. apply Nat.eqb_eq in Hl.
  apply negb_true_iff, orb_false_iff in Hd. pose proof (nest_reads 1 (w_tx w)) as Hr.
  destruct (is_nest_trans 1 (w_tx w)) as [b t|] eqn:Hnest; [|discriminate]. apply negb_true_iff in Hn. subst b t.
  destruct (epoch_end_exact w 1 false (inv_stores _ _ _ Hinv eq_refl) Hep Hd Hnest)
    as (w' & Heq & Hreg & _ & _ & Hof & Hv & He & _).
  exists w, w'. rewrite Hl in Hreg. split; [exact Hl|]. split; [exact Heq|]. split; [exact Hreg|]. by split.
Defined.
