(* ===== verification/CleanSpec.v ===== *)
(** SET_CLEAN: the bytes of a range are taken out of the tracked stores. *)
From S2P Require Import Prelude OSet OSetTree OSetSpec Region RegionSpec Core Trans Pmem Store Flush Report Client Spec StoreSpec SlotLoop MapSpec FlushSpec FenceSpec ReportSpec Sample Refine EpochSpec.
Local Open Scope Z_scope.
Local Open Scope pm_scope.

(** ** One store *)

(** The range does not lie strictly inside the store. *)
Definition not_inside (lo n : Z) (e : pmem_st) : Prop := ~ (addr e < lo /\ lo + n < addr e + size e).

(** What is left of a store: itself, a shorter one, or nothing. *)
Definition left_over (lo n : Z) (e : pmem_st) : list pmem_st :=
  (fun p => set_range p e) <$> minus lo n (addr e, size e).

(** The same in place: a store of which nothing is left is deleted. *)
Definition cleaned (r e : pmem_st) : pmem_st :=
  if negb (cmp_pmem_st r e =? 0) then e
  else match cut_region e r with
       | CutHead p | CutTail p => set_range p e
       | _ => set_is_delete true e
       end.

Definition live (e : pmem_st) : bool := negb (is_delete e).

Lemma set_range_same e : set_range (addr e, size e) e = e.
Proof. by destruct e. Qed.

(** The cut of a store by a range that is not inside it. *)
Lemma cut_left_over r e :
  region_ok r -> region_ok e -> not_inside (addr r) (size r) e -> cmp_pmem_st r e = 0 ->
  match cut_region e r with
  | CutAll => left_over (addr r) (size r) e = []
  | CutHead p | CutTail p => left_over (addr r) (size r) e = [set_range p e]
  | CutMiddle _ _ => False
  end.
Proof.
  intros Hr He Hin Hc. apply (cmp_sym r e Hr He) in Hc. apply (cmp_overlap e r He Hr) in Hc.
  unfold cut_region. rewrite !max_addr_ok by done. unfold not_inside, outside in *.
  destruct He as (He1 & He2 & He3), Hr as (Hr1 & Hr2 & Hr3).
  unfold left_over, minus. cbn [fst snd].
  repeat ztest; cbn [andb]; try lia; try done; cbn [app fmap list_fmap]; unfold set_range; cbn [fst snd];
    word_solve; do 2 f_equal; (lia || (f_equal; lia)).
Qed.

Lemma outside_left_over r e :
  region_ok r -> region_ok e -> cmp_pmem_st r e <> 0 -> left_over (addr r) (size r) e = [e].
Proof.
  intros Hr He Hc. rewrite cmp_overlap in Hc by done. unfold outside in Hc.
  destruct He as (He1 & He2 & He3), Hr as (Hr1 & Hr2 & Hr3). unfold left_over, minus. cbn [fst snd].
  transitivity [set_range (addr e, size e) e]; [|by rewrite set_range_same].
  repeat ztest; try lia; cbn [app fmap list_fmap]; do 3 f_equal; lia.
Qed.

(** In place and as a list. *)
Lemma cleaned_live r e :
  region_ok r -> region_ok e -> not_inside (addr r) (size r) e -> is_delete e = false ->
  List.filter live [cleaned r e] = left_over (addr r) (size r) e.
Proof.
  intros Hr He Hin Hd. unfold cleaned. destruct (Z.eqb_spec (cmp_pmem_st r e) 0) as [Hc|Hc]; cbn [negb].
  - pose proof (cut_left_over r e Hr He Hin Hc) as Hcut. destruct (cut_region e r) as [|? ?|p|p]; try done;
      rewrite Hcut; cbn [List.filter]; unfold live; cbn; by rewrite ?Hd.
  - rewrite outside_left_over by done. cbn [List.filter]. unfold live. by rewrite Hd.
Qed.

Section Clean.
Context `{CoreEnv}.

(** ** The array *)

Definition reach_clean (w : world) (sl : Z -> pmem_st) (l : list pmem_st) : world :=
  set_pmem (set_array (set_slots sl (array (pmem w))) (pmem w)) w.

Lemma reach_clean_same w l : reach_clean w (slots_of w) l = w.
Proof.
  unfold reach_clean.
  replace (set_slots (slots_of w) (array (pmem w))) with (array (pmem w)) by (by destruct (array (pmem w))).
  by destruct w as [? [] ? ? ?].
Qed.

#[export] Instance clean_loop : LoopLaws reach_clean (fun _ => True).
Proof. split; [intros w; apply reach_clean_same|done..]. Qed.

(** A live store that the range does not cut in two. *)
Definition cleanable (r e : pmem_st) : Prop :=
  is_delete e = false /\ region_ok e /\ not_inside (addr r) (size r) e.

Lemma clean_slot_ok r w i :
  region_ok r -> cleanable r (slots_of w i) ->
  slots_mapped reach_clean (cleaned r) w i (i + 1) (clean_slot r i w).
Proof.
  intros Hr (Hd & He & Hin). unfold slots_mapped, clean_slot. step. rewrite Hd.
  assert (forall sl, (forall j, sl j = if j =? i then cleaned r (slots_of w j) else slots_of w j) ->
    forall j, sl j = if (i <=? j) && (j <? i + 1) then cleaned r (slots_of w j) else slots_of w j) as Hone.
  { intros sl Hs j. rewrite Hs. by repeat ztest; (lia || cbn). }
  assert (forall f, cleaned r (slots_of w i) = f (slots_of w i) ->
    exists sl, slot_set i f w = Ok tt (reach_clean w sl (arr_list (slots_of w) i (i + 1))) /\
      forall j, sl j = if (i <=? j) && (j <? i + 1) then cleaned r (slots_of w j) else slots_of w j) as Hset.
  { intros f Hf. exists (arr_upd i f (slots_of w)). split; [done|]. apply Hone. intros j. unfold arr_upd.
    by destruct (Z.eqb_spec j i) as [->|]. }
  unfold cleaned in Hset. destruct (Z.eqb_spec (cmp_pmem_st r (slots_of w i)) 0) as [Hc|Hc]; cbn [negb] in *.
  - pose proof (cut_left_over r _ Hr He Hin Hc) as Hcut. destruct (cut_region (slots_of w i) r); done || by apply Hset.
  - exists (slots_of w). split; [by rewrite reach_clean_same|]. apply Hone.
    intros j. unfold cleaned. destruct (Z.eqb_spec j i) as [->|]; [|done].
    by rewrite (proj2 (Z.eqb_neq _ _)).
Qed.

(** What the loop needs to know of a snippet. *)
Definition clean_fits (r : pmem_st) (sn : arr_snippet) (l : list pmem_st) : Prop :=
  Forall (cleanable r) l /\ Forall (fun e => min_add sn <= addr e /\ addr e + size e <= max_add sn) l.

Lemma cleaned_outside r e : region_ok r -> region_ok e -> outside r e -> cleaned r e = e.
Proof.
  intros Hr He Ho. unfold cleaned. destruct (Z.eqb_spec (cmp_pmem_st r e) 0) as [Hc|]; [|done].
  by apply cmp_overlap in Hc.
Qed.

Lemma clean_snippet_ok r w s :
  let sn := snippet_info (array (pmem w)) s in
  region_ok r -> start_index sn <= sn_index sn -> clean_fits r sn (snip_list (array (pmem w)) s) ->
  slots_mapped reach_clean (cleaned r) w (start_index sn) (sn_index sn) (clean_snippet r s w).
Proof.
  intros sn Hr Hle [Hg Hb]. unfold clean_snippet, cmp_with_arr_minandmax. step. fold sn.
  rewrite max_addr_ok by done. destruct (_ || _) eqn:Eo; cbn [negb Z.eqb Pos.eqb whenM].
  - apply orb_true_iff in Eo. rewrite !Z.ltb_lt in Eo. exists (slots_of w).
    split; [by rewrite reach_clean_same|]. intros j.
    destruct (_ && _) eqn:Ej; [|done]. apply andb_true_iff in Ej as [E1%Z.leb_le E2%Z.ltb_lt].
    assert (slots_of w j ∈ snip_list (array (pmem w)) s) as Hin
      by (apply list_elem_of_fmap; exists j; split; [done|]; apply elem_of_seqZ; fold sn; lia).
    rewrite Forall_forall in Hg, Hb. specialize (Hg _ Hin) as (_ & He & _). specialize (Hb _ Hin). simpl in Hb.
    symmetry. apply cleaned_outside; [done..|]. unfold outside. fold sn in Eo. lia.
  - assert (forall w i, True -> cleanable r (slots_of w i) ->
      slots_mapped reach_clean (cleaned r) w i (i + 1) (clean_slot r i w)) as Hbody by (intros; by apply clean_slot_ok).
    pose proof (all_slots_mapped reach_clean (fun _ => True) (cleaned r) (cleanable r) (clean_slot r) s w Hbody I Hle Hg) as Hall.
    by destruct (_ && _).
Qed.

Lemma clean_array_ok r w :
  let a := array (pmem w) in
  region_ok r -> array_shape a -> Forall (not_inside (addr r) (size r)) (arr_list (slots a) 0 (fill a)) ->
  slots_mapped reach_clean (cleaned r) w 0 (fill a) (all_snippets tt (fun _ => clean_snippet r) w).
Proof.
  intros a Hr Ha Hin. apply (all_snippets_mapped reach_clean (fun _ => True) (cleaned r) (clean_fits r)); [|done|done|].
  - intros w' s sn _ Hle Hf. by apply clean_snippet_ok.
  - intros s Hs. pose proof (ar_snippets _ Ha s Hs) as Hsn. split; [|apply (sn_bounded _ _ Hsn)].
    apply Forall_forall. intros e He. pose proof (sn_entries _ _ Hsn) as Hen.
    rewrite Forall_forall in Hen, Hin. destruct (Hen e He) as [H1 _ H2 _]. split; [done|]. split; [done|]. apply Hin.
    unfold snip_list in He. apply list_elem_of_fmap in He as (j & -> & Hj). apply elem_of_seqZ in Hj.
    apply list_elem_of_fmap. exists j. split; [done|]. apply elem_of_seqZ.
    pose proof (sn_start _ _ Hsn). pose proof (frame_fill a (Z.to_nat (snippet_info_index a - s)) s (shape_frame _ Ha) Hs).
    fold a in Hj. lia.
Qed.

(** ** The tree *)

Lemma clean_nodes_ok r rem : forall dn set idx fuel,
  region_ok r -> own_view set (dn ++ rem) rem -> Forall (cleanable r) rem.*2 -> card set < iter_limit ->
  (length rem < fuel)%nat ->
  exists set', remove_region_loop fuel r set idx = Some (set', idx) /\ own_ok set' /\
    elems set' = dn.*2 ++ flat_map (left_over (addr r) (size r)) rem.*2.
Proof.
  induction rem as [|[i e] rem IH]; intros dn set idx fuel Hr Hv Hg Hlim Hfuel;
    (destruct fuel as [|fuel]; [simpl in *; lia|]); cbn [remove_region_loop];
    destruct (view_next _ _ _ _ _ Hv) as (set1 & Hnext & Hv1); rewrite Hnext; cbn [mbind option_bind head tail] in *.
  - exists set1. split; [done|]. split; [apply (view_ok _ _ _ _ _ Hv1)|].
    unfold elems. by rewrite (view_nodes _ _ _ _ _ Hv1), fmap_app.
  - rewrite fmap_cons in Hg. apply Forall_cons in Hg as [(Hd & He & Hin) Hg]. cbn [snd] in *.
    assert (card set1 = card set) as Hsz.
    { rewrite (wf_card _ (ok_wf _ _ _ (view_ok _ _ _ _ _ Hv1))), (view_nodes _ _ _ _ _ Hv1).
      by rewrite (wf_card _ (ok_wf _ _ _ (view_ok _ _ _ _ _ Hv))), (view_nodes _ _ _ _ _ Hv). }
    assert (forall set2 l, own_view set2 ((dn ++ l) ++ rem) rem -> l.*2 = left_over (addr r) (size r) e ->
      card set2 <= card set ->
      exists set', remove_region_loop fuel r set2 idx = Some (set', idx) /\ own_ok set' /\
        elems set' = dn.*2 ++ flat_map (left_over (addr r) (size r)) (e :: rem.*2)) as Hgo.
    { intros set2 l Hv2 Hl Hsz2. destruct (IH (dn ++ l) set2 idx fuel Hr Hv2 Hg) as (set' & Heq & Hok & Hel);
        [lia|simpl in Hfuel; lia|]. exists set'. split; [done|]. split; [done|].
      rewrite Hel, fmap_app, Hl, <-app_assoc. done. }
    assert (forall p, left_over (addr r) (size r) e = [set_range p e] ->
      exists set', remove_region_loop fuel r (OSetGen_Update set1 i (set_range p)) idx = Some (set', idx) /\ own_ok set' /\
        elems set' = dn.*2 ++ flat_map (left_over (addr r) (size r)) (e :: rem.*2)) as Hcut.
    { intros p Hp. apply (Hgo _ [(i, set_range p e)]); [|done|rewrite Update_card; lia].
      rewrite <-app_assoc. by apply (view_update _ _ _ dn i e rem (set_range p)). }
    destruct (Z.eqb_spec (cmp_pmem_st e r) 0) as [Hc|Hc]; cbn [negb].
    + apply (cmp_sym r e Hr He) in Hc. pose proof (cut_left_over r e Hr He Hin Hc) as Hlo.
      destruct (cut_region e r) as [|? ?|p|p]; [|done|by apply Hcut..].
      destruct (view_remove _ _ _ set1 dn i e rem (view_ok _ _ _ _ _ Hv1) ltac:(lia) (view_nodes _ _ _ _ _ Hv1))
        as (set2 & set3 & Hrem & Hres & Hv3 & Hsz3). change (key_of e) with e in Hrem, Hres.
      rewrite Hrem. cbn [mbind option_bind]. rewrite Hres. cbn [mbind option_bind].
      apply (Hgo set3 []); [by rewrite app_nil_r|by rewrite Hlo|lia].
    + apply (Hgo set1 [(i, e)]); [by rewrite <-app_assoc| |lia].
      symmetry. apply outside_left_over; [done..|]. by rewrite (cmp_sym r e Hr He).
Qed.

Lemma clean_tree_ok r set idx :
  region_ok r -> own_ok set -> Forall (cleanable r) (elems set) -> card set < iter_limit ->
  exists set', remove_region r set idx = Some (set', idx) /\ own_ok set' /\
    elems set' = flat_map (left_over (addr r) (size r)) (elems set).
Proof.
  intros Hr Hok Hg Hlim. unfold remove_region. destruct (view_reset _ _ set Hok Hlim) as (set1 & -> & Hv1 & Hroot).
  cbn [mbind option_bind].
  destruct (clean_nodes_ok r (nodes set) [] set1 idx (S (3 * tree_size (root set1)))) as (set' & Heq & Hok' & Hel); try done.
  - rewrite (wf_card _ (ok_wf _ _ _ (view_ok _ _ _ _ _ Hv1))), (view_nodes _ _ _ _ _ Hv1).
    by rewrite <-(wf_card _ (ok_wf _ _ _ Hok)).
  - rewrite Hroot. unfold nodes. rewrite length_inorder. lia.
  - by exists set'.
Qed.

(** ** The request *)

Definition live_stores (w : world) : list pmem_st := List.filter live (kept_stores w).

Lemma left_over_live lo n l :
  Forall (fun e => is_delete e = false) l -> List.filter live (flat_map (left_over lo n) l) = flat_map (left_over lo n) l.
Proof.
  induction 1 as [|e l He Hl IH]; [done|]. cbn [flat_map]. rewrite List.filter_app, IH. f_equal. unfold left_over.
  induction (minus lo n (addr e, size e)) as [|p ps IHp]; [done|]. rewrite fmap_cons. cbn [List.filter].
  unfold live at 1. cbn. rewrite He. cbn [negb]. by rewrite IHp.
Qed.

Lemma cleaned_list r l :
  region_ok r -> Forall (cleanable r) l -> List.filter live (cleaned r <$> l) = flat_map (left_over (addr r) (size r)) l.
Proof.
  intros Hr. induction 1 as [|e l (Hd & He & Hin) Hl IH]; [done|]. rewrite fmap_cons. cbn [flat_map].
  change (cleaned r e :: (cleaned r <$> l)) with ([cleaned r e] ++ (cleaned r <$> l)).
  by rewrite List.filter_app, IH, cleaned_live.
Qed.

Lemma left_over_bytes lo n l b : 0 <= n ->
  (exists e, e ∈ flat_map (left_over lo n) l /\ covers e b) <-> (exists e, e ∈ l /\ covers e b) /\ ~ (lo <= b < lo + n).
Proof.
  intros Hn. assert (forall e, (exists x, x ∈ left_over lo n e /\ covers x b) <-> covers e b /\ ~ (lo <= b < lo + n)) as H1.
  { intros e. pose proof (minus_spec lo n (addr e, size e) b Hn) as Hm. cbn [fst snd] in Hm.
    unfold covers at 2. rewrite <-Hm. unfold left_over, in_ranges, covers. split.
    - intros (x & Hx & Hb). apply list_elem_of_fmap in Hx as (p & -> & Hp). by exists p.
    - intros (p & Hp & Hb). exists (set_range p e). split; [|done]. apply list_elem_of_fmap. by exists p. }
  induction l as [|e l IH].
  - split; [intros (? & ?%elem_of_nil & _); done|]. by intros [(? & ?%elem_of_nil & _) _].
  - cbn [flat_map].
    transitivity ((exists x, x ∈ left_over lo n e /\ covers x b) \/ exists x, x ∈ flat_map (left_over lo n) l /\ covers x b).
    { setoid_rewrite elem_of_app. split; [intros (x & [?|?] & ?)|intros [(x & ? & ?)|(x & ? & ?)]]; eauto. }
    rewrite (H1 e), IH. setoid_rewrite elem_of_cons. split.
    + intros [[? ?]|[(x & ? & ?) ?]]; eauto.
    + intros [(x & [->|?] & ?) ?]; eauto.
Qed.

End Clean.

(** C37: SET_CLEAN of a range that does not lie strictly inside a tracked store takes exactly the bytes of
    the range out of the tracked stores: the live stores afterwards are what is left of the old
    ones, in the same order, and a byte is tracked exactly if it was and is not in the range; the
    warnings, the mappings and the snippets stay.  This is for every state with a well-formed array and
    tree, whatever the options and the errors so far. *)
Theorem set_clean_exact `{CoreEnv} w lo n (Hstores : stores_ok w)
    (Hr : region_ok (region_at lo n)) (Hin : Forall (not_inside lo n) (kept_stores w)) :
  exists w', set_clean lo n w = Ok tt w' /\
    live_stores w' = flat_map (left_over lo n) (kept_stores w) /\
    (forall b, (exists e, e ∈ live_stores w' /\ covers e b) <->
               (exists e, e ∈ kept_stores w /\ covers e b) /\ ~ (lo <= b < lo + n)) /\
    snippet_info (array (pmem w')) = snippet_info (array (pmem w)) /\ mapped w' = mapped w /\
    redundant (view w') = redundant (view w) /\ superfluous (view w') = superfluous (view w).
Proof.
  destruct Hstores as [Ha Ht Hst]. set (r := region_at lo n) in *.
  unfold kept_stores in Hin. apply Forall_app in Hin as [Hin1 Hin2].
  assert (forall l, Forall entry_ok l -> Forall (not_inside lo n) l -> Forall (cleanable r) l) as Hcl.
  { intros l H1 H2. rewrite Forall_forall in *. intros e He. destruct (H1 e He). split; [done|]. split; [done|]. by apply H2. }
  pose proof (Hcl _ (tr_entries _ _ _ _ Ht) Hin1) as Hc1. pose proof (Hcl _ (filled_entries _ Ha) Hin2) as Hc2.
  pose proof (ar_last _ Ha) as H0.
  pose proof (sn_start _ _ (ar_snippets _ Ha (snippet_info_index (array (pmem w))) ltac:(lia))) as Hfill.
  destruct (clean_array_ok r w Hr Ha Hin2) as (sl & Heq1 & Hs). unfold set_clean. cbv zeta. fold r.
  rewrite (bind_ok _ _ _ _ _ Heq1). set (w1 := reach_clean w sl _).
  destruct (clean_tree_ok r (pmem_stores (pmem w)) (db_pmem_store_index (the_globals w)) Hr (tr_ok _ _ _ _ Ht) Hc1)
    as (set' & Hrem & _ & Hel); [done|].
  step. step. change (pmem_stores (pmem w1)) with (pmem_stores (pmem w)).
  change (the_globals w1) with (the_globals w). rewrite Hrem. step.
  assert (forall w', elems (pmem_stores (pmem w')) = elems set' -> array (pmem w') = set_slots sl (array (pmem w)) ->
    live_stores w' = flat_map (left_over lo n) (kept_stores w)) as Hlive.
  { intros w' He' Ha'. unfold live_stores, kept_stores. rewrite He', Ha', Hel, List.filter_app, flat_map_app. f_equal.
    - apply left_over_live. eapply Forall_impl; [exact Hc1|]. by intros e (Hd & _).
    - etransitivity; [|exact (cleaned_list r _ Hr Hc2)]. f_equal. unfold arr_list. rewrite <-list_fmap_compose. apply list_fmap_ext.
      intros m j Hj. apply lookup_seqZ in Hj as [-> Hj]. cbn. rewrite Hs.
      change (fill (set_slots sl _)) with (fill (array (pmem w))) in Hj. by repeat ztest; (lia || cbn). }
  eexists. split; [reflexivity|]. split; [by apply Hlive|]. split; [|done].
  intros b. rewrite Hlive by done. apply left_over_bytes. destruct Hr as (_ & Hn & _). simpl in Hn. lia.
Qed.

Definition ranges (l : list pmem_st) : list (Z * Z) := (fun e => (addr e, size e)) <$> l.

Lemma set_clean_exact_witness : exists w w',
  ranges (kept_stores w) = [(4096, 8); (5000, 4)] /\ set_clean 4100 1000 w = Ok tt w' /\
  ranges (live_stores w') = [(4096, 4)].
Proof.
  destruct (epoch_run_ok (fun w => bool_decide (ranges (kept_stores w) = [(4096, 8); (5000, 4)]))) as (w & Hinv & Hs);
    [vm_compute; reflexivity|]. apply bool_decide_eq_true in Hs.
  destruct (set_clean_exact w 4100 1000 (inv_stores _ _ _ Hinv eq_refl)) as (w' & Heq & Hl & _); [by vm_compute| |].
  - destruct (kept_stores w) as [|e1 [|e2 [|]]]; try discriminate. unfold ranges in Hs. simplify_eq/=.
    repeat constructor; unfold not_inside; lia.
  - exists w, w'. split; [exact Hs|]. split; [exact Heq|]. rewrite Hl.
    destruct (kept_stores w) as [|e1 [|e2 [|]]]; try discriminate. destruct e1, e2. unfold ranges in Hs. simplify_eq/=.
    reflexivity.
Defined.
