(* ===== verification/Bytes.v ===== *)
(** What both tools promise about a byte of persistent memory: it is clean, dirty
    after a store, flushed after a flush of it, and clean again after a fence.

    The tracker of stores (Spec.v) is compared with it: as long as no flush cuts
    a store, the two give every byte the same state. *)
From S2P Require Import Prelude OSet Region Spec.

Definition bytes : Type := Z -> store_state.

Definition in_range (a n b : Z) : bool := (a <=? b) && (b <? a + n).

(** A store makes its bytes dirty, a flush takes dirty bytes to flushed, a fence
    takes flushed bytes to clean. *)
Definition byte_step (maps : list (Z * Z)) (ev : event) (m : bytes) : bytes :=
  match ev with
  | EvStore a n _ =>
      if existsb (meets a n) maps
      then fun b => if in_range a n b then STST_DIRTY else m b
      else m
  | EvFlush lo n =>
      fun b => if in_range lo n b && bool_decide (m b = STST_DIRTY) then STST_FLUSHED else m b
  | EvFence => fun b => if bool_decide (m b = STST_FLUSHED) then STST_CLEAN else m b
  | EvMap _ _ | EvUnmap _ _ => m
  end.

Fixpoint bytes_after (maps : list (Z * Z)) (evs : list event) (m : bytes) : bytes :=
  match evs with
  | [] => m
  | ev :: evs => bytes_after (map_after ev maps) evs (byte_step maps ev m)
  end.

Definition all_clean : bytes := fun _ => STST_CLEAN.

(** Maps of bytes are compared byte by byte. *)
#[export] Instance byte_step_proper maps ev :
  Proper (pointwise_relation Z eq ==> pointwise_relation Z eq) (byte_step maps ev).
Proof.
  intros m1 m2 Hm b. destruct ev as [a n|a n|a n v|lo n|]; simpl; rewrite ?(Hm b); try done.
  by destruct (existsb _ _); rewrite ?(Hm b).
Qed.

#[export] Instance bytes_after_proper maps evs :
  Proper (pointwise_relation Z eq ==> pointwise_relation Z eq) (bytes_after maps evs).
Proof.
  revert maps. induction evs as [|ev evs IH]; intros maps m1 m2 Hm; [done|].
  simpl. apply IH. by apply byte_step_proper.
Qed.

(** ** The life of one byte *)

(** A flush of the byte, and a fence after it. *)
Definition byte_persisted (b : Z) (evs : list event) : Prop :=
  exists evs1 lo n evs2, evs = evs1 ++ EvFlush lo n :: evs2 /\ in_range lo n b = true /\
    EvFence ∈ evs2.

(** The event stores to the byte. *)
Definition writes (maps : list (Z * Z)) (b : Z) (ev : event) : bool :=
  match ev with EvStore a n _ => existsb (meets a n) maps && in_range a n b | _ => false end.

Fixpoint written_after (maps : list (Z * Z)) (b : Z) (evs : list event) : bool :=
  match evs with
  | [] => false
  | ev :: evs => writes maps b ev || written_after (map_after ev maps) b evs
  end.

(** A byte that is not written any more goes from dirty to flushed to clean. *)
Lemma byte_quiet maps evs b : forall m,
  written_after maps b evs = false ->
  bytes_after maps evs m b =
  match m b with
  | STST_CLEAN => STST_CLEAN
  | STST_FLUSHED => if existsb (fun ev => match ev with EvFence => true | _ => false end) evs
                    then STST_CLEAN else STST_FLUSHED
  | STST_DIRTY => bytes_after maps evs (fun _ => STST_DIRTY) b
  end.
Proof.
  revert maps. induction evs as [|ev evs IH]; intros maps m Hw; [simpl; by destruct (m b)|].
  cbn [written_after] in Hw. apply orb_false_iff in Hw as [H1 H2]. cbn [bytes_after].
  rewrite (IH (map_after ev maps) (byte_step maps ev m) H2).
  rewrite (IH (map_after ev maps) (byte_step maps ev (fun _ => STST_DIRTY)) H2).
  destruct ev as [a n|a n|a n v|lo n|]; simpl in *.
  - by destruct (m b).
  - by destruct (m b).
  - destruct (existsb (meets a n) maps); simpl in H1; rewrite ?H1; by destruct (m b).
  - destruct (in_range lo n b), (m b) eqn:Em; simpl; done.
  - destruct (m b) eqn:Em; simpl; try done; by destruct (existsb _ evs).
Qed.

Lemma fence_in evs :
  existsb (fun ev => match ev with EvFence => true | _ => false end) evs = true <-> EvFence ∈ evs.
Proof.
  rewrite existsb_exists. split.
  - intros (ev & Hin & He). destruct ev; try done. by apply list_elem_of_In.
  - intros Hin. exists EvFence. split; [by apply list_elem_of_In|done].
Qed.

(** ** The tracker, in bytes *)

Definition pending_has (b : Z) (p : pending) : bool := in_range (p_addr p) (p_size p) b.

(** Dirty if some store that is not flushed has the byte, flushed if only flushed
    ones have it. *)
Definition list_byte (l : list pending) (b : Z) : store_state :=
  if existsb (fun p => pending_has b p && negb (p_flushed p)) l then STST_DIRTY
  else if existsb (pending_has b) l then STST_FLUSHED
  else STST_CLEAN.

Definition tracked_byte (t : tracker) (b : Z) : store_state := list_byte (older t ++ current t) b.

Lemma hit_range lo n b p :
  in_range lo n b = true -> pending_has b p = true -> hit lo n p = true.
Proof.
  unfold in_range, pending_has, hit. intros H1 H2. unfold in_range in H2.
  rewrite andb_true_iff, Z.leb_le, Z.ltb_lt in H1, H2.
  apply negb_true_iff, orb_false_iff. rewrite !Z.leb_gt. lia.
Qed.

(** A flush that cuts no store. *)
Lemma mark_byte lo n l b :
  forallb (whole lo n) l = true ->
  list_byte (mark lo n <$> l) b =
  if in_range lo n b && bool_decide (list_byte l b = STST_DIRTY) then STST_FLUSHED else list_byte l b.
Proof.
  intros Hw. unfold list_byte. rewrite forallb_forall in Hw.
  assert (forall p, pending_has b (mark lo n p) = pending_has b p) as Hh
    by (intros p; unfold mark; by destruct (hit lo n p)).
  assert (existsb (pending_has b) (mark lo n <$> l) = existsb (pending_has b) l) as ->.
  { clear Hw. induction l as [|p l IH]; [done|]. rewrite fmap_cons. simpl. by rewrite Hh, IH. }
  assert (existsb (fun p => pending_has b p && negb (p_flushed p)) (mark lo n <$> l) =
    negb (in_range lo n b) && existsb (fun p => pending_has b p && negb (p_flushed p)) l) as ->.
  { induction l as [|p l IH]; [by rewrite andb_false_r|]. rewrite fmap_cons. cbn [existsb].
    rewrite IH by (intros x Hx; apply Hw; by right). rewrite Hh, andb_orb_distrib_r. f_equal.
    specialize (Hw p ltac:(by left)). destruct (pending_has b p) eqn:Hp; [|by rewrite andb_false_r].
    destruct (in_range lo n b) eqn:Hr; simpl.
    - unfold mark. by rewrite (hit_range lo n b p Hr Hp).
    - unfold mark. destruct (hit lo n p) eqn:Ht; [|done]. simpl.
      unfold whole in Hw. rewrite Ht in Hw. simpl in Hw. destruct (p_flushed p); [done|].
      unfold in_range, pending_has in *. unfold in_range in Hp.
      apply andb_false_iff in Hr. rewrite !Z.leb_gt, !Z.ltb_ge in Hr.
      rewrite andb_true_iff, Z.leb_le, Z.ltb_lt in Hp.
      simpl in Hw. apply andb_true_iff in Hw as [H1%Z.leb_le H2%Z.leb_le]. lia. }
  destruct (in_range lo n b); simpl; [|done].
  destruct (existsb (fun p => pending_has b p && negb (p_flushed p)) l) eqn:E; simpl; [|by destruct (existsb (pending_has b) l)].
  assert (existsb (pending_has b) l = true) as ->; [|done].
  apply existsb_exists in E as (p & Hp & Hb). apply existsb_exists. exists p. split; [done|].
  by apply andb_true_iff in Hb as [? _].
Qed.

Lemma fence_byte l b :
  list_byte (List.filter (fun e => negb (p_flushed e)) l) b =
  if bool_decide (list_byte l b = STST_FLUSHED) then STST_CLEAN else list_byte l b.
Proof.
  unfold list_byte.
  assert (forall f, existsb (fun p => f p && negb (p_flushed p)) (List.filter (fun e => negb (p_flushed e)) l) =
    existsb (fun p => f p && negb (p_flushed p)) l /\
    existsb f (List.filter (fun e => negb (p_flushed e)) l) =
    existsb (fun p => f p && negb (p_flushed p)) l) as H.
  { intros f. induction l as [|p l [IH1 IH2]]; [done|]. simpl.
    destruct (p_flushed p) eqn:E; simpl; rewrite ?andb_false_r, ?andb_true_r; simpl; rewrite ?E, ?andb_true_r;
      [done|]. by rewrite IH1, IH2. }
  destruct (H (pending_has b)) as [-> ->].
  destruct (existsb (fun p => pending_has b p && negb (p_flushed p)) l); simpl; [done|].
  by destruct (existsb _ l).
Qed.

(** One event. *)
Lemma track_byte check maps ev t b :
  no_cut ev t = true ->
  tracked_byte (track check maps ev t) b = byte_step maps ev (tracked_byte t) b.
Proof.
  intros Hc. change (tracked_byte ?t b) with (list_byte (older t ++ current t) b).
  destruct ev as [a n|a n|a n v|lo n|]; simpl; try done.
  - destruct (existsb (meets a n) maps); [|done]. simpl. rewrite app_assoc.
    unfold list_byte. rewrite !existsb_app. simpl. rewrite !orb_false_r, andb_true_r.
    change (pending_has b (mkPending a n false)) with (in_range a n b).
    unfold tracked_byte, list_byte. rewrite !existsb_app.
    destruct (in_range a n b); rewrite ?orb_true_r, ?orb_false_r; done.
  - rewrite <-fmap_app. by apply mark_byte.
  - rewrite app_nil_r. apply fence_byte.
Qed.

(** A run none of whose flushes cuts a store. *)
Lemma track_all_bytes check evs : forall maps t,
  never_cuts check maps evs t = true ->
  forall b, tracked_byte (track_all check maps evs t) b = bytes_after maps evs (tracked_byte t) b.
Proof.
  induction evs as [|ev evs IH]; intros maps t Hc b; [done|]. cbn [never_cuts track_all bytes_after] in *.
  apply andb_true_iff in Hc as [H1 H2]. rewrite IH by done. apply bytes_after_proper.
  intros b'. by apply track_byte.
Qed.

(** ** Which bytes are left at the end *)

(** A byte in a state is still not clean after the events, if none of them
    stores to it. *)
Definition survives (st : store_state) (b : Z) (evs : list event) : Prop :=
  match st with
  | STST_CLEAN => False
  | STST_FLUSHED => EvFence ∉ evs
  | STST_DIRTY => ~ byte_persisted b evs
  end.

(** Some store to the byte is not followed by a flush of it and a fence. *)
Definition left_open (maps : list (Z * Z)) (b : Z) (evs : list event) : Prop :=
  exists evs1 a n v evs2, evs = evs1 ++ EvStore a n v :: evs2 /\
    existsb (meets a n) (maps_after maps evs1) = true /\ in_range a n b = true /\
    ~ byte_persisted b evs2.

Lemma byte_persisted_cons b ev evs :
  byte_persisted b (ev :: evs) <->
  (exists lo n, ev = EvFlush lo n /\ in_range lo n b = true /\ EvFence ∈ evs) \/ byte_persisted b evs.
Proof.
  split.
  - intros ([|ev' evs1] & lo & n & evs2 & Heq & Hr & Hf); simplify_eq/=.
    + left. by exists lo, n.
    + right. by exists evs1, lo, n, evs2.
  - intros [(lo & n & -> & Hr & Hf)|(evs1 & lo & n & evs2 & -> & Hr & Hf)].
    + by exists [], lo, n, evs.
    + by exists (ev :: evs1), lo, n, evs2.
Qed.

Lemma byte_persisted_fence b evs : byte_persisted b evs -> EvFence ∈ evs.
Proof.
  intros (evs1 & lo & n & evs2 & -> & _ & Hf). rewrite elem_of_app, elem_of_cons. tauto.
Qed.

Lemma left_open_cons maps b ev evs :
  left_open maps b (ev :: evs) <->
  writes maps b ev = true /\ ~ byte_persisted b evs \/ left_open (map_after ev maps) b evs.
Proof.
  split.
  - intros ([|ev' evs1] & a & n & v & evs2 & Heq & Hm & Hr & Hp); simplify_eq/=.
    + left. by rewrite Hm, Hr.
    + right. by exists evs1, a, n, v, evs2.
  - intros [[Hw Hp]|(evs1 & a & n & v & evs2 & -> & Hm & Hr & Hp)].
    + destruct ev as [| |a n v| |]; try done. simpl in Hw. apply andb_true_iff in Hw as [Hm Hr].
      by exists [], a, n, v, evs.
    + by exists (ev :: evs1), a, n, v, evs2.
Qed.

Lemma byte_left maps evs b : forall m,
  bytes_after maps evs m b <> STST_CLEAN <-> survives (m b) b evs \/ left_open maps b evs.
Proof.
  revert maps. induction evs as [|ev evs IH]; intros maps m.
  { simpl. assert (~ byte_persisted b []) by (intros ([|] & ? & ? & ? & ? & _); done).
    assert (~ left_open maps b []) by (intros ([|] & ? & ? & ? & ? & ? & _); done).
    destruct (m b); simpl; rewrite ?elem_of_nil; naive_solver. }
  cbn [bytes_after]. rewrite IH, left_open_cons.
  assert (forall st, ev <> EvFence -> (forall lo n, ev = EvFlush lo n -> in_range lo n b = false) ->
    survives st b evs <-> survives st b (ev :: evs)) as Hskip.
  { intros st Hne Hfl. destruct st; simpl; [done| |rewrite elem_of_cons; naive_solver].
    rewrite byte_persisted_cons. naive_solver congruence. }
  destruct ev as [a n|a n|a n v|lo n|]; simpl.
  - rewrite (Hskip (m b)) by done. naive_solver.
  - rewrite (Hskip (m b)) by done. naive_solver.
  - rewrite <-(Hskip (m b)) by done. destruct (existsb (meets a n) maps); simpl; [|naive_solver].
    destruct (in_range a n b); [|naive_solver]. simpl.
    assert (survives (m b) b evs -> ~ byte_persisted b evs); [|naive_solver].
    destruct (m b); simpl; [done|done|]. intros Hn Hp. by apply Hn, (byte_persisted_fence b).
  - destruct (in_range lo n b) eqn:Er; simpl.
    + destruct (m b) eqn:Em; simpl; rewrite ?byte_persisted_cons, ?elem_of_cons.
      * naive_solver.
      * pose proof (byte_persisted_fence b evs). naive_solver.
      * naive_solver.
    + rewrite (Hskip (m b)); [naive_solver|done|]. intros ? ? [= <- <-]. done.
  - destruct (m b) eqn:Em; simpl; rewrite ?byte_persisted_cons, ?elem_of_cons; naive_solver.
Qed.
