(* ===== verification/Program.v ===== *)
(** What the client's code does to the memory, said without the tool: the stores, flushes and fences of
    the executed statements, with the cache lines the processor writes back.  The events the tool
    handles for a program give every byte of mapped memory the same state, under conditions on the
    program that are stated here: its stores have types the tool traces, none is a
    store-conditional, and the operands of its flushes are at the beginning of a cache line. *)
From S2P Require Import Prelude OSet Region RegionSpec Core Trans Pmem Store Flush Report Client Spec StoreSpec MapSpec Sample Refine IR Instr InstrSpec InstrRun InstrClaims EndToEnd Bytes.
Local Open Scope Z_scope.
Local Open Scope pm_scope.

Section Happens.
Context `{PrimopTypes}.

(** A value is written with all its bytes; addresses are words of 64 bits. *)
Definition writes (env : list IRType) (a data : IRExpr) (tm : temps) : list event :=
  match typeOfIRExpr env data with
  | Some ty => match sizeofIRType ty with Some n => [EvStore (atom_val tm a mod 2 ^ 64) n (atom_val tm data)] | None => [] end
  | None => []
  end.

(** What an executed statement does to the memory, [tm] being the temporaries after it.  A
    compare-and-swap writes when the old value is the expected one, a store-conditional when its
    result says so; a flush is one of the line its operand lies in, and clflush is ordered. *)
Definition happens (line : Z) (env : list IRType) (st : IRStmt) (tm : temps) : list event :=
  match st with
  | Ist_Store _ a data => writes env a data tm
  | Ist_StoreG sg => if is_on tm (sg_guard sg) then writes env (sg_addr sg) (sg_data sg) tm else []
  | Ist_LLSC _ result a (Some data) => if tm result mod 2 =? 1 then writes env a data tm else []
  | Ist_CAS cas =>
      match typeOfIRExpr env (expdLo cas) with
      | Some ty =>
          if same_bits (cas_width ty) (atom_val tm (expdLo cas)) (tm (oldLo cas)) =? 1
          then writes env (cas_addr cas) (dataLo cas) tm else []
      | None => []
      end
  | Ist_Flush a fk =>
      EvFlush (atom_val tm a / line * line) line :: (match fk with Ifk_flush => [EvFence] | _ => [] end)
  | Ist_MBE (Imbe_Fence | Imbe_SFence) => [EvFence]
  | _ => []
  end.

(** A run of a block. *)
Section Block.
Context {C : Type} (client : IRStmt -> temps -> C -> temps * C * bool).

Fixpoint happened (line : Z) (env : list IRType) (l : list (option IRStmt)) (tm : temps) (c : C) : list event :=
  match l with
  | [] => []
  | None :: l | Some Ist_NoOp :: l => happened line env l tm c
  | Some st :: l =>
      let r := client st tm c in
      if r.2 then happens line env st r.1.1 ++ happened line env l r.1.1 r.1.2 else []
  end.

Definition visit_happened (line : Z) (v : visit C) : list event :=
  happened line (tyenv (v_block v)) (stmts (v_block v)) (v_temps v) (v_client v).
End Block.

(** ** The conditions on a program *)

(** The type of a value that is stored is one the tool traces, and it is no floating point constant. *)
Definition reported_data (env : list IRType) (data : IRExpr) : bool :=
  match typeOfIRExpr env data with Some ty => traced ty | None => false end &&
  match data with Iex_Const (Ico_F32 _ | Ico_F32i _ | Ico_F64 _ | Ico_F64i _) => false | _ => true end.

Definition reported_stmt (env : list IRType) (st : IRStmt) : bool :=
  match st with
  | Ist_Store _ _ data => reported_data env data
  | Ist_StoreG sg => reported_data env (sg_data sg)
  | Ist_CAS cas => reported_data env (dataLo cas)
  | Ist_LLSC _ _ _ (Some _) => false
  | _ => true
  end.

(** A statement that does nothing to the memory. *)
Definition no_memory (st : IRStmt) : bool :=
  match st with
  | Ist_Store _ _ _ | Ist_StoreG _ | Ist_CAS _ | Ist_LLSC _ _ _ _ | Ist_Flush _ _ | Ist_MBE _ => false
  | _ => true
  end.

(** Before the first instruction mark there are only such statements. *)
Fixpoint quiet_preamble (l : list (option IRStmt)) : bool :=
  match l with
  | [] | Some (Ist_IMark _ _ _) :: _ => true
  | None :: l => quiet_preamble l
  | Some st :: l => no_memory st && quiet_preamble l
  end.

Definition reported_block (bb : IRSB) : bool :=
  quiet_preamble (stmts bb) &&
  forallb (fun o => match o with Some st => reported_stmt (tyenv bb) st | None => true end) (stmts bb).
End Happens.

(** The flushes that are executed are at the beginning of a cache line. *)
Definition line_calls (line : Z) (l : list call) : bool :=
  forallb (fun cl => match callee cl, values cl with trace_pmem_flush_h, [a] => a mod line =? 0 | _, _ => true end) l.

(** ** The state of one byte *)

(** Two sequences of events without changes of the mappings that do the same to a byte. *)
Record same_on (maps : list (Z * Z)) (b : Z) (evs1 evs2 : list event) : Prop := {
  so_maps1 : maps_after maps evs1 = maps;
  so_maps2 : maps_after maps evs2 = maps;
  so_byte m1 m2 : m1 b = m2 b -> bytes_after maps evs1 m1 b = bytes_after maps evs2 m2 b;
}.

Lemma bytes_after_parts evs1 evs2 : forall maps m,
  bytes_after maps (evs1 ++ evs2) m = bytes_after (maps_after maps evs1) evs2 (bytes_after maps evs1 m).
Proof. induction evs1 as [|ev evs1 IH]; intros maps m; [done|]. apply IH. Qed.

Lemma maps_after_parts evs1 evs2 : forall maps, maps_after maps (evs1 ++ evs2) = maps_after (maps_after maps evs1) evs2.
Proof. intros maps. unfold maps_after. by rewrite foldl_app. Qed.

Lemma same_on_nil maps b : same_on maps b [] [].
Proof. by split. Qed.

Lemma same_on_app maps b l1 l2 k1 k2 : same_on maps b l1 k1 -> same_on maps b l2 k2 -> same_on maps b (l1 ++ l2) (k1 ++ k2).
Proof.
  intros [A1 B1 H1] [A2 B2 H2]. split; [by rewrite maps_after_parts, A1|by rewrite maps_after_parts, B1|].
  intros m1 m2 E. rewrite !bytes_after_parts, A1, B1. by apply H2, H1.
Qed.

(** A store of a byte of mapped memory is one to mapped memory. *)
Lemma store_mapped maps b a n v m : in_ranges maps b ->
  byte_step maps (EvStore a n v) m b = if in_range a n b then STST_DIRTY else m b.
Proof.
  intros (x & Hx & Hb). unfold byte_step, in_range. destruct (existsb (meets a n) maps) eqn:E; [done|].
  destruct (Z.leb_spec a b), (Z.ltb_spec b (a + n)); try done. exfalso.
  assert (existsb (meets a n) maps = true) as E'; [|congruence]. apply existsb_exists. exists x.
  split; [by apply list_elem_of_In|]. unfold meets. apply negb_true_iff, orb_false_iff. rewrite !Z.leb_gt. lia.
Qed.

(** A store in one piece, and in words of eight bytes. *)
Lemma one_piece maps b a n v v' : same_on maps b [EvStore a n v] [EvStore a n v'].
Proof. split; [done|done|]. intros m1 m2 E. simpl. by destruct (existsb _ maps); [destruct (in_range a n b)|]. Qed.

Lemma two_pieces maps b a v0 v1 v : in_ranges maps b ->
  same_on maps b [EvStore a 8 v0; EvStore (a + 8) 8 v1] [EvStore a 16 v].
Proof.
  intros Hb. split; [done|done|]. intros m1 m2 E. cbn [bytes_after map_after].
  rewrite !store_mapped by done. unfold in_range. repeat (ztest; simpl); try done; lia.
Qed.

Lemma four_pieces maps b a v0 v1 v2 v3 v : in_ranges maps b ->
  same_on maps b [EvStore a 8 v0; EvStore (a + 8) 8 v1; EvStore (a + 16) 8 v2; EvStore (a + 24) 8 v3] [EvStore a 32 v].
Proof.
  intros Hb. split; [done|done|]. intros m1 m2 E. cbn [bytes_after map_after].
  rewrite !store_mapped by done. unfold in_range. repeat (ztest; simpl); try done; lia.
Qed.

(** ** The statements of a program *)

Section Same.
Context `{PrimopTypes} (line : Z) (maps : list (Z * Z)) (b : Z) (Hb : in_ranges maps b).

Lemma event_addr a n v : event_ok (EvStore a n v) = true -> 0 <= a /\ a + n < 2 ^ 64.
Proof.
  simpl. unfold range_ok, word_max. rewrite !andb_true_iff, Z.leb_le, !Z.ltb_lt.
  change word_size with (2 ^ 64). lia.
Qed.

(** The address of a later piece. *)
Lemma next_piece a off d : 0 <= (a + off) mod 2 ^ 64 -> (a + off) mod 2 ^ 64 + d < 2 ^ 64 -> 0 <= d ->
  (a + (off + d)) mod 2 ^ 64 = (a + off) mod 2 ^ 64 + d.
Proof. intros. rewrite Z.add_assoc, <-Zplus_mod_idemp_l. apply Z.mod_small. lia. Qed.

Lemma size_pos ty n : sizeofIRType ty = Some n -> 0 < n.
Proof. destruct ty; intros [= <-]; lia. Qed.

Lemma store_calls_same ty a n v v' : traced ty = true -> sizeofIRType ty = Some n ->
  forallb event_ok (omap (call_event line) (store_calls ty a n v)) = true ->
  same_on maps b (omap (call_event line) (store_calls ty a n v)) [EvStore (a mod 2 ^ 64) n v'].
Proof.
  intros Ht Hn Hok. assert (forall off, event_ok (EvStore ((a + off) mod 2 ^ 64) 8 (v / 2 ^ (8 * off) mod 2 ^ 64)) = true ->
    (a + (off + 8)) mod 2 ^ 64 = (a + off) mod 2 ^ 64 + 8) as Hnext.
  { intros off He. apply event_addr in He as [? ?]. by apply next_piece. }
  destruct ty; try done; simpl in Hn; simplify_eq;
    cbn -[event_ok Z.pow Z.modulo Z.div] in *; rewrite !andb_true_iff in Hok; destruct_and? Hok.
  1-5: match goal with H : event_ok _ = true |- _ => apply event_addr in H end;
    rewrite (Z.mod_small a (2 ^ 64)) by lia; apply one_piece.
  - pose proof (Hnext 0 ltac:(done)) as E1. change (0 + 8) with 8 in E1. rewrite E1, Z.add_0_r. by apply two_pieces.
  - pose proof (Hnext 0 ltac:(done)) as E1. pose proof (Hnext 8 ltac:(done)) as E2. pose proof (Hnext 16 ltac:(done)) as E3.
    change (0 + 8) with 8 in E1. change (8 + 8) with 16 in E2. change (16 + 8) with 24 in E3.
    rewrite E3, E2, E1, Z.add_0_r. rewrite <-!(Z.add_assoc (a mod 2 ^ 64)). by apply four_pieces.
Qed.

(** Constants of at most 64 bits are one piece. *)
Lemma stores_same env a data tm : reported_data env data = true ->
  forallb event_ok (omap (call_event line) (stores env a data tm)) = true ->
  same_on maps b (omap (call_event line) (stores env a data tm)) (writes env a data tm).
Proof.
  unfold reported_data, stores, writes. intros Hd. apply andb_true_iff in Hd as [Ht Hd].
  destruct (typeOfIRExpr env data) as [ty|] eqn:Ety; [|done].
  destruct (sizeofIRType ty) as [n|] eqn:En; [|intros _; apply same_on_nil].
  assert (forall x v, event_ok (EvStore x n v) = true -> same_on maps b [EvStore x n v] [EvStore (x mod 2 ^ 64) n (atom_val tm data)]) as Hone.
  { intros x v He. apply event_addr in He. rewrite (Z.mod_small x (2 ^ 64)); [apply one_piece|].
    pose proof (size_pos ty n En). lia. }
  unfold data_calls. destruct data as [| | | | | | | | | |con| | | |]; try (by apply store_calls_same).
  destruct con; try done; try (by apply store_calls_same);
    cbn -[event_ok Z.pow Z.modulo]; rewrite andb_true_r; apply Hone.
Qed.

(** One statement. *)
Lemma expected_same o env st tm : automatic_isa_rec o = true -> weak_clflush o = false -> reported_stmt env st = true ->
  forallb event_ok (omap (call_event line) (expected o env st tm)) = true -> line_calls line (expected o env st tm) = true ->
  same_on maps b (omap (call_event line) (expected o env st tm)) (happens line env st tm).
Proof.
  intros Hisa Hweak Hr Hok Hl.
  destruct st as [| | | | | |e a data| |sg|cas|e r a [data|]| |ev| |a fk]; try (by apply same_on_nil).
  - by apply stores_same.
  - cbn [expected happens] in *. fold (stores env (sg_addr sg) (sg_data sg) tm) in *.
    destruct (is_on tm (sg_guard sg)); [by apply stores_same|apply same_on_nil].
  - cbn [expected happens] in *. fold (stores env (cas_addr cas) (dataLo cas) tm) in *.
    destruct (typeOfIRExpr env (expdLo cas)); [|apply same_on_nil]. destruct (_ =? 1); [by apply stores_same|apply same_on_nil].
  - done.
  - cbn [expected happens] in *. destruct ev; rewrite ?Hisa; (split; [done|done|]); intros m1 m2 E; cbn; by rewrite ?E.
  - cbn [expected happens] in *. rewrite Hisa, Hweak in Hl |- *. cbn [line_calls forallb callee values] in Hl.
    apply andb_true_iff in Hl as [Hl _]. apply Z.eqb_eq in Hl.
    assert (atom_val tm a / line * line = atom_val tm a) as ->
      by (destruct (Z.eq_dec line 0) as [->|]; [rewrite Zmod_0_r in Hl; by rewrite Hl|pose proof (Z.div_mod (atom_val tm a) line); lia]).
    split; [by destruct fk|by destruct fk|]. intros m1 m2 E. destruct fk; cbn -[in_range]; by rewrite E.
Qed.

Section Blocks.
Context {C : Type} (client : IRStmt -> temps -> C -> temps * C * bool) (o : options)
  (Hisa : automatic_isa_rec o = true) (Hweak : weak_clflush o = false).

Abbreviation entry_reported env l :=
  (forallb (fun x => match x with Some st => reported_stmt env st | None => true end) l = true).

Lemma line_calls_app l1 l2 : line_calls line (l1 ++ l2) = line_calls line l1 && line_calls line l2.
Proof. apply forallb_app. Qed.

Lemma observed_same env l : forall tm c,
  entry_reported env l ->
  let calls := out_calls (observed client o env l tm c) in
  forallb event_ok (omap (call_event line) calls) = true -> line_calls line calls = true ->
  same_on maps b (omap (call_event line) calls) (happened client line env l tm c).
Proof.
  induction l as [|[st|] l IH]; intros tm c Hr calls Hok Hl; [apply same_on_nil| |by apply IH].
  cbn [forallb] in Hr. apply andb_true_iff in Hr as [Hst Hr].
  destruct (noop_dec st) as [->|Hno]; [by apply IH|]. unfold calls in *. rewrite observed_cons in Hok, Hl |- * by done.
  assert (happened client line env (Some st :: l) tm c =
    let r := client st tm c in if r.2 then happens line env st r.1.1 ++ happened client line env l r.1.1 r.1.2 else []) as ->
    by (by destruct st).
  unfold client_step in *. destruct (client st tm c).2; [|apply same_on_nil]. cbn [out_calls add_calls] in *.
  rewrite omap_app, forallb_app in Hok. rewrite line_calls_app in Hl. rewrite omap_app.
  apply andb_true_iff in Hok as [Hok1 Hok2], Hl as [Hl1 Hl2]. apply same_on_app; [by apply expected_same|by apply IH].
Qed.

(** Before the first mark. *)
Lemma quiet_happens env st tm : no_memory st = true -> happens line env st tm = [].
Proof. by destruct st. Qed.

Lemma block_same env l : forall tm c,
  quiet_preamble l = true -> entry_reported env l ->
  let calls := out_calls (observed_block client o env l tm c) in
  forallb event_ok (omap (call_event line) calls) = true -> line_calls line calls = true ->
  same_on maps b (omap (call_event line) calls) (happened client line env l tm c).
Proof.
  induction l as [|[st|] l IH]; intros tm c Hq Hr calls Hok Hl; [apply same_on_nil| |by apply IH].
  destruct (imark_dec st) as [(a & n & d & ->)|Hmark]; [by apply observed_same|].
  destruct (noop_dec st) as [->|Hno]; [by apply IH|]. unfold calls in *. rewrite observed_block_cons in Hok, Hl |- * by done.
  assert (no_memory st = true /\ quiet_preamble l = true) as [Hm Hq'].
  { destruct st; cbn [quiet_preamble] in Hq; try (by apply andb_true_iff in Hq). by edestruct Hmark. }
  cbn [forallb] in Hr. apply andb_true_iff in Hr as [_ Hr].
  assert (happened client line env (Some st :: l) tm c =
    let r := client st tm c in if r.2 then happened client line env l r.1.1 r.1.2 else []) as ->
    by (destruct st; try done; by edestruct Hmark).
  unfold client_step in *. destruct (client st tm c).2; [|apply same_on_nil]. by apply IH.
Qed.

(** A program that has been executed. *)
Definition reported_visit (v : visit C) : Prop :=
  reported_block (v_block v) = true /\ line_calls line (visit_calls client v) = true.

Lemma visit_same v : visit_ok client o v -> reported_visit v ->
  forallb event_ok (visit_events client o line v) = true ->
  same_on maps b (visit_events client o line v) (visit_happened client line v).
Proof.
  intros Hv [Hr Hl] Hok. apply andb_true_iff in Hr as [Hq Hr]. unfold visit_events, visit_happened in *.
  apply block_same; [done..|]. by rewrite <-visit_calls_observed.
Qed.

Lemma visits_same vs : Forall (visit_ok client o) vs -> Forall reported_visit vs ->
  forallb event_ok (flat_map (visit_events client o line) vs) = true ->
  same_on maps b (flat_map (visit_events client o line) vs) (flat_map (visit_happened client line) vs).
Proof.
  induction 1 as [|v vs Hv Hvs IH]; intros Hr Hok; [apply same_on_nil|]. cbn [flat_map] in *.
  apply Forall_cons in Hr as [Hr Hrs]. rewrite forallb_app in Hok. apply andb_true_iff in Hok as [Hok1 Hok2].
  apply same_on_app; [by apply visit_same|by apply IH].
Qed.
End Blocks.
End Same.

(** * The claim for PMDebugger *)


