(* ===== verification/StoreSet.v ===== *)
(** Sets of stores ordered by address: their entries do not overlap (they may
    touch), so that every byte has one state.  Insertion, removal and assignment
    in terms of the list of entries, and the state of a byte. *)
From S2P Require Import Prelude OSet OSetTree OSetSpec Region RegionSpec.

Implicit Types (s : region_set) (e o x y new : pmem_st) (l : list pmem_st).

(** The invariant of the set. *)
Abbreviation st_ok := (os_ok cmp_pmem_st region_ok).
Abbreviation st_view := (os_view cmp_pmem_st region_ok).

(** * Entries that do not overlap *)

Fixpoint disjoint_stores (l : list pmem_st) : Prop :=
  match l with
  | [] => True
  | e :: l => Forall (outside e) l /\ disjoint_stores l
  end.

Lemma outside_sym x y : outside x y -> outside y x.
Proof. unfold outside. lia. Qed.

Lemma disjoint_perm l1 l2 : l1 ≡ₚ l2 -> disjoint_stores l1 -> disjoint_stores l2.
Proof.
  induction 1 as [|x l1 l2 Hp IH|x y l|l1 l2 l3 _ IH1 _ IH2]; simpl; [done| | |tauto].
  - intros [Hx Hl]. split; [by rewrite <-Hp|by apply IH].
  - rewrite !Forall_cons. intros ((Hxy & Hx) & Hy & Hl). apply outside_sym in Hxy. tauto.
Qed.

#[export] Instance disjoint_proper : Proper (Permutation ==> iff) disjoint_stores.
Proof. intros l1 l2 Hp. split; by apply disjoint_perm. Qed.

Lemma disjoint_app l1 l2 :
  disjoint_stores (l1 ++ l2) <->
  disjoint_stores l1 /\ disjoint_stores l2 /\ Forall (fun x => Forall (outside x) l2) l1.
Proof.
  induction l1 as [|e l1 IH]; simpl; [by intuition|].
  rewrite IH, Forall_app, Forall_cons. tauto.
Qed.

(** The order of a set, in addresses. *)
Lemma st_order s dn i m rem :
  st_ok s -> nodes s = dn ++ (i, m) :: rem ->
  region_ok m /\ Forall (fun n => addr (snd n) + size (snd n) <= addr m) dn /\
  Forall (fun n => addr m + size m <= addr (snd n)) rem.
Proof.
  intros Hok Hn. destruct (ok_sorted _ _ s Hok dn (i, m) rem Hn) as (_ & Ha & Hb). simpl in *.
  pose proof (ok_elems _ _ _ Hok) as Hall. unfold elems in Hall.
  rewrite Hn, fmap_app, fmap_cons, Forall_app, Forall_cons, !Forall_fmap in Hall.
  destruct Hall as (H1 & Hm & H2). split; [done|]. unfold after_all, before_all in *.
  rewrite !Forall_forall in *. split; intros n Hin.
  - pose proof (cmp_pmem_st_spec m (snd n) Hm (H1 n Hin)). specialize (Ha n Hin). lia.
  - pose proof (cmp_pmem_st_spec m (snd n) Hm (H2 n Hin)). specialize (Hb n Hin). lia.
Qed.

(** The same, of the entries. *)
Lemma elems_order s dn e rem :
  st_ok s -> elems s = dn ++ e :: rem ->
  0 <= addr e /\ 0 < size e /\ addr e + size e < word_size /\
  Forall (fun x => addr x + size x <= addr e) dn /\ Forall (fun x => addr e + size e <= addr x) rem.
Proof.
  intros Hok Hel. unfold elems in Hel.
  apply fmap_app_inv in Hel as (d & r & -> & Hr & Hn). symmetry in Hr.
  apply fmap_cons_inv in Hr as ([i x] & r' & -> & -> & ->). simpl in *.
  destruct (st_order s d i x r' Hok Hn) as ((? & ? & ?) & Hd & Ha).
  repeat (split; [done|]). by rewrite !Forall_fmap.
Qed.

Lemma st_region s e : st_ok s -> e ∈ elems s -> region_ok e.
Proof. intros Hok He. pose proof (ok_elems _ _ _ Hok) as H. rewrite Forall_forall in H. by apply H. Qed.

Lemma st_disjoint s : st_ok s -> disjoint_stores (elems s).
Proof.
  intros Hok. pose proof (st_order s) as Hs. unfold elems.
  assert (forall l1 l2 : list (nat * pmem_st), nodes s = l1 ++ l2 -> disjoint_stores l2.*2) as H; [|by apply (H [])].
  intros l1 l2. revert l1. induction l2 as [|[i m] l2 IH]; intros l1 Hn; [done|]. simpl. split.
  - destruct (Hs l1 i m l2 Hok Hn) as (_ & _ & Hr). rewrite Forall_fmap.
    eapply Forall_impl; [exact Hr|]. intros n ?. by left.
  - apply (IH (l1 ++ [(i, m)])). by rewrite Hn, <-app_assoc.
Qed.

Lemma st_size s : st_ok s -> card s = Z.of_nat (length (elems s)).
Proof.
  intros Hok. rewrite (wf_card _ (ok_wf _ _ _ Hok)). unfold elems. by rewrite length_fmap.
Qed.

Lemma st_Size s : st_ok s -> card s < iter_limit -> OSetGen_Size s = Z.of_nat (length (elems s)).
Proof. intros Hok Hlim. rewrite <-st_size by done. apply Size_small; [apply (ok_wf _ _ _ Hok)|lia]. Qed.

Lemma st_tree_size s : st_ok s -> tree_size (root s) = length (elems s).
Proof.
  intros Hok. unfold elems. rewrite length_fmap. unfold nodes. by rewrite length_inorder.
Qed.

(** * The operations on the entries *)

(** An entry between those before it and those after it. *)
Lemma st_insert_between s dn rem x :
  st_ok s -> nodes s = dn ++ rem -> region_ok x ->
  Forall (fun n => addr (snd n) + size (snd n) <= addr x) dn ->
  Forall (fun n => addr x + size x <= addr (snd n)) rem ->
  exists s', OSetGen_Insert s x = Some s' /\ st_ok s' /\ nodes s' = dn ++ (next_id s, x) :: rem /\
    card s' = card s + 1 /\ stack s' = [].
Proof.
  intros Hok Hn Hx Hd Hr. pose proof (ok_elems _ _ _ Hok) as Hall. unfold elems in Hall.
  rewrite Hn, fmap_app, Forall_app, !Forall_fmap in Hall. destruct Hall as [H1 H2].
  assert (forall a b, cmp_key s a b = cmp_pmem_st a b) as Hc by (intros; apply (ok_cmp _ _ _ Hok)).
  destruct (Insert_ok s x dn rem (ok_wf _ _ _ Hok) Hn) as (s' & Hi & Hwf & Hn' & Hcmp & Hsz & Hst & _).
  - rewrite Hc. by apply cmp_self.
  - unfold after_all. rewrite Forall_forall in *. intros n Hin. rewrite Hc.
    pose proof (cmp_pmem_st_spec x (snd n) Hx (H1 n Hin)). specialize (Hd n Hin). lia.
  - unfold before_all. rewrite Forall_forall in *. intros n Hin. rewrite Hc.
    pose proof (cmp_pmem_st_spec x (snd n) Hx (H2 n Hin)). specialize (Hr n Hin). lia.
  - rewrite Forall_forall in *. intros n Hin. rewrite Hc.
    pose proof (cmp_pmem_st_spec (snd n) x (H1 n Hin) Hx). specialize (Hd n Hin). lia.
  - rewrite Forall_forall in *. intros n Hin. rewrite Hc.
    pose proof (cmp_pmem_st_spec (snd n) x (H2 n Hin) Hx). specialize (Hr n Hin). lia.
  - exists s'. split; [done|]. split; [|done]. apply (os_ok_intro _ _ s); [done..|]. unfold elems.
    rewrite Hn', fmap_app, fmap_cons, Forall_app, Forall_cons, !Forall_fmap. done.
Qed.

(** An entry that overlaps none. *)
Lemma st_insert s x :
  st_ok s -> region_ok x -> Forall (outside x) (elems s) ->
  exists s', OSetGen_Insert s x = Some s' /\ st_ok s' /\ elems s' ≡ₚ x :: elems s /\ stack s' = [].
Proof.
  intros Hok Hx Ho.
  destruct (Insert_new cmp_pmem_st region_ok region_ok s x Hok Hx)
    as (s' & ms1 & ms3 & Hi & Hok' & Hn & Hn' & _ & _ & _ & Hst).
  - pose proof (ok_elems _ _ _ Hok) as Hall. rewrite Forall_forall in *. intros y Hy. simpl.
    rewrite cmp_overlap by (done || by apply Hall). intros Hno. by apply Hno, Ho.
  - exists s'. split; [done|]. split; [done|]. split; [|done]. unfold elems.
    rewrite Hn, Hn', !fmap_app, fmap_cons. by rewrite Permutation_middle.
Qed.

(** What a key finds. *)
Lemma st_lookup s k i o :
  st_ok s -> region_ok k -> OSetGen_LookupNode s k = Some (i, o) ->
  exists dn rem, nodes s = dn ++ (i, o) :: rem /\ region_ok o /\ ~ outside k o /\
    elems s ≡ₚ o :: (dn.*2 ++ rem.*2).
Proof.
  intros Hok Hk Hl.
  destruct (LookupNode_some cmp_pmem_st region_ok region_ok s k i o Hok Hk Hl) as [Hin Hc].
  apply list_elem_of_split in Hin as (dn & rem & Hn). exists dn, rem.
  destruct (st_order s dn i o rem Hok Hn) as (Ho & _). split; [done|]. split; [done|].
  split; [by apply cmp_overlap|]. unfold elems. rewrite Hn, fmap_app, fmap_cons.
  by rewrite Permutation_middle.
Qed.

Lemma st_lookup_none s k :
  st_ok s -> region_ok k -> OSetGen_LookupNode s k = None -> Forall (outside k) (elems s).
Proof.
  intros Hok Hk Hl.
  pose proof (LookupNode_none cmp_pmem_st region_ok region_ok s k Hok Hk Hl) as Hn.
  rewrite Forall_forall in *. intros y Hy. pose proof (st_region s y Hok Hy) as Hyr.
  specialize (Hn y Hy). rewrite cmp_overlap in Hn by done. unfold outside in *. lia.
Qed.

(** A removal by a key that finds the entry. *)
Lemma st_remove s k i o dn rem :
  st_ok s -> OSetGen_LookupNode s k = Some (i, o) -> nodes s = dn ++ (i, o) :: rem ->
  exists s', OSetGen_Remove s k = Some (Some o, s') /\ st_ok s' /\ nodes s' = dn ++ rem /\
    card s' = card s - 1 /\ stack s' = [].
Proof.
  intros Hok Hl Hn.
  destruct (Remove_ok s k i o dn rem (ok_wf _ _ _ Hok) Hl Hn) as (s' & Hr & Hwf & Hn' & Hc & Hsz & Hst & _).
  exists s'. split; [done|]. split; [|done]. apply (os_ok_intro _ _ s); [done..|].
  pose proof (ok_elems _ _ _ Hok) as Hall. unfold elems in *. rewrite Hn'. rewrite Hn in Hall.
  rewrite fmap_app, fmap_cons, Forall_app, Forall_cons in Hall. rewrite fmap_app, Forall_app. tauto.
Qed.

Lemma st_lookup_self s i o dn rem :
  st_ok s -> nodes s = dn ++ (i, o) :: rem -> OSetGen_LookupNode s o = Some (i, o).
Proof.
  intros Hok Hn. apply (Lookup_self cmp_pmem_st region_ok s i o Hok). rewrite Hn. set_solver.
Qed.

(** An entry is cut in place. *)
Lemma st_update s dn i o rem f :
  st_ok s -> nodes s = dn ++ (i, o) :: rem -> within (f o) o ->
  st_ok (OSetGen_Update s i f) /\ nodes (OSetGen_Update s i f) = dn ++ (i, f o) :: rem.
Proof.
  intros Hok Hn Hw. pose proof (ok_wf _ _ _ Hok) as Hwf.
  pose proof (Update_nodes s i f i o dn rem Hwf Hn eq_refl) as Hn'. split; [|done].
  destruct (st_order s dn i o rem Hok Hn) as (Ho & Hd & Hr). pose proof (within_ok _ _ Ho Hw) as Hf.
  pose proof (ok_elems _ _ _ Hok) as Hall. unfold elems in Hall.
  rewrite Hn, fmap_app, fmap_cons, Forall_app, Forall_cons, !Forall_fmap in Hall.
  destruct Hall as (H1 & _ & H2).
  assert (forall a b, cmp_key s a b = cmp_pmem_st a b) as Hc by (intros; apply (ok_cmp _ _ _ Hok)).
  apply (os_ok_intro _ _ s); [done| |done|].
  - apply (Update_wf s i f i o dn rem Hwf Hn eq_refl). pose proof (wf_sorted _ Hwf) as Hs.
    rewrite Hn in Hs. unfold within in Hw. rewrite !Forall_forall in *.
    apply sorted_insert; [by eapply sorted_remove|by rewrite Hc; apply cmp_self|..];
      apply Forall_forall; intros n Hin; rewrite Hc.
    + pose proof (cmp_pmem_st_spec (f o) (snd n) Hf (H1 n Hin)). specialize (Hd n Hin). lia.
    + pose proof (cmp_pmem_st_spec (f o) (snd n) Hf (H2 n Hin)). specialize (Hr n Hin). lia.
    + pose proof (cmp_pmem_st_spec (snd n) (f o) (H1 n Hin) Hf). specialize (Hd n Hin). lia.
    + pose proof (cmp_pmem_st_spec (snd n) (f o) (H2 n Hin) Hf). specialize (Hr n Hin). lia.
  - unfold elems. rewrite Hn', fmap_app, fmap_cons, Forall_app, Forall_cons, !Forall_fmap. done.
Qed.

(** The iterator is put at an entry. *)
Lemma st_reset_at s dn i x rem :
  st_ok s -> card s < iter_limit -> nodes s = dn ++ (i, x) :: rem ->
  exists s', OSetGen_ResetIterAt s x = Some s' /\ card s' = card s /\
    st_view s' (dn ++ (i, x) :: rem) ((i, x) :: rem).
Proof.
  intros Hok Hlim Hn. destruct (ok_sorted _ _ s Hok dn (i, x) rem Hn) as (Hz & Ha & Hb). simpl in *.
  destruct (ResetIterAt_ok s x dn [(i, x)] rem) as (st & ks & Heq & Hfit & Hsuf & Hne & Hst).
  - apply small_height; [apply (ok_wf _ _ _ Hok)|done].
  - done.
  - by apply (after_all_cmp cmp_pmem_st region_ok).
  - constructor; [|constructor]. simpl. by rewrite (ok_cmp _ _ _ Hok).
  - by apply (before_all_cmp cmp_pmem_st region_ok).
  - exists (set_stack st s). split; [done|]. split; [done|].
    split; [by apply os_ok_stack|done| |done]. unfold iter. simpl. rewrite Hst.
    destruct Hsuf as [k Hk]. destruct k as [|k1 k]; [by simpl in Hk; subst|].
    destruct k, ks; simplify_eq/=. by destruct Hne.
Qed.

(** An entry is replaced by two parts of it, and the iterator put at the second
    one; the second part may be put in first. *)
Lemma st_cut s dn i o rem x y (swap : bool) :
  st_ok s -> card s + 1 < iter_limit -> nodes s = dn ++ (i, o) :: rem ->
  within x o -> within y o -> addr x + size x <= addr y ->
  exists s1 s2 s3 s4 jx jy, OSetGen_Remove s o = Some (Some o, s1) /\
    OSetGen_Insert s1 (if swap then y else x) = Some s2 /\
    OSetGen_Insert s2 (if swap then x else y) = Some s3 /\
    OSetGen_ResetIterAt s3 y = Some s4 /\ card s4 = card s + 1 /\
    st_view s4 (dn ++ (jx, x) :: (jy, y) :: rem) ((jy, y) :: rem).
Proof.
  intros Hok Hlim Hn Hx Hy Hxy. destruct (st_order s dn i o rem Hok Hn) as (Ho & Hd & Hr).
  pose proof (within_ok _ _ Ho Hx) as Hxr. pose proof (within_ok _ _ Ho Hy) as Hyr.
  destruct (st_remove s o i o dn rem Hok (st_lookup_self s i o dn rem Hok Hn) Hn)
    as (s1 & Hrm & Hok1 & Hn1 & Hsz1 & _).
  assert (forall z, within z o ->
    Forall (fun n => addr (snd n) + size (snd n) <= addr z) dn /\
    Forall (fun n => addr z + size z <= addr (snd n)) rem) as Hz.
  { intros z (? & ? & ?). split; (eapply Forall_impl; [done|]); simpl; intros; lia. }
  destruct (Hz x Hx) as [Hx1 Hx2], (Hz y Hy) as [Hy1 Hy2].
  destruct swap.
  - destruct (st_insert_between s1 dn rem y Hok1 Hn1 Hyr Hy1 Hy2) as (s2 & Hi2 & Hok2 & Hn2 & Hsz2 & _).
    destruct (st_insert_between s2 dn ((next_id s1, y) :: rem) x Hok2 Hn2 Hxr Hx1)
      as (s3 & Hi3 & Hok3 & Hn3 & Hsz3 & _); [by constructor|].
    rewrite cons_middle, app_assoc in Hn3.
    destruct (st_reset_at s3 _ _ y rem Hok3 ltac:(lia) Hn3) as (s4 & Hr4 & Hsz4 & Hv).
    rewrite <-app_assoc in Hv. exists s1, s2, s3, s4, (next_id s2), (next_id s1).
    repeat (split; [done|]). split; [lia|done].
  - destruct (st_insert_between s1 dn rem x Hok1 Hn1 Hxr Hx1 Hx2) as (s2 & Hi2 & Hok2 & Hn2 & Hsz2 & _).
    rewrite cons_middle, app_assoc in Hn2.
    destruct (st_insert_between s2 _ rem y Hok2 Hn2 Hyr) as (s3 & Hi3 & Hok3 & Hn3 & Hsz3 & _);
      [|done|].
    { rewrite Forall_app. split; [done|]. by constructor. }
    destruct (st_reset_at s3 _ _ y rem Hok3 ltac:(lia) Hn3) as (s4 & Hr4 & Hsz4 & Hv).
    rewrite <-app_assoc in Hv. exists s1, s2, s3, s4, (next_id s1), (next_id s2).
    repeat (split; [done|]). split; [lia|done].
Qed.

(** * The state of a byte *)

Definition covers_byte (e : pmem_st) (b : Z) : bool := (addr e <=? b) && (b <? addr e + size e).

Lemma covers_byte_spec e b : covers_byte e b = true <-> covers e b.
Proof. unfold covers_byte, covers. rewrite andb_true_iff, Z.leb_le, Z.ltb_lt. tauto. Qed.

Lemma covers_byte_false e b : covers_byte e b = false <-> ~ covers e b.
Proof. rewrite <-covers_byte_spec. by rewrite not_true_iff_false. Qed.

(** The state of the entry that has the byte; a byte without one is clean. *)
Fixpoint byte_state (l : list pmem_st) (b : Z) : store_state :=
  match l with
  | [] => STST_CLEAN
  | e :: l => if covers_byte e b then state e else byte_state l b
  end.

Lemma byte_state_app l1 l2 b :
  byte_state (l1 ++ l2) b =
  if existsb (fun e => covers_byte e b) l1 then byte_state l1 b else byte_state l2 b.
Proof. induction l1 as [|e l1 IH]; [done|]. simpl. destruct (covers_byte e b); simpl; done. Qed.

Lemma byte_state_out l b : ~ list_covers l b -> byte_state l b = STST_CLEAN.
Proof.
  induction l as [|e l IH]; [done|]. rewrite list_covers_cons. intros Hn. simpl.
  destruct (covers_byte e b) eqn:E; [apply covers_byte_spec in E; tauto|]. apply IH. tauto.
Qed.

Lemma byte_state_in l e b :
  disjoint_stores l -> e ∈ l -> covers e b -> byte_state l b = state e.
Proof.
  induction l as [|x l IH]; [by intros _ ?%elem_of_nil|]. intros [Hx Hl] Hin Hb. simpl.
  apply elem_of_cons in Hin as [->|Hin].
  - by rewrite (proj2 (covers_byte_spec x b)).
  - rewrite (proj2 (covers_byte_false x b)); [by apply IH|]. intros Hxb.
    rewrite Forall_forall in Hx. by apply (outside_covers x e b (Hx e Hin)).
Qed.

Lemma byte_state_perm l1 l2 b :
  disjoint_stores l1 -> l1 ≡ₚ l2 -> byte_state l1 b = byte_state l2 b.
Proof.
  intros Hd Hp. pose proof (disjoint_perm l1 l2 Hp Hd) as Hd2.
  destruct (existsb (fun e => covers_byte e b) l1) eqn:E.
  - apply existsb_exists in E as (e & Hin%list_elem_of_In & Hb%covers_byte_spec).
    rewrite (byte_state_in l1 e), (byte_state_in l2 e); [done|done|by rewrite <-Hp|done..].
  - assert (~ list_covers l1 b) as Hn.
    { intros (e & Hin & Hb). rewrite <-not_true_iff_false in E. apply E, existsb_exists.
      exists e. by rewrite <-list_elem_of_In, covers_byte_spec. }
    rewrite !byte_state_out; [done| |done]. by rewrite <-(list_covers_perm l1 l2 b Hp).
Qed.

(** A byte that is not clean is in an entry. *)
Lemma byte_state_covers l b : byte_state l b <> STST_CLEAN -> list_covers l b.
Proof.
  intros H. destruct (existsb (fun e => covers_byte e b) l) eqn:E.
  - apply existsb_exists in E as (e & Hin%list_elem_of_In & Hb%covers_byte_spec). by exists e.
  - exfalso. apply H, byte_state_out. intros (e & Hin & Hb).
    rewrite <-not_true_iff_false in E. apply E, existsb_exists.
    exists e. by rewrite <-list_elem_of_In, covers_byte_spec.
Qed.
