(* ===== verification/PmcTx.v ===== *)
(** pmemcheck, the tool PMDebugger was made from: its pmc_common.c and
    pmc_tx.c, where they differ from PMDebugger's.

    The structures are PMDebugger's without the fields it added ([index],
    [is_delete] and [inEpoch] of a store, the redundant logging of
    transactions), which keep the values of a zeroed structure here.  Functions
    with the same text in both tools ([cmp_pmem_st], [check_overlap],
    [is_in_mapping_set], [add_warning_event]; of the transactions everything
    that does not change the regions of a transaction) are not repeated.
    pmemcheck always prints contexts, as PMDebugger does with
    [tree_reorganization]. *)
From S2P Require Import Prelude OSet Region Core Trans.
Local Open Scope Z_scope.
Local Open Scope pm_scope.

(** * Sets of regions *)

(** The loop takes out what the search region meets until nothing is left. *)
Fixpoint pc_add_region_loop (fuel : nat) (search entry : pmem_st) (set : region_set)
    : option (pmem_st * region_set) :=
  match fuel with
  | O => None
  | S fuel =>
      '(removed, set) ← OSetGen_Remove set search;
      match removed with
      | None => Some (entry, set)
      | Some old => pc_add_region_loop fuel search (absorb entry old) set
      end
  end.

(** Adds a region to a set. *)
Definition pc_add_region (region : pmem_st) (set : region_set) : option region_set :=
  let entry := set_state STST_CLEAN region in
  '(entry, set) ←
    pc_add_region_loop (S (tree_size (root set))) (search_around entry) entry set;
  OSetGen_Insert set entry.

(** Removes a region from a set: the text of PMDebugger's
    [remove_region_mapping]. *)
Definition pc_remove_region (region : pmem_st) (set : region_set) : option region_set :=
  remove_region_mapping region set.

(** * Transactions *)

Definition pc_init_transactions (transactions_only : bool) : T unit :=
  init_transactions transactions_only true false false.

Definition pc_tx_add_region (p : nat) (r : pmem_st) : T unit :=
  tx <- tx_deref p ;;
  set <- liftM AssertFail (pc_add_region r (regions tx)) ;;
  tx_assign p (set_regions set).

Definition pc_tx_remove_region (p : nat) (r : pmem_st) : T unit :=
  tx <- tx_deref p ;;
  set <- liftM AssertFail (pc_remove_region r (regions tx)) ;;
  tx_assign p (set_regions set).

(** Flush tx cache to main region tree. *)
Definition pc_flush_cache (p : nat) : T unit :=
  tx <- tx_deref p ;;
  if (addr (cached_region tx) =? 0) && (size (cached_region tx) =? 0) then retM tt
  else pc_tx_add_region p (cached_region tx) ;;; tx_assign p clear_cache.

(** Remove a transaction. *)
Definition pc_remove_tx (id : Z) : T Z :=
  p <- tx_lookup id ;;
  match p with
  | None => retM 1
  | Some p =>
      tx_assign p (fun t => set_counter (wsub (counter t) 1) t) ;;;
      tx <- tx_deref p ;;
      if 0 <? counter tx then retM 0 else
      thread_reset ;;;
      set <- get threads ;;
      while_next (rounds set) thread_next (remove_tx_thread id) ;;;
      tx <- tx_deref p ;;
      _ <- liftM AssertFail (OSetGen_Destroy (regions tx)) ;;
      txs <- get transactions ;;
      r <- liftM AssertFail (OSetGen_Remove txs id) ;;
      put set_transactions (snd r) ;;;
      retM 0
  end.

(** The body of the loop of [add_obj_to_tx] over the transactions. *)
Definition pc_add_obj_check (reg : pmem_st) (id : Z) (tx_iter : nat * tx_info) : T unit :=
  let tx := snd tx_iter in
  if tx_id tx =? id then retM tt
  else match overlapped reg tx with
       | None => retM tt
       | Some orig =>
           orig <- liftM NullDeref orig ;;
           register_cross_event orig (tx_id tx) reg id
       end.

(** Make place for [reg] in the cache of the transaction. *)
Definition pc_make_place (p : nat) (reg : pmem_st) : T unit :=
  tx <- tx_deref p ;;
  if negb (addr (cached_region tx) =? 0) && negb (size (cached_region tx) =? 0) then
    let overlap := check_overlap (cached_region tx) reg in
    if overlap =? 0 then pc_flush_cache p
    else if overlap =? 2 then pc_flush_cache p ;;; pc_tx_remove_region p reg
    else retM tt
  else retM tt.

(** Add a memory region to a transaction. *)
Definition pc_add_obj_to_tx (id base sz : Z) : T Z :=
  r <- find_tx id ;;
  match r with
  | inr e => retM e
  | inl p =>
      c <- record_ExeContext ;;
      let reg := set_context c (region_at base sz) in
      tx_reset ;;;
      set <- get transactions ;;
      while_next (rounds set) tx_next (pc_add_obj_check reg id) ;;;
      pc_make_place p reg ;;;
      tx_assign p (set_cached_region reg) ;;;
      retM 0
  end.

(** Remove a registered region from the given transaction. *)
Definition pc_remove_obj_from_tx (id base sz : Z) : T Z :=
  r <- find_tx id ;;
  match r with
  | inr e => retM e
  | inl p =>
      let reg := region_at base sz in
      tx <- tx_deref p ;;
      if is_in_cache reg tx then tx_assign p clear_cache ;;; retM 0
      else
        whenM (cmp_pmem_st reg (cached_region tx) =? 0)
          (pc_tx_add_region p (cached_region tx)) ;;;
        pc_tx_remove_region p reg ;;;
        retM 0
  end.

(** Check if the given store is registered in the transaction. *)
Definition pc_is_store_in_tx (store : pmem_st) (id : Z) : T bool :=
  p <- tx_lookup id ;;
  match p with
  | None =>
      v <- get verbose ;;
      whenM v (dmsg "no matching transaction found\n" []) ;;;
      retM false
  | Some p =>
      tx <- tx_deref p ;;
      if check_overlap store (cached_region tx) =? 1 then retM true
      else
        pc_flush_cache p ;;;
        tx <- tx_deref p ;;
        retM (is_in_mapping_set store (regions tx) =? 1)
  end.

(** Handle the store made to PMEM in regards to running transactions. *)
Definition pc_handle_tx_store (store : pmem_st) : T unit :=
  excl <- get excludes ;;
  if is_in_mapping_set store excl =? 1 then retM tt else
  tid <- get_running_tid ;;
  tinfo <- thread_lookup tid ;;
  match tinfo with
  | None =>
      only <- get transactions_only ;;
      whenM only (record_store store None) ;;;
      v <- get verbose ;;
      whenM v (dmsg "thread is not part of any transaction\n" [])
  | Some p =>
      found <- for_tx_ids p (pc_is_store_in_tx store) ;;
      if (found : bool) then retM tt
      else
        v <- get verbose ;;
        whenM v (print_thread_regions p) ;;;
        record_store store (Some p)
  end.

(** Add region to the global exclude list. *)
Definition pc_add_to_global_excludes (region : pmem_st) : T unit :=
  excl <- get excludes ;;
  set <- liftM AssertFail (pc_add_region region excl) ;;
  put set_excludes set.
