(* ===== verification/PmcMain.v ===== *)
(** pmemcheck's stores, fences and flushes: its pmc_main.c from
    [is_pmem_access] to [trace_pmem_flush].

    pmemcheck keeps the stores that are not persistent in one ordered set,
    compared by address; an entry is cut when a part of it is overwritten or
    flushed.  PMDebugger's array of stores and its bounds are not there.
    Functions whose text is the same in both tools ([cmp_exe_context],
    [is_store_mergeable], [merge_stores], [store_state_to_string] and the
    printing of stack traces) are those of Store.v; the options PMDebugger
    added to [struct pmem_ops] stay unset. *)
From S2P Require Import Prelude OSet Region Core Trans Pmem Store Flush PmcTx.
Local Open Scope pm_scope.

(** [struct pmem_ops] of pmemcheck. *)
Record pc_ops : Type := mkPc {
  pc_pmem_stores : region_set;
  pc_pmem_mappings : region_set;
  pc_multiple_stores : list pmem_st;
  pc_redundant_flushes : list pmem_st;
  pc_superfluous_flushes : list pmem_st;
  pc_opts : options;
}.

Definition pc_set_stores (x : region_set) (p : pc_ops) : pc_ops :=
  mkPc x (pc_pmem_mappings p) (pc_multiple_stores p) (pc_redundant_flushes p)
    (pc_superfluous_flushes p) (pc_opts p).
Definition pc_set_mappings (x : region_set) (p : pc_ops) : pc_ops :=
  mkPc (pc_pmem_stores p) x (pc_multiple_stores p) (pc_redundant_flushes p)
    (pc_superfluous_flushes p) (pc_opts p).
Definition pc_set_multiple (x : list pmem_st) (p : pc_ops) : pc_ops :=
  mkPc (pc_pmem_stores p) (pc_pmem_mappings p) x (pc_redundant_flushes p)
    (pc_superfluous_flushes p) (pc_opts p).
Definition pc_set_redundant (x : list pmem_st) (p : pc_ops) : pc_ops :=
  mkPc (pc_pmem_stores p) (pc_pmem_mappings p) (pc_multiple_stores p) x
    (pc_superfluous_flushes p) (pc_opts p).
Definition pc_set_superfluous (x : list pmem_st) (p : pc_ops) : pc_ops :=
  mkPc (pc_pmem_stores p) (pc_pmem_mappings p) (pc_multiple_stores p) (pc_redundant_flushes p)
    x (pc_opts p).
Definition pc_set_opts (x : options) (p : pc_ops) : pc_ops :=
  mkPc (pc_pmem_stores p) (pc_pmem_mappings p) (pc_multiple_stores p) (pc_redundant_flushes p)
    (pc_superfluous_flushes p) x.

(** The tool: the transactions with the globals, [pmem], and the number of
    superblocks run. *)
Record pc_world : Type := mkPcWorld {
  pc_tx : tx_state;
  pc_pmem : pc_ops;
  pc_sblocks : Z;
}.

Definition pc_set_pmem (p : pc_ops) (w : pc_world) : pc_world :=
  mkPcWorld (pc_tx w) p (pc_sblocks w).

Definition pc_set_tx (t : tx_state) (w : pc_world) : pc_world :=
  mkPcWorld t (pc_pmem w) (pc_sblocks w).

#[export] Instance has_globals_pc_world : HasGlobals pc_world :=
  {| the_globals w := glob (pc_tx w);
     with_globals g w := pc_set_tx (mkTxState g (trans (pc_tx w))) w |}.

#[export] Instance globals_laws_pc_world : GlobalsLaws pc_world.
Proof. split; [done|by intros [[] ? ?]]. Qed.

Abbreviation PC := (M pc_world).

(** Calls of the transactions module. *)
Definition pc_in_tx {A} (m : T A) : PC A := zoomM pc_tx pc_set_tx m.

(** Fields of [pmem]. *)
Definition pc_get {A} (f : pc_ops -> A) : PC A := getsM (fun w => f (pc_pmem w)).

Definition pc_mod (f : pc_ops -> pc_ops) : PC unit :=
  modM (fun w => pc_set_pmem (f (pc_pmem w)) w).

Definition pc_opt {A} (f : options -> A) : PC A := pc_get (fun p => f (pc_opts p)).

(** * The set of stores *)

Definition pc_put_stores (s : region_set) : PC unit := pc_mod (pc_set_stores s).

Definition pc_insert (e : pmem_st) : PC unit :=
  s <- pc_get pc_pmem_stores ;; s' <- liftM AssertFail (OSetGen_Insert s e) ;; pc_put_stores s'.

Definition pc_lookup (key : pmem_st) : PC (option (nat * pmem_st)) :=
  s <- pc_get pc_pmem_stores ;; retM (OSetGen_LookupNode s key).

Definition pc_remove (key : pmem_st) : PC (option pmem_st) :=
  s <- pc_get pc_pmem_stores ;; r <- liftM AssertFail (OSetGen_Remove s key) ;;
  pc_put_stores (snd r) ;;; retM (fst r).

Definition pc_assign (p : nat) (f : pmem_st -> pmem_st) : PC unit :=
  s <- pc_get pc_pmem_stores ;; pc_put_stores (OSetGen_Update s p f).

Definition pc_reset : PC unit :=
  s <- pc_get pc_pmem_stores ;; s' <- liftM AssertFail (OSetGen_ResetIter s) ;; pc_put_stores s'.

Definition pc_reset_at (key : pmem_st) : PC unit :=
  s <- pc_get pc_pmem_stores ;; s' <- liftM AssertFail (OSetGen_ResetIterAt s key) ;;
  pc_put_stores s'.

Definition pc_next : PC (option (nat * pmem_st)) :=
  s <- pc_get pc_pmem_stores ;; r <- liftM AssertFail (OSetGen_Next s) ;;
  pc_put_stores (snd r) ;;; retM (fst r).

(** Check if a given store overlaps with registered persistent memory
    regions. *)
Definition pc_is_pmem_access (a sz : Z) : PC bool :=
  set <- pc_get pc_pmem_mappings ;; retM (OSetGen_Contains set (region_at a sz)).

(** * Reports of warnings *)

(** The lines of a register of stores, with their states. *)
Definition pc_print_register (evs : list pmem_st) : PC unit :=
  for_events (fun i tmp =>
    umsg "[%d] " [Num i] ;;;
    pp_ExeContext (context tmp) ;;;
    umsg "\tAddress: 0x%lx\tsize: %llu\tstate: %s\n"
      [Num (addr tmp); Num (size tmp); Str (store_state_to_string (state tmp))]) 0 evs.

Definition pc_print_redundant_flushes : PC unit :=
  evs <- pc_get pc_redundant_flushes ;;
  umsg "\nNumber of redundantly flushed stores: %lu\n" [Num (Z.of_nat (length evs))] ;;;
  umsg "Stores flushed multiple times:\n" [] ;;;
  pc_print_register evs.

Definition pc_print_superfluous_flushes : PC unit :=
  evs <- pc_get pc_superfluous_flushes ;;
  umsg "\nNumber of unnecessary flushes: %lu\n" [Num (Z.of_nat (length evs))] ;;;
  for_events (fun i tmp =>
    umsg "[%d] " [Num i] ;;;
    pp_ExeContext (context tmp) ;;;
    umsg "\tAddress: 0x%lx\tsize: %llu\n" [Num (addr tmp); Num (size tmp)]) 0 evs.

Definition pc_print_multiple_stores : PC unit :=
  evs <- pc_get pc_multiple_stores ;;
  umsg "\nNumber of overwritten stores: %lu\n" [Num (Z.of_nat (length evs))] ;;;
  umsg "Overwritten stores before they were made persistent:\n" [] ;;;
  pc_print_register evs.

Definition pc_print_max_poss_overwrites_error (limit : Z) : PC unit :=
  umsg "The number of overwritten stores exceeded %lu\n\n" [Num limit] ;;;
  umsg "This either means there is something fundamentally wrong with your program, or you are using your persistent memory as volatile memory.\n" [] ;;;
  message_flush ;;;
  pc_print_multiple_stores.

Definition pc_print_superfluous_flush_error (limit : Z) : PC unit :=
  umsg "The number of superfluous flushes exceeded %lu\n\n" [Num limit] ;;;
  umsg "This means your program is constantly flushing regions of memory, where no stores were made. This is a performance issue.\n" [] ;;;
  message_flush ;;;
  pc_print_superfluous_flushes.

Definition pc_print_redundant_flush_error (limit : Z) : PC unit :=
  umsg "The number of redundant flushes exceeded %lu\n\n" [Num limit] ;;;
  umsg "This means your program is constantly flushing regions of memory, which have already been flushed. This is a performance issue.\n" [] ;;;
  message_flush ;;;
  pc_print_redundant_flushes.

(** * Splitting stores *)

(** Free a store if it was preallocated: no effect on the state. *)
Definition pc_free_clb (store : pmem_st) (preallocated : bool) : PC unit := retM tt.

(** Issue a warning event with the given store as the offender; a store on the
    stack is copied first. *)
Definition pc_add_mult_overwrite_warn (store : pmem_st) (preallocated : bool) : PC unit :=
  evs <- pc_get pc_multiple_stores ;;
  match add_warning_event evs store MAX_MULT_OVERWRITES with
  | None => pc_print_max_poss_overwrites_error MAX_MULT_OVERWRITES ;;; stopM ExitMinus1
  | Some evs => pc_mod (pc_set_multiple evs)
  end.

(** The old entry without its end, and without its beginning, of which the part
    from [cut] on stays. *)
Definition keep_front (old_max : Z) (new o : pmem_st) : pmem_st :=
  set_size (wsub (addr new) (addr o)) (set_value (shr (value o) (wsub old_max (addr new))) o).

Definition keep_back (old_max new_max : Z) (o : pmem_st) : pmem_st :=
  let o := set_size (wsub old_max new_max) (set_addr new_max o) in
  set_value (Z.land (value o) (low_mask (size o))) o.

(** Splits-adjusts the two given stores so that they do not overlap: the entry
    [o] of the set, node [p], loses what [new] covers, and the callback is
    called for that part. *)
Definition pc_split_stores (p : nat) (o new : pmem_st) (clb : pmem_st -> bool -> PC unit)
    : PC unit :=
  let new_max := max_addr new in
  let old_max := max_addr o in
  if (addr new <=? addr o) && (old_max <=? new_max) then
    _ <- pc_remove o ;;
    clb o true
  else if addr o <? addr new then
    if new_max <? old_max then
      pc_assign p (keep_front old_max new) ;;;
      pc_insert (keep_back old_max new_max o) ;;;
      clb (set_context (context o) new) false
    else
      clb (set_size (wsub old_max (addr new)) (set_addr (addr new) o)) false ;;;
      pc_assign p (keep_front old_max new)
  else if new_max <? old_max then
    clb (set_size (wsub (size o) (wsub old_max new_max)) o) false ;;;
    pc_assign p (keep_back old_max new_max)
  else stopM AssertFail.

(** * Handling a store *)

Section Stores.
Context `{CoreEnv}.

(** Remove old overlapping entries. *)
Fixpoint pc_split_overlapping (fuel : nat) (region : pmem_st) : PC unit :=
  match fuel with
  | O => stopM OutOfFuel
  | S fuel =>
      old_entry <- pc_lookup region ;;
      match old_entry with
      | None => retM tt
      | Some (p, o) => pc_split_stores p o region pc_free_clb ;;; pc_split_overlapping fuel region
      end
  end.

(** One adjacent entry: merged with the region if the two are merge'able. *)
Definition pc_merge_neighbour (region search_entry : pmem_st) : PC pmem_st :=
  old_entry <- pc_lookup search_entry ;;
  match old_entry with
  | None => retM region
  | Some (_, old_entry) =>
      b <- liftM AssertFail (is_store_mergeable region old_entry) ;;
      if (b : bool) then
        _ <- pc_remove search_entry ;;
        retM (merge_stores region old_entry)
      else retM region
  end.

(** An entry is met once; the rounds the loops over the overlapping entries are
    given. *)
Definition pc_split_rounds : PC nat :=
  s <- pc_get pc_pmem_stores ;; retM (S (tree_size (root s))).

(** Add and merges adjacent stores if possible; the region as it was
    inserted. *)
Definition pc_add_and_merge_store (region : pmem_st) : PC pmem_st :=
  n <- pc_split_rounds ;;
  pc_split_overlapping n region ;;;
  let search_entry := set_addr (wsub (addr region) 1) region in
  region <- pc_merge_neighbour region search_entry ;;
  let search_entry := set_addr (wadd (addr search_entry) 2) search_entry in
  region <- pc_merge_neighbour region search_entry ;;
  pc_insert region ;;;
  retM region.

(** The loop of [handle_with_mult_stores]. *)
Fixpoint pc_mult_overlapping (fuel : nat) (store : pmem_st) : PC unit :=
  match fuel with
  | O => stopM OutOfFuel
  | S fuel =>
      existing <- pc_lookup store ;;
      match existing with
      | None => retM tt
      | Some (p, o) =>
          indiff <- pc_opt store_sb_indiff ;;
          (if same_store indiff store o then _ <- pc_remove store ;; retM tt
           else pc_split_stores p o store pc_add_mult_overwrite_warn) ;;;
          pc_mult_overlapping fuel store
      end
  end.

(** Handle a new store checking for multiple overwrites. *)
Definition pc_handle_with_mult_stores (store : pmem_st) : PC unit :=
  n <- pc_split_rounds ;;
  pc_mult_overlapping n store ;;;
  pc_insert store.

(** The line of a logged store and its stack trace. *)
Definition pc_print_store_ip_desc (ip : Z) : PC unit :=
  emit ";" [] ;;;
  for_events (fun _ buf => if clo_xml then say (Umsg "%s\n" [Str buf]) else emit "%s" [Str buf])
    0 (describe_IP ip).

Definition pc_pp_store_trace (store : pmem_st) (n_ips : Z) : PC unit :=
  c <- liftM NullDeref (context store) ;;
  let n_ips := if n_ips =? 0 then Z.of_nat (length (stack_trace c)) else n_ips in
  if n_ips =? 0 then stopM AssertFail else
  whenM clo_xml (say (Umsg "    <stack>\n" [])) ;;;
  for_events (fun _ ip => pc_print_store_ip_desc ip) 0 (apply_StackTrace (stack_trace c) n_ips) ;;;
  whenM clo_xml (say (Umsg "    </stack>\n" [])).

(** Trace the given store if it was to any of the registered persistent memory
    regions.  The transactions are given the store as it is in the set, merged
    with its neighbours. *)
Definition pc_trace_pmem_store (a sz v : Z) : PC unit :=
  b <- pc_is_pmem_access a sz ;;
  if negb b then retM tt else
  blocks <- getsM pc_sblocks ;;
  c <- record_ExeContext ;;
  let store := set_context c (set_value v (set_block_num blocks
                 (set_state STST_DIRTY (region_at a sz)))) in
  lg <- pc_opt log_stores ;;
  whenM lg
    (emit "|STORE;0x%lx;0x%lx;0x%lx" [Num a; Num v; Num sz] ;;;
     tr <- pc_opt store_traces ;; depth <- pc_opt store_traces_depth ;;
     whenM tr (pc_pp_store_trace store depth)) ;;;
  mult <- pc_opt track_multiple_stores ;;
  store <- (if (mult : bool) then pc_handle_with_mult_stores store ;;; retM store
            else pc_add_and_merge_store store) ;;
  pc_in_tx (pc_handle_tx_store store).

(** Register the entry of a new SB. *)
Definition pc_add_one_SB_entered : PC unit :=
  modM (fun w => mkPcWorld (pc_tx w) (pc_pmem w) (wadd (pc_sblocks w) 1)).
End Stores.

(** * Fences *)

(** The rounds of a loop over the set: an entry may be visited again after it
    was cut, and so may the part cut from it. *)
Definition pc_rounds : PC nat :=
  s <- pc_get pc_pmem_stores ;; retM (S (3 * tree_size (root s))).

(** A flushed store leaves the set. *)
Definition pc_fence_node (n : nat * pmem_st) : PC unit :=
  whenM (bool_decide (state (snd n) = STST_FLUSHED))
    (_ <- pc_remove (snd n) ;; pc_reset_at (snd n)).

(** Register a fence: flushed stores are persistent. *)
Definition pc_do_fence : PC unit :=
  lg <- pc_opt log_stores ;;
  whenM lg (emit "|FENCE" []) ;;;
  pc_reset ;;;
  n <- pc_rounds ;;
  while_next n pc_next pc_fence_node.

(** * Flushes *)

Definition pc_flush_region (base sz : Z) : PC pmem_st :=
  force <- pc_opt force_flush_align ;;
  align <- pc_opt flush_align_size ;;
  retM (if (force : bool)
        then region_at (Z.land base (wrap (Z.lnot (align - 1)))) (roundup sz align)
        else region_at base sz).

Definition pc_add_redundant_flush (being_flushed : pmem_st) : PC unit :=
  evs <- pc_get pc_redundant_flushes ;;
  match add_warning_event evs being_flushed MAX_FLUSH_ERROR_EVENTS with
  | None => pc_print_redundant_flush_error MAX_FLUSH_ERROR_EVENTS ;;; stopM ExitMinus1
  | Some evs => pc_mod (pc_set_redundant evs)
  end.

Definition pc_add_superfluous_flush (flush_info : pmem_st) : PC unit :=
  c <- record_ExeContext ;;
  evs <- pc_get pc_superfluous_flushes ;;
  match add_warning_event evs (set_context c flush_info) MAX_FLUSH_ERROR_EVENTS with
  | None => pc_print_superfluous_flush_error MAX_FLUSH_ERROR_EVENTS ;;; stopM ExitMinus1
  | Some evs => pc_mod (pc_set_superfluous evs)
  end.

(** The store starts before the flush: the part before it stays dirty.  The
    iterator is put at the rest, which is the store from now on. *)
Definition pc_split_before (flush_info b : pmem_st) : PC pmem_st :=
  if addr b <? addr flush_info then
    let split := set_state STST_DIRTY (set_size (wsub (addr flush_info) (addr b)) b) in
    _ <- pc_remove b ;;
    let b := set_size (wsub (size b) (size split)) (set_addr (addr flush_info) b) in
    pc_insert split ;;;
    pc_insert b ;;;
    pc_reset_at b ;;;
    retM b
  else retM b.

(** The store ends behind the flush: the part after it stays dirty, and the
    iterator is put at that part. *)
Definition pc_split_after (flush_info b : pmem_st) : PC unit :=
  let flush_max := max_addr flush_info in
  whenM (flush_max <? max_addr b)
    (let split := set_state STST_DIRTY (set_size (wsub (max_addr b) flush_max)
                    (set_addr flush_max b)) in
     _ <- pc_remove b ;;
     let b := set_size (wsub (size b) (size split)) b in
     pc_insert split ;;;
     pc_insert b ;;;
     pc_reset_at split).

(** One store of the set; the result says whether the flush was valid. *)
Definition pc_flush_node (flush_info : pmem_st) (valid : bool) (n : nat * pmem_st) : PC bool :=
  let being_flushed := snd n in
  if negb (cmp_pmem_st flush_info being_flushed =? 0) then retM valid
  else if negb (bool_decide (state being_flushed = STST_DIRTY)) then
    chk <- pc_opt check_flush ;;
    whenM chk (pc_add_redundant_flush being_flushed) ;;;
    retM true
  else
    pc_assign (fst n) (set_state STST_FLUSHED) ;;;
    b <- pc_split_before flush_info (set_state STST_FLUSHED being_flushed) ;;
    pc_split_after flush_info b ;;;
    retM true.

(** Register a flush: dirty stores of the region are flushed. *)
Definition pc_do_flush (base sz : Z) : PC unit :=
  flush_info <- pc_flush_region base sz ;;
  lg <- pc_opt log_stores ;;
  whenM lg (emit "|FLUSH;0x%lx;0x%llx" [Num (addr flush_info); Num (size flush_info)]) ;;;
  pc_reset ;;;
  n <- pc_rounds ;;
  valid <- fold_next n pc_next false (pc_flush_node flush_info) ;;
  chk <- pc_opt check_flush ;;
  whenM (negb valid && chk) (pc_add_superfluous_flush flush_info).

(** Register runtime flush. *)
Definition pc_trace_pmem_flush (a : Z) : PC unit :=
  align <- pc_opt flush_align_size ;; pc_do_flush a align.
