(* ===== verification/PmcClient.v ===== *)
(** pmemcheck's reports, its start and end, and the requests of the client
    program: the rest of its pmc_main.c, and pmemcheck.h. *)
From S2P Require Import Prelude OSet Region Core Trans Pmem Store Flush Report Client PmcTx PmcMain.
Local Open Scope pm_scope.

(** * Reports *)

(** Print outstanding stores: the line of an entry; [acc] is its number and the
    bytes counted so far. *)
Definition pc_stats_node (acc : Z * Z) (n : nat * pmem_st) : PC (Z * Z) :=
  let tmp := snd n in
  umsg "[%d] " [Num (fst acc)] ;;;
  pp_ExeContext (context tmp) ;;;
  umsg "\tAddress: 0x%lx\tsize: %llu\tstate: %s\n"
    [Num (addr tmp); Num (size tmp); Str (store_state_to_string (state tmp))] ;;;
  retM (fst acc + 1, wadd (snd acc) (size tmp)).

Definition pc_print_store_stats : PC unit :=
  set <- pc_get pc_pmem_stores ;;
  umsg "Number of stores not made persistent: %u\n" [Num (OSetGen_Size set)] ;;;
  if OSetGen_Size set =? 0 then retM tt
  else
    pc_reset ;;;
    umsg "Stores not made persistent properly:\n" [] ;;;
    r <- fold_next (rounds set) pc_next (0, 0) pc_stats_node ;;
    umsg "Total memory not made persistent: %lu\n" [Num (snd r)].

(** Print the summary of whole analysis. *)
Definition pc_print_general_summary : PC unit :=
  p <- pc_get (fun p => p) ;;
  tx <- pc_in_tx get_tx_all_err ;;
  umsg "ERROR SUMMARY: %lu errors\n"
    [Num (Z.of_nat (length (pc_redundant_flushes p)) +
          Z.of_nat (length (pc_superfluous_flushes p)) +
          Z.of_nat (length (pc_multiple_stores p)) + OSetGen_Size (pc_pmem_stores p) + tx)].

(** Print tool statistics. *)
Definition pc_print_pmem_stats (append_blank_line : bool) : PC unit :=
  pc_print_store_stats ;;;
  pc_in_tx print_tx_summary ;;;
  rf <- pc_get pc_redundant_flushes ;;
  whenM (negb (Z.of_nat (length rf) =? 0)) pc_print_redundant_flushes ;;;
  sf <- pc_get pc_superfluous_flushes ;;
  whenM (negb (Z.of_nat (length sf) =? 0)) pc_print_superfluous_flushes ;;;
  tm <- pc_opt track_multiple_stores ;; ms <- pc_get pc_multiple_stores ;;
  whenM (tm && (0 <? Z.of_nat (length ms))) pc_print_multiple_stores ;;;
  es <- pc_opt error_summary ;;
  whenM es pc_print_general_summary ;;;
  whenM append_blank_line (umsg "\n" []).

(** Print the registered persistent memory mappings. *)
Definition pc_mapping_next : PC (option (nat * pmem_st)) :=
  s <- pc_get pc_pmem_mappings ;; r <- liftM AssertFail (OSetGen_Next s) ;;
  pc_mod (pc_set_mappings (snd r)) ;;; retM (fst r).

Definition pc_print_persistent_mappings : PC unit :=
  s <- pc_get pc_pmem_mappings ;; s' <- liftM AssertFail (OSetGen_ResetIter s) ;;
  pc_mod (pc_set_mappings s') ;;;
  _ <- fold_next (rounds s) pc_mapping_next 0 (fun i mapping =>
         umsg "[%d] Mapping base: 0x%lx\tsize: %llu\n"
           [Num i; Num (addr (snd mapping)); Num (size (snd mapping))] ;;;
         retM (i + 1)) ;;
  retM tt.

(** Gdb monitor command handler: whether the command is recognized.  The regions
    are asked of the iterator of the stores, which is not put at the first
    one. *)
Definition pc_handle_gdb_monitor_command (cmd : monitor_cmd) : PC bool :=
  match cmd with
  | CmdDuplicate => retM true
  | CmdUnknown => retM false
  | CmdHelp =>
      gdb_printf "\npmemcheck gdb monitor commands:\n  print_stats\n        prints the summary\n  print_pmem_regions \n        prints the registered persistent memory regions\n\n" [] ;;;
      retM true
  | CmdPrintStats => pc_print_pmem_stats true ;;; retM true
  | CmdPrintRegions =>
      gdb_printf "Registered persistent memory regions:\n" [] ;;;
      s <- pc_get pc_pmem_stores ;;
      while_next (rounds s) pc_next (fun tmp =>
        gdb_printf "\tAddress: 0x%lx \tsize: %llu\n" [Num (addr (snd tmp)); Num (size (snd tmp))]) ;;;
      retM true
  end.

(** * Command line *)

Definition pc_bool_options : list (string * (bool -> options -> options)) :=
  [("--mult-stores", set_track_multiple_stores);
   ("--log-stores", set_log_stores);
   ("--log-stores-stacktraces", set_store_traces);
   ("--print-summary", set_print_summary);
   ("--flush-check", set_check_flush);
   ("--flush-align", set_force_flush_align);
   ("--tx-only", set_o_transactions_only);
   ("--isa-rec", set_automatic_isa_rec);
   ("--error-summary", set_error_summary);
   ("--expect-fence-after-clflush", set_weak_clflush)].

Definition pc_int_options : list (string * Z * (Z -> options -> options)) :=
  [("--indiff", 0, set_store_sb_indiff);
   ("--log-stores-stacktraces-depth", 1, set_store_traces_depth)].

(** Handle a tool command line argument: whether it is recognized. *)
Definition pc_process_cmd_line_option (arg : string) : PC bool :=
  match match find_bool arg pc_bool_options with
        | Some r => Some r
        | None => find_int arg pc_int_options
        end with
  | None => retM false
  | Some None => stopM BadOption
  | Some (Some f) => pc_mod (fun p => pc_set_opts (f (pc_opts p)) p) ;;; retM true
  end.

(** The defaults. *)
Definition pc_pre_clo_init (o : options) : options :=
  set_error_summary true (set_automatic_isa_rec true (set_store_traces_depth 1
    (set_print_summary true o))).

Section Client.
Context `{CoreEnv} `{ClientEnv}.

(** Post command line options initialization. *)
Definition pc_post_clo_init : PC unit :=
  o <- pc_get pc_opts ;;
  modM (pc_set_pmem (mkPc (OSetGen_Create (Some cmp_pmem_st)) (OSetGen_Create (Some cmp_pmem_st))
    [] [] [] (set_flush_align_size read_cache_line_size o))) ;;;
  pc_in_tx (pc_init_transactions (o_transactions_only o)) ;;;
  whenM (log_stores o) (emit "START" []).

(** Called on program exit. *)
Definition pc_fini : PC unit :=
  lg <- pc_opt log_stores ;;
  whenM lg (emit "|STOP\n" []) ;;;
  ps <- pc_opt print_summary ;;
  whenM ps (pc_print_pmem_stats false).

(** * Client requests *)

(** The enumeration of pmemcheck.h, in its order. *)
Definition pc_requests : list request :=
  [REGISTER_PMEM_MAPPING; REGISTER_PMEM_FILE; REMOVE_PMEM_MAPPING;
   CHECK_IS_PMEM_MAPPING; PRINT_PMEM_MAPPINGS; DO_FLUSH; DO_FENCE;
   RESERVED1; WRITE_STATS; RESERVED2; RESERVED3; RESERVED4; RESERVED5;
   RESERVED7; RESERVED8; RESERVED9; RESERVED10; SET_CLEAN;
   START_TX; START_TX_N; END_TX; END_TX_N; ADD_TO_TX; ADD_TO_TX_N;
   REMOVE_FROM_TX; REMOVE_FROM_TX_N; ADD_THREAD_TO_TX_N;
   REMOVE_THREAD_FROM_TX_N; ADD_TO_GLOBAL_TX_IGNORE; RESERVED6; EMIT_LOG].

Definition pc_request_of (code : Z) : option request :=
  if code =? 4610 then Some GDB_MONITOR_COMMAND
  else if code <? PC_BASE then None
  else pc_requests !! Z.to_nat (code - PC_BASE).

Definition pc_register_mapping (base sz : Z) : PC unit :=
  s <- pc_get pc_pmem_mappings ;;
  s' <- liftM AssertFail (pc_add_region (region_at base sz) s) ;;
  pc_mod (pc_set_mappings s').

Definition pc_remove_mapping (base sz : Z) : PC unit :=
  s <- pc_get pc_pmem_mappings ;;
  s' <- liftM AssertFail (pc_remove_region (region_at base sz) s) ;;
  pc_mod (pc_set_mappings s').

(** Mark a region as clean. *)
Definition pc_set_clean (base sz : Z) : PC unit :=
  s <- pc_get pc_pmem_stores ;;
  s' <- liftM AssertFail (pc_remove_region (region_at base sz) s) ;;
  pc_put_stores s'.

(** Try to register a file mapping: 0 on success, 1 otherwise. *)
Definition pc_register_new_file (fd base sz offset : Z) : PC Z :=
  match readlink fd with
  | None => retM 1
  | Some file_name =>
      lg <- pc_opt log_stores ;;
      whenM lg (emit "|REGISTER_FILE;%s;0x%lx;0x%lx;0x%lx"
                  [Str file_name; Num base; Num sz; Num offset]) ;;;
      retM 0
  end.

(** Requests that change the state of persistent memory. *)
Definition pc_handle_pmem_request (r : request) (arg : nat -> Z) : PC (option (bool * option Z)) :=
  let done := Some (true, None) in
  match r with
  | REGISTER_PMEM_MAPPING => pc_register_mapping (arg 1%nat) (arg 2%nat) ;;; retM done
  | REMOVE_PMEM_MAPPING => pc_remove_mapping (arg 1%nat) (arg 2%nat) ;;; retM done
  | REGISTER_PMEM_FILE =>
      let fd := int32 (arg 1%nat) in
      ret <- (if 0 <=? fd then pc_register_new_file fd (arg 2%nat) (arg 3%nat) (arg 4%nat)
              else retM 1) ;;
      retM (Some (true, Some ret))
  | CHECK_IS_PMEM_MAPPING =>
      s <- pc_get pc_pmem_mappings ;;
      retM (Some (true, Some (is_in_mapping_set (region_at (arg 1%nat) (arg 2%nat)) s)))
  | PRINT_PMEM_MAPPINGS => pc_print_persistent_mappings ;;; retM done
  | DO_FLUSH => pc_do_flush (arg 1%nat) (arg 2%nat) ;;; retM done
  | DO_FENCE => pc_do_fence ;;; retM done
  | WRITE_STATS => pc_print_pmem_stats true ;;; retM done
  | GDB_MONITOR_COMMAND =>
      handled <- pc_handle_gdb_monitor_command (keyword_id (string_at (arg 1%nat))) ;;
      retM (Some (handled, Some (if (handled : bool) then 0 else 1)))
  | EMIT_LOG =>
      lg <- pc_opt log_stores ;;
      whenM lg (emit "|%s" [Str (string_at (arg 1%nat))]) ;;;
      retM done
  | SET_CLEAN => pc_set_clean (arg 1%nat) (arg 2%nat) ;;; retM done
  | _ => retM None
  end.

(** Requests about transactions. *)
Definition pc_handle_tx_request (r : request) (arg : nat -> Z) : PC (option (bool * option Z)) :=
  let done := Some (true, None) in
  let give (m : T Z) := ret <- pc_in_tx m ;; retM (Some (true, Some ret)) in
  tid <- get_running_tid ;;
  match r with
  | START_TX => pc_in_tx (register_new_tx tid) ;;; retM done
  | START_TX_N => pc_in_tx (register_new_tx (arg 1%nat)) ;;; retM done
  | END_TX => give (pc_remove_tx tid)
  | END_TX_N => give (pc_remove_tx (arg 1%nat))
  | ADD_TO_TX => give (pc_add_obj_to_tx tid (arg 1%nat) (arg 2%nat))
  | ADD_TO_TX_N => give (pc_add_obj_to_tx (arg 1%nat) (arg 2%nat) (arg 3%nat))
  | REMOVE_FROM_TX => give (pc_remove_obj_from_tx tid (arg 1%nat) (arg 2%nat))
  | REMOVE_FROM_TX_N | ADD_THREAD_TO_TX_N | REMOVE_THREAD_FROM_TX_N =>
      give (pc_remove_obj_from_tx (arg 1%nat) (arg 2%nat) (arg 3%nat))
  | ADD_TO_GLOBAL_TX_IGNORE =>
      pc_in_tx (pc_add_to_global_excludes (region_at (arg 1%nat) (arg 2%nat))) ;;; retM done
  | RESERVED1 => retM done
  | _ => retM None
  end.

(** Client mechanism handler: whether the request was handled, and the value
    given back to the client if one is. *)
Definition pc_handle_client_request (arg : nat -> Z) : PC (bool * option Z) :=
  let code := arg 0%nat in
  if negb (is_tool_userreq code) && negb (code =? 4610) then retM (false, None) else
  match pc_request_of code with
  | None =>
      umsg "Warning: unknown pmemcheck client request code 0x%llx\n" [Num code] ;;;
      retM (false, None)
  | Some r =>
      x <- pc_handle_pmem_request r arg ;;
      match x with
      | Some res => retM res
      | None =>
          y <- pc_handle_tx_request r arg ;;
          match y with
          | Some res => retM res
          | None =>
              umsg "Warning: deprecated pmemcheck client request code 0x%llx\n" [Num code] ;;;
              retM (false, None)
          end
      end
  end.
End Client.
