(* ===== verification/PmcStoreSpec.v ===== *)
(** What pmemcheck's handling of a store does to its set: the entries the store
    overlaps lose the bytes it covers, adjacent entries of the same state and
    call stack are merged with it, and every other byte keeps its state. *)
From S2P Require Import Prelude OSet OSetTree OSetSpec Region RegionSpec StoreSet Core Trans Pmem Store Flush PmcTx PmcMain.
Local Open Scope pm_scope.

Implicit Types (s : region_set) (e o x y new : pmem_st) (l : list pmem_st) (w : pc_world).

(** The tool with another set of stores. *)
Definition pc_at w s : pc_world := pc_set_pmem (pc_set_stores s (pc_pmem w)) w.

Lemma pc_at_self w : pc_at w (pc_pmem_stores (pc_pmem w)) = w.
Proof. by destruct w as [? [] ?]. Qed.

(** The calls on the set. *)
Lemma pc_insert_ok w s s' x :
  OSetGen_Insert s x = Some s' -> pc_insert x (pc_at w s) = Ok tt (pc_at w s').
Proof. intros H. unfold pc_insert. step. simpl. by rewrite H. Qed.

Lemma pc_remove_ok w s s' k r :
  OSetGen_Remove s k = Some (r, s') -> pc_remove k (pc_at w s) = Ok r (pc_at w s').
Proof. intros H. unfold pc_remove. step. simpl. by rewrite H. Qed.

Lemma pc_reset_at_ok w s s' k :
  OSetGen_ResetIterAt s k = Some s' -> pc_reset_at k (pc_at w s) = Ok tt (pc_at w s').
Proof. intros H. unfold pc_reset_at. step. simpl. by rewrite H. Qed.

Lemma pc_next_ok w s s' r :
  OSetGen_Next s = Some (r, s') -> pc_next (pc_at w s) = Ok r (pc_at w s').
Proof. intros H. unfold pc_next. step. simpl. by rewrite H. Qed.

Lemma pc_assign_ok w s p f : pc_assign p f (pc_at w s) = Ok tt (pc_at w (OSetGen_Update s p f)).
Proof. done. Qed.

(** * Cutting an entry *)

(** What stays of an entry. *)
Definition cut_out new o : list pmem_st :=
  if negb (cmp_pmem_st o new =? 0) then [o]
  else (if addr o <? addr new then [keep_front (max_addr o) new o] else []) ++
       (if max_addr new <? max_addr o then [keep_back (max_addr o) (max_addr new) o] else []).

(** The part the callback is called with. *)
Definition overwritten new o : pmem_st :=
  if (addr new <=? addr o) && (max_addr o <=? max_addr new) then o
  else if addr o <? addr new then
    if max_addr new <? max_addr o then set_context (context o) new
    else set_size (wsub (max_addr o) (addr new)) (set_addr (addr new) o)
  else set_size (wsub (size o) (wsub (max_addr o) (max_addr new))) o.

(** The overwritten part covers the bytes both have, and what stays the
    others. *)
Lemma overwritten_covers new o b :
  region_ok new -> region_ok o -> ~ outside new o ->
  covers (overwritten new o) b <-> covers new b /\ covers o b.
Proof.
  intros Hn Ho Hc. unfold overwritten. rewrite !max_addr_ok by done.
  destruct Hn as (? & ? & ?), Ho as (? & ? & ?). unfold covers, outside in *.
  repeat (ztest; simpl); word_solve.
Qed.

Lemma cut_out_pieces new o :
  region_ok new -> region_ok o ->
  Forall (fun x => within x o /\ outside x new /\ state x = state o) (cut_out new o) /\
  (forall b, existsb (fun x => covers_byte x b) (cut_out new o) =
     covers_byte o b && negb (covers_byte new b)) /\
  (cmp_pmem_st o new = 0 -> (length (cut_out new o) <= 1)%nat \/ within new o).
Proof.
  intros Hn Ho. unfold cut_out. destruct (Z.eqb_spec (cmp_pmem_st o new) 0) as [Hc|Hc]; simpl.
  - apply cmp_overlap in Hc; [|done..]. rewrite !max_addr_ok by done.
    unfold keep_front, keep_back, covers_byte, within, outside in *.
    destruct Hn as (? & ? & ?), Ho as (? & ? & ?).
    split; [|split].
    + repeat (ztest; simpl); repeat first [apply Forall_cons_2 | apply Forall_nil_2 | split];
        simpl; try done; word_solve.
    + intros b. repeat (ztest; simpl); word_solve; repeat (ztest; simpl); lia.
    + intros _. repeat (ztest; simpl); word_solve.
  - assert (outside o new) as Hu.
    { rewrite cmp_overlap in Hc by done. unfold outside in *. lia. }
    split; [|split; [|done]].
    + constructor; [|done]. split; [|done]. unfold within. destruct Ho. lia.
    + intros b. destruct (covers_byte o b) eqn:Eo; [|done]. simpl.
      apply covers_byte_spec in Eo. by rewrite (proj2 (covers_byte_false new b)) by
        by apply (outside_covers o).
Qed.

Lemma cut_out_outside new l :
  region_ok new -> Forall region_ok l -> Forall (outside new) l -> flat_map (cut_out new) l = l.
Proof.
  intros Hn Hl Ho. induction l as [|x l IH]; [done|]. apply Forall_cons in Hl as [Hx Hl], Ho as [Hu Ho].
  simpl. rewrite IH by done. unfold cut_out. destruct (Z.eqb_spec (cmp_pmem_st x new) 0) as [Hc|]; [|done].
  apply cmp_overlap in Hc; [|done..]. by apply outside_sym in Hu.
Qed.

(** All the bytes of the new store leave the entries, the others stay as they
    are. *)
Lemma cut_out_state new l b :
  region_ok new -> Forall region_ok l ->
  byte_state (flat_map (cut_out new) l) b =
  if covers_byte new b then STST_CLEAN else byte_state l b.
Proof.
  intros Hn. induction l as [|o l IH]; intros Hl; [by destruct (covers_byte new b)|].
  apply Forall_cons in Hl as [Ho Hl]. specialize (IH Hl). simpl. rewrite byte_state_app, IH.
  destruct (cut_out_pieces new o Hn Ho) as (Hp & Hb & _). rewrite Hb.
  destruct (covers_byte new b) eqn:En; simpl; [by rewrite andb_false_r|]. rewrite andb_true_r.
  destruct (covers_byte o b) eqn:Eo; [|done].
  specialize (Hb b). rewrite Eo, En in Hb. simpl in Hb. clear -Hp Hb.
  induction (cut_out new o) as [|x ps IH]; [done|]. apply Forall_cons in Hp as [(_ & _ & Hx) Hp].
  simpl in *. destruct (covers_byte x b); [done|]. by apply IH.
Qed.

(** At most one entry is cut in two, and then no other is touched. *)
Lemma cut_out_length new l :
  region_ok new -> Forall region_ok l -> disjoint_stores l ->
  (length (flat_map (cut_out new) l) <= S (length l))%nat.
Proof.
  intros Hn. induction l as [|o l IH]; intros Hl Hd; [simpl; lia|].
  apply Forall_cons in Hl as [Ho Hl]. destruct Hd as [Hu Hd]. simpl. rewrite length_app.
  specialize (IH Hl Hd). destruct (cut_out_pieces new o Hn Ho) as (_ & _ & Hlen).
  destruct (decide (cmp_pmem_st o new = 0)) as [Hc|Hc].
  - destruct (Hlen Hc) as [?|Hw]; [lia|].
    rewrite (cut_out_outside new l); [|done..|].
    + unfold cut_out. repeat ztest; simpl; lia.
    + eapply Forall_impl; [exact Hu|]. intros z. unfold outside, within in *. destruct Hn. lia.
  - unfold cut_out at 1. destruct (Z.eqb_spec (cmp_pmem_st o new) 0); [done|]. simpl. lia.
Qed.

(** One entry is split; the callback does not touch the set. *)
Lemma pc_split_ok w w' s p o new clb :
  st_ok s -> stack s = [] -> region_ok new -> OSetGen_LookupNode s new = Some (p, o) ->
  (forall s1 pre, clb (overwritten new o) pre (pc_at w s1) = Ok tt (pc_at w' s1)) ->
  exists s', pc_split_stores p o new clb (pc_at w s) = Ok tt (pc_at w' s') /\
    st_ok s' /\ stack s' = [] /\ region_ok o /\ cmp_pmem_st o new = 0 /\
    exists rest, elems s ≡ₚ o :: rest /\ elems s' ≡ₚ cut_out new o ++ rest.
Proof.
  intros Hok Hst Hn Hl Hclb.
  destruct (st_lookup s new p o Hok Hn Hl) as (dn & rem & Hns & Ho & Hov & Hel).
  assert (cmp_pmem_st o new = 0) as Hc by (apply cmp_overlap; [done..|]; unfold outside in *; lia).
  destruct (cut_out_pieces new o Hn Ho) as (Hp & _ & _).
  assert (forall f, within (f o) o -> exists s', s' = OSetGen_Update s p f /\ st_ok s' /\ stack s' = [] /\
    nodes s' = dn ++ (p, f o) :: rem) as Hupd.
  { intros f Hw. destruct (st_update s dn p o rem f Hok Hns Hw). eexists. split; [done|].
    split; [done|]. split; [|done]. simpl. by rewrite Hst. }
  assert (forall s' x, nodes s' = dn ++ (p, x) :: rem -> elems s' ≡ₚ x :: dn.*2 ++ rem.*2) as Hel1.
  { intros s' x Hn'. unfold elems. rewrite Hn', fmap_app, fmap_cons. by rewrite Permutation_middle. }
  unfold pc_split_stores. unfold cut_out in *. unfold overwritten in Hclb. rewrite Hc in *. simpl in Hp |- *.
  rewrite !max_addr_ok in * by done.
  destruct (Z.leb_spec (addr new) (addr o)), (Z.leb_spec (addr o + size o) (addr new + size new)),
    (Z.ltb_spec (addr o) (addr new)), (Z.ltb_spec (addr new + size new) (addr o + size o)); try lia; simpl in *.
  - destruct (st_remove s o p o dn rem Hok (st_lookup_self s p o dn rem Hok Hns) Hns)
      as (s' & Hr & Hok' & Hns' & _ & Hst').
    rewrite (bind_ok _ _ _ _ _ (pc_remove_ok w s s' o _ Hr)), Hclb. exists s'. repeat (split; [done|]).
    exists (dn.*2 ++ rem.*2). split; [done|]. unfold elems. by rewrite Hns', fmap_app.
  - rewrite (bind_ok _ _ _ _ _ (Hclb s false)). apply Forall_cons in Hp as [[Hw _] _].
    destruct (Hupd _ Hw) as (s' & -> & Hok' & Hst' & Hns'). eexists. split; [reflexivity|].
    repeat (split; [done|]). exists (dn.*2 ++ rem.*2). split; [done|]. by apply Hel1.
  - rewrite (bind_ok _ _ _ _ _ (Hclb s false)). apply Forall_cons in Hp as [[Hw _] _].
    destruct (Hupd _ Hw) as (s' & -> & Hok' & Hst' & Hns'). eexists. split; [reflexivity|].
    repeat (split; [done|]). exists (dn.*2 ++ rem.*2). split; [done|]. by apply Hel1.
  - apply Forall_cons in Hp as [[Hw _] [[Hw2 [Ho2 _]] _]%Forall_cons].
    destruct (Hupd _ Hw) as (s1 & Es1 & Hok1 & Hst1 & Hns1).
    rewrite (bind_ok _ _ _ _ _ (pc_assign_ok w s p _)), <-Es1.
    destruct (st_insert s1 (keep_back (addr o + size o) (addr new + size new) o)) as (s2 & Hi & Hok2 & Hel2 & Hst2);
      [done|by apply (within_ok _ o)| |].
    + rewrite (Hel1 _ _ Hns1). constructor.
      * right. simpl. destruct Ho as (? & ? & ?), Hn as (? & ? & ?). word_solve.
      * apply Forall_forall. intros z Hz. pose proof (st_disjoint s Hok) as Hd. rewrite Hel in Hd.
        destruct Hd as [Hd _]. rewrite Forall_forall in Hd. specialize (Hd z Hz).
        unfold outside, within in *. lia.
    + rewrite (bind_ok _ _ _ _ _ (pc_insert_ok w s1 s2 _ Hi)), Hclb. exists s2. repeat (split; [done|]).
      exists (dn.*2 ++ rem.*2). split; [done|]. rewrite Hel2, (Hel1 _ _ Hns1). apply Permutation_swap.
Qed.

(** * The loops over the overlapping entries *)

Lemma overlaps_cut new o rest l l' :
  region_ok new -> region_ok o -> cmp_pmem_st o new = 0 ->
  l ≡ₚ o :: rest -> l' ≡ₚ cut_out new o ++ rest ->
  overlaps new l = S (overlaps new l') /\
  flat_map (cut_out new) l' ≡ₚ flat_map (cut_out new) l.
Proof.
  intros Hn Ho Hc Hl Hl'. destruct (cut_out_pieces new o Hn Ho) as (Hp & _ & _).
  assert (Forall region_ok (cut_out new o)) as Hr
    by (eapply Forall_impl; [exact Hp|]; intros x (? & _); by apply (within_ok _ o)).
  assert (Forall (fun x => outside x new) (cut_out new o)) as Hu
    by (eapply Forall_impl; [exact Hp|]; by intros x (_ & ? & _)).
  split.
  - rewrite (overlaps_perm new _ _ Hl), (overlaps_perm new _ _ Hl'), overlaps_yes, overlaps_app by done.
    by rewrite (overlaps_no new (cut_out new o)).
  - rewrite Hl, Hl', flat_map_app. simpl. f_equiv. rewrite cut_out_outside; [done|done|done|].
    eapply Forall_impl; [exact Hu|]. intros x. apply outside_sym.
Qed.

(** The loop ends: every round lowers the number of entries that overlap. *)
Lemma pc_split_overlapping_ok fuel w new : forall s,
  st_ok s -> stack s = [] -> region_ok new -> (overlaps new (elems s) < fuel)%nat ->
  exists s', pc_split_overlapping fuel new (pc_at w s) = Ok tt (pc_at w s') /\ st_ok s' /\
    stack s' = [] /\ Forall (outside new) (elems s') /\
    elems s' ≡ₚ flat_map (cut_out new) (elems s).
Proof.
  induction fuel as [|fuel IH]; intros s Hok Hst Hn Hf; [lia|]. cbn [pc_split_overlapping]. step. simpl.
  destruct (OSetGen_LookupNode s new) as [[p o]|] eqn:El.
  - destruct (pc_split_ok w w s p o new pc_free_clb)
      as (s1 & Heq & Hok1 & Hst1 & Ho & Hc & rest & Hel & Hel1); [done..|].
    rewrite (bind_ok _ _ _ _ _ Heq).
    destruct (overlaps_cut new o rest _ _ Hn Ho Hc Hel Hel1) as [Hlt Hp].
    destruct (IH s1 Hok1 Hst1 Hn) as (s' & Heq' & ? & ? & ? & Hel'); [lia|].
    exists s'. repeat (split; [done|]). by rewrite Hel', Hp.
  - exists s. pose proof (st_lookup_none s new Hok Hn El) as Hu.
    repeat (split; [done|]). by rewrite cut_out_outside by (done || apply (ok_elems _ _ _ Hok)).
Qed.

Definition with_multiple (evs : list pmem_st) w : pc_world :=
  pc_set_pmem (pc_set_multiple evs (pc_pmem w)) w.

(** The entries whose overwriting is reported. *)
Definition reported (indiff : Z) new l : list pmem_st :=
  filter (fun o => cmp_pmem_st o new = 0 /\ same_store indiff new o = false) l.

Lemma add_warning_fits {A} (evs : list A) (x : A) limit :
  Z.of_nat (length evs) < limit -> add_warning_event evs x limit = Some (evs ++ [x]).
Proof. intros H. unfold add_warning_event. by rewrite (proj2 (Z.eqb_neq _ _)) by lia. Qed.

(** A store that repeats another one covers the same bytes. *)
Lemma same_store_cut indiff new o :
  region_ok new -> cmp_pmem_st o new = 0 -> same_store indiff new o = true -> cut_out new o = [].
Proof.
  intros Hn Hc Hs. unfold same_store in Hs.
  rewrite !andb_true_iff, !Z.eqb_eq in Hs. destruct Hs as [[[_ Ha] Hz] _].
  unfold cut_out. rewrite Hc. simpl. unfold max_addr. rewrite Ha, Hz. by rewrite !Z.ltb_irrefl.
Qed.

Lemma reported_length indiff new l : (length (reported indiff new l) <= length l)%nat.
Proof. apply length_filter. Qed.

Lemma reported_perm indiff new l l' : l ≡ₚ l' -> reported indiff new l ≡ₚ reported indiff new l'.
Proof. intros Hp. unfold reported. by rewrite Hp. Qed.

Lemma reported_out indiff new l :
  region_ok new -> Forall region_ok l -> Forall (outside new) l -> reported indiff new l = [].
Proof.
  intros Hn Hl Ho. unfold reported. induction l as [|x l IH]; [done|].
  apply Forall_cons in Hl as [Hx Hl], Ho as [Hu Ho]. rewrite filter_cons_False; [by apply IH|].
  intros [Hc _]. apply cmp_overlap in Hc; [|done..]. by apply outside_sym in Hu.
Qed.

Lemma reported_cut indiff new o rest :
  region_ok new -> region_ok o ->
  reported indiff new (cut_out new o ++ rest) ≡ₚ
    (if decide (cmp_pmem_st o new = 0) then [] else reported indiff new [o]) ++ reported indiff new rest.
Proof.
  intros Hn Ho. unfold reported at 1. rewrite filter_app. apply Permutation_app_tail.
  destruct (decide (cmp_pmem_st o new = 0)) as [Hc|Hc].
  - destruct (cut_out_pieces new o Hn Ho) as (Hp & _ & _).
    fold (reported indiff new (cut_out new o)). rewrite reported_out; [done|done|..].
    + eapply Forall_impl; [exact Hp|]. intros x (? & _). by apply (within_ok _ o).
    + eapply Forall_impl; [exact Hp|]. intros x (_ & ? & _). by apply outside_sym.
  - unfold cut_out. by rewrite (proj2 (Z.eqb_neq _ _) Hc).
Qed.

(** One round of the loop of [handle_with_mult_stores]. *)
Lemma pc_mult_step w s p o new evs :
  let indiff := store_sb_indiff (pc_opts (pc_pmem w)) in
  let evs' := if same_store indiff new o then evs else evs ++ [overwritten new o] in
  st_ok s -> stack s = [] -> region_ok new -> OSetGen_LookupNode s new = Some (p, o) ->
  Z.of_nat (length evs') <= MAX_MULT_OVERWRITES ->
  exists s' rest,
    (if same_store indiff new o then _ <- pc_remove new ;; retM tt
     else pc_split_stores p o new pc_add_mult_overwrite_warn) (pc_at (with_multiple evs w) s) =
      Ok tt (pc_at (with_multiple evs' w) s') /\ st_ok s' /\ stack s' = [] /\ region_ok o /\
    cmp_pmem_st o new = 0 /\ elems s ≡ₚ o :: rest /\ elems s' ≡ₚ cut_out new o ++ rest.
Proof.
  intros indiff evs' Hok Hst Hn Hl Hfit.
  destruct (st_lookup s new p o Hok Hn Hl) as (dn & rem & Hns & Ho & Hov & Hel).
  assert (cmp_pmem_st o new = 0) as Hc by (apply cmp_overlap; [done..|]; unfold outside in *; lia).
  unfold evs' in *. destruct (same_store indiff new o) eqn:Es.
  - destruct (st_remove s new p o dn rem Hok Hl Hns) as (s' & Hr & Hok' & Hns' & _ & Hst').
    rewrite (bind_ok _ _ _ _ _ (pc_remove_ok _ s s' new _ Hr)). exists s', (dn.*2 ++ rem.*2).
    repeat (split; [done|]). rewrite (same_store_cut indiff) by done. unfold elems.
    by rewrite Hns', fmap_app.
  - destruct (pc_split_ok (with_multiple evs w) (with_multiple (evs ++ [overwritten new o]) w)
      s p o new pc_add_mult_overwrite_warn) as (s' & Heq & Hok' & Hst' & _ & _ & rest & H1 & H2); [done..| |].
    + intros s1 pre. unfold pc_add_mult_overwrite_warn. step. simpl.
      rewrite add_warning_fits; [done|]. rewrite length_app in Hfit. simpl in Hfit. lia.
    + exists s', rest. done.
Qed.

(** The same loop with the check for multiple overwrites: every overwritten part
    is reported, unless the store repeats the one before. *)
Lemma pc_mult_overlapping_ok fuel w new : forall s evs,
  let indiff := store_sb_indiff (pc_opts (pc_pmem w)) in
  st_ok s -> stack s = [] -> region_ok new -> (overlaps new (elems s) < fuel)%nat ->
  Z.of_nat (length evs + length (reported indiff new (elems s))) <= MAX_MULT_OVERWRITES ->
  exists s' evs', pc_mult_overlapping fuel new (pc_at (with_multiple evs w) s) =
      Ok tt (pc_at (with_multiple (evs ++ evs') w) s') /\ st_ok s' /\
    stack s' = [] /\ Forall (outside new) (elems s') /\
    elems s' ≡ₚ flat_map (cut_out new) (elems s) /\
    evs' ≡ₚ overwritten new <$> reported indiff new (elems s).
Proof.
  induction fuel as [|fuel IH]; intros s evs indiff Hok Hst Hn Hf Hfit; [lia|].
  cbn [pc_mult_overlapping]. step. simpl. destruct (OSetGen_LookupNode s new) as [[p o]|] eqn:El.
  - destruct (pc_mult_step w s p o new evs) as (s1 & rest & Heq & Hok1 & Hst1 & Ho & Hc & Hel & Hel1); try done.
    { fold indiff. destruct (st_lookup s new p o Hok Hn El) as (dn & rem & _ & Ho & Hov & Hel).
      rewrite (reported_perm _ _ _ _ Hel) in Hfit. unfold reported in Hfit.
      destruct (same_store indiff new o) eqn:Es; [lia|]. rewrite filter_cons_True in Hfit.
      - rewrite length_app. simpl in *. lia.
      - split; [|done]. apply cmp_overlap; [done..|]. unfold outside in *. lia. }
    fold indiff in Heq. step. change (store_sb_indiff _) with indiff. rewrite (bind_ok _ _ _ _ _ Heq).
    destruct (overlaps_cut new o rest _ _ Hn Ho Hc Hel Hel1) as [Hlt Hp].
    assert (reported indiff new (elems s1) ≡ₚ reported indiff new rest) as Hrep.
    { rewrite (reported_perm _ _ _ _ Hel1), reported_cut by done. by rewrite decide_True. }
    assert (reported indiff new (elems s) ≡ₚ
      (if same_store indiff new o then [] else [o]) ++ reported indiff new rest) as Hrep0.
    { rewrite (reported_perm _ _ _ _ Hel). unfold reported. destruct (same_store indiff new o) eqn:Es.
      - by rewrite filter_cons_False by (rewrite Es; naive_solver).
      - by rewrite filter_cons_True. }
    destruct (IH s1 (if same_store indiff new o then evs else evs ++ [overwritten new o]))
      as (s' & evs' & Heq' & ? & ? & ? & Hel' & Hevs); [done|done|done|lia| |].
    { fold indiff. rewrite Hrep. rewrite Hrep0 in Hfit.
      destruct (same_store indiff new o); rewrite ?length_app in *; simpl in *; lia. }
    exists s'. fold indiff in Hevs. rewrite Hrep in Hevs.
    exists ((if same_store indiff new o then [] else [overwritten new o]) ++ evs').
    split; [|split; [done|split; [done|split; [done|split; [by rewrite Hel', Hp|]]]]].
    + rewrite Heq'. by destruct (same_store indiff new o); rewrite <-?app_assoc.
    + rewrite Hevs, Hrep0, fmap_app. by destruct (same_store indiff new o).
  - exists s, []. pose proof (st_lookup_none s new Hok Hn El) as Hu. rewrite app_nil_r.
    repeat (split; [done|]). pose proof (ok_elems _ _ _ Hok).
    by rewrite cut_out_outside, reported_out.
Qed.

(** * Merging with the neighbours *)

(** What the tool relies on of the core: a recorded context has a stack trace
    with at least one address. *)
Class CoreLaws `{CoreEnv} : Prop := {
  trace_nonempty c : stack_trace c <> [];
}.

(** The entries of a set the tool maintains are dirty or flushed. *)
Definition live l : Prop := Forall (fun e => state e <> STST_CLEAN) l.

#[export] Instance live_proper : Proper (Permutation ==> iff) live.
Proof. intros l1 l2 Hp. unfold live. by rewrite Hp. Qed.

Lemma live_cut new l :
  region_ok new -> Forall region_ok l -> live l -> live (flat_map (cut_out new) l).
Proof.
  unfold live. intros Hn Hl Hs. rewrite Forall_forall in *. intros x Hx%list_elem_of_In%in_flat_map.
  destruct Hx as (o & Ho%list_elem_of_In & Hx%list_elem_of_In).
  destruct (cut_out_pieces new o Hn (Hl o Ho)) as (Hp & _). rewrite Forall_forall in Hp.
  destruct (Hp x Hx) as (_ & _ & ->). by apply Hs.
Qed.

Section Merge.
Context `{CoreEnv} `{!CoreLaws}.

(** The comparison of contexts never fails its assertion. *)
Lemma mergeable_total x y : exists b, is_store_mergeable x y = Some b /\ (b = true -> state x = state y).
Proof.
  unfold is_store_mergeable. destruct (bool_decide (state x = state y)) eqn:E; [|by exists false].
  apply bool_decide_eq_true in E. unfold cmp_exe_context.
  destruct (context x) as [c1|], (context y) as [c2|]; try by exists false.
  destruct (c1 =? c2); [by exists true|].
  destruct (stack_trace c1) as [|i1 t1] eqn:E1; [by destruct (trace_nonempty c1)|].
  destruct (stack_trace c2) as [|i2 t2] eqn:E2; [by destruct (trace_nonempty c2)|].
  destruct (negb _); [by exists false|]. destruct (_ || _); by eexists.
Qed.

Lemma merge_stores_covers x y b :
  region_ok x -> region_ok y -> touch x y ->
  region_ok (merge_stores x y) /\ state (merge_stores x y) = state x /\
  addr (merge_stores x y) = Z.min (addr x) (addr y) /\
  addr (merge_stores x y) + size (merge_stores x y) = Z.max (addr x + size x) (addr y + size y) /\
  covers_byte (merge_stores x y) b = covers_byte x b || covers_byte y b.
Proof.
  intros Hx Hy Ht. unfold merge_stores, covers_byte, region_ok in *. rewrite !max_addr_ok by done.
  destruct Hx as (? & ? & ?), Hy as (? & ? & ?), Ht as (? & ?). simpl. word_solve.
  split; [lia|]. split; [done|]. split; [done|]. split; [lia|]. repeat (ztest; simpl); lia.
Qed.

(** One neighbour: the bytes of the region and of the set together keep their
    states. *)
Lemma pc_merge_ok w s r search :
  st_ok s -> stack s = [] -> region_ok r -> region_ok search -> Forall (outside r) (elems s) ->
  (forall o, o ∈ elems s -> ~ outside search o -> touch r o) ->
  exists s' r', pc_merge_neighbour r search (pc_at w s) = Ok r' (pc_at w s') /\ st_ok s' /\
    stack s' = [] /\ region_ok r' /\ state r' = state r /\ Forall (outside r') (elems s') /\
    (forall o, o ∈ elems s' -> o ∈ elems s) /\ (length (elems s') <= length (elems s))%nat /\
    (forall b, byte_state (r' :: elems s') b = byte_state (r :: elems s) b) /\
    (r' = r \/ exists o, o ∈ elems s /\ ~ outside search o /\ r' = merge_stores r o).
Proof.
  intros Hok Hst Hr Hs Hu Ht. unfold pc_merge_neighbour. step. simpl.
  assert (forall b, byte_state (r :: elems s) b = byte_state (r :: elems s) b) as Hsame by done.
  destruct (OSetGen_LookupNode s search) as [[p o]|] eqn:El.
  2:{ exists s, r. repeat (split; [done || lia|]). by left. }
  destruct (mergeable_total r o) as (m & -> & Hm). step.
  destruct m; [|exists s, r; repeat (split; [done || lia|]); by left].
  destruct (st_lookup s search p o Hok Hs El) as (dn & rem & Hns & Ho & Hov & Hel).
  destruct (st_remove s search p o dn rem Hok El Hns) as (s' & Hrm & Hok' & Hns' & _ & Hst').
  rewrite (bind_ok _ _ _ _ _ (pc_remove_ok w s s' search _ Hrm)).
  assert (elems s ≡ₚ o :: elems s') as Hel' by (unfold elems at 2; by rewrite Hel, Hns', fmap_app).
  assert (o ∈ elems s) as Hin by (rewrite Hel'; by left).
  pose proof (Ht o Hin Hov) as Htouch.
  exists s', (merge_stores r o). split; [done|]. split; [done|]. split; [done|].
  destruct (merge_stores_covers r o 0 Hr Ho Htouch) as (Hmr & Hms & Hma & Hme & _).
  split; [done|]. split; [done|].
  pose proof (st_disjoint s Hok) as Hd. rewrite Hel' in Hd. destruct Hd as [Hd _].
  split; [|split; [|split; [|split]]].
  - rewrite Forall_forall in *. intros z Hz.
    assert (outside r z) as Hrz by (apply Hu; rewrite Hel'; by right).
    specialize (Hd z Hz). pose proof (st_region s' z Hok' Hz) as (_ & ? & _).
    unfold touch, outside in *. destruct Hr as (_ & ? & _), Ho as (_ & ? & _). lia.
  - intros z Hz. rewrite Hel'. by right.
  - rewrite Hel'. simpl. lia.
  - intros b. cbn [byte_state]. rewrite (byte_state_perm _ _ b (st_disjoint s Hok) Hel'). simpl.
    destruct (merge_stores_covers r o b Hr Ho Htouch) as (_ & _ & _ & _ & ->).
    destruct (covers_byte r b); [done|]. simpl. by rewrite (Hm eq_refl).
  - right. by exists o.
Qed.

(** The entry that ends where the region begins is found by the first search, and merged if the two
    are merge'able. *)
Lemma pc_merge_front w s r o :
  st_ok s -> region_ok r -> 1 <= addr r -> Forall (outside r) (elems s) ->
  o ∈ elems s -> addr o + size o = addr r -> is_store_mergeable r o = Some true ->
  exists w', pc_merge_neighbour r (set_addr (addr r - 1) r) (pc_at w s) = Ok (merge_stores r o) w'.
Proof.
  intros Hok Hr Ha Hu Ho Hadj Hm. unfold pc_merge_neighbour. step. simpl.
  assert (region_ok (set_addr (addr r - 1) r)) as Hs by (unfold region_ok in *; simpl; lia).
  pose proof (st_region s o Hok Ho) as (O1 & O2 & O3). destruct Hr as (R1 & R2 & R3).
  destruct (OSetGen_LookupNode s (set_addr (addr r - 1) r)) as [[p x]|] eqn:El.
  - destruct (st_lookup s _ p x Hok Hs El) as (dn & rem & Hns & Hx & Hov & Hel).
    assert (x = o) as ->.
    { rewrite Forall_forall in Hu. assert (x ∈ elems s) as Hin by (rewrite Hel; by left). specialize (Hu x Hin).
      rewrite Hel in Ho. apply elem_of_cons in Ho as [->|Ho]; [done|].
      pose proof (st_disjoint s Hok) as Hd. rewrite Hel in Hd. destruct Hd as [Hd _].
      rewrite Forall_forall in Hd. specialize (Hd o Ho). destruct Hx as (? & ? & ?). unfold outside in *. simpl in *. lia. }
    rewrite Hm. step. destruct (st_remove s _ p o dn rem Hok El Hns) as (s' & Hrm & _).
    rewrite (bind_ok _ _ _ _ _ (pc_remove_ok w s s' _ _ Hrm)). by eexists.
  - pose proof (st_lookup_none s _ Hok Hs El) as Hn. rewrite Forall_forall in Hn. specialize (Hn o Ho).
    unfold outside in Hn. simpl in Hn. lia.
Qed.

(** A store enters the set: its bytes get its state, the others keep theirs. *)
Lemma pc_add_and_merge_ok w s new :
  st_ok s -> stack s = [] -> region_ok new -> 1 <= addr new -> addr new + size new + 1 < word_size ->
  exists s' r', pc_add_and_merge_store new (pc_at w s) = Ok r' (pc_at w s') /\ st_ok s' /\
    stack s' = [] /\ (length (elems s') <= length (elems s) + 2)%nat /\
    (live (elems s) -> state new <> STST_CLEAN -> live (elems s')) /\
    (region_ok r' /\ r' ∈ elems s' /\ addr r' <= addr new /\ addr new + size new <= addr r' + size r' /\
     forall o, o ∈ elems s -> addr o + size o = addr new -> is_store_mergeable new o = Some true -> addr r' <= addr o) /\
    forall b, byte_state (elems s') b = if covers_byte new b then state new else byte_state (elems s) b.
Proof.
  intros Hok Hst Hn Ha Hz. unfold pc_add_and_merge_store. step.
  pose proof (ok_elems _ _ _ Hok) as Hall. pose proof (st_disjoint s Hok) as Hdis.
  destruct (pc_split_overlapping_ok (S (tree_size (root s))) w new s Hok Hst Hn)
    as (s1 & Heq1 & Hok1 & Hst1 & Hu1 & Hel1).
  { rewrite st_tree_size by done. pose proof (overlaps_le new (elems s)). lia. }
  simpl (pc_pmem_stores _). rewrite (bind_ok _ _ _ _ _ Heq1).
  assert (wsub (addr new) 1 = addr new - 1) as E1 by (destruct Hn; word_solve).
  cbv zeta. simpl (addr (set_addr _ _)). rewrite E1.
  assert (wadd (addr new - 1) 2 = addr new + 1) as -> by (destruct Hn; word_solve).
  destruct (pc_merge_ok w s1 new (set_addr (addr new - 1) new))
    as (s2 & r2 & Heq2 & Hok2 & Hst2 & Hr2 & Hs2 & Hu2 & Hsub2 & Hlen2 & Hb2 & Hcase); try done.
  { unfold region_ok in *. simpl. lia. }
  { intros o Ho. rewrite Forall_forall in Hu1. specialize (Hu1 o Ho).
    unfold outside, touch in *. simpl. destruct Hn as (_ & ? & _). lia. }
  rewrite (bind_ok _ _ _ _ _ Heq2).
  assert (addr r2 <= addr new /\ addr r2 + size r2 = addr new + size new) as [Hlo Hhi].
  { destruct Hcase as [->|(o & Ho & Hov & ->)]; [lia|].
    rewrite Forall_forall in Hu1. specialize (Hu1 o Ho). pose proof (st_region s1 o Hok1 Ho) as Hor.
    destruct (merge_stores_covers new o 0 Hn Hor) as (_ & _ & -> & -> & _);
      unfold outside, touch, region_ok in *; simpl in *; lia. }
  destruct (pc_merge_ok w s2 r2 (set_addr (addr new + 1) (set_addr (addr new - 1) new)))
    as (s3 & r3 & Heq3 & Hok3 & Hst3 & Hr3 & Hs3 & Hu3 & Hsub3 & Hlen3 & Hb3 & Hcase3); try done.
  { unfold region_ok in *. simpl. lia. }
  { intros o Ho. rewrite Forall_forall in Hu2. specialize (Hu2 o Ho).
    unfold outside, touch in *. simpl. destruct Hn as (_ & ? & _). lia. }
  rewrite (bind_ok _ _ _ _ _ Heq3).
  destruct (st_insert s3 r3 Hok3 Hr3 Hu3) as (s4 & Hi & Hok4 & Hel4 & Hst4).
  rewrite (bind_ok _ _ _ _ _ (pc_insert_ok w s3 s4 r3 Hi)).
  assert (addr r3 <= addr r2 /\ addr r2 + size r2 <= addr r3 + size r3) as [Hlo3 Hhi3].
  { destruct Hcase3 as [->|(o & Ho & Hov & ->)]; [lia|].
    rewrite Forall_forall in Hu2. specialize (Hu2 o Ho). pose proof (st_region s2 o Hok2 Ho) as Hor.
    destruct (merge_stores_covers r2 o 0 Hr2 Hor) as (_ & _ & -> & -> & _);
      unfold outside, touch, region_ok in *; simpl in *; lia. }
  exists s4, r3. split; [done|]. split; [done|]. split; [done|]. split; [|split; [|split]].
  - rewrite Hel4. simpl. pose proof (cut_out_length new (elems s) Hn Hall Hdis). rewrite <-Hel1 in *. lia.
  - intros Hlive Hne. rewrite Hel4. constructor; [congruence|].
    pose proof (live_cut new (elems s) Hn Hall Hlive) as Hl1. rewrite <-Hel1 in Hl1.
    unfold live in *. rewrite Forall_forall in *. intros o Ho. by apply Hl1, Hsub2, Hsub3.
  - split; [done|]. split; [rewrite Hel4; by left|]. split; [lia|]. split; [lia|]. intros o Ho Hadj Hm.
    assert (o ∈ elems s1) as Ho1.
    { pose proof (st_region s o Hok Ho) as Hor. rewrite Hel1. apply list_elem_of_In, in_flat_map. exists o.
      split; [by apply list_elem_of_In|]. pose proof (cut_out_outside new [o] Hn) as E. simpl in E. rewrite app_nil_r in E.
      rewrite E; [by left|by constructor|]. constructor; [unfold outside; lia|done]. }
    destruct (pc_merge_front w s1 new o Hok1 Hn Ha Hu1 Ho1 Hadj Hm) as (w' & E). rewrite E in Heq2. injection Heq2 as E2 _.
    assert (addr r2 <= addr o) as Hr2o by (rewrite <-E2; unfold merge_stores; simpl; lia). lia.
  - intros b. pose proof (st_disjoint s4 Hok4) as Hd4.
    rewrite (byte_state_perm _ _ b Hd4 Hel4), Hb3, Hb2. cbn [byte_state].
    rewrite (byte_state_perm _ _ b (st_disjoint s1 Hok1) Hel1), cut_out_state by done.
    by destruct (covers_byte new b).
Qed.
End Merge.
