(* ===== verification/PmcFlushSpec.v ===== *)
(** What pmemcheck's fences and flushes do to its set: a fence drops the flushed
    entries, a flush cuts the dirty entries it hits and marks what it covers. *)
From S2P Require Import Prelude OSet OSetTree OSetSpec Region RegionSpec StoreSet Core Trans Pmem Store Flush PmcTx PmcMain PmcStoreSpec.
Local Open Scope pm_scope.

Implicit Types (s : region_set) (e o x y fl : pmem_st) (l : list pmem_st) (w : pc_world).

(** * Iterating *)

Abbreviation st_next := (view_next cmp_pmem_st region_ok).

(** The start of a loop. *)
Lemma pc_reset_ok w s :
  st_ok s -> card s < iter_limit ->
  exists s', pc_reset (pc_at w s) = Ok tt (pc_at w s') /\ st_view s' (nodes s) (nodes s) /\
    root s' = root s.
Proof.
  intros Hok Hlim. destruct (view_reset cmp_pmem_st region_ok s Hok Hlim) as (s' & Heq & Hv & Hr).
  exists s'. split; [|done]. unfold pc_reset. step. simpl. by rewrite Heq.
Qed.

(** The end of a loop: the iterator is used up. *)
Lemma view_end s ns s' :
  st_view s ns [] -> OSetGen_Next s = Some (None, s') -> stack s' = [].
Proof.
  intros [_ _ _ Hf] Hn. destruct (Next_ok s Hf) as (x & st & Heq & _ & Hx).
  rewrite Hn in Heq. simplify_eq. by destruct Hx as [_ ->].
Qed.

Lemma Next_used_up s : stack s = [] -> OSetGen_Next s = Some (None, s).
Proof. intros Hst. destruct s. simpl in Hst. by subst. Qed.

Lemma pc_next_used_up w : stack (pc_pmem_stores (pc_pmem w)) = [] -> pc_next w = Ok None w.
Proof.
  intros Hst. rewrite <-(pc_at_self w) at 1. rewrite (pc_next_ok w _ _ _ (Next_used_up _ Hst)).
  by rewrite pc_at_self.
Qed.

(** * Fences *)

Definition unflushed (e : pmem_st) : bool := negb (bool_decide (state e = STST_FLUSHED)).

Lemma pc_fence_loop_ok rem : forall fuel w s dn,
  st_view s (dn ++ rem) rem -> card s < iter_limit -> (length rem < fuel)%nat ->
  exists s', while_next fuel pc_next pc_fence_node (pc_at w s) = Ok tt (pc_at w s') /\ st_ok s' /\
    stack s' = [] /\ elems s' = dn.*2 ++ List.filter unflushed rem.*2.
Proof.
  induction rem as [|[i e] rem IH]; intros fuel w s dn Hv Hlim Hf; (destruct fuel as [|fuel]; [simpl in Hf; lia|]);
    unfold while_next; cbn [fold_next]; destruct (st_next s _ _ Hv) as (s1 & Hn1 & Hv1);
    rewrite (bind_ok _ _ _ _ _ (pc_next_ok w s s1 _ Hn1)); cbn [head tail] in *.
  - exists s1. split; [done|]. pose proof Hv1 as [Hok1 Hns1 _ _]. split; [done|].
    split; [by apply (view_end s (dn ++ []))|]. unfold elems. by rewrite Hns1, fmap_app.
  - pose proof Hv1 as [Hok1 Hns1 _ _]. rewrite fmap_cons. simpl.
    assert (card s1 = card s) as Hsz.
    { destruct Hv as [Hok Hns _ _]. rewrite (wf_card _ (ok_wf _ _ _ Hok1)), (wf_card _ (ok_wf _ _ _ Hok)).
      by rewrite Hns, Hns1. }
    unfold pc_fence_node at 1. unfold unflushed. cbn [snd].
    destruct (bool_decide (state e = STST_FLUSHED)) eqn:Es; cbn [whenM negb].
    + destruct (view_remove cmp_pmem_st region_ok region_ok s1 dn i e rem Hok1 ltac:(lia) Hns1)
        as (s2 & s3 & Hr & Hra & Hv3 & Hsz3). simpl in Hr, Hra.
      destruct (IH fuel w s3 dn Hv3) as (s' & Heq & ?); [lia|simpl in Hf; lia|].
      exists s'. split; [|done]. unfold while_next in Heq.
      erewrite bind_ok; [exact Heq|]. by rewrite (bind_ok _ _ _ _ _ (pc_remove_ok w s1 s2 e _ Hr)), (pc_reset_at_ok w s2 s3 e Hra).
    + rewrite cons_middle, app_assoc in Hv1.
      destruct (IH fuel w s1 (dn ++ [(i, e)]) Hv1) as (s' & Heq & ? & ? & Hel); [lia|simpl in Hf; lia|].
      exists s'. split; [exact Heq|]. split; [done|]. split; [done|].
      rewrite Hel, fmap_app, <-app_assoc. done.
Qed.

Lemma pc_do_fence_ok w s :
  st_ok s -> card s < iter_limit -> log_stores (pc_opts (pc_pmem w)) = false ->
  exists s', pc_do_fence (pc_at w s) = Ok tt (pc_at w s') /\ st_ok s' /\ stack s' = [] /\
    elems s' = List.filter unflushed (elems s).
Proof.
  intros Hok Hlim Hlog. unfold pc_do_fence. step. simpl (log_stores _). rewrite Hlog. step.
  destruct (pc_reset_ok w s Hok Hlim) as (s1 & Heq1 & Hv1 & Hroot).
  rewrite (bind_ok _ _ _ _ _ Heq1). step.
  apply (pc_fence_loop_ok (nodes s) _ w s1 []); [done| |].
  - pose proof Hv1 as [Hok1 Hns1 _ _]. rewrite (st_size s Hok) in Hlim. rewrite (st_size s1 Hok1).
    unfold elems in *. by rewrite Hns1.
  - simpl. rewrite Hroot, st_tree_size by done. unfold elems. rewrite length_fmap. lia.
Qed.

(** In bytes: the flushed ones are clean. *)
Lemma fence_state l b :
  disjoint_stores l ->
  byte_state (List.filter unflushed l) b =
  if bool_decide (byte_state l b = STST_FLUSHED) then STST_CLEAN else byte_state l b.
Proof.
  induction l as [|e l IH]; intros Hd; [done|]. destruct Hd as [He Hd]. specialize (IH Hd). simpl.
  assert (covers_byte e b = true -> byte_state l b = STST_CLEAN) as Hout.
  { intros Hb%covers_byte_spec. apply byte_state_out. intros (x & Hx & Hxb).
    rewrite Forall_forall in He. by apply (outside_covers e x b (He x Hx)). }
  unfold unflushed at 1. destruct (bool_decide (state e = STST_FLUSHED)) eqn:Es; simpl;
    destruct (covers_byte e b) eqn:Eb; rewrite ?IH, ?Hout, ?Es by done; done.
Qed.

(** * Flushes *)

(** The parts of an entry before, from, up to and after the flush. *)
Definition front_part fl b : pmem_st :=
  set_state STST_DIRTY (set_size (wsub (addr fl) (addr b)) b).
Definition rest_part fl b : pmem_st :=
  set_size (wsub (size b) (wsub (addr fl) (addr b))) (set_addr (addr fl) b).
Definition mid_part fl b : pmem_st := set_size (wsub (size b) (wsub (max_addr b) (max_addr fl))) b.
Definition back_part fl b : pmem_st :=
  set_state STST_DIRTY (set_size (wsub (max_addr b) (max_addr fl)) (set_addr (max_addr fl) b)).

Definition hits fl e : bool := cmp_pmem_st fl e =? 0.

Definition is_dirty e : bool := bool_decide (state e = STST_DIRTY).

(** The store after the cut in front. *)
Definition from_flush fl b : pmem_st := if addr b <? addr fl then rest_part fl b else b.

(** What becomes of an entry. *)
Definition flush_pieces fl e : list pmem_st :=
  if hits fl e && is_dirty e then
    let b := set_state STST_FLUSHED e in
    (if addr b <? addr fl then [front_part fl b] else []) ++
    (if max_addr fl <? max_addr (from_flush fl b)
     then [mid_part fl (from_flush fl b); back_part fl (from_flush fl b)]
     else [from_flush fl b])
  else [e].

(** The warnings about redundant flushes: an entry that is not dirty; and one
    that is cut in front only, to which the iterator goes back. *)
Definition flush_warns fl e : list pmem_st :=
  if hits fl e then
    let b := set_state STST_FLUSHED e in
    if negb (is_dirty e) then [e]
    else if (addr b <? addr fl) && negb (max_addr fl <? max_addr (from_flush fl b))
    then [rest_part fl b] else []
  else [].

Lemma flush_warns_length fl l : (length (flat_map (flush_warns fl) l) <= length l)%nat.
Proof.
  induction l as [|e l IH]; [done|]. cbn [flat_map length]. rewrite length_app.
  assert (length (flush_warns fl e) <= 1)%nat; [|lia].
  unfold flush_warns. repeat case_match; simpl; lia.
Qed.

Lemma hits_outside fl e : region_ok fl -> region_ok e -> hits fl e = true <-> ~ outside fl e.
Proof. intros Hf He. unfold hits. rewrite Z.eqb_eq. by apply cmp_overlap. Qed.

(** The parts on the two sides of the beginning of the flush. *)
Lemma front_rest fl b :
  region_ok fl -> region_ok b -> ~ outside fl b -> addr b < addr fl ->
  within (front_part fl b) b /\ within (rest_part fl b) b /\
  addr (front_part fl b) + size (front_part fl b) = addr fl /\
  addr (rest_part fl b) = addr fl /\
  addr (rest_part fl b) + size (rest_part fl b) = addr b + size b.
Proof.
  intros (? & ? & ?) (? & ? & ?) Hu Hlt. unfold front_part, rest_part, within, outside in *.
  simpl. word_solve.
Qed.

(** Those on the two sides of its end. *)
Lemma mid_back fl b :
  region_ok fl -> region_ok b -> ~ outside fl b -> addr fl + size fl < addr b + size b ->
  within (mid_part fl b) b /\ within (back_part fl b) b /\
  addr (mid_part fl b) + size (mid_part fl b) = addr fl + size fl /\
  addr (back_part fl b) = addr fl + size fl /\
  addr (back_part fl b) + size (back_part fl b) = addr b + size b.
Proof.
  intros Hf Hb Hu Hlt. unfold mid_part, back_part. rewrite !max_addr_ok by done.
  destruct Hf as (? & ? & ?), Hb as (? & ? & ?). unfold within, outside in *. simpl. word_solve.
Qed.

Lemma from_flush_ok fl b :
  region_ok fl -> region_ok b -> ~ outside fl b ->
  region_ok (from_flush fl b) /\ ~ outside fl (from_flush fl b) /\
  addr (from_flush fl b) = Z.max (addr fl) (addr b) /\
  addr (from_flush fl b) + size (from_flush fl b) = addr b + size b /\
  state (from_flush fl b) = state b.
Proof.
  intros Hf Hb Hu. unfold from_flush. destruct (Z.ltb_spec (addr b) (addr fl)) as [Hlt|Hge].
  - destruct (front_rest fl b Hf Hb Hu Hlt) as (_ & Hw & _ & Ha & He).
    pose proof (within_ok _ _ Hb Hw) as Hr. split; [done|]. unfold outside, region_ok in *.
    repeat (split; [lia|]). done.
  - split; [done|]. split; [done|]. repeat (split; [lia|]). done.
Qed.

Lemma pieces_nonempty fl e : (1 <= length (flush_pieces fl e))%nat.
Proof.
  unfold flush_pieces. destruct (_ && _); [|simpl; lia]. cbv zeta. rewrite length_app.
  destruct (max_addr fl <? _); simpl; lia.
Qed.

Lemma flush_pieces_live fl e x :
  state e <> STST_CLEAN -> x ∈ flush_pieces fl e -> state x <> STST_CLEAN.
Proof.
  unfold flush_pieces, from_flush. intros He. destruct (_ && _); [|by intros ->%list_elem_of_singleton].
  cbv zeta. rewrite elem_of_app. intros [Hx|Hx].
  - destruct (_ <? _); [by apply list_elem_of_singleton in Hx as ->|by apply elem_of_nil in Hx].
  - destruct (addr _ <? _), (_ <? max_addr _); rewrite ?elem_of_cons, ?elem_of_nil in Hx;
      destruct_or?; by subst.
Qed.

Lemma covers_byte_range x b lo hi :
  addr x = lo -> addr x + size x = hi -> covers_byte x b = (lo <=? b) && (b <? hi).
Proof. intros <- <-. done. Qed.

(** In bytes: what was dirty in the range of the flush is flushed. *)
Lemma flush_piece_state fl e b :
  region_ok fl -> region_ok e ->
  existsb (fun x => covers_byte x b) (flush_pieces fl e) = covers_byte e b /\
  (covers_byte e b = true -> byte_state (flush_pieces fl e) b =
     if covers_byte fl b && is_dirty e then STST_FLUSHED else state e).
Proof.
  intros Hf He. unfold flush_pieces. destruct (hits fl e) eqn:Eh; simpl.
  2:{ rewrite orb_false_r. split; [done|]. intros Hb. rewrite Hb.
      destruct (covers_byte fl b) eqn:Ef; [|done].
      apply not_true_iff_false in Eh. rewrite hits_outside in Eh by done. exfalso. apply Eh.
      apply covers_byte_spec in Hb, Ef. unfold covers, outside in *. lia. }
  destruct (is_dirty e) eqn:Ed.
  2:{ simpl. rewrite orb_false_r, andb_false_r. split; [done|]. by intros ->. }
  apply hits_outside in Eh; [|done..]. apply bool_decide_eq_true in Ed. set (b0 := set_state STST_FLUSHED e).
  destruct (from_flush_ok fl b0 Hf He Eh) as (Hr & Hru & Hra & Hre & Hrs).
  rewrite (max_addr_ok fl Hf), (max_addr_ok _ Hr). pose proof Hf as (_ & ? & _). pose proof He as (_ & ? & _).
  pose proof Eh as Hov. unfold outside in Hov.
  change (addr e) with (addr b0). change (covers_byte e b) with (covers_byte b0 b).
  change (addr b0 + size b0) with (addr e + size e) in *. change (addr b0) with (addr e) in *.
  destruct (Z.ltb_spec (addr e) (addr fl)) as [Hl|Hl];
    destruct (Z.ltb_spec (addr fl + size fl) (addr (from_flush fl b0) + size (from_flush fl b0))) as [Hg|Hg]; simpl;
    rewrite ?(covers_byte_range b0 b (addr e) (addr e + size e) eq_refl eq_refl),
      ?(covers_byte_range fl b _ _ eq_refl eq_refl), ?(covers_byte_range (from_flush fl b0) b _ _ Hra Hre).
  - destruct (front_rest fl b0 Hf He Eh Hl) as (_ & _ & Hfe & _).
    destruct (mid_back fl _ Hf Hr Hru Hg) as (_ & _ & Hme & Hba & Hbe).
    rewrite (covers_byte_range (front_part fl b0) b (addr e) _ eq_refl Hfe),
      (covers_byte_range (mid_part _ _) b _ _ Hra Hme), (covers_byte_range (back_part _ _) b _ _ Hba Hbe).
    rewrite Hrs, Ed, Hre. repeat (ztest; simpl); split; done || lia.
  - destruct (front_rest fl b0 Hf He Eh Hl) as (_ & _ & Hfe & _).
    rewrite (covers_byte_range (front_part fl b0) b (addr e) _ eq_refl Hfe).
    rewrite Hrs, Ed. repeat (ztest; simpl); split; done || lia.
  - destruct (mid_back fl _ Hf Hr Hru Hg) as (_ & _ & Hme & Hba & Hbe).
    rewrite (covers_byte_range (mid_part _ _) b _ _ Hra Hme), (covers_byte_range (back_part _ _) b _ _ Hba Hbe).
    rewrite Hrs, Ed, Hre. repeat (ztest; simpl); split; done || lia.
  - rewrite Hrs, Ed. repeat (ztest; simpl); split; done || lia.
Qed.

Lemma flush_state fl l b :
  region_ok fl -> Forall region_ok l ->
  byte_state (flat_map (flush_pieces fl) l) b =
  if covers_byte fl b && bool_decide (byte_state l b = STST_DIRTY) then STST_FLUSHED
  else byte_state l b.
Proof.
  intros Hf. induction l as [|e l IH]; intros Hl; [by rewrite andb_false_r|].
  apply Forall_cons in Hl as [He Hl]. simpl. rewrite byte_state_app, (IH Hl).
  destruct (flush_piece_state fl e b Hf He) as [-> Hs].
  destruct (covers_byte e b); [|done]. by rewrite Hs.
Qed.

(** ** The loop *)

Definition with_redundant (evs : list pmem_st) w : pc_world :=
  pc_set_pmem (pc_set_redundant evs (pc_pmem w)) w.

(** The warnings are only kept when flushes are checked. *)
Definition warned (w : pc_world) (evs : list pmem_st) : list pmem_st :=
  if check_flush (pc_opts (pc_pmem w)) then evs else [].

Definition flush_run fl (w : pc_world) (fuel : nat) (valid : bool) (evs : list pmem_st) s
    : res pc_world bool :=
  fold_next fuel pc_next valid (pc_flush_node fl) (pc_at (with_redundant evs w) s).

Section Loop.
Context (fl : pmem_st) (Hfl : region_ok fl) (w : pc_world).

(** The next round. *)
Lemma flush_run_next fuel valid evs s ns i e rem :
  st_view s ns ((i, e) :: rem) ->
  exists s', flush_run fl w (S fuel) valid evs s =
      (acc <- pc_flush_node fl valid (i, e) ;; fold_next fuel pc_next acc (pc_flush_node fl))
        (pc_at (with_redundant evs w) s') /\ st_view s' ns rem.
Proof using Type.
  intros Hv. destruct (st_next s _ _ Hv) as (s1 & Hn1 & Hv1). simpl in Hn1, Hv1. exists s1.
  split; [|done]. unfold flush_run. cbn [fold_next].
  by rewrite (bind_ok _ _ _ _ _ (pc_next_ok _ s s1 _ Hn1)).
Qed.

(** An entry the flush does not hit. *)
Lemma visit_out fuel valid evs s dn i e rem :
  st_view s (dn ++ (i, e) :: rem) ((i, e) :: rem) -> hits fl e = false ->
  exists s', flush_run fl w (S fuel) valid evs s = flush_run fl w fuel valid evs s' /\
    st_view s' ((dn ++ [(i, e)]) ++ rem) rem.
Proof using Type.
  intros Hv Hh. destruct (flush_run_next fuel valid evs s _ i e rem Hv) as (s1 & -> & Hv1).
  exists s1. split; [|by rewrite <-app_assoc]. unfold hits in Hh. unfold pc_flush_node at 1. cbn [snd].
  by rewrite Hh.
Qed.

(** An entry that is not dirty. *)
Lemma visit_flushed fuel valid evs s dn i e rem :
  st_view s (dn ++ (i, e) :: rem) ((i, e) :: rem) -> hits fl e = true -> is_dirty e = false ->
  Z.of_nat (length (evs ++ warned w [e])) <= MAX_FLUSH_ERROR_EVENTS ->
  exists s', flush_run fl w (S fuel) valid evs s = flush_run fl w fuel true (evs ++ warned w [e]) s' /\
    st_view s' ((dn ++ [(i, e)]) ++ rem) rem.
Proof using Type.
  intros Hv Hh Hd Hfit. destruct (flush_run_next fuel valid evs s _ i e rem Hv) as (s1 & -> & Hv1).
  exists s1. split; [|by rewrite <-app_assoc]. unfold hits, is_dirty in *.
  unfold pc_flush_node at 1. cbn [snd]. rewrite Hh, Hd. cbn [negb]. unfold warned in *.
  erewrite bind_ok; [reflexivity|]. step. simpl.
  destruct (check_flush (pc_opts (pc_pmem w))); simpl; [|by rewrite app_nil_r].
  unfold pc_add_redundant_flush. erewrite bind_ok; [reflexivity|]. step. simpl.
  rewrite add_warning_fits; [done|]. rewrite length_app in Hfit. simpl in Hfit. lia.
Qed.

(** The cuts of a dirty entry: the two parts replace it, and the iterator is put
    at the second one. *)
Lemma split_before_ok evs s dn i b rem :
  st_view s (dn ++ (i, b) :: rem) rem -> ((addr b <? addr fl) = true -> card s + 1 < iter_limit) ->
  region_ok b -> ~ outside fl b ->
  exists s' dn' j rem', pc_split_before fl b (pc_at (with_redundant evs w) s) =
      Ok (from_flush fl b) (pc_at (with_redundant evs w) s') /\
    st_view s' (dn' ++ (j, from_flush fl b) :: rem) rem' /\
    rem' = (if addr b <? addr fl then (j, from_flush fl b) :: rem else rem) /\
    dn'.*2 = dn.*2 ++ (if addr b <? addr fl then [front_part fl b] else []) /\
    card s' = card s + (if addr b <? addr fl then 1 else 0).
Proof using Hfl.
  intros Hv Hlim Hb Hu. pose proof Hv as [Hok Hns _ _]. unfold pc_split_before, from_flush.
  destruct (Z.ltb_spec (addr b) (addr fl)) as [Hlt|Hge].
  - destruct (front_rest fl b Hfl Hb Hu Hlt) as (Hw1 & Hw2 & He1 & Ha2 & _).
    destruct (st_cut s dn i b rem (front_part fl b) (rest_part fl b) false Hok (Hlim eq_refl) Hns Hw1 Hw2 ltac:(lia))
      as (s1 & s2 & s3 & s4 & jx & jy & Hr & Hi1 & Hi2 & Hra & Hsz & Hv4).
    exists s4, (dn ++ [(jx, front_part fl b)]), jy, ((jy, rest_part fl b) :: rem). split; [|split].
    + cbv zeta. rewrite (bind_ok _ _ _ _ _ (pc_remove_ok _ s s1 b _ Hr)),
        (bind_ok _ _ _ _ _ (pc_insert_ok _ s1 s2 _ Hi1)), (bind_ok _ _ _ _ _ (pc_insert_ok _ s2 s3 _ Hi2)),
        (bind_ok _ _ _ _ _ (pc_reset_at_ok _ s3 s4 _ Hra)). done.
    + by rewrite <-app_assoc.
    + by rewrite fmap_app.
  - exists s, dn, i, rem. rewrite app_nil_r, Z.add_0_r. done.
Qed.

Lemma split_after_ok evs s dn i b rem rem0 :
  st_view s (dn ++ (i, b) :: rem) rem0 -> card s + 1 < iter_limit -> region_ok b -> ~ outside fl b ->
  (max_addr fl <? max_addr b) = true ->
  exists s' dn' j, pc_split_after fl b (pc_at (with_redundant evs w) s) =
      Ok tt (pc_at (with_redundant evs w) s') /\
    st_view s' (dn' ++ (j, back_part fl b) :: rem) ((j, back_part fl b) :: rem) /\
    dn'.*2 = dn.*2 ++ [mid_part fl b].
Proof using Hfl.
  intros [Hok Hns _ _] Hlim Hb Hu Hlt. unfold pc_split_after. rewrite Hlt. cbn [whenM].
  rewrite !max_addr_ok in Hlt by done. apply Z.ltb_lt in Hlt.
  destruct (mid_back fl b Hfl Hb Hu Hlt) as (Hw1 & Hw2 & He1 & Ha2 & _).
  destruct (st_cut s dn i b rem (mid_part fl b) (back_part fl b) true Hok Hlim Hns Hw1 Hw2 ltac:(lia))
    as (s1 & s2 & s3 & s4 & jx & jy & Hr & Hi1 & Hi2 & Hra & Hsz & Hv4).
  exists s4, (dn ++ [(jx, mid_part fl b)]), jy. split; [|split].
  - cbv zeta. rewrite (bind_ok _ _ _ _ _ (pc_remove_ok _ s s1 b _ Hr)),
      (bind_ok _ _ _ _ _ (pc_insert_ok _ s1 s2 _ Hi1)), (bind_ok _ _ _ _ _ (pc_insert_ok _ s2 s3 _ Hi2)).
    by apply pc_reset_at_ok.
  - by rewrite <-app_assoc.
  - by rewrite fmap_app.
Qed.
(** An assignment of the state leaves the place of an entry. *)
Lemma mark_view s dn i e rem st :
  st_view s (dn ++ (i, e) :: rem) rem ->
  st_view (OSetGen_Update s i (set_state st)) (dn ++ (i, set_state st e) :: rem) rem.
Proof using Type.
  intros Hv. apply (view_update cmp_pmem_st region_ok); [done| |done|done].
  destruct Hv as [Hok Hns _ _]. by apply (st_order s dn i e rem Hok).
Qed.

(** A dirty entry is marked and cut: it stays whole; or it is cut in front only,
    and the iterator goes back to it; or the iterator is put at the part behind
    the flush. *)
Lemma cut_dirty evs s dn i e rem valid :
  st_view s (dn ++ (i, e) :: rem) rem -> hits fl e = true -> is_dirty e = true ->
  card s + Z.of_nat (length (flush_pieces fl e)) <= iter_limit ->
  let b := set_state STST_FLUSHED e in
  exists s' dn' j, pc_flush_node fl valid (i, e) (pc_at (with_redundant evs w) s) =
      Ok true (pc_at (with_redundant evs w) s') /\
    ((st_view s' (dn' ++ (j, b) :: rem) rem /\ dn'.*2 ++ [b] = dn.*2 ++ flush_pieces fl e /\
        flush_warns fl e = []) \/
     (st_view s' (dn' ++ (j, rest_part fl b) :: rem) ((j, rest_part fl b) :: rem) /\
        addr b < addr fl /\
        dn'.*2 ++ [rest_part fl b] = dn.*2 ++ flush_pieces fl e /\ flush_warns fl e = [rest_part fl b]) \/
     (exists x, st_view s' (dn' ++ (j, x) :: rem) ((j, x) :: rem) /\ hits fl x = false /\
        dn'.*2 ++ [x] = dn.*2 ++ flush_pieces fl e /\ flush_warns fl e = [])).
Proof using Hfl.
  intros Hv Hh Hd Hlim b. pose proof Hv as [Hok Hns _ _].
  destruct (st_order s dn i e rem Hok Hns) as (He & _).
  assert (region_ok b) as Hb by done. assert (~ outside fl b) as Hu by by apply (hits_outside fl e).
  unfold flush_pieces, flush_warns in *. rewrite Hh, Hd in *. cbn [andb negb] in *. cbv zeta in *. fold b in Hlim |- *.
  rewrite length_app in Hlim. unfold hits, is_dirty in Hh, Hd. unfold pc_flush_node. cbn [fst snd].
  rewrite Hh, Hd. cbn [negb]. rewrite (bind_ok _ _ _ _ _ (pc_assign_ok _ s i _)). fold b.
  destruct (split_before_ok evs (OSetGen_Update s i (set_state STST_FLUSHED)) dn i b rem)
    as (s1 & dn1 & j & rem1 & Heq1 & Hv1 & Hrem & Hdn & Hsz); [by apply mark_view| |done|done|].
  { intros E. rewrite E in Hlim. rewrite Update_card.
    destruct (max_addr fl <? _); cbn [length] in *; lia. }
  rewrite Update_card in Hsz.
  rewrite (bind_ok _ _ _ _ _ Heq1). destruct (from_flush_ok fl b Hfl Hb Hu) as (Hr & Hru & _).
  destruct (max_addr fl <? max_addr (from_flush fl b)) eqn:Ea.
  - destruct (split_after_ok evs s1 dn1 j (from_flush fl b) rem rem1) as (s2 & dn2 & j2 & Heq2 & Hv2 & Hdn2); try done.
    { rewrite Hsz. destruct (addr b <? addr fl); cbn [length] in *; lia. }
    rewrite (bind_ok _ _ _ _ _ Heq2). exists s2, dn2, j2. split; [done|]. right. right.
    exists (back_part fl (from_flush fl b)). split; [done|]. split; [|split].
    + apply not_true_iff_false. rewrite !max_addr_ok in Ea by done. apply Z.ltb_lt in Ea.
      destruct (mid_back fl _ Hfl Hr Hru Ea) as (_ & Hw & _ & Hba & _).
      rewrite hits_outside by (done || by apply (within_ok _ _ Hr)). unfold outside. lia.
    + by rewrite Hdn2, Hdn, <-!app_assoc.
    + by rewrite andb_false_r.
  - unfold pc_split_after. rewrite Ea. exists s1, dn1, j. split; [done|]. unfold from_flush in *.
    rewrite Hrem in Hv1. destruct (Z.ltb_spec (addr b) (addr fl)) as [Hlt|Hge]; [right; left|left].
    + split; [done|]. split; [done|]. by rewrite Hdn, <-app_assoc.
    + split; [done|]. rewrite app_nil_r in Hdn. by rewrite Hdn.
Qed.

(** A dirty entry, with the visit that follows its cut. *)
Lemma visit_dirty fuel valid evs s dn i e rem :
  st_view s (dn ++ (i, e) :: rem) ((i, e) :: rem) -> hits fl e = true -> is_dirty e = true ->
  card s + Z.of_nat (length (flush_pieces fl e)) <= iter_limit ->
  Z.of_nat (length (evs ++ warned w (flush_warns fl e))) <= MAX_FLUSH_ERROR_EVENTS ->
  exists fuel' s' dn', (fuel <= fuel')%nat /\
    flush_run fl w (S (S fuel)) valid evs s =
      flush_run fl w fuel' true (evs ++ warned w (flush_warns fl e)) s' /\
    st_view s' (dn' ++ rem) rem /\ dn'.*2 = dn.*2 ++ flush_pieces fl e.
Proof using Hfl.
  intros Hv Hh Hd Hlim Hfit.
  destruct (flush_run_next (S fuel) valid evs s _ i e rem Hv) as (s1 & -> & Hv1).
  assert (card s1 = card s) as Hsz.
  { destruct Hv as [Hok Hns _ _], Hv1 as [Hok1 Hns1 _ _].
    rewrite (wf_card _ (ok_wf _ _ _ Hok1)), (wf_card _ (ok_wf _ _ _ Hok)). by rewrite Hns, Hns1. }
  rewrite <-Hsz in Hlim. pose proof Hv1 as [Hok1 Hns1 _ _].
  destruct (st_order s1 dn i e rem Hok1 Hns1) as (He & _).
  destruct (cut_dirty evs s1 dn i e rem valid Hv1 Hh Hd Hlim)
    as (s2 & dn2 & j & Heq & [(Hv2 & Hp & Hw)|[(Hv2 & Hlt & Hp & Hw)|(x & Hv2 & Hx & Hp & Hw)]]);
    rewrite (bind_ok _ _ _ _ _ Heq), Hw in *;
    change (fold_next ?n pc_next ?v (pc_flush_node fl) (pc_at (with_redundant evs w) s2))
      with (flush_run fl w n v evs s2).
  - exists (S fuel), s2, (dn2 ++ [(j, set_state STST_FLUSHED e)]). split; [lia|].
    replace (warned w []) with (@nil pmem_st) by (unfold warned; by destruct (check_flush _)).
    rewrite app_nil_r, <-app_assoc, fmap_app. done.
  - assert (~ outside fl (set_state STST_FLUSHED e)) as Hu by by apply (hits_outside fl e).
    destruct (from_flush_ok fl (set_state STST_FLUSHED e) Hfl He Hu) as (Hr & Hru & _ & _ & _).
    unfold from_flush in Hr, Hru. rewrite (proj2 (Z.ltb_lt _ _) Hlt) in Hr, Hru.
    destruct (visit_flushed fuel true evs s2 dn2 j _ rem Hv2) as (s3 & -> & Hv3); [by apply hits_outside|done|done|].
    eexists fuel, s3, _. split; [done|]. split; [done|]. split; [exact Hv3|]. by rewrite fmap_app.
  - destruct (visit_out fuel true evs s2 dn2 j x rem Hv2 Hx) as (s3 & -> & Hv3).
    eexists fuel, s3, _. split; [done|]. split; [|split; [exact Hv3|by rewrite fmap_app]].
    replace (warned w []) with (@nil pmem_st) by (unfold warned; by destruct (check_flush _)).
    by rewrite app_nil_r.
Qed.

Lemma warned_app l1 l2 : warned w (l1 ++ l2) = warned w l1 ++ warned w l2.
Proof using Type. unfold warned. by destruct (check_flush _). Qed.

(** An entry the loop visits, of any kind. *)
Lemma visit_entry fuel valid evs s dn i e rem :
  st_view s (dn ++ (i, e) :: rem) ((i, e) :: rem) ->
  card s + Z.of_nat (length (flush_pieces fl e)) <= iter_limit ->
  Z.of_nat (length (evs ++ warned w (flush_warns fl e))) <= MAX_FLUSH_ERROR_EVENTS ->
  exists fuel' s' dn', (fuel <= fuel')%nat /\
    flush_run fl w (S (S fuel)) valid evs s =
      flush_run fl w fuel' (valid || hits fl e) (evs ++ warned w (flush_warns fl e)) s' /\
    st_view s' (dn' ++ rem) rem /\ dn'.*2 = dn.*2 ++ flush_pieces fl e.
Proof using Hfl.
  intros Hv Hlim Hfit. destruct (hits fl e) eqn:Hh.
  - rewrite orb_true_r. destruct (is_dirty e) eqn:Hd; [by apply (visit_dirty fuel valid evs s dn i e rem)|].
    unfold flush_warns, flush_pieces in *. rewrite Hh, Hd in *. simpl in Hfit |- *.
    destruct (visit_flushed (S fuel) valid evs s dn i e rem) as (s' & -> & Hv'); [done..|].
    eexists (S fuel), s', _. split; [lia|]. split; [done|]. split; [exact Hv'|]. by rewrite fmap_app.
  - rewrite orb_false_r. unfold flush_warns, flush_pieces. rewrite Hh. simpl.
    destruct (visit_out (S fuel) valid evs s dn i e rem) as (s' & -> & Hv'); [done..|].
    eexists (S fuel), s', _. split; [lia|]. split; [|split; [exact Hv'|by rewrite fmap_app]].
    replace (warned w []) with (@nil pmem_st) by (unfold warned; by destruct (check_flush _)).
    by rewrite app_nil_r.
Qed.

Lemma flush_loop_ok rem : forall fuel valid evs s dn,
  st_view s (dn ++ rem) rem -> (2 * length rem < fuel)%nat ->
  Z.of_nat (length dn + length (flat_map (flush_pieces fl) rem.*2)) < iter_limit ->
  Z.of_nat (length (evs ++ warned w (flat_map (flush_warns fl) rem.*2))) <= MAX_FLUSH_ERROR_EVENTS ->
  exists s', flush_run fl w fuel valid evs s = Ok (valid || existsb (hits fl) rem.*2)
      (pc_at (with_redundant (evs ++ warned w (flat_map (flush_warns fl) rem.*2)) w) s') /\
    st_ok s' /\ stack s' = [] /\ elems s' = dn.*2 ++ flat_map (flush_pieces fl) rem.*2.
Proof using Hfl.
  induction rem as [|[i e] rem IH]; intros fuel valid evs s dn Hv Hf Hlim Hfit.
  - destruct fuel as [|fuel]; [simpl in Hf; lia|]. destruct (st_next s _ _ Hv) as (s1 & Hn1 & Hv1).
    exists s1. unfold flush_run. cbn [fold_next]. rewrite (bind_ok _ _ _ _ _ (pc_next_ok _ s s1 _ Hn1)).
    replace (warned w _) with (@nil pmem_st) by (unfold warned; by destruct (check_flush _)).
    rewrite app_nil_r, orb_false_r. split; [done|]. pose proof Hv1 as [Hok1 Hns1 _ _]. split; [done|].
    split; [by apply (view_end s (dn ++ []))|]. unfold elems. by rewrite Hns1, fmap_app.
  - rewrite !fmap_cons in *. cbn [flat_map snd existsb length] in *. rewrite length_app in Hlim.
    rewrite warned_app, app_assoc in *. destruct fuel as [|[|fuel]]; [lia|lia|].
    destruct (visit_entry fuel valid evs s dn i e rem Hv) as (fuel' & s1 & dn1 & Hle & -> & Hv1 & Hdn).
    { destruct Hv as [Hok Hns _ _]. rewrite (st_size s Hok). unfold elems.
      rewrite Hns, length_fmap, length_app. cbn [length].
      assert (length rem <= length (flat_map (flush_pieces fl) rem.*2))%nat; [|lia].
      clear. induction rem as [|n rem IH]; [simpl; lia|]. rewrite fmap_cons. cbn [flat_map length].
      rewrite length_app. pose proof (pieces_nonempty fl (snd n)). lia. }
    { rewrite length_app in Hfit. lia. }
    destruct (IH fuel' (valid || hits fl e) (evs ++ warned w (flush_warns fl e)) s1 dn1 Hv1)
      as (s' & -> & Hok' & Hst' & Hel); [lia| |done|].
    { rewrite <-(length_fmap snd dn1), Hdn, length_app, length_fmap. lia. }
    exists s'. rewrite orb_assoc. split; [done|]. split; [done|]. split; [done|].
    by rewrite Hel, Hdn, <-app_assoc.
Qed.
End Loop.

(** ** The handler *)

Definition with_superfluous (evs : list pmem_st) w : pc_world :=
  pc_set_pmem (pc_set_superfluous evs (pc_pmem w)) w.

(** The registers after a flush of [fl] over the entries [l]. *)
Definition after_flush fl l w : pc_world :=
  let p := pc_pmem w in
  with_superfluous (pc_superfluous_flushes p ++
      warned w (if existsb (hits fl) l then [] else [set_context (exe_context (the_globals w)) fl]))
    (with_redundant (pc_redundant_flushes p ++ warned w (flat_map (flush_warns fl) l)) w).

Lemma pc_do_flush_ok w s a n :
  let fl := region_at a n in
  let w' := after_flush fl (elems s) w in
  st_ok s -> region_ok fl -> log_stores (pc_opts (pc_pmem w)) = false ->
  force_flush_align (pc_opts (pc_pmem w)) = false ->
  Z.of_nat (length (flat_map (flush_pieces fl) (elems s))) < iter_limit ->
  Z.of_nat (length (pc_redundant_flushes (pc_pmem w'))) <= MAX_FLUSH_ERROR_EVENTS ->
  Z.of_nat (length (pc_superfluous_flushes (pc_pmem w'))) <= MAX_FLUSH_ERROR_EVENTS ->
  exists s', pc_do_flush a n (pc_at w s) = Ok tt (pc_at w' s') /\ st_ok s' /\ stack s' = [] /\
    elems s' = flat_map (flush_pieces fl) (elems s).
Proof.
  intros fl w' Hok Hfl Hlog Hforce Hlim Hr Hs. unfold pc_do_flush.
  assert (forall w0, pc_opts (pc_pmem w0) = pc_opts (pc_pmem w) ->
    pc_flush_region a n w0 = Ok fl w0) as Hreg.
  { intros w0 E. unfold pc_flush_region. do 2 step. rewrite E, Hforce. done. }
  rewrite (bind_ok _ _ _ _ _ (Hreg (pc_at w s) eq_refl)). step. simpl (log_stores _). rewrite Hlog. step.
  assert (card s < iter_limit) as Hn.
  { rewrite (st_size s Hok). assert (length (elems s) <= length (flat_map (flush_pieces fl) (elems s)))%nat; [|lia].
    clear. induction (elems s) as [|x l IH]; [simpl; lia|]. cbn [flat_map length]. rewrite length_app.
    pose proof (pieces_nonempty fl x). lia. }
  destruct (pc_reset_ok w s Hok Hn) as (s1 & Heq1 & Hv1 & Hroot). rewrite (bind_ok _ _ _ _ _ Heq1). step.
  destruct (flush_loop_ok fl Hfl w (nodes s) (S (3 * tree_size (root s1))) false
    (pc_redundant_flushes (pc_pmem w)) s1 [] Hv1) as (s' & Heq & Hok' & Hst' & Hel); [|done|done|].
  { rewrite Hroot, st_tree_size by done. unfold elems. rewrite length_fmap. lia. }
  assert (with_redundant (pc_redundant_flushes (pc_pmem w)) w = w) as Ew by by destruct w as [? [] ?].
  unfold flush_run in Heq. rewrite Ew in Heq. rewrite (bind_ok _ _ _ _ _ Heq). clear Heq.
  exists s'. split; [|done]. step. cbn [orb]. change (nodes s).*2 with (elems s).
  unfold w', after_flush in *. cbv zeta in *. unfold warned in *. simpl in Hs |- *.
  destruct (existsb (hits fl) (elems s)); simpl.
  - destruct (check_flush _); simpl; rewrite !app_nil_r; by destruct w as [? [] ?].
  - destruct (check_flush _) eqn:Ec; simpl in Hs |- *; [|by rewrite !app_nil_r].
    unfold pc_add_superfluous_flush. do 2 step. simpl. rewrite add_warning_fits; [done|].
    rewrite length_app in Hs. simpl in Hs. lia.
Qed.

(** ** How many entries a flush adds *)

Lemma one_covers l b : disjoint_stores l -> (length (List.filter (fun e => covers_byte e b) l) <= 1)%nat.
Proof.
  induction l as [|e l IH]; intros Hd; [simpl; lia|]. destruct Hd as [He Hd]. simpl.
  destruct (covers_byte e b) eqn:Eb; [|by apply IH]. simpl.
  assert (List.filter (fun x => covers_byte x b) l = []) as ->; [|simpl; lia].
  apply covers_byte_spec in Eb. clear IH Hd. induction l as [|x l IH]; [done|].
  apply Forall_cons in He as [Hx He]. simpl.
  rewrite (proj2 (covers_byte_false x b)); [by apply IH|]. intros Hxb.
  by apply (outside_covers e x b Hx).
Qed.

(** Only the entries with the first byte, and those with the first byte behind
    the flush, are cut. *)
Lemma flush_length fl l :
  region_ok fl -> Forall region_ok l -> disjoint_stores l ->
  (length (flat_map (flush_pieces fl) l) <= length l + 2)%nat.
Proof.
  intros Hf Hl Hd.
  assert (length (flat_map (flush_pieces fl) l) <= length l +
    length (List.filter (fun e => covers_byte e (addr fl)) l) +
    length (List.filter (fun e => covers_byte e (addr fl + size fl)) l))%nat as H.
  { clear Hd. induction l as [|e l IH]; [simpl; lia|]. apply Forall_cons in Hl as [He Hl].
    specialize (IH Hl). cbn [flat_map]. rewrite length_app. unfold flush_pieces at 1.
    destruct (hits fl e) eqn:Eh; simpl; [|repeat destruct (covers_byte e _); simpl; lia].
    destruct (is_dirty e); [|simpl; repeat destruct (covers_byte e _); simpl; lia].
    apply hits_outside in Eh; [|done..].
    destruct (from_flush_ok fl (set_state STST_FLUSHED e) Hf He Eh) as (Hr & _ & _ & Hre & _).
    rewrite length_app, (max_addr_ok fl Hf), (max_addr_ok _ Hr), Hre. simpl. unfold covers_byte, outside in *.
    destruct He as (? & ? & ?), Hf as (? & ? & ?). repeat (ztest; simpl); lia. }
  pose proof (one_covers l (addr fl) Hd). pose proof (one_covers l (addr fl + size fl) Hd). lia.
Qed.
