(* ===== verification/PmcRun.v ===== *)
(** Whole runs of pmemcheck, from its initialization on: the set of stores gives
    every byte the state the abstract bytes have. *)
From S2P Require Import Prelude OSet OSetTree OSetSpec Region RegionSpec Bytes StoreSet Core Trans Pmem Store Flush Report Client Spec StoreSpec MapSpec Refine PmcTx PmcMain PmcClient PmcStoreSpec PmcFlushSpec.
Local Open Scope pm_scope.

Implicit Types (s : region_set) (w : pc_world).

(** * Mappings *)

(** Taking out by the search region is taking out the entry it finds. *)
Lemma remove_search set k i e :
  region_set_ok set -> region_ok k -> OSetGen_LookupNode set k = Some (i, e) ->
  OSetGen_Remove set k = OSetGen_Remove set e.
Proof.
  intros Hset Hk Hl.
  destruct (LookupNode_some cmp_pmem_st region_ok region_ok set k i e (rs_ok _ Hset) Hk Hl) as [Hin _].
  pose proof (Lookup_self cmp_pmem_st region_ok set i e (rs_ok _ Hset) Hin) as Hs.
  unfold OSetGen_Remove. unfold OSetGen_LookupNode in *. simpl in Hs. by rewrite Hl, Hs.
Qed.

(** The two tools add a region in the same way. *)
Lemma pc_add_region_loop_same fuel search : forall entry set,
  region_set_ok set -> region_ok search ->
  pc_add_region_loop fuel search entry set = add_region_loop fuel search entry set.
Proof.
  induction fuel as [|fuel IH]; intros entry set Hset Hs; [done|].
  cbn [pc_add_region_loop add_region_loop]. unfold OSetGen_Lookup.
  destruct (OSetGen_LookupNode set search) as [[i e]|] eqn:El; simpl.
  - rewrite (remove_search set search i e Hset Hs El).
    destruct (remove_key set search i e Hset Hs El) as (set' & _ & _ & Hr & Hset' & _).
    rewrite (remove_search set search i e Hset Hs El) in Hr. rewrite Hr. simpl. by apply IH.
  - by rewrite Remove_none.
Qed.

Lemma pc_add_region_same set r :
  region_set_ok set -> region_ok r -> 1 <= addr r -> addr r + size r + 1 < word_size ->
  pc_add_region r set = add_region r set.
Proof.
  intros Hset Hr H1 H2. unfold pc_add_region, add_region. rewrite pc_add_region_loop_same; [done|done|].
  unfold region_ok, search_around in *. simpl. word_solve.
Qed.

(** The registered ranges. *)
Definition pc_mapped w : list (Z * Z) := (fun e => (addr e, size e)) <$> elems (pc_pmem_mappings (pc_pmem w)).

Lemma contains_meets set a n :
  region_set_ok set -> region_ok (region_at a n) ->
  OSetGen_Contains set (region_at a n) = existsb (meets a n) ((fun e => (addr e, size e)) <$> elems set).
Proof.
  intros Hset Hr. unfold OSetGen_Contains. destruct (OSetGen_Lookup _ _) as [e|] eqn:El.
  - destruct (Lookup_some cmp_pmem_st region_ok region_ok _ _ e (rs_ok _ Hset) Hr El) as [He Hc].
    symmetry. apply existsb_exists. exists (addr e, size e). split.
    + apply list_elem_of_In, list_elem_of_fmap. by exists e.
    + apply not_false_is_true. rewrite meets_outside. apply cmp_overlap; [done| |done].
      by apply (region_of_set set).
  - pose proof (Lookup_none cmp_pmem_st region_ok region_ok _ _ (rs_ok _ Hset) Hr El) as Hn.
    symmetry. apply not_true_is_false. intros (m & Hm & Ht)%existsb_exists.
    apply list_elem_of_In, list_elem_of_fmap in Hm as (e & -> & He).
    rewrite Forall_forall in Hn. specialize (Hn e He). apply Hn, cmp_overlap;
      [done|by apply (region_of_set set)|]. intros Ho. apply meets_outside in Ho. congruence.
Qed.

Lemma ranges_same set maps :
  Forall (fun x => 0 < snd x) maps -> region_set_ok set ->
  (forall b, set_covers set b <-> in_ranges maps b) ->
  same_bytes ((fun e => (addr e, size e)) <$> elems set) maps.
Proof.
  intros Hm Hset Hb. split; [|split; [done|]].
  - apply Forall_fmap, Forall_forall. intros x Hx. by pose proof (region_of_set _ x Hset Hx) as (? & ? & ?).
  - intros b. rewrite <-Hb. apply in_ranges_set.
Qed.

(** * The invariant *)

(** Options under which only stores, flushes and fences are tracked. *)
Record pc_plain (o : options) : Prop := {
  pp_log : log_stores o = false;
  pp_align : force_flush_align o = false;
  pp_mult : track_multiple_stores o = false;
  pp_check : check_flush o = false;
}.

(** What the store path needs of the transactions module. *)
Class PcTxQuiet (P : tx_state -> Prop) : Prop := {
  pc_tx_quiet st t : P t -> exists t', pc_handle_tx_store st t = Ok tt t' /\ P t' /\ glob t' = glob t;
}.

(** After [k] operations there are at most [2 * k] entries; nothing is left for
    the iterator to give. *)
Record pc_inv (P : tx_state -> Prop) (k : Z) w : Prop := {
  pv_plain : pc_plain (pc_opts (pc_pmem w));
  pv_stores : st_ok (pc_pmem_stores (pc_pmem w));
  pv_stack : stack (pc_pmem_stores (pc_pmem w)) = [];
  pv_live : live (elems (pc_pmem_stores (pc_pmem w)));
  pv_maps : region_set_ok (pc_pmem_mappings (pc_pmem w));
  pv_tx : P (pc_tx w);
  pv_quiet : pc_multiple_stores (pc_pmem w) = [] /\ pc_redundant_flushes (pc_pmem w) = [] /\
    pc_superfluous_flushes (pc_pmem w) = [];
  pv_size : Z.of_nat (length (elems (pc_pmem_stores (pc_pmem w)))) <= 2 * k;
}.

(** The states of the bytes in a state of the tool. *)
Definition pc_bytes w : bytes := byte_state (elems (pc_pmem_stores (pc_pmem w))).

(** What an operation does: the invariant stays, and the bytes change as they
    should. *)
Definition pc_does (P : tx_state -> Prop) (k : Z) (m : PC unit) w (maps : list (Z * Z)) (by' : bytes) : Prop :=
  exists w', m w = Ok tt w' /\ pc_inv P (k + 1) w' /\ pc_opts (pc_pmem w') = pc_opts (pc_pmem w) /\
    same_bytes (pc_mapped w') maps /\ forall b, pc_bytes w' b = by' b.

(** A change of the set of stores only. *)
Lemma pc_at_inv P k w s :
  pc_inv P k w -> st_ok s -> stack s = [] -> live (elems s) ->
  (length (elems s) <= length (elems (pc_pmem_stores (pc_pmem w))) + 2)%nat ->
  pc_inv P (k + 1) (pc_at w s).
Proof. intros [Hp Hs Hst Hl Hm Ht Hq Hz] Hok Hst' Hl' Hlen. split; try done. simpl. lia. Qed.

Section Steps.
Context `{CoreEnv} `{!CoreLaws} (P : tx_state -> Prop) `{!PcTxQuiet P}.

Lemma pc_store_ok k w a n v maps :
  pc_inv P k w -> range_ok a n = true -> 1 <= a -> same_bytes (pc_mapped w) maps ->
  pc_does P k (pc_trace_pmem_store a n v) w maps (byte_step maps (EvStore a n v) (pc_bytes w)).
Proof.
  intros Hinv Hr Ha Hm. unfold range_ok in Hr. rewrite !andb_true_iff, Z.leb_le, !Z.ltb_lt in Hr.
  destruct Hr as [[_ Hn] Hz]. unfold word_max in Hz.
  pose proof Hinv as [Hp Hs Hst Hl Hmap Ht Hq Hk]. pose proof Hp as [Hlog _ Hmult _].
  assert (region_ok (region_at a n)) as Hreg by (unfold region_ok; simpl; lia).
  unfold pc_does, pc_trace_pmem_store.
  assert (pc_is_pmem_access a n w = Ok (existsb (meets a n) maps) w) as Hacc.
  { unfold pc_is_pmem_access. step. unfold retM. f_equal. rewrite contains_meets by done.
    by apply same_bytes_meets. }
  rewrite (bind_ok _ _ _ _ _ Hacc). cbn [byte_step]. destruct (existsb (meets a n) maps); cbn [negb].
  2:{ exists w. split; [done|]. split; [|done]. split; try done. lia. }
  step. step. step. rewrite Hlog. step. step. rewrite Hmult.
  set (store := set_context _ _).
  destruct (pc_add_and_merge_ok w (pc_pmem_stores (pc_pmem w)) store)
    as (s' & r' & Heq & Hok' & Hst' & Hlen & Hlive & _ & Hb); [done|done|done|done|simpl; lia|].
  rewrite pc_at_self in Heq. rewrite (bind_ok _ _ _ _ _ Heq).
  destruct (pc_tx_quiet r' (pc_tx w) Ht) as (t' & Htx & Ht' & Hg).
  exists (pc_set_tx t' (pc_at w s')). split; [|split; [|split; [done|split; [done|]]]].
  - unfold pc_in_tx, zoomM. simpl. by rewrite Htx.
  - destruct (pc_at_inv P k w s' Hinv Hok' Hst' (Hlive Hl ltac:(done)) Hlen). by split.
  - intros b. unfold pc_bytes. simpl. rewrite Hb. done.
Qed.

Lemma pc_flush_ok k w a n maps :
  pc_inv P k w -> 2 * k + 2 < iter_limit -> range_ok a n = true -> same_bytes (pc_mapped w) maps ->
  pc_does P k (pc_do_flush a n) w maps (byte_step maps (EvFlush a n) (pc_bytes w)).
Proof.
  intros Hinv Hk Hr Hm. unfold range_ok in Hr. rewrite !andb_true_iff, Z.leb_le, !Z.ltb_lt in Hr.
  destruct Hr as [[Ha Hn] Hz]. unfold word_max in Hz.
  pose proof Hinv as [Hp Hs Hst Hl Hmap Ht Hq Hkz]. pose proof Hp as [Hlog Hal _ Hchk].
  assert (region_ok (region_at a n)) as Hreg by (unfold region_ok; simpl; lia).
  set (s := pc_pmem_stores (pc_pmem w)) in *. pose proof (ok_elems _ _ _ Hs) as Hall.
  pose proof (flush_length (region_at a n) (elems s) Hreg Hall (st_disjoint s Hs)) as Hlen.
  destruct (pc_do_flush_ok w s a n) as (s' & Heq & Hok' & Hst' & Hel); try done; [lia|..].
  1,2: simpl; unfold warned; rewrite Hchk, app_nil_r; destruct Hq as (_ & E1 & E2); by rewrite ?E1, ?E2.
  assert (after_flush (region_at a n) (elems s) w = w) as Ew.
  { unfold after_flush, warned. rewrite Hchk, !app_nil_r. by destruct w as [? [] ?]. }
  rewrite Ew in Heq. unfold s in Heq at 1. rewrite pc_at_self in Heq.
  exists (pc_at w s'). split; [done|]. split; [|split; [done|split; [done|]]].
  - apply pc_at_inv; [done..| |by rewrite Hel]. rewrite Hel. unfold live in *. rewrite Forall_forall in *.
    intros x Hx%list_elem_of_In%in_flat_map. destruct Hx as (o & Ho%list_elem_of_In & Hx%list_elem_of_In).
    by apply (flush_pieces_live _ _ _ (Hl o Ho) Hx).
  - intros b. unfold pc_bytes. simpl. fold s. rewrite Hel, flush_state by done. done.
Qed.

Lemma pc_fence_ok k w maps :
  pc_inv P k w -> 2 * k < iter_limit -> same_bytes (pc_mapped w) maps ->
  pc_does P k pc_do_fence w maps (byte_step maps EvFence (pc_bytes w)).
Proof.
  intros Hinv Hk Hm. pose proof Hinv as [Hp Hs Hst Hl Hmap Ht Hq Hkz]. pose proof Hp as [Hlog _ _ _].
  set (s := pc_pmem_stores (pc_pmem w)) in *.
  destruct (pc_do_fence_ok w s) as (s' & Heq & Hok' & Hst' & Hel); [done|by rewrite st_size; [lia|]|done|].
  unfold s in Heq at 1. rewrite pc_at_self in Heq.
  exists (pc_at w s'). split; [done|]. split; [|split; [done|split; [done|]]].
  - apply pc_at_inv; [done..| |].
    + rewrite Hel. unfold live in *. rewrite Forall_forall in *.
      intros x [Hx _]%list_elem_of_In%filter_In. by apply Hl, list_elem_of_In.
    + rewrite Hel. fold s. pose proof (filter_length_le unflushed (elems s)). lia.
  - intros b. unfold pc_bytes. simpl. fold s. rewrite Hel. apply fence_state, st_disjoint, Hs.
Qed.

Lemma pc_map_ok k w a n maps :
  pc_inv P k w -> mapping_ok a n = true -> same_bytes (pc_mapped w) maps ->
  pc_does P k (pc_register_mapping a n) w ((a, n) :: maps) (pc_bytes w).
Proof.
  intros [Hp Hs Hst Hl Hmap Ht Hq Hk] Hok (_ & Hm2 & Hm).
  destruct (mapping_ok_elim a n Hok) as (H1 & H2 & H3).
  assert (region_ok (region_at a n)) as Hr by (unfold region_ok; simpl; lia).
  destruct (add_region_correct _ (region_at a n) Hmap Hr) as (set' & Hadd & Hset' & _ & Hcov); [simpl; lia..|].
  rewrite <-pc_add_region_same in Hadd by (done || simpl; lia).
  eexists. split; [unfold pc_register_mapping; step; rewrite Hadd; reflexivity|].
  split; [split; try done; simpl; lia|]. split; [done|]. split; [|done].
  apply ranges_same; [by constructor|done|]. intros b. etransitivity; [apply Hcov|].
  rewrite in_ranges_cons, <-(Hm b). unfold pc_mapped. rewrite in_ranges_set. unfold covers. simpl. tauto.
Qed.

Lemma pc_unmap_ok k w a n maps :
  pc_inv P k w -> mapping_ok a n = true -> same_bytes (pc_mapped w) maps ->
  pc_does P k (pc_remove_mapping a n) w (flat_map (minus a n) maps) (pc_bytes w).
Proof.
  intros [Hp Hs Hst Hl Hmap Ht Hq Hk] Hok (_ & Hm2 & Hm).
  destruct (mapping_ok_elim a n Hok) as (H1 & H2 & H3).
  assert (region_ok (region_at a n)) as Hr by (unfold region_ok; simpl; lia).
  destruct (remove_region_mapping_correct _ (region_at a n) Hmap Hr) as (set' & Hrem & Hset' & _ & Hcov).
  eexists. split; [unfold pc_remove_mapping; step; unfold pc_remove_region; rewrite Hrem; reflexivity|].
  split; [split; try done; simpl; lia|]. split; [done|]. split; [|done].
  apply ranges_same; [apply unmap_sized; (done || lia)|done|]. intros b. etransitivity; [apply Hcov|].
  rewrite unmap_spec by lia. rewrite <-(Hm b). unfold pc_mapped. rewrite in_ranges_set. done.
Qed.
End Steps.

#[export] Instance tx_idle_pc_quiet : PcTxQuiet tx_idle.
Proof.
  split. intros st t Ht. exists t. split; [|done].
  destruct Ht as [Hth Ho Hv _ _]. unfold pc_handle_tx_store. step.
  destruct (_ =? 1); [done|]. step.
  assert (thread_lookup (running_tid (glob t)) t = Ok None t) as Hl.
  { unfold thread_lookup. step. unfold OSetGen_LookupNode. by rewrite Hth. }
  rewrite (bind_ok _ _ _ _ _ Hl). step. rewrite Ho. step. step. by rewrite Hv.
Qed.

(** * Runs *)

(** The ranges the byte statements are about: as for PMDebugger, and no store to
    the address 0, whose neighbour in front would be the last byte. *)
Definition pc_event_ok (ev : event) : bool :=
  event_ok ev && match ev with EvStore a _ _ => 1 <=? a | _ => true end.

Section Run.
Context `{CoreEnv} `{!CoreLaws}.

(** The handler of an event of the client program. *)
Definition pc_handle_event (ev : event) : PC unit :=
  match ev with
  | EvMap a n => pc_register_mapping a n
  | EvUnmap a n => pc_remove_mapping a n
  | EvStore a n v => pc_trace_pmem_store a n v
  | EvFlush a n => pc_do_flush a n
  | EvFence => pc_do_fence
  end.

Fixpoint pc_handle_events (evs : list event) : PC unit :=
  match evs with
  | [] => retM tt
  | ev :: evs => pc_handle_event ev ;;; pc_handle_events evs
  end.

Lemma pc_handle_event_ok P `{!PcTxQuiet P} k w maps ev :
  pc_inv P k w -> 2 * k + 2 < iter_limit -> pc_event_ok ev = true -> same_bytes (pc_mapped w) maps ->
  pc_does P k (pc_handle_event ev) w (map_after ev maps) (byte_step maps ev (pc_bytes w)).
Proof.
  intros Hinv Hk Hok Hm. unfold pc_event_ok in Hok. apply andb_true_iff in Hok as [Hev Hst].
  destruct ev as [a n|a n|a n v|a n|]; simpl in *.
  - by apply pc_map_ok.
  - by apply pc_unmap_ok.
  - apply pc_store_ok; try done. by apply Z.leb_le.
  - by apply pc_flush_ok.
  - apply pc_fence_ok; [done|lia|done].
Qed.

Lemma pc_handle_events_ok P `{!PcTxQuiet P} evs : forall k w maps m,
  pc_inv P k w -> 2 * (k + Z.of_nat (length evs)) < iter_limit -> forallb pc_event_ok evs = true ->
  same_bytes (pc_mapped w) maps -> (forall b, pc_bytes w b = m b) ->
  exists w', pc_handle_events evs w = Ok tt w' /\ pc_inv P (k + Z.of_nat (length evs)) w' /\
    pc_opts (pc_pmem w') = pc_opts (pc_pmem w) /\ same_bytes (pc_mapped w') (maps_after maps evs) /\
    forall b, pc_bytes w' b = bytes_after maps evs m b.
Proof.
  induction evs as [|ev evs IH]; intros k w maps m Hinv Hk Hok Hm Hb.
  { exists w. split; [done|]. split; [|done]. by replace (k + Z.of_nat (length [])) with k by (simpl; lia). }
  cbn [length forallb] in *. apply andb_true_iff in Hok as [Hok1 Hok2].
  destruct (pc_handle_event_ok P k w maps ev Hinv ltac:(lia) Hok1 Hm)
    as (w1 & Heq & Hinv1 & Ho1 & Hm1 & Hb1).
  cbn [pc_handle_events]. rewrite (bind_ok _ _ _ _ _ Heq).
  destruct (IH (k + 1) w1 (map_after ev maps) (byte_step maps ev m) Hinv1)
    as (w2 & Heq2 & Hinv2 & Ho2 & Hm2 & Hb2); [lia|done|done| |].
  { intros b. rewrite Hb1. by apply byte_step_proper. }
  exists w2. split; [done|]. split; [|split; [congruence|done]].
  by replace (k + Z.of_nat (S (length evs))) with (k + 1 + Z.of_nat (length evs)) by lia.
Qed.
End Run.

Section Start.
Context `{CoreEnv} `{!CoreLaws} `{ClientEnv}.

Lemma st_empty : st_ok (OSetGen_Create (Some cmp_pmem_st)).
Proof. apply region_set_empty. Qed.

(** After the initialization nothing is tracked. *)
Lemma pc_init_ok w :
  let o := pc_opts (pc_pmem w) in
  pc_plain o -> clo_verbosity (the_globals w) <= 1 -> o_transactions_only o = false ->
  exists w', pc_post_clo_init w = Ok tt w' /\ pc_inv tx_idle 0 w' /\
    pc_opts (pc_pmem w') = set_flush_align_size read_cache_line_size o /\
    pc_mapped w' = [] /\ (forall b, pc_bytes w' b = STST_CLEAN).
Proof.
  intros o Hp Hv Hto. unfold pc_post_clo_init. destruct Hp as [Hlog Hal Hmu Hch].
  step. step. fold o. step. rewrite Hlog. cbn [whenM]. eexists. split; [reflexivity|].
  split; [|split; [done|split; [done|done]]]. split.
  - by split.
  - apply st_empty.
  - done.
  - constructor.
  - apply region_set_empty.
  - split; [done|exact Hto| |done|done]. simpl. apply Z.ltb_ge. exact Hv.
  - done.
  - done.
Qed.

(** A run up to the last event. *)
Definition pc_session (evs : list event) : PC unit := pc_post_clo_init ;;; pc_handle_events evs.

(** The runs the byte statements are about: the options only track stores,
    flushes and fences, ranges do not reach the ends of the address space, and
    the run is short enough for the iterator. *)
Record pc_run_ok w (evs : list event) : Prop := {
  pr_plain : pc_plain (pc_opts (pc_pmem w));
  pr_verbosity : clo_verbosity (the_globals w) <= 1;
  pr_tx : o_transactions_only (pc_opts (pc_pmem w)) = false;
  pr_events : forallb pc_event_ok evs = true;
  pr_length : 2 * Z.of_nat (length evs) < iter_limit;
}.

Lemma pc_session_ok evs w :
  pc_run_ok w evs ->
  exists w', pc_session evs w = Ok tt w' /\ pc_inv tx_idle (Z.of_nat (length evs)) w' /\
    pc_opts (pc_pmem w') = set_flush_align_size read_cache_line_size (pc_opts (pc_pmem w)) /\
    same_bytes (pc_mapped w') (maps_after [] evs) /\
    forall b, pc_bytes w' b = bytes_after [] evs all_clean b.
Proof.
  intros [Hp Hv Hto Hev Hlen]. unfold pc_session.
  destruct (pc_init_ok w Hp Hv Hto) as (w1 & Heq1 & Hinv1 & Ho1 & Hm1 & Hb1).
  rewrite (bind_ok _ _ _ _ _ Heq1).
  destruct (pc_handle_events_ok tx_idle evs 0 w1 [] all_clean Hinv1) as (w2 & Heq2 & Hinv2 & Ho2 & Hm2 & Hb2);
    [lia|done|by rewrite Hm1|done|].
  exists w2. split; [done|]. split; [done|]. split; [congruence|done].
Qed.
End Start.
