(* ===== verification/PmcReport.v ===== *)
(** pmemcheck's report at exit: what it prints, and that the total it ends with
    is the number of bytes that are not persistent. *)
From S2P Require Import Prelude OSet OSetTree OSetSpec OSetId Region RegionSpec Bytes StoreSet Core Trans Pmem Store Flush Report Client Spec StoreSpec ReportSpec Refine PmcTx PmcMain PmcClient PmcStoreSpec PmcFlushSpec PmcRun.
Local Open Scope pm_scope.

Implicit Types (s : region_set) (e : pmem_st) (l : list pmem_st) (w : pc_world).

(** * Messages *)

Definition pc_say (ms : list msg) w : pc_world := with_globals (put_msgs ms (the_globals w)) w.

Lemma pc_say_nil w : pc_say [] w = w.
Proof. by destruct w as [[[] ?] [] ?]. Qed.

Lemma pc_say_app ms1 ms2 w : pc_say ms2 (pc_say ms1 w) = pc_say (ms1 ++ ms2) w.
Proof. unfold pc_say. simpl. by rewrite put_msgs_app. Qed.

Lemma pc_say_output ms w : output (the_globals (pc_say ms w)) = rev ms ++ output (the_globals w).
Proof. done. Qed.

Lemma pc_say_at ms w s : pc_say ms (pc_at w s) = pc_at (pc_say ms w) s.
Proof. done. Qed.

(** * The outstanding stores *)

Definition store_lines (k : Z) e : list msg :=
  [Umsg "[%d] " [Num k]; PpExeContext (context e);
   Umsg "\tAddress: 0x%lx\tsize: %llu\tstate: %s\n"
     [Num (addr e); Num (size e); Str (store_state_to_string (state e))]].

Fixpoint all_store_lines (k : Z) l : list msg :=
  match l with
  | [] => []
  | e :: l => store_lines k e ++ all_store_lines (k + 1) l
  end.

Definition total_size l : Z := foldr (fun e n => size e + n) 0 l.

Definition outstanding l : list msg :=
  Umsg "Number of stores not made persistent: %u\n" [Num (Z.of_nat (length l))] ::
  match l with
  | [] => []
  | _ => Umsg "Stores not made persistent properly:\n" [] :: all_store_lines 0 l ++
      [Umsg "Total memory not made persistent: %lu\n" [Num (total_size l)]]
  end.

(** The entries do not overlap, so their sizes add up below the end of the
    address space. *)
Lemma total_size_bound s : st_ok s -> 0 <= total_size (elems s) < word_size.
Proof.
  intros Hok.
  assert (forall (l1 l2 : list (nat * pmem_st)) lo, nodes s = l1 ++ l2 -> 0 <= lo < word_size ->
    Forall (fun n => lo <= addr (snd n)) l2 -> 0 <= total_size l2.*2 < word_size - lo) as H.
  { intros l1 l2. revert l1. induction l2 as [|[i e] l2 IH]; intros l1 lo Hn Hlo Hall; [simpl; lia|].
    apply Forall_cons in Hall as [He _]. destruct (st_order s l1 i e l2 Hok Hn) as (Hr & _ & Hafter).
    rewrite fmap_cons. cbn [total_size foldr snd] in *. destruct Hr as (? & ? & ?).
    rewrite cons_middle, app_assoc in Hn. specialize (IH _ (addr e + size e) Hn ltac:(lia) Hafter).
    unfold total_size in IH. lia. }
  pose proof (H [] (nodes s) 0 eq_refl) as H0. unfold elems. rewrite Z.sub_0_r in H0. apply H0.
  - done.
  - pose proof (ok_elems _ _ _ Hok) as Hall. unfold elems in Hall. rewrite Forall_fmap in Hall.
    eapply Forall_impl; [exact Hall|]. intros n (? & _). done.
Qed.

Lemma total_size_app l1 l2 : total_size (l1 ++ l2) = total_size l1 + total_size l2.
Proof. unfold total_size. induction l1 as [|e l1 IH]; simpl; lia. Qed.

Lemma stats_loop_ok rem : forall fuel w s dn k t,
  st_view s (dn ++ rem) rem -> (length rem < fuel)%nat ->
  0 <= t -> Forall (fun e => 0 <= size e) rem.*2 -> t + total_size rem.*2 < word_size ->
  exists s', fold_next fuel pc_next (k, t) pc_stats_node (pc_at w s) =
      Ok (k + Z.of_nat (length rem), t + total_size rem.*2) (pc_at (pc_say (all_store_lines k rem.*2) w) s') /\
    st_ok s' /\ stack s' = [] /\ elems s' = (dn ++ rem).*2.
Proof.
  induction rem as [|[i e] rem IH]; intros fuel w s dn k t Hv Hf Ht Hsz Hb;
    (destruct fuel as [|fuel]; [simpl in Hf; lia|]); cbn [fold_next];
    destruct (st_next s _ _ Hv) as (s1 & Hn1 & Hv1);
    rewrite (bind_ok _ _ _ _ _ (pc_next_ok w s s1 _ Hn1)); cbn [head tail] in *.
  - exists s1. cbn [all_store_lines fmap list_fmap length total_size foldr]. rewrite pc_say_nil.
    rewrite !Z.add_0_r. split; [done|]. pose proof Hv1 as [Hok1 Hns1 _ _]. split; [done|].
    split; [by apply (view_end s (dn ++ []))|]. unfold elems. by rewrite Hns1.
  - rewrite fmap_cons in *. apply Forall_cons in Hsz as [He Hsz]. cbn [total_size foldr snd] in *.
    assert (0 <= total_size rem.*2) as Hpos.
    { clear -Hsz. induction rem as [|n rem IH]; [done|]. rewrite fmap_cons in *.
      apply Forall_cons in Hsz as [? Hsz]. cbn [total_size foldr]. specialize (IH Hsz). unfold total_size in IH. lia. }
    unfold total_size in Hpos. rewrite cons_middle, app_assoc in Hv1.
    destruct (IH fuel (pc_say (store_lines k e) w) s1 (dn ++ [(i, e)]) (k + 1) (t + size e) Hv1)
      as (s' & Heq & Hok' & Hst' & Hel); [simpl in Hf; lia|lia|done|unfold total_size; lia|].
    exists s'. split; [|by rewrite <-app_assoc in Hel].
    erewrite bind_ok; [|reflexivity]. cbn [fst snd]. rewrite (wadd_small t (size e)) by (unfold is_word; lia).
    change (fold_next fuel pc_next (k + 1, t + size e) pc_stats_node
      (pc_at (pc_say (store_lines k e) w) s1) = Ok (k + Z.of_nat (length ((i, e) :: rem)), t + (size e + total_size rem.*2))
      (pc_at (pc_say (store_lines k e ++ all_store_lines (k + 1) rem.*2) w) s')).
    rewrite Heq, pc_say_app. do 2 f_equal; cbn [length]; lia.
Qed.

Lemma pc_print_store_stats_ok w s :
  st_ok s -> card s < iter_limit ->
  exists s', pc_print_store_stats (pc_at w s) = Ok tt (pc_at (pc_say (outstanding (elems s)) w) s') /\
    st_ok s' /\ elems s' = elems s.
Proof.
  intros Hok Hlim. unfold pc_print_store_stats. step. step.
  change (pc_pmem_stores (pc_pmem (pc_at w s))) with s. rewrite (st_Size s Hok Hlim).
  set (head := Umsg "Number of stores not made persistent: %u\n" [Num (Z.of_nat (length (elems s)))]).
  change (with_globals _ _) with (pc_at (pc_say [head] w) s).
  unfold outstanding. destruct (Z.eqb_spec (Z.of_nat (length (elems s))) 0) as [E|E].
  { exists s. destruct (elems s) eqn:El; [|simpl in E; lia]. done. }
  destruct (pc_reset_ok (pc_say [head] w) s Hok Hlim) as (s1 & Heq1 & Hv1 & Hroot).
  rewrite (bind_ok _ _ _ _ _ Heq1). step.
  set (note := Umsg "Stores not made persistent properly:\n" []).
  change (with_globals _ _) with (pc_at (pc_say [note] (pc_say [head] w)) s1).
  pose proof (total_size_bound s Hok) as Hb.
  destruct (stats_loop_ok (nodes s) (rounds s) (pc_say [note] (pc_say [head] w)) s1 [] 0 0 Hv1)
    as (s' & Heq & Hok' & Hst' & Hel).
  { unfold rounds. rewrite st_tree_size by done. unfold elems. rewrite length_fmap. lia. }
  { done. }
  { eapply Forall_impl; [apply (ok_elems _ _ _ Hok)|]. intros x (? & ? & ?). lia. }
  { exact (proj2 Hb). }
  rewrite (bind_ok _ _ _ _ _ Heq). exists s'. split; [|done]. cbn [snd].
  rewrite !pc_say_app, Z.add_0_l. change (nodes s).*2 with (elems s).
  destruct (elems s) as [|x l] eqn:El; [simpl in E; lia|]. rewrite <-El.
  set (tot := Umsg "Total memory not made persistent: %lu\n" _).
  change (umsg _ _ ?u) with (Ok (S := pc_world) tt (pc_say [tot] u)).
  unfold head. rewrite pc_say_at, pc_say_app, <-El. done.
Qed.

(** * The bytes of the report *)

Definition bytes_of e : list Z := seqZ (addr e) (size e).

Lemma bytes_of_covers e b : b ∈ bytes_of e <-> covers e b.
Proof. unfold bytes_of, covers. rewrite elem_of_seqZ. done. Qed.

Lemma all_bytes_covers l b : b ∈ flat_map bytes_of l <-> list_covers l b.
Proof.
  rewrite list_elem_of_In, in_flat_map.
  unfold list_covers. split; intros (e & He & Hb); exists e.
  - by rewrite list_elem_of_In, <-bytes_of_covers, list_elem_of_In.
  - by rewrite <-list_elem_of_In, <-list_elem_of_In, bytes_of_covers.
Qed.

Lemma all_bytes_nodup l : disjoint_stores l -> NoDup (flat_map bytes_of l).
Proof.
  induction l as [|e l IH]; intros Hd; [constructor|]. destruct Hd as [He Hd]. simpl.
  apply NoDup_app. split; [apply NoDup_seqZ|]. split; [|by apply IH].
  intros b Hb%bytes_of_covers (x & Hx & Hxb)%all_bytes_covers. rewrite Forall_forall in He.
  by apply (outside_covers e x b (He x Hx)).
Qed.

Lemma all_bytes_length l :
  Forall (fun e => 0 <= size e) l -> total_size l = Z.of_nat (length (flat_map bytes_of l)).
Proof.
  induction l as [|e l IH]; intros Hl; [done|]. apply Forall_cons in Hl as [He Hl].
  cbn [flat_map]. rewrite length_app. unfold total_size in *. simpl. rewrite IH by done.
  unfold bytes_of at 2. rewrite length_seqZ. lia.
Qed.

(** The entries are live, so the bytes they cover are those that are not
    clean. *)
Lemma live_state l b : disjoint_stores l -> live l -> byte_state l b <> STST_CLEAN <-> list_covers l b.
Proof.
  intros Hd Hl. split; [apply byte_state_covers|]. intros (e & He & Hb).
  rewrite (byte_state_in l e b) by done. unfold live in Hl. rewrite Forall_forall in Hl. by apply Hl.
Qed.

(** * The end of a run *)

Lemma pc_in_tx_ok {A} (m : T A) w a : m (pc_tx w) = Ok a (pc_tx w) -> pc_in_tx m w = Ok a w.
Proof. intros Hm. unfold pc_in_tx, zoomM. rewrite Hm. by destruct w. Qed.

(** The transactions print themselves and keep all but their iterator. *)
Definition tx_said (ms : list msg) (set : OSet Z tx_info) (t : tx_state) : tx_state :=
  mkTxState (put_msgs ms (glob t)) (set_transactions set (trans t)).

Lemma tx_said_self ms t : tx_said ms (transactions (trans t)) t = with_globals (put_msgs ms (the_globals t)) t.
Proof. by destruct t as [? []]. Qed.

Lemma tx_said_said ms1 set1 ms2 set2 t : tx_said ms2 set2 (tx_said ms1 set1 t) = tx_said (ms1 ++ ms2) set2 t.
Proof. unfold tx_said. simpl. by rewrite put_msgs_app. Qed.

Lemma tx_put_put g1 g2 (t : tx_state) : with_globals g2 (with_globals g1 t) = with_globals g2 t.
Proof. done. Qed.

Ltac tx_prints :=
  repeat (cbv beta; match goal with
  | |- pure_print (bindM (get _) _) => unfold get
  | |- pure_print (bindM (getsM _) _) => apply print_gets; intros
  | |- pure_print (bindM _ _) => apply print_bind; [apply tx_put_put| |]
  | |- pure_print (if _ then _ else _) => case_match
  | |- pure_print (for_events _ _ _) => apply print_events; [apply tx_put_put|intros]
  | |- pure_print (whenM _ _) => apply print_when
  | |- pure_print (pp_context _) => unfold pp_context
  | |- pure_print (print_event_region _ _) => unfold print_event_region
  | |- pure_print (umsg _ _) => apply print_say
  | |- pure_print (pp_ExeContext _) => apply print_say
  | |- pure_print (retM _) => apply print_ret
  end).

Lemma print_cross_evs_says : pure_print print_cross_evs.
Proof. unfold print_cross_evs. tx_prints. Qed.

Lemma print_redundant_logging_says : pure_print print_redundant_logging_evs.
Proof. unfold print_redundant_logging_evs. tx_prints. Qed.

Abbreviation tx_view := (os_view (K := Z) (E := tx_info) fast_cmp (fun _ => True)).

Lemma print_active_ok rem : forall dn t idx fuel,
  tx_view (transactions (trans t)) (dn ++ rem) rem -> (length rem < fuel)%nat ->
  exists ms set, print_active fuel idx t = Ok tt (tx_said ms set t) /\ tx_view set (dn ++ rem) [].
Proof.
  induction rem as [|[i x] rem IH]; intros dn t idx fuel Hv Hf; (destruct fuel as [|fuel]; [simpl in Hf; lia|]);
    cbn [print_active]; destruct (view_next _ _ _ _ _ Hv) as (set1 & Hn1 & Hv1);
    (erewrite bind_ok; [|unfold tx_next; step; rewrite Hn1; reflexivity]); cbn [head tail fst snd] in *.
  - exists [], set1. by destruct t as [[] []].
  - step. set (ms0 := Umsg "[%lu] " [Num idx]).
    assert (exists ms, pp_context (tx_context x) (tx_said [ms0] set1 t) = Ok tt (tx_said (ms0 :: ms) set1 t)) as (ms1 & E1).
    { assert (pure_print (pp_context (tx_context x))) as Hp by tx_prints. destruct (Hp (tx_said [ms0] set1 t)) as (ms & E).
      exists ms. rewrite E. f_equal. unfold tx_said. simpl. by rewrite put_msgs_app. }
    erewrite bind_ok; [|exact E1]. step. rewrite cons_middle, app_assoc in Hv1.
    set (note := Umsg "\ttx_id: %lu\t nesting: %lu\n" _). change (with_globals _ _) with (tx_said [note] set1 (tx_said (ms0 :: ms1) set1 t)).
    rewrite tx_said_said. set (t2 := tx_said _ _ _).
    destruct (IH (dn ++ [(i, x)]) t2 (idx + 1) fuel Hv1) as (ms & set & E & Hv2); [simpl in Hf; lia|].
    exists (((ms0 :: ms1) ++ [note]) ++ ms), set. rewrite <-app_assoc in Hv2. split; [|done]. rewrite E.
    unfold t2. by rewrite tx_said_said.
Qed.

(** The summary of the transactions. *)
Lemma print_tx_summary_ok t :
  id_ok (transactions (trans t)) -> card (transactions (trans t)) < iter_limit ->
  exists ms set, print_tx_summary t = Ok tt (tx_said ms set t) /\ id_ok set /\ nodes set = nodes (transactions (trans t)).
Proof.
  intros Hok Hlim. unfold print_tx_summary. step.
  set (first := whenM _ _). assert (pure_print first) as Hfirst by (unfold first; tx_prints).
  destruct (Hfirst t) as (ms1 & E1). rewrite (bind_ok _ _ _ _ _ E1). clear Hfirst E1 first. rewrite <-tx_said_self.
  destruct (print_cross_evs_says (tx_said ms1 (transactions (trans t)) t)) as (ms2 & E2).
  rewrite (bind_ok _ _ _ _ _ E2), <-tx_said_self, tx_said_said. simpl. clear E2.
  destruct (print_redundant_logging_says (tx_said (ms1 ++ ms2) (transactions (trans t)) t)) as (ms3 & E3).
  rewrite (bind_ok _ _ _ _ _ E3), <-tx_said_self, tx_said_said. simpl. clear E3. set (ms := (ms1 ++ ms2) ++ ms3).
  step. cbn [transactions trans tx_said set_transactions]. set (set := transactions (trans t)) in *.
  destruct (OSetGen_Size set =? 0); [by exists ms, set|]. step. step. 
  set (note := Umsg "Number of active transactions: %lu\n" _).
  change (with_globals _ _) with (tx_said [note] set (tx_said [Umsg "\n" []] set (tx_said ms set t))).
  rewrite !tx_said_said. destruct (view_reset _ _ set Hok Hlim) as (set1 & Hres & Hv1 & Hroot).
  erewrite bind_ok; [|unfold tx_reset; step; cbn [transactions trans tx_said set_transactions]; rewrite Hres; reflexivity].
  set (ms' := ms ++ [Umsg "\n" []] ++ [note]).
  destruct (print_active_ok (nodes set) [] (tx_said ms' set1 t) 0 (rounds set) Hv1) as (ms4 & set2 & E4 & Hv2).
  { unfold rounds, nodes. rewrite length_inorder. lia. }
  exists (ms' ++ ms4), set2. split; [|split; [apply (view_ok _ _ _ _ _ Hv2)|apply (view_nodes _ _ _ _ _ Hv2)]].
  etransitivity; [exact E4|]. by rewrite tx_said_said.
Qed.

(** * The end of a run *)

Lemma pc_put_put g1 g2 (w : pc_world) : with_globals g2 (with_globals g1 w) = with_globals g2 w.
Proof. by destruct w. Qed.

Ltac pc_prints :=
  repeat (cbv beta; match goal with
  | |- pure_print (bindM (pc_get _) _) => unfold pc_get
  | |- pure_print (bindM (getsM _) _) => apply print_gets; intros
  | |- pure_print (bindM _ _) => apply print_bind; [apply pc_put_put| |]
  | |- pure_print (for_events _ _ _) => apply print_events; [apply pc_put_put|intros]
  | |- pure_print (whenM _ _) => apply print_when
  | |- pure_print (umsg _ _) => apply print_say
  | |- pure_print (emit _ _) => apply print_say
  | |- pure_print (pp_ExeContext _) => apply print_say
  | |- pure_print (retM _) => apply print_ret
  end).

(** The errors that pmemcheck has registered besides the stores that are left. *)
Definition pc_warnings w : Z :=
  Z.of_nat (length (pc_redundant_flushes (pc_pmem w))) + Z.of_nat (length (pc_superfluous_flushes (pc_pmem w))) +
  Z.of_nat (length (pc_multiple_stores (pc_pmem w))).

Definition tx_warnings (t : tx_state) : Z :=
  Z.of_nat (length (oot_stores (trans t))) + Z.of_nat (length (cross_tx_evs (trans t))) +
  Z.of_nat (length (elems (transactions (trans t)))) + Z.of_nat (length (redundant_logging_tx_evs (trans t))).

Lemma tx_err_ok t : id_ok (transactions (trans t)) -> card (transactions (trans t)) < iter_limit ->
  get_tx_all_err t = Ok (tx_warnings t) t.
Proof.
  intros Hok Hlim. unfold get_tx_all_err. do 4 step. unfold retM, tx_warnings. do 2 f_equal.
  rewrite Size_small by (apply (ok_wf _ _ _ Hok) || lia). rewrite card_nodes. unfold elems. by rewrite length_fmap.
Qed.

(** What the report prints before the stores. *)
Definition stop_lines (o : options) : list msg := if log_stores o then [Emit "|STOP\n" []] else [].

Lemma pc_when_says b (m : PC unit) w :
  pure_print m -> exists ms, whenM b m w = Ok tt (pc_say ms w).
Proof. intros Hm. destruct b; [exact (Hm w)|]. exists []. by rewrite pc_say_nil. Qed.

Lemma pc_tx_says w : id_ok (transactions (trans (pc_tx w))) -> card (transactions (trans (pc_tx w))) < iter_limit ->
  exists ms w1, pc_in_tx print_tx_summary w = Ok tt w1 /\ pc_pmem w1 = pc_pmem w /\
    output (the_globals w1) = rev ms ++ output (the_globals w) /\
    forall ms', pc_in_tx get_tx_all_err (pc_say ms' w1) = Ok (tx_warnings (pc_tx w)) (pc_say ms' w1).
Proof.
  intros Hok Hlim. destruct (print_tx_summary_ok (pc_tx w) Hok Hlim) as (ms & set & E & Hok' & Hn).
  exists ms, (pc_set_tx (tx_said ms set (pc_tx w)) w). unfold pc_in_tx at 1, zoomM. rewrite E. split_and!; try done.
  intros ms'. apply pc_in_tx_ok. rewrite tx_err_ok; [|done|].
  - f_equal. simpl. unfold tx_warnings, elems. simpl. by rewrite Hn.
  - simpl. rewrite card_nodes, Hn, <-card_nodes. done.
Qed.

Lemma pc_fini_general w :
  let l := elems (pc_pmem_stores (pc_pmem w)) in
  let txs := transactions (trans (pc_tx w)) in
  st_ok (pc_pmem_stores (pc_pmem w)) -> card (pc_pmem_stores (pc_pmem w)) < iter_limit ->
  id_ok txs -> card txs < iter_limit ->
  print_summary (pc_opts (pc_pmem w)) = true -> error_summary (pc_opts (pc_pmem w)) = true ->
  exists w' rest, pc_fini w = Ok tt w' /\ elems (pc_pmem_stores (pc_pmem w')) = l /\
    output (the_globals w') =
      summary_line (pc_warnings w + Z.of_nat (length l) + tx_warnings (pc_tx w)) ::
      rev (stop_lines (pc_opts (pc_pmem w)) ++ outstanding l ++ rest) ++ output (the_globals w).
Proof.
  intros l txs Hs Hlim Htx Htlim Hps Hes. unfold pc_fini. step.
  assert (whenM (log_stores (pc_opts (pc_pmem w))) (emit "|STOP\n" []) w =
    Ok tt (pc_say (stop_lines (pc_opts (pc_pmem w))) w)) as E0.
  { unfold stop_lines. destruct (log_stores _); [done|]. simpl. by rewrite pc_say_nil. }
  rewrite (bind_ok _ _ _ _ _ E0). set (w0 := pc_say _ w). step. change (pc_opts (pc_pmem w0)) with (pc_opts (pc_pmem w)).
  rewrite Hps. cbn [whenM]. unfold pc_print_pmem_stats.
  set (s := pc_pmem_stores (pc_pmem w)) in *.
  destruct (pc_print_store_stats_ok w0 s Hs Hlim) as (s' & E1 & Hok' & Hel).
  change (pc_at w0 s) with (pc_say (stop_lines (pc_opts (pc_pmem w))) (pc_at w s)) in E1.
  unfold s in E1 at 1. rewrite pc_at_self in E1. fold w0 in E1. rewrite (bind_ok _ _ _ _ _ E1). fold l in Hel |- *.
  set (w1 := pc_at _ s').
  destruct (pc_tx_says w1 Htx Htlim) as (ms2 & w2 & E2 & Hp2 & Ho2 & Herr). rewrite (bind_ok _ _ _ _ _ E2). clear E1 E2.
  step. set (b3 := negb _).
  destruct (pc_when_says b3 pc_print_redundant_flushes w2) as (ms3 & E3); [unfold pc_print_redundant_flushes, pc_print_register; pc_prints|].
  rewrite (bind_ok _ _ _ _ _ E3). step. set (b4 := negb _).
  destruct (pc_when_says b4 pc_print_superfluous_flushes (pc_say ms3 w2)) as (ms4 & E4); [unfold pc_print_superfluous_flushes; pc_prints|].
  rewrite (bind_ok _ _ _ _ _ E4), pc_say_app. step. step. set (b5 := _ && _).
  destruct (pc_when_says b5 pc_print_multiple_stores (pc_say (ms3 ++ ms4) w2)) as (ms5 & E5); [unfold pc_print_multiple_stores, pc_print_register; pc_prints|].
  rewrite (bind_ok _ _ _ _ _ E5), pc_say_app. step. change (pc_opts (pc_pmem (pc_say _ w2))) with (pc_opts (pc_pmem w2)).
  rewrite Hp2. change (pc_opts (pc_pmem w1)) with (pc_opts (pc_pmem w)). rewrite Hes. cbn [whenM].
  set (ms := (ms3 ++ ms4) ++ ms5). exists (pc_say (ms ++ [summary_line (pc_warnings w + Z.of_nat (length l) + tx_warnings (pc_tx w))]) w2), (ms2 ++ ms).
  split; [|split].
  - erewrite bind_ok; [reflexivity|]. unfold pc_print_general_summary. step.
    rewrite (bind_ok _ _ _ _ _ (Herr ms)).
    change (pc_pmem (pc_say ms w2)) with (pc_pmem w2). rewrite Hp2.
    change (pc_pmem_stores (pc_pmem w1)) with s'.
    rewrite (st_Size s' Hok') by (rewrite st_size by done; rewrite Hel; unfold l; fold s; rewrite <-(st_size s) by done; exact Hlim).
    rewrite Hel, <-pc_say_app. done.
  - simpl. rewrite Hp2. exact Hel.
  - rewrite pc_say_output, Ho2, rev_app_distr. cbn [rev app]. f_equal. change (output (the_globals w1)) with (rev (outstanding l) ++ output (the_globals w0)).
    change (output (the_globals w0)) with (rev (stop_lines (pc_opts (pc_pmem w))) ++ output (the_globals w)).
    rewrite !rev_app_distr, <-!app_assoc. done.
Qed.
