(* ===== verification/PmcTxSpec.v ===== *)
(** pmemcheck's transactions: on well-formed states its check of a store is
    PMDebugger's, and adding an object logs the same bytes. *)
From S2P Require Import Prelude OSet OSetTree OSetSpec OSetWord OSetId Region RegionSpec Core Trans TransSpec TxStore PmcTx StoreSet PmcRun.
Local Open Scope pm_scope.

Implicit Types (s : tx_state) (store reg : pmem_st).

(** ** The check of a store *)

Lemma pc_tx_add_region_same s id p t r :
  tx_at s id p t -> region_set_ok (regions t) -> region_ok r -> 1 <= addr r -> addr r + size r + 1 < word_size ->
  pc_tx_add_region p r s = tx_add_region p r s.
Proof.
  intros Hat Hset Hr H1 H2. unfold pc_tx_add_region, tx_add_region.
  rewrite !(bind_ok _ _ _ _ _ (deref_at _ _ _ _ Hat)). by rewrite pc_add_region_same.
Qed.

Lemma pc_flush_cache_same s id p t :
  tx_at s id p t -> tx_ok t -> pc_flush_cache p s = flush_cache p s.
Proof.
  intros Hat [Hset Hc _]. unfold pc_flush_cache, flush_cache.
  rewrite !(bind_ok _ _ _ _ _ (deref_at _ _ _ _ Hat)). destruct Hc as [[-> ->]|(Ha & Hs & He)]; [done|].
  rewrite !(proj2 (Z.eqb_neq _ 0)) by lia. cbn [andb]. unfold bindM at 1 2.
  by rewrite (pc_tx_add_region_same s id p t) by (done || unfold region_ok; lia).
Qed.

Lemma pc_is_store_in_tx_same s id store :
  txs_ok s -> pc_is_store_in_tx store id s = is_store_in_tx store id s.
Proof.
  intros Hs. unfold pc_is_store_in_tx, is_store_in_tx. destruct (find_id s id) as [t|] eqn:Hf.
  - destruct (find_id_at s id t Hs Hf) as (p & Hat). pose proof (txs_all _ Hs id t Hf) as Ht.
    rewrite !(bind_ok _ _ _ _ _ (tx_lookup_ok _ _ _ _ Hat)), !(bind_ok _ _ _ _ _ (deref_at _ _ _ _ Hat)).
    destruct (_ =? 1); [done|]. unfold bindM at 1 3. by rewrite (pc_flush_cache_same s id p t).
  - assert (tx_lookup id s = Ok None s) as Hl
      by (unfold tx_lookup; step; unfold find_id in Hf; by destruct (OSetGen_LookupNode _ id)).
    by rewrite !(bind_ok _ _ _ _ _ Hl).
Qed.

(** The loop over the transactions of a thread: every check leaves the
    transactions well formed. *)
Lemma pc_while_ids_same store fuel : forall set s,
  region_ok store -> txs_ok s -> verbose (trans s) = false ->
  while_word fuel set (pc_is_store_in_tx store) s = while_word fuel set (is_store_in_tx store) s.
Proof.
  induction fuel as [|fuel IH]; intros set s Hr Hs Hv; [done|]. cbn [while_word].
  destruct (OSetWord_Next set) as [[[id|] set1]|]; [|done|done]. step.
  symmetry. step. symmetry. cbn [fst snd].
  destruct (is_store_in_tx_ok s id store Hs Hr Hv) as (b & s1 & Heq & Hsame & _).
  pose proof Heq as Heq'. rewrite <-pc_is_store_in_tx_same in Heq' by done.
  rewrite (bind_ok _ _ _ _ _ Heq), (bind_ok _ _ _ _ _ Heq'). destruct b; [done|].
  apply IH; [done|by eapply same_txs_ok|by rewrite (same_verbose s s1)].
Qed.

Lemma pc_handle_tx_store_same s store :
  tx_world_ok s -> region_ok store -> pc_handle_tx_store store s = handle_tx_store store s.
Proof.
  intros [Hs Hv Hx Hth Hids] Hr. unfold pc_handle_tx_store, handle_tx_store. step. symmetry. step. symmetry.
  destruct (_ =? 1); [done|]. rewrite !(bind_ok _ _ s (running_tid (glob s)) s) by done.
  destruct (OSetGen_LookupNode (threads (trans s)) (running_tid (glob s))) as [[q ti]|] eqn:Hq.
  - rewrite !(bind_ok _ _ _ _ _ (thread_lookup_ok _ _ _ _ Hq)). unfold bindM at 1 3.
    assert (for_tx_ids q (pc_is_store_in_tx store) s = for_tx_ids q (is_store_in_tx store) s) as ->; [|done].
    unfold for_tx_ids. rewrite !(bind_ok _ _ _ _ _ (thread_deref_ok _ _ _ _ Hth Hq)).
    destruct (OSetGen_ResetIter (tx_ids ti)) as [set|]; [|done]. step. symmetry. step. symmetry.
    unfold bindM at 1 3. by rewrite pc_while_ids_same.
  - assert (thread_lookup (running_tid (glob s)) s = Ok None s) as Hl
      by (unfold thread_lookup; step; by rewrite Hq).
    by rewrite !(bind_ok _ _ _ _ _ Hl).
Qed.

(** ** Objects *)

(** Without the check for redundant logging the loops over the transactions do
    the same. *)
Lemma pc_add_obj_check_same reg id n s :
  redundant_logging (trans s) = false -> pc_add_obj_check reg id n s = add_obj_check reg id n s.
Proof.
  intros Hred. unfold pc_add_obj_check, add_obj_check. step. rewrite Hred, andb_true_r.
  by destruct (tx_id (snd n) =? id).
Qed.

Lemma tx_next_red s x s' :
  tx_next s = Ok x s' -> redundant_logging (trans s') = redundant_logging (trans s).
Proof.
  unfold tx_next, bindM, liftM, get, getsM, put, modM, retM. intros Heq.
  destruct (OSetGen_Next _) as [[]|]; by simplify_eq.
Qed.

Lemma add_obj_check_red reg id n s s' :
  redundant_logging (trans s) = false -> add_obj_check reg id n s = Ok tt s' ->
  redundant_logging (trans s') = false.
Proof.
  intros Hred Heq. rewrite <-pc_add_obj_check_same in Heq by done. unfold pc_add_obj_check, retM in Heq.
  destruct (tx_id (snd n) =? id); [by injection Heq as <-|].
  destruct (overlapped reg (snd n)) as [[o|]|]; [|done|by injection Heq as <-].
  revert Heq. step. unfold register_cross_event. step. destruct (_ =? _).
  - unfold bindM at 1. by destruct (print_cross_error s).
  - intros Heq. injection Heq as <-. exact Hred.
Qed.

Lemma pc_add_obj_checks_same reg id fuel : forall s,
  redundant_logging (trans s) = false ->
  while_next fuel tx_next (pc_add_obj_check reg id) s = while_next fuel tx_next (add_obj_check reg id) s.
Proof.
  unfold while_next. induction fuel as [|fuel IH]; intros s Hred; [done|]. cbn [fold_next]. unfold bindM.
  destruct (tx_next s) as [[n|] s1|] eqn:Hn; [|done|done]. apply tx_next_red in Hn as Hred1. rewrite Hred in Hred1.
  rewrite pc_add_obj_check_same by done. destruct (add_obj_check reg id n s1) as [[] s2|] eqn:Hc; [|done].
  apply IH. by apply (add_obj_check_red reg id n s1).
Qed.

Lemma pc_tx_remove_region_ok s id p tx r :
  tx_at s id p tx -> region_set_ok (regions tx) -> region_ok r ->
  exists s' set, pc_tx_remove_region p r s = Ok tt s' /\ tx_at s' id p (set_regions set tx) /\
    only_tx id s s' /\ region_set_ok set /\
    forall b, set_covers set b <-> set_covers (regions tx) b /\ ~ covers r b.
Proof.
  intros Hat Hset Hr. unfold pc_tx_remove_region. rewrite (bind_ok _ _ _ _ _ (deref_at _ _ _ _ Hat)).
  destruct (remove_region_mapping_correct (regions tx) r Hset Hr) as (set & Heq & Hset' & _ & Hcov).
  unfold pc_remove_region. rewrite Heq. step.
  destruct (assign_only s id p tx (set_regions set) Hat) as (s1 & Heq1 & Hat1 & Ho); [done|].
  by exists s1, set.
Qed.

Lemma pc_make_place_ok s id p tx reg :
  tx_at s id p tx -> tx_ok tx -> 1 <= addr reg -> 0 < size reg -> addr reg + size reg + 1 < word_size ->
  makes_place (pc_make_place p reg) id p tx reg s.
Proof.
  intros Hat Htx H1 H2 H3. pose proof Htx as [Hset Hc Hroom].
  assert (region_ok reg) as Hr by (unfold region_ok; lia).
  assert (forall k, pc_make_place p reg s = k -> make_place p reg s = k -> makes_place (pc_make_place p reg) id p tx reg s)
    as Hsame.
  { intros k E1 E2. destruct (make_place_ok s id p tx reg Hat Htx H1 H2 H3) as (s' & tx' & Heq & ?).
    exists s', tx'. by rewrite E1, <-E2. }
  unfold pc_make_place, make_place, makes_place in *.
  rewrite !(bind_ok _ _ _ _ _ (deref_at _ _ _ _ Hat)) in *.
  destruct (negb (addr (cached_region tx) =? 0) && negb (size (cached_region tx) =? 0)) eqn:Enz; [|by eapply Hsame].
  destruct (check_overlap (cached_region tx) reg =? 0); [by eapply Hsame; [apply (pc_flush_cache_same s id p tx)|]|].
  destruct (check_overlap (cached_region tx) reg =? 2); [|by eapply Hsame].
  destruct (flush_cache_ok s id p tx Hat Htx)
    as (s1 & tx1 & Heq1 & Hat1 & Ho1 & _ & _ & Hct1 & Hset1 & Hsz1 & Hcov1).
  pose proof Heq1 as Heq1'. rewrite <-(pc_flush_cache_same s id p tx) in Heq1' by done.
  destruct (pc_tx_remove_region_ok s1 id p tx1 reg Hat1 Hset1 Hr) as (s2 & set & Heq2 & Hat2 & Ho2 & Hset2 & Hcov2).
  exists s2, (set_regions set tx1). split; [by rewrite (bind_ok _ _ _ _ _ Heq1')|]. split; [done|].
  split; [by apply (only_tx_trans id s s1)|]. split; [done|]. split; [done|]. intros b. simpl. rewrite Hcov2, Hcov1.
  unfold covers. destruct (decide (addr reg <= b < addr reg + size reg)); tauto.
Qed.

Lemma no_relogged reg id txs : all_relogged false reg id txs = [].
Proof.
  unfold all_relogged. induction txs as [|t l IH]; [done|]. cbn [map concat].
  unfold relogged_of at 1. by rewrite andb_false_r.
Qed.

Lemma pc_add_obj_to_tx_ok s id p tx base sz :
  let reg := set_context (exe_context (glob s)) (region_at base sz) in
  let cr := all_cross reg id (elems (transactions (trans s))) in
  tx_at s id p tx -> tx_ok tx -> takes_part s id ->
  1 <= base -> 0 < sz -> base + sz + 1 < word_size -> redundant_logging (trans s) = false ->
  card (transactions (trans s)) < iter_limit -> events_fit s cr [] ->
  adds_object (pc_add_obj_to_tx id base sz) s id tx base sz.
Proof.
  intros reg cr Hat Htx Hth H1 H2 H3 Hred Hlim Hfit.
  pose proof (no_relogged reg id (elems (transactions (trans s)))) as Erl. rewrite <-Hred in Erl.
  destruct (add_obj_with_ok (pc_make_place p reg) s id p tx base sz Hat Hlim)
    as (s' & tx' & Heq & Hrest); [fold reg; by rewrite Erl|intros s2 Hat2; by apply pc_make_place_ok|].
  exists s', tx'. split; [|done]. rewrite <-Heq. unfold pc_add_obj_to_tx.
  rewrite (bind_ok _ _ _ _ _ (find_tx_ok _ _ _ _ Hat Hth)). cbn iota. step. fold reg.
  destruct (view_reset _ _ _ (at_set _ _ _ _ Hat) Hlim) as (set1 & Hres & _ & _).
  assert (tx_reset s = Ok tt (set_txs set1 s)) as Hr by (unfold tx_reset; step; by rewrite Hres).
  rewrite !(bind_ok _ _ _ _ _ Hr). step. symmetry. step. symmetry.
  unfold bindM at 1 4. by rewrite pc_add_obj_checks_same.
Qed.

(** Removing an object apart from the cached region. *)
Lemma pc_remove_obj_ok s id p t base sz :
  tx_at s id p t -> tx_ok t -> takes_part s id -> region_ok (region_at base sz) ->
  cmp_pmem_st (region_at base sz) (cached_region t) <> 0 ->
  removes_object (pc_remove_obj_from_tx id base sz) s id t base sz.
Proof.
  intros Hat Ht Hpart Hr Hc. unfold removes_object, pc_remove_obj_from_tx.
  rewrite (bind_ok _ _ _ _ _ (find_tx_ok _ _ _ _ Hat Hpart)). cbn iota. cbv zeta.
  apply (remove_obj_with_ok (fun tx => pc_tx_add_region p (cached_region tx)) _ s id p t base sz); try done.
  by apply pc_tx_remove_region_ok; [|apply tx_regions|].
Qed.
