(* ===== verification/PmcClaims.v ===== *)
(** What is promised about pmemcheck, and about the two tools together. *)
From S2P Require Import Prelude OSet OSetTree OSetSpec OSetId Region RegionSpec Bytes StoreSet Core Trans Pmem Store Flush Report Client Spec StoreSpec ReportSpec Refine Sample PmcTx PmcMain PmcClient PmcStoreSpec PmcFlushSpec PmcRun PmcReport TransSpec TxStore TxClaims PmcTxSpec.
Local Open Scope pm_scope.

Implicit Types (s : region_set) (e : pmem_st) (l : list pmem_st) (w : pc_world).

Abbreviation the_stores w := (pc_pmem_stores (pc_pmem w)).

(** The laws of the core hold for the small environment; the tool before its
    start. *)
#[export] Instance sample_core_laws : CoreLaws.
Proof. by split. Qed.

Definition pc_sample_world (o : options) : pc_world :=
  mkPcWorld (mkTxState (mkGlobals 1 (Some 9) 0 0 []) sample_trans)
    (mkPc (OSetGen_Create None) (OSetGen_Create None) [] [] [] o) 0.

Definition pc_default_options : options := pc_pre_clo_init options_zero.

(** Stores that are merged, overwritten in part, and flushed in part. *)
Definition pc_sample_events : list event :=
  [EvMap 1000 500; EvMap 1500 500; EvUnmap 1900 50; EvStore 1100 16 5; EvStore 1116 8 5; EvStore 1108 4 7;
   EvFlush 1104 8; EvStore 3000 4 1; EvFence; EvStore 1400 8 2; EvFlush 1400 8].

Lemma pc_sample_run : pc_run_ok (pc_sample_world pc_default_options) pc_sample_events.
Proof. split; [split|..]; vm_compute; done. Qed.

Section Runs.
Context `{CoreEnv} `{!CoreLaws} `{ClientEnv}.

(** C4: a run of pmemcheck from its initialization on (pmc_post_clo_init, then
    the handlers of the mappings the program registers and removes, of its
    stores, flushes and fences, in any order) returns, and the set of stores then gives
    every byte of the address space exactly the state it has by its own history:
    a store to mapped memory makes it dirty, a flush of it takes it from dirty
    to flushed, a fence from flushed to clean.  Flushes and stores may cut older
    stores anywhere. *)
Theorem pc_run_bytes evs w (Hrun : pc_run_ok w evs) :
  exists w', pc_session evs w = Ok tt w' /\
    forall b, byte_state (elems (the_stores w')) b = bytes_after [] evs all_clean b.
Proof. destruct (pc_session_ok evs w Hrun) as (w' & Heq & _ & _ & _ & Hb). by exists w'. Qed.

(** C8: after a run of pmemcheck, some entry of the set has a byte exactly if
    the program stored to the byte, in memory that was mapped then, and no flush of the
    byte followed by a fence came after that store.  So every byte that is
    flushed and fenced leaves the set for good unless it is stored to again, and no byte leaves it otherwise. *)
Theorem pc_byte_left_iff_open evs w (Hrun : pc_run_ok w evs) :
  exists w', pc_session evs w = Ok tt w' /\
    forall b, (exists e, e ∈ elems (the_stores w') /\ covers e b) <->
      exists evs1 a n v evs2, evs = evs1 ++ EvStore a n v :: evs2 /\
        existsb (meets a n) (maps_after [] evs1) = true /\ in_range a n b = true /\
        ~ byte_persisted b evs2.
Proof.
  destruct (pc_session_ok evs w Hrun) as (w' & Heq & [_ Hs _ Hl _ _ _ _] & _ & _ & Hb).
  exists w'. split; [done|]. intros b.
  change (list_covers (elems (the_stores w')) b <-> left_open [] b evs).
  rewrite <-live_state by (done || by apply st_disjoint). fold (pc_bytes w' b). rewrite Hb.
  rewrite byte_left. unfold survives. naive_solver.
Qed.

(** C9: in a run of pmemcheck that consists of its initialization and then, in any order, of mappings,
    removals of mappings, stores, flushes and fences, under [pc_run_ok] (no logging, no checks of flushes
    and overwriting, no transactions, fewer events than the iterator bears), the state is well formed: the tree of stores is a
    balanced search tree with the size it says, its entries are non-empty, lie inside the address
    space, in increasing order and without overlap, each is dirty or flushed and
    none is clean; the iterator is used up; the registered mappings are in increasing order, and neither overlap nor
    touch.  (The request SET_CLEAN, which is not an event of such a run, can leave a clean entry.) *)
Theorem pc_run_well_formed evs w (Hrun : pc_run_ok w evs) :
  exists w', pc_session evs w = Ok tt w' /\
    let s := the_stores w' in
    avl_ok (root s) /\ OSetGen_Size s = Z.of_nat (length (elems s)) /\ stack s = [] /\
    (forall dn e rem, elems s = dn ++ e :: rem ->
       (state e = STST_DIRTY \/ state e = STST_FLUSHED) /\
       0 <= addr e /\ 0 < size e /\ addr e + size e < word_size /\
       Forall (fun x => addr x + size x <= addr e) dn /\ Forall (fun x => addr e + size e <= addr x) rem) /\
    region_set_ok (pc_pmem_mappings (pc_pmem w')).
Proof.
  destruct (pc_session_ok evs w Hrun) as (w' & Heq & [_ Hs Hst Hl Hm _ _ Hz] & _ & _ & _).
  exists w'. split; [done|]. intros s. split; [apply (wf_avl _ (ok_wf _ _ _ Hs))|].
  split; [apply (st_Size s Hs); rewrite st_size by done; pose proof (pr_length _ _ Hrun); unfold s; lia|]. split; [done|]. split; [|done]. intros dn e rem Hel.
  split; [|by apply (elems_order s)].
  assert (state e <> STST_CLEAN) by (unfold live in Hl; rewrite Forall_forall in Hl; apply Hl; fold s; rewrite Hel; set_solver).
  destruct (state e); [done|by left|by right].
Qed.

(** C3: PMDebugger and pmemcheck agree.  On a run in which no flush cuts a store
    PMDebugger still tracks, the array and tree of PMDebugger and the set of
    pmemcheck give every byte of the address space the same state, although
    PMDebugger keeps one entry per store and moves whole snippets of them and pmemcheck cuts
    and merges its entries. *)
Theorem tools_agree evs (w : world) (v : pc_world) (Hpmd : run_ok w evs) (Hpmc : pc_run_ok v evs) :
  exists (w' : world) v', session evs w = Ok tt w' /\ pc_session evs v = Ok tt v' /\
    forall b, tracked_byte (view w') b = byte_state (elems (the_stores v')) b.
Proof.
  destruct Hpmd as [Hplain Hverb Htx Hevs Hlen Hcuts Hwarn].
  destruct (session_ok evs w) as (w' & Heq & _ & Hv & _ & _); try done.
  destruct (pc_session_ok evs v Hpmc) as (v' & Heq' & _ & _ & _ & Hb).
  exists w', v'. split; [done|]. split; [done|]. intros b. fold (pc_bytes v' b).
  rewrite Hv, Hb, track_all_bytes by done. by apply bytes_after_proper.
Qed.

(** C39: whatever a program has mapped, after a run of mappings, stores, flushes and fences under
    [pc_run_ok] pmemcheck's monitor command
    print_pmem_regions lists no region: it asks the iterator of the set of
    stores, not of the mappings, and does not put it at the first entry, and the
    handlers leave it used up. *)
Theorem pc_regions_command_silent evs w (Hrun : pc_run_ok w evs) :
  exists w' w'', pc_session evs w = Ok tt w' /\
    pc_handle_gdb_monitor_command CmdPrintRegions w' = Ok true w'' /\
    output (the_globals w'') = Gdb "Registered persistent memory regions:\n" [] :: output (the_globals w').
Proof.
  destruct (pc_session_ok evs w Hrun) as (w' & Heq & [_ Hs Hst _ _ _ _ _] & _ & _ & _).
  exists w', (with_globals (put_msg (Gdb "Registered persistent memory regions:\n" []) (the_globals w')) w').
  split; [done|]. split; [|done]. unfold pc_handle_gdb_monitor_command. step. step.
  erewrite bind_ok; [reflexivity|]. unfold while_next, rounds. cbn [fold_next].
  by erewrite (bind_ok pc_next); [|by apply pc_next_used_up].
Qed.
End Runs.

(** * One operation on any set *)

Section Operations.
Context `{CoreEnv}.

(** C10: the report pmemcheck prints at the end of a run (pmc_fini) is exact, in
    every state in which the set of stores and the set of transactions are well
    formed and have fewer entries than the iterator bears, whatever the checks have
    registered.  After the end mark of the log, if stores are logged, it
    lists the entries of the set, all of them and in the order of
    their addresses, with their number and the total of their sizes, which is the
    number of the different bytes they cover; and the last line counts the errors: the redundant and the needless
    flushes, the overwritten stores, the entries of the set, the stores outside transactions, the
    regions in two transactions and the transactions that are still open.  The set
    of stores is kept. *)
Theorem pc_exit_report_exact w
    (Hs : st_ok (the_stores w)) (Hlim : card (the_stores w) < iter_limit)
    (Htx : id_ok (transactions (trans (pc_tx w)))) (Htlim : card (transactions (trans (pc_tx w))) < iter_limit)
    (Hnolog : redundant_logging_tx_evs (trans (pc_tx w)) = [])
    (Hsummary : print_summary (pc_opts (pc_pmem w)) = true)
    (Herrors : error_summary (pc_opts (pc_pmem w)) = true) :
  let l := elems (the_stores w) in
  exists w' others not_persistent, pc_fini w = Ok tt w' /\ elems (the_stores w') = l /\
    output (the_globals w') =
      summary_line
        (Z.of_nat (length (pc_redundant_flushes (pc_pmem w))) +
         Z.of_nat (length (pc_superfluous_flushes (pc_pmem w))) +
         Z.of_nat (length (pc_multiple_stores (pc_pmem w))) + Z.of_nat (length l) +
         (Z.of_nat (length (oot_stores (trans (pc_tx w)))) + Z.of_nat (length (cross_tx_evs (trans (pc_tx w)))) +
          Z.of_nat (length (elems (transactions (trans (pc_tx w))))))) ::
      rev (stop_lines (pc_opts (pc_pmem w)) ++ outstanding l ++ others) ++ output (the_globals w) /\
    total_size l = Z.of_nat (length not_persistent) /\ NoDup not_persistent /\
    forall b, b ∈ not_persistent <-> exists e, e ∈ l /\ covers e b.
Proof.
  intros l. destruct (pc_fini_general w Hs Hlim Htx Htlim Hsummary Herrors) as (w' & rest & Heq & Hel & Hout).
  exists w', rest, (flat_map bytes_of l). split; [done|]. split; [done|]. split; [|split; [|split]].
  - rewrite Hout. unfold pc_warnings, tx_warnings. rewrite Hnolog. cbn [length]. by rewrite Z.add_0_r.
  - apply all_bytes_length. eapply Forall_impl; [apply (ok_elems _ _ _ Hs)|]. intros x (? & ? & ?). lia.
  - apply all_bytes_nodup. by apply st_disjoint.
  - apply all_bytes_covers.
Qed.

(** C11: a flush in pmemcheck takes exactly the dirty bytes of its range to
    flushed, however the entries lie, and no other byte changes its state.  With the
    check of flushes the register of redundant flushes gets, in the order of the
    addresses, every entry it meets that was flushed before, and besides the
    part of a dirty entry that starts before the flush and does not end behind it; the
    flush is registered as superfluous exactly if no entry has a byte of it. *)
Theorem pc_flush_exact w a n (Hset : st_ok (the_stores w)) (Hrange : region_ok (region_at a n))
    (Hlog : log_stores (pc_opts (pc_pmem w)) = false)
    (Halign : force_flush_align (pc_opts (pc_pmem w)) = false)
    (Hroom : Z.of_nat (length (elems (the_stores w))) + 2 < iter_limit)
    (Hred : Z.of_nat (length (pc_redundant_flushes (pc_pmem w)) + length (elems (the_stores w))) <= MAX_FLUSH_ERROR_EVENTS)
    (Hsup : Z.of_nat (length (pc_superfluous_flushes (pc_pmem w))) < MAX_FLUSH_ERROR_EVENTS) :
  let fl := region_at a n in
  let l := elems (the_stores w) in
  let check := check_flush (pc_opts (pc_pmem w)) in
  exists w', pc_do_flush a n w = Ok tt w' /\
    (forall b, byte_state (elems (the_stores w')) b =
       if in_range a n b && bool_decide (byte_state l b = STST_DIRTY) then STST_FLUSHED
       else byte_state l b) /\
    pc_redundant_flushes (pc_pmem w') = pc_redundant_flushes (pc_pmem w) ++
      (if check then flat_map (flush_warns fl) l else []) /\
    pc_superfluous_flushes (pc_pmem w') = pc_superfluous_flushes (pc_pmem w) ++
      (if check && negb (existsb (hits fl) l) then [set_context (exe_context (the_globals w)) fl] else []).
Proof.
  intros fl l check. pose proof (ok_elems _ _ _ Hset) as Hall. pose proof (st_disjoint _ Hset) as Hd.
  pose proof (flush_length fl l Hrange Hall Hd) as Hlen.
  pose proof (flush_warns_length fl l) as Hw.
  destruct (pc_do_flush_ok w (the_stores w) a n) as (s' & Heq & _ & _ & Hel); try done.
  { unfold fl, l in *. lia. }
  { unfold fl, l in *. simpl. rewrite length_app. unfold warned. destruct (check_flush _); simpl; lia. }
  { simpl. rewrite length_app. unfold warned. destruct (existsb _ _), (check_flush _); simpl; lia. }
  rewrite pc_at_self in Heq. eexists. split; [exact Heq|]. split; [|split].
  - intros b. simpl. rewrite Hel. fold l fl. by rewrite flush_state.
  - done.
  - simpl. unfold warned. fold fl l check. by destruct check, (existsb (hits fl) l).
Qed.

(** C12: the loop of a flush ends.  It takes the iterator back to a part of an
    entry it has cut, up to twice; still 2 rounds for every entry and one more are
    enough, and with more rounds the result is the same. *)
Theorem pc_flush_terminates w a n (Hset : st_ok (the_stores w)) (Hrange : region_ok (region_at a n))
    (Hroom : Z.of_nat (length (elems (the_stores w))) + 2 < iter_limit)
    (Hred : Z.of_nat (length (pc_redundant_flushes (pc_pmem w)) + length (elems (the_stores w))) <= MAX_FLUSH_ERROR_EVENTS) :
  exists valid w', forall fuel, (2 * length (elems (the_stores w)) < fuel)%nat ->
    (pc_reset ;;; fold_next fuel pc_next false (pc_flush_node (region_at a n))) w = Ok valid w'.
Proof.
  set (l := elems (the_stores w)) in *. set (fl := region_at a n) in *.
  pose proof (ok_elems _ _ _ Hset) as Hall. pose proof (st_disjoint _ Hset) as Hd.
  pose proof (flush_length fl l Hrange Hall Hd) as Hlen. pose proof (flush_warns_length fl l) as Hw.
  destruct (pc_reset_ok w (the_stores w) Hset) as (s1 & Heq1 & Hv1 & _); [rewrite st_size by done; fold l; lia|].
  rewrite pc_at_self in Heq1.
  destruct (flush_loop_ok fl Hrange w (nodes (the_stores w)) (S (2 * length l)) false
    (pc_redundant_flushes (pc_pmem w)) s1 [] Hv1) as (s' & Heq & _).
  { unfold l, elems. rewrite length_fmap. lia. }
  { change (nodes (the_stores w)).*2 with l. simpl. lia. }
  { change (nodes (the_stores w)).*2 with l. rewrite length_app. unfold warned. destruct (check_flush _); simpl; lia. }
  eexists _, _. intros fuel Hf. rewrite (bind_ok _ _ _ _ _ Heq1).
  unfold flush_run in Heq.
  assert (with_redundant (pc_redundant_flushes (pc_pmem w)) w = w) as Ew by by destruct w as [? [] ?].
  rewrite Ew in Heq. exact (fold_next_more _ fuel _ _ _ _ _ _ Heq ltac:(lia)).
Qed.

(** C13: with the check of multiple stores pmemcheck's handler replaces the bytes
    of every entry the new store overlaps and keeps the others; it registers a
    warning for every overlapped entry, once, except those it merely repeats
    (same address, size and value, close enough), and the warning has exactly
    the bytes that are overwritten. *)
Theorem pc_overwrite_exact w new (Hset : st_ok (the_stores w)) (Hiter : stack (the_stores w) = [])
    (Hnew : region_ok new)
    (Hfit : Z.of_nat (length (pc_multiple_stores (pc_pmem w)) + length (elems (the_stores w))) <= MAX_MULT_OVERWRITES) :
  let l := elems (the_stores w) in
  let hit := reported (store_sb_indiff (pc_opts (pc_pmem w))) new l in
  exists w' evs, pc_handle_with_mult_stores new w = Ok tt w' /\
    (forall b, byte_state (elems (the_stores w')) b = if covers_byte new b then state new else byte_state l b) /\
    pc_multiple_stores (pc_pmem w') = pc_multiple_stores (pc_pmem w) ++ evs /\
    evs ≡ₚ overwritten new <$> hit /\
    (forall o b, o ∈ hit -> covers (overwritten new o) b <-> covers new b /\ covers o b).
Proof.
  intros l hit. pose proof (ok_elems _ _ _ Hset) as Hall.
  destruct (pc_mult_overlapping_ok (S (tree_size (root (the_stores w)))) w new (the_stores w)
    (pc_multiple_stores (pc_pmem w))) as (s' & evs & Heq & Hok' & Hst' & Hu & Hel & Hevs); try done.
  { rewrite st_tree_size by done. pose proof (overlaps_le new (elems (the_stores w))). lia. }
  { pose proof (reported_length (store_sb_indiff (pc_opts (pc_pmem w))) new l) as Hr. unfold l in Hr. lia. }
  assert (pc_at (with_multiple (pc_multiple_stores (pc_pmem w)) w) (the_stores w) = w) as Ew
    by by destruct w as [? [] ?].
  rewrite Ew in Heq. destruct (st_insert s' new Hok' Hnew Hu) as (s2 & Hi & Hok2 & Hel2 & _).
  exists (pc_at (with_multiple (pc_multiple_stores (pc_pmem w) ++ evs) w) s2), evs. split; [|split; [|split; [done|split; [done|]]]].
  - unfold pc_handle_with_mult_stores. step. rewrite (bind_ok _ _ _ _ _ Heq). by apply pc_insert_ok.
  - intros b. simpl. rewrite (byte_state_perm _ _ b (st_disjoint _ Hok2) Hel2). cbn [byte_state].
    rewrite (byte_state_perm _ _ b (st_disjoint _ Hok') Hel), cut_out_state by done. fold l.
    by destruct (covers_byte new b).
  - intros o b [[Hc _] Ho]%list_elem_of_filter. rewrite Forall_forall in Hall. specialize (Hall o Ho).
    apply overwritten_covers; [done|done|]. intros Hout. apply cmp_overlap in Hc; [|done..].
    by apply Hc, outside_sym.
Qed.
End Operations.

(** * Transactions *)

(** C30: on well-formed transactions, without verbose messages and with room in the register, pmemcheck's check of a store and PMDebugger's
    do exactly the same: they return in the same state, and the store is
    reported exactly if it is not wholly excluded and either the running thread is in some
    transaction and none of its transactions has logged all of the bytes, or it is in none
    and only transactional stores are allowed (--tx-only). *)
Theorem pc_tx_check_same (s : tx_state) store (Hs : tx_world_ok s) (Hr : region_ok store)
    (Hroom : oot_stores_reg (trans s) < MAX_OOT_STORES) :
  pc_handle_tx_store store s = handle_tx_store store s /\
  exists (s' : tx_state), pc_handle_tx_store store s = Ok tt s' /\ store_frame s s' /\
    (out_of_tx s store -> oot_stores (trans s') = oot_stores (trans s) ++ [store]) /\
    (~ out_of_tx s store -> oot_stores (trans s') = oot_stores (trans s)).
Proof.
  pose proof (pc_handle_tx_store_same s store Hs Hr) as E. split; [done|]. rewrite E.
  by apply handle_tx_store_ok.
Qed.

(** C31: in pmemcheck, too, adding an object to a transaction makes it log
    exactly the bytes of the object besides what it had logged and registers one
    event for every other transaction with an overlapping region; removing an
    object apart from the region last added makes it forget exactly the bytes of
    the object.  Other transactions are left alone. *)
Theorem pc_objects_exact (s : tx_state) id p t base sz (Hat : tx_at s id p t) (Ht : tx_ok t) (Hpart : takes_part s id)
    (Hred : redundant_logging (trans s) = false)
    (H1 : 1 <= base) (H2 : 0 < sz) (H3 : base + sz + 1 < word_size)
    (Hlim : card (transactions (trans s)) < iter_limit) :
  let reg := set_context (exe_context (glob s)) (region_at base sz) in
  let cr := all_cross reg id (elems (transactions (trans s))) in
  (events_fit s cr [] ->
   exists (s' : tx_state) t', pc_add_obj_to_tx id base sz s = Ok 0 s' /\ find_id s' id = Some t' /\
     (forall b, tx_bytes t' b <-> tx_bytes t b \/ base <= b < base + sz) /\
     (forall k, k <> id -> find_id s' k = find_id s k) /\
     cross_tx_evs (trans s') = cross_tx_evs (trans s) ++ cr) /\
  (cmp_pmem_st (region_at base sz) (cached_region t) <> 0 ->
   exists (s' : tx_state) t', pc_remove_obj_from_tx id base sz s = Ok 0 s' /\ find_id s' id = Some t' /\
     (forall b, tx_bytes t' b <-> tx_bytes t b /\ ~ base <= b < base + sz) /\
     forall k, k <> id -> find_id s' k = find_id s k).
Proof.
  intros reg cr. split.
  - intros Hfit. destruct (pc_add_obj_to_tx_ok s id p t base sz Hat Ht Hpart) as (s' & t' & E1 & E2 & _ & _ & _ & E3 & E4 & E5 & _);
      [done..|]. by exists (s' : tx_state), t'.
  - intros Hc. destruct (pc_remove_obj_ok s id p t base sz Hat Ht Hpart) as (s' & t' & E1 & E2 & _ & E3 & E4);
      [unfold region_ok; simpl; lia|done|]. by exists (s' : tx_state), t'.
Qed.

(** * What goes wrong *)

Section Merged.
Context `{CoreEnv} `{!CoreLaws}.

(** The transactions are asked about the whole entry of the set that a store has become part of. *)
Lemma pc_store_checked w a n v :
  log_stores (pc_opts (pc_pmem w)) = false -> track_multiple_stores (pc_opts (pc_pmem w)) = false ->
  st_ok (the_stores w) -> stack (the_stores w) = [] -> region_set_ok (pc_pmem_mappings (pc_pmem w)) ->
  existsb (meets a n) (pc_mapped w) = true -> 1 <= a -> 0 < n -> a + n + 1 < word_size ->
  tx_world_ok (pc_tx w) -> oot_stores_reg (trans (pc_tx w)) < MAX_OOT_STORES ->
  exists w' r, pc_trace_pmem_store a n v w = Ok tt w' /\ r ∈ elems (the_stores w') /\
    (forall b, a <= b < a + n -> covers r b) /\
    (forall o, o ∈ elems (the_stores w) -> addr o + size o = a ->
       is_store_mergeable (set_context (exe_context (the_globals w)) (set_state STST_DIRTY (region_at a n))) o = Some true ->
       forall b, covers o b -> covers r b) /\
    (out_of_tx (pc_tx w) r -> oot_stores (trans (pc_tx w')) = oot_stores (trans (pc_tx w)) ++ [r]).
Proof.
  intros Hlog Hmult Hs Hst Hmap Hin Ha Hn Hz Htx Hroom.
  assert (region_ok (region_at a n)) as Hreg by (unfold region_ok; simpl; lia).
  unfold pc_trace_pmem_store. assert (pc_is_pmem_access a n w = Ok true w) as Hacc.
  { unfold pc_is_pmem_access. step. unfold retM. f_equal. by rewrite contains_meets. }
  rewrite (bind_ok _ _ _ _ _ Hacc). cbn [negb]. do 3 step. rewrite Hlog. step. step. rewrite Hmult.
  set (store := set_context _ _).
  destruct (pc_add_and_merge_ok w (the_stores w) store)
    as (s' & r & Heq & Hok' & _ & _ & _ & (Hr & Hrin & Hlo & Hhi & Hfront) & _); [done|done|done|done|simpl; lia|].
  rewrite pc_at_self in Heq. rewrite (bind_ok _ _ _ _ _ Heq).
  destruct (handle_tx_store_ok (pc_tx w) r Htx Hr Hroom) as (t' & Hh & _ & Hout & _).
  rewrite <-pc_handle_tx_store_same in Hh by done.
  exists (pc_set_tx t' (pc_at w s')), r. unfold covers. simpl in Hlo, Hhi.
  split; [unfold pc_in_tx, zoomM; simpl; by rewrite Hh|]. split; [done|]. split; [lia|]. split; [|done].
  intros o Ho Hadj Hm b Hb. specialize (Hfront o Ho Hadj Hm). lia.
Qed.

End Merged.

(** A client request with its number in pmemcheck.h. *)
Definition pc_request (r : nat) (args : list Z) : PC unit :=
  _ <- pc_handle_client_request (request_args (PC_BASE + Z.of_nat r :: args)) ;; retM tt.

(** A transaction (VG_USERREQ__PMC_START_TX) that logs the bytes 1104 to 1107
    (VG_USERREQ__PMC_ADD_TO_TX) and stores to them; [before]: the same code has
    stored to the four bytes in front of them outside of the transaction. *)
Definition logged_store (before : bool) : PC unit :=
  pc_session [EvMap 1000 1000] ;;;
  whenM before (pc_trace_pmem_store 1100 4 1) ;;;
  pc_request 18 [] ;;; pc_request 22 [1104; 4] ;;;
  pc_trace_pmem_store 1104 4 2.

Definition out_of_tx_stores w : list (Z * Z) :=
  (fun e => (addr e, size e)) <$> oot_stores (trans (pc_tx w)).

(** In these runs pmemcheck reports a store whose bytes are all logged in the running
    transaction as made outside of it, if a store next to it has been merged
    with it: the check is given the merged region.  Without that neighbour the
    same store is not reported. *)
Example merged_store_run :
  (exists w, logged_store true (pc_sample_world pc_default_options) = Ok tt w /\
    out_of_tx_stores w = [(1100, 8)]) /\
  (exists w, logged_store false (pc_sample_world pc_default_options) = Ok tt w /\
    out_of_tx_stores w = []).
Proof.
  split.
  - destruct (ends_with_ok (fun w => bool_decide (out_of_tx_stores w = [(1100, 8)]))
      (logged_store true (pc_sample_world pc_default_options))) as (w & Heq & Hb);
      [vm_compute; reflexivity|]. exists w. split; [exact Heq|]. by apply bool_decide_eq_true in Hb.
  - destruct (ends_with_ok (fun w => bool_decide (out_of_tx_stores w = []))
      (logged_store false (pc_sample_world pc_default_options))) as (w & Heq & Hb);
      [vm_compute; reflexivity|]. exists w. split; [exact Heq|]. by apply bool_decide_eq_true in Hb.
Qed.

(** * Instances *)

Lemma pc_run_bytes_witness :
  exists w', pc_session pc_sample_events (pc_sample_world pc_default_options) = Ok tt w' /\
    forall b, byte_state (elems (the_stores w')) b = bytes_after [] pc_sample_events all_clean b.
Proof. exact (pc_run_bytes pc_sample_events (pc_sample_world pc_default_options) pc_sample_run). Defined.

Lemma pc_byte_left_iff_open_witness :
  exists w', pc_session pc_sample_events (pc_sample_world pc_default_options) = Ok tt w' /\
    forall b, (exists e, e ∈ elems (the_stores w') /\ covers e b) <->
      exists evs1 a n v evs2, pc_sample_events = evs1 ++ EvStore a n v :: evs2 /\
        existsb (meets a n) (maps_after [] evs1) = true /\ in_range a n b = true /\
        ~ byte_persisted b evs2.
Proof. exact (pc_byte_left_iff_open pc_sample_events (pc_sample_world pc_default_options) pc_sample_run). Defined.

Lemma pc_run_well_formed_witness :
  exists w', pc_session pc_sample_events (pc_sample_world pc_default_options) = Ok tt w' /\
    avl_ok (root (the_stores w')).
Proof.
  destruct (pc_run_well_formed pc_sample_events (pc_sample_world pc_default_options) pc_sample_run)
    as (w' & Heq & Ha & _). exists w'. split; [exact Heq|exact Ha].
Defined.

Lemma pc_regions_command_silent_witness :
  exists w' w'', pc_session pc_sample_events (pc_sample_world pc_default_options) = Ok tt w' /\
    pc_handle_gdb_monitor_command CmdPrintRegions w' = Ok true w'' /\
    output (the_globals w'') = Gdb "Registered persistent memory regions:\n" [] :: output (the_globals w').
Proof. exact (pc_regions_command_silent pc_sample_events (pc_sample_world pc_default_options) pc_sample_run). Defined.

(** The run of the other tool, without the check of flushes. *)
Lemma both_run :
  run_ok (sample_world default_options) sample_events /\
  pc_run_ok (pc_sample_world pc_default_options) sample_events.
Proof. split; [split|split; [split|..]]; vm_compute; repeat split; done. Qed.

Lemma tools_agree_witness :
  exists (w' : world) v', session sample_events (sample_world default_options) = Ok tt w' /\
    pc_session sample_events (pc_sample_world pc_default_options) = Ok tt v' /\
    forall b, tracked_byte (view w') b = byte_state (elems (the_stores v')) b.
Proof.
  exact (tools_agree sample_events (sample_world default_options) (pc_sample_world pc_default_options)
    (proj1 both_run) (proj2 both_run)).
Defined.

(** A set with a dirty and a flushed entry, with both checks switched on. *)
Definition checking : options := set_track_multiple_stores true (set_check_flush true pc_default_options).

Definition two_entries : list pmem_st :=
  [set_state STST_DIRTY (region_at 1100 16); set_state STST_FLUSHED (region_at 1200 8)].

Definition insert_all (l : list pmem_st) : region_set :=
  foldl (fun s e => default s (OSetGen_Insert s e)) (OSetGen_Create (Some cmp_pmem_st)) l.

Definition two_world : pc_world := pc_at (pc_sample_world checking) (insert_all two_entries).

Lemma two_world_ok : st_ok (the_stores two_world).
Proof.
  destruct (st_insert (OSetGen_Create (Some cmp_pmem_st)) (set_state STST_DIRTY (region_at 1100 16)) st_empty)
    as (s1 & Hi1 & Hok1 & Hel1 & _); [vm_compute; done|constructor|].
  destruct (st_insert s1 (set_state STST_FLUSHED (region_at 1200 8)) Hok1) as (s2 & Hi2 & Hok2 & _);
    [vm_compute; done|rewrite Hel1; constructor; [vm_compute; by right|constructor]|].
  assert (insert_all two_entries = s2) as Hs by (unfold insert_all, two_entries; cbn [foldl]; rewrite Hi1; simpl default; by rewrite Hi2).
  unfold two_world. simpl. by rewrite Hs.
Qed.

(** The two entries, an open transaction and a flush that was redundant. *)
Definition ending_world : pc_world :=
  mkPcWorld one_tx (mkPc (insert_all two_entries) (OSetGen_Create None) [] [region_at 1200 8] [] checking) 0.

Lemma pc_exit_report_exact_witness :
  exists w' others, pc_fini ending_world = Ok tt w' /\
    output (the_globals w') =
      summary_line 4 :: rev (outstanding (elems (insert_all two_entries)) ++ others) ++ output (the_globals ending_world) /\
    total_size (elems (insert_all two_entries)) = 24.
Proof.
  destruct (pc_exit_report_exact ending_world two_world_ok) as (w' & others & l & Heq & _ & Hout & Htot & _);
    [vm_compute; done|apply one_tx_ok|vm_compute; done|reflexivity|reflexivity|reflexivity|].
  exists w', others. split; [exact Heq|]. split; [exact Hout|]. reflexivity.
Defined.

Lemma pc_flush_exact_witness :
  exists w', pc_do_flush 1108 100 two_world = Ok tt w' /\
    byte_state (elems (the_stores w')) 1107 = STST_DIRTY /\
    byte_state (elems (the_stores w')) 1108 = STST_FLUSHED /\
    length (pc_redundant_flushes (pc_pmem w')) = 2%nat /\
    pc_superfluous_flushes (pc_pmem w') = [].
Proof.
  destruct (pc_flush_exact two_world 1108 100 two_world_ok) as (w' & Heq & Hb & Hr & Hs);
    [vm_compute; done|reflexivity|reflexivity|vm_compute; done|vm_compute; done|vm_compute; done|].
  exists w'. split; [exact Heq|]. split; [rewrite Hb; reflexivity|]. split; [rewrite Hb; reflexivity|].
  split; [rewrite Hr; reflexivity|rewrite Hs; reflexivity].
Defined.

Lemma pc_flush_terminates_witness :
  exists valid w', forall fuel, (4 < fuel)%nat ->
    (pc_reset ;;; fold_next fuel pc_next false (pc_flush_node (region_at 1108 100))) two_world = Ok valid w'.
Proof.
  apply (pc_flush_terminates two_world 1108 100 two_world_ok); vm_compute; done.
Defined.

Lemma pc_overwrite_exact_witness :
  exists w' evs, pc_handle_with_mult_stores (set_state STST_DIRTY (region_at 1112 100)) two_world = Ok tt w' /\
    byte_state (elems (the_stores w')) 1200 = STST_DIRTY /\
    pc_multiple_stores (pc_pmem w') = evs /\ length evs = 2%nat.
Proof.
  destruct (pc_overwrite_exact two_world (set_state STST_DIRTY (region_at 1112 100)) two_world_ok)
    as (w' & evs & Heq & Hb & Hm & Hp & _); [reflexivity|vm_compute; done|vm_compute; done|].
  exists w', evs. split; [exact Heq|]. split; [rewrite Hb; reflexivity|]. split; [exact Hm|].
  rewrite Hp. reflexivity.
Defined.

Lemma pc_tx_check_same_witness :
  pc_handle_tx_store (region_at 100 8) one_tx = handle_tx_store (region_at 100 8) one_tx.
Proof.
  assert (region_ok (region_at 100 8)) as Hr by (by vm_compute).
  apply (pc_tx_check_same one_tx (region_at 100 8) one_tx_world Hr). by vm_compute.
Defined.

Lemma pc_objects_exact_witness :
  exists (s' : tx_state) t', pc_add_obj_to_tx 7 100 8 one_tx = Ok 0 s' /\ find_id s' 7 = Some t' /\ tx_bytes t' 107.
Proof.
  destruct one_tx_node as (p & Hp).
  assert (tx_at one_tx 7 p (mkTx 7 1 (Some 9) (OSetGen_Create (Some cmp_pmem_st)) pmem_st_zero)) as Hat
    by (split; [apply one_tx_ok|exact Hp]).
  destruct (pc_objects_exact one_tx 7 p _ 100 8 Hat (new_tx_ok 7 1 (Some 9)) one_tx_part) as [Hadd _];
    [by vm_compute|lia|lia|by vm_compute|by vm_compute|].
  destruct Hadd as (s' & t' & E1 & E2 & E3 & _); [by vm_compute|].
  exists s', t'. split; [exact E1|]. split; [exact E2|]. apply E3. right. lia.
Defined.

(** An entry of the store's own code in front of it, with mapped memory around, and a transaction. *)
Definition front_entry : pmem_st := set_context (Some 9) (set_state STST_DIRTY (region_at 1100 4)).

Definition merging_world : pc_world :=
  mkPcWorld one_tx (mkPc (insert_all [front_entry])
    (default (OSetGen_Create None) (pc_add_region (region_at 1000 1000) (OSetGen_Create (Some cmp_pmem_st)))) [] [] [] pc_default_options) 0.

Lemma merging_stores_ok : st_ok (the_stores merging_world).
Proof.
  destruct (st_insert (OSetGen_Create (Some cmp_pmem_st)) front_entry st_empty) as (s1 & Hi1 & Hok1 & _);
    [vm_compute; done|constructor|].
  assert (insert_all [front_entry] = s1) as Hs by (unfold insert_all; cbn [foldl]; by rewrite Hi1).
  unfold merging_world. simpl. by rewrite Hs.
Qed.

Lemma merging_maps_ok : region_set_ok (pc_pmem_mappings (pc_pmem merging_world)).
Proof.
  assert (region_ok (region_at 1000 1000)) as Hr by (by vm_compute).
  destruct (add_region_correct _ (region_at 1000 1000) region_set_empty Hr) as (set' & Hadd & Hset' & _); [by vm_compute..|].
  rewrite <-(pc_add_region_same _ _ region_set_empty Hr ltac:(by vm_compute) ltac:(by vm_compute)) in Hadd.
  unfold merging_world. cbn [pc_pmem_mappings pc_pmem]. rewrite Hadd. exact Hset'.
Qed.

