(* ===== verification/PmcEndToEnd.v ===== *)
(** The same for pmemcheck: the helper calls of the instrumented blocks go to its handlers, and
    the bytes get the states they have by the stores, flushes and fences of the original blocks.
    The instrumentation is the same in both tools. *)
From S2P Require Import Prelude OSet OSetTree OSetSpec Region RegionSpec Bytes StoreSet Core Trans Pmem Store Flush Report Client Spec StoreSpec MapSpec Sample Refine IR Instr InstrSpec InstrRun InstrClaims EndToEnd Program PmcTx PmcMain PmcClient PmcStoreSpec PmcFlushSpec PmcRun PmcReport PmcClaims.
Local Open Scope Z_scope.
Local Open Scope pm_scope.

Implicit Types (w : pc_world).

Section Dispatch.
Context `{CoreEnv} `{!CoreLaws}.

Definition pc_handle_call (cl : call) : PC unit :=
  match callee cl, values cl with
  | trace_pmem_store_h, [a; n; v] => pc_trace_pmem_store a n v
  | trace_pmem_flush_h, [a] => pc_trace_pmem_flush a
  | do_fence_h, [] => pc_do_fence
  | add_one_SB_entered_h, [] => pc_add_one_SB_entered
  | _, _ => stopM AssertFail
  end.

Fixpoint pc_handle_calls (l : list call) : PC unit :=
  match l with
  | [] => retM tt
  | cl :: l => pc_handle_call cl ;;; pc_handle_calls l
  end.

Lemma pc_handle_call_event cl w :
  call_ok cl = true ->
  match call_event (flush_align_size (pc_opts (pc_pmem w))) cl with
  | Some ev => pc_handle_call cl w = pc_handle_event ev w
  | None => pc_handle_call cl w = pc_add_one_SB_entered w
  end.
Proof.
  destruct cl as [h l]. unfold call_ok, call_event, pc_handle_call. simpl.
  destruct h, l as [|? [|? [|? [|]]]]; done.
Qed.

Lemma pc_entered_ok P k w :
  pc_inv P k w -> exists w', pc_add_one_SB_entered w = Ok tt w' /\ pc_inv P k w' /\ pc_pmem w' = pc_pmem w.
Proof. intros []. eexists. split; [reflexivity|]. by split. Qed.

Lemma pc_handle_calls_ok P `{!PcTxQuiet P} line l : forall k w maps m,
  let evs := omap (call_event line) l in
  pc_inv P k w -> flush_align_size (pc_opts (pc_pmem w)) = line -> forallb call_ok l = true ->
  2 * (k + Z.of_nat (length evs)) < iter_limit -> forallb pc_event_ok evs = true ->
  same_bytes (pc_mapped w) maps -> (forall b, pc_bytes w b = m b) ->
  exists w', pc_handle_calls l w = Ok tt w' /\ forall b, pc_bytes w' b = bytes_after maps evs m b.
Proof.
  induction l as [|cl l IH]; intros k w maps m evs Hinv Hline Hcl Hk Hok Hm Hb; [by exists w|].
  cbn [forallb] in Hcl. apply andb_true_iff in Hcl as [Hc Hcl]. cbn [pc_handle_calls].
  pose proof (pc_handle_call_event cl w Hc) as Hcall. rewrite Hline in Hcall.
  unfold evs in *. cbn [omap list_omap] in *. destruct (call_event line cl) as [ev|].
  - cbn [length forallb bytes_after] in *. apply andb_true_iff in Hok as [Hok1 Hok2].
    destruct (pc_handle_event_ok P k w maps ev Hinv ltac:(lia) Hok1 Hm) as (w1 & Heq & Hinv1 & Ho1 & Hm1 & Hb1).
    rewrite <-Hcall in Heq. rewrite (bind_ok _ _ _ _ _ Heq).
    apply (IH (k + 1) w1 (map_after ev maps)); rewrite ?Ho1; try done; [lia|].
    intros b. rewrite Hb1. by apply byte_step_proper.
  - destruct (pc_entered_ok P k w Hinv) as (w1 & Heq & Hinv1 & Hp). rewrite <-Hcall in Heq.
    rewrite (bind_ok _ _ _ _ _ Heq).
    assert (pc_mapped w1 = pc_mapped w) as Hm1 by (unfold pc_mapped; by rewrite Hp).
    apply (IH k w1 maps); rewrite ?Hp, ?Hm1; try done.
    intros b. unfold pc_bytes. rewrite Hp. apply Hb.
Qed.
End Dispatch.

Lemma pc_events_ok evs : forallb pc_event_ok evs = true -> forallb event_ok evs = true.
Proof. induction evs as [|ev evs IH]; [done|]. simpl. rewrite !andb_true_iff. unfold pc_event_ok at 1. rewrite andb_true_iff. tauto. Qed.

(** The set gives every byte the state it has by the events of the calls an observer of the original blocks
    expects. *)
Lemma pc_instrumented_run_events `{PrimopTypes} `{CoreEnv} `{!CoreLaws} `{ClientEnv} {C}
    (client : IRStmt -> temps -> C -> temps * C * bool) w evs vs
    (Hvs : Forall (visit_ok client (pc_opts (pc_pmem w))) vs)
    (Hrun : pc_run_ok w (evs ++ flat_map (visit_events client (pc_opts (pc_pmem w)) read_cache_line_size) vs)) :
  exists w', (pc_session evs ;;; pc_handle_calls (flat_map (visit_calls client) vs)) w = Ok tt w' /\
    forall b, byte_state (elems (the_stores w')) b =
      bytes_after [] (evs ++ flat_map (visit_events client (pc_opts (pc_pmem w)) read_cache_line_size) vs) all_clean b.
Proof.
  destruct (visits_calls_ok client _ read_cache_line_size vs Hvs) as [He Hcl]. rewrite <-He in *.
  set (l := flat_map (visit_calls client) vs) in *. destruct Hrun as [Hp Hv Hto Hev Hlen].
  rewrite forallb_app in Hev. rewrite length_app in Hlen. apply andb_true_iff in Hev as [Hev1 Hev2].
  destruct (pc_session_ok evs w) as (w1 & Heq1 & Hinv1 & Ho1 & Hm1 & Hb1); [split; try done; lia|].
  rewrite (bind_ok _ _ _ _ _ Heq1), bytes_after_parts.
  apply (pc_handle_calls_ok tx_idle read_cache_line_size l (Z.of_nat (length evs)) w1); try done.
  - by rewrite Ho1.
  - lia.
Qed.


(** The sample block in pmemcheck. *)
Definition pc_visit : visit (list (Z * Z)) :=
  mkVisit sample_block
    (match pmc_instrument pc_default_options sample_block Ity_I64 Ity_I64
       (the_globals (pc_sample_world pc_default_options)) with
     | Ok _ s | Stop _ s => sbOut s
     end) (fun t => if t =? 0 then 4096 else if t =? 2 then 2 ^ 100 + 1 else 0) [].

